(* ===== verification/_CoqProject ===== *)
-Q . S2P
Prelude.v
Types.v
Circ.v
Rings.v
WorkQueues.v
RingConc.v
Float64.v
Policies.v
Waiters.v
Baton.v
Mutex.v
Semaphore.v
PoolLists.v
Pool.v
Idle.v
Metrics.v
Scheduler.v
Registry.v
Timers.v
ChaseLev.v
Online.v
Feedback.v
IoBackend.v
IoLibaio.v
IoUring.v
IoSpdk.v
IoEngine.v
RingNet.v
Executor.v
ExecutorRun.v
CoroTask.v
CoroApi.v
MetricText.v
Runtime.v
TimedWait.v
PoolConc.v
PoolListConc.v
SpscConc.v
OnlineSound.v
Placement.v
MetricCatalog.v
RelAcq.v
RingWeak.v
SpscWeak.v
StopWeak.v
VyukovWeak.v
MutexWeak.v
RingSingle.v
BatonWeak.v
SemaphoreWeak.v
