(* ===== verification/Prelude.v ===== *)
(** * Verification of the storage-engine runtime

    The program is the C++ runtime under [src/src/runtime]: workers that run
    coroutines and functions out of queues, the lock-free structures they
    share, the coroutine tasks and synchronisation primitives, the memory pool,
    timers, metrics with their HTTP server, the work-stealing executor and the
    controller that re-balances dispatch; and the asynchronous IO back ends
    under [src/src/io].

    ** How the parts interact

    A [Worker] owns a [Scheduler]; the scheduler owns the worker's
    [WorkQueue]s, asks a [SchedulingPolicy] which one to serve, runs the items
    and parks in [AdaptiveIdle] when there is nothing to do.  Coroutines that
    block on an [AffinityBaton], [AffinityMutex] or [AffinitySemaphore] are
    routed back to the affine queue of their worker; sleeping ones are kept in
    the worker's timers or in the shared timer wheel, which finds its workers
    in the [WorkerRegistry].  [OnlineWorkerGroup] builds the workers and routes
    keys to them; [FeedbackLoop] reads their counters and swaps their engine
    queues.  [OfflineWorkerGroup] is a [WorkStealingExecutor], whose workers
    run their own loop over a ring each and steal from each other; [Runtime]
    starts both groups.  A coroutine is a [Task], made by the coroutine API
    ([coro_create], [when_all], [co_submit]) and carried through the queues as
    a handle.  An online worker may own an [IIOBackend] made by [IOEngine]:
    [co_read] and [co_write] submit to it and wait on a baton, and the worker's
    IO coroutine polls it.  Metrics register with [MetricRegistry], which the
    metrics server exports.

    ** The files

    - [Prelude]: machine words with explicit wrap-around, the closure [steps]
      of a step relation with its invariant rule, [play] that runs a schedule,
      list and filter lemmas, tactics and hint databases.
    - [Types]: [types.h], [work_item.h], [schedule_types.h],
      [scheduling_policy.h], [storage_error.h/.cc].
    - [Circ], [Rings]: index arithmetic of power-of-two rings; [MPMCRing]
      ([mpmc_ring.h]), [LocalQueue], [BatchedSPSCQueue], each with its
      invariant and its contents as a list.
    - [WorkQueues]: the abstract class as the type classes [WorkQueueOps] and
      [WorkQueueLaws] (a bounded FIFO), the four subclasses as a sum type that
      discharges the laws; clients are proved against the laws.
    - [RingConc]: any number of producers and consumers of [MPMCRing], one
      step per atomic operation or slot copy.
    - [Float64], [Policies]: IEEE binary64 arithmetic; the round-robin,
      strict-priority and weighted-fair policies and their factory.
    - [Waiters], [Baton], [Mutex], [Semaphore]: waiter nodes in memory with
      tagged addresses (class [Layout]); the three primitives as transition
      systems of any number of coroutines.
    - [PoolLists], [Pool]: [memory_pool.h/.cc]: size classes, return rings,
      central free list, thread caches, block allocator, the three tiers.
    - [Idle]: the spin / yield / park ladder of [adaptive_idle.h/.cc]: its calls
      run alone, as the scheduler makes them, and a machine of the worker and any
      number of notifiers with one step per access.
    - [Metrics]: histograms, per-queue counters, trace sampling, latency
      percentiles, sliding windows, rates.
    - [Scheduler]: both loops of [scheduler.cc], over any work queue; a turn may
      block in [enter_idle] (field [parked]) and goes on at a notification.
    - [Registry], [Timers]: [worker_registry.h/.cc]; [timer.h/.cc] with the
      global timer thread.  [std::priority_queue] is the class [PrioQueue]
      with its laws.
    - [ChaseLev]: [chase_lev_deque.h] as a transition system of one owner and
      any number of thieves, with the capacity rule of
      [work_stealing_deque.h].
    - [Online]: construction of an online worker, submission, hot swap of the
      engine queue, yield routing, the timer coroutine; the worker group.
    - [Feedback]: metrics collection, capacity estimate, strategy decision,
      debounced switching.
    - [IoBackend]: [io_request.h], [io_backend.h/.cc]: requests and callbacks,
      the abstract class as the type classes [IIOBackend] and [IIOBackendLaws]
      (a ledger of outstanding requests), and its client: [co_read],
      [co_write], the poll turn.
    - [IoLibaio], [IoUring], [IoSpdk]: the three back ends, each over a class
      for the kernel or library calls ([Aio], [Uring], [Nvme]) with its laws
      and a simulated instance; each discharges [IIOBackendLaws].
    - [IoEngine]: the factory, virtual dispatch as a sum of the three, and the
      worker's use of it.
    - [Executor]: construction of [WorkStealingExecutor] and of
      [OfflineWorkerGroup]: the topology plan, the peers, the registration.
    - [RingNet]: several task rings shared by several threads, each inside one
      call on one ring, with the multi-consumer and the single-consumer dequeue.
    - [ExecutorRun]: [work_stealing_executor.cc], [offline_group.cc]: the
      interleaving machine of the worker loops, the tasks they run and outside
      callers over such rings.
    - [CoroTask]: [coro_task.h]: a machine over coroutine frames with
      continuations, symmetric transfer and release, against a direct-style
      evaluator of task bodies; [blockingRun] interleaved with the threads that
      resume its body.
    - [CoroApi]: [coro_api.h] and [OnlineWorker::co_submit]: the life of a
      created coroutine, [coro_thread], [AffinityScopedLock], [when_all], the
      C-style wrappers.
    - [MetricText]: the registry's and exporter's text formats, with readers
      for them, and [metric_server.h/.cc].
    - [Runtime]: worker lifecycle and thread identity ([worker.cc]), binding,
      [runtime.h/.cc], [dispatch_poller.h/.cc], [universal_route.h].
    - [TimedWait]: [AffinityBaton::wait_for] with its timer, on online workers
      and on executor threads.
    - [PoolConc], [PoolListConc]: the lock-free parts of the pool under
      concurrency: the return ring ([VyukovConc]), the free list of a size
      class ([StackConc]) and the central free list ([CentralConc]), one step
      per atomic operation or write to a node.
    - [SpscConc]: [BatchedSPSCQueue] with its producer and consumer
      interleaved slot by slot.
    - [OnlineSound]: all operations on an online worker together: the classes
      of its queues behind the [static_cast]s, and the way of a wake-up from
      the synchronisation primitives into the next turn of the scheduler.
    - [Placement]: what hwloc reports of cores and PUs, and where the threads
      of both groups end up.
    - [MetricCatalog]: the global counters, the [register_*_metrics] functions
      and the cycle accounting of the two scheduler loops.
    - [RelAcq]: atomic objects with C++ memory orders as messages and views,
      and data races on plain memory.
    - [RingWeak], [RingSingle], [SpscWeak], [VyukovWeak], [BatonWeak],
      [MutexWeak], [SemaphoreWeak], [StopWeak]: the task ring (with many
      consumers and with one), the SPSC queue, the return ring of the pool, the
      three synchronisation primitives and the stop flags of the scheduler over
      that memory, with the orders the source annotates.

    ** Modelling conventions

    Unsigned integers are [Z] with [wrap64] or [wrap32] written at each
    operation that may wrap; [size_t] constants such as [SIZE_MAX] keep their
    value.  Doubles are binary64 by [SpecFloat].  A method of a class is a
    function from the old state to the new state and the result; a call that
    may spin, run out of fuel or throw returns [option], with the cases named
    where it is defined.  Lock-free code is a relation with one constructor per
    atomic access, so every interleaving is a sequence of steps.  In the files
    named [Conc] and in [Baton], [Mutex], [Semaphore], [ChaseLev], [RingNet],
    [ExecutorRun], [CoroTask] and [Idle], memory is sequentially consistent.  The files on [RelAcq]
    give the memory orders of the source their meaning: a load may return any
    message its thread has not overtaken, [acquire] and [release] pass views
    on, plain accesses that are not ordered are races, and a store by a thread
    that has not seen the last message is flagged, since it could also take
    effect earlier; the theorems show that the flag is never raised.  Their
    invariants extend those of the interleaved machines, through an erasure
    that keeps the latest values.  Mutexes and condition variables follow
    their contracts, spurious wake-ups included.  Code outside the repository is an argument: what a task does
    when it runs ([behave] in [Scheduler]), [operator new] ([fresh] in [Pool]),
    clocks, what hwloc reports ([Topology], [Node]), the random generator, what
    a coroutine body computes and receives.  Kernel and library interfaces
    (libaio, io_uring, NVMe, [std::priority_queue]) are classes whose laws state
    their documented behaviour; callbacks are recorded as calls and delivered
    by the client.  Objects with an owner are counted: a frame, a coroutine
    state or a handle is in exactly one place, and its destructions and late
    uses are part of the state, so that a use after free is a value and not an
    assumption.  What is read after a free is any value where the code goes on
    with it: from an array the deque has deleted, from a waiter node a
    semaphore has resumed, from the promise [blockingRun] has destroyed, from
    the awaiter of a timed wait that has returned.  In the coroutine API the
    access is counted and gives the value last stored.  Ghost fields that only record
    the history are marked as such.

    ** Fuel

    The loops of the rings and of the pool's lists take fuel equal to a bound
    on the number of turns that the invariant implies, and the theorems on them
    state that they return.  [drain_p0] of the scheduler can run for ever when
    tasks keep feeding the affine queue; [scheduler_turn_terminates] gives the
    fuel that is enough when they do not.  [expire] pops once per turn, so the
    size of the heap is enough.  [blockingRun] is shown to be able to return
    from wherever it is, whenever the direct evaluation does.  Decimal printing takes one more
    than the binary logarithm of the number, the JSON reader the length of the
    text.

    ** What is shown

    - Queues: every queue class that tests for room refines a bounded FIFO, and
      the SPSC queue does until it overflows; under concurrency the
      ring neither loses, duplicates nor tears an item, and its slots are never
      used by two threads at once; the SPSC queue delivers in order with one
      producer and one consumer, also when its indices wrap around.
    - Memory orders: with the orders of the source the task ring has no data
      race and stays FIFO and exactly-once, with many consumers and with the
      single one of a worker, and the return ring of the pool stays exactly
      once; the baton's waiter nodes are accessed without races and its
      [co_await] orders what follows after what precedes the post; the SPSC
      queue races from the first reuse of a slot on, and does
      not when its producer synchronises with the consumer elsewhere; the stop
      protocol of the scheduler works with sequentially consistent flags.
    - Scheduling, over workers that mix queues that test for room with SPSC
      queues that do not: exactly-once FIFO execution per checked queue, work
      conservation, absence of starvation in busy mode, termination of a turn;
      soundness of
      the policies, priority order, round-robin fairness, minimal virtual time.
    - Synchronisation: no lost wake-up of the baton, mutual exclusion of the
      mutex and accounting of the semaphore within the limits their code has,
      no lost notification of the idle worker, no oversleeping of the timer
      thread and delivery of what it takes out; exactly-once extraction from the
      work-stealing deque until it deletes an array, and what is lost after.
    - Memory: live objects never overlap, allocation is total, medium blocks
      are released once, size classes are minimal, the statistics add up; with
      any number of threads the return ring, once at rest, is the sequential
      ring the pool is verified with, the central list never loses or doubles
      an object, and neither does a size-class list with one popping thread.
    - Workers: the queues of an online worker keep the classes its code casts
      them to; wake-ups routed to it run in its next turn, if it is not
      blocked; pinned workers have a core each when hyper-thread siblings are
      left out.
    - Control: debounced switching with an exact audit trail, migration of a
      queue, layout of a group, routing through the registry, delivery of
      timers, percentile brackets, window contents.
    - IO: whichever back end is configured, every [co_read] and [co_write] is
      answered exactly once or still in flight; a buffered request waits a
      bounded number of turns; sectors cover the bytes asked for.
    - Executor: submitted items are executed, held or refused, each exactly as
      often as submitted, also while owner and thieves are inside the same ring;
      with the single-consumer dequeue in the owner they would not be.
    - Coroutines: [blockingRun] computes what the body evaluates to, and frees
      every frame once unless its final suspend point loses the race with it; a
      released task frees itself; the state of a created
      coroutine is freed once on one worker; [coro_thread] owns each coroutine
      once; [when_all] resumes once with all results; a timed wait never times
      out early and is never lost; a waiter records its worker in a process
      with one kind of worker.
    - Text: what a client reads from [/metrics] is the map of registered values;
      the Prometheus export reads back; every request is answered by its route.
    - Defects: theorems that exhibit, on the faithful model, behaviour the code
      does not mean to have (the process-wide worker-id pointer that loses
      affinity when both groups run, the timer a signalled wait leaves behind,
      [when_all] with a throwing callable, double deletion on detach, a
      size-class list popped by two threads, an SPSC queue with two producers, a
      timed wait overtaken on an executor, an awaiter of [when_all] that is
      moved, groups that share cores, a cast that a queue swap makes wrong, flush
      requests libaio drops, SPDK error signs, a stop overwritten by a starting
      worker, hand-over of the mutex to an only waiter,
      over-admission and lost wake-up of the semaphore, SPSC overflow, dead
      thread cache, lost stop signal of the timer thread, colliding registry
      ids, ticks that never decide, tasks dropped by a queue swap, a thief that
      returns what it read from a deleted array, a frame that [blockingRun] and
      the final suspend point both destroy, overlapping releases that read a
      dead node, a wake-up for a parked worker that nobody notifies); and what the
      memory orders allow: a stop request that is lost for good, data races on
      a reused SPSC slot, on the waiter node the mutex hands over to, on one
      that joins a semaphore during a release, and on a deque slot that a
      delayed thief still reads.

    ** Not modelled

    The memory orders of the deque, the free lists of the pool, the executor
    and the idle worker (interleavings of these are sequentially consistent; of
    the mutex and the semaphore under their orders only the races are shown); load buffering, where a load returns a store that
    comes later in the execution; the scheduling of threads by the operating system and the hwloc calls
    themselves (only the plan and the binding they ask for); the socket calls
    of the metrics server beyond the bytes they deliver; printing of doubles;
    what happens in the rest of the program after an access to freed memory (the
    access and what the code itself does with the value are steps; damage to
    other objects is not).  What is left of the sources is
    declarations and members that only forward. *)
From stdpp Require Export base functions list list_numbers gmap strings.
From Stdlib Require Export ZArith Lia.

Open Scope Z_scope.

(** ** Machine-width integers *)

Definition W64 : Z := 18446744073709551616.
Definition W32 : Z := 4294967296.

Definition wrap64 (x : Z) : Z := x mod W64.
Definition wrap32 (x : Z) : Z := x mod W32.

(** [SIZE_MAX], the "none" marker of the runtime. *)
Definition SIZE_MAX : Z := W64 - 1.

(** [static_cast<intptr_t>] of a 64-bit word. *)
Definition to_signed64 (x : Z) : Z :=
  let y := wrap64 x in if y <? 9223372036854775808 then y else y - W64.

Notation "x +64 y" := (wrap64 (x + y)) (at level 50, left associativity) : Z_scope.
Notation "x -64 y" := (wrap64 (x - y)) (at level 50, left associativity) : Z_scope.

(** The development's arithmetic closer: unfold the widths, turn [mod] and
    [/] by constants into equations, then [lia]. *)
Ltac solve_word :=
  unfold wrap64, wrap32, SIZE_MAX, W64, W32 in *;
  Z.div_mod_to_equations; lia.

(** Split the conjunctions among the hypotheses. *)
Ltac split_hyps := repeat match goal with H : _ ∧ _ |- _ => destruct H end.

(** Split every [if]/[match] on a boolean comparison in sight. *)
Ltac zcases :=
  repeat match goal with
  | |- context [Z.ltb ?a ?b] => destruct (Z.ltb_spec a b)
  | |- context [Z.leb ?a ?b] => destruct (Z.leb_spec a b)
  | |- context [Z.eqb ?a ?b] => destruct (Z.eqb_spec a b)
  | H : context [Z.ltb ?a ?b] |- _ => destruct (Z.ltb_spec a b)
  | H : context [Z.leb ?a ?b] |- _ => destruct (Z.leb_spec a b)
  | H : context [Z.eqb ?a ?b] |- _ => destruct (Z.eqb_spec a b)
  end.

Create HintDb runtime.

(** ** Finite sequences of steps of a transition relation *)

Section Reach.
Context {St : Type} (step : St → St → Prop).

Inductive steps : St → St → Prop :=
| steps_refl s : steps s s
| steps_snoc s1 s2 s3 : steps s1 s2 → step s2 s3 → steps s1 s3.

Lemma steps_once s1 s2 : step s1 s2 → steps s1 s2.
Proof. intros H. eapply steps_snoc; [constructor|done]. Qed.

Lemma steps_trans s1 s2 s3 : steps s1 s2 → steps s2 s3 → steps s1 s3.
Proof. intros H1 H2. induction H2; [done|]. eauto using steps. Qed.

(** Rule induction packaged for invariants. *)
Lemma steps_invariant (I : St → Prop) s0 s :
  I s0 → (∀ a b, I a → step a b → I b) → steps s0 s → I s.
Proof. intros H0 Hs H. induction H; eauto. Qed.

(** Running a schedule: [play1] performs one scheduled action. *)
Section Play.
Context {A : Type} (play1 : St → A → option St).

Fixpoint play (s : St) (l : list A) : option St :=
  match l with
  | [] => Some s
  | a :: l' => match play1 s a with Some s' => play s' l' | None => None end
  end.

Lemma play_steps s l s' :
  (∀ s a s', play1 s a = Some s' → step s s') → play s l = Some s' → steps s s'.
Proof.
  intros Hs. revert s. induction l as [|a l IH]; intros s H; simpl in H; [simplify_eq; constructor|].
  destruct (play1 s a) as [s1|] eqn:E; [|done].
  eapply steps_trans; [apply steps_once, (Hs _ _ _ E)|by apply IH].
Qed.
End Play.
End Reach.

Arguments steps_refl {St step}.
Arguments play {St A}.
Arguments steps_snoc {St step}.

(** ** Filters *)

Lemma list_filter_all {A} (P : A → Prop) `{!∀ x, Decision (P x)} (l : list A) : Forall P l → filter P l = l.
Proof. induction 1 as [|x l Hx _ IH]; [done|]. by rewrite filter_cons, decide_True, IH by done. Qed.

Lemma list_filter_none {A} (P : A → Prop) `{!∀ x, Decision (P x)} (l : list A) : Forall (λ x, ¬ P x) l → filter P l = [].
Proof. induction 1 as [|x l Hx _ IH]; [done|]. by rewrite filter_cons, decide_False by done. Qed.

(** ** Words *)

Lemma wrap64_range x : 0 ≤ wrap64 x < W64.
Proof. apply Z.mod_pos_bound. done. Qed.

Lemma wrap64_small x : 0 ≤ x < W64 → wrap64 x = x.
Proof. intros. by apply Z.mod_small. Qed.

Lemma wrap64_add_l x y : wrap64 (wrap64 x + y) = wrap64 (x + y).
Proof. apply Zplus_mod_idemp_l. Qed.

Lemma wrap64_add_r x y : wrap64 (x + wrap64 y) = wrap64 (x + y).
Proof. apply Zplus_mod_idemp_r. Qed.

Lemma wrap64_sub_l x y : wrap64 (wrap64 x - y) = wrap64 (x - y).
Proof. apply Zminus_mod_idemp_l. Qed.

Lemma wrap64_sub_r x y : wrap64 (x - wrap64 y) = wrap64 (x - y).
Proof. apply Zminus_mod_idemp_r. Qed.

Lemma wrap64_idemp x : wrap64 (wrap64 x) = wrap64 x.
Proof. apply Zmod_mod. Qed.

#[export] Hint Rewrite wrap64_add_l wrap64_add_r wrap64_sub_l wrap64_sub_r
  wrap64_idemp : wrap.
#[export] Hint Resolve wrap64_range : runtime.

(** Masking with [capacity - 1] is reduction modulo a power of two. *)
Lemma land_mask x k : 0 ≤ k → Z.land x (2 ^ k - 1) = x mod 2 ^ k.
Proof.
  intros Hk. rewrite <- Z.land_ones by done.
  f_equal. rewrite Z.ones_equiv. lia.
Qed.

(** A counter that wraps at 64 bits indexes the same slot of a
    power-of-two ring as the unbounded counter. *)
Lemma wrap64_mod_pow2 x k : 0 ≤ k ≤ 64 → wrap64 x mod 2 ^ k = x mod 2 ^ k.
Proof.
  intros Hk. unfold wrap64. rewrite Z.mod_mod_divide; [done|].
  exists (2 ^ (64 - k)). rewrite <- Z.pow_add_r by lia.
  by replace (64 - k + k) with 64 by lia.
Qed.

Lemma pow2_le_W64 k : 0 ≤ k ≤ 64 → 0 < 2 ^ k ≤ W64.
Proof.
  intros [H0 H1]. split; [lia|].
  change W64 with (2 ^ 64). apply Z.pow_le_mono_r; lia.
Qed.

(** ** Lists *)

Lemma take_app_drop_assoc {A} (n : nat) (l k : list A) :
  (n ≤ length l)%nat → drop n (l ++ k) = drop n l ++ k.
Proof. intros. by rewrite drop_app_le. Qed.

Lemma Forall_insert_any {A} (P : A → Prop) (l : list A) i x :
  Forall P l → P x → Forall P (<[i:=x]> l).
Proof. intros. by apply Forall_insert. Qed.

(** Occurrences, for conservation arguments closed by [lia]. *)
Section Occ.
Context {A : Type} `{!EqDecision A}.

Definition occ (z : A) (l : list A) : nat := count_occ (λ x y, decide (x = y)) l z.

#[local] Arguments occ : simpl never.

Lemma occ_nil z : occ z [] = 0%nat.
Proof. done. Qed.

Lemma occ_app z l k : occ z (l ++ k) = (occ z l + occ z k)%nat.
Proof. apply count_occ_app. Qed.

Lemma occ_cons z x l : occ z (x :: l) = (occ z [x] + occ z l)%nat.
Proof. apply (occ_app z [x] l). Qed.

Lemma occ_one z x : occ z [x] = if decide (x = z) then 1%nat else 0%nat.
Proof. unfold occ. simpl. by destruct (decide (x = z)). Qed.

Lemma occ_insert z l i x y :
  l !! i = Some x → (occ z (<[i := y]> l) + occ z [x] = occ z l + occ z [y])%nat.
Proof.
  revert i. induction l as [|a l IH]; intros [|i] Hi; simplify_eq/=.
  - rewrite (occ_cons z y l), (occ_cons z x l). lia.
  - rewrite (occ_cons z a (<[i := y]> l)), (occ_cons z a l). specialize (IH _ Hi). lia.
Qed.

Lemma occ_zero z l : occ z l = 0%nat → z ∉ l.
Proof. intros H Hin. apply list_elem_of_In, (count_occ_In (λ x y, decide (x = y))) in Hin. unfold occ in H. lia. Qed.

Lemma occ_replicate z n x : occ z (replicate n x) = (n * occ z [x])%nat.
Proof. induction n as [|n IH]; [done|]. simpl replicate. rewrite (occ_cons z x (replicate n x)), IH. lia. Qed.

Lemma occ_perm l k : l ≡ₚ k ↔ ∀ z, occ z l = occ z k.
Proof. apply Permutation_count_occ. Qed.
End Occ.

#[global] Arguments occ {A _} z l : simpl never.
#[export] Hint Rewrite @occ_nil @occ_app : occ.

Lemma delete_alter {A} (f : A → A) i (l : list A) : delete i (alter f i l) = delete i l.
Proof. revert i. induction l as [|x l IH]; intros [|i]; simpl; [done..|]. f_equal. apply IH. Qed.

Lemma alter_none {A} (f : A → A) i (l : list A) : l !! i = None → alter f i l = l.
Proof.
  intros H. apply list_eq. intros j. destruct (decide (j = i)) as [->|].
  - by rewrite list_lookup_alter_eq, H.
  - by rewrite list_lookup_alter_ne.
Qed.

Lemma mjoin_all_nil {A} (l : list (list A)) : Forall (λ k, k = []) l → mjoin l = [].
Proof. induction 1 as [|k l -> _ IH]; [done|]. exact IH. Qed.
