(* ===== verification/Types.v ===== *)
(** Shared vocabulary of the runtime: queue and priority enumerations
    ([types.h]), work items ([work_item.h]), the scheduler's snapshot and
    decision records ([schedule_types.h], [scheduling_policy.h]) and the error
    codes ([storage_error.h], [storage_error.cc]). *)
From S2P Require Import Prelude.

(** ** [types.h] *)

Inductive QueueType := kLocalQ | kAffine | kNetIO | kDiskIO | kEngine | kTimer | kBackground.
Inductive Priority := kCritical | kHigh | kMedium | kLow.
Inductive QueueSemantic := kLocalS | kSPSC | kMPSC | kMPMC.

(** The [uint8_t] values behind the enumerators. *)
Definition QueueType_code (q : QueueType) : Z :=
  match q with
  | kLocalQ => 0 | kAffine => 1 | kNetIO => 2 | kDiskIO => 3
  | kEngine => 4 | kTimer => 5 | kBackground => 6
  end.

Definition Priority_code (p : Priority) : Z :=
  match p with kCritical => 0 | kHigh => 1 | kMedium => 2 | kLow => 3 end.

#[export] Instance QueueType_eq : EqDecision QueueType.
Proof. solve_decision. Defined.
#[export] Instance Priority_eq : EqDecision Priority.
Proof. solve_decision. Defined.
#[export] Instance QueueSemantic_eq : EqDecision QueueSemantic.
Proof. solve_decision. Defined.

(** ** [work_item.h]

    The anonymous union of a function pointer and a coroutine handle is one
    machine word; [tag] says which one was stored. *)
Record WorkItem := mkWorkItem {
  wi_word : Z;
  wi_tag : Z;
  wi_trace_id : Z;
  wi_enqueue_ns : Z;
  wi_source_queue_idx : Z
}.

Definition default_item : WorkItem := mkWorkItem 0 0 0 0 SIZE_MAX.
#[export] Instance WorkItem_inhabited : Inhabited WorkItem := populate default_item.
#[export] Instance WorkItem_eq : EqDecision WorkItem.
Proof. solve_decision. Defined.

Definition make_func (f : Z) : WorkItem := mkWorkItem f 0 0 0 SIZE_MAX.
Definition make_coro (h : Z) : WorkItem := mkWorkItem h 1 0 0 SIZE_MAX.

Definition set_enqueue_ns (it : WorkItem) (ns : Z) : WorkItem :=
  mkWorkItem (wi_word it) (wi_tag it) (wi_trace_id it) ns (wi_source_queue_idx it).

(** What [execute] does with the word: call it, or resume it. *)
Inductive Action := CallFunc (f : Z) | ResumeCoro (h : Z).

Definition execute (it : WorkItem) : Action :=
  if wi_tag it =? 0 then CallFunc (wi_word it) else ResumeCoro (wi_word it).

(** ** [schedule_types.h], [scheduling_policy.h] *)

Record QueueSnapshot := mkSnapshot {
  qs_type : QueueType;
  qs_priority : Priority;
  qs_count : Z;
  qs_last_poll_ns : Z;
  qs_total_dequeued : Z
}.

Record ScheduleDecision := mkDecision {
  queue_index : Z;
  batch_size : Z;
  idle : bool;
  idle_fast_recovery : bool
}.

Record SchedulerStats := mkStats {
  total_polls : Z;
  total_idles : Z;
  total_tasks_executed : Z;
  total_exec_ns : Z
}.

Definition stats0 : SchedulerStats := mkStats 0 0 0 0.

(** ** [storage_error.h], [storage_error.cc] *)

Inductive StorageError :=
| OK
| Unknown | InvalidArgument | Timeout | OutOfResource | NotInitialized
| Cancelled | InternalError | NotImplemented
| WorkerStartFailed | WorkerAlreadyRunning | WorkerStopTimeout | QueueFull
| QueueOverflow | SchedulerStopped | PolicyInvalidName | MemoryPoolExhausted
| CPUBindFailed
| IORingSetupFailed | IORingSubmitFailed | IOQueueFull | IOInvalidFD
| IOBackendNotAvail | IOResultError | IOAioSetupFailed | IOAioSubmitFailed
| IOAioGetEventsFail | IOSpdkNotReady | IOPollError
| RPCConnectionRefused | RPCConnectionTimeout | RPCProtocolError
| EngineNotSupported | EngineCorruption.

Definition StorageError_code (e : StorageError) : Z :=
  match e with
  | OK => 0
  | Unknown => 0x00010001 | InvalidArgument => 0x00010002 | Timeout => 0x00010003
  | OutOfResource => 0x00010004 | NotInitialized => 0x00010005
  | Cancelled => 0x00010006 | InternalError => 0x00010007 | NotImplemented => 0x00010008
  | WorkerStartFailed => 0x00100001 | WorkerAlreadyRunning => 0x00100002
  | WorkerStopTimeout => 0x00100003 | QueueFull => 0x00100004
  | QueueOverflow => 0x00100005 | SchedulerStopped => 0x00100006
  | PolicyInvalidName => 0x00100007 | MemoryPoolExhausted => 0x00100008
  | CPUBindFailed => 0x00100009
  | IORingSetupFailed => 0x00200001 | IORingSubmitFailed => 0x00200002
  | IOQueueFull => 0x00200003 | IOInvalidFD => 0x00200004
  | IOBackendNotAvail => 0x00200005 | IOResultError => 0x00200006
  | IOAioSetupFailed => 0x00200007 | IOAioSubmitFailed => 0x00200008
  | IOAioGetEventsFail => 0x00200009 | IOSpdkNotReady => 0x0020000A
  | IOPollError => 0x0020000B
  | RPCConnectionRefused => 0x00300001 | RPCConnectionTimeout => 0x00300002
  | RPCProtocolError => 0x00300003
  | EngineNotSupported => 0x00400001 | EngineCorruption => 0x00400002
  end.

(** [module_name] takes any 32-bit code: [make_error_code] round-trips the
    enumerator through [int]. *)
Definition module_name (code : Z) : string :=
  let seg := Z.land (Z.shiftr (wrap32 code) 16) 0xFF in
  if seg =? 0x01 then "generic"
  else if seg =? 0x10 then "runtime"
  else if seg =? 0x20 then "io"
  else if seg =? 0x30 then "rpc"
  else if seg =? 0x40 then "engine"
  else "unknown".

(** The module an enumerator belongs to, read off the groups of the
    declaration. *)
Definition declared_module (e : StorageError) : string :=
  match e with
  | OK => "unknown"
  | Unknown | InvalidArgument | Timeout | OutOfResource | NotInitialized
  | Cancelled | InternalError | NotImplemented => "generic"
  | WorkerStartFailed | WorkerAlreadyRunning | WorkerStopTimeout | QueueFull
  | QueueOverflow | SchedulerStopped | PolicyInvalidName | MemoryPoolExhausted
  | CPUBindFailed => "runtime"
  | IORingSetupFailed | IORingSubmitFailed | IOQueueFull | IOInvalidFD
  | IOBackendNotAvail | IOResultError | IOAioSetupFailed | IOAioSubmitFailed
  | IOAioGetEventsFail | IOSpdkNotReady | IOPollError => "io"
  | RPCConnectionRefused | RPCConnectionTimeout | RPCProtocolError => "rpc"
  | EngineNotSupported | EngineCorruption => "engine"
  end.

(** [make_error_code]: the [int] value carried by the [std::error_code]. *)
Definition make_error_code (e : StorageError) : Z := StorageError_code e.
Definition category_message (code : Z) : string := module_name code.
