(* ===== verification/Circ.v ===== *)
(** Circular buffers with power-of-two capacity.

    [write_slots] and [read_slots] are the copy loops shared by
    [mpmc_ring.h], [batched_spsc_queue.h] and the ring views of
    [local_queue.h]: element [i] goes to or comes from the slot
    [(head + i) & mask], with [head + i] computed on 64-bit words.  The lemmas
    say when a write leaves a window of the buffer alone and when a read
    gives back what was written. *)
From S2P Require Import Prelude.

Section Loops.
Context {T : Type} `{!Inhabited T}.

(** [for (i = 0; i < n; ++i) ring[(head + i) & mask] = objs[i];] *)
Fixpoint write_slots (mask : Z) (ring : list T) (head : Z) (objs : list T) : list T :=
  match objs with
  | [] => ring
  | x :: rest =>
      write_slots mask (<[Z.to_nat (Z.land head mask) := x]> ring) (head +64 1) rest
  end.

(** [for (i = 0; i < n; ++i) objs[i] = ring[(head + i) & mask];] *)
Fixpoint read_slots (mask : Z) (ring : list T) (head : Z) (n : nat) : list T :=
  match n with
  | O => []
  | S n' => ring !!! Z.to_nat (Z.land head mask) :: read_slots mask ring (head +64 1) n'
  end.

End Loops.

(** The slot an unbounded index falls into. *)
Definition slot (k i : Z) : nat := Z.to_nat (i mod 2 ^ k).

Lemma slot_lt k i : 0 ≤ k → (slot k i < Z.to_nat (2 ^ k))%nat.
Proof.
  intros Hk. unfold slot. pose proof (Z.mod_pos_bound i (2 ^ k)). lia.
Qed.

Lemma slot_wrap k i : 0 ≤ k ≤ 64 → slot k (wrap64 i) = slot k i.
Proof. intros Hk. unfold slot. by rewrite wrap64_mod_pow2. Qed.

(** Indices less than one lap apart never share a slot. *)
Lemma slot_inj k a b :
  0 ≤ k → slot k a = slot k b → a - b < 2 ^ k → b - a < 2 ^ k → a = b.
Proof.
  intros Hk Heq H1 H2. unfold slot in Heq.
  assert (0 < 2 ^ k) by lia.
  pose proof (Z.mod_pos_bound a (2 ^ k)). pose proof (Z.mod_pos_bound b (2 ^ k)).
  assert (a mod 2 ^ k = b mod 2 ^ k) as E by lia.
  pose proof (Z.div_mod a (2 ^ k)). pose proof (Z.div_mod b (2 ^ k)).
  assert (a - b = 2 ^ k * (a / 2 ^ k - b / 2 ^ k)) as E' by lia.
  assert (a / 2 ^ k - b / 2 ^ k = 0) by nia. nia.
Qed.

Section Windows.
Context {T : Type} `{!Inhabited T} (k : Z) (Hk : 0 ≤ k ≤ 64).

Lemma mask_slot i : Z.to_nat (Z.land i (2 ^ k - 1)) = slot k i.
Proof. rewrite land_mask by lia. done. Qed.

Lemma length_write_slots (ring : list T) h xs :
  length (write_slots (2 ^ k - 1) ring h xs) = length ring.
Proof.
  revert ring h. induction xs as [|x xs IH]; intros; simpl; [done|].
  by rewrite IH, length_insert.
Qed.

Lemma length_read_slots (ring : list T) h n :
  length (read_slots (2 ^ k - 1) ring h n) = n.
Proof. revert h. induction n; intros; simpl; congruence. Qed.

Lemma read_slots_wrap (ring : list T) h n :
  read_slots (2 ^ k - 1) ring (wrap64 h) n = read_slots (2 ^ k - 1) ring h n.
Proof.
  destruct n; simpl; [done|]. rewrite !mask_slot, slot_wrap by done.
  by rewrite wrap64_add_l.
Qed.

Lemma write_slots_wrap (ring : list T) h xs :
  write_slots (2 ^ k - 1) ring (wrap64 h) xs = write_slots (2 ^ k - 1) ring h xs.
Proof.
  destruct xs; simpl; [done|]. rewrite !mask_slot, slot_wrap by done.
  by rewrite wrap64_add_l.
Qed.

(** Only the position modulo the capacity matters. *)
Lemma read_slots_congr (ring : list T) a b n :
  a mod 2 ^ k = b mod 2 ^ k →
  read_slots (2 ^ k - 1) ring a n = read_slots (2 ^ k - 1) ring b n.
Proof.
  revert a b. induction n as [|n IH]; intros a b E; simpl; [done|].
  rewrite !mask_slot. unfold slot. rewrite E. f_equal.
  rewrite !read_slots_wrap. apply IH.
  rewrite <- Zplus_mod_idemp_l, E. apply Zplus_mod_idemp_l.
Qed.

Lemma read_slots_app (ring : list T) h n m :
  read_slots (2 ^ k - 1) ring h (n + m) =
  read_slots (2 ^ k - 1) ring h n ++
  read_slots (2 ^ k - 1) ring (h + Z.of_nat n) m.
Proof.
  revert h. induction n as [|n IH]; intros h; simpl.
  - by rewrite Z.add_0_r.
  - f_equal. rewrite IH. f_equal.
    rewrite <- (read_slots_wrap ring (h + Z.of_nat (S n))).
    rewrite <- (read_slots_wrap ring (h +64 1 + _)).
    by rewrite wrap64_add_l, <- Z.add_assoc, Z.add_1_l, Nat2Z.inj_succ.
Qed.

Lemma read_slots_take (ring : list T) h n m :
  (n ≤ m)%nat →
  take n (read_slots (2 ^ k - 1) ring h m) = read_slots (2 ^ k - 1) ring h n.
Proof.
  intros. replace m with (n + (m - n))%nat by lia.
  rewrite read_slots_app, take_app_le by (rewrite length_read_slots; lia).
  apply take_ge. rewrite length_read_slots. lia.
Qed.

Lemma read_slots_drop (ring : list T) h n m :
  (n ≤ m)%nat →
  drop n (read_slots (2 ^ k - 1) ring h m) =
  read_slots (2 ^ k - 1) ring (h + Z.of_nat n) (m - n).
Proof.
  intros. replace m with (n + (m - n))%nat at 1 by lia.
  rewrite read_slots_app, drop_app_ge by (rewrite length_read_slots; lia).
  rewrite length_read_slots. by rewrite Nat.sub_diag.
Qed.

(** A write outside the window [[a, a + n)] (less than one lap ahead or
    behind) does not change what the window reads. *)
Lemma read_write_disjoint (ring : list T) a n b xs :
  (∀ i j, 0 ≤ i < Z.of_nat n → 0 ≤ j < Z.of_nat (length xs) →
          slot k (a + i) ≠ slot k (b + j)) →
  read_slots (2 ^ k - 1) (write_slots (2 ^ k - 1) ring b xs) a n =
  read_slots (2 ^ k - 1) ring a n.
Proof.
  revert ring b. induction xs as [|x xs IH]; intros ring b Hd; simpl; [done|].
  rewrite IH; clear IH.
  - rewrite mask_slot.
    assert (∀ m c, (∀ i, 0 ≤ i < Z.of_nat m → slot k (c + i) ≠ slot k b) →
      read_slots (2 ^ k - 1) (<[slot k b:=x]> ring) c m =
      read_slots (2 ^ k - 1) ring c m) as Haux.
    { induction m as [|m IH]; intros c Hc; simpl; [done|].
      rewrite mask_slot. f_equal.
      - apply list_lookup_total_insert_ne. intros Heq.
        apply (Hc 0); [lia|]. by rewrite Z.add_0_r.
      - apply IH. intros i Hi. rewrite <- (slot_wrap k (_ + i)) by done.
        rewrite wrap64_add_l, slot_wrap by done. rewrite <- Z.add_assoc.
        apply Hc. lia. }
    apply Haux. intros i Hi. specialize (Hd i 0 Hi). rewrite Z.add_0_r in Hd.
    apply Hd. simpl. lia.
  - intros i j Hi Hj. rewrite <- (slot_wrap k (_ + j)) by done.
    rewrite wrap64_add_l, slot_wrap, <- Z.add_assoc by done.
    apply Hd; simpl; lia.
Qed.

(** Reading back a batch that fits in the buffer gives the batch. *)
Lemma read_write_same (ring : list T) h xs :
  length ring = Z.to_nat (2 ^ k) → Z.of_nat (length xs) ≤ 2 ^ k →
  read_slots (2 ^ k - 1) (write_slots (2 ^ k - 1) ring h xs) h (length xs) = xs.
Proof.
  revert ring h. induction xs as [|x xs IH]; intros ring h Hl Hx; simpl in *; [done|].
  f_equal.
  - rewrite mask_slot.
    pose proof (read_write_disjoint (<[slot k h:=x]> ring) h 1 (h +64 1) xs) as Hd.
    simpl in Hd. rewrite !mask_slot in Hd.
    assert (∀ l1 l2 : list T, [l1 !!! slot k h] = [l2 !!! slot k h] →
      l1 !!! slot k h = l2 !!! slot k h) as Hinj by naive_solver.
    erewrite (Hinj _ (<[slot k h:=x]> ring)).
    + apply list_lookup_total_insert_eq. rewrite Hl. apply slot_lt. lia.
    + apply Hd. intros i j Hi Hj. replace i with 0 by lia. rewrite Z.add_0_r.
      rewrite <- (slot_wrap k (_ + j)) by done.
      rewrite wrap64_add_l, slot_wrap by done.
      intros E. apply slot_inj in E; lia.
  - apply IH; [by rewrite length_insert|lia].
Qed.

(** Appending after a window of [n] live elements: old contents, then the
    new ones. *)
Lemma read_write_append (ring : list T) h n xs :
  length ring = Z.to_nat (2 ^ k) → Z.of_nat (n + length xs) ≤ 2 ^ k →
  read_slots (2 ^ k - 1) (write_slots (2 ^ k - 1) ring (h + Z.of_nat n) xs) h
    (n + length xs) = read_slots (2 ^ k - 1) ring h n ++ xs.
Proof.
  intros Hl Hn. rewrite read_slots_app, read_write_same by (try done; lia).
  f_equal. apply read_write_disjoint. intros i j Hi Hj E.
  apply slot_inj in E; lia.
Qed.

End Windows.

