(* ===== verification/Rings.v ===== *)
(** The three ring buffers under the work queues: the DPDK-style [MPMCRing] of
    [mpmc_ring.h], the unsynchronised [LocalQueue] of [local_queue.h] and the
    [BatchedSPSCQueue] of [batched_spsc_queue.h].  Every operation is the
    source's, run without interference from other threads ([RingConc] has the
    interleavings); counters are 64-bit words that wrap.  Each ring refines a
    FIFO: [contents] reads the live window as a list. *)
From S2P Require Import Prelude Circ.

(** ** [mpmc_ring.h] *)
Module Mpmc.

Record MPMCRing (T : Type) := mkRing {
  prod_head : Z;
  prod_tail : Z;
  cons_head : Z;
  cons_tail : Z;
  capacity : Z;
  mask : Z;
  ring : list T
}.
Arguments mkRing {T}. Arguments prod_head {T}. Arguments prod_tail {T}.
Arguments cons_head {T}. Arguments cons_tail {T}. Arguments capacity {T}.
Arguments mask {T}. Arguments ring {T}.

(** [while (cap < capacity) cap <<= 1;] on 64-bit words.  [None]: the loop is
    still running when the fuel is spent. *)
Fixpoint round_up (fuel : nat) (cap want : Z) : option Z :=
  if cap <? want then
    match fuel with
    | O => None
    | S fuel' => round_up fuel' (wrap64 (Z.shiftl cap 1)) want
    end
  else Some cap.

Section Ops.
Context {T : Type} `{!Inhabited T}.

Definition make (want : Z) : option (MPMCRing T) :=
  cap ← round_up 64 1 want;
  Some (mkRing 0 0 0 0 cap (cap - 1) (replicate (Z.to_nat cap) inhabitant)).

(** [None]: the wait for [prod_.tail] never ends. *)
Definition enqueue_bulk (r : MPMCRing T) (objs : list T) : option (MPMCRing T * Z) :=
  let head := prod_head r in
  let free_entries := wrap64 (capacity r + cons_tail r - head) in
  let n := Z.min (Z.of_nat (length objs)) free_entries in
  if n =? 0 then Some (r, 0)
  else
    let next := head +64 n in
    let ring' := write_slots (mask r) (ring r) head (take (Z.to_nat n) objs) in
    if prod_tail r =? head
    then Some (mkRing next next (cons_head r) (cons_tail r) (capacity r) (mask r) ring', n)
    else None.

Definition enqueue (r : MPMCRing T) (obj : T) : option (MPMCRing T * bool) :=
  '(r', n) ← enqueue_bulk r [obj]; Some (r', n =? 1).

(** Single consumer: head and tail are stored without a wait. *)
Definition dequeue_bulk (r : MPMCRing T) (max : Z) : MPMCRing T * list T :=
  let head := cons_head r in
  let entries := prod_tail r -64 head in
  let n := Z.min max entries in
  if n =? 0 then (r, [])
  else
    (mkRing (prod_head r) (prod_tail r) (head +64 n) (head +64 n)
            (capacity r) (mask r) (ring r),
     read_slots (mask r) (ring r) head (Z.to_nat n)).

Definition dequeue (r : MPMCRing T) : MPMCRing T * option T :=
  let '(r', objs) := dequeue_bulk r 1 in (r', head objs).

(** Multi consumer: [None] when the wait for [cons_.tail] never ends. *)
Definition dequeue_bulk_mc (r : MPMCRing T) (max : Z) : option (MPMCRing T * list T) :=
  let head := cons_head r in
  let entries := prod_tail r -64 head in
  let n := Z.min max entries in
  if n =? 0 then Some (r, [])
  else
    let next := head +64 n in
    let objs := read_slots (mask r) (ring r) head (Z.to_nat n) in
    if cons_tail r =? head
    then Some (mkRing (prod_head r) (prod_tail r) next next
                      (capacity r) (mask r) (ring r), objs)
    else None.

Definition dequeue_mc (r : MPMCRing T) : option (MPMCRing T * option T) :=
  '(r', objs) ← dequeue_bulk_mc r 1; Some (r', head objs).

Definition count (r : MPMCRing T) : Z := prod_tail r -64 cons_head r.

(** The FIFO a ring stands for. *)
Definition contents (r : MPMCRing T) : list T :=
  read_slots (mask r) (ring r) (cons_head r) (Z.to_nat (count r)).

(** Well-formedness between operations. *)
Record wf (r : MPMCRing T) : Prop := {
  wf_cap : ∃ k, 0 ≤ k ≤ 63 ∧ capacity r = 2 ^ k;
  wf_mask : mask r = capacity r - 1;
  wf_len : length (ring r) = Z.to_nat (capacity r);
  wf_prod : prod_tail r = prod_head r;
  wf_cons : cons_tail r = cons_head r;
  wf_range : 0 ≤ prod_head r < W64 ∧ 0 ≤ cons_head r < W64;
  wf_count : count r ≤ capacity r
}.

End Ops.

Lemma round_up_spec fuel j want :
  0 ≤ j ≤ 63 → want ≤ 2 ^ 63 → (63 - j < Z.of_nat fuel) →
  ∃ k, j ≤ k ≤ 63 ∧ round_up fuel (2 ^ j) want = Some (2 ^ k) ∧ want ≤ 2 ^ k
       ∧ (k = j ∨ 2 ^ (k - 1) < want).
Proof.
  revert j. induction fuel as [|fuel IH]; intros j Hj Hw Hf; [lia|].
  simpl. destruct (Z.ltb_spec (2 ^ j) want) as [Hlt|Hge].
  - assert (j < 63) as Hj'.
    { destruct (decide (j = 63)) as [->|]; lia. }
    assert (wrap64 (Z.shiftl (2 ^ j) 1) = 2 ^ (j + 1)) as ->.
    { rewrite Z.shiftl_mul_pow2, <- Z.pow_add_r by lia.
      apply wrap64_small. split; [lia|]. change W64 with (2 ^ 64).
      apply Z.pow_lt_mono_r; lia. }
    destruct (IH (j + 1)) as (k & Hk & Heq & Hle & Hmin); [lia..|].
    exists k. split_and!; [lia|lia|done|done|]. right.
    destruct Hmin as [->|]; [|done]. by replace (j + 1 - 1) with j by lia.
  - exists j. split_and!; [lia|lia|done|done|by left].
Qed.

Section Facts.
Context {T : Type} `{!Inhabited T}.
Implicit Types (r : MPMCRing T).

Lemma wf_count_range r : wf r → 0 ≤ count r ≤ capacity r.
Proof. intros H. pose proof (wf_count r H). unfold count in *. pose proof (wrap64_range (prod_tail r - cons_head r)). lia. Qed.

Lemma mpmc_length_contents r : wf r → Z.of_nat (length (contents r)) = count r.
Proof.
  intros H. destruct (wf_cap r H) as (k & Hk & Hc).
  pose proof (wf_count_range r H). unfold contents.
  rewrite (wf_mask r H), Hc, length_read_slots. lia.
Qed.

(** Free entries as the producer computes them. *)
Lemma free_entries_eq r :
  wf r → wrap64 (capacity r + cons_tail r - prod_head r) = capacity r - count r.
Proof.
  intros H. destruct (wf_cap r H) as (k & Hk & Hc).
  pose proof (wf_count r H) as Hn. pose proof (wf_range r H) as Hr.
  assert (2 ^ k ≤ 2 ^ 63) by (apply Z.pow_le_mono_r; lia).
  assert (1 ≤ 2 ^ k) by lia.
  rewrite (wf_cons r H) in *. unfold count in *. rewrite (wf_prod r H) in *.
  rewrite Hc in *. generalize dependent (2 ^ k). intros c. intros.
  generalize dependent (prod_head r). generalize dependent (cons_head r). intros.
  clear -Hn Hr H0 H1. unfold wrap64 in *.
  change (2 ^ 63) with 9223372036854775808 in *.
  destruct (Z.le_gt_cases z z0) as [Hle|Hgt].
  - rewrite (Z.mod_small (z0 - z)) in * by lia. unfold W64 in *.
    rewrite Z.mod_small; lia.
  - assert ((z0 - z) mod W64 = z0 - z + W64) as E.
    { rewrite <- (Z_mod_plus_full (z0 - z) 1). apply Z.mod_small. unfold W64 in *. lia. }
    rewrite E in *. rewrite <- (Z_mod_plus_full _ (-1)).
    rewrite Z.mod_small; unfold W64 in *; lia.
Qed.

Lemma make_wf want :
  want ≤ 2 ^ 63 →
  ∃ r, make (T:=T) want = Some r ∧ wf r ∧ contents r = []
       ∧ want ≤ capacity r ∧ (capacity r = 1 ∨ capacity r < 2 * want).
Proof.
  intros Hw. destruct (round_up_spec 64 0 want) as (k & Hk & Heq & Hle & Hmin); [lia..|].
  unfold make. change 1 with (2 ^ 0). rewrite Heq. simpl.
  eexists. split; [done|]. repeat split; simpl; try done; try lia.
  - exists k. split; [lia|done].
  - by rewrite length_replicate.
  - unfold count. simpl. rewrite wrap64_small by done. lia.
  - destruct (decide (k = 0)) as [->|Hk0]; [by left|].
    destruct Hmin as [->|Hlt]; [lia|right].
    replace (2 ^ k) with (2 ^ (k - 1) * 2 ^ 1)
      by (rewrite <- Z.pow_add_r by lia; f_equal; lia). lia.
Qed.

(** The whole functional contract of a bulk enqueue: it never hangs, takes as
    many objects as fit, and appends them in order. *)
Lemma enqueue_bulk_spec r objs :
  wf r →
  ∃ r' n, enqueue_bulk r objs = Some (r', n) ∧ wf r' ∧ capacity r' = capacity r
    ∧ n = Z.min (Z.of_nat (length objs)) (capacity r - Z.of_nat (length (contents r)))
    ∧ contents r' = contents r ++ take (Z.to_nat n) objs.
Proof.
  intros H. pose proof (mpmc_length_contents r H) as Hlen.
  pose proof (wf_count_range r H) as Hc. rewrite Hlen.
  unfold enqueue_bulk. rewrite (free_entries_eq r H), (wf_prod r H), Z.eqb_refl.
  set (n := Z.min _ _).
  destruct (Z.eqb_spec n 0) as [E0|E0].
  { exists r, 0. repeat split; try done; try apply H. by rewrite app_nil_r. }
  destruct (wf_cap r H) as (k & Hk & Hcap).
  pose proof (pow2_le_W64 k ltac:(lia)). pose proof (wf_range r H) as Hr.
  assert (2 ^ k ≤ 2 ^ 63) by (apply Z.pow_le_mono_r; lia).
  change (2 ^ 63) with 9223372036854775808 in *.
  assert (count (mkRing (prod_head r +64 n) (prod_head r +64 n) (cons_head r) (cons_tail r)
    (capacity r) (mask r) (write_slots (mask r) (ring r) (prod_head r)
     (take (Z.to_nat n) objs))) = count r + n) as Hcount.
  { unfold count. simpl. rewrite wrap64_sub_l, (wf_prod r H).
    replace (prod_head r + n - cons_head r) with (prod_head r - cons_head r + n) by lia.
    rewrite <- wrap64_add_l. apply wrap64_small.
    unfold count in Hc. rewrite (wf_prod r H) in Hc.
    pose proof (wrap64_range (prod_head r - cons_head r)). unfold n, count.
    rewrite (wf_prod r H). unfold W64 in *. lia. }
  eexists _, n. split; [done|]. split; [|split; [done|split; [done|]]].
  - repeat split; simpl; try apply H; try apply wrap64_range; try done.
    + rewrite (wf_mask r H), Hcap, length_write_slots. rewrite <- Hcap. apply H.
    + rewrite Hcount. lia.
  - unfold contents. rewrite Hcount. cbn [mask ring cons_head].
    rewrite (wf_mask r H), Hcap.
    assert (length (take (Z.to_nat n) objs) = Z.to_nat n) as Hl.
    { rewrite length_take. lia. }
    replace (Z.to_nat (count r + n))
      with (Z.to_nat (count r) + length (take (Z.to_nat n) objs))%nat by lia.
    rewrite <- (write_slots_wrap k ltac:(lia)).
    replace (wrap64 (prod_head r)) with (wrap64 (cons_head r + Z.of_nat (Z.to_nat (count r)))).
    2:{ rewrite Z2Nat.id by lia. unfold count. rewrite wrap64_add_r, (wf_prod r H).
        f_equal. lia. }
    rewrite (write_slots_wrap k ltac:(lia)).
    apply read_write_append; [lia|..].
    + rewrite <- Hcap. apply H.
    + rewrite Hl. lia.
Qed.

(** The consumer side: the oldest [min max count] elements, in order. *)
Lemma consume_spec r max :
  wf r → 0 ≤ max → 0 < Z.min max (count r) →
  let n := Z.min max (count r) in
  let r' := mkRing (prod_head r) (prod_tail r) (cons_head r +64 n) (cons_head r +64 n)
              (capacity r) (mask r) (ring r) in
  wf r' ∧ read_slots (mask r) (ring r) (cons_head r) (Z.to_nat n)
          = take (Z.to_nat n) (contents r)
  ∧ contents r' = drop (Z.to_nat n) (contents r).
Proof.
  intros H Hm Hpos n r'. destruct (wf_cap r H) as (k & Hk & Hcap).
  pose proof (wf_count_range r H) as Hc.
  assert (count r' = count r - n) as Hcount.
  { unfold count, r'. simpl. rewrite wrap64_sub_r.
    replace (prod_tail r - (cons_head r + n)) with (prod_tail r - cons_head r - n) by lia.
    rewrite <- wrap64_sub_l. apply wrap64_small. fold (count r).
    pose proof (wrap64_range (prod_tail r - cons_head r)). unfold count in *. lia. }
  split; [|split].
  - repeat split; try apply H; try apply wrap64_range; try done. rewrite Hcount. simpl. lia.
  - unfold contents. rewrite (wf_mask r H), Hcap, read_slots_take; [done|lia..].
  - unfold contents. rewrite Hcount. cbn [mask ring cons_head r'].
    rewrite (wf_mask r H), Hcap, read_slots_drop by lia.
    rewrite (read_slots_wrap k ltac:(lia)). f_equal; lia.
Qed.

Lemma dequeue_bulk_spec r max :
  wf r → 0 ≤ max →
  let '(r', out) := dequeue_bulk r max in
  wf r' ∧ capacity r' = capacity r ∧ out = take (Z.to_nat max) (contents r)
  ∧ contents r' = drop (Z.to_nat max) (contents r).
Proof.
  intros H Hm. unfold dequeue_bulk. fold (count r).
  pose proof (mpmc_length_contents r H) as Hl. pose proof (wf_count_range r H).
  destruct (Z.eqb_spec (Z.min max (count r)) 0) as [E|E].
  - split; [done|split; [done|]]. destruct (Z.le_gt_cases max 0).
    + replace max with 0 by lia. done.
    + assert (contents r = []) as -> by (apply nil_length_inv; lia).
      by rewrite take_nil, drop_nil.
  - destruct (consume_spec r max H Hm) as (Hw & Hr & Hd); [lia|].
    split; [done|split; [done|]]. rewrite Hr, Hd.
    destruct (Z.le_gt_cases max (count r)).
    + by rewrite Z.min_l by lia.
    + rewrite Z.min_r by lia. split.
      * rewrite !take_ge; [done|lia..].
      * rewrite !drop_ge; [done|lia..].
Qed.

(** Without interference the multi-consumer dequeue never waits and is the
    single-consumer one. *)
Lemma dequeue_bulk_mc_eq r max :
  wf r → dequeue_bulk_mc r max = Some (dequeue_bulk r max).
Proof.
  intros H. unfold dequeue_bulk_mc, dequeue_bulk.
  destruct (_ =? 0); [done|]. by rewrite (wf_cons r H), Z.eqb_refl.
Qed.

End Facts.
End Mpmc.

(** ** [local_queue.h] *)
Module Local.

Record LocalQueue (T : Type) := mkLocal {
  items : list T;
  head_ : Z;
  tail_ : Z
}.
Arguments mkLocal {T}. Arguments items {T}. Arguments head_ {T}. Arguments tail_ {T}.

Section Ops.
Context {T : Type} `{!Inhabited T} (Capacity : Z).

Definition make : LocalQueue T := mkLocal (replicate (Z.to_nat Capacity) inhabitant) 0 0.

Definition try_enqueue (q : LocalQueue T) (item : T) : LocalQueue T * bool :=
  let current_tail := tail_ q in
  let next_tail := Z.land (current_tail +64 1) (Capacity - 1) in
  if next_tail =? head_ q then (q, false)
  else (mkLocal (<[Z.to_nat current_tail := item]> (items q)) (head_ q) next_tail, true).

Definition try_dequeue (q : LocalQueue T) : LocalQueue T * option T :=
  if head_ q =? tail_ q then (q, None)
  else (mkLocal (items q) (Z.land (head_ q +64 1) (Capacity - 1)) (tail_ q),
        Some (items q !!! Z.to_nat (head_ q))).

(** [while (count < max && head_ != tail_)]: one item per turn. *)
Fixpoint try_dequeue_batch (q : LocalQueue T) (max : nat) : LocalQueue T * list T :=
  match max with
  | O => (q, [])
  | S max' =>
      if head_ q =? tail_ q then (q, [])
      else
        let x := items q !!! Z.to_nat (head_ q) in
        let q' := mkLocal (items q) (Z.land (head_ q +64 1) (Capacity - 1)) (tail_ q) in
        let '(q'', xs) := try_dequeue_batch q' max' in (q'', x :: xs)
  end.

Definition size (q : LocalQueue T) : Z := Z.land (tail_ q -64 head_ q) (Capacity - 1).
Definition empty (q : LocalQueue T) : bool := head_ q =? tail_ q.

Definition contents (q : LocalQueue T) : list T :=
  read_slots (Capacity - 1) (items q) (head_ q) (Z.to_nat (size q)).

Record wf (q : LocalQueue T) : Prop := {
  wf_len : length (items q) = Z.to_nat Capacity;
  wf_range : 0 ≤ head_ q < Capacity ∧ 0 ≤ tail_ q < Capacity
}.

End Ops.

Section Facts.
Context {T : Type} `{!Inhabited T} (k : Z) (Hk : 1 ≤ k ≤ 63).
Implicit Types (q : LocalQueue T).
Local Abbreviation C := (2 ^ k).

Lemma cap_bounds : 2 ≤ C ≤ 9223372036854775808.
Proof.
  split.
  - change 2 with (2 ^ 1) at 1. apply Z.pow_le_mono_r; lia.
  - change 9223372036854775808 with (2 ^ 63). apply Z.pow_le_mono_r; lia.
Qed.

Lemma size_mod q : size C q = (tail_ q - head_ q) mod C.
Proof. unfold size. by rewrite land_mask, wrap64_mod_pow2 by lia. Qed.

Lemma size_cases q :
  wf C q → size C q = if head_ q <=? tail_ q then tail_ q - head_ q
                       else tail_ q - head_ q + C.
Proof.
  intros [_ Hr]. rewrite size_mod. pose proof cap_bounds. zcases.
  - apply Z.mod_small. lia.
  - rewrite <- (Z_mod_plus_full _ 1), Z.mul_1_l. apply Z.mod_small. lia.
Qed.

Lemma next_index i : 0 ≤ i < C → Z.land (i +64 1) (C - 1) = if i + 1 <? C then i + 1 else 0.
Proof.
  intros Hi. rewrite land_mask, wrap64_mod_pow2 by lia. zcases.
  - apply Z.mod_small. lia.
  - replace (i + 1) with C by lia. apply Z_mod_same_full.
Qed.

Lemma size_range q : wf C q → 0 ≤ size C q < C.
Proof. intros H. rewrite size_cases by done. pose proof (wf_range _ _ H). zcases; lia. Qed.

Lemma local_length_contents q : wf C q → Z.of_nat (length (contents C q)) = size C q.
Proof.
  intros H. unfold contents. rewrite length_read_slots.
  pose proof (size_range q H). lia.
Qed.

Lemma index_as_slot i : 0 ≤ i < C → Z.to_nat i = slot k i.
Proof. intros. unfold slot. by rewrite Z.mod_small. Qed.

Lemma try_enqueue_spec q x :
  wf C q →
  let '(q', ok) := try_enqueue C q x in
  wf C q' ∧ ok = (Z.of_nat (length (contents C q)) <? C - 1)
  ∧ contents C q' = if ok then contents C q ++ [x] else contents C q.
Proof.
  intros H. pose proof (wf_range _ _ H) as Hr. pose proof cap_bounds as Hc.
  rewrite local_length_contents by done. unfold try_enqueue.
  assert ((Z.land (tail_ q +64 1) (C - 1) =? head_ q) = negb (size C q <? C - 1)) as E.
  { rewrite next_index, size_cases by (done || lia). zcases; simpl; lia. }
  destruct (Z.ltb_spec (size C q) (C - 1)) as [Hlt|Hge]; simpl in E; rewrite E.
  2: { split; [done|]. split; [lia|done]. }
  rewrite next_index by lia.
  set (q' := mkLocal _ _ _).
  assert (wf C q') as Hw'.
  { split; simpl; [rewrite length_insert; apply H|]. zcases; lia. }
  assert (size C q' = size C q + 1) as Hs.
  { rewrite !size_cases by done. subst q'. simpl.
    rewrite size_cases in Hlt by done. clear E. zcases; lia. }
  split; [done|]. split; [lia|].
  unfold contents. rewrite Hs. cbn [items head_ q'].
  pose proof (size_range q H).
  replace (Z.to_nat (size C q + 1)) with (Z.to_nat (size C q) + length [x])%nat
    by (simpl; lia).
  rewrite <- (read_write_append k ltac:(lia)); [|apply H|simpl; lia].
  f_equal. simpl. rewrite mask_slot, Z2Nat.id by lia. f_equal.
  rewrite (index_as_slot (tail_ q)) by lia. unfold slot. f_equal.
  rewrite size_mod, Zplus_mod_idemp_r. f_equal. lia.
Qed.

Lemma pop_spec q :
  wf C q → head_ q ≠ tail_ q →
  let q' := mkLocal (items q) (Z.land (head_ q +64 1) (C - 1)) (tail_ q) in
  wf C q' ∧ contents C q = items q !!! Z.to_nat (head_ q) :: contents C q'.
Proof.
  intros H Hne q'. pose proof (wf_range _ _ H) as Hr. pose proof cap_bounds.
  assert (wf C q') as Hw'.
  { split; [apply H|]. subst q'. cbn [head_ tail_]. rewrite next_index by lia. zcases; lia. }
  assert (size C q = size C q' + 1) as Hs.
  { rewrite !size_cases by done. subst q'. cbn [head_ tail_].
    rewrite next_index by lia. zcases; lia. }
  split; [done|]. unfold contents. rewrite Hs.
  pose proof (size_range q' Hw').
  replace (Z.to_nat (size C q' + 1)) with (S (Z.to_nat (size C q'))) by lia.
  cbn [read_slots items head_ q']. f_equal.
  - by rewrite mask_slot, <- index_as_slot by lia.
  - rewrite (land_mask _ k), wrap64_mod_pow2 by lia.
    rewrite read_slots_wrap by lia. apply read_slots_congr; [lia|]. by rewrite Zmod_mod.
Qed.

Lemma contents_nil q : wf C q → head_ q = tail_ q → contents C q = [].
Proof.
  intros H E. apply nil_length_inv. pose proof (local_length_contents q H) as Hl.
  rewrite size_cases in Hl by done. rewrite E in Hl. zcases; lia.
Qed.

Lemma try_dequeue_spec q :
  wf C q →
  let '(q', o) := try_dequeue C q in
  wf C q' ∧ o = head (contents C q) ∧ contents C q' = tail (contents C q).
Proof.
  intros H. unfold try_dequeue. destruct (Z.eqb_spec (head_ q) (tail_ q)) as [E|E].
  - by rewrite (contents_nil q H E).
  - destruct (pop_spec q H E) as [Hw Hc]. by rewrite Hc.
Qed.

Lemma local_try_dequeue_batch_spec q max :
  wf C q →
  let '(q', out) := try_dequeue_batch C q max in
  wf C q' ∧ out = take max (contents C q) ∧ contents C q' = drop max (contents C q).
Proof.
  revert q. induction max as [|max IH]; intros q H; cbn [try_dequeue_batch]; [done|].
  destruct (Z.eqb_spec (head_ q) (tail_ q)) as [E|E].
  - by rewrite (contents_nil q H E).
  - destruct (pop_spec q H E) as [Hw Hc]. specialize (IH _ Hw).
    destruct (try_dequeue_batch _ _ _) as [q'' xs]. destruct IH as (? & -> & ->).
    rewrite Hc. done.
Qed.

End Facts.
End Local.

(** ** [batched_spsc_queue.h] *)
Module Spsc.

Record BatchedSPSCQueue (T : Type) := mkSpsc {
  ring_ : list T;
  write_head : Z;
  local_write_tail : Z;
  local_tail : Z
}.
Arguments mkSpsc {T}. Arguments ring_ {T}. Arguments write_head {T}.
Arguments local_write_tail {T}. Arguments local_tail {T}.

Section Ops.
Context {T : Type} `{!Inhabited T} (Capacity : Z).

Definition make : BatchedSPSCQueue T :=
  mkSpsc (replicate (Z.to_nat Capacity) inhabitant) 0 0 0.

(** No occupancy check: the producer writes [count] slots whatever the
    consumer has read. *)
Definition push_batch (q : BatchedSPSCQueue T) (xs : list T) : BatchedSPSCQueue T :=
  mkSpsc (write_slots (Capacity - 1) (ring_ q) (local_write_tail q) xs)
         (write_head q +64 Z.of_nat (length xs))
         (local_write_tail q +64 Z.of_nat (length xs))
         (local_tail q).

Definition approx_count (q : BatchedSPSCQueue T) : Z := write_head q -64 local_tail q.

Definition try_dequeue_batch (q : BatchedSPSCQueue T) (max : Z) : BatchedSPSCQueue T * list T :=
  let n := Z.min (approx_count q) max in
  (mkSpsc (ring_ q) (write_head q) (local_write_tail q) (local_tail q +64 n),
   read_slots (Capacity - 1) (ring_ q) (local_tail q) (Z.to_nat n)).

Definition contents (q : BatchedSPSCQueue T) : list T :=
  read_slots (Capacity - 1) (ring_ q) (local_tail q) (Z.to_nat (approx_count q)).

Record wf (q : BatchedSPSCQueue T) : Prop := {
  wf_len : length (ring_ q) = Z.to_nat Capacity;
  wf_sync : write_head q = local_write_tail q;
  wf_range : 0 ≤ write_head q < W64 ∧ 0 ≤ local_tail q < W64;
  wf_count : approx_count q ≤ Capacity
}.

End Ops.

Section Facts.
Context {T : Type} `{!Inhabited T} (k : Z) (Hk : 0 ≤ k ≤ 63).
Implicit Types (q : BatchedSPSCQueue T).
Local Abbreviation C := (2 ^ k).

Lemma count_nonneg q : 0 ≤ approx_count q.
Proof. apply wrap64_range. Qed.

Lemma spsc_length_contents q : Z.of_nat (length (contents C q)) = approx_count q.
Proof. unfold contents. rewrite length_read_slots. pose proof (count_nonneg q). lia. Qed.

(** A batch that fits behind the unread elements is appended in order. *)
Lemma push_batch_spec q xs :
  wf C q → approx_count q + Z.of_nat (length xs) ≤ C →
  wf C (push_batch C q xs) ∧ contents C (push_batch C q xs) = contents C q ++ xs.
Proof.
  intros H Hfit. pose proof (count_nonneg q).
  pose proof (pow2_le_W64 k ltac:(lia)).
  assert (2 ^ k ≤ 2 ^ 63) by (apply Z.pow_le_mono_r; lia).
  assert (approx_count (push_batch C q xs) = approx_count q + Z.of_nat (length xs)) as Hn.
  { unfold approx_count. simpl. rewrite wrap64_sub_l.
    replace (_ + _ - _) with (write_head q - local_tail q + Z.of_nat (length xs)) by lia.
    rewrite <- wrap64_add_l. apply wrap64_small. fold (approx_count q).
    change (2 ^ 63) with 9223372036854775808 in *. unfold W64. lia. }
  split.
  - split; simpl.
    + rewrite length_write_slots. apply H.
    + by rewrite (wf_sync _ _ H).
    + split; [apply wrap64_range|apply H].
    + rewrite Hn. done.
  - unfold contents. rewrite Hn. cbn [push_batch ring_ local_tail].
    replace (Z.to_nat (_ + _)) with (Z.to_nat (approx_count q) + length xs)%nat by lia.
    rewrite <- (write_slots_wrap k ltac:(lia)).
    replace (wrap64 (local_write_tail q))
      with (wrap64 (local_tail q + Z.of_nat (Z.to_nat (approx_count q)))).
    2:{ rewrite Z2Nat.id by lia. unfold approx_count.
        rewrite wrap64_add_r, (wf_sync _ _ H). f_equal. lia. }
    rewrite (write_slots_wrap k ltac:(lia)).
    apply read_write_append; [lia|apply H|lia].
Qed.

Lemma spsc_try_dequeue_batch_spec q max :
  wf C q → 0 ≤ max →
  let '(q', out) := try_dequeue_batch C q max in
  wf C q' ∧ out = take (Z.to_nat max) (contents C q)
  ∧ contents C q' = drop (Z.to_nat max) (contents C q).
Proof.
  intros H Hm. unfold try_dequeue_batch. pose proof (count_nonneg q).
  set (n := Z.min _ _). set (q' := mkSpsc _ _ _ _).
  pose proof (wrap64_range (write_head q - local_tail q)).
  assert (approx_count q' = approx_count q - n) as Hn.
  { unfold approx_count, q'. simpl. rewrite wrap64_sub_r.
    replace (_ - (_ + _)) with (write_head q - local_tail q - n) by lia.
    rewrite <- wrap64_sub_l. apply wrap64_small. fold (approx_count q).
    unfold approx_count in *. lia. }
  pose proof (spsc_length_contents q) as Hl.
  assert (∀ l : list T, Z.of_nat (length l) = approx_count q →
    take (Z.to_nat n) l = take (Z.to_nat max) l ∧
    drop (Z.to_nat n) l = drop (Z.to_nat max) l) as Hclip.
  { intros l El. unfold n. destruct (Z.le_gt_cases (approx_count q) max).
    - rewrite Z.min_l by lia. rewrite !take_ge, !drop_ge by lia. done.
    - by rewrite Z.min_r by lia. }
  split; [|split].
  - split; try apply H; simpl.
    + split; [apply H|apply wrap64_range].
    + rewrite Hn. pose proof (wf_count _ _ H). lia.
  - rewrite <- (proj1 (Hclip _ Hl)). unfold contents.
    rewrite read_slots_take by lia. done.
  - rewrite <- (proj2 (Hclip _ Hl)). unfold contents.
    rewrite read_slots_drop by lia. rewrite Hn. cbn [ring_ local_tail q'].
    rewrite read_slots_wrap by lia. f_equal; lia.
Qed.

End Facts.
End Spsc.
