(* ===== verification/WorkQueues.v ===== *)
(** The [WorkQueue] hierarchy ([work_queue.h] and its four implementations
    [local_work_queue], [affine_work_queue], [batched_spsc_work_queue],
    [ring_work_queue]).

    [WorkQueueOps] is the abstract class; [WorkQueueLaws] is what a client such
    as the scheduler may rely on: a bounded FIFO.  The sum type [WorkQueue]
    plays the part of [unique_ptr<WorkQueue>] with its virtual dispatch, and
    its instance of the laws is discharged by the ring theorems of [Rings]. *)
From S2P Require Import Prelude Types Circ Rings.

(** ** The interface *)

Class WorkQueueOps (Q : Type) := {
  enqueue : Q → WorkItem → option Q;        (* [None]: the call never returns *)
  try_dequeue : Q → Q * option WorkItem;
  try_dequeue_batch : Q → Z → Q * list WorkItem;
  approx_count : Q → Z;
  q_type : Q → QueueType;
  base_priority : Q → Priority;
  semantic : Q → QueueSemantic
}.

(** What one operation does to the abstract queue: [room] items at most, and
    an item offered to a full queue is dropped. *)
Definition fifo_enqueue (room : Z) (l : list WorkItem) (x : WorkItem) : list WorkItem :=
  if Z.of_nat (length l) <? room then l ++ [x] else l.

(** The dynamic class of a queue. *)
Inductive QueueClass := CLocal | CAffine | CBatchedSPSC | CRing.

Class WorkQueueLaws (Q : Type) `{!WorkQueueOps Q} := {
  q_wf : Q → Prop;
  q_contents : Q → list WorkItem;
  q_room : Q → Z;
  q_checked : Q → bool;
  q_class : Q → QueueClass;
  q_meta : Q → QueueType * Priority * QueueSemantic * Z * bool * QueueClass :=
    λ q, (q_type q, base_priority q, semantic q, q_room q, q_checked q, q_class q);
  enqueue_law q x :
    q_wf q → (q_checked q = true ∨ Z.of_nat (length (q_contents q)) < q_room q) →
    ∃ q', enqueue q x = Some q' ∧ q_wf q' ∧ q_meta q' = q_meta q
          ∧ q_contents q' = fifo_enqueue (q_room q) (q_contents q) x;
  dequeue_law q :
    q_wf q → ∀ q' o, try_dequeue q = (q', o) →
    q_wf q' ∧ q_meta q' = q_meta q ∧ o = head (q_contents q)
    ∧ q_contents q' = tail (q_contents q);
  batch_law q max :
    q_wf q → 0 ≤ max → ∀ q' out, try_dequeue_batch q max = (q', out) →
    q_wf q' ∧ q_meta q' = q_meta q ∧ out = take (Z.to_nat max) (q_contents q)
    ∧ q_contents q' = drop (Z.to_nat max) (q_contents q);
  count_law q : q_wf q → approx_count q = Z.of_nat (length (q_contents q));
  (* a queue without a full test takes every item, and stays one *)
  unchecked_enqueue q x : q_checked q = false → ∃ q', enqueue q x = Some q' ∧ q_meta q' = q_meta q;
  unchecked_batch q max :
    q_checked q = false → ∀ q' out, try_dequeue_batch q max = (q', out) →
    q_meta q' = q_meta q ∧ (0 < approx_count q → 0 < max → out ≠ [])
}.

(** ** The implementations *)

Record QueueMeta := mkMeta { m_type : QueueType; m_priority : Priority; m_name : string }.

Inductive WorkQueue :=
| LocalWorkQueue (m : QueueMeta) (q : Local.LocalQueue WorkItem)
| AffineWorkQueue (m : QueueMeta) (q : Mpmc.MPMCRing WorkItem)
| BatchedSPSCWorkQueue (m : QueueMeta) (q : Spsc.BatchedSPSCQueue WorkItem)
| RingWorkQueue (m : QueueMeta) (q : Mpmc.MPMCRing WorkItem).

(** Template defaults of [LocalQueue] and [BatchedSPSCQueue]. *)
Definition kLocalCapacity : Z := 1024.
Definition kSpscCapacity : Z := 4096.

(** The constructors: the [capacity] argument of the local and SPSC queues is
    unnamed in the source and not used. *)
Definition make_local (t : QueueType) (p : Priority) (name : string) (capacity : Z) : WorkQueue :=
  LocalWorkQueue (mkMeta t p name) (Local.make kLocalCapacity).
Definition make_spsc (t : QueueType) (p : Priority) (name : string) (capacity : Z) : WorkQueue :=
  BatchedSPSCWorkQueue (mkMeta t p name) (Spsc.make kSpscCapacity).
Definition make_affine (t : QueueType) (p : Priority) (name : string) (capacity : Z) : option WorkQueue :=
  r ← Mpmc.make capacity; Some (AffineWorkQueue (mkMeta t p name) r).
Definition make_ring (t : QueueType) (p : Priority) (name : string) (capacity : Z) : option WorkQueue :=
  r ← Mpmc.make capacity; Some (RingWorkQueue (mkMeta t p name) r).

Definition wq_meta (w : WorkQueue) : QueueMeta :=
  match w with
  | LocalWorkQueue m _ | AffineWorkQueue m _ | BatchedSPSCWorkQueue m _ | RingWorkQueue m _ => m
  end.

(** [LocalWorkQueue::enqueue] ignores the result of [try_enqueue]; the ring
    queues ignore the result of [MPMCRing::enqueue]; the SPSC queue pushes a
    batch of one. *)
Definition wq_enqueue (w : WorkQueue) (x : WorkItem) : option WorkQueue :=
  match w with
  | LocalWorkQueue m q => Some (LocalWorkQueue m (fst (Local.try_enqueue kLocalCapacity q x)))
  | AffineWorkQueue m r => '(r', _) ← Mpmc.enqueue r x; Some (AffineWorkQueue m r')
  | BatchedSPSCWorkQueue m q => Some (BatchedSPSCWorkQueue m (Spsc.push_batch kSpscCapacity q [x]))
  | RingWorkQueue m r => '(r', _) ← Mpmc.enqueue r x; Some (RingWorkQueue m r')
  end.

Definition wq_try_dequeue (w : WorkQueue) : WorkQueue * option WorkItem :=
  match w with
  | LocalWorkQueue m q =>
      let '(q', o) := Local.try_dequeue kLocalCapacity q in (LocalWorkQueue m q', o)
  | AffineWorkQueue m r =>
      let '(r', o) := Mpmc.dequeue r in (AffineWorkQueue m r', o)
  | BatchedSPSCWorkQueue m q =>
      let '(q', out) := Spsc.try_dequeue_batch kSpscCapacity q 1 in
      (BatchedSPSCWorkQueue m q', head out)
  | RingWorkQueue m r =>
      let '(r', o) := Mpmc.dequeue r in (RingWorkQueue m r', o)
  end.

Definition wq_try_dequeue_batch (w : WorkQueue) (max : Z) : WorkQueue * list WorkItem :=
  match w with
  | LocalWorkQueue m q =>
      let '(q', out) := Local.try_dequeue_batch kLocalCapacity q (Z.to_nat max) in
      (LocalWorkQueue m q', out)
  | AffineWorkQueue m r =>
      let '(r', out) := Mpmc.dequeue_bulk r max in (AffineWorkQueue m r', out)
  | BatchedSPSCWorkQueue m q =>
      let '(q', out) := Spsc.try_dequeue_batch kSpscCapacity q max in
      (BatchedSPSCWorkQueue m q', out)
  | RingWorkQueue m r =>
      let '(r', out) := Mpmc.dequeue_bulk r max in (RingWorkQueue m r', out)
  end.

Definition wq_approx_count (w : WorkQueue) : Z :=
  match w with
  | LocalWorkQueue _ q => Local.size kLocalCapacity q
  | AffineWorkQueue _ r | RingWorkQueue _ r => Mpmc.count r
  | BatchedSPSCWorkQueue _ q => Spsc.approx_count q
  end.

Definition wq_semantic (w : WorkQueue) : QueueSemantic :=
  match w with
  | LocalWorkQueue _ _ => kLocalS
  | AffineWorkQueue _ _ | RingWorkQueue _ _ => kMPMC
  | BatchedSPSCWorkQueue _ _ => kSPSC
  end.

#[export] Instance WorkQueue_ops : WorkQueueOps WorkQueue := {
  enqueue := wq_enqueue;
  try_dequeue := wq_try_dequeue;
  try_dequeue_batch := wq_try_dequeue_batch;
  approx_count := wq_approx_count;
  q_type w := m_type (wq_meta w);
  base_priority w := m_priority (wq_meta w);
  semantic := wq_semantic
}.

Definition wq_wf (w : WorkQueue) : Prop :=
  match w with
  | LocalWorkQueue _ q => Local.wf kLocalCapacity q
  | AffineWorkQueue _ r | RingWorkQueue _ r => Mpmc.wf r
  | BatchedSPSCWorkQueue _ q => Spsc.wf kSpscCapacity q
  end.

Definition wq_contents (w : WorkQueue) : list WorkItem :=
  match w with
  | LocalWorkQueue _ q => Local.contents kLocalCapacity q
  | AffineWorkQueue _ r | RingWorkQueue _ r => Mpmc.contents r
  | BatchedSPSCWorkQueue _ q => Spsc.contents kSpscCapacity q
  end.

(** How many items fit: one slot of the local ring stays empty. *)
Definition wq_room (w : WorkQueue) : Z :=
  match w with
  | LocalWorkQueue _ _ => kLocalCapacity - 1
  | AffineWorkQueue _ r | RingWorkQueue _ r => Mpmc.capacity r
  | BatchedSPSCWorkQueue _ _ => kSpscCapacity
  end.

(** Whether [enqueue] looks at the occupancy at all. *)
Definition wq_checked (w : WorkQueue) : bool :=
  match w with BatchedSPSCWorkQueue _ _ => false | _ => true end.

Definition wq_class (w : WorkQueue) : QueueClass :=
  match w with
  | LocalWorkQueue _ _ => CLocal
  | AffineWorkQueue _ _ => CAffine
  | BatchedSPSCWorkQueue _ _ => CBatchedSPSC
  | RingWorkQueue _ _ => CRing
  end.

(** ** A trace of operations, on the implementation and on the bounded FIFO *)

Inductive QueueOp := OpEnqueue (x : WorkItem) | OpDequeue | OpBatch (max : Z) | OpCount.
Inductive QueueOut := OutUnit | OutItem (o : option WorkItem) | OutItems (l : list WorkItem)
                    | OutCount (n : Z).

Section Traces.
Context {Q : Type} `{!WorkQueueOps Q}.

Definition op_run (q : Q) (op : QueueOp) : option (Q * QueueOut) :=
  match op with
  | OpEnqueue x => q' ← enqueue q x; Some (q', OutUnit)
  | OpDequeue => let '(q', o) := try_dequeue q in Some (q', OutItem o)
  | OpBatch max => let '(q', l) := try_dequeue_batch q max in Some (q', OutItems l)
  | OpCount => Some (q, OutCount (approx_count q))
  end.

Fixpoint trace_run (q : Q) (ops : list QueueOp) : option (Q * list QueueOut) :=
  match ops with
  | [] => Some (q, [])
  | op :: rest =>
      '(q1, o) ← op_run q op; '(q2, os) ← trace_run q1 rest; Some (q2, o :: os)
  end.

End Traces.

Definition op_spec (room : Z) (l : list WorkItem) (op : QueueOp) : list WorkItem * QueueOut :=
  match op with
  | OpEnqueue x => (fifo_enqueue room l x, OutUnit)
  | OpDequeue => (tail l, OutItem (head l))
  | OpBatch max => (drop (Z.to_nat max) l, OutItems (take (Z.to_nat max) l))
  | OpCount => (l, OutCount (Z.of_nat (length l)))
  end.

Fixpoint trace_spec (room : Z) (l : list WorkItem) (ops : list QueueOp)
  : list WorkItem * list QueueOut :=
  match ops with
  | [] => (l, [])
  | op :: rest =>
      let '(l1, o) := op_spec room l op in
      let '(l2, os) := trace_spec room l1 rest in (l2, o :: os)
  end.

(** Every enqueue of the trace finds room (decidable, for the unchecked
    queue); batch sizes are [size_t]s. *)
Fixpoint never_full (room : Z) (l : list WorkItem) (ops : list QueueOp) : bool :=
  match ops with
  | [] => true
  | op :: rest =>
      match op with OpEnqueue _ => Z.of_nat (length l) <? room | _ => true end
      && never_full room (fst (op_spec room l op)) rest
  end.

Definition op_ok (op : QueueOp) : bool := match op with OpBatch m => 0 <=? m | _ => true end.

(** ** The laws hold *)

Lemma mpmc_enqueue_law (r : Mpmc.MPMCRing WorkItem) x :
  Mpmc.wf r →
  ∃ r' b, Mpmc.enqueue r x = Some (r', b) ∧ Mpmc.wf r' ∧ Mpmc.capacity r' = Mpmc.capacity r
    ∧ Mpmc.contents r' = fifo_enqueue (Mpmc.capacity r) (Mpmc.contents r) x.
Proof.
  intros H. destruct (Mpmc.enqueue_bulk_spec r [x] H) as (r' & n & E & Hw & Hc & Hn & Hl).
  unfold Mpmc.enqueue. rewrite E. eexists r', _. split; [done|]. split_and!; try done.
  rewrite Hl. unfold fifo_enqueue. simpl in Hn.
  pose proof (Mpmc.mpmc_length_contents r H). pose proof (Mpmc.wf_count_range r H).
  zcases.
  - by replace (Z.to_nat n) with 1%nat by lia.
  - replace (Z.to_nat n) with 0%nat by lia. by rewrite app_nil_r.
Qed.

Lemma mpmc_dequeue_law (r r' : Mpmc.MPMCRing WorkItem) o :
  Mpmc.wf r → Mpmc.dequeue r = (r', o) →
  Mpmc.wf r' ∧ Mpmc.capacity r' = Mpmc.capacity r
  ∧ o = head (Mpmc.contents r) ∧ Mpmc.contents r' = tail (Mpmc.contents r).
Proof.
  intros H E. unfold Mpmc.dequeue in E.
  pose proof (Mpmc.dequeue_bulk_spec r 1 H ltac:(lia)) as Hs.
  destruct (Mpmc.dequeue_bulk r 1) as [r1 out]. simplify_eq.
  destruct Hs as (? & ? & -> & ->). split_and!; try done.
  by destruct (Mpmc.contents r).
Qed.

Lemma local_make_wf : Local.wf kLocalCapacity (Local.make (T:=WorkItem) kLocalCapacity).
Proof. split; [done|]. simpl. unfold kLocalCapacity. lia. Qed.

Lemma spsc_make_wf : Spsc.wf kSpscCapacity (Spsc.make (T:=WorkItem) kSpscCapacity).
Proof. split; done. Qed.

Lemma spsc_batch_nonempty (q : Spsc.BatchedSPSCQueue WorkItem) max :
  0 < Spsc.approx_count q → 0 < max → (Spsc.try_dequeue_batch kSpscCapacity q max).2 ≠ [].
Proof.
  intros Hc Hm E. unfold Spsc.try_dequeue_batch in E. simpl in E. apply (f_equal length) in E.
  change (kSpscCapacity - 1) with (2 ^ 12 - 1) in E. rewrite length_read_slots in E. simpl in E. lia.
Qed.

#[local] Obligation Tactic := idtac.
#[local] Opaque Spsc.try_dequeue_batch Spsc.push_batch Mpmc.dequeue_bulk Mpmc.dequeue
  Mpmc.enqueue Local.try_dequeue Local.try_dequeue_batch Local.try_enqueue.

#[export] Program Instance WorkQueue_laws : WorkQueueLaws WorkQueue := {
  q_wf := wq_wf; q_contents := wq_contents; q_room := wq_room; q_checked := wq_checked;
  q_class := wq_class
}.
Next Obligation.
  intros w x H Hroom. destruct w as [m q|m r|m q|m r]; simpl in *.
  - pose proof (Local.try_enqueue_spec 10 ltac:(lia) q x H) as Hs.
    change (2 ^ 10) with kLocalCapacity in Hs.
    destruct (Local.try_enqueue _ _ _) as [q' ok]. destruct Hs as (Hw & Hok & Hc).
    eexists. split; [done|]. split_and!; try done. simpl. rewrite Hc. unfold fifo_enqueue.
    by rewrite <- Hok.
  - destruct (mpmc_enqueue_law r x H) as (r' & b & -> & Hw & Hcap & Hl).
    eexists. split; [done|]. split_and!; try done. simpl. by rewrite Hcap.
  - destruct Hroom as [?|Hroom]; [done|].
    rewrite (Spsc.spsc_length_contents 12) in Hroom.
    pose proof (Spsc.push_batch_spec 12 ltac:(lia) q [x] H) as Hs.
    change (2 ^ 12) with kSpscCapacity in Hs.
    destruct Hs as [Hw Hc]; [simpl; lia|].
    eexists. split; [done|]. split_and!; try done. simpl. rewrite Hc. unfold fifo_enqueue.
    rewrite (Spsc.spsc_length_contents 12). by rewrite (proj2 (Z.ltb_lt _ _) Hroom).
  - destruct (mpmc_enqueue_law r x H) as (r' & b & -> & Hw & Hcap & Hl).
    eexists. split; [done|]. split_and!; try done. simpl. by rewrite Hcap.
Qed.
Next Obligation.
  intros w H w' o E. destruct w as [m q|m r|m q|m r]; simpl in *.
  - pose proof (Local.try_dequeue_spec 10 ltac:(lia) q H) as Hs.
    change (2 ^ 10) with kLocalCapacity in Hs.
    destruct (Local.try_dequeue _ _) as [q' o']. simplify_eq. naive_solver.
  - destruct (Mpmc.dequeue r) as [r' o'] eqn:E'. simplify_eq.
    apply mpmc_dequeue_law in E'; [|done]. destruct E' as (? & Hcap & ? & ?).
    simpl. rewrite Hcap. naive_solver.
  - pose proof (Spsc.spsc_try_dequeue_batch_spec 12 ltac:(lia) q 1 H ltac:(lia)) as Hs.
    change (2 ^ 12) with kSpscCapacity in Hs.
    destruct (Spsc.try_dequeue_batch _ _ _) as [q' out]. simplify_eq.
    destruct Hs as (? & -> & Hc). split_and!; try done.
    by destruct (Spsc.contents kSpscCapacity q).
  - destruct (Mpmc.dequeue r) as [r' o'] eqn:E'. simplify_eq.
    apply mpmc_dequeue_law in E'; [|done]. destruct E' as (? & Hcap & ? & ?).
    simpl. rewrite Hcap. naive_solver.
Qed.
Next Obligation.
  intros w max H Hm w' out E. destruct w as [m q|m r|m q|m r]; simpl in *.
  - pose proof (Local.local_try_dequeue_batch_spec 10 ltac:(lia) q (Z.to_nat max) H) as Hs.
    change (2 ^ 10) with kLocalCapacity in Hs.
    destruct (Local.try_dequeue_batch _ _ _) as [q' o']. simplify_eq. naive_solver.
  - pose proof (Mpmc.dequeue_bulk_spec r max H Hm) as Hs.
    destruct (Mpmc.dequeue_bulk r max) as [r' o']. simplify_eq.
    destruct Hs as (? & Hcap & ? & ?). simpl. rewrite Hcap. naive_solver.
  - pose proof (Spsc.spsc_try_dequeue_batch_spec 12 ltac:(lia) q max H Hm) as Hs.
    change (2 ^ 12) with kSpscCapacity in Hs.
    destruct (Spsc.try_dequeue_batch _ _ _) as [q' o']. simplify_eq. naive_solver.
  - pose proof (Mpmc.dequeue_bulk_spec r max H Hm) as Hs.
    destruct (Mpmc.dequeue_bulk r max) as [r' o']. simplify_eq.
    destruct Hs as (? & Hcap & ? & ?). simpl. rewrite Hcap. naive_solver.
Qed.
Next Obligation.
  intros w H. destruct w as [m q|m r|m q|m r]; simpl in *.
  - symmetry. apply (Local.local_length_contents 10); [lia|done].
  - symmetry. by apply Mpmc.mpmc_length_contents.
  - symmetry. apply (Spsc.spsc_length_contents 12).
  - symmetry. by apply Mpmc.mpmc_length_contents.
Qed.
Next Obligation. intros [m q|m r|m q|m r] x H; try done. by eexists. Qed.
Next Obligation.
  intros [m q|m r|m q|m r] max H w' out E; try done. simpl in *.
  pose proof (spsc_batch_nonempty q max) as Hn.
  destruct (Spsc.try_dequeue_batch _ _ _) as [q' l]. by injection E as <- <-.
Qed.

#[local] Transparent Spsc.try_dequeue_batch Spsc.push_batch Mpmc.dequeue_bulk Mpmc.dequeue
  Mpmc.enqueue Local.try_dequeue Local.try_dequeue_batch Local.try_enqueue.

(** ** The refinement, for any implementation of the interface *)

Section Refinement.
Context {Q : Type} `{!WorkQueueOps Q, !WorkQueueLaws Q}.

Lemma op_refines (q : Q) op :
  q_wf q → op_ok op = true →
  (q_checked q = true ∨ never_full (q_room q) (q_contents q) [op] = true) →
  ∃ q', op_run q op = Some (q', snd (op_spec (q_room q) (q_contents q) op))
    ∧ q_wf q' ∧ q_meta q' = q_meta q
    ∧ q_contents q' = fst (op_spec (q_room q) (q_contents q) op).
Proof.
  intros H Hop Hfull. destruct op as [x| |max|]; cbn [op_run op_spec op_ok fst snd] in *.
  - destruct (enqueue_law q x H) as (q' & -> & Hq').
    { destruct Hfull as [?|Hf]; [by left|right]. simpl in Hf.
      apply andb_prop in Hf as [Hf _]. lia. }
    exists q'. split; [done|exact Hq'].
  - destruct (try_dequeue q) as [q' o] eqn:E.
    destruct (dequeue_law q H _ _ E) as (? & ? & -> & ?). exists q'. done.
  - destruct (try_dequeue_batch q max) as [q' l] eqn:E.
    destruct (batch_law q max H ltac:(lia) _ _ E) as (? & ? & -> & ?). exists q'. done.
  - rewrite (count_law q H). exists q. done.
Qed.

Lemma trace_refines (ops : list QueueOp) (q : Q) :
  q_wf q → forallb op_ok ops = true →
  (q_checked q = true ∨ never_full (q_room q) (q_contents q) ops = true) →
  ∃ q', trace_run q ops = Some (q', snd (trace_spec (q_room q) (q_contents q) ops))
    ∧ q_wf q' ∧ q_meta q' = q_meta q
    ∧ q_contents q' = fst (trace_spec (q_room q) (q_contents q) ops).
Proof.
  revert q. induction ops as [|op ops IH]; intros q H Hops Hfull; [by exists q|].
  cbn [trace_run trace_spec forallb never_full] in *. apply andb_prop in Hops as [Ho Hops].
  destruct (op_refines q op H Ho) as (q1 & Hrun & Hw1 & Hm1 & Hc1).
  { destruct Hfull as [?|Hf]; [by left|right]. apply andb_prop in Hf as [Hf _].
    simpl. by rewrite Hf. }
  assert (q_room q1 = q_room q ∧ q_checked q1 = q_checked q) as [Hroom Hchk]
    by (unfold q_meta in Hm1; split; congruence).
  destruct (IH q1 Hw1 Hops) as (q2 & Hrun2 & Hw2 & Hm2 & Hc2).
  { rewrite Hchk, Hroom, Hc1. destruct Hfull as [?|Hf]; [by left|right].
    by apply andb_prop in Hf as [_ Hf]. }
  rewrite Hrun. cbn [mbind option_bind]. rewrite Hrun2. rewrite Hroom, Hc1 in *.
  destruct (op_spec _ _ _) as [l1 o]; cbn [fst snd] in *. destruct (trace_spec _ _ _) as [l2 os].
  exists q2. split_and!; [done|done|congruence|done].
Qed.

End Refinement.

Lemma make_ring_spec (t : QueueType) (p : Priority) (name : string) (capacity : Z) :
  capacity ≤ 2 ^ 63 →
  ∃ w, make_ring t p name capacity = Some w ∧ wq_wf w ∧ wq_contents w = []
    ∧ capacity ≤ wq_room w ∧ (wq_room w = 1 ∨ wq_room w < 2 * capacity).
Proof.
  intros Hc. destruct (Mpmc.make_wf (T:=WorkItem) capacity Hc) as (r & E & ? & ? & ? & ?).
  unfold make_ring. rewrite E. eexists. split; [done|]. by split_and!.
Qed.

(** ** Properties *)

(** C9: the work queues that test for room (local, ring and affine) refine a
    bounded FIFO: any sequence of enqueues, dequeues, batch dequeues and counts
    returns, with every call terminating, exactly the answers of a FIFO of
    [wq_room] items that drops what does not fit.  The SPSC queue, which does
    not look at its occupancy, does so as long as the sequence never enqueues
    into a full queue; on overflow it loses its oldest items
    ([spsc_overflow_loses_oldest]). *)
Theorem workqueue_refines_bounded_fifo (w : WorkQueue) (ops : list QueueOp) :
  wq_wf w → forallb op_ok ops = true →
  (wq_checked w = true ∨ never_full (wq_room w) (wq_contents w) ops = true) →
  ∃ w', trace_run w ops = Some (w', snd (trace_spec (wq_room w) (wq_contents w) ops))
    ∧ wq_wf w' ∧ wq_room w' = wq_room w
    ∧ wq_contents w' = fst (trace_spec (wq_room w) (wq_contents w) ops).
Proof.
  intros H Hops Hfull. pose proof (trace_refines ops w) as Ht.
  destruct (Ht H Hops Hfull) as (w' & ? & ? & Hm & ?).
  exists w'. split_and!; try done. unfold q_meta in Hm. simpl in Hm. congruence.
Qed.

(** The constructors establish the invariant: a fresh queue is well
    formed and empty.  A ring holds at least what was asked for (and less than
    twice that); a local queue always holds 1023 items and an SPSC queue 4096,
    whatever capacity is passed. *)
Theorem workqueue_constructors (t : QueueType) (p : Priority) (name : string) (capacity : Z) :
  (wq_wf (make_local t p name capacity) ∧ wq_contents (make_local t p name capacity) = []
   ∧ wq_room (make_local t p name capacity) = 1023)
  ∧ (wq_wf (make_spsc t p name capacity) ∧ wq_contents (make_spsc t p name capacity) = []
     ∧ wq_room (make_spsc t p name capacity) = 4096)
  ∧ (capacity ≤ 2 ^ 63 →
     ∃ w, make_ring t p name capacity = Some w ∧ wq_wf w ∧ wq_contents w = []
       ∧ capacity ≤ wq_room w ∧ (wq_room w = 1 ∨ wq_room w < 2 * capacity)).
Proof.
  split; [|split].
  - split; [apply local_make_wf|done].
  - split; [apply spsc_make_wf|done].
  - apply make_ring_spec.
Qed.

(** The SPSC queue has no overflow check: one push into a full queue
    overwrites the oldest unread item.  The count then exceeds the capacity
    and the next dequeue returns the newest item in place of the oldest. *)
Theorem spsc_overflow_loses_oldest (m : QueueMeta) (q : Spsc.BatchedSPSCQueue WorkItem) (x : WorkItem) :
  Spsc.wf kSpscCapacity q → Spsc.approx_count q = kSpscCapacity →
  let w := BatchedSPSCWorkQueue m (Spsc.push_batch kSpscCapacity q [x]) in
  wq_enqueue (BatchedSPSCWorkQueue m q) x = Some w
  ∧ wq_approx_count w = 4097 ∧ snd (wq_try_dequeue w) = Some x.
Proof.
  intros H Hfull w. pose proof (Spsc.wf_range _ _ H) as Hr. unfold w. simpl.
  assert (Spsc.approx_count (Spsc.push_batch kSpscCapacity q [x]) = 4097) as Hc.
  { unfold Spsc.approx_count in *. simpl. rewrite wrap64_sub_l.
    replace (_ + 1 - _) with (Spsc.write_head q - Spsc.local_tail q + 1) by lia.
    rewrite <- wrap64_add_l, Hfull. done. }
  split_and!; [done|done|].
  unfold Spsc.try_dequeue_batch. rewrite Hc. simpl.
  change (kSpscCapacity - 1) with (2 ^ 12 - 1).
  change (4095) with (2 ^ 12 - 1). rewrite !mask_slot by lia.
  assert (slot 12 (Spsc.local_write_tail q) = slot 12 (Spsc.local_tail q)) as ->.
  { rewrite <- (Spsc.wf_sync _ _ H).
    rewrite <- (slot_wrap 12 (Spsc.write_head q)) by lia.
    replace (Spsc.write_head q)
      with (Spsc.local_tail q + (Spsc.write_head q - Spsc.local_tail q)) by lia.
    rewrite <- wrap64_add_r. fold (Spsc.approx_count q). rewrite Hfull, slot_wrap by lia.
    unfold slot. f_equal. change kSpscCapacity with (1 * 2 ^ 12). apply Z_mod_plus_full. }
  f_equal. apply list_lookup_total_insert_eq. rewrite (Spsc.wf_len _ _ H).
  apply (slot_lt 12). lia.
Qed.

Lemma workqueue_refines_bounded_fifo_witness :
  ∃ w w', make_ring kEngine kMedium "engine" 2 = Some w
    ∧ trace_run w [OpEnqueue (make_func 1); OpEnqueue (make_coro 2); OpEnqueue (make_coro 3);
                   OpCount; OpDequeue; OpBatch 4]
      = Some (w', [OutUnit; OutUnit; OutUnit; OutCount 2; OutItem (Some (make_func 1));
                   OutItems [make_coro 2]]).
Proof.
  destruct (make_ring_spec kEngine kMedium "engine" 2 ltac:(lia)) as (w & E & Hw & Hc & _).
  assert (wq_room w = 2) as Hroom by (vm_compute in E; by simplify_eq).
  destruct (workqueue_refines_bounded_fifo w
    [OpEnqueue (make_func 1); OpEnqueue (make_coro 2); OpEnqueue (make_coro 3);
     OpCount; OpDequeue; OpBatch 4] Hw eq_refl) as (w' & Hrun & _).
  { left. vm_compute in E. by simplify_eq. }
  exists w, w'. split; [exact E|]. rewrite Hc, Hroom in Hrun. exact Hrun.
Defined.

Lemma workqueue_constructors_witness :
  ∃ w, make_ring kAffine kCritical "affine" 3 = Some w ∧ wq_wf w ∧ 3 ≤ wq_room w.
Proof.
  destruct (proj2 (proj2 (workqueue_constructors kAffine kCritical "affine" 3)) ltac:(lia))
    as (w & E & Hw & _ & Hr & _). by exists w.
Defined.

Lemma spsc_overflow_loses_oldest_witness :
  ∃ q, Spsc.wf kSpscCapacity q ∧ Spsc.approx_count q = kSpscCapacity ∧
  snd (wq_try_dequeue (BatchedSPSCWorkQueue (mkMeta kNetIO kHigh "net_io")
        (Spsc.push_batch kSpscCapacity q [make_coro 9]))) = Some (make_coro 9).
Proof.
  exists (Spsc.mkSpsc (replicate 4096 (make_coro 1)) 4096 4096 0).
  assert (Spsc.wf kSpscCapacity (Spsc.mkSpsc (replicate 4096 (make_coro 1)) 4096 4096 0)) as Hw.
  { split; done. }
  split; [exact Hw|]. split; [reflexivity|].
  exact (proj2 (proj2 (spsc_overflow_loses_oldest (mkMeta kNetIO kHigh "net_io") _
    (make_coro 9) Hw eq_refl))).
Defined.
