(* ===== verification/RingConc.v ===== *)
(** [MPMCRing] under concurrency ([mpmc_ring.h], [enqueue_bulk] and
    [dequeue_bulk_mc]).

    Any number of producers and consumers run the two operations; a step is
    one atomic access of the source (a load, a compare-and-swap that may also
    fail spuriously, one slot copy, one store), and steps of different threads
    interleave freely (sequentially consistent; [RingWeak] takes the memory
    orders into account).  Ghost state records the values in
    the order in which producers reserved their slots and the ranges granted
    to consumers.  [bounded] executions reserve fewer than [2^64] slots in
    all, so no counter is reused: that is the ABA bound of the algorithm. *)
From S2P Require Import Prelude Circ Rings.
Import Mpmc.

Section Machine.
Context {T : Type} `{!Inhabited T}.

(** Where a thread is inside an operation.  [h] is the head it read, [n] the
    (possibly clamped) request, [i] the number of slots copied so far. *)
Inductive tstate :=
| Idle
| PLoad (objs : list T) (n : Z)
| PHead (objs : list T) (n h : Z)
| PCas (objs : list T) (n h : Z)
| PWrite (objs : list T) (n h i : Z)
| PWait (n h : Z)
| PStore (n h : Z)
| PDone (n : Z)
| CLoad (n : Z)
| CHead (n h : Z)
| CCas (n h : Z)
| CRead (n h : Z) (acc : list T)
| CWait (n h : Z) (acc : list T)
| CStore (n h : Z) (acc : list T)
| CDone (h : Z) (acc : list T).

(** The shared ring, and the ghost history: reserved values, granted ranges. *)
Record world := mkWorld { rg : MPMCRing T; lg : list T; grants : list (Z * Z) }.

Definition set_prod_head (r : MPMCRing T) v := mkRing v (prod_tail r) (cons_head r) (cons_tail r) (capacity r) (mask r) (ring r).
Definition set_prod_tail (r : MPMCRing T) v := mkRing (prod_head r) v (cons_head r) (cons_tail r) (capacity r) (mask r) (ring r).
Definition set_cons_head (r : MPMCRing T) v := mkRing (prod_head r) (prod_tail r) v (cons_tail r) (capacity r) (mask r) (ring r).
Definition set_cons_tail (r : MPMCRing T) v := mkRing (prod_head r) (prod_tail r) (cons_head r) v (capacity r) (mask r) (ring r).
Definition set_slot (r : MPMCRing T) (idx : Z) (x : T) :=
  mkRing (prod_head r) (prod_tail r) (cons_head r) (cons_tail r) (capacity r) (mask r)
    (<[Z.to_nat (Z.land (wrap64 idx) (mask r)) := x]> (ring r)).

Definition resting (t : tstate) : bool :=
  match t with Idle | PDone _ | CDone _ _ => true | _ => false end.

Inductive tstep : world → tstate → world → tstate → Prop :=
(* a thread calls an operation *)
| call_enqueue w t objs :
    resting t = true → tstep w t w (PLoad objs (Z.of_nat (length objs)))
| call_dequeue w t n : resting t = true → 0 ≤ n → tstep w t w (CLoad n)
(* enqueue_bulk *)
| p_load_head w objs n : tstep w (PLoad objs n) w (PHead objs n (prod_head (rg w)))
| p_load_tail w objs n h n' :
    n' = Z.min n (wrap64 (capacity (rg w) + cons_tail (rg w) - h)) →
    tstep w (PHead objs n h) w (if n' =? 0 then PDone 0 else PCas objs n' h)
| p_cas_ok w objs n h :
    prod_head (rg w) = h →
    tstep w (PCas objs n h)
      (mkWorld (set_prod_head (rg w) (h +64 n)) (lg w ++ take (Z.to_nat n) objs) (grants w))
      (PWrite objs n h 0)
| p_cas_fail w objs n h : tstep w (PCas objs n h) w (PLoad objs n)
| p_write w objs n h i x :
    i < n → objs !! Z.to_nat i = Some x →
    tstep w (PWrite objs n h i)
      (mkWorld (set_slot (rg w) (h + i) x) (lg w) (grants w)) (PWrite objs n h (i + 1))
| p_written w objs n h : tstep w (PWrite objs n h n) w (PWait n h)
| p_wait_more w n h : prod_tail (rg w) ≠ h → tstep w (PWait n h) w (PWait n h)
| p_wait_done w n h : prod_tail (rg w) = h → tstep w (PWait n h) w (PStore n h)
| p_store w n h :
    tstep w (PStore n h)
      (mkWorld (set_prod_tail (rg w) (h +64 n)) (lg w) (grants w)) (PDone n)
(* dequeue_bulk_mc *)
| c_load_head w n : tstep w (CLoad n) w (CHead n (cons_head (rg w)))
| c_load_tail w n h n' :
    n' = Z.min n (prod_tail (rg w) -64 h) →
    tstep w (CHead n h) w (if n' =? 0 then CDone 0 [] else CCas n' h)
| c_cas_ok w n h :
    cons_head (rg w) = h →
    tstep w (CCas n h)
      (mkWorld (set_cons_head (rg w) (h +64 n)) (lg w) (grants w ++ [(h, n)]))
      (CRead n h [])
| c_cas_fail w n h : tstep w (CCas n h) w (CLoad n)
| c_read w n h acc x :
    Z.of_nat (length acc) < n →
    ring (rg w) !! Z.to_nat (Z.land (h +64 Z.of_nat (length acc)) (mask (rg w))) = Some x →
    tstep w (CRead n h acc) w (CRead n h (acc ++ [x]))
| c_read_all w n h acc :
    Z.of_nat (length acc) = n → tstep w (CRead n h acc) w (CWait n h acc)
| c_wait_more w n h acc : cons_tail (rg w) ≠ h → tstep w (CWait n h acc) w (CWait n h acc)
| c_wait_done w n h acc : cons_tail (rg w) = h → tstep w (CWait n h acc) w (CStore n h acc)
| c_store w n h acc :
    tstep w (CStore n h acc)
      (mkWorld (set_cons_tail (rg w) (h +64 n)) (lg w) (grants w)) (CDone h acc).

Record cstate := mkC { wd : world; thr : gmap nat tstate }.

Inductive cstep : cstate → cstate → Prop :=
| cstep_thread s i t w' t' :
    thr s !! i = Some t → tstep (wd s) t w' t' →
    Z.of_nat (length (lg w')) < W64 →
    cstep s (mkC w' (<[i := t']> (thr s))).

(** A fresh ring of capacity [cap] and [m] idle threads. *)
Definition cinit (cap : Z) (m : nat) : option cstate :=
  r ← make (T:=T) cap;
  Some (mkC (mkWorld r [] []) (list_to_map ((λ i, (i, Idle)) <$> seq 0 m))).

Definition reachable (cap : Z) (m : nat) (s : cstate) : Prop :=
  ∃ s0, cinit cap m = Some s0 ∧ steps cstep s0 s.

(** Slots a thread has reserved and not yet published. *)
Definition prange (t : tstate) : option (Z * Z) :=
  match t with
  | PWrite _ n h _ | PWait n h | PStore n h => Some (h, n)
  | _ => None
  end.
Definition crange (t : tstate) : option (Z * Z) :=
  match t with
  | CRead n h _ | CWait n h _ | CStore n h _ => Some (h, n)
  | _ => None
  end.

(** The values with history indices [[h, h + m)]. *)
Definition slice (l : list T) (h : Z) (m : nat) : list T := take m (drop (Z.to_nat h) l).

End Machine.

Arguments tstate : clear implicits.
Arguments world : clear implicits.
Arguments cstate : clear implicits.

(** ** The invariant *)
Section Invariant.
Context {T : Type} `{!Inhabited T} (k : Z) (Hk : 0 ≤ k ≤ 63).
Implicit Types (w : world T) (t : tstate T) (s : cstate T).

(** Slot [j] holds the value with history index [j]. *)
Definition filled w (j : Z) : Prop := ring (rg w) !! slot k j = lg w !! Z.to_nat j.

Record winv w : Prop := {
  w_cap : capacity (rg w) = 2 ^ k;
  w_mask : mask (rg w) = 2 ^ k - 1;
  w_len : length (ring (rg w)) = Z.to_nat (2 ^ k);
  w_order : 0 ≤ cons_tail (rg w) ∧ cons_tail (rg w) ≤ cons_head (rg w)
            ∧ cons_head (rg w) ≤ prod_tail (rg w) ∧ prod_tail (rg w) ≤ prod_head (rg w);
  w_log : prod_head (rg w) = Z.of_nat (length (lg w));
  w_lap : prod_head (rg w) - cons_tail (rg w) ≤ 2 ^ k;
  w_bound : Z.of_nat (length (lg w)) < W64;
  w_filled : ∀ j, cons_tail (rg w) ≤ j < prod_tail (rg w) → filled w j
}.

Definition tinv w t : Prop :=
  match t with
  | Idle | PDone _ => True
  | PLoad objs n => 0 ≤ n ≤ Z.of_nat (length objs)
  | PHead objs n h => 0 ≤ n ≤ Z.of_nat (length objs) ∧ 0 ≤ h ≤ prod_head (rg w)
  | PCas objs n h =>
      0 < n ≤ Z.of_nat (length objs) ∧ 0 ≤ h ≤ prod_head (rg w)
      ∧ h + n ≤ 2 ^ k + cons_tail (rg w)
  | PWrite objs n h i =>
      0 < n ≤ Z.of_nat (length objs) ∧ 0 ≤ i ≤ n
      ∧ prod_tail (rg w) ≤ h ∧ h + n ≤ prod_head (rg w)
      ∧ (∀ j, 0 ≤ j < n → lg w !! Z.to_nat (h + j) = objs !! Z.to_nat j)
      ∧ (∀ j, 0 ≤ j < i → filled w (h + j))
  | PWait n h =>
      0 < n ∧ prod_tail (rg w) ≤ h ∧ h + n ≤ prod_head (rg w)
      ∧ (∀ j, 0 ≤ j < n → filled w (h + j))
  | PStore n h =>
      0 < n ∧ prod_tail (rg w) = h ∧ h + n ≤ prod_head (rg w)
      ∧ (∀ j, 0 ≤ j < n → filled w (h + j))
  | CLoad n => 0 ≤ n
  | CHead n h => 0 ≤ n ∧ 0 ≤ h ≤ cons_head (rg w)
  | CCas n h => 0 < n ∧ 0 ≤ h ≤ cons_head (rg w) ∧ h + n ≤ prod_tail (rg w)
  | CRead n h acc =>
      0 < n ∧ cons_tail (rg w) ≤ h ∧ h + n ≤ cons_head (rg w)
      ∧ Z.of_nat (length acc) ≤ n ∧ acc = slice (lg w) h (length acc)
  | CWait n h acc =>
      0 < n ∧ cons_tail (rg w) ≤ h ∧ h + n ≤ cons_head (rg w)
      ∧ Z.of_nat (length acc) = n ∧ acc = slice (lg w) h (length acc)
  | CStore n h acc =>
      0 < n ∧ cons_tail (rg w) = h ∧ h + n ≤ cons_head (rg w)
      ∧ Z.of_nat (length acc) = n ∧ acc = slice (lg w) h (length acc)
  | CDone h acc =>
      0 ≤ h ∧ h + Z.of_nat (length acc) ≤ prod_head (rg w)
      ∧ acc = slice (lg w) h (length acc)
  end.

Definition apart (a b : option (Z * Z)) : Prop :=
  match a, b with
  | Some (h, n), Some (h', n') => h + n ≤ h' ∨ h' + n' ≤ h
  | _, _ => True
  end.

(** Consecutive ranges from 0 to [e]: every index below [e] is granted
    exactly once. *)
Fixpoint tiles (b : Z) (l : list (Z * Z)) (e : Z) : Prop :=
  match l with
  | [] => b = e
  | (h, n) :: l' => h = b ∧ 0 < n ∧ tiles (b + n) l' e
  end.

Record cinv s : Prop := {
  c_world : winv (wd s);
  c_thread : ∀ i t, thr s !! i = Some t → tinv (wd s) t;
  c_apart : ∀ i j t u, i ≠ j → thr s !! i = Some t → thr s !! j = Some u →
            apart (prange t) (prange u) ∧ apart (crange t) (crange u);
  c_tiles : tiles 0 (grants (wd s)) (cons_head (rg (wd s)))
}.

Lemma tiles_snoc b l e n : tiles b l e → 0 < n → tiles b (l ++ [(e, n)]) (e + n).
Proof.
  revert b. induction l as [|[h m] l IH]; intros b H Hn; simpl in *; [naive_solver|].
  naive_solver.
Qed.

(** Distinct grants of a tiling do not overlap. *)
Lemma tiles_ge b l e h n : tiles b l e → (h, n) ∈ l → b ≤ h ∧ h + n ≤ e.
Proof.
  revert b. induction l as [|[h' m] l IH]; intros b H Hin; [by apply not_elem_of_nil in Hin|].
  simpl in H. destruct H as (-> & Hm & H).
  assert (∀ l b e, tiles b l e → b ≤ e) as Hmono.
  { clear. intros l. induction l as [|[h m] l IH]; intros b e H; simpl in H; [lia|].
    destruct H as (_ & Hm & H%IH). lia. }
  apply elem_of_cons in Hin as [[= -> ->]|Hin].
  - apply Hmono in H. lia.
  - apply (IH _ H) in Hin. lia.
Qed.

Lemma tiles_apart b l e i j h n h' n' :
  tiles b l e → i ≠ j → l !! i = Some (h, n) → l !! j = Some (h', n') →
  h + n ≤ h' ∨ h' + n' ≤ h.
Proof.
  revert b i j. induction l as [|[h0 m] l IH]; intros b i j H Hij Hi Hj; [done|].
  simpl in H. destruct H as (-> & Hm & H).
  destruct i as [|i], j as [|j]; simpl in *; simplify_eq; try done.
  - apply list_elem_of_lookup_2 in Hj. apply (tiles_ge _ _ _ _ _ H) in Hj. lia.
  - apply list_elem_of_lookup_2 in Hi. apply (tiles_ge _ _ _ _ _ H) in Hi. lia.
  - eapply IH; [done| |done|done]. congruence.
Qed.

(** ** Small facts about histories *)

Lemma slice_app_l (l l' : list T) h m :
  0 ≤ h → h + Z.of_nat m ≤ Z.of_nat (length l) → slice (l ++ l') h m = slice l h m.
Proof.
  intros Hh Hm. unfold slice.
  rewrite drop_app_le by lia. rewrite take_app_le; [done|]. rewrite length_drop. lia.
Qed.

Lemma slice_snoc (l : list T) h m x :
  0 ≤ h → l !! Z.to_nat (h + Z.of_nat m) = Some x → slice l h m ++ [x] = slice l h (S m).
Proof.
  intros Hh Hx. unfold slice. symmetry. apply take_S_r. rewrite lookup_drop.
  rewrite <- Hx. f_equal. lia.
Qed.

Lemma filled_lookup w j : winv w → 0 ≤ j → filled w j →
  j < prod_head (rg w) → ∃ x, ring (rg w) !! slot k j = Some x ∧ lg w !! Z.to_nat j = Some x.
Proof.
  intros Hw Hj Hf Hlt. destruct (lookup_lt_is_Some_2 (lg w) (Z.to_nat j)) as [x Hx].
  { rewrite (w_log w Hw) in Hlt. lia. }
  exists x. unfold filled in Hf. by rewrite Hf.
Qed.

(** ** How one thread's step looks to the others *)

(** The world only moves forward. *)
Record wle w w' : Prop := {
  le_ph : prod_head (rg w) ≤ prod_head (rg w');
  le_ct : cons_tail (rg w) ≤ cons_tail (rg w');
  le_ch : cons_head (rg w) ≤ cons_head (rg w');
  le_pt : prod_tail (rg w) ≤ prod_tail (rg w');
  le_lg : lg w `prefix_of` lg w'
}.

Lemma lg_lookup_mono w w' j x : wle w w' → lg w !! j = Some x → lg w' !! j = Some x.
Proof. intros Hle Hx. eapply prefix_lookup_Some; [done|apply Hle]. Qed.

(** A resident thread keeps its invariant when the world moves forward,
    provided its own published limits and its filled slots are left alone. *)
Lemma tinv_mono w w' t :
  winv w → wle w w' → tinv w t →
  (∀ h n, prange t = Some (h, n) → prod_tail (rg w') ≤ h) →
  (∀ h n, crange t = Some (h, n) → cons_tail (rg w') ≤ h) →
  (∀ h n j, prange t = Some (h, n) → 0 ≤ j < n → filled w (h + j) → filled w' (h + j)) →
  tinv w' t.
Proof.
  intros Hw Hle Ht Hp Hc Hf.
  pose proof (le_ph w w' Hle). pose proof (le_ct w w' Hle).
  pose proof (le_ch w w' Hle). pose proof (le_pt w w' Hle).
  destruct Hle as [_ _ _ _ [l' El]].
  pose proof (w_log w Hw) as Hlog. pose proof (w_order w Hw) as Ho.
  destruct t as [|objs n|objs n h|objs n h|objs n h i|n h|n h|n|n|n h|n h|n h acc|n h acc|n h acc|h acc];
    simpl in *; try done; try lia.
  - destruct Ht as (Hn & Hi & Hpt & Hph & Hobj & Hfill). split_and!; try lia.
    + by apply (Hp h n).
    + intros j Hj. rewrite <- Hobj, El by done. apply lookup_app_l. lia.
    + intros j Hj. apply (Hf h n); [done|lia|]. by apply Hfill.
  - destruct Ht as (Hn & Hpt & Hph & Hfill). split_and!; try lia.
    + by apply (Hp h n).
    + intros j Hj. by apply (Hf h n); [..|apply Hfill].
  - destruct Ht as (Hn & Hpt & Hph & Hfill). split_and!; try lia.
    + pose proof (Hp h n eq_refl). lia.
    + intros j Hj. by apply (Hf h n); [..|apply Hfill].
  - destruct Ht as (Hn & Hct & Hch & Hl & Hacc). split_and!; try lia.
    + by apply (Hc h n).
    + rewrite El, slice_app_l by lia. done.
  - destruct Ht as (Hn & Hct & Hch & Hl & Hacc). split_and!; try lia.
    + by apply (Hc h n).
    + rewrite El, slice_app_l by lia. done.
  - destruct Ht as (Hn & Hct & Hch & Hl & Hacc). split_and!; try lia.
    + pose proof (Hc h n eq_refl). lia.
    + rewrite El, slice_app_l by lia. done.
  - destruct Ht as (Hn & Hct & Hacc). split_and!; try lia.
    rewrite El, slice_app_l by lia. done.
Qed.

(** ** Preservation *)

Lemma filled_set_slot w h x j :
  winv w → cons_tail (rg w) ≤ h < prod_head (rg w) →
  cons_tail (rg w) ≤ j < prod_head (rg w) → h ≠ j →
  filled w j → filled (mkWorld (set_slot (rg w) h x) (lg w) (grants w)) j.
Proof.
  intros Hw Hh Hj Hne Hf. unfold filled in *. simpl.
  rewrite (w_mask w Hw), mask_slot, slot_wrap by lia.
  rewrite list_lookup_insert_ne; [done|]. intros E.
  pose proof (w_lap w Hw). apply slot_inj in E; lia.
Qed.

Lemma filled_set_slot_eq w h x :
  winv w → lg w !! Z.to_nat h = Some x →
  filled (mkWorld (set_slot (rg w) h x) (lg w) (grants w)) h.
Proof.
  intros Hw Hx. unfold filled. simpl. rewrite (w_mask w Hw), mask_slot, slot_wrap by lia.
  rewrite Hx. apply list_lookup_insert_eq. rewrite (w_len w Hw). apply slot_lt. lia.
Qed.

Lemma filled_app w l gr j :
  winv w → 0 ≤ j < prod_head (rg w) → filled w j →
  ∀ r, ring r = ring (rg w) → filled (mkWorld r (lg w ++ l) gr) j.
Proof.
  intros Hw Hj Hf r Hr. unfold filled in *. simpl. rewrite Hr, Hf.
  symmetry. apply lookup_app_l. pose proof (w_log w Hw). lia.
Qed.

Ltac world_facts w Hw :=
  pose proof (w_order w Hw); pose proof (w_log w Hw); pose proof (w_lap w Hw);
  pose proof (w_bound w Hw).

Lemma wle_refl w : wle w w.
Proof. split; done || lia. Qed.

(** The steps of a producer that change the world. *)
Lemma p_cas_local w objs n h :
  winv w → tinv w (PCas objs n h) → prod_head (rg w) = h →
  let w' := mkWorld (set_prod_head (rg w) (h +64 n)) (lg w ++ take (Z.to_nat n) objs) (grants w) in
  Z.of_nat (length (lg w')) < W64 → winv w' ∧ wle w w' ∧ tinv w' (PWrite objs n h 0).
Proof.
  intros Hw Ht Hh w' Hb. world_facts w Hw. assert (0 < 2 ^ k) by lia. unfold w' in *. simpl in *.
  rewrite length_app, length_take in Hb.
  rewrite (wrap64_small (h + n)) by lia.
  split; [|split].
  - split; simpl; try apply Hw; try lia.
    + rewrite length_app, length_take. lia.
    + rewrite length_app, length_take. lia.
    + intros j Hj. apply filled_app; [done|lia| |done]. by apply Hw.
  - split; simpl; try lia. by exists (take (Z.to_nat n) objs).
  - simpl. split_and!; try lia. intros j Hj.
    rewrite lookup_app_r by lia. rewrite lookup_take_lt by lia. f_equal. lia.
Qed.

Lemma p_write_local w objs n h i x :
  winv w → tinv w (PWrite objs n h i) → i < n → objs !! Z.to_nat i = Some x →
  let w' := mkWorld (set_slot (rg w) (h + i) x) (lg w) (grants w) in
  winv w' ∧ wle w w' ∧ tinv w' (PWrite objs n h (i + 1)).
Proof.
  intros Hw Ht Hi Hx w'. world_facts w Hw. assert (0 < 2 ^ k) by lia. unfold w'. simpl in *.
  destruct Ht as (Hn & Hi' & Hpt & Hph & Hobj & Hfill).
  assert (lg w !! Z.to_nat (h + i) = Some x) as Hlg by (rewrite Hobj by lia; done).
  split; [|split].
  - split; simpl; try apply Hw; try lia.
    + rewrite length_insert. apply Hw.
    + intros j Hj. apply filled_set_slot; [done|lia|lia|lia|]. by apply Hw.
  - split; done || simpl; lia.
  - simpl. split_and!; try lia; [done|]. intros j Hj.
    destruct (decide (j = i)) as [->|].
    + by apply filled_set_slot_eq.
    + apply filled_set_slot; [done|lia|lia|lia|]. apply Hfill. lia.
Qed.

Lemma p_store_local w n h :
  winv w → tinv w (PStore n h) →
  let w' := mkWorld (set_prod_tail (rg w) (h +64 n)) (lg w) (grants w) in
  winv w' ∧ wle w w' ∧ tinv w' (PDone n).
Proof.
  intros Hw Ht w'. world_facts w Hw. assert (0 < 2 ^ k) by lia. unfold w'. simpl in *.
  destruct Ht as (Hn & Hpt & Hph & Hfill). rewrite (wrap64_small (h + n)) by lia.
  split; [|split]; [|split; done || (simpl; lia)|done].
  split; simpl; try apply Hw; try lia.
  intros j Hj. destruct (Z.lt_ge_cases j h).
  - apply (w_filled w Hw). lia.
  - specialize (Hfill (j - h)). replace (h + (j - h)) with j in Hfill by lia.
    apply Hfill. lia.
Qed.

Lemma p_load_tail_local w objs n h :
  winv w → tinv w (PHead objs n h) →
  tinv w (let n' := Z.min n (wrap64 (capacity (rg w) + cons_tail (rg w) - h)) in if n' =? 0 then PDone 0 else PCas objs n' h).
Proof.
  intros Hw Ht. world_facts w Hw. simpl in *. rewrite (w_cap w Hw).
  pose proof (Z.mod_le (2 ^ k + cons_tail (rg w) - h) W64 ltac:(lia) ltac:(done)).
  pose proof (wrap64_range (2 ^ k + cons_tail (rg w) - h)). unfold wrap64 in *.
  destruct (Z.eqb_spec (n `min` ((2 ^ k + cons_tail (rg w) - h) mod W64)) 0); [done|]. simpl. lia.
Qed.

Lemma c_read_local w n h acc x :
  winv w → tinv w (CRead n h acc) → Z.of_nat (length acc) < n →
  ring (rg w) !! Z.to_nat (Z.land (h +64 Z.of_nat (length acc)) (mask (rg w))) = Some x →
  tinv w (CRead n h (acc ++ [x])).
Proof.
  intros Hw (Hn & Hct & Hch & Hla & Hacc) Hl Hx. world_facts w Hw. assert (0 < 2 ^ k) by lia. simpl in *.
  rewrite length_app. simpl. split_and!; try done; try lia.
  rewrite (w_mask w Hw), mask_slot, slot_wrap in Hx by lia.
  assert (filled w (h + Z.of_nat (length acc))) as Hf by (apply Hw; lia).
  unfold filled in Hf. rewrite Hf in Hx.
  rewrite Hacc at 1. rewrite (slice_snoc _ _ _ x) by (done || lia). f_equal. lia.
Qed.

Lemma c_store_local w n h acc :
  winv w → tinv w (CStore n h acc) →
  let w' := mkWorld (set_cons_tail (rg w) (h +64 n)) (lg w) (grants w) in
  winv w' ∧ wle w w' ∧ tinv w' (CDone h acc).
Proof.
  intros Hw (Hn & Hct & Hch & Hla & Hacc) w'. world_facts w Hw. unfold w'. simpl in *. rewrite (wrap64_small (h + n)) by lia.
  split; [|split]; [|split; done || (simpl; lia)|simpl; split_and!; (lia || done)].
  split; simpl; try apply Hw; try lia. intros j Hj. apply (w_filled w Hw). lia.
Qed.

(** The stepping thread keeps the world well formed and its own invariant. *)
Lemma tstep_local w t w' t' :
  winv w → tinv w t → tstep w t w' t' → Z.of_nat (length (lg w')) < W64 →
  winv w' ∧ wle w w' ∧ tinv w' t'.
Proof.
  intros Hw Ht Hs Hb. world_facts w Hw. pose proof (wle_refl w) as Hrefl.
  assert (0 < 2 ^ k) by lia.
  destruct Hs as [w t objs Hr|w t n Hr Hn|w objs n|w objs n h n' ->|w objs n h Hh|w objs n h
    |w objs n h i x Hi Hx|w objs n h|w n h|w n h Hh|w n h|w n|w n h n' ->|w n h Hh|w n h
    |w n h acc x Hl Hx|w n h acc Hl|w n h acc|w n h acc Hh|w n h acc]; simpl in *;
    try (split_and!; try done; lia).
  - (* p_load_tail *)
    split; [done|]. split; [done|]. by apply (p_load_tail_local w objs n h).
  - (* p_cas_ok *)
    by apply p_cas_local.
  - (* p_write *)
    by apply p_write_local.
  - (* p_written *)
    destruct Ht as (Hn & Hi' & Hpt & Hph & Hobj & Hfill). split_and!; done || lia.
  - (* p_wait_more *) done.
  - (* p_wait_done *)
    destruct Ht as (Hn & Hpt & Hph & Hfill). split_and!; done || lia.
  - (* p_store *)
    by apply p_store_local.
  - (* c_load_tail *)
    split_and!; try done.
    rewrite wrap64_small by lia.
    destruct (Z.eqb_spec (n `min` (prod_tail (rg w) - h)) 0); simpl; [|lia].
    split_and!; try lia. done.
  - (* c_cas_ok *)
    rewrite (wrap64_small (h + n)) by lia.
    split; [|split]; [|split; done || (simpl; lia)|simpl; split_and!; (lia || done)].
    split; simpl; try apply Hw; lia.
  - (* c_read *)
    split; [done|]. split; [done|]. by apply c_read_local.
  - (* c_read_all *)
    destruct Ht as (Hn & Hct & Hch & Hla & Hacc). split_and!; done || lia.
  - (* c_wait_more *) done.
  - (* c_wait_done *)
    destruct Ht as (Hn & Hct & Hch & Hla & Hacc). split_and!; done || lia.
  - (* c_store *)
    by apply c_store_local.
Qed.

(** A step of [t] does not disturb a thread [u] whose ranges are apart. *)
Lemma tstep_other w t w' t' u :
  winv w → tinv w t → tinv w u → tstep w t w' t' → wle w w' →
  Z.of_nat (length (lg w')) < W64 →
  apart (prange t) (prange u) → apart (crange t) (crange u) → tinv w' u.
Proof.
  intros Hw Ht Hu Hs Hle Hb Hp Hc. world_facts w Hw.
  apply (tinv_mono w); try done.
  - intros h' n' Hr. assert (prod_tail (rg w) ≤ h' ∧ 0 < n') as [Hh' Hn'].
    { destruct u; simplify_eq/=; naive_solver lia. }
    destruct Hs; simplify_eq/=; try lia.
    rewrite Hr in Hp. simpl in Hp. rewrite wrap64_small; lia.
  - intros h' n' Hr. assert (cons_tail (rg w) ≤ h' ∧ 0 < n') as [Hh' Hn'].
    { destruct u; simplify_eq/=; naive_solver lia. }
    destruct Hs; simplify_eq/=; try lia.
    rewrite Hr in Hc. simpl in Hc. rewrite wrap64_small; lia.
  - intros h' n' j Hr Hj Hf.
    assert (prod_tail (rg w) ≤ h' ∧ h' + n' ≤ prod_head (rg w)) as [Hh' Hn'].
    { destruct u; simplify_eq/=; naive_solver lia. }
    destruct Hs; simplify_eq/=; try done.
    + apply filled_app; [done|lia|done|done].
    + destruct Ht as (?&?&?&?&_). rewrite Hr in Hp. simpl in Hp.
      apply filled_set_slot; [done|lia|lia|lia|done].
Qed.

Lemma tstep_apart w t w' t' u :
  winv w → tinv w u → tstep w t w' t' →
  apart (prange t) (prange u) → apart (crange t) (crange u) →
  apart (prange t') (prange u) ∧ apart (crange t') (crange u).
Proof.
  intros Hw Hu Hs Hp Hc.
  assert (∀ h n, prange u = Some (h, n) → h + n ≤ prod_head (rg w)) as Hpu.
  { intros h n Hr. destruct u; simplify_eq/=; naive_solver. }
  assert (∀ h n, crange u = Some (h, n) → h + n ≤ cons_head (rg w)) as Hcu.
  { intros h n Hr. destruct u; simplify_eq/=; naive_solver. }
  destruct Hs; simpl in *; try done; try (by case_match); split; try done.
  - destruct (prange u) as [[h' n']|]; [|done]. right. subst. by apply Hpu.
  - destruct (crange u) as [[h' n']|]; [|done]. right. subst. by apply Hcu.
Qed.

Lemma apart_sym a b : apart a b → apart b a.
Proof. destruct a as [[]|], b as [[]|]; simpl; lia. Qed.

Lemma tstep_tiles w t w' t' :
  winv w → tinv w t → tstep w t w' t' → tiles 0 (grants w) (cons_head (rg w)) →
  tiles 0 (grants w') (cons_head (rg w')).
Proof.
  intros Hw Ht Hs Hti. destruct Hs; simpl in *; try done. subst.
  world_facts w Hw. rewrite wrap64_small by lia. apply tiles_snoc; [done|lia].
Qed.

Lemma cstep_inv s s' : cinv s → cstep s s' → cinv s'.
Proof.
  intros [Hw Ht Ha Hti] Hs. destruct Hs as [s i t w' t' Hi Hs Hb].
  destruct (tstep_local _ _ _ _ Hw (Ht _ _ Hi) Hs Hb) as (Hw' & Hle & Ht').
  assert (∀ j u, i ≠ j → thr s !! j = Some u →
    tinv w' u ∧ apart (prange t') (prange u) ∧ apart (crange t') (crange u)) as Hother.
  { intros j u Hij Hj. destruct (Ha i j t u Hij Hi Hj) as [Hp Hc].
    split.
    - by apply (tstep_other (wd s) t w' t'); [|apply (Ht i)|apply (Ht j)|..].
    - by apply (tstep_apart (wd s) t w' t'); [|apply (Ht j)|..]. }
  split; simpl; [done|..].
  - intros j u Hj. destruct (decide (i = j)) as [->|Hij].
    + rewrite lookup_insert_eq in Hj. by simplify_eq.
    + rewrite lookup_insert_ne in Hj by done. by apply (Hother j u).
  - intros a b u v Hab Hu Hv.
    destruct (decide (i = a)) as [<-|]; destruct (decide (i = b)) as [<-|]; try done.
    + rewrite lookup_insert_eq in Hu. rewrite lookup_insert_ne in Hv by done. simplify_eq.
      by apply (Hother b v).
    + rewrite lookup_insert_eq in Hv. rewrite lookup_insert_ne in Hu by done. simplify_eq.
      destruct (Hother a u) as (_ & ? & ?); [done|done|]. split; by apply apart_sym.
    + rewrite lookup_insert_ne in Hu, Hv by done. by apply (Ha a b).
  - by apply (tstep_tiles (wd s) t w' t'); [|apply (Ht i)|..].
Qed.

Lemma cinit_inv m s0 : cinit (2 ^ k) m = Some s0 → cinv s0.
Proof.
  intros E. unfold cinit in E.
  assert (2 ^ k ≤ 2 ^ 63) as Hle by (apply Z.pow_le_mono_r; lia).
  destruct (round_up_spec 64 0 (2 ^ k)) as (k' & Hk' & Hr & Hle' & Hmin); [lia..|].
  assert (k' = k) as ->.
  { destruct (Z.lt_trichotomy k' k) as [Hlt|[?|Hgt]]; [|done|].
    - apply (Z.pow_lt_mono_r 2) in Hlt; lia.
    - destruct Hmin as [->|Hmin]; [lia|].
      assert (2 ^ k ≤ 2 ^ (k' - 1)) by (apply Z.pow_le_mono_r; lia). lia. }
  unfold make in E. change 1 with (2 ^ 0) in E. rewrite Hr in E. cbn [mbind option_bind] in E.
  injection E as <-. cbn [wd thr rg lg grants].
  assert (∀ i t, (list_to_map ((λ i, (i, Idle)) <$> seq 0 m) : gmap nat (tstate T)) !! i = Some t
    → t = Idle) as Hidle.
  { intros i t H. apply elem_of_list_to_map_2 in H.
    apply list_elem_of_fmap in H as (? & ? & _). by simplify_eq. }
  split; simpl.
  - split; simpl; try done; try lia. by rewrite length_replicate.
  - intros i t H. by rewrite (Hidle _ _ H).
  - intros i j t u _ Hi Hj. by rewrite (Hidle _ _ Hi), (Hidle _ _ Hj).
  - done.
Qed.

Lemma reachable_inv m s : reachable (2 ^ k) m s → cinv s.
Proof.
  intros (s0 & E & Hs). eapply steps_invariant; [|apply cstep_inv|done].
  by eapply cinit_inv.
Qed.

(** ** Deliveries

    [O] lists what the finished dequeues returned, each with the position its
    grant begins at. *)
Definition range_of (o : Z * list T) : Z * Z := (o.1, Z.of_nat (length o.2)).

(** What a step returns to the caller: a call that ends, with elements. *)
Definition returned t t' : list (Z * list T) :=
  match t' with
  | CDone h acc => if resting t then [] else match acc with [] => [] | _ => [(h, acc)] end
  | _ => []
  end.

(** Every granted range was returned, whole and once, with the values reserved
    at its positions, or is held by one running call. *)
Record delivery (l : list T) (G : list (Z * Z)) (th : gmap nat (tstate T)) (O : list (Z * list T)) : Prop := {
  d_nodup : NoDup (range_of <$> O);
  d_granted : ∀ o, o ∈ O → range_of o ∈ G ∧ o.2 = slice l o.1 (length o.2)
    ∧ 0 ≤ o.1 ∧ o.1 + Z.of_nat (length o.2) ≤ Z.of_nat (length l);
  d_running : ∀ i t r, th !! i = Some t → crange t = Some r → r ∈ G ∧ r ∉ range_of <$> O;
  d_all : ∀ r, r ∈ G → r ∈ range_of <$> O ∨ ∃ i t, th !! i = Some t ∧ crange t = Some r
}.

(** How one step changes grants, the range held and what was returned. *)
Definition delivers w t w' t' : Prop :=
  (grants w' = grants w ∧ crange t' = crange t ∧ returned t t' = [])
  ∨ (∃ n, grants w' = grants w ++ [(cons_head (rg w), n)] ∧ 0 < n ∧ crange t = None
       ∧ crange t' = Some (cons_head (rg w), n) ∧ returned t t' = [])
  ∨ (∃ h acc, grants w' = grants w ∧ crange t = Some (range_of (h, acc)) ∧ crange t' = None
       ∧ returned t t' = [(h, acc)] ∧ acc = slice (lg w) h (length acc)
       ∧ 0 ≤ h ∧ h + Z.of_nat (length acc) ≤ Z.of_nat (length (lg w))).

Lemma tstep_delivers w t w' t' : winv w → tinv w t → tstep w t w' t' → delivers w t w' t'.
Proof.
  intros Hw Ht Hs. unfold delivers. destruct Hs as
    [w t objs Hr|w t n Hr Hn|w objs n|w objs n h n' En|w objs n h Hh|w objs n h|w objs n h i x Hi Hx|w objs n h
    |w n h Hh|w n h Hh|w n h|w n|w n h n' En|w n h Hh|w n h|w n h acc x Hl Hx|w n h acc Hl|w n h acc Hh|w n h acc Hh|w n h acc];
    try (by left); try (left; split_and!; [done|by destruct t|done]); simpl in *.
  - left. destruct (n' =? 0); done.
  - left. destruct (n' =? 0); done.
  - right. left. exists n. subst h. split_and!; try done; lia.
  - right. right. destruct Ht as (Hn & Ect & Hch & Hlen & Hacc). world_facts w Hw.
    assert (0 < length acc)%nat by lia. exists h, acc. unfold range_of. simpl. rewrite Hlen.
    split_and!; try done; try lia. destruct acc; [simpl in *; lia|done].
Qed.

Lemma delivery_step w w' th O i t t' :
  th !! i = Some t → lg w `prefix_of` lg w' → tiles 0 (grants w) (cons_head (rg w)) →
  (∀ j u, j ≠ i → th !! j = Some u → apart (crange t) (crange u)) →
  (∀ j u h n, th !! j = Some u → crange u = Some (h, n) → 0 < n) →
  delivers w t w' t' → delivery (lg w) (grants w) th O →
  delivery (lg w') (grants w') (<[i := t']> th) (O ++ returned t t').
Proof.
  intros Hi [l' El] Hti Hap Hpos Hcase [Hnd Hg Hr Ha].
  assert (∀ o, o ∈ O → o.2 = slice (lg w') o.1 (length o.2) ∧ 0 ≤ o.1 ∧ o.1 + Z.of_nat (length o.2) ≤ Z.of_nat (length (lg w'))) as Hval.
  { intros o Ho. destruct (Hg o Ho) as (_ & E & ? & ?). rewrite El, slice_app_l, length_app by done. split_and!; [done|done|lia]. }
  destruct Hcase as [(Eg & Ec & Er)|[(n & Eg & Hn & Ec & Ec' & Er)|(h & acc & Eg & Ec & Ec' & Er & Eacc & Hh & Hlen)]];
    rewrite Eg, Er, ?app_nil_r.
  - split; [done| | |].
    + intros o Ho. split; [by apply Hg|by apply Hval].
    + intros j u r Hj Hu. apply lookup_insert_Some in Hj as [[<- <-]|[Hne Hj]]; [|by eapply Hr].
      rewrite Ec in Hu. by eapply Hr.
    + intros r Hin. destruct (Ha r Hin) as [?|(j & u & Hj & Hu)]; [by left|]. right.
      destruct (decide (i = j)) as [<-|Hne]; [|exists j, u; by rewrite lookup_insert_ne].
      exists i, t'. rewrite lookup_insert_eq, Ec. split; [done|]. congruence.
  - assert ((cons_head (rg w), n) ∉ grants w) as Hfresh.
    { intros Hin. apply (tiles_ge _ _ _ _ _ Hti) in Hin. lia. }
    split; [done| | |].
    + intros o Ho. split; [apply elem_of_app; left; by apply Hg|by apply Hval].
    + intros j u r Hj Hu. apply lookup_insert_Some in Hj as [[<- <-]|[Hne Hj]].
      * rewrite Ec' in Hu. injection Hu as <-. split; [apply elem_of_app; right; by left|].
        intros Hin. apply Hfresh. apply list_elem_of_fmap in Hin as (o & -> & Ho). by apply Hg.
      * split; [apply elem_of_app; left|]; by eapply Hr.
    + intros r [Hin|Hin]%elem_of_app.
      * destruct (Ha r Hin) as [?|(j & u & Hj & Hu)]; [by left|]. right. exists j, u.
        rewrite lookup_insert_ne; [done|]. intros <-. congruence.
      * apply list_elem_of_singleton in Hin as ->. right. exists i, t'. by rewrite lookup_insert_eq.
  - destruct (Hr i t _ Hi Ec) as [Hin Hnin]. split.
    + rewrite fmap_app. apply NoDup_app. split; [done|]. split; [|apply NoDup_singleton].
      intros x Hx Hx'. apply list_elem_of_singleton in Hx' as ->. done.
    + intros o [Ho|Ho]%elem_of_app; [split; [by apply Hg|by apply Hval]|]. apply list_elem_of_singleton in Ho as ->.
      simpl. rewrite El, slice_app_l, length_app by done. split_and!; [done|done|done|lia].
    + intros j u [h2 n2] Hj Hu. apply lookup_insert_Some in Hj as [[<- <-]|[Hne Hj]]; [congruence|].
      destruct (Hr j u _ Hj Hu) as [? Hni]. split; [done|]. rewrite fmap_app. intros [?|Hx]%elem_of_app; [done|].
      apply list_elem_of_singleton in Hx. unfold range_of in *. simpl in *. injection Hx as -> ->.
      specialize (Hap j u ltac:(done) Hj). rewrite Ec, Hu in Hap. simpl in Hap. pose proof (Hpos j u _ _ Hj Hu). lia.
    + intros r Hr'. destruct (Ha r Hr') as [Hx|(j & u & Hj & Hu)].
      * left. rewrite fmap_app. apply elem_of_app. by left.
      * destruct (decide (i = j)) as [<-|Hne].
        -- left. rewrite fmap_app. apply elem_of_app. right. assert (r = range_of (h, acc)) as -> by congruence. by left.
        -- right. exists j, u. by rewrite lookup_insert_ne.
Qed.

(** The same from the invariant of the ring. *)
Lemma delivery_cstep s i t w' t' O :
  cinv s → thr s !! i = Some t → lg (wd s) `prefix_of` lg w' → delivers (wd s) t w' t' →
  delivery (lg (wd s)) (grants (wd s)) (thr s) O →
  delivery (lg w') (grants w') (<[i := t']> (thr s)) (O ++ returned t t').
Proof.
  intros Hc Hi Hl Hd HO. eapply delivery_step; try done.
  - apply Hc.
  - intros j u Hne Hj. by apply (c_apart s Hc i j t u).
  - intros j u h n Hj Hu. pose proof (c_thread s Hc j u Hj) as Ht. destruct u; simplify_eq/=; lia.
Qed.

End Invariant.

(** ** Properties *)

(** Whatever the interleaving, a consumer that has returned got exactly the
    values the producers reserved at the history positions it was granted, in
    that order; and the granted ranges tile the history from 0, so every
    position is handed to exactly one dequeue. *)
Theorem mpmc_consumers_fifo_exactly_once (T : Type) (IT : Inhabited T) (k : Z) (m : nat)
    (s : cstate T) :
  0 ≤ k ≤ 63 → reachable (2 ^ k) m s →
  (∀ i h acc, thr s !! i = Some (CDone h acc) → acc = slice (lg (wd s)) h (length acc))
  ∧ tiles 0 (grants (wd s)) (cons_head (rg (wd s)))
  ∧ (∀ i j h n h' n', i ≠ j → grants (wd s) !! i = Some (h, n) →
       grants (wd s) !! j = Some (h', n') → h + n ≤ h' ∨ h' + n' ≤ h).
Proof.
  intros Hk Hr. apply (reachable_inv k Hk) in Hr as [Hw Ht _ Hti]. split_and!.
  - intros i h acc Hi. apply Ht in Hi. by destruct Hi as (_ & _ & ?).
  - done.
  - intros. by eapply (tiles_apart 0 (grants (wd s))).
Qed.

(** Reserved ranges of concurrent producers never overlap, and neither do
    those of concurrent consumers; a slot being written never backs an element
    that is published and not yet released. *)
Theorem mpmc_slots_exclusive (T : Type) (IT : Inhabited T) (k : Z) (m : nat) (s : cstate T) :
  0 ≤ k ≤ 63 → reachable (2 ^ k) m s →
  (∀ i j t u, i ≠ j → thr s !! i = Some t → thr s !! j = Some u →
     apart (prange t) (prange u) ∧ apart (crange t) (crange u))
  ∧ (∀ i t h n a j, thr s !! i = Some t → prange t = Some (h, n) → 0 ≤ a < n →
       cons_tail (rg (wd s)) ≤ j < prod_tail (rg (wd s)) → slot k (h + a) ≠ slot k j)
  ∧ prod_head (rg (wd s)) - cons_tail (rg (wd s)) ≤ capacity (rg (wd s)).
Proof.
  intros Hk Hr. apply (reachable_inv k Hk) in Hr as [Hw Ht Ha _]. split_and!.
  - done.
  - intros i t h n a j Hi Hp Haa Hj E. apply Ht in Hi.
    pose proof (w_order k _ Hw). pose proof (w_lap k _ Hw).
    assert (prod_tail (rg (wd s)) ≤ h ∧ h + n ≤ prod_head (rg (wd s))) as [? ?].
    { destruct t; simplify_eq/=; naive_solver lia. }
    apply slot_inj in E; lia.
  - rewrite (w_cap k (wd s) Hw). apply Hw.
Qed.

(** ** Running one thread alone

    [solo] is the thread program with no other thread in between; the
    sequential operations of [Rings] are its runs. *)

Section Solo.
Context {T : Type} `{!Inhabited T}.

Definition solo (a b : world T * tstate T) : Prop := tstep a.1 a.2 b.1 b.2.

Lemma solo_cons w t w' t' z :
  tstep w t w' t' → steps solo (w', t') z → steps solo (w, t) z.
Proof. intros H. apply steps_trans. by apply steps_once. Qed.

Lemma solo_writes (w : world T) objs n h i j :
  0 ≤ i → j = Z.to_nat (n - i) → i ≤ n ≤ Z.of_nat (length objs) →
  steps solo (w, PWrite objs n h i)
    (mkWorld (mkRing (prod_head (rg w)) (prod_tail (rg w)) (cons_head (rg w)) (cons_tail (rg w))
       (capacity (rg w)) (mask (rg w))
       (write_slots (mask (rg w)) (ring (rg w)) (wrap64 (h + i)) (take j (drop (Z.to_nat i) objs))))
       (lg w) (grants w), PWrite objs n h n).
Proof.
  revert w i. induction j as [|j IH]; intros w i Hi Hj Hn.
  - replace i with n by lia. rewrite take_0. simpl. destruct w as [[] ? ?]. constructor.
  - destruct (lookup_lt_is_Some_2 objs (Z.to_nat i)) as [x Hx]; [lia|].
    eapply solo_cons; [apply (p_write w objs n h i x); [lia|done]|].
    assert (drop (Z.to_nat i) objs = x :: drop (Z.to_nat (i + 1)) objs) as ->.
    { rewrite (drop_S _ x (Z.to_nat i)) by done. do 2 f_equal. lia. }
    specialize (IH (mkWorld (set_slot (rg w) (h + i) x) (lg w) (grants w)) (i + 1)).
    simpl in *. rewrite wrap64_add_l. replace (h + i + 1) with (h + (i + 1)) by lia.
    apply IH; lia.
Qed.

Lemma solo_reads (w : world T) n h acc j :
  j = Z.to_nat (n - Z.of_nat (length acc)) → Z.of_nat (length acc) ≤ n →
  (∀ i, ∃ x, ring (rg w) !! Z.to_nat (Z.land (wrap64 i) (mask (rg w))) = Some x) →
  steps solo (w, CRead n h acc)
    (w, CRead n h (acc ++ read_slots (mask (rg w)) (ring (rg w))
                            (wrap64 (h + Z.of_nat (length acc))) j)).
Proof.
  revert acc. induction j as [|j IH]; intros acc Hj Hn Hin.
  - simpl. rewrite app_nil_r. constructor.
  - destruct (Hin (h + Z.of_nat (length acc))) as [x Hx].
    eapply solo_cons; [apply (c_read w n h acc x); [lia|done]|].
    simpl. rewrite wrap64_add_l. erewrite list_lookup_total_correct by done.
    rewrite (assoc_L (++) acc [x] (read_slots _ _ _ _) : acc ++ x :: _ = _).
    replace (h + Z.of_nat (length acc) + 1) with (h + Z.of_nat (length (acc ++ [x])))
      by (rewrite length_app; simpl; lia).
    apply IH; [rewrite length_app; simpl; lia..|done].
Qed.

Lemma solo_enqueue (w : world T) (objs : list T) :
  wf (rg w) → ∃ r' n lg', enqueue_bulk (rg w) objs = Some (r', n) ∧
    steps solo (w, Idle) (mkWorld r' lg' (grants w), PDone n).
Proof.
  intros Hw.
  unfold enqueue_bulk.
  set (n := Z.min _ _). pose proof (wf_prod (rg w) Hw) as Hpt.
  assert (steps solo (w, Idle)
    (w, if n =? 0 then PDone 0 else PCas objs n (prod_head (rg w)))) as Hpre.
  { eapply solo_cons; [by apply call_enqueue|].
    eapply solo_cons; [apply p_load_head|].
    eapply solo_cons; [by apply p_load_tail|]. constructor. }
  destruct (Z.eqb_spec n 0) as [E|E].
  - exists (rg w), 0, (lg w). split; [done|]. by destruct w.
  - rewrite Hpt, Z.eqb_refl. eexists _, n, (lg w ++ take (Z.to_nat n) objs). split; [done|].
    assert (0 ≤ n ≤ Z.of_nat (length objs)) as Hn.
    { pose proof (wrap64_range (capacity (rg w) + cons_tail (rg w) - prod_head (rg w))).
      unfold n. lia. }
    eapply steps_trans; [exact Hpre|].
    eapply solo_cons; [by apply p_cas_ok|].
    eapply steps_trans; [eapply (solo_writes _ objs n _ 0 (Z.to_nat n)); lia|].
    eapply solo_cons; [apply p_written|].
    eapply solo_cons; [by apply p_wait_done|].
    rewrite Z.add_0_r, drop_0, (wrap64_small (prod_head (rg w))) by apply Hw.
    simpl. apply steps_once. exact (p_store (mkWorld (mkRing _ _ _ _ _ _ _) _ _) n _).
Qed.

Lemma solo_dequeue (w : world T) (max : Z) :
  wf (rg w) → 0 ≤ max → ∃ h gr', steps solo (w, Idle)
    (mkWorld (dequeue_bulk (rg w) max).1 (lg w) gr', CDone h (dequeue_bulk (rg w) max).2).
Proof.
  intros Hw Hmax.
  unfold dequeue_bulk. set (n := Z.min _ _).
  assert (steps solo (w, Idle)
    (w, if n =? 0 then CDone 0 [] else CCas n (cons_head (rg w)))) as Hpre.
  { eapply solo_cons; [by apply (call_dequeue w Idle max)|].
    eapply solo_cons; [apply c_load_head|].
    eapply solo_cons; [by apply c_load_tail|]. constructor. }
  destruct (Z.eqb_spec n 0) as [E|E].
  - exists 0, (grants w). by destruct w.
  - exists (cons_head (rg w)), (grants w ++ [(cons_head (rg w), n)]).
    pose proof (wrap64_range (prod_tail (rg w) - cons_head (rg w))).
    eapply steps_trans; [exact Hpre|].
    eapply solo_cons; [by apply c_cas_ok|].
    eapply steps_trans; [eapply (solo_reads _ n _ [] (Z.to_nat n)); simpl; try (unfold n; lia)|].
    { intros i. apply lookup_lt_is_Some_2. rewrite (wf_mask _ Hw), (wf_len _ Hw).
      destruct (wf_cap _ Hw) as (k & Hk & ->). rewrite mask_slot, slot_wrap by lia.
      apply slot_lt. lia. }
    simpl. rewrite Z.add_0_r, (wrap64_small (cons_head (rg w))) by apply Hw.
    eapply solo_cons; [apply c_read_all|].
    { destruct (wf_cap _ Hw) as (k & Hk & Hc). rewrite (wf_mask _ Hw), Hc, length_read_slots.
      unfold n. lia. }
    eapply solo_cons; [apply c_wait_done; simpl; apply Hw|].
    simpl. apply steps_once. exact (c_store (mkWorld (mkRing _ _ _ _ _ _ _) _ _) n _ _).
Qed.

(** Run by a single thread, the interleaving model of [enqueue_bulk] and
    [dequeue_bulk_mc] computes exactly the sequential operations: from a
    well-formed ring the call completes with their result. *)
Theorem mpmc_solo_refines (w : world T) (objs : list T) (max : Z) :
  wf (rg w) → 0 ≤ max →
  (∃ r' n lg', enqueue_bulk (rg w) objs = Some (r', n) ∧
     steps solo (w, Idle) (mkWorld r' lg' (grants w), PDone n))
  ∧ (∃ h gr', steps solo (w, Idle)
       (mkWorld (dequeue_bulk (rg w) max).1 (lg w) gr', CDone h (dequeue_bulk (rg w) max).2)).
Proof. intros Hw Hmax. split; [by apply solo_enqueue|by apply solo_dequeue]. Qed.

End Solo.

(** ** A concrete interleaving

    Thread 0 enqueues [7; 8] into a ring of two slots while thread 1, which
    started first and found it empty once, dequeues them. *)

Lemma cstep_cons {T} (s s' z : cstate T) : cstep s s' → steps cstep s' z → steps cstep s z.
Proof. intros H. apply steps_trans. by apply steps_once. Qed.

Tactic Notation "run" constr(i) open_constr(rule) :=
  eapply cstep_cons;
  [ eapply (cstep_thread _ i); [reflexivity | eapply rule; first [reflexivity | done | lia] | reflexivity]
  | cbn ].

Lemma example_run :
  ∃ s : cstate Z, reachable (2 ^ 1) 2 s ∧ thr s !! 1%nat = Some (CDone 0 [7; 8])
    ∧ grants (wd s) = [(0, 2)] ∧ lg (wd s) = [7; 8].
Proof.
  eexists. split.
  - eexists. split; [reflexivity|].
    run 1%nat (@call_dequeue Z _ _ 2).
    run 0%nat (@call_enqueue Z _ _ [7; 8]).
    run 1%nat (@c_load_head Z).
    run 0%nat (@p_load_head Z).
    run 0%nat (@p_load_tail Z).
    run 0%nat (@p_cas_ok Z).
    run 0%nat (@p_write Z _ _ _ _ 0 7).
    run 0%nat (@p_write Z _ _ _ _ 1 8).
    run 0%nat (@p_written Z).
    run 0%nat (@p_wait_done Z).
    run 0%nat (@p_store Z).
    run 1%nat (@c_load_tail Z).
    run 1%nat (@c_cas_ok Z).
    run 1%nat (@c_read Z _ 2 0 [] 7).
    run 1%nat (@c_read Z _ 2 0 [7] 8).
    run 1%nat (@c_read_all Z).
    run 1%nat (@c_wait_done Z).
    run 1%nat (@c_store Z).
    constructor.
  - split_and!; reflexivity.
Qed.

(** Witness: the hypotheses hold on the interleaving above. *)
Lemma mpmc_consumers_fifo_exactly_once_witness :
  ∃ s : cstate Z, reachable (2 ^ 1) 2 s ∧ thr s !! 1%nat = Some (CDone 0 [7; 8])
    ∧ [7; 8] = slice (lg (wd s)) 0 2.
Proof.
  destruct example_run as (s & Hr & Ht & _). exists s. split; [exact Hr|]. split; [exact Ht|].
  exact (proj1 (mpmc_consumers_fifo_exactly_once Z _ 1 2 s ltac:(lia) Hr) 1%nat 0 [7; 8] Ht).
Defined.

Lemma mpmc_slots_exclusive_witness :
  ∃ s : cstate Z, reachable (2 ^ 1) 2 s
    ∧ prod_head (rg (wd s)) - cons_tail (rg (wd s)) ≤ capacity (rg (wd s)).
Proof.
  destruct example_run as (s & Hr & _). exists s. split; [exact Hr|].
  exact (proj2 (proj2 (mpmc_slots_exclusive Z _ 1 2 s ltac:(lia) Hr))).
Defined.

Lemma mpmc_solo_refines_witness :
  let w := mkWorld (mkRing 0 0 0 0 2 1 [0; 0]) [] [] in
  ∃ r' n lg', enqueue_bulk (rg w) [7; 8; 9] = Some (r', n) ∧
     steps solo (w, Idle) (mkWorld r' lg' (grants w), PDone n).
Proof.
  intros w. apply (mpmc_solo_refines w [7; 8; 9] 1); [|lia].
  split; try done. exists 1. split; [lia|reflexivity].
Defined.
