(* ===== verification/Float64.v ===== *)
(** IEEE-754 binary64 arithmetic for the [double]s of the runtime.

    Values and operations are the Standard Library's executable
    specification [SpecFloat] at precision 53 and maximal exponent 1024, with
    round-to-nearest-even; no real-number approximation is made. *)
From S2P Require Import Prelude.
From Stdlib Require Export SpecFloat.

Definition double : Type := spec_float.

Definition d_add : double → double → double := SFadd 53 1024.
Definition d_sub : double → double → double := SFsub 53 1024.
Definition d_mul : double → double → double := SFmul 53 1024.
Definition d_div : double → double → double := SFdiv 53 1024.
Definition d_lt (x y : double) : bool := SFltb x y.
Definition d_gt (x y : double) : bool := SFltb y x.
Definition d_eq (x y : double) : bool := SFeqb x y.
Definition d_le (x y : double) : bool := SFleb x y.

(** [static_cast<double>] of an integer: the nearest double. *)
Definition d_of_Z (z : Z) : double := binary_normalize 53 1024 z 0 false.

(** A decimal literal [num / den]: both parts are exact, so the rounded
    quotient is the double nearest to the literal. *)
Definition d_lit (num den : Z) : double := d_div (d_of_Z num) (d_of_Z den).

Definition d_zero : double := S754_zero false.

(** [static_cast<uint64_t>] of a non-negative double below [2^64]: truncation.
    (Outside that range the C++ conversion is undefined.) *)
Definition d_trunc (x : double) : Z :=
  match x with
  | S754_finite s m e =>
      let v := if 0 <=? e then Zpos m * 2 ^ e else Zpos m / 2 ^ (- e) in
      if s then - v else v
  | _ => 0
  end.

(** Strict comparison is transitive, NaNs and infinities included. *)
Lemma d_lt_trans x y z : d_lt x y = true → d_lt y z = true → d_lt x z = true.
Proof.
  unfold d_lt, SFltb, SFcompare.
  destruct x as [sx|sx| |sx mx ex], y as [sy|sy| |sy my ey], z as [sz|sz| |sz mz ez];
    try discriminate;
    try destruct sx; try destruct sy; try destruct sz; try discriminate; try done;
    repeat match goal with
    | |- context [Z.compare ?a ?b] => destruct (Z.compare_spec a b)
    | |- context [Pos.compare_cont Eq ?a ?b] => change (Pos.compare_cont Eq a b) with (Pos.compare a b)
    | |- context [Pos.compare ?a ?b] => destruct (Pos.compare_spec a b)
    end; subst; simpl; try done; try lia; try (exfalso; lia).
Qed.

Lemma d_lt_irrefl x : d_lt x x = false.
Proof.
  unfold d_lt, SFltb, SFcompare. destruct x as [[]|[]| |[] m e]; try done;
    rewrite Z.compare_refl;
    change (Pos.compare_cont Eq m m) with (Pos.compare m m);
    by rewrite Pos.compare_refl.
Qed.
