(* ===== verification/Policies.v ===== *)
(** The scheduling policies: [round_robin_policy.cc],
    [strict_priority_policy.cc], [weighted_fair_policy.cc] and the factory
    [policy_factory.cc].  A policy is its private state; [policy_decide] maps
    the snapshots of all queues to a decision and the next state.  The common
    contract ([decision_sound]) is what the scheduler relies on. *)
From S2P Require Import Prelude Types Float64.

(** ** State *)

Record RoundRobinPolicy := mkRR { rr_last_index : Z; rr_max_batch : Z }.
Record StrictPriorityPolicy := mkSP { sp_max_batch : Z; sp_last_prio : Z; sp_last_idx : Z }.
Record WeightedFairPolicy := mkWF {
  wf_virtual_time : list double;
  wf_weights : list double;
  wf_max_batch : Z
}.

Inductive SchedulingPolicy :=
| PolicyRR (p : RoundRobinPolicy)
| PolicySP (p : StrictPriorityPolicy)
| PolicyWF (p : WeightedFairPolicy).

Definition new_RR (max_batch : Z) : RoundRobinPolicy := mkRR 0 max_batch.
Definition new_SP (max_batch : Z) : StrictPriorityPolicy := mkSP max_batch SIZE_MAX 0.
Definition new_WF (weights : list double) (max_batch : Z) : WeightedFairPolicy :=
  mkWF [] weights max_batch.

(** ** The scan shared by the round-robin searches

    [for (offset = 1; offset <= n; ++offset) { idx = (last + offset) % n; ... }]
    stopping at the first snapshot that satisfies [ok]; [fuel] is the number of
    turns left, [n] at the start. *)
Fixpoint rr_scan (qs : list QueueSnapshot) (ok : QueueSnapshot → bool)
    (last n offset : Z) (fuel : nat) : option (Z * QueueSnapshot) :=
  match fuel with
  | O => None
  | S fuel' =>
      let idx := (last +64 offset) mod n in
      match qs !! Z.to_nat idx with
      | Some q => if ok q then Some (idx, q) else rr_scan qs ok last n (offset + 1) fuel'
      | None => None
      end
  end.

Definition idle_decision : ScheduleDecision := mkDecision 0 0 true true.

Definition nonempty (q : QueueSnapshot) : bool := 0 <? qs_count q.

(** ** [RoundRobinPolicy::decide] *)
Definition rr_decide (p : RoundRobinPolicy) (qs : list QueueSnapshot)
  : RoundRobinPolicy * ScheduleDecision :=
  let n := Z.of_nat (length qs) in
  if n =? 0 then (p, idle_decision)
  else
    match rr_scan qs nonempty (rr_last_index p) n 1 (length qs) with
    | Some (idx, q) =>
        (mkRR idx (rr_max_batch p),
         mkDecision idx (Z.min (qs_count q) (rr_max_batch p)) false true)
    | None => (p, idle_decision)
    end.

(** ** [StrictPriorityPolicy::decide] *)
Definition at_prio (prio : Z) (q : QueueSnapshot) : bool :=
  (Priority_code (qs_priority q) =? prio) && (0 <? qs_count q).

Definition sp_count (qs : list QueueSnapshot) (prio : Z) : Z :=
  Z.of_nat (length (filter (λ q, at_prio prio q = true) qs)).

(** One turn of the priority loop, for [prio] and the priorities after it. *)
Fixpoint sp_loop (p : StrictPriorityPolicy) (qs : list QueueSnapshot) (prios : list Z)
  : StrictPriorityPolicy * ScheduleDecision :=
  match prios with
  | [] => (mkSP (sp_max_batch p) SIZE_MAX 0, idle_decision)
  | prio :: rest =>
      if sp_count qs prio =? 0 then sp_loop p qs rest
      else
        let p1 := if sp_last_prio p =? prio then p else mkSP (sp_max_batch p) prio 0 in
        match rr_scan qs (at_prio prio) (sp_last_idx p1) (Z.of_nat (length qs)) 1 (length qs) with
        | Some (idx, q) =>
            (mkSP (sp_max_batch p) (sp_last_prio p1) idx,
             mkDecision idx (Z.min (qs_count q) (sp_max_batch p)) false true)
        | None => sp_loop p1 qs rest
        end
  end.

Definition sp_decide (p : StrictPriorityPolicy) (qs : list QueueSnapshot)
  : StrictPriorityPolicy * ScheduleDecision :=
  if Z.of_nat (length qs) =? 0 then (p, idle_decision)
  else sp_loop p qs [0; 1; 2; 3].

(** ** [WeightedFairPolicy::decide] *)

(** The minimum search: [best] is [None] until [found]. *)
Fixpoint wf_scan (qs : list QueueSnapshot) (vt : list double) (i : nat) (best : option nat)
  : option nat :=
  match qs with
  | [] => best
  | q :: rest =>
      let best' :=
        if nonempty q then
          match best with
          | None => Some i
          | Some b => if d_lt (nth i vt d_zero) (nth b vt d_zero) then Some i else best
          end
        else best in
      wf_scan rest vt (S i) best'
  end.

Definition wf_decide (p : WeightedFairPolicy) (qs : list QueueSnapshot)
  : WeightedFairPolicy * ScheduleDecision :=
  let n := length qs in
  let vt := if Nat.eqb (length (wf_virtual_time p)) n then wf_virtual_time p
            else replicate n d_zero in
  let ws := if Nat.eqb (length (wf_weights p)) n then wf_weights p
            else replicate n (d_of_Z 1) in
  match wf_scan qs vt 0 None with
  | None => (mkWF vt ws (wf_max_batch p), idle_decision)
  | Some b =>
      let batch := Z.min (nth b (qs_count <$> qs) 0) (wf_max_batch p) in
      let v := d_add (nth b vt d_zero) (d_div (d_of_Z batch) (nth b ws d_zero)) in
      (mkWF (<[b := v]> vt) ws (wf_max_batch p),
       mkDecision (Z.of_nat b) batch false true)
  end.

(** ** Dispatch and factory *)

Definition policy_decide (p : SchedulingPolicy) (qs : list QueueSnapshot) (st : SchedulerStats)
  : SchedulingPolicy * ScheduleDecision :=
  match p with
  | PolicyRR p => let '(p', d) := rr_decide p qs in (PolicyRR p', d)
  | PolicySP p => let '(p', d) := sp_decide p qs in (PolicySP p', d)
  | PolicyWF p => let '(p', d) := wf_decide p qs in (PolicyWF p', d)
  end.

Definition max_batch (p : SchedulingPolicy) : Z :=
  match p with
  | PolicyRR p => rr_max_batch p
  | PolicySP p => sp_max_batch p
  | PolicyWF p => wf_max_batch p
  end.

Definition policy_name (p : SchedulingPolicy) : string :=
  match p with
  | PolicyRR _ => "round_robin"
  | PolicySP _ => "strict_priority"
  | PolicyWF _ => "weighted_fair"
  end.

Record PolicyConfig := mkPolicyConfig {
  cfg_name : string;
  cfg_weights : list double;
  cfg_max_batch : Z
}.

(** [inr]: the [std::runtime_error] with its message. *)
Definition make_policy (cfg : PolicyConfig) : SchedulingPolicy + string :=
  if bool_decide (cfg_name cfg = "strict_priority") then inl (PolicySP (new_SP (cfg_max_batch cfg)))
  else if bool_decide (cfg_name cfg = "weighted_fair") then
    inl (PolicyWF (new_WF (cfg_weights cfg) (cfg_max_batch cfg)))
  else if bool_decide (cfg_name cfg = "round_robin") then inl (PolicyRR (new_RR (cfg_max_batch cfg)))
  else inr ("Unknown scheduling policy: " +:+ cfg_name cfg).

(** ** The contract *)

(** A decision is idle exactly when every queue is empty; otherwise it names
    a non-empty queue and a batch of its length cut at [mb]. *)
Definition decision_sound (mb : Z) (qs : list QueueSnapshot) (d : ScheduleDecision) : Prop :=
  if idle d then Forall (λ q, qs_count q ≤ 0) qs
  else ∃ q, 0 ≤ queue_index d ∧ qs !! Z.to_nat (queue_index d) = Some q
            ∧ 0 < qs_count q ∧ batch_size d = Z.min (qs_count q) mb.

(** Round-robin cursors that cannot overflow the scan. *)
Definition cursor_ok (p : SchedulingPolicy) : Prop :=
  match p with
  | PolicyRR p => 0 ≤ rr_last_index p < 2 ^ 63
  | PolicySP p => 0 ≤ sp_last_idx p < 2 ^ 63
  | PolicyWF _ => True
  end.

(** ** The scan *)

Section Scan.
Context (qs : list QueueSnapshot) (ok : QueueSnapshot → bool) (last : Z).
Context (Hlast : 0 ≤ last < 2 ^ 63) (Hqs : Z.of_nat (length qs) < 2 ^ 63).
Local Abbreviation n := (Z.of_nat (length qs)).

Lemma scan_index off : 0 ≤ off ≤ n → (last +64 off) mod n = (last + off) mod n.
Proof.
  intros. f_equal. apply wrap64_small.
  change (2 ^ 63) with 9223372036854775808 in *. unfold W64. lia.
Qed.

Lemma rr_scan_spec fuel off :
  0 < n → 1 ≤ off → off + Z.of_nat fuel = n + 1 →
  match rr_scan qs ok last n off fuel with
  | Some (idx, q) =>
      ∃ o, off ≤ o ≤ n ∧ idx = (last + o) mod n ∧ qs !! Z.to_nat idx = Some q ∧ ok q = true
        ∧ ∀ o' q', off ≤ o' < o → qs !! Z.to_nat ((last + o') mod n) = Some q' → ok q' = false
  | None => ∀ o' q', off ≤ o' ≤ n → qs !! Z.to_nat ((last + o') mod n) = Some q' → ok q' = false
  end.
Proof.
  intros Hn. revert off. induction fuel as [|fuel IH]; intros off Ho Hf; cbn [rr_scan].
  - intros o' q' Ho' _. lia.
  - rewrite scan_index by lia.
    pose proof (Z.mod_pos_bound (last + off) n Hn).
    destruct (lookup_lt_is_Some_2 qs (Z.to_nat ((last + off) mod n))) as [q Hq]; [lia|].
    rewrite Hq. destruct (ok q) eqn:Hok.
    + exists off. split_and!; try done; try lia.
    + specialize (IH (off + 1) ltac:(lia) ltac:(lia)).
      destruct (rr_scan _ _ _ _ _ _) as [[idx q1]|].
      * destruct IH as (o & ? & ? & ? & ? & Hbefore). exists o. split_and!; try done; try lia.
        intros o' q' Ho' Hq'. destruct (decide (o' = off)) as [->|]; [congruence|].
        apply (Hbefore o' q'); [lia|done].
      * intros o' q' Ho' Hq'. destruct (decide (o' = off)) as [->|]; [congruence|].
        apply (IH o' q'); [lia|done].
Qed.

(** The offsets [1..n] reach every index. *)
Lemma scan_covers i :
  0 ≤ i < n → ∃ o, 1 ≤ o ≤ n ∧ (last + o) mod n = i.
Proof.
  intros Hi. exists (if (i - last) mod n =? 0 then n else (i - last) mod n).
  pose proof (Z.mod_pos_bound (i - last) n ltac:(lia)).
  destruct (Z.eqb_spec ((i - last) mod n) 0) as [E|E].
  - split; [lia|].
    assert (i mod n = last mod n) as Hi'.
    { replace i with (last + (i - last)) by lia.
      by rewrite <- Zplus_mod_idemp_r, E, Z.add_0_r. }
    rewrite Z.mod_small in Hi' by lia. rewrite Hi'.
    replace (last + n) with (last + 1 * n) by lia. apply Z_mod_plus_full.
  - split; [lia|]. rewrite Zplus_mod_idemp_r. replace (last + (i - last)) with i by lia.
    apply Z.mod_small. lia.
Qed.

Lemma rr_scan_none : 0 < n → rr_scan qs ok last n 1 (length qs) = None →
  ∀ i q, qs !! i = Some q → ok q = false.
Proof.
  intros Hn E i q Hi. pose proof (rr_scan_spec (length qs) 1 Hn ltac:(lia) ltac:(lia)) as H.
  rewrite E in H. apply lookup_lt_Some in Hi as Hlt.
  destruct (scan_covers (Z.of_nat i)) as (o & Ho & Hi'); [lia|].
  apply (H o); [done|]. rewrite Hi'. by rewrite Nat2Z.id.
Qed.

End Scan.

(** ** Properties of the policies *)

Lemma nonempty_spec q : nonempty q = false ↔ qs_count q ≤ 0.
Proof. unfold nonempty. lia. Qed.

Lemma rr_decide_sound p qs :
  0 ≤ rr_last_index p < 2 ^ 63 → Z.of_nat (length qs) < 2 ^ 63 →
  decision_sound (rr_max_batch p) qs (rr_decide p qs).2
  ∧ 0 ≤ rr_last_index (rr_decide p qs).1 < 2 ^ 63.
Proof.
  intros Hl Hq. unfold rr_decide. destruct (Z.eqb_spec (Z.of_nat (length qs)) 0) as [E|E].
  { destruct qs; [|simpl in E; lia]. split; [constructor|done]. }
  pose proof (rr_scan_spec qs nonempty _ Hl Hq (length qs) 1 ltac:(lia) ltac:(lia) ltac:(lia)) as Hs.
  pose proof (rr_scan_none qs nonempty _ Hl Hq ltac:(lia)) as Hn.
  destruct (rr_scan _ _ _ _ _ _) as [[idx q]|]; simpl.
  - destruct Hs as (o & Ho & -> & Hlk & Hok & _).
    pose proof (Z.mod_pos_bound (rr_last_index p + o) (Z.of_nat (length qs)) ltac:(lia)).
    split; [|lia]. exists q. cbn [queue_index batch_size]. split_and!; [lia|done| |done].
    unfold nonempty in Hok. lia.
  - split; [|done]. apply Forall_lookup. intros i q Hi. apply nonempty_spec. by apply (Hn eq_refl i).
Qed.

Lemma sp_count_zero qs prio :
  sp_count qs prio = 0 → ∀ i q, qs !! i = Some q → at_prio prio q = false.
Proof.
  unfold sp_count. intros H i q Hi. destruct (at_prio prio q) eqn:E; [|done].
  assert (q ∈ filter (λ q, at_prio prio q = true) qs) as Hin.
  { apply list_elem_of_filter. split; [done|]. by apply list_elem_of_lookup_2 in Hi. }
  destruct (filter _ qs); [by apply not_elem_of_nil in Hin|]. simpl in H. lia.
Qed.

(** The strict-priority loop from [prio] on: it picks a non-empty queue of the
    smallest listed priority code that has one. *)
Lemma sp_loop_spec p qs prios :
  0 ≤ sp_last_idx p < 2 ^ 63 → 0 < Z.of_nat (length qs) < 2 ^ 63 →
  let '(p', d) := sp_loop p qs prios in
  sp_max_batch p' = sp_max_batch p ∧ 0 ≤ sp_last_idx p' < 2 ^ 63 ∧
  if idle d then ∀ prio i q, prio ∈ prios → qs !! i = Some q → at_prio prio q = false
  else ∃ q pre prio post, prios = pre ++ prio :: post
       ∧ 0 ≤ queue_index d ∧ qs !! Z.to_nat (queue_index d) = Some q ∧ at_prio prio q = true
       ∧ batch_size d = Z.min (qs_count q) (sp_max_batch p)
       ∧ ∀ prio' i q', prio' ∈ pre → qs !! i = Some q' → at_prio prio' q' = false.
Proof.
  revert p. induction prios as [|prio rest IH]; intros p Hl Hq; cbn [sp_loop].
  { simpl. split_and!; try done; try lia. intros prio i q Hin. by apply not_elem_of_nil in Hin. }
  destruct (Z.eqb_spec (sp_count qs prio) 0) as [E|E].
  - specialize (IH p Hl Hq). destruct (sp_loop p qs rest) as [p' d].
    destruct IH as (? & ? & IH). split_and!; try done; try lia. destruct (idle d).
    + intros prio' i q Hin Hi. apply elem_of_cons in Hin as [->|Hin]; [by eapply sp_count_zero|].
      by eapply IH.
    + destruct IH as (q & pre & pr & post & -> & ? & ? & ? & ? & Hpre).
      exists q, (prio :: pre), pr, post. split_and!; try done.
      intros prio' i q' Hin Hi. apply elem_of_cons in Hin as [->|Hin]; [by eapply sp_count_zero|].
      by eapply Hpre.
  - set (p1 := if sp_last_prio p =? prio then p else mkSP (sp_max_batch p) prio 0).
    assert (0 ≤ sp_last_idx p1 < 2 ^ 63 ∧ sp_max_batch p1 = sp_max_batch p) as [Hl1 Hm1].
    { unfold p1. destruct (_ =? _); simpl; split; (done || lia). }
    pose proof (rr_scan_spec qs (at_prio prio) _ Hl1 ltac:(lia) (length qs) 1
      ltac:(lia) ltac:(lia) ltac:(lia)) as Hs.
    pose proof (rr_scan_none qs (at_prio prio) _ Hl1 ltac:(lia) ltac:(lia)) as Hn.
    destruct (rr_scan _ _ _ _ _ _) as [[idx q]|].
    + destruct Hs as (o & Ho & -> & Hlk & Hok & _).
      pose proof (Z.mod_pos_bound (sp_last_idx p1 + o) (Z.of_nat (length qs)) ltac:(lia)).
      cbn [sp_max_batch sp_last_idx idle]. split_and!; try done; try lia.
      exists q, [], prio, rest. cbn [queue_index batch_size].
      split_and!; try done; [lia|]. intros ? ? ? Hin. by apply not_elem_of_nil in Hin.
    + exfalso. apply E. unfold sp_count.
      destruct (filter (λ q, at_prio prio q = true) qs) as [|q l] eqn:Ef; [done|].
      assert (q ∈ filter (λ q, at_prio prio q = true) qs) as Hin by (rewrite Ef; left).
      apply list_elem_of_filter in Hin as [Hok Hin].
      apply list_elem_of_lookup_1 in Hin as [i Hi]. rewrite (Hn eq_refl i q Hi) in Hok. done.
Qed.

Lemma at_prio_false q : (∀ prio, prio ∈ [0; 1; 2; 3] → at_prio prio q = false) → qs_count q ≤ 0.
Proof.
  intros H. specialize (H (Priority_code (qs_priority q))). unfold at_prio in H.
  rewrite Z.eqb_refl in H. simpl in H.
  assert (0 <? qs_count q = false); [|lia]. apply H.
  destruct (qs_priority q); set_solver.
Qed.

Lemma sp_decide_spec p qs :
  0 ≤ sp_last_idx p < 2 ^ 63 → Z.of_nat (length qs) < 2 ^ 63 →
  let '(p', d) := sp_decide p qs in
  decision_sound (sp_max_batch p) qs d ∧ 0 ≤ sp_last_idx p' < 2 ^ 63
  ∧ (idle d = false → ∀ q i q', qs !! Z.to_nat (queue_index d) = Some q →
       qs !! i = Some q' → 0 < qs_count q' →
       Priority_code (qs_priority q) ≤ Priority_code (qs_priority q')).
Proof.
  intros Hl Hq. unfold sp_decide. destruct (Z.eqb_spec (Z.of_nat (length qs)) 0) as [E|E].
  { destruct qs; [|simpl in E; lia]. split_and!; try done; try lia. constructor. }
  pose proof (sp_loop_spec p qs [0; 1; 2; 3] Hl ltac:(lia)) as H.
  destruct (sp_loop p qs [0; 1; 2; 3]) as [p' d]. destruct H as (Hm & Hl' & H).
  unfold decision_sound. destruct (idle d) eqn:Ei.
  - split_and!; try lia; try done. apply Forall_lookup. intros i q Hi.
    apply at_prio_false. intros prio Hin. by eapply H.
  - destruct H as (q & pre & prio & post & Hsplit & Hidx & Hlk & Hok & Hb & Hpre).
    unfold at_prio in Hok. apply andb_prop in Hok as [Hp Hc].
    split_and!; try lia.
    + exists q. split_and!; try done. lia.
    + intros _ q0 i q' Hq0 Hi Hc'. rewrite Hlk in Hq0. injection Hq0 as <-.
      apply Z.eqb_eq in Hp.
      destruct (Z.le_gt_cases (Priority_code (qs_priority q)) (Priority_code (qs_priority q')))
        as [|Hgt]; [done|]. exfalso.
      assert (Priority_code (qs_priority q') ∈ pre) as Hin.
      { subst prio.
        destruct (qs_priority q), (qs_priority q'); simpl in *; try lia;
          destruct pre as [|? [|? [|? [|? [|? ?]]]]]; simplify_eq/=; set_solver. }
      specialize (Hpre _ i q' Hin Hi). unfold at_prio in Hpre. rewrite Z.eqb_refl in Hpre.
      simpl in Hpre. lia.
Qed.


(** The weighted-fair scan: the result is the first index, among the non-empty
    queues, that no other one is below. *)
Lemma wf_scan_spec qs vt i best all :
  drop i all = qs → (i ≤ length all)%nat →
  (∀ b, best = Some b → (b < i)%nat ∧ (∃ q, all !! b = Some q ∧ nonempty q = true)) →
  (∀ j q, (j < i)%nat → all !! j = Some q → nonempty q = true →
     ∃ b, best = Some b ∧ d_lt (nth j vt d_zero) (nth b vt d_zero) = false) →
  match wf_scan qs vt i best with
  | None => ∀ j q, all !! j = Some q → nonempty q = false
  | Some b => (∃ q, all !! b = Some q ∧ nonempty q = true)
      ∧ ∀ j q, all !! j = Some q → nonempty q = true →
          d_lt (nth j vt d_zero) (nth b vt d_zero) = false
  end.
Proof.
  revert i best. induction qs as [|q qs IH]; intros i best Hd Hi Hb Hmin; cbn [wf_scan].
  - assert (length all ≤ i)%nat as Hlen.
    { apply (f_equal length) in Hd. rewrite length_drop in Hd. simpl in Hd. lia. }
    destruct best as [b|].
    + split; [by apply Hb|]. intros j q Hj Hne. apply lookup_lt_Some in Hj as Hlt.
      destruct (Hmin j q ltac:(lia) Hj Hne) as (b' & [= <-] & ?). done.
    + intros j q Hj. destruct (nonempty q) eqn:Hne; [|done]. apply lookup_lt_Some in Hj as Hlt.
      destruct (Hmin j q ltac:(lia) Hj Hne) as (b' & ? & _). done.
  - assert (all !! i = Some q) as Hqi.
    { replace i with (i + 0)%nat by lia. rewrite <- lookup_drop, Hd. done. }
    apply lookup_lt_Some in Hqi as Hlt.
    apply IH.
    + rewrite <- (Nat.add_1_r i), <- drop_drop, Hd. done.
    + lia.
    + intros b Eb. destruct (nonempty q) eqn:Hne.
      * destruct best as [b0|]; [destruct (d_lt _ _)|]; simplify_eq.
        -- split; [lia|]. by exists q.
        -- destruct (Hb b eq_refl) as [? ?]. split; [lia|done].
        -- split; [lia|]. by exists q.
      * destruct (Hb b Eb). split; [lia|done].
    + intros j q' Hj Hq' Hne'. destruct (decide (j = i)) as [->|Hji].
      * rewrite Hqi in Hq'. injection Hq' as <-. rewrite Hne'.
        destruct best as [b0|]; [destruct (d_lt _ _) eqn:E|].
        -- exists i. split; [done|apply d_lt_irrefl].
        -- by exists b0.
        -- exists i. split; [done|apply d_lt_irrefl].
      * destruct (Hmin j q' ltac:(lia) Hq' Hne') as (b & -> & Hge).
        destruct (nonempty q); [|by exists b]. destruct (d_lt (nth i _ _) _) eqn:E; [|by exists b].
        exists i. split; [done|].
        destruct (d_lt (nth j vt d_zero) (nth i vt d_zero)) eqn:E'; [|done].
        by rewrite (d_lt_trans _ _ _ E' E) in Hge.
Qed.

Lemma wf_decide_spec p qs :
  let '(p', d) := wf_decide p qs in
  decision_sound (wf_max_batch p) qs d ∧ wf_max_batch p' = wf_max_batch p
  ∧ length (wf_virtual_time p') = length qs ∧ length (wf_weights p') = length qs
  ∧ (length (wf_virtual_time p) = length qs → idle d = false →
      (∀ j q, qs !! j = Some q → 0 < qs_count q →
        d_lt (nth j (wf_virtual_time p) d_zero)
             (nth (Z.to_nat (queue_index d)) (wf_virtual_time p) d_zero) = false)
      ∧ wf_virtual_time p' =
        <[Z.to_nat (queue_index d) :=
            d_add (nth (Z.to_nat (queue_index d)) (wf_virtual_time p) d_zero)
              (d_div (d_of_Z (batch_size d))
                     (nth (Z.to_nat (queue_index d)) (wf_weights p') d_zero))]>
          (wf_virtual_time p)).
Proof.
  unfold wf_decide.
  set (vt := if Nat.eqb _ _ then wf_virtual_time p else _).
  set (ws := if Nat.eqb _ _ then wf_weights p else _).
  assert (length vt = length qs) as Hvt.
  { unfold vt. destruct (Nat.eqb_spec (length (wf_virtual_time p)) (length qs)); [done|].
    by rewrite length_replicate. }
  assert (length ws = length qs) as Hws.
  { unfold ws. destruct (Nat.eqb_spec (length (wf_weights p)) (length qs)); [done|].
    by rewrite length_replicate. }
  pose proof (wf_scan_spec qs vt 0 None qs (drop_0 qs) ltac:(lia)) as Hs.
  destruct (wf_scan qs vt 0 None) as [b|].
  - destruct Hs as [(q & Hq & Hne) Hmin]; [done|intros; lia|].
    assert (nth b (qs_count <$> qs) 0 = qs_count q) as ->.
    { erewrite nth_lookup_Some; [done|]. rewrite list_lookup_fmap, Hq. done. }
    cbn [idle batch_size queue_index wf_max_batch wf_virtual_time wf_weights].
    rewrite Nat2Z.id, length_insert. split_and!; try done.
    + exists q. cbn [queue_index]. rewrite Nat2Z.id. split_and!; try done; [lia|].
      unfold nonempty in Hne. lia.
    + intros Hlen _. assert (vt = wf_virtual_time p) as Evt.
      { unfold vt. by rewrite Hlen, Nat.eqb_refl. }
      rewrite <- Evt. split; [|done]. intros j q' Hj Hc. apply (Hmin j q' Hj).
      unfold nonempty. lia.
  - cbn [idle wf_max_batch wf_virtual_time wf_weights]. split_and!; try done.
    apply Forall_lookup. intros i q Hi. apply nonempty_spec. apply (Hs ltac:(done) ltac:(intros; lia) i q Hi).
Qed.

(** ** Round robin starves nobody *)

(** The queues chosen by a run of decisions. *)
Fixpoint rr_run (p : RoundRobinPolicy) (snaps : list (list QueueSnapshot)) : list ScheduleDecision :=
  match snaps with
  | [] => []
  | qs :: rest => let '(p', d) := rr_decide p qs in d :: rr_run p' rest
  end.

(** How many positions the cursor is behind queue [i]. *)
Definition rr_distance (n i last : Z) : Z := (i - last - 1) mod n.

Lemma rr_decide_progress p qs i q :
  0 ≤ rr_last_index p < 2 ^ 63 → Z.of_nat (length qs) < 2 ^ 63 →
  qs !! Z.to_nat i = Some q → 0 ≤ i → 0 < qs_count q →
  let '(p', d) := rr_decide p qs in
  idle d = false ∧ rr_last_index p' = queue_index d
  ∧ (queue_index d = i
     ∨ rr_distance (Z.of_nat (length qs)) i (rr_last_index p')
       < rr_distance (Z.of_nat (length qs)) i (rr_last_index p)).
Proof.
  intros Hl Hq Hi Hi0 Hc. apply lookup_lt_Some in Hi as Hlt. unfold rr_decide.
  set (n := Z.of_nat (length qs)) in *.
  destruct (Z.eqb_spec n 0) as [E|E]; [lia|].
  pose proof (rr_scan_spec qs nonempty _ Hl Hq (length qs) 1 ltac:(lia) ltac:(lia) ltac:(lia)) as Hs.
  pose proof (rr_scan_none qs nonempty _ Hl Hq ltac:(lia)) as Hn. fold n in Hs, Hn.
  destruct (rr_scan _ _ _ _ _ _) as [[idx q1]|].
  2:{ specialize (Hn eq_refl _ _ Hi). unfold nonempty in Hn. lia. }
  destruct Hs as (o & Ho & -> & Hlk & Hok & Hbefore). simpl. split_and!; try done.
  unfold rr_distance. set (l := rr_last_index p) in *.
  pose proof (Z.mod_pos_bound (i - l - 1) n ltac:(lia)) as Hd. set (dd := (i - l - 1) mod n) in *.
  assert ((l + (dd + 1)) mod n = i) as Hdd.
  { unfold dd. replace (l + ((i - l - 1) mod n + 1)) with (l + 1 + (i - l - 1) mod n) by lia.
    rewrite Zplus_mod_idemp_r. replace (l + 1 + (i - l - 1)) with i by lia.
    apply Z.mod_small. lia. }
  destruct (Z.lt_trichotomy o (dd + 1)) as [Hlt'|[->|Hgt]].
  - right. replace (i - (l + o) mod n - 1) with (i - 1 - (l + o) mod n) by lia.
    rewrite Zminus_mod_idemp_r. replace (i - 1 - (l + o)) with (i - l - 1 - o) by lia.
    rewrite <- Zminus_mod_idemp_l. fold dd. rewrite Z.mod_small; lia.
  - by left.
  - exfalso. specialize (Hbefore (dd + 1) q ltac:(lia)). rewrite Hdd in Hbefore.
    specialize (Hbefore Hi). unfold nonempty in Hbefore. lia.
Qed.

Lemma rr_no_starvation_aux d p snaps n i :
  0 ≤ rr_last_index p < 2 ^ 63 → 0 ≤ i → 0 < n < 2 ^ 63 →
  Forall (λ qs, Z.of_nat (length qs) = n ∧ ∃ q, qs !! Z.to_nat i = Some q ∧ 0 < qs_count q) snaps →
  rr_distance n i (rr_last_index p) < d → d ≤ Z.of_nat (length snaps) →
  Exists (λ dec, idle dec = false ∧ queue_index dec = i) (rr_run p snaps).
Proof.
  revert d p. induction snaps as [|qs snaps IH]; intros d p Hl Hi Hn Hall Hd Hlen.
  - simpl in Hlen. pose proof (Z.mod_pos_bound (i - rr_last_index p - 1) n).
    unfold rr_distance in Hd. lia.
  - apply Forall_cons in Hall as [(Hqn & q & Hq & Hc) Hall]. cbn [rr_run].
    pose proof (rr_decide_progress p qs i q Hl ltac:(lia) Hq Hi Hc) as Hp.
    pose proof (proj2 (rr_decide_sound p qs Hl ltac:(lia))) as Hl'.
    destruct (rr_decide p qs) as [p' dec]. destruct Hp as (Hidle & Hlast & [He|Hlt]).
    + by left.
    + right. rewrite Hqn in Hlt. simpl in Hlen. apply (IH (d - 1)); try done; lia.
Qed.

Lemma policy_decide_sound (p : SchedulingPolicy) (qs : list QueueSnapshot) (st : SchedulerStats) :
  cursor_ok p → Z.of_nat (length qs) < 2 ^ 63 →
  decision_sound (max_batch p) qs (policy_decide p qs st).2
  ∧ cursor_ok (policy_decide p qs st).1.
Proof.
  intros Hc Hq. destruct p as [p|p|p]; simpl in *.
  - pose proof (rr_decide_sound p qs Hc Hq). by destruct (rr_decide p qs).
  - pose proof (sp_decide_spec p qs Hc Hq) as H. destruct (sp_decide p qs).
    by destruct H as (? & ? & _).
  - pose proof (wf_decide_spec p qs) as H. destruct (wf_decide p qs). split; [apply H|done].
Qed.

(** C34: every policy honours the contract the scheduler relies on: it is idle
    exactly when all queues are empty, and otherwise picks an existing
    non-empty queue with a batch of its length cut at [max_batch]; its cursor
    stays in range. *)
Theorem policy_decisions_sound (p : SchedulingPolicy) (qs : list QueueSnapshot) (st : SchedulerStats) :
  cursor_ok p → Z.of_nat (length qs) < 2 ^ 63 →
  decision_sound (max_batch p) qs (policy_decide p qs st).2
  ∧ cursor_ok (policy_decide p qs st).1.
Proof. apply policy_decide_sound. Qed.

(** Strict priority never serves a queue while a queue of a higher
    priority (a smaller code) has work. *)
Theorem strict_priority_respects_priority (p : StrictPriorityPolicy) (qs : list QueueSnapshot)
    (q q' : QueueSnapshot) (i : nat) :
  0 ≤ sp_last_idx p < 2 ^ 63 → Z.of_nat (length qs) < 2 ^ 63 →
  idle (sp_decide p qs).2 = false →
  qs !! Z.to_nat (queue_index (sp_decide p qs).2) = Some q →
  qs !! i = Some q' → 0 < qs_count q' →
  Priority_code (qs_priority q) ≤ Priority_code (qs_priority q').
Proof.
  intros Hl Hq Hidle Hlk Hi Hc. pose proof (sp_decide_spec p qs Hl Hq) as H.
  destruct (sp_decide p qs) as [p' d]. destruct H as (_ & _ & H). by eapply (H Hidle).
Qed.

(** Round robin starves no queue: in any [n] consecutive decisions over
    [n] queues throughout which queue [i] has work, [i] is served. *)
Theorem round_robin_no_starvation (p : RoundRobinPolicy) (snaps : list (list QueueSnapshot)) (n i : Z) :
  0 ≤ rr_last_index p < 2 ^ 63 → 0 ≤ i → 0 < n < 2 ^ 63 →
  Forall (λ qs, Z.of_nat (length qs) = n ∧ ∃ q, qs !! Z.to_nat i = Some q ∧ 0 < qs_count q) snaps →
  n ≤ Z.of_nat (length snaps) →
  Exists (λ dec, idle dec = false ∧ queue_index dec = i) (rr_run p snaps).
Proof.
  intros Hl Hi Hn Hall Hlen. apply (rr_no_starvation_aux n p snaps n i); try done.
  unfold rr_distance. apply Z.mod_pos_bound. lia.
Qed.

(** Weighted fair serves a non-empty queue whose virtual time no other
    non-empty queue is below (double comparison, NaNs included), and charges
    exactly that queue [batch / weight]. *)
Theorem weighted_fair_minimal_virtual_time (p : WeightedFairPolicy) (qs : list QueueSnapshot) :
  length (wf_virtual_time p) = length qs → idle (wf_decide p qs).2 = false →
  let '(p', d) := wf_decide p qs in
  (∀ j q, qs !! j = Some q → 0 < qs_count q →
     d_lt (nth j (wf_virtual_time p) d_zero)
          (nth (Z.to_nat (queue_index d)) (wf_virtual_time p) d_zero) = false)
  ∧ wf_virtual_time p' =
    <[Z.to_nat (queue_index d) :=
        d_add (nth (Z.to_nat (queue_index d)) (wf_virtual_time p) d_zero)
          (d_div (d_of_Z (batch_size d))
                 (nth (Z.to_nat (queue_index d)) (wf_weights p') d_zero))]>
      (wf_virtual_time p).
Proof.
  intros Hlen Hidle. pose proof (wf_decide_spec p qs) as H.
  destruct (wf_decide p qs) as [p' d]. destruct H as (_ & _ & _ & _ & H). by apply H.
Qed.

(** ** Witnesses *)

Definition sample_queues : list QueueSnapshot :=
  [mkSnapshot kEngine kMedium 5 0 0; mkSnapshot kNetIO kHigh 0 0 0;
   mkSnapshot kDiskIO kHigh 200 0 0; mkSnapshot kBackground kLow 1 0 0].

Lemma policy_decisions_sound_witness :
  decision_sound 64 sample_queues (policy_decide (PolicySP (new_SP 64)) sample_queues stats0).2
  ∧ (policy_decide (PolicySP (new_SP 64)) sample_queues stats0).2 = mkDecision 2 64 false true.
Proof.
  split; [|reflexivity].
  exact (proj1 (policy_decisions_sound (PolicySP (new_SP 64)) sample_queues stats0
    ltac:(simpl; lia) ltac:(simpl; lia))).
Defined.

Lemma strict_priority_respects_priority_witness :
  Priority_code kHigh ≤ Priority_code kLow.
Proof.
  exact (strict_priority_respects_priority (new_SP 64) sample_queues
    (mkSnapshot kDiskIO kHigh 200 0 0) (mkSnapshot kBackground kLow 1 0 0) 3
    ltac:(simpl; lia) ltac:(simpl; lia) eq_refl eq_refl eq_refl ltac:(simpl; lia)).
Defined.

Lemma round_robin_no_starvation_witness :
  Exists (λ dec, idle dec = false ∧ queue_index dec = 3)
    (rr_run (new_RR 64) (replicate 4 sample_queues)).
Proof.
  apply (round_robin_no_starvation (new_RR 64) (replicate 4 sample_queues) 4 3); simpl; try lia.
  repeat constructor; by eexists.
Defined.

Lemma weighted_fair_minimal_virtual_time_witness :
  let p := mkWF [d_of_Z 3; d_zero; d_of_Z 2; d_of_Z 4] [d_of_Z 1; d_of_Z 1; d_of_Z 2; d_of_Z 1] 64 in
  queue_index (wf_decide p sample_queues).2 = 2
  ∧ wf_virtual_time (wf_decide p sample_queues).1 = [d_of_Z 3; d_zero; d_of_Z 34; d_of_Z 4].
Proof.
  intros p. pose proof (weighted_fair_minimal_virtual_time p sample_queues eq_refl eq_refl) as H.
  split; [reflexivity|].
  destruct (wf_decide p sample_queues) as [p' d] eqn:E. destruct H as [_ Hvt].
  simpl. rewrite Hvt. vm_compute in E. simplify_eq. reflexivity.
Defined.
