(* ===== verification/Waiters.v ===== *)
(** Intrusive waiter stacks, shared by the three coroutine synchronisation
    primitives ([affinity_baton.h], [affinity_mutex.h],
    [affinity_semaphore.h]): the node embedded in an awaiter, the tag bit kept
    in the low bit of the head pointer, how a node is woken, and the shape of a
    linked chain in memory. *)
From S2P Require Import Prelude.

(** [RouteFunc]: [None] is a null [fn]; [Some ctx] a route with its context. *)
Definition RouteFunc : Type := option Z.

(** [WaiterNode] / [Waiter]: a coroutine handle is the number of the
    coroutine. *)
Record WaiterNode := mkNode {
  n_handle : nat;
  n_worker_id : Z;
  n_route : RouteFunc;
  n_next : Z
}.

Definition set_next (n : WaiterNode) (p : Z) : WaiterNode :=
  mkNode (n_handle n) (n_worker_id n) (n_route n) p.

(** How a waiter is continued: through its route, on its worker, or inline. *)
Inductive Wake := Routed (ctx worker_id : Z) (h : nat) | Inline (h : nat).

Definition wake (n : WaiterNode) : Wake :=
  match n_route n with
  | Some ctx => if n_worker_id n =? SIZE_MAX then Inline (n_handle n)
                else Routed ctx (n_worker_id n) (n_handle n)
  | None => Inline (n_handle n)
  end.

(** The coroutine that is continued. *)
Definition wake_handle (w : Wake) : nat := match w with Routed _ _ h | Inline h => h end.

Lemma wake_handle_wake n : wake_handle (wake n) = n_handle n.
Proof. unfold wake. destruct (n_route n); [|done]. by destruct (_ =? _). Qed.

(** [p & kPostedBit], [p & ~kPostedBit]: the flag in the low pointer bit. *)
Definition kPostedBit : Z := 1.
Definition flagged (p : Z) : bool := negb (Z.land p kPostedBit =? 0).
Definition clear_flag (p : Z) : Z := Z.ldiff p kPostedBit.

Notation Memory := (gmap Z WaiterNode).

Lemma flagged_lor p : flagged (Z.lor p 1) = true.
Proof.
  unfold flagged, kPostedBit. destruct (Z.eqb_spec (Z.land (Z.lor p 1) 1) 0) as [E|]; [|done].
  apply (f_equal (λ z, Z.testbit z 0)) in E. rewrite Z.land_spec, Z.lor_spec in E.
  change (Z.testbit 1 0) with true in E. by rewrite orb_true_r in E.
Qed.

(** [chain mem p l]: from pointer [p] the [next] links visit exactly the nodes
    of the coroutines [l], in order, and end in null. *)
Section Chain.
Context (addr : nat → Z).

Fixpoint chain (mem : Memory) (p : Z) (l : list nat) : Prop :=
  match l with
  | [] => p = 0
  | i :: l' => p = addr i ∧ ∃ n, mem !! p = Some n ∧ n_handle n = i ∧ chain mem (n_next n) l'
  end.

(** Awaiters live at distinct, aligned, non-null addresses. *)
Class Layout : Prop := {
  addr_inj : Inj (=) (=) addr;
  addr_even : ∀ i, Z.land (addr i) 1 = 0;
  addr_pos : ∀ i, 0 < addr i
}.

Context {LY : Layout}.
#[local] Existing Instance addr_inj.

Lemma addr_not_flagged i : flagged (addr i) = false.
Proof. unfold flagged, kPostedBit. by rewrite addr_even. Qed.

Lemma ldiff_of_even a : Z.land a 1 = 0 → Z.ldiff a 1 = a.
Proof.
  intros Ha. pose proof (Z.lor_ldiff_and a 1) as E.
  rewrite Ha, Z.lor_0_r in E. done.
Qed.

Lemma clear_addr i : clear_flag (addr i) = addr i.
Proof. apply ldiff_of_even, addr_even. Qed.

Lemma clear_flagged_addr i : clear_flag (Z.lor (addr i) 1) = addr i.
Proof.
  unfold clear_flag, kPostedBit. rewrite <- (clear_addr i) at 2. unfold clear_flag, kPostedBit.
  apply Z.bits_inj'. intros n Hn. rewrite !Z.ldiff_spec, Z.lor_spec.
  destruct (Z.testbit (addr i) n), (Z.testbit 1 n); done.
Qed.

Lemma lor_addr_pos i : 0 < Z.lor (addr i) 1.
Proof.
  pose proof (addr_pos i). assert (0 ≤ Z.lor (addr i) 1) by (apply Z.lor_nonneg; lia).
  assert (Z.lor (addr i) 1 ≠ 0) by (rewrite Z.lor_eq_0_iff; lia). lia.
Qed.

Lemma chain_frame_insert mem p l i n :
  i ∉ l → chain mem p l → chain (<[addr i := n]> mem) p l.
Proof.
  revert p. induction l as [|j l IH]; simpl; intros p Hni Hc; [done|].
  destruct Hc as (-> & m & Hm & Hh & Hc). split; [done|]. exists m.
  rewrite lookup_insert_ne by (intros E; apply Hni; apply (inj addr) in E; subst; left).
  split_and!; try done. apply IH; [|done]. intros ?. apply Hni. by right.
Qed.

Lemma chain_frame_delete mem p l i :
  i ∉ l → chain mem p l → chain (delete (addr i) mem) p l.
Proof.
  revert p. induction l as [|j l IH]; simpl; intros p Hni Hc; [done|].
  destruct Hc as (-> & m & Hm & Hh & Hc). split; [done|]. exists m.
  rewrite lookup_delete_ne by (intros E; apply Hni; apply (inj addr) in E; subst; left).
  split_and!; try done. apply IH; [|done]. intros ?. apply Hni. by right.
Qed.

Lemma chain_null mem l : chain mem 0 l → l = [].
Proof. destruct l as [|i l]; [done|]. intros (E & _). pose proof (addr_pos i). lia. Qed.

Lemma chain_head mem p l :
  p ≠ 0 → chain mem p l →
  ∃ i l' n, l = i :: l' ∧ p = addr i ∧ mem !! p = Some n ∧ n_handle n = i ∧ chain mem (n_next n) l'.
Proof.
  destruct l as [|i l]; [done|]. intros _ (E & n & ? & ? & ?). eauto 10.
Qed.

Lemma chain_even mem p l : chain mem p l → flagged p = false ∧ clear_flag p = p.
Proof.
  destruct l as [|i l]; simpl; [by intros ->|].
  intros (-> & _). by rewrite addr_not_flagged, clear_addr.
Qed.

(** The chain from a pointer is determined by memory. *)
Lemma chain_unique mem p l1 l2 : chain mem p l1 → chain mem p l2 → l1 = l2.
Proof.
  revert p l2. induction l1 as [|i l1 IH]; intros p l2.
  - intros -> H. symmetry. by eapply chain_null.
  - intros (-> & n & Hn & _ & Hc) H2. pose proof (addr_pos i).
    apply chain_head in H2 as (j & l' & n' & -> & E & Hn' & _ & Hc'); [|lia].
    rewrite Hn in Hn'. injection Hn' as <-. apply (inj addr) in E as <-.
    f_equal. by eapply IH.
Qed.
End Chain.

Arguments addr_inj {addr} _.
Arguments addr_even {addr _} i.
Arguments addr_pos {addr _} i.

(** A concrete layout, for the witnesses: one 64-byte awaiter per coroutine. *)
Definition addr64 (i : nat) : Z := 64 * (Z.of_nat i + 1).

#[export] Instance addr64_layout : Layout addr64.
Proof.
  split.
  - intros i j. unfold addr64. lia.
  - intros i. unfold addr64. change 1 with (2 ^ 1 - 1). rewrite land_mask by lia.
    change (2 ^ 1) with 2. replace (64 * _) with ((32 * (Z.of_nat i + 1)) * 2) by lia.
    apply Z_mod_mult.
  - intros i. unfold addr64. lia.
Qed.
