(* ===== verification/Baton.v ===== *)
(** [AffinityBaton] ([affinity_baton.h], bodies in [worker.cc]) as a
    transition system of any number of coroutines that await, post, reset and
    destroy one baton.  Each step performs at most one operation on the shared
    word [waiters_] (load, exchange or compare-exchange), so the steps of
    different coroutines interleave exactly where the code can.  A coroutine
    owns one awaiter frame, at [addr i]; the frame is live in [mem] from
    [await_suspend] until the coroutine continues, so a step that needs a dead
    frame is stuck. *)
From S2P Require Import Prelude Waiters.

Section Machine.
Context (addr : nat → Z).

(** Where a coroutine is.  The argument of the loop states is the value last
    read from [waiters_]. *)
Inductive bstate :=
| BIdle
| BReady               (* about to run await_ready *)
| BSuspend             (* about to run await_suspend *)
| BTest (old : Z)      (* the posted test at the head of the CAS loop *)
| BCas (old : Z)       (* about to compare-exchange old for the node *)
| BSuspended
| BChain (p : Z)       (* resume_chain with p still to be woken *)
| BResetTest (old : Z)
| BResetCas (old : Z).

Record baton := mkBaton {
  waiters_ : Z;
  mem : Memory;
  woken : list Wake;          (* every wake-up issued so far, in order *)
  co : nat → bstate;
  posted : bool               (* the last post, successful reset or destruction was a post *)
}.

Definition with_co (s : baton) (i : nat) (x : bstate) : baton :=
  mkBaton (waiters_ s) (mem s) (woken s) (<[i := x]> (co s)) (posted s).
Definition with_mem (s : baton) (m : Memory) : baton :=
  mkBaton (waiters_ s) m (woken s) (co s) (posted s).
Definition with_word (s : baton) (v : Z) : baton :=
  mkBaton v (mem s) (woken s) (co s) (posted s).
Definition with_posted (s : baton) (b : bool) : baton :=
  mkBaton (waiters_ s) (mem s) (woken s) (co s) b.
Definition with_wake (s : baton) (w : Wake) : baton :=
  mkBaton (waiters_ s) (mem s) (woken s ++ [w]) (co s) (posted s).

Definition ready (s : baton) : bool := flagged (waiters_ s).
Definition try_wait (s : baton) : bool := ready s.

(** The awaiter's node as [await_suspend] fills it. *)
Definition fill_node (i : nat) (worker_id : Z) (route : RouteFunc) : WaiterNode :=
  mkNode i worker_id route 0.

Inductive bstep (i : nat) : baton → baton → Prop :=
| step_await s : co s i = BIdle → bstep i s (with_co s i BReady)
| step_await_ready s : co s i = BReady →
    bstep i s (with_co s i (if ready s then BIdle else BSuspend))
| step_await_suspend s worker_id route : co s i = BSuspend →
    bstep i s (with_co (with_mem s (<[addr i := fill_node i worker_id route]> (mem s)))
                 i (BTest (waiters_ s)))
| step_already_posted s old : co s i = BTest old → flagged old = true →
    bstep i s (with_co (with_mem s (delete (addr i) (mem s))) i BIdle)
| step_link s old n : co s i = BTest old → flagged old = false → mem s !! addr i = Some n →
    bstep i s (with_co (with_mem s (<[addr i := set_next n (clear_flag old)]> (mem s)))
                 i (BCas old))
| step_cas_ok s old : co s i = BCas old → waiters_ s = old →
    bstep i s (with_co (with_word s (addr i)) i BSuspended)
| step_cas_fail s old : co s i = BCas old →
    bstep i s (with_co s i (BTest (waiters_ s)))
| step_post s : co s i = BIdle →
    bstep i s (with_co (with_posted (with_word s kPostedBit) true) i (BChain (clear_flag (waiters_ s))))
| step_resume s p n : co s i = BChain p → p ≠ 0 → mem s !! p = Some n →
    bstep i s (with_co (with_co (with_wake (with_mem s (delete p (mem s))) (wake n))
                 (n_handle n) BIdle) i (BChain (n_next n)))
| step_chain_done s : co s i = BChain 0 → bstep i s (with_co s i BIdle)
| step_reset s : co s i = BIdle → bstep i s (with_co s i (BResetTest (waiters_ s)))
| step_reset_done s old : co s i = BResetTest old → flagged old = false →
    bstep i s (with_co s i BIdle)
| step_reset_go s old : co s i = BResetTest old → flagged old = true →
    bstep i s (with_co s i (BResetCas old))
| step_reset_ok s old : co s i = BResetCas old → waiters_ s = old →
    bstep i s (with_co (with_posted (with_word s (clear_flag old)) false) i BIdle)
| step_reset_fail s old : co s i = BResetCas old →
    bstep i s (with_co s i (BResetTest (waiters_ s)))
| step_destroy s : co s i = BIdle →
    bstep i s (with_co (with_posted (with_word s 0) false) i (BChain (clear_flag (waiters_ s)))).

Definition baton_step (s s' : baton) : Prop := ∃ i, bstep i s s'.

Definition baton_init : baton := mkBaton 0 ∅ [] (λ _, BIdle) false.
Definition baton_reachable (s : baton) : Prop := steps baton_step baton_init s.

(** ** Invariant *)

(** The chain heads in flight: the baton's own ([None]) and the one each
    poster still has to wake. *)
Definition head_of (s : baton) (k : option nat) : Z :=
  match k with
  | None => clear_flag (waiters_ s)
  | Some j => match co s j with BChain p => p | _ => 0 end
  end.

(** Does the state of a coroutine keep its awaiter frame alive without
    waiting in a chain? *)
Definition linking (x : bstate) : bool :=
  match x with BTest _ | BCas _ => true | _ => false end.

(** [L k] lists the coroutines each head leads to: the chains are disjoint and
    hold exactly the suspended coroutines. *)
Definition chains (s : baton) (L : option nat → list nat) : Prop :=
  (∀ k, chain addr (mem s) (head_of s k) (L k)) ∧
  (∀ k, NoDup (L k)) ∧
  (∀ k k' i, i ∈ L k → i ∈ L k' → k = k') ∧
  (∀ i, co s i = BSuspended ↔ ∃ k, i ∈ L k).

(** A coroutine inside the push loop has a live frame; before the
    compare-exchange the frame links to the value read. *)
Definition link_ok (s : baton) (i : nat) : Prop :=
  linking (co s i) = true → ∃ n, mem s !! addr i = Some n ∧ n_handle n = i
    ∧ (∀ old, co s i = BCas old → flagged old = false ∧ n_next n = clear_flag old).

Record binv (s : baton) : Prop := {
  bi_word : flagged (waiters_ s) = true → waiters_ s = kPostedBit;
  bi_posted : posted s = flagged (waiters_ s);
  bi_chains : ∃ L, chains s L;
  bi_link : ∀ i, link_ok s i;
  bi_reset : ∀ i old, co s i = BResetCas old → flagged old = true
}.

Context {LY : Layout addr}.
#[local] Existing Instance addr_inj.

(** A step of [i] that neither starts nor ends a suspension and moves no chain
    head: memory may change at [i]'s own frame only. *)
Lemma chains_frame s s' i x L :
  chains s L → co s i ≠ BSuspended → x ≠ BSuspended → co s' = <[i := x]> (co s) →
  (∀ k, head_of s' k = head_of s k) →
  (mem s' = mem s ∨ (∃ n, mem s' = <[addr i := n]> (mem s)) ∨ mem s' = delete (addr i) (mem s)) →
  chains s' L.
Proof.
  intros (Hc & Hn & Hd & Hs) Hi Hx Hco Hh Hm.
  assert (∀ k, i ∉ L k) as Hni by (intros k Hin; apply Hi, Hs; eauto).
  split; [|split_and!]; try done.
  - intros k. rewrite Hh. destruct Hm as [->|[[n ->]| ->]];
      eauto using chain_frame_insert, chain_frame_delete.
  - intros j. rewrite Hco. destruct (decide (j = i)) as [->|Hne].
    + rewrite fn_lookup_insert. split; [done|]. intros [k Hk]. by destruct (Hni k).
    + rewrite fn_lookup_insert_ne by done. apply Hs.
Qed.

(** A compare-exchange that succeeds puts the node on top of the baton's
    chain. *)
Lemma chains_push s i old n L :
  chains s L → co s i = BCas old → waiters_ s = old → mem s !! addr i = Some n →
  n_handle n = i → n_next n = clear_flag old →
  chains (with_co (with_word s (addr i)) i BSuspended)
         (λ k, match k with None => i :: L None | _ => L k end).
Proof.
  intros (Hc & Hn & Hd & Hs) Hi Hw Hm Hh Hnext.
  assert (∀ k, i ∉ L k) as Hni.
  { intros k Hin. assert (co s i = BSuspended) by (apply Hs; eauto). congruence. }
  split; [|split_and!].
  - intros [j|]; simpl.
    + specialize (Hc (Some j)). simpl in Hc. destruct (decide (j = i)) as [->|Hne].
      * rewrite fn_lookup_insert. by rewrite Hi in Hc.
      * by rewrite fn_lookup_insert_ne.
    + rewrite (clear_addr addr). split; [done|]. exists n. split_and!; try done.
      rewrite Hnext, <- Hw. apply (Hc None).
  - intros [j|]; [done|]. by apply NoDup_cons.
  - intros [j|] [j'|] x Hx Hx'; [by eauto| | |done].
    + apply elem_of_cons in Hx' as [->|Hx']; [by destruct (Hni (Some j))|].
      by apply (Hd (Some j) None x).
    + apply elem_of_cons in Hx as [->|Hx]; [by destruct (Hni (Some j'))|].
      by apply (Hd None (Some j') x).
  - intros j. simpl. destruct (decide (j = i)) as [->|Hne].
    + rewrite fn_lookup_insert. split; [|done]. intros _. exists None. left.
    + rewrite fn_lookup_insert_ne by done. rewrite Hs. split.
      * intros [[k|] Hk]; [by exists (Some k)|]. exists None. by right.
      * intros [[k|] Hk]; [by exists (Some k)|]. exists None.
        by apply elem_of_cons in Hk as [->|?].
Qed.

(** An exchange moves the baton's whole chain to the poster. *)
Lemma chains_take s i v L :
  chains s L → co s i = BIdle → clear_flag v = 0 →
  chains (with_co (with_posted (with_word s v) (flagged v)) i (BChain (clear_flag (waiters_ s))))
         (λ k, match k with None => [] | Some j => if decide (j = i) then L None else L (Some j) end).
Proof.
  intros (Hc & Hn & Hd & Hs) Hi Hv.
  assert (L (Some i) = []) as Hnil.
  { specialize (Hc (Some i)). simpl in Hc. rewrite Hi in Hc. by eapply (chain_null addr). }
  split; [|split_and!].
  - intros [j|]; simpl; [|done]. case_decide as E.
    + subst. rewrite fn_lookup_insert. apply (Hc None).
    + rewrite fn_lookup_insert_ne by done. apply (Hc (Some j)).
  - intros [j|]; [case_decide; done|constructor].
  - intros [j|] [j'|] x; simpl; try by (intros H1 H2; apply not_elem_of_nil in H1 || apply not_elem_of_nil in H2).
    repeat case_decide; subst; try done; intros H1 H2;
      pose proof (Hd _ _ _ H1 H2); congruence.
  - intros j. simpl. destruct (decide (j = i)) as [->|Hne].
    + rewrite fn_lookup_insert. split; [done|]. intros [k Hk]. exfalso.
      assert (co s i = BSuspended); [|congruence]. apply Hs. destruct k as [k|]; [|by apply not_elem_of_nil in Hk].
      case_decide; eauto.
    + rewrite fn_lookup_insert_ne by done. rewrite Hs. split.
      * intros [[k|] Hk].
        -- exists (Some k). case_decide; [|done]. subst. rewrite Hnil in Hk. by apply not_elem_of_nil in Hk.
        -- exists (Some i). by rewrite decide_True.
      * intros [[k|] Hk]; [|by apply not_elem_of_nil in Hk]. case_decide; eauto.
Qed.

(** Waking the head of a poster's chain. *)
Lemma chains_resume s i p n L :
  chains s L → co s i = BChain p → p ≠ 0 → mem s !! p = Some n →
  p = addr (n_handle n) ∧ co s (n_handle n) = BSuspended ∧
  chains (with_co (with_co (with_wake (with_mem s (delete p (mem s))) (wake n))
            (n_handle n) BIdle) i (BChain (n_next n)))
         (λ k, if decide (k = Some i) then tail (L k) else L k).
Proof.
  intros (Hc & Hn & Hd & Hs) Hi Hp Hm.
  pose proof (Hc (Some i)) as Hci. simpl in Hci. rewrite Hi in Hci.
  apply (chain_head addr) in Hci as (j & l & n' & HL & -> & Hm' & <- & Hcl); [|done].
  rewrite Hm in Hm'. injection Hm' as <-. set (j := n_handle n) in *.
  assert (co s j = BSuspended) as Hj by (apply Hs; exists (Some i); rewrite HL; left).
  assert (j ≠ i) as Hne by congruence.
  assert (∀ k, k ≠ Some i → j ∉ L k) as Hnj.
  { intros k Hk Hin. apply Hk. eapply (Hd _ _ j); [done|]. rewrite HL. left. }
  pose proof (Hn (Some i)) as HnL. rewrite HL in HnL. apply NoDup_cons in HnL as [Hjl Hnl].
  split; [done|]. split; [done|]. split; [|split_and!].
  - intros k. simpl. case_decide as E.
    + subst k. simpl. rewrite fn_lookup_insert, HL. simpl. by apply (chain_frame_delete addr).
    + apply (chain_frame_delete addr); [by apply Hnj|]. specialize (Hc k). destruct k as [k|]; simpl in *; [|done].
      rewrite fn_lookup_insert_ne by congruence.
      destruct (decide (k = j)) as [->|]; [|by rewrite fn_lookup_insert_ne].
      rewrite fn_lookup_insert. by rewrite Hj in Hc.
  - intros k. case_decide; [|done]. subst. by rewrite HL.
  - assert (∀ k x, x ∈ (if decide (k = Some i) then tail (L k) else L k) → x ∈ L k) as Hsub.
    { intros k x. case_decide; [|done]. subst. rewrite HL. by right. }
    intros k k' x H1 H2. eauto.
  - intros x. simpl. destruct (decide (x = i)) as [->|Hxi].
    { rewrite fn_lookup_insert. split; [done|]. intros [k Hk]. exfalso.
      assert (co s i = BSuspended); [|congruence]. apply Hs. exists k.
      case_decide; [subst; rewrite HL in *; by right|done]. }
    rewrite fn_lookup_insert_ne by done. destruct (decide (x = j)) as [->|Hxj].
    { rewrite fn_lookup_insert. split; [done|]. intros [k Hk]. exfalso. case_decide.
      - subst. by rewrite HL in Hk.
      - by eapply Hnj. }
    rewrite fn_lookup_insert_ne by done. rewrite Hs. split; intros [k Hk]; exists k.
    + case_decide; [|done]. subst. rewrite HL in *. by apply elem_of_cons in Hk as [->|].
    + case_decide; [|done]. subst. rewrite HL in *. by right.
Qed.

Lemma link_frame s s' i :
  (∀ j, link_ok s j) → link_ok s' i →
  (∀ j, j ≠ i → linking (co s' j) = true →
        co s' j = co s j ∧ mem s' !! addr j = mem s !! addr j) →
  ∀ j, link_ok s' j.
Proof.
  intros H Hi Hf j. destruct (decide (j = i)) as [->|Hne]; [done|].
  intros Hl. destruct (Hf j Hne Hl) as [Ec Em]. unfold link_ok in *.
  rewrite Ec, Em. apply H. by rewrite <- Ec.
Qed.

Lemma binv_local s s' i x :
  binv s → co s i ≠ BSuspended → x ≠ BSuspended → co s' = <[i := x]> (co s) →
  (mem s' = mem s ∨ (∃ n, mem s' = <[addr i := n]> (mem s)) ∨ mem s' = delete (addr i) (mem s)) →
  (∀ p, co s i = BChain p → p = 0) → (∀ p, x ≠ BChain p) →
  (waiters_ s' = waiters_ s ∨ waiters_ s = kPostedBit ∧ waiters_ s' = 0) →
  posted s' = flagged (waiters_ s') →
  link_ok s' i → (∀ old, x = BResetCas old → flagged old = true) → binv s'.
Proof.
  intros [Hw Hpo [L HL] Hl Hr] Hi Hx Hco Hm Hp Hxp Hwd Hpo' Hlk Hrx. split.
  - destruct Hwd as [->|[_ ->]]; done.
  - done.
  - exists L. eapply chains_frame; try done. intros [j|]; simpl.
    + rewrite Hco. destruct (decide (j = i)) as [->|Hne].
      * rewrite fn_lookup_insert. destruct x; try (by destruct (Hxp p)); destruct (co s i) eqn:E; try done;
          symmetry; by apply Hp.
      * by rewrite fn_lookup_insert_ne.
    + destruct Hwd as [->|[-> ->]]; done.
  - eapply link_frame; [done..|]. intros j Hne _. rewrite Hco, fn_lookup_insert_ne by done.
    split; [done|]. destruct Hm as [->|[[n ->]| ->]]; [done|by rewrite lookup_insert_ne by
      (intros E; apply (inj addr) in E; done)|by rewrite lookup_delete_ne by
      (intros E; apply (inj addr) in E; done)].
  - intros j old. rewrite Hco. destruct (decide (j = i)) as [->|Hne].
    + rewrite fn_lookup_insert. apply Hrx.
    + rewrite fn_lookup_insert_ne by done. apply Hr.
Qed.

Lemma link_ok_none s i : linking (co s i) = false → link_ok s i.
Proof. intros E Hl. congruence. Qed.

(** Steps of [i] that leave the word and memory alone. *)
Lemma binv_goto s i x :
  binv s → co s i ≠ BSuspended → x ≠ BSuspended →
  (∀ p, co s i = BChain p → p = 0) → (∀ p, x ≠ BChain p) →
  (∀ old, x ≠ BCas old) → (linking x = true → linking (co s i) = true) →
  (∀ old, x = BResetCas old → flagged old = true) → binv (with_co s i x).
Proof.
  intros Hb Hi Hx Hp Hxp Hxc Hlx Hr. eapply binv_local with (i := i) (x := x); try done; [by left|by left|apply Hb|].
  unfold link_ok. simpl. rewrite fn_lookup_insert. intros Hl.
  destruct (bi_link _ Hb i (Hlx Hl)) as (n & ? & ? & _). exists n. split_and!; try done.
  intros old E. by destruct (Hxc old).
Qed.

Lemma binv_take s i v :
  binv s → co s i = BIdle → clear_flag v = 0 → (flagged v = true → v = kPostedBit) →
  binv (with_co (with_posted (with_word s v) (flagged v)) i (BChain (clear_flag (waiters_ s)))).
Proof.
  intros [Hw Hpo [L HL] Hl Hr] Hi Hv Hf. split; [done|done| | |].
  - eexists. by apply chains_take.
  - eapply (link_frame s); [done| |]; simpl.
    + apply link_ok_none. simpl. by rewrite fn_lookup_insert.
    + intros j Hne _. by rewrite fn_lookup_insert_ne.
  - intros j old. simpl. destruct (decide (j = i)) as [->|Hne].
    + by rewrite fn_lookup_insert.
    + rewrite fn_lookup_insert_ne by done. apply Hr.
Qed.

Lemma binv_push s i old :
  binv s → co s i = BCas old → waiters_ s = old →
  binv (with_co (with_word s (addr i)) i BSuspended).
Proof.
  intros [Hw Hpo [L HL] Hl Hr] Hi Hwo. destruct (Hl i) as (n & Hn & Hh & Hc); [by rewrite Hi|].
  destruct (Hc old Hi) as [Hf Hnx]. split; simpl.
  - by rewrite (addr_not_flagged addr).
  - by rewrite (addr_not_flagged addr), Hpo, Hwo.
  - eexists. by eapply chains_push.
  - eapply (link_frame s); [done| |]; simpl.
    + apply link_ok_none. simpl. by rewrite fn_lookup_insert.
    + intros j Hne _. by rewrite fn_lookup_insert_ne.
  - intros j old'. destruct (decide (j = i)) as [->|Hne].
    + by rewrite fn_lookup_insert.
    + rewrite fn_lookup_insert_ne by done. apply Hr.
Qed.

Lemma binv_resume s i p n :
  binv s → co s i = BChain p → p ≠ 0 → mem s !! p = Some n →
  binv (with_co (with_co (with_wake (with_mem s (delete p (mem s))) (wake n))
          (n_handle n) BIdle) i (BChain (n_next n))).
Proof.
  intros [Hw Hpo [L HL] Hl Hr] Hi Hp Hm.
  destruct (chains_resume s i p n L) as (-> & Hj & HL'); try done.
  assert (n_handle n ≠ i) by congruence.
  split; simpl; [done|done| | |].
  - by eexists.
  - eapply (link_frame s); [done| |]; simpl.
    + apply link_ok_none. simpl. by rewrite fn_lookup_insert.
    + intros j Hne. rewrite fn_lookup_insert_ne by done.
      destruct (decide (j = n_handle n)) as [->|Hne']; [by rewrite fn_lookup_insert|].
      rewrite fn_lookup_insert_ne by done. intros _. split; [done|].
      by rewrite lookup_delete_ne by (intros E; apply (inj addr) in E; done).
  - intros j old. destruct (decide (j = i)) as [->|Hne]; [by rewrite fn_lookup_insert|].
    rewrite fn_lookup_insert_ne by done.
    destruct (decide (j = n_handle n)) as [->|Hne']; [by rewrite fn_lookup_insert|].
    rewrite fn_lookup_insert_ne by done. apply Hr.
Qed.

Lemma baton_step_inv s s' : binv s → baton_step s s' → binv s'.
Proof.
  intros Hb [i Hs]. destruct Hs as
    [s Hi|s Hi|s wk rt Hi|s old Hi Hf|s old n Hi Hf Hn|s old Hi Hw|s old Hi|s Hi
    |s p n Hi Hp Hn|s Hi|s Hi|s old Hi Hf|s old Hi Hf|s old Hi Hw|s old Hi|s Hi].
  - apply binv_goto; try done; by rewrite Hi.
  - apply binv_goto; try done; rewrite ?Hi; try by destruct (ready s).
  - eapply binv_local with (i := i) (x := BTest (waiters_ s)); try done; try (by rewrite Hi); simpl.
    + right; left. by eexists.
    + by left.
    + apply Hb.
    + intros _. exists (fill_node i wk rt). simpl. rewrite lookup_insert_eq, fn_lookup_insert. done.
  - eapply binv_local with (i := i) (x := BIdle); try done; try (by rewrite Hi); simpl; [by right; right|by left|apply Hb|].
    apply link_ok_none. simpl. by rewrite fn_lookup_insert.
  - destruct (bi_link _ Hb i) as (n' & Hn' & Hh & _); [by rewrite Hi|].
    rewrite Hn in Hn'. injection Hn' as <-.
    eapply binv_local with (i := i) (x := BCas old); try done; try (by rewrite Hi); simpl.
    + right; left. by eexists.
    + by left.
    + apply Hb.
    + intros _. eexists. simpl. rewrite lookup_insert_eq, fn_lookup_insert.
      split; [done|]. split; [done|]. by intros old' [= <-].
  - by eapply binv_push.
  - apply binv_goto; try done; by rewrite Hi.
  - by apply (binv_take s i kPostedBit).
  - by apply binv_resume.
  - apply binv_goto; try done; rewrite Hi; [done|]. by intros p [= <-].
  - apply binv_goto; try done; by rewrite Hi.
  - apply binv_goto; try done; by rewrite Hi.
  - apply binv_goto; try done; rewrite ?Hi; try done. by intros ? [= <-].
  - pose proof (bi_reset _ Hb i old Hi) as Hf. rewrite <- Hw in Hf.
    pose proof (bi_word _ Hb Hf) as Hk.
    eapply binv_local with (i := i) (x := BIdle); try done; try (by rewrite Hi); simpl; [by left| | |].
    + right. by rewrite <- Hw, Hk.
    + by rewrite <- Hw, Hk.
    + apply link_ok_none. simpl. by rewrite fn_lookup_insert.
  - apply binv_goto; try done; by rewrite Hi.
  - by apply (binv_take s i 0).
Qed.

Lemma baton_reachable_inv s : baton_reachable s → binv s.
Proof.
  apply steps_invariant; [|apply baton_step_inv]. split; try done.
  exists (λ _, []). split; [|split_and!]; try done.
  - by intros [j|].
  - intros k; constructor.
  - intros k k' i H. by apply not_elem_of_nil in H.
  - intros i. simpl. split; [done|]. intros [? H]. by apply not_elem_of_nil in H.
Qed.

(** [resume_chain] run to its end by the poster alone. *)
Lemma drain_chain l s j p :
  chain addr (mem s) p l → co s j = BChain p → j ∉ l → NoDup l →
  ∃ ns s', steps (bstep j) s s' ∧ n_handle <$> ns = l ∧ co s' j = BIdle
    ∧ waiters_ s' = waiters_ s ∧ woken s' = woken s ++ (wake <$> ns)
    ∧ Forall (λ n, mem s !! addr (n_handle n) = Some n) ns
    ∧ ∀ i, i ≠ j → co s' i = (if decide (i ∈ l) then BIdle else co s i).
Proof.
  revert s p. induction l as [|x l IH]; intros s p Hc Hj Hjl Hnd.
  - simpl in Hc. subst p. exists [], (with_co s j BIdle). split; [by apply steps_once; constructor|].
    split_and!; try done; simpl; [by rewrite fn_lookup_insert|by rewrite app_nil_r|].
    intros i Hi. by rewrite fn_lookup_insert_ne.
  - destruct Hc as (-> & n & Hm & Hx & Hc). apply NoDup_cons in Hnd as [Hxl Hnd].
    apply not_elem_of_cons in Hjl as [Hjx Hjl]. pose proof (addr_pos x).
    set (s1 := with_co (with_co (with_wake (with_mem s (delete (addr x) (mem s))) (wake n))
                 (n_handle n) BIdle) j (BChain (n_next n))).
    destruct (IH s1 (n_next n)) as (ns & s' & Hst & Hns & Hco & Hw & Hwk & Hfa & Hot); try done.
    { by apply (chain_frame_delete addr). }
    { simpl. by rewrite fn_lookup_insert. }
    exists (n :: ns), s'. split; [eapply steps_trans; [apply steps_once, step_resume; done || lia|done]|].
    split_and!; try done.
    + by rewrite fmap_cons, Hx, Hns.
    + rewrite Hwk. simpl. by rewrite <- app_assoc.
    + constructor; [by rewrite Hx|]. eapply Forall_impl; [done|]. intros n' Hn'.
      simpl in Hn'. by apply lookup_delete_Some in Hn' as [_ ?].
    + intros i Hi. rewrite (Hot i Hi). simpl. rewrite fn_lookup_insert_ne by done. rewrite Hx.
      destruct (decide (i = x)) as [->|Hix].
      * rewrite fn_lookup_insert. repeat case_decide; try done. set_solver.
      * rewrite fn_lookup_insert_ne by done. repeat case_decide; set_solver.
Qed.
End Machine.

(** ** Properties *)

(** C4: no wake-up of a baton is lost.  Once a post was made and neither a reset
    nor the destruction came after it, the baton stays ready, every coroutine
    that is suspended on it is on the chain of a poster that still has to wake
    it, and when no poster has waiters left nobody is suspended; whatever the
    interleaving of awaits, posts, resets and destructions. *)
Theorem baton_no_lost_wakeup (addr : nat → Z) (s : baton) :
  Layout addr → baton_reachable addr s → posted s = true →
  ready s = true
  ∧ (∀ i, co s i = BSuspended → ∃ j p l, co s j = BChain p ∧ chain addr (mem s) p l ∧ i ∈ l)
  ∧ ((∀ j p, co s j = BChain p → p = 0) → ∀ i, co s i ≠ BSuspended).
Proof.
  intros LY Hr Hp. destruct (baton_reachable_inv addr s Hr) as [Hw Hpo (L & Hc & _ & _ & Hs) _ _].
  assert (flagged (waiters_ s) = true) as Hf by (by rewrite <- Hpo). specialize (Hw Hf).
  assert (∀ i, co s i = BSuspended → ∃ j p l, co s j = BChain p ∧ chain addr (mem s) p l ∧ i ∈ l) as H.
  { intros i Hi. apply Hs in Hi as [k Hk]. specialize (Hc k). destruct k as [j|]; simpl in Hc.
    - destruct (co s j) eqn:E; try (apply (chain_null addr) in Hc; rewrite Hc in Hk; by apply not_elem_of_nil in Hk). eauto 10.
    - rewrite Hw in Hc. apply (chain_null addr) in Hc. rewrite Hc in Hk. by apply not_elem_of_nil in Hk. }
  split; [done|]. split; [exact H|]. intros Hq i Hi. destruct (H i Hi) as (j & p & l & Hj & Hch & Hin).
  rewrite (Hq j p Hj) in Hch. apply (chain_null addr) in Hch. subst l. by apply not_elem_of_nil in Hin.
Qed.

(** A poster only follows live nodes and only resumes coroutines that are
    suspended on the baton: the frame it is about to wake exists, belongs to a
    suspended coroutine, and no other poster can reach it. *)
Theorem baton_wakes_suspended_once (addr : nat → Z) (s : baton) (j : nat) (p : Z) :
  Layout addr → baton_reachable addr s → co s j = BChain p → p ≠ 0 →
  ∃ n, mem s !! p = Some n ∧ p = addr (n_handle n) ∧ co s (n_handle n) = BSuspended
    ∧ clear_flag (waiters_ s) ≠ p ∧ ∀ j', co s j' = BChain p → j' = j.
Proof.
  intros LY Hr Hj Hp. destruct (baton_reachable_inv addr s Hr) as [_ _ (L & Hc & _ & Hd & Hs) _ _].
  pose proof (Hc (Some j)) as Hcj. simpl in Hcj. rewrite Hj in Hcj.
  apply (chain_head addr) in Hcj as (i & l & n & HL & -> & Hm & Hh & _); [|done].
  assert (∀ k, head_of s k = addr i → i ∈ L k) as Hin.
  { intros k E. specialize (Hc k). rewrite E in Hc.
    apply (chain_head addr) in Hc as (i' & l' & n' & -> & E' & _); [|done].
    apply (addr_inj LY) in E' as ->. left. }
  exists n. split_and!; try done; try by subst.
  - rewrite Hh. apply Hs. exists (Some j). rewrite HL. left.
  - intros E. assert (None = Some j); [|done]. apply (Hd _ _ i); [by apply Hin|]. rewrite HL. left.
  - intros j' Hj'. assert (Some j' = Some j) as [=]; [|done].
    apply (Hd _ _ i); [apply Hin; simpl; by rewrite Hj'|]. rewrite HL. left.
Qed.

(** A post, run to its end, wakes everybody that waits on the baton: it
    terminates, leaves the baton posted, resumes each coroutine of the chain
    exactly once in stack order through the route saved in its node, and when
    no other poster is at work nobody stays suspended. *)
Theorem baton_post_wakes_all (addr : nat → Z) (s : baton) (j : nat) :
  Layout addr → baton_reachable addr s → co s j = BIdle →
  ∃ ns s', steps (bstep addr j) s s' ∧ co s' j = BIdle ∧ ready s' = true
    ∧ woken s' = woken s ++ (wake <$> ns) ∧ NoDup (n_handle <$> ns)
    ∧ Forall (λ n, mem s !! addr (n_handle n) = Some n ∧ co s (n_handle n) = BSuspended) ns
    ∧ ((∀ k p, co s k = BChain p → p = 0) → ∀ i, co s i = BSuspended → co s' i = BIdle).
Proof.
  intros LY Hr Hj. destruct (baton_reachable_inv addr s Hr) as [_ _ (L & Hc & Hn & Hd & Hs) _ _].
  set (s1 := with_co (with_posted (with_word s kPostedBit) true) j (BChain (clear_flag (waiters_ s)))).
  assert (j ∉ L None) as Hjn.
  { intros Hin. assert (co s j = BSuspended); [apply Hs; eauto|congruence]. }
  destruct (drain_chain addr (L None) s1 j (clear_flag (waiters_ s)))
    as (ns & s' & Hst & Hns & Hco & Hw & Hwk & Hfa & Hot); try done.
  { apply (Hc None). }
  { simpl. by rewrite fn_lookup_insert. }
  exists ns, s'. split; [eapply steps_trans; [apply steps_once, step_post; done|done]|].
  split_and!; try done.
  - unfold ready. by rewrite Hw.
  - by rewrite Hns.
  - apply Forall_forall. intros n Hin. rewrite Forall_forall in Hfa. split; [by apply Hfa|].
    apply Hs. exists None. rewrite <- Hns. by apply list_elem_of_fmap_2.
  - intros Hq i Hi. pose proof Hi as Hi'. apply Hs in Hi as [[k|] Hk].
    + specialize (Hc (Some k)). simpl in Hc. destruct (co s k) eqn:E;
        try by (rewrite (chain_null addr _ _ Hc) in Hk; apply not_elem_of_nil in Hk).
      rewrite (Hq _ _ E) in Hc. rewrite (chain_null addr _ _ Hc) in Hk. by apply not_elem_of_nil in Hk.
    + rewrite (Hot i) by congruence. by rewrite decide_True.
Qed.

(** Run one more step of coroutine [i]. *)
Ltac run i c := eapply steps_trans; [apply steps_once; exists i; eapply c; reflexivity|].

Ltac run_waiter :=
  run 1%nat step_await; run 1%nat step_await_ready;
  run 1%nat (λ s, step_await_suspend addr64 1 s 3 (Some 7));
  run 1%nat step_link; run 1%nat step_cas_ok.
Ltac idle_elsewhere :=
  intros j Hj; simpl; repeat (rewrite fn_lookup_insert_ne by lia); done.

(** Runs: coroutine 1, on worker 3 with a route, suspends on the baton; then
    coroutine 0 posts it and still has to wake coroutine 1; then it has. *)
Lemma example_waiting :
  ∃ s, baton_reachable addr64 s ∧ co s 1%nat = BSuspended ∧ ∀ j, j ≠ 1%nat → co s j = BIdle.
Proof.
  eexists. split; [unfold baton_reachable; run_waiter; apply steps_refl|].
  split; [done|]. idle_elsewhere.
Qed.

Lemma example_posting :
  ∃ s, baton_reachable addr64 s ∧ co s 0%nat = BChain (addr64 1).
Proof.
  eexists. split; [unfold baton_reachable; run_waiter; run 0%nat step_post; apply steps_refl|].
  done.
Qed.

Lemma example_posted :
  ∃ s, baton_reachable addr64 s ∧ posted s = true ∧ woken s = [Routed 7 3 1] ∧ ∀ j, co s j = BIdle.
Proof.
  eexists. split.
  - unfold baton_reachable. run_waiter. run 0%nat step_post.
    eapply steps_trans; [apply steps_once; exists 0%nat; eapply step_resume;
      [reflexivity|by vm_compute|reflexivity]|].
    run 0%nat step_chain_done. apply steps_refl.
  - split; [done|]. split; [done|]. by intros [|[|j]].
Qed.

Lemma baton_no_lost_wakeup_witness :
  ∃ s, woken s = [Routed 7 3 1] ∧ posted s = true ∧ ∀ i, co s i ≠ BSuspended.
Proof.
  destruct example_posted as (s & Hr & Hp & Hw & Hi). exists s. split; [exact Hw|]. split; [exact Hp|].
  apply (baton_no_lost_wakeup addr64 s addr64_layout Hr Hp).
  intros j p E. rewrite Hi in E. discriminate E.
Defined.

Lemma baton_wakes_suspended_once_witness :
  ∃ s n, mem s !! addr64 1 = Some n ∧ co s (n_handle n) = BSuspended.
Proof.
  destruct example_posting as (s & Hr & H0). exists s.
  destruct (baton_wakes_suspended_once addr64 s 0 (addr64 1) addr64_layout Hr H0)
    as (n & Hm & _ & Hs & _); [discriminate|]. exists n. split; assumption.
Defined.

Lemma baton_post_wakes_all_witness :
  ∃ s s', co s 1%nat = BSuspended ∧ steps (bstep addr64 0) s s' ∧ co s' 1%nat = BIdle.
Proof.
  destruct example_waiting as (s & Hr & H1 & Hj).
  destruct (baton_post_wakes_all addr64 s 0 addr64_layout Hr (Hj 0%nat (O_S 0)))
    as (ns & s' & Hst & _ & _ & _ & _ & _ & Hall).
  exists s, s'. split; [exact H1|]. split; [exact Hst|]. apply Hall; [|exact H1].
  intros k p E. destruct (decide (k = 1%nat)) as [->|Hk]; [congruence|].
  rewrite (Hj k Hk) in E. discriminate E.
Defined.
