(* ===== verification/Mutex.v ===== *)
(** [AffinityMutex] ([affinity_mutex.h], [unlock] in [worker.cc]) as a
    transition system of coroutines that lock and unlock one mutex.  The word
    [state_] is 0 when free, and otherwise the lock flag in bit 0 together with
    the top of the stack of waiters.  One step performs at most one operation
    on that word. *)
From S2P Require Import Prelude Waiters.

Definition kLockedFlag : Z := 1.
Definition extract_waiters (state : Z) : Z := clear_flag state.

Section Machine.
Context (addr : nat → Z).

Inductive mstate :=
| MIdle
| MSuspend                       (* await_ready failed; about to run await_suspend *)
| MTest (old : Z)                (* head of the CAS loop of await_suspend *)
| MCas (old : Z)                 (* about to push the node over old *)
| MSuspended
| MHeld                          (* past await_resume: the coroutine has the lock *)
| MUnlock (old : Z)              (* head of the loop of unlock *)
| MUnlockCas (old new w : Z)     (* about to exchange old for new and wake w *)
| MWake (w : Z).                 (* the word is released; w is still to be woken *)

Record mutex := mkMutex {
  state_ : Z;
  mmem : Memory;
  mwoken : list Wake;
  last_handoffs : nat;      (* unlocks that handed over to the only waiter *)
  mco : nat → mstate
}.

Definition m_co (s : mutex) i x : mutex :=
  mkMutex (state_ s) (mmem s) (mwoken s) (last_handoffs s) (<[i := x]> (mco s)).
Definition m_mem (s : mutex) m : mutex :=
  mkMutex (state_ s) m (mwoken s) (last_handoffs s) (mco s).
Definition m_word (s : mutex) v : mutex :=
  mkMutex v (mmem s) (mwoken s) (last_handoffs s) (mco s).
Definition m_wake (s : mutex) w : mutex :=
  mkMutex (state_ s) (mmem s) (mwoken s ++ [w]) (last_handoffs s) (mco s).
Definition m_count (s : mutex) (b : bool) : mutex :=
  mkMutex (state_ s) (mmem s) (mwoken s) (if b then S (last_handoffs s) else last_handoffs s) (mco s).

(** The word [unlock] stores, from the node of the waiter it pops. *)
Definition unlock_word (next : Z) : Z :=
  if next =? 0 then 0 else Z.lor next kLockedFlag.

(** [w] is a waiter with nobody behind it. *)
Definition only_waiter (s : mutex) (w : Z) : bool :=
  negb (w =? 0) && match mmem s !! w with Some n => n_next n =? 0 | None => false end.

Inductive mstep (i : nat) : mutex → mutex → Prop :=
| lock_ready_ok s : mco s i = MIdle → state_ s = 0 →
    mstep i s (m_co (m_word s kLockedFlag) i MHeld)
| lock_ready_no s : mco s i = MIdle → state_ s ≠ 0 →
    mstep i s (m_co s i MSuspend)
| lock_suspend s worker_id route : mco s i = MSuspend →
    mstep i s (m_co (m_mem s (<[addr i := mkNode i worker_id route 0]> (mmem s)))
                 i (MTest (state_ s)))
| lock_free_ok s : mco s i = MTest 0 → state_ s = 0 →
    mstep i s (m_co (m_word (m_mem s (delete (addr i) (mmem s))) kLockedFlag) i MHeld)
| lock_free_fail s : mco s i = MTest 0 → state_ s ≠ 0 →
    mstep i s (m_co s i (MTest (state_ s)))
| lock_link s old n : mco s i = MTest old → old ≠ 0 → mmem s !! addr i = Some n →
    mstep i s (m_co (m_mem s (<[addr i := set_next n (clear_flag old)]> (mmem s))) i (MCas old))
| lock_push_ok s old : mco s i = MCas old → state_ s = old →
    mstep i s (m_co (m_word s (Z.lor (addr i) kLockedFlag)) i MSuspended)
| lock_push_fail s old : mco s i = MCas old →
    mstep i s (m_co s i (MTest (state_ s)))
| unlock_load s : mco s i = MHeld → mstep i s (m_co s i (MUnlock (state_ s)))
| unlock_none s old : mco s i = MUnlock old → extract_waiters old = 0 →
    mstep i s (m_co s i (MUnlockCas old 0 0))
| unlock_some s old n : mco s i = MUnlock old → extract_waiters old ≠ 0 →
    mmem s !! extract_waiters old = Some n →
    mstep i s (m_co s i (MUnlockCas old (unlock_word (n_next n)) (extract_waiters old)))
| unlock_ok s old new w : mco s i = MUnlockCas old new w → state_ s = old →
    mstep i s (m_co (m_count (m_word s new) (only_waiter s w)) i (MWake w))
| unlock_fail s old new w : mco s i = MUnlockCas old new w →
    mstep i s (m_co s i (MUnlock (state_ s)))
| unlock_done s : mco s i = MWake 0 → mstep i s (m_co s i MIdle)
| unlock_wake s w n : mco s i = MWake w → w ≠ 0 → mmem s !! w = Some n →
    mstep i s (m_co (m_co (m_wake (m_mem s (delete w (mmem s))) (wake n))
                 (n_handle n) MHeld) i MIdle).

(** The destructor: the waiters are resumed inline, in stack order. *)
Fixpoint resume_inline (fuel : nat) (mem : Memory) (p : Z) : option (list Wake) :=
  if p =? 0 then Some []
  else match fuel with
       | O => None
       | S f => n ← mem !! p; ws ← resume_inline f mem (n_next n); Some (Inline (n_handle n) :: ws)
       end.
Definition mutex_destroy (fuel : nat) (s : mutex) : option (list Wake) := resume_inline fuel (mmem s) (extract_waiters (state_ s)).

Definition mutex_step (s s' : mutex) : Prop := ∃ i, mstep i s s'.
Definition mutex_init : mutex := mkMutex 0 ∅ [] 0 (λ _, MIdle).
Definition mutex_reachable (s : mutex) : Prop := steps mutex_step mutex_init s.

(** ** Invariant, as long as no lock was handed to an only waiter *)

(** The coroutine that owns the lock: it holds it, is releasing it, or is
    handing it over. *)
Definition owner (x : mstate) : bool :=
  match x with
  | MHeld | MUnlock _ | MUnlockCas _ _ _ => true
  | MWake w => negb (w =? 0)
  | _ => false
  end.

(** The waiter being handed the lock by [x]. *)
Definition in_transit (x : mstate) : Z := match x with MWake w => w | _ => 0 end.

(** A node that waits for the mutex. *)
Definition waiting_node (s : mutex) (p : Z) (n : WaiterNode) : Prop :=
  mmem s !! p = Some n ∧ p = addr (n_handle n) ∧ mco s (n_handle n) = MSuspended.

(** What the local variables of a coroutine promise. *)
Definition local_ok (s : mutex) (i : nat) : Prop :=
  match mco s i with
  | MTest _ => ∃ n, mmem s !! addr i = Some n ∧ n_handle n = i
  | MCas old => old ≠ 0 ∧ ∃ n, mmem s !! addr i = Some n ∧ n_handle n = i ∧ n_next n = clear_flag old
  | MUnlock old => extract_waiters old ≠ 0 → ∃ n, waiting_node s (extract_waiters old) n
  | MUnlockCas old new w => w = extract_waiters old ∧
      (w = 0 → new = 0) ∧ (w ≠ 0 → ∃ n, waiting_node s w n ∧ new = unlock_word (n_next n))
  | MWake w => w ≠ 0 → ∃ n, waiting_node s w n
  | _ => True
  end.

Record minv (s : mutex) : Prop := {
  mi_stack : ∃ l,
    chain addr (mmem s) (extract_waiters (state_ s)) l ∧ NoDup l ∧
    (∀ i, mco s i = MSuspended ↔ i ∈ l ∨ ∃ j, in_transit (mco s j) = addr i) ∧
    (∀ i j, in_transit (mco s j) = addr i → i ∉ l);
  mi_flag : state_ s = 0 ∨ flagged (state_ s) = true;
  mi_owner : (∃ i, owner (mco s i) = true) ↔ state_ s ≠ 0;
  mi_one : ∀ i j, owner (mco s i) = true → owner (mco s j) = true → i = j;
  mi_local : ∀ i, local_ok s i
}.

Context {LY : Layout addr}.
#[local] Existing Instance addr_inj.

Lemma resume_inline_chain mem p l fuel :
  chain addr mem p l → (length l ≤ fuel)%nat → resume_inline fuel mem p = Some (Inline <$> l).
Proof.
  revert p fuel. induction l as [|i l IH]; intros p fuel; [intros ->; by destruct fuel|].
  intros (-> & n & Hn & Hh & Hc) Hf. destruct fuel as [|fuel]; simpl in Hf; [lia|]. pose proof (addr_pos i).
  simpl. rewrite (proj2 (Z.eqb_neq _ 0)), Hn by lia. simpl. rewrite (IH (n_next n) fuel) by (done || lia). simpl. by rewrite Hh.
Qed.

Lemma unlock_word_pos next : next ≠ 0 → unlock_word next ≠ 0.
Proof.
  intros Hn. unfold unlock_word. destruct (Z.eqb_spec next 0); [done|]. by intros [? _]%Z.lor_eq_0_iff.
Qed.

Lemma in_transit_owner x : in_transit x ≠ 0 → owner x = true.
Proof. destruct x; simpl; try done. intros. by destruct (Z.eqb_spec w 0). Qed.

(** The local promises of [j] survive a step of another coroutine [i] that is
    not suspended and writes no frame but its own. *)
Lemma local_ok_frame s s' i j :
  j ≠ i → mco s' j = mco s j → mco s i ≠ MSuspended →
  (∀ k, k ≠ i → mco s k = MSuspended → mco s' k = MSuspended) →
  (∀ k, k ≠ i → mmem s' !! addr k = mmem s !! addr k) →
  local_ok s j → local_ok s' j.
Proof.
  intros Hne Hj Hi Hsus Hmem.
  assert (∀ p n, waiting_node s p n → waiting_node s' p n) as Hw.
  { intros p n (Hm & -> & Hs). assert (n_handle n ≠ i) by congruence.
    split_and!; [by rewrite Hmem|done|by apply Hsus]. }
  unfold local_ok. rewrite Hj. destruct (mco s j); try done.
  - by rewrite Hmem.
  - by rewrite Hmem.
  - intros H H0. destruct (H H0) as [n Hn]. eauto.
  - intros (? & ? & H). split_and!; try done. intros Hz. destruct (H Hz) as (n & ? & ?). eauto.
  - intros H H0. destruct (H H0) as [n Hn]. eauto.
Qed.

Lemma mem_change_other (m m' : Memory) i :
  (m' = m ∨ (∃ n, m' = <[addr i := n]> m) ∨ m' = delete (addr i) m) →
  ∀ k, k ≠ i → m' !! addr k = m !! addr k.
Proof.
  intros [->|[[n ->]| ->]] k Hk; [done|..].
  - by rewrite lookup_insert_ne by (intros E; apply (inj addr) in E; done).
  - by rewrite lookup_delete_ne by (intros E; apply (inj addr) in E; done).
Qed.

(** The chain of waiters survives a change of a frame that is not in it. *)
Lemma chain_other (m m' : Memory) i p l :
  (m' = m ∨ (∃ n, m' = <[addr i := n]> m) ∨ m' = delete (addr i) m) →
  i ∉ l → chain addr m p l → chain addr m' p l.
Proof.
  intros [->|[[n ->]| ->]]; eauto using chain_frame_insert, chain_frame_delete.
Qed.

(** A step of [i] that leaves the word alone, neither acquires nor releases. *)
Lemma minv_local s s' i x :
  minv s → mco s i ≠ MSuspended → x ≠ MSuspended → mco s' = <[i := x]> (mco s) →
  (mmem s' = mmem s ∨ (∃ n, mmem s' = <[addr i := n]> (mmem s)) ∨ mmem s' = delete (addr i) (mmem s)) →
  state_ s' = state_ s → owner x = owner (mco s i) →
  in_transit x = 0 → in_transit (mco s i) = 0 → local_ok s' i → minv s'.
Proof.
  intros [(l & Hc & Hnd & Hs & Ht) Hf Ho H1 Hl] Hi Hx Hco Hm Hw How Htx Hti Hlk.
  assert (i ∉ l) as Hil by (intros Hin; apply Hi, Hs; by left).
  assert (∀ j, in_transit (mco s' j) = in_transit (mco s j)) as Etr.
  { intros j. rewrite Hco. destruct (decide (j = i)) as [->|].
    - by rewrite fn_lookup_insert, Htx.
    - by rewrite fn_lookup_insert_ne. }
  assert (∀ j, owner (mco s' j) = owner (mco s j)) as Eow.
  { intros j. rewrite Hco. destruct (decide (j = i)) as [->|].
    - by rewrite fn_lookup_insert.
    - by rewrite fn_lookup_insert_ne. }
  assert (∀ j, mco s' j = MSuspended ↔ mco s j = MSuspended) as Esu.
  { intros j. rewrite Hco. destruct (decide (j = i)) as [->|].
    - by rewrite fn_lookup_insert.
    - by rewrite fn_lookup_insert_ne. }
  split.
  - exists l. rewrite Hw. split_and!; [by eapply chain_other|done| |].
    + intros j. rewrite Esu, Hs. by setoid_rewrite Etr.
    + intros j k. rewrite Etr. apply Ht.
  - by rewrite Hw.
  - rewrite Hw, <- Ho. by setoid_rewrite Eow.
  - intros j k. rewrite !Eow. apply H1.
  - intros j. destruct (decide (j = i)) as [->|Hne]; [done|].
    eapply local_ok_frame with (i := i) (s := s); try done.
    + by rewrite Hco, fn_lookup_insert_ne.
    + intros k _. apply Esu.
    + by apply mem_change_other.
Qed.

(** Taking the free lock. *)
Lemma minv_acquire s s' i :
  minv s → state_ s = 0 → mco s i ≠ MSuspended → mco s' = <[i := MHeld]> (mco s) →
  (mmem s' = mmem s ∨ (∃ n, mmem s' = <[addr i := n]> (mmem s)) ∨ mmem s' = delete (addr i) (mmem s)) →
  state_ s' = kLockedFlag → minv s'.
Proof.
  intros [(l & Hc & Hnd & Hs & Ht) Hf Ho H1 Hl] Hz Hi Hco Hm Hw.
  assert (∀ j, owner (mco s j) = false) as Hno.
  { intros j. destruct (owner (mco s j)) eqn:E; [|done]. exfalso. apply Ho in Hz; eauto. }
  rewrite Hz in Hc. apply (chain_null addr) in Hc as ->.
  assert (∀ j, in_transit (mco s j) = 0) as Hnt.
  { intros j. destruct (decide (in_transit (mco s j) = 0)) as [|E]; [done|].
    apply in_transit_owner in E. by rewrite Hno in E. }
  assert (∀ j, in_transit (mco s' j) = 0) as Hnt'.
  { intros j. rewrite Hco. destruct (decide (j = i)) as [->|].
    - by rewrite fn_lookup_insert.
    - by rewrite fn_lookup_insert_ne. }
  assert (∀ j, mco s j ≠ MSuspended) as Hns.
  { intros j E. apply Hs in E as [E|[k E]]; [by apply not_elem_of_nil in E|].
    rewrite Hnt in E. pose proof (addr_pos j). lia. }
  split.
  - exists []. rewrite Hw. split_and!; [done|constructor| |].
    + intros j. rewrite Hco. split.
      * destruct (decide (j = i)) as [->|]; [by rewrite fn_lookup_insert|].
        rewrite fn_lookup_insert_ne by done. by intros ?%Hns.
      * intros [E|[k E]]; [by apply not_elem_of_nil in E|].
        rewrite <- Hco, Hnt' in E. pose proof (addr_pos j). lia.
    + intros j k _. apply not_elem_of_nil.
  - right. by rewrite Hw.
  - rewrite Hw, Hco. split; [done|]. intros _. exists i. by rewrite fn_lookup_insert.
  - intros j k. rewrite Hco. destruct (decide (j = i)) as [->|], (decide (k = i)) as [->|]; try done;
      rewrite ?fn_lookup_insert, ?fn_lookup_insert_ne, ?Hno by done; done.
  - intros j. destruct (decide (j = i)) as [->|Hne].
    + unfold local_ok. by rewrite Hco, fn_lookup_insert.
    + eapply local_ok_frame with (i := i) (s := s); try done.
      * by rewrite Hco, fn_lookup_insert_ne.
      * by intros k _ ?%Hns.
      * by apply mem_change_other.
Qed.

(** Only the owner can have a waiter in transit. *)
Lemma transit_unique s i : minv s → owner (mco s i) = true → in_transit (mco s i) = 0 →
  ∀ j, in_transit (mco s j) = 0.
Proof.
  intros Hinv Hi Hz j. destruct (decide (in_transit (mco s j) = 0)) as [|E]; [done|].
  pose proof (in_transit_owner _ E) as Hj. by rewrite (mi_one _ Hinv j i Hj Hi).
Qed.

Lemma minv_push s i old :
  minv s → mco s i = MCas old → state_ s = old →
  minv (m_co (m_word s (Z.lor (addr i) kLockedFlag)) i MSuspended).
Proof.
  intros [(l & Hc & Hnd & Hs & Ht) Hf Ho H1 Hl] Hi Hw.
  pose proof (Hl i) as Hli. unfold local_ok in Hli. rewrite Hi in Hli.
  destruct Hli as (Hz & n & Hn & Hh & Hnx).
  pose proof (lor_addr_pos addr i) as Hpos.
  assert (i ∉ l) as Hil by (intros Hin; assert (mco s i = MSuspended) by (apply Hs; by left); congruence).
  set (s' := m_co _ _ _).
  assert (∀ j, in_transit (mco s' j) = in_transit (mco s j)) as Etr.
  { intros j. simpl. destruct (decide (j = i)) as [->|].
    - by rewrite fn_lookup_insert, Hi.
    - by rewrite fn_lookup_insert_ne. }
  assert (∀ j, owner (mco s' j) = owner (mco s j)) as Eow.
  { intros j. simpl. destruct (decide (j = i)) as [->|].
    - by rewrite fn_lookup_insert, Hi.
    - by rewrite fn_lookup_insert_ne. }
  split.
  - exists (i :: l). simpl (state_ s'). unfold extract_waiters, kLockedFlag in *.
    rewrite (clear_flagged_addr addr). split_and!.
    + split; [done|]. exists n. split_and!; try done. by rewrite Hnx, <- Hw.
    + by apply NoDup_cons.
    + intros j. setoid_rewrite Etr. simpl. destruct (decide (j = i)) as [->|Hne].
      * rewrite fn_lookup_insert. split; [|done]. intros _. left. left.
      * rewrite fn_lookup_insert_ne, Hs, elem_of_cons by done. naive_solver.
    + intros j k E. rewrite Etr in E. apply not_elem_of_cons. split; [|by eapply Ht].
      intros ->. assert (mco s i = MSuspended) by (apply Hs; eauto). congruence.
  - right. apply flagged_lor.
  - setoid_rewrite Eow. rewrite Ho. simpl. unfold kLockedFlag. split; [lia|congruence].
  - intros j k. rewrite !Eow. apply H1.
  - intros j. destruct (decide (j = i)) as [->|Hne].
    + unfold local_ok. simpl. by rewrite fn_lookup_insert.
    + eapply local_ok_frame with (i := i) (s := s); try done; simpl; try congruence.
      * by rewrite fn_lookup_insert_ne.
      * intros k Hk. by rewrite fn_lookup_insert_ne.
Qed.

(** Releasing a lock nobody waits for. *)
Lemma minv_release s i old :
  minv s → mco s i = MUnlockCas old 0 0 → state_ s = old → extract_waiters old = 0 →
  minv (m_co (m_word s 0) i (MWake 0)).
Proof.
  intros Hinv Hi Hw Hx. pose proof Hinv as [(l & Hc & Hnd & Hs & Ht) Hf Ho H1 Hl].
  rewrite Hw, Hx in Hc. apply (chain_null addr) in Hc as ->.
  assert (owner (mco s i) = true) as Hoi by (by rewrite Hi).
  pose proof (transit_unique s i Hinv Hoi ltac:(by rewrite Hi)) as Htr.
  set (s' := m_co _ _ _).
  assert (∀ j, in_transit (mco s' j) = 0) as Etr.
  { intros j. simpl. destruct (decide (j = i)) as [->|].
    - by rewrite fn_lookup_insert.
    - by rewrite fn_lookup_insert_ne. }
  assert (∀ j, owner (mco s' j) = false) as Eow.
  { intros j. simpl. destruct (decide (j = i)) as [->|Hne].
    - by rewrite fn_lookup_insert.
    - rewrite fn_lookup_insert_ne by done. destruct (owner (mco s j)) eqn:E; [|done].
      by rewrite (H1 _ _ E Hoi) in Hne. }
  split.
  - exists []. split_and!; [done|constructor| |].
    + intros j. setoid_rewrite Etr. simpl. destruct (decide (j = i)) as [->|Hne].
      * rewrite fn_lookup_insert. split; [done|]. intros [E|[_ E]]; [by apply not_elem_of_nil in E|].
        pose proof (addr_pos i). lia.
      * rewrite fn_lookup_insert_ne, Hs by done. by setoid_rewrite Htr.
    + intros j k _. apply not_elem_of_nil.
  - by left.
  - setoid_rewrite Eow. simpl. split; [by intros [? ?]|done].
  - intros j k. by rewrite Eow.
  - intros j. destruct (decide (j = i)) as [->|Hne].
    + unfold local_ok. simpl. by rewrite fn_lookup_insert.
    + eapply local_ok_frame with (i := i) (s := s); try done; simpl; try congruence.
      * by rewrite fn_lookup_insert_ne.
      * intros k Hk. by rewrite fn_lookup_insert_ne.
Qed.

(** Popping a waiter that is not the last one. *)
Lemma minv_pop s i old new w :
  minv s → mco s i = MUnlockCas old new w → state_ s = old → w ≠ 0 → new ≠ 0 →
  minv (m_co (m_word s new) i (MWake w)).
Proof.
  intros Hinv Hi Hw Hw0 Hn0. pose proof Hinv as [(l & Hc & Hnd & Hs & Ht) Hf Ho H1 Hl].
  pose proof (Hl i) as Hli. unfold local_ok in Hli. rewrite Hi in Hli.
  destruct Hli as (Hex & _ & Hwn). destruct (Hwn Hw0) as (n & (Hm & Ha & Hsu) & Hnew). clear Hwn.
  rewrite Hw, <- Hex in Hc. apply (chain_head addr) in Hc as (h & l' & n' & -> & Eh & Hm' & Hh & Hc); [|done].
  rewrite Hm in Hm'. injection Hm' as <-. subst h. set (h := n_handle n) in *.
  apply NoDup_cons in Hnd as [Hhl Hnd].
  unfold unlock_word in Hnew. destruct (Z.eqb_spec (n_next n) 0) as [E0|E0]; [done|].
  pose proof Hc as Hc'. apply (chain_head addr) in Hc' as (h2 & l2 & n2 & El & Enx & _); [|done].
  assert (owner (mco s i) = true) as Hoi by (by rewrite Hi).
  pose proof (transit_unique s i Hinv Hoi ltac:(by rewrite Hi)) as Htr.
  set (s' := m_co _ _ _).
  assert (∀ j, in_transit (mco s' j) = if decide (j = i) then w else 0) as Etr.
  { intros j. simpl. case_decide as E.
    - subst. by rewrite fn_lookup_insert.
    - by rewrite fn_lookup_insert_ne. }
  assert (∀ j, owner (mco s' j) = owner (mco s j)) as Eow.
  { intros j. simpl. destruct (decide (j = i)) as [->|Hne].
    - rewrite fn_lookup_insert, Hoi. simpl. by destruct (Z.eqb_spec w 0).
    - by rewrite fn_lookup_insert_ne. }
  split.
  - exists l'. simpl (state_ s'). rewrite Hnew, Enx. unfold extract_waiters, kLockedFlag.
    rewrite (clear_flagged_addr addr), <- Enx. split_and!; try done.
    + intros j. setoid_rewrite Etr.
      assert (mco s' j = MSuspended ↔ mco s j = MSuspended) as ->.
      { simpl. destruct (decide (j = i)) as [->|Hne].
        - by rewrite fn_lookup_insert, Hi.
        - by rewrite fn_lookup_insert_ne. }
      rewrite Hs, elem_of_cons. setoid_rewrite Htr. pose proof (addr_pos j). split.
      * intros [[->|Hj]|[? ?]]; [right; exists i; by rewrite decide_True|by left|lia].
      * intros [Hj|[k Hk]]; [by left; right|]. case_decide; [|lia]. left; left.
        apply (inj addr). congruence.
    + intros j k. rewrite Etr. pose proof (addr_pos j). case_decide; [|lia]. intros E.
      assert (j = h) as ->; [apply (inj addr); congruence|done].
  - right. simpl. rewrite Hnew. apply flagged_lor.
  - setoid_rewrite Eow. rewrite Ho. simpl. split; [done|]. intros _ E.
    apply (proj1 Ho) in E; eauto.
  - intros j k. rewrite !Eow. apply H1.
  - assert (∀ k, k ≠ i → mco s' k = mco s k) as Hoth by (intros k Hk; simpl; by rewrite fn_lookup_insert_ne).
    intros j. destruct (decide (j = i)) as [->|Hne].
    + unfold local_ok. simpl. rewrite fn_lookup_insert. intros _. exists n. split_and!; try done.
      fold h. rewrite <- Hsu. apply Hoth. congruence.
    + eapply local_ok_frame with (i := i) (s := s); try done; [by apply Hoth|congruence|].
      intros k Hk. by rewrite Hoth.
Qed.

(** Resuming the waiter the lock was handed to. *)
Lemma minv_wake s i w n :
  minv s → mco s i = MWake w → w ≠ 0 → mmem s !! w = Some n →
  minv (m_co (m_co (m_wake (m_mem s (delete w (mmem s))) (wake n)) (n_handle n) MHeld) i MIdle).
Proof.
  intros Hinv Hi Hw0 Hm. pose proof Hinv as [(l & Hc & Hnd & Hs & Ht) Hf Ho H1 Hl].
  pose proof (Hl i) as Hli. unfold local_ok in Hli. rewrite Hi in Hli.
  destruct (Hli Hw0) as (n' & Hm' & Ha & Hsu). rewrite Hm in Hm'. injection Hm' as <-. clear Hli.
  set (h := n_handle n) in *. assert (h ≠ i) as Hhi by congruence. subst w.
  assert (owner (mco s i) = true) as Hoi.
  { rewrite Hi. simpl. by destruct (Z.eqb_spec (addr h) 0). }
  assert (h ∉ l) as Hhl by (apply (Ht h i); by rewrite Hi).
  assert (∀ j, j ≠ i → owner (mco s j) = false) as Hno.
  { intros j Hne. destruct (owner (mco s j)) eqn:E; [|done]. by rewrite (H1 _ _ E Hoi) in Hne. }
  set (s' := m_co _ _ _).
  assert (mco s' i = MIdle) as Ei by (simpl; by rewrite fn_lookup_insert).
  assert (mco s' h = MHeld) as Eh by (simpl; by rewrite fn_lookup_insert_ne, fn_lookup_insert).
  assert (∀ j, j ≠ i → j ≠ h → mco s' j = mco s j) as Eo.
  { intros j ? ?. simpl. by rewrite !fn_lookup_insert_ne. }
  assert (∀ j, owner (mco s' j) = bool_decide (j = h)) as Eow.
  { intros j. destruct (decide (j = i)) as [->|]; [rewrite Ei; by rewrite bool_decide_false|].
    destruct (decide (j = h)) as [->|]; [rewrite Eh; by rewrite bool_decide_true|].
    rewrite Eo, Hno by done. by rewrite bool_decide_false. }
  assert (∀ j, in_transit (mco s' j) = 0) as Etr.
  { intros j. destruct (decide (in_transit (mco s' j) = 0)) as [|E]; [done|].
    apply in_transit_owner in E as E'. rewrite Eow in E'. apply bool_decide_eq_true in E' as ->.
    by rewrite Eh in E. }
  split.
  - exists l. split_and!; try done.
    + by apply (chain_frame_delete addr).
    + intros j. setoid_rewrite Etr. pose proof (addr_pos j). split.
      * intros E. destruct (decide (j = i)) as [->|]; [congruence|].
        destruct (decide (j = h)) as [->|]; [congruence|]. rewrite Eo in E by done.
        apply Hs in E as [?|[k Hk]]; [by left|]. destruct (decide (k = i)) as [->|].
        -- rewrite Hi in Hk. simpl in Hk. by apply (inj addr) in Hk.
        -- assert (owner (mco s k) = true) as E; [apply in_transit_owner; lia|]. by rewrite Hno in E.
      * intros [Hj|[_ ?]]; [|lia]. assert (mco s j = MSuspended) as E by (apply Hs; by left).
        rewrite Eo; [done|congruence|]. by intros ->.
    + intros j k. rewrite Etr. pose proof (addr_pos j). lia.
  - done.
  - setoid_rewrite Eow. change (state_ s') with (state_ s). rewrite <- Ho. split; [eauto|].
    intros _. exists h. by apply bool_decide_eq_true.
  - intros j k. rewrite !Eow, !bool_decide_eq_true. congruence.
  - intros j. unfold local_ok. pose proof (Eow j) as Ej. destruct (decide (j = i)) as [->|]; [by rewrite Ei|].
    destruct (decide (j = h)) as [->|]; [by rewrite Eh|]. rewrite Eo in * by done.
    rewrite bool_decide_false in Ej by done. pose proof (Hl j) as Hlj. unfold local_ok in Hlj.
    assert (mmem s' !! addr j = mmem s !! addr j) as Em.
    { simpl. by rewrite lookup_delete_ne by (intros E; apply (inj addr) in E; done). }
    destruct (mco s j); try done; rewrite ?Em; try done. simpl in Ej.
    intros Hz. by destruct (Z.eqb_spec w 0).
Qed.

(** Reading the word at the head of [unlock]. *)
Lemma unlock_load_ok s i :
  minv s → owner (mco s i) = true → in_transit (mco s i) = 0 →
  local_ok (m_co s i (MUnlock (state_ s))) i.
Proof.
  intros Hinv Ho Hz. pose proof Hinv as [(l & Hc & Hnd & Hs & Ht) _ _ _ _].
  unfold local_ok. simpl. rewrite fn_lookup_insert. intros Hx.
  apply (chain_head addr) in Hc as (h & l' & n & -> & Ea & Hm & Hh & _); [|done].
  exists n. split_and!; [done|by rewrite Hh|]. simpl.
  assert (mco s h = MSuspended) by (apply Hs; left; left).
  rewrite Hh, fn_lookup_insert_ne; [done|]. intros ->. destruct (mco s h); done.
Qed.

Lemma mutex_step_inv s s' :
  minv s → mutex_step s s' → last_handoffs s' = 0%nat → minv s'.
Proof.
  intros Hb [i Hs] Hz. pose proof (mi_local _ Hb i) as Hl. unfold local_ok in Hl.
  destruct Hs as [s Hi Hw|s Hi Hw|s wk rt Hi|s Hi Hw|s Hi Hw|s old n Hi Ho Hn|s old Hi Hw|s old Hi
    |s Hi|s old Hi Hx|s old n Hi Hx Hn|s old new w Hi Hw|s old new w Hi|s Hi|s w n Hi Hw Hn];
    rewrite Hi in Hl.
  - eapply minv_acquire with (i := i) (s := s); try done; [by rewrite Hi|by left].
  - eapply minv_local with (i := i) (s := s) (x := MSuspend); try done; try (by rewrite Hi); [by left|].
    unfold local_ok. simpl. by rewrite fn_lookup_insert.
  - eapply minv_local with (i := i) (s := s) (x := MTest (state_ s)); try done; try (by rewrite Hi); simpl.
    + right; left. by eexists.
    + unfold local_ok. simpl. rewrite fn_lookup_insert. eexists. by rewrite lookup_insert_eq.
  - eapply minv_acquire with (i := i) (s := s); try done; [by rewrite Hi|by right; right].
  - eapply minv_local with (i := i) (s := s) (x := MTest (state_ s)); try done; try (by rewrite Hi); [by left|].
    unfold local_ok. simpl. by rewrite fn_lookup_insert.
  - eapply minv_local with (i := i) (s := s) (x := MCas old); try done; try (by rewrite Hi); simpl.
    + right; left. by eexists.
    + destruct Hl as (n' & Hn' & Hh). rewrite Hn in Hn'. injection Hn' as <-.
      unfold local_ok. simpl. rewrite fn_lookup_insert. split; [done|]. eexists. by rewrite lookup_insert_eq.
  - by eapply minv_push.
  - eapply minv_local with (i := i) (s := s) (x := MTest (state_ s)); try done; try (by rewrite Hi); [by left|].
    unfold local_ok. simpl. rewrite fn_lookup_insert. destruct Hl as (_ & n & ? & ? & _). eauto.
  - eapply minv_local with (i := i) (s := s) (x := MUnlock (state_ s)); try done; try (by rewrite Hi); [by left|].
    by apply unlock_load_ok; rewrite ?Hi.
  - eapply minv_local with (i := i) (s := s) (x := MUnlockCas old 0 0); try done; try (by rewrite Hi); [by left|].
    unfold local_ok. simpl. by rewrite fn_lookup_insert.
  - eapply minv_local with (i := i) (s := s) (x := MUnlockCas old _ _); try done; try (by rewrite Hi); [by left|].
    unfold local_ok. simpl. rewrite fn_lookup_insert. split_and!; try done. intros _.
    destruct (Hl Hx) as (n' & Hm & Ha & Hsu). rewrite Hn in Hm. injection Hm as <-.
    exists n. split; [|done]. split_and!; try done. simpl. rewrite fn_lookup_insert_ne; [done|congruence].
  - destruct Hl as (Hex & Hl0 & Hl1). unfold only_waiter in *. destruct (Z.eqb_spec w 0) as [E|E]; simpl in *.
    + rewrite (Hl0 E), E in *. by apply (minv_release s i old).
    + destruct (Hl1 E) as (n & (Hn & _) & ->). rewrite Hn in *. destruct (Z.eqb_spec (n_next n) 0) as [|Hx]; [done|].
      apply (minv_pop s i old); try done. by apply unlock_word_pos.
  - eapply minv_local with (i := i) (s := s) (x := MUnlock (state_ s)); try done; try (by rewrite Hi); [by left|].
    by apply unlock_load_ok; rewrite ?Hi.
  - eapply minv_local with (i := i) (s := s) (x := MIdle); try done; try (by rewrite Hi); [by left|].
    unfold local_ok. simpl. by rewrite fn_lookup_insert.
  - by apply minv_wake.
Qed.

Lemma handoffs_mono s s' : mutex_step s s' → (last_handoffs s ≤ last_handoffs s')%nat.
Proof. intros [i []]; simpl; try done. destruct (only_waiter _ _); lia. Qed.

Lemma mutex_reachable_inv s : mutex_reachable s → last_handoffs s = 0%nat → minv s.
Proof.
  apply (steps_invariant _ (λ s, last_handoffs s = 0%nat → minv s)).
  - intros _. split; try done; simpl.
    + exists []. split_and!; try done; [constructor| |].
      * intros i. split; [done|]. intros [E|[_ E]]; [by apply not_elem_of_nil in E|].
        pose proof (addr_pos i). lia.
      * intros i _ _. apply not_elem_of_nil.
    + by left.
    + split; [by intros [? ?]|done].
  - intros a b Ha Hst Hb. pose proof (handoffs_mono _ _ Hst).
    eapply mutex_step_inv; [|done..]. apply Ha. lia.
Qed.

(** The destructor resumes every suspended coroutine that nobody is handing the
    lock to, once each, and returns. *)
Theorem mutex_destroy_resumes s :
  mutex_reachable s → last_handoffs s = 0%nat →
  ∃ fuel l, mutex_destroy fuel s = Some (Inline <$> l) ∧ NoDup l
    ∧ ∀ i, (∀ j, in_transit (mco s j) ≠ addr i) → mco s i = MSuspended ↔ i ∈ l.
Proof.
  intros Hr Hh. destruct (mi_stack _ (mutex_reachable_inv s Hr Hh)) as (l & Hc & Hnd & Hs & _).
  exists (length l), l. split_and!; [by apply resume_inline_chain|done|]. intros i Hi. rewrite Hs. naive_solver.
Qed.
End Machine.

(** ** Properties *)


(** Run one more step of coroutine [i]. *)
Ltac run i c :=
  eapply steps_trans; [apply steps_once; exists i; eapply c; first [reflexivity|by vm_compute]|].

(** [unlock] breaks mutual exclusion when it hands the mutex to an only
    waiter: it stores 0, which means free, so after coroutine 0 has passed the
    lock to coroutine 1, coroutine 2 takes it as well and both hold it. *)
Theorem mutex_only_waiter_breaks_exclusion :
  ∃ s, mutex_reachable addr64 s ∧ mco s 1%nat = MHeld ∧ mco s 2%nat = MHeld
    ∧ last_handoffs s = 1%nat.
Proof.
  eexists. split; [unfold mutex_reachable|].
  - run 0%nat lock_ready_ok.
    run 1%nat lock_ready_no. run 1%nat (λ s, lock_suspend addr64 1 s 3 (Some 7)).
    run 1%nat lock_link. run 1%nat lock_push_ok.
    run 0%nat unlock_load. run 0%nat unlock_some. run 0%nat unlock_ok. run 0%nat unlock_wake.
    run 2%nat lock_ready_ok. apply steps_refl.
  - by vm_compute.
Qed.

