(* ===== verification/Semaphore.v ===== *)
(** [AffinitySemaphore] ([affinity_semaphore.h]) as a transition system of
    threads that acquire, try to acquire and release one semaphore.  Its count
    and its stack of waiters are two separate atomics; one step performs at
    most one operation on one of them.

    Nothing ties a release to an acquire: any thread that runs may call either.
    A release that has loaded the head of the stack reads the node through that
    pointer; when another release has taken the node off meanwhile and its
    coroutine has run on, the node is gone.  Such a read yields any value here,
    and it, like the resumption of a coroutine that is not suspended, is
    recorded in [corrupt]. *)
From S2P Require Import Prelude Waiters.

Section Machine.
Context (addr : nat → Z).

Inductive sstate :=
| SIdle                          (* runs, outside any call *)
| STry (expected : Z)            (* try_acquire, called directly or by await_ready *)
| SSuspend                       (* about to run await_suspend *)
| SLoop (old : Z)                (* head of the push loop *)
| SRetry (old expected : Z)      (* try_acquire, called inside the push loop *)
| SPush (old : Z)                (* about to push the node over old *)
| SSuspended
| SRelease                       (* the count is incremented; about to load waiters_ *)
| SPop (old : Z)                 (* head of the loop of release *)
| SPopCas (old next : Z).        (* old->next is read; about to pop *)

(** The fields after [sco] only record the history. *)
Record semaphore := mkSem {
  swaiters : Z;
  scount : Z;
  smem : Memory;
  sco : nat → sstate;
  swoken : list Wake;            (* wake-ups issued by release *)
  taken : list nat;              (* who took a permit from the count *)
  admitted : list nat;           (* whose acquire or try_acquire succeeded *)
  released : Z;                  (* calls of release *)
  popper : option nat;           (* a release that is in its loop *)
  overlapped : bool;             (* two releases were in their loops together *)
  corrupt : bool
}.

Definition s_co (s : semaphore) i x := mkSem (swaiters s) (scount s) (smem s) (<[i := x]> (sco s)) (swoken s)
  (taken s) (admitted s) (released s) (popper s) (overlapped s) (corrupt s).
Definition s_mem (s : semaphore) m := mkSem (swaiters s) (scount s) m (sco s) (swoken s)
  (taken s) (admitted s) (released s) (popper s) (overlapped s) (corrupt s).
Definition s_word (s : semaphore) v := mkSem v (scount s) (smem s) (sco s) (swoken s)
  (taken s) (admitted s) (released s) (popper s) (overlapped s) (corrupt s).
(** A permit leaves the count for thread [i]; one is put into it. *)
Definition s_take (s : semaphore) i c := mkSem (swaiters s) c (smem s) (sco s) (swoken s)
  (taken s ++ [i]) (admitted s) (released s) (popper s) (overlapped s) (corrupt s).
Definition s_put (s : semaphore) c := mkSem (swaiters s) c (smem s) (sco s) (swoken s)
  (taken s) (admitted s) (released s + 1) (popper s) (overlapped s) (corrupt s).
Definition s_admit (s : semaphore) i := mkSem (swaiters s) (scount s) (smem s) (sco s) (swoken s)
  (taken s) (admitted s ++ [i]) (released s) (popper s) (overlapped s) (corrupt s).
Definition s_wake (s : semaphore) w := mkSem (swaiters s) (scount s) (smem s) (sco s) (swoken s ++ [w])
  (taken s) (admitted s) (released s) (popper s) (overlapped s) (corrupt s).
(** Thread [i] enters and leaves the loop of [release]. *)
Definition s_enter (s : semaphore) i := mkSem (swaiters s) (scount s) (smem s) (sco s) (swoken s)
  (taken s) (admitted s) (released s)
  (if popper s is Some j then Some j else Some i) (if popper s is Some _ then true else overlapped s) (corrupt s).
Definition s_leave (s : semaphore) i := mkSem (swaiters s) (scount s) (smem s) (sco s) (swoken s)
  (taken s) (admitted s) (released s)
  (if decide (popper s = Some i) then None else popper s) (overlapped s) (corrupt s).
Definition s_corrupt (s : semaphore) := mkSem (swaiters s) (scount s) (smem s) (sco s) (swoken s)
  (taken s) (admitted s) (released s) (popper s) (overlapped s) true.

Definition available (s : semaphore) : Z := scount s.

(** A node that waits for the semaphore. *)
Definition waiting (s : semaphore) (p : Z) (n : WaiterNode) : Prop :=
  smem s !! p = Some n ∧ p = addr (n_handle n) ∧ sco s (n_handle n) = SSuspended.

Inductive sstep (i : nat) : semaphore → semaphore → Prop :=
| acquire_start s : sco s i = SIdle → sstep i s (s_co s i (STry (scount s)))
| try_false s : sco s i = STry 0 → sstep i s (s_co s i SIdle)
| ready_none s : sco s i = STry 0 → sstep i s (s_co s i SSuspend)
| ready_ok s e : sco s i = STry e → 0 < e → scount s = e →
    sstep i s (s_co (s_admit (s_take s i (e - 1)) i) i SIdle)
| ready_fail s e : sco s i = STry e → 0 < e → sstep i s (s_co s i (STry (scount s)))
| suspend_start s worker_id route : sco s i = SSuspend →
    sstep i s (s_co (s_mem s (<[addr i := mkNode i worker_id route 0]> (smem s)))
                 i (SLoop (swaiters s)))
| suspend_retry s old : sco s i = SLoop old → sstep i s (s_co s i (SRetry old (scount s)))
| retry_ok s old e : sco s i = SRetry old e → 0 < e → scount s = e →
    sstep i s (s_co (s_admit (s_take (s_mem s (delete (addr i) (smem s))) i (e - 1)) i) i SIdle)
| retry_fail s old e : sco s i = SRetry old e → 0 < e →
    sstep i s (s_co s i (SRetry old (scount s)))
| retry_none s old n : sco s i = SRetry old 0 → smem s !! addr i = Some n →
    sstep i s (s_co (s_mem s (<[addr i := set_next n old]> (smem s))) i (SPush old))
| push_ok s old : sco s i = SPush old → swaiters s = old →
    sstep i s (s_co (s_word s (addr i)) i SSuspended)
| push_fail s old : sco s i = SPush old → sstep i s (s_co s i (SLoop (swaiters s)))
| release_add s : sco s i = SIdle →
    sstep i s (s_co (s_put s (scount s +64 1)) i SRelease)
| release_load s : sco s i = SRelease → sstep i s (s_co (s_enter s i) i (SPop (swaiters s)))
| release_empty s : sco s i = SPop 0 → sstep i s (s_co (s_leave s i) i SIdle)
| release_next s old n : sco s i = SPop old → old ≠ 0 → smem s !! old = Some n →
    sstep i s (s_co s i (SPopCas old (n_next n)))
| release_next_dead s old next : sco s i = SPop old → old ≠ 0 → smem s !! old = None →
    sstep i s (s_co (s_corrupt s) i (SPopCas old next))
| release_pop s old next n : sco s i = SPopCas old next → swaiters s = old → waiting s old n →
    sstep i s (s_co (s_leave (s_co (s_admit (s_wake (s_word (s_mem s (delete old (smem s))) next) (wake n)) (n_handle n))
                 (n_handle n) SIdle) i) i SIdle)
| release_pop_dead s old next : sco s i = SPopCas old next → swaiters s = old → (∀ n, ¬ waiting s old n) →
    sstep i s (s_co (s_leave (s_word (s_corrupt s) next) i) i SIdle)
| release_fail s old next : sco s i = SPopCas old next → sstep i s (s_co s i (SPop (swaiters s))).

Definition sem_step (s s' : semaphore) : Prop := ∃ i, sstep i s s'.
Definition sem_init (n : Z) : semaphore := mkSem 0 n ∅ (λ _, SIdle) [] [] [] 0 None false false.
Definition sem_reachable (n : Z) (s : semaphore) : Prop := steps sem_step (sem_init n) s.

(** ** The accounts, whatever happens to the stack of waiters *)

Record accounts (n : Z) (s : semaphore) : Prop := {
  ac_admitted : admitted s ≡ₚ taken s ++ (wake_handle <$> swoken s);
  ac_released : 0 ≤ released s;
  ac_count : n + released s < W64 → 0 ≤ scount s ∧ scount s + Z.of_nat (length (taken s)) = n + released s
}.

Lemma accounts_take n s s' i :
  accounts n s → 0 < scount s → scount s' = scount s - 1 → taken s' = taken s ++ [i] → admitted s' = admitted s ++ [i] →
  swoken s' = swoken s → released s' = released s → accounts n s'.
Proof.
  intros [Ha Hr Hc] Hp E1 E2 E3 E4 E5. split; rewrite ?E1, ?E2, ?E3, ?E4, ?E5; [|done|].
  - rewrite Ha, <-!(assoc_L (++)). apply Permutation_app_head. apply Permutation_app_comm.
  - intros Hl. destruct (Hc Hl). rewrite length_app. simpl. lia.
Qed.

Lemma accounts_same n s s' :
  accounts n s → scount s' = scount s → taken s' = taken s → admitted s' = admitted s → swoken s' = swoken s →
  released s' = released s → accounts n s'.
Proof. intros [Ha Hr Hc] E1 E2 E3 E4 E5. split; by rewrite ?E1, ?E2, ?E3, ?E4, ?E5. Qed.

Lemma accounts_step n s s' : 0 ≤ n → accounts n s → sem_step s s' → accounts n s'.
Proof.
  intros Hn Hb [i Hs].
  destruct Hs as [s Hi|s Hi|s Hi|s e Hi He Hw|s e Hi He|s wk rt Hi|s old Hi|s old e Hi He Hw|s old e Hi He
    |s old nd Hi Hnd|s old Hi Hw|s old Hi|s Hi|s Hi|s Hi|s old nd Hi Ho Hnd|s old next Hi Ho Hnd|s old next nd Hi Hw Hnd
    |s old next Hi Hw Hnd|s old next Hi]; try by apply (accounts_same n s).
  - apply (accounts_take n s _ i); try done; [lia|simpl; lia].
  - apply (accounts_take n s _ i); try done; [lia|simpl; lia].
  - destruct Hb as [Ha Hr Hc]. split; simpl; [done|lia|]. intros Hl. destruct Hc as [Hc1 Hc2]; [lia|].
    rewrite (wrap64_small (scount s + 1)) by lia. lia.
  - destruct Hb as [Ha Hr Hc]. split; simpl; [|done|done]. rewrite Ha, fmap_app, (assoc_L (++)). simpl. by rewrite wake_handle_wake.
Qed.

Lemma accounts_reachable n s : 0 ≤ n → sem_reachable n s → accounts n s.
Proof.
  intros Hn. apply (steps_invariant _ (accounts n)); [|intros a b; by apply accounts_step].
  split; simpl; [done|lia|lia].
Qed.

(** ** The stack of waiters, as long as no two releases overlap *)

Definition popping (x : sstate) : bool := match x with SPop _ | SPopCas _ _ => true | _ => false end.

(** What the local variables of a thread promise. *)
Definition local_ok (s : semaphore) (i : nat) : Prop :=
  match sco s i with
  | SLoop _ | SRetry _ _ => ∃ n, smem s !! addr i = Some n ∧ n_handle n = i
  | SPush old => ∃ n, smem s !! addr i = Some n ∧ n_handle n = i ∧ n_next n = old
  | SPop old => old ≠ 0 → ∃ n, waiting s old n
  | SPopCas old next => old ≠ 0 ∧ ∃ n, waiting s old n ∧ n_next n = next
  | _ => True
  end.

Record stack_ok (s : semaphore) : Prop := {
  so_clean : corrupt s = false;
  so_stack : ∃ l, chain addr (smem s) (swaiters s) l ∧ NoDup l ∧ (∀ i, sco s i = SSuspended ↔ i ∈ l);
  so_popper i : popping (sco s i) = true ↔ popper s = Some i;
  so_local i : local_ok s i
}.

Context {LY : Layout addr}.
#[local] Existing Instance addr_inj.

(** The memory of other threads' nodes is left alone. *)
Definition own_node (m m' : Memory) (i : nat) : Prop :=
  m' = m ∨ (∃ n, m' = <[addr i := n]> m) ∨ m' = delete (addr i) m.

Lemma own_node_other m m' i k : own_node m m' i → k ≠ i → m' !! addr k = m !! addr k.
Proof.
  intros [->|[[n ->]| ->]] Hk; [done|..].
  - by rewrite lookup_insert_ne by (intros E; apply (inj addr) in E; done).
  - by rewrite lookup_delete_ne by (intros E; apply (inj addr) in E; done).
Qed.

Lemma own_node_chain m m' i p l : own_node m m' i → i ∉ l → chain addr m p l → chain addr m' p l.
Proof. intros [->|[[n ->]| ->]]; eauto using chain_frame_insert, chain_frame_delete. Qed.

Lemma waiting_frame s s' i p n :
  own_node (smem s) (smem s') i → sco s i ≠ SSuspended → (∀ k, k ≠ i → sco s' k = sco s k) → waiting s p n → waiting s' p n.
Proof.
  intros Hm Hi Hco (H1 & -> & H3). assert (n_handle n ≠ i) by congruence.
  split_and!; [by rewrite (own_node_other (smem s) _ i)|done|by rewrite Hco].
Qed.

Lemma local_frame s s' i j :
  own_node (smem s) (smem s') i → sco s i ≠ SSuspended → (∀ k, k ≠ i → sco s' k = sco s k) → j ≠ i →
  local_ok s j → local_ok s' j.
Proof.
  intros Hm Hi Hco Hj. unfold local_ok. rewrite (Hco j Hj). destruct (sco s j); try done;
    rewrite ?(own_node_other (smem s) (smem s') i) by done; try done.
  - intros H Ho. destruct (H Ho) as [n Hn]. exists n. by eapply waiting_frame.
  - intros [Ho (n & Hn & Hx)]. split; [done|]. exists n. split; [by eapply waiting_frame|done].
Qed.

(** A step of [i] that leaves the word alone and neither suspends nor resumes. *)
Lemma stack_ok_local s s' i x :
  stack_ok s → sco s i ≠ SSuspended → x ≠ SSuspended → sco s' = <[i := x]> (sco s) → own_node (smem s) (smem s') i →
  swaiters s' = swaiters s → corrupt s' = corrupt s → (popping x = true ↔ popper s' = Some i) →
  (∀ j, j ≠ i → popper s' = Some j ↔ popper s = Some j) → local_ok s' i → stack_ok s'.
Proof.
  intros [Hc (l & Hl & Hnd & Hs) Hp Hk] Hi Hx Hco Hm Hw Hcr Hpi Hpj Hli.
  assert (Hoth : ∀ k, k ≠ i → sco s' k = sco s k) by (intros k ?; by rewrite Hco, fn_lookup_insert_ne).
  assert (Hown : sco s' i = x) by (by rewrite Hco, fn_lookup_insert).
  assert (Hil : i ∉ l) by (by rewrite <-Hs). split.
  - by rewrite Hcr.
  - exists l. rewrite Hw. split_and!; [by eapply own_node_chain|done|]. intros k.
    destruct (decide (k = i)) as [->|]; [rewrite Hown; by split|by rewrite Hoth].
  - intros k. destruct (decide (k = i)) as [->|]; [by rewrite Hown|]. by rewrite Hoth, Hpj.
  - intros k. destruct (decide (k = i)) as [->|]; [done|]. by apply (local_frame s s' i).
Qed.

Lemma stack_ok_goto s i x :
  stack_ok s → sco s i ≠ SSuspended → x ≠ SSuspended → popping x = popping (sco s i) →
  local_ok (s_co s i x) i → stack_ok (s_co s i x).
Proof.
  intros Hb Hi Hx Hp Hl. apply (stack_ok_local s _ i x); try done; [by left|].
  simpl. rewrite Hp. apply Hb.
Qed.

(** A step outside the loop of [release] that changes the count, the accounts
    and the thread's own node. *)
Lemma stack_ok_own s s' i x :
  stack_ok s → sco s i ≠ SSuspended → x ≠ SSuspended → sco s' = <[i := x]> (sco s) → own_node (smem s) (smem s') i →
  swaiters s' = swaiters s → corrupt s' = corrupt s → popping (sco s i) = false → popping x = false → popper s' = popper s →
  local_ok s' i → stack_ok s'.
Proof.
  intros Hb Hi Hx Hco Hm Hw Hc Hp1 Hp2 Hp Hl. apply (stack_ok_local s _ i x); try done.
  - rewrite Hp2, Hp, <-(so_popper s Hb). by rewrite Hp1.
  - by rewrite Hp.
Qed.

Lemma stack_ok_push s i old :
  stack_ok s → sco s i = SPush old → swaiters s = old → stack_ok (s_co (s_word s (addr i)) i SSuspended).
Proof.
  intros [Hc (l & Hl & Hnd & Hs) Hp Hk] Hi Hw. pose proof (Hk i) as Hki. unfold local_ok in Hki. rewrite Hi in Hki.
  destruct Hki as (n & Hn & Hh & Hx). assert (Hil : i ∉ l) by (rewrite <-Hs; by rewrite Hi).
  assert (Hoth : ∀ k, k ≠ i → (<[i := SSuspended]> (sco s)) k = sco s k) by (intros k ?; by rewrite fn_lookup_insert_ne).
  split; simpl.
  - done.
  - exists (i :: l). split_and!; [split; [done|]; exists n; split_and!; [done|done|by rewrite Hx, <-Hw]|by apply NoDup_cons|].
    intros k. rewrite elem_of_cons, <-Hs. destruct (decide (k = i)) as [->|Hne]; [rewrite fn_lookup_insert; naive_solver|].
    rewrite Hoth by done. naive_solver.
  - intros k. destruct (decide (k = i)) as [->|]; [|rewrite Hoth by done; apply Hp]. rewrite fn_lookup_insert, <-Hp. by rewrite Hi.
  - intros k. destruct (decide (k = i)) as [->|]; [unfold local_ok; simpl; by rewrite fn_lookup_insert|].
    apply (local_frame s _ i); try done; [by left|by rewrite Hi].
Qed.

(** The release takes the top waiter off. *)
Lemma stack_ok_pop s i old next n :
  stack_ok s → sco s i = SPopCas old next → swaiters s = old → waiting s old n →
  stack_ok (s_co (s_leave (s_co (s_admit (s_wake (s_word (s_mem s (delete old (smem s))) next) (wake n)) (n_handle n))
                 (n_handle n) SIdle) i) i SIdle).
Proof.
  intros [Hc (l & Hl & Hnd & Hs) Hp Hk] Hi Hw (Hn & -> & Hsu). set (h := n_handle n) in *.
  pose proof (Hk i) as Hki. unfold local_ok in Hki. rewrite Hi in Hki. destruct Hki as (Ho & n' & (Hn' & _) & Hx).
  rewrite Hn in Hn'. injection Hn' as <-. rewrite Hw in Hl.
  apply (chain_head addr) in Hl as (h' & l' & n' & -> & Eh & Hn' & _ & Hl); [|done]. apply (inj addr) in Eh as <-.
  rewrite Hn in Hn'. injection Hn' as <-. apply NoDup_cons in Hnd as [Hhl Hnd].
  assert (Hhi : h ≠ i) by (intros E; by rewrite E, Hi in Hsu).
  set (s' := s_co _ _ _). assert (Hsi : sco s' i = SIdle) by (simpl; by rewrite fn_lookup_insert).
  assert (Hsh : sco s' h = SIdle) by (simpl; by rewrite fn_lookup_insert_ne, fn_lookup_insert).
  assert (Hso : ∀ k, k ≠ i → k ≠ h → sco s' k = sco s k) by (intros k ? ?; simpl; by rewrite !fn_lookup_insert_ne).
  assert (Hpi : popper s = Some i) by (apply Hp; by rewrite Hi).
  assert (Hno : ∀ k, k ≠ i → popping (sco s k) = false) by (intros k Hki; apply not_true_iff_false; rewrite Hp, Hpi; congruence).
  split.
  - done.
  - exists l'. split_and!; [simpl; rewrite <-Hx; by apply chain_frame_delete|done|]. intros k. specialize (Hs k). rewrite elem_of_cons in Hs.
    destruct (decide (k = i)) as [->|Hki]; [rewrite Hsi; rewrite Hi in Hs; naive_solver|].
    destruct (decide (k = h)) as [->|Hkh]; [rewrite Hsh; naive_solver|]. rewrite Hso by done. naive_solver.
  - intros k. simpl (popper s'). rewrite Hpi, decide_True by done. destruct (decide (k = i)) as [->|Hki]; [by rewrite Hsi|].
    destruct (decide (k = h)) as [->|Hkh]; [by rewrite Hsh|]. rewrite Hso by done. by rewrite Hno.
  - intros k. unfold local_ok. destruct (decide (k = i)) as [->|Hki]; [by rewrite Hsi|].
    destruct (decide (k = h)) as [->|Hkh]; [by rewrite Hsh|]. rewrite Hso by done. specialize (Hno k Hki).
    assert (Em : smem s' !! addr k = smem s !! addr k)
      by (simpl; by rewrite lookup_delete_ne by (intros E; apply (inj addr) in E; congruence)).
    specialize (Hk k). unfold local_ok in Hk. destruct (sco s k); by rewrite ?Em.
Qed.

(** Reading the word at the head of the loop. *)
Lemma head_waiting s i x : stack_ok s → sco s i ≠ SSuspended → swaiters s ≠ 0 →
  ∃ n, waiting (s_co (s_enter s i) i x) (swaiters s) n ∧ waiting (s_co s i x) (swaiters s) n.
Proof.
  intros [_ (l & Hl & _ & Hs) _ _] Hi Hw. apply (chain_head addr) in Hl as (h & l' & n & -> & Eh & Hn & Hh & _); [|done].
  assert (Hsh : sco s h = SSuspended) by (apply Hs; left). assert (h ≠ i) by congruence.
  exists n. unfold waiting. simpl. rewrite Hh, fn_lookup_insert_ne by done. by rewrite <-Eh.
Qed.

Lemma stack_ok_step s s' : stack_ok s → sem_step s s' → overlapped s' = false → stack_ok s'.
Proof.
  intros Hb [i Hs] Hov. pose proof (so_local _ Hb i) as Hl. unfold local_ok in Hl.
  destruct Hs as [s Hi|s Hi|s Hi|s e Hi He Hw|s e Hi He|s wk rt Hi|s old Hi|s old e Hi He Hw|s old e Hi He
    |s old nd Hi Hnd|s old Hi Hw|s old Hi|s Hi|s Hi|s Hi|s old nd Hi Ho Hnd|s old next Hi Ho Hnd|s old next nd Hi Hw Hnd
    |s old next Hi Hw Hnd|s old next Hi]; rewrite Hi in Hl;
    try (apply stack_ok_goto; rewrite ?Hi; try done; unfold local_ok; simpl; rewrite fn_lookup_insert; try done).
  - apply (stack_ok_own s _ i SIdle); try done; rewrite ?Hi; try done; [by left|]. unfold local_ok. simpl. by rewrite fn_lookup_insert.
  - apply (stack_ok_own s _ i (SLoop (swaiters s))); try done; rewrite ?Hi; try done; [right; left; by eexists|].
    unfold local_ok. simpl. rewrite fn_lookup_insert, lookup_insert_eq. by eexists.
  - apply (stack_ok_own s _ i SIdle); try done; rewrite ?Hi; try done; [by right; right|].
    unfold local_ok. simpl. by rewrite fn_lookup_insert.
  - destruct Hl as (n & Hn & Hh). rewrite Hnd in Hn. injection Hn as <-.
    apply (stack_ok_own s _ i (SPush old)); try done; rewrite ?Hi; try done; [right; left; by eexists|].
    unfold local_ok. simpl. rewrite fn_lookup_insert, lookup_insert_eq. by eexists.
  - by apply (stack_ok_push s i old).
  - destruct Hl as (n & Hn & Hh & _). by exists n.
  - apply (stack_ok_own s _ i SRelease); try done; rewrite ?Hi; try done; [by left|]. unfold local_ok. simpl. by rewrite fn_lookup_insert.
  - simpl in Hov. destruct (popper s) as [j|] eqn:Ep; [done|].
    apply (stack_ok_local s _ i (SPop (swaiters s))); try done; simpl; rewrite ?Hi, ?Ep; try done.
    + by left.
    + intros j Hj. split; [|done]. congruence.
    + unfold local_ok. simpl. rewrite fn_lookup_insert. intros Hw.
      destruct (head_waiting s i (SPop (swaiters s)) Hb) as (n & Hn & _); [by rewrite Hi|done|]. by exists n.
  - apply (stack_ok_local s _ i SIdle); try done; simpl; rewrite ?Hi; try done.
    + by left.
    + assert (popper s = Some i) as -> by (apply Hb; by rewrite Hi). by rewrite decide_True.
    + assert (popper s = Some i) as -> by (apply Hb; by rewrite Hi). rewrite decide_True by done. intros j Hj. split; [done|congruence].
    + unfold local_ok. simpl. by rewrite fn_lookup_insert.
  - split; [done|]. destruct (Hl Ho) as (n & Hn). pose proof Hn as (Hn1 & _). rewrite Hnd in Hn1. injection Hn1 as <-.
    exists nd. split; [|done]. apply (waiting_frame s _ i); [by left|by rewrite Hi| |done]. intros k Hk. simpl. by rewrite fn_lookup_insert_ne.
  - destruct (Hl Ho) as (n & Hn & _). congruence.
  - by apply (stack_ok_pop s i old next).
  - destruct Hl as (_ & n & Hn & _). by destruct (Hnd n).
  - intros Hw. destruct (head_waiting s i (SPop (swaiters s)) Hb) as (n & _ & Hn); [by rewrite Hi|done|]. by exists n.
Qed.

Lemma overlapped_mono s s' : sem_step s s' → overlapped s' = false → overlapped s = false.
Proof. intros [i []]; simpl; try done. by destruct (popper _). Qed.

Lemma stack_ok_reachable n s : sem_reachable n s → overlapped s = false → stack_ok s.
Proof.
  apply (steps_invariant _ (λ s, overlapped s = false → stack_ok s)).
  - intros _. split; simpl; try done. exists []. split_and!; [done|constructor|]. intros i. split; [done|]. by intros ?%not_elem_of_nil.
  - intros a b Ha Hst Hb. eapply stack_ok_step; [|done..]. apply Ha. by eapply overlapped_mono.
Qed.
End Machine.

(** ** Properties *)

(** C36: the accounts of the semaphore, whoever releases it and however calls
    interleave, as long as the initial permits and the releases are fewer than
    2^64: the permits in the count are the initial ones and those returned by
    [release], less the ones taken; the calls that succeeded are the ones that
    took a permit and the suspended waiters [release] resumed, each once.  So
    the calls admitted exceed the initial count and the releases by at most the
    number of resumed waiters, and by none while no waiter was resumed.  As long
    as no two releases have been in their loops together, the stack holds
    exactly the suspended coroutines, each once, and [release] has resumed none
    that was not suspended and read no node of one that runs. *)
Theorem semaphore_accounting (addr : nat → Z) (n : Z) (s : semaphore) :
  Layout addr → 0 ≤ n → sem_reachable addr n s → n + released s < W64 →
  (0 ≤ available s ∧ available s + Z.of_nat (length (taken s)) = n + released s)
  ∧ admitted s ≡ₚ taken s ++ (wake_handle <$> swoken s)
  ∧ Z.of_nat (length (admitted s)) ≤ n + released s + Z.of_nat (length (swoken s))
  ∧ (overlapped s = false → corrupt s = false
       ∧ ∃ l, chain addr (smem s) (swaiters s) l ∧ NoDup l ∧ ∀ i, sco s i = SSuspended ↔ i ∈ l).
Proof.
  intros LY Hn Hr Hlim. destruct (accounts_reachable addr n s Hn Hr) as [Ha _ Hc]. destruct (Hc Hlim). split_and!; try done.
  - rewrite Ha, length_app, length_fmap. lia.
  - intros Ho. destruct (stack_ok_reachable addr n s Hr Ho). done.
Qed.

(** Run one more step of thread [i], and normalise the state. *)
Ltac state_of :=
  match goal with |- steps ?R ?x ?y =>
    let x' := eval cbv [s_co s_mem s_word s_take s_put s_admit s_wake s_enter s_leave s_corrupt sem_init wake set_next
      swaiters scount smem sco swoken taken admitted released popper overlapped corrupt n_handle n_next] in x in
    change (steps R x' y) end.
Ltac run i c :=
  eapply steps_trans;
    [apply steps_once; exists i; eapply c; first [reflexivity|by vm_compute|split_and!; reflexivity]|]; state_of.
Ltac run_acquire i := run i acquire_start; run i ready_ok.
Ltac run_block i :=
  run i acquire_start; run i ready_none; run i (λ s, suspend_start addr64 i s 3 (Some 7));
  run i suspend_retry; run i retry_none.
Ltac run_release_wake i :=
  run i release_add; run i release_load; run i release_next; run i release_pop.

(** The semaphore over-admits: with one permit, coroutine 1 waits for
    coroutine 0; the release both returns the permit and resumes coroutine 1,
    so coroutine 2 is admitted next to it: three admissions, one permit and one
    release, and the count is still 0. *)
Theorem semaphore_overadmits :
  ∃ s, sem_reachable addr64 1 s ∧ admitted s = [0; 1; 2]%nat ∧ released s = 1 ∧ available s = 0 ∧ overlapped s = false.
Proof.
  eexists. split; [unfold sem_reachable|].
  - run_acquire 0%nat. run_block 1%nat. run 1%nat push_ok.
    run_release_wake 0%nat. run_acquire 2%nat. apply steps_refl.
  - by vm_compute.
Qed.

(** The semaphore loses wake-ups: a release that runs between the failed
    [try_acquire] of the push loop and the push finds no waiter, and the
    coroutine then suspends although the permit is free and nobody is left to
    release it. *)
Theorem semaphore_loses_wakeup :
  ∃ s, sem_reachable addr64 1 s ∧ available s = 1 ∧ sco s 1%nat = SSuspended
    ∧ ∀ j, j ≠ 1%nat → sco s j = SIdle.
Proof.
  eexists. split; [unfold sem_reachable|].
  - run_acquire 0%nat. run_block 1%nat.
    run 0%nat release_add. run 0%nat release_load. run 0%nat release_empty.
    run 1%nat push_ok. apply steps_refl.
  - split; [by vm_compute|]. split; [by vm_compute|]. by intros [|[|j]].
Qed.

(** Two releases that overlap: both load the node of coroutine 1, the first
    takes it off and resumes the coroutine, the second reads the link out of a
    frame that is no longer there. *)
Theorem semaphore_release_reads_dead_node : ∃ s, sem_reachable addr64 0 s ∧ corrupt s = true.
Proof.
  eexists. split; [unfold sem_reachable|].
  - run_block 1%nat. run 1%nat push_ok. run 2%nat release_add. run 2%nat release_load.
    run_release_wake 0%nat. run 2%nat (λ s old, release_next_dead addr64 2 s old 0). apply steps_refl.
  - by vm_compute.
Qed.

(** A semaphore without permits, a coroutine that waits and is resumed by
    another thread's release, and releases it in turn. *)
Lemma semaphore_accounting_witness :
  ∃ s, sem_reachable addr64 0 s ∧ available s = 2 ∧ admitted s = [1%nat] ∧ taken s = []
    ∧ available s + Z.of_nat (length (taken s)) = 0 + released s ∧ corrupt s = false.
Proof.
  assert (∃ s, sem_reachable addr64 0 s ∧ available s = 2 ∧ admitted s = [1%nat] ∧ taken s = [] ∧ released s = 2
            ∧ overlapped s = false) as (s & Hr & H1 & H2 & H3 & H4 & H5).
  { eexists. split; [unfold sem_reachable; run_block 1%nat; run 1%nat push_ok; run_release_wake 0%nat;
      run 1%nat release_add; run 1%nat release_load; run 1%nat release_empty; apply steps_refl|]. by vm_compute. }
  destruct (semaphore_accounting addr64 0 s addr64_layout ltac:(lia) Hr) as ((_ & Hc) & _ & _ & Ho); [by rewrite H4|].
  exists s. do 4 (split; [assumption|]). split; [exact Hc|]. apply (Ho H5).
Defined.
