(* ===== verification/PoolLists.v ===== *)
(** The building blocks of [memory_pool.cc]: the size-class computation, the
    Vyukov ring that returns freed objects ([MPMCRing] of that file), and the
    intrusive free list of medium objects ([CentralFreeList]).  The pool is
    used by one worker, so each operation runs alone; the retry loops of the
    compare-exchanges carry fuel, and the lemmas show two turns suffice. *)
From S2P Require Import Prelude Circ.

(** ** Size classes *)

Definition kSizeClasses : list Z := [8; 16; 32; 64; 128; 256].
Definition kNumSizeClasses : Z := 6.
Definition kSmallObjectMax : Z := 256.
Definition kMediumObjectMax : Z := 4096.
Definition kBlockSize : Z := 1048576.
Definition kBlockAlignment : Z := 64.

(** [__builtin_ctzll], on its defined domain. *)
Fixpoint ctz (fuel : nat) (s : Z) : Z :=
  match fuel with
  | O => 0
  | S f => if Z.odd s then 0 else 1 + ctz f (Z.div2 s)
  end.

Definition smear (s : Z) : Z :=
  let s := Z.lor s (Z.shiftr s 1) in
  let s := Z.lor s (Z.shiftr s 2) in
  let s := Z.lor s (Z.shiftr s 4) in
  let s := Z.lor s (Z.shiftr s 8) in
  let s := Z.lor s (Z.shiftr s 16) in
  Z.lor s (Z.shiftr s 32).

Definition size_class_index (size : Z) : Z :=
  if size <=? 8 then 0
  else
    let s := smear (size -64 1) +64 1 in
    let idx := ctz 64 s -64 3 in
    if idx <? kNumSizeClasses then idx else kNumSizeClasses.

(** Bit [i] of [s] is set iff some bit of [s0] in [[i, i + w)] is. *)
Definition smeared (w s0 s : Z) : Prop :=
  ∀ i, 0 ≤ i → Z.testbit s i = true ↔ ∃ j, i ≤ j < i + w ∧ Z.testbit s0 j = true.

Lemma smeared_double w s0 s :
  0 < w → smeared w s0 s → smeared (2 * w) s0 (Z.lor s (Z.shiftr s w)).
Proof.
  intros Hw H i Hi. rewrite Z.lor_spec, Z.shiftr_spec, orb_true_iff by done.
  rewrite (H i), (H (i + w)) by lia. split.
  - intros [(j & ? & ?)|(j & ? & ?)]; exists j; split; lia || done.
  - intros (j & ? & ?). destruct (decide (j < i + w)); [left|right]; exists j; split; lia || done.
Qed.

Lemma smeared_ones s0 s : 0 < s0 < 2 ^ 64 → smeared 64 s0 s → 0 ≤ s → s = Z.ones (Z.log2 s0 + 1).
Proof.
  intros Hs H Hnn. pose proof (Z.log2_nonneg s0).
  assert (Z.log2 s0 < 64) by (apply Z.log2_lt_pow2; lia).
  apply Z.bits_inj'. intros i Hi. destruct (Z.ltb_spec i (Z.log2 s0 + 1)).
  - rewrite Z.ones_spec_low by lia. apply (H i Hi). exists (Z.log2 s0).
    split; [lia|]. apply Z.bit_log2. lia.
  - rewrite Z.ones_spec_high by lia. apply not_true_is_false. rewrite (H i Hi).
    intros (j & ? & E). rewrite Z.bits_above_log2 in E by lia. done.
Qed.

Lemma smear_spec s : 0 < s < 2 ^ 64 → smear s = Z.ones (Z.log2 s + 1).
Proof.
  intros Hs. apply smeared_ones; [done| |].
  - unfold smear. apply (smeared_double 32), (smeared_double 16), (smeared_double 8),
      (smeared_double 4), (smeared_double 2), (smeared_double 1); try lia.
    intros i Hi. split; [intros E; exists i; split; [lia|done]|].
    intros (j & ? & E). by replace i with j by lia.
  - assert (∀ a n, 0 ≤ a → 0 ≤ Z.lor a (Z.shiftr a n)) as Hn.
    { intros. apply Z.lor_nonneg. split; [done|by apply Z.shiftr_nonneg]. }
    unfold smear. repeat apply Hn. lia.
Qed.

Lemma ctz_pow2 n fuel : 0 ≤ n < Z.of_nat fuel → ctz fuel (2 ^ n) = n.
Proof.
  revert n. induction fuel as [|f IH]; intros n Hn; [lia|]. simpl.
  destruct (decide (n = 0)) as [->|Hz]; [done|].
  replace (2 ^ n) with (2 * 2 ^ (n - 1)) by (rewrite <- Z.pow_succ_r by lia; f_equal; lia).
  rewrite Z.odd_mul. simpl. rewrite Z.div2_div, Z.mul_comm, Z.div_mul by lia.
  rewrite IH by lia. lia.
Qed.

(** The bit trick is the rounded-up binary logarithm. *)
Lemma size_class_index_log2 size :
  8 < size ≤ 2 ^ 63 → size_class_index size = Z.min (Z.log2_up size - 3) 6.
Proof.
  intros Hs. unfold size_class_index. destruct (Z.leb_spec size 8); [lia|].
  rewrite (wrap64_small (size - 1)) by (unfold W64; lia). rewrite smear_spec by lia.
  assert (Z.log2_up size = Z.log2 (size - 1) + 1) as E.
  { rewrite Z.log2_up_eqn by lia. unfold Z.pred, Z.succ. f_equal. }
  pose proof (Z.log2_up_le_mono size (2 ^ 63) ltac:(lia)) as Hle.
  rewrite Z.log2_up_pow2 in Hle by lia.
  pose proof (Z.log2_up_spec size ltac:(lia)) as [_ Hup].
  assert (3 < Z.log2_up size).
  { destruct (Z.leb_spec (Z.log2_up size) 3) as [H3|]; [|done].
    pose proof (Z.pow_le_mono_r 2 _ _ ltac:(lia) H3). lia. }
  rewrite <- E, Z.ones_equiv, Z.add_pred_l, Z.add_1_r, Z.pred_succ.
  assert (0 < 2 ^ Z.log2_up size < W64).
  { split; [apply Z.pow_pos_nonneg; lia|]. apply (Z.pow_lt_mono_r 2 _ 64); lia. }
  rewrite (wrap64_small (2 ^ _)), ctz_pow2 by lia. rewrite wrap64_small by (unfold W64; lia).
  unfold kNumSizeClasses. zcases; lia.
Qed.

(** ** The Vyukov ring of returned objects *)

Module Vyukov.

Record Cell := mkCell { c_sequence : Z; c_data : Z }.
#[export] Instance Cell_inhabited : Inhabited Cell := populate (mkCell 0 0).

Record MPMCRing := mkRing { buffer : list Cell; head : Z; tail : Z }.

Definition Capacity : Z := 256.
Definition kMask : Z := Capacity - 1.

Definition make : MPMCRing :=
  mkRing ((λ i, mkCell i 0) <$> seqZ 0 Capacity) 0 0.

Definition cell_at (r : MPMCRing) (i : Z) : Cell := buffer r !!! Z.to_nat (Z.land i kMask).

(** [try_enqueue] from its load of [tail_] on. *)
Fixpoint enqueue_loop (fuel : nat) (r : MPMCRing) (t ptr : Z) : option (MPMCRing * bool) :=
  match fuel with
  | O => None
  | S f =>
      let diff := to_signed64 (c_sequence (cell_at r t) - t) in
      if diff <? 0 then Some (r, false)
      else if negb (diff =? 0) then enqueue_loop f r (tail r) ptr
      else if tail r =? t then
        Some (mkRing (<[Z.to_nat (Z.land t kMask) := mkCell (t +64 1) ptr]> (buffer r))
                (head r) (t +64 1), true)
      else enqueue_loop f r (tail r) ptr
  end.

Definition try_enqueue (r : MPMCRing) (ptr : Z) : option (MPMCRing * bool) :=
  enqueue_loop 2 r (tail r) ptr.

Fixpoint dequeue_loop (fuel : nat) (r : MPMCRing) (h : Z) : option (MPMCRing * option Z) :=
  match fuel with
  | O => None
  | S f =>
      let cell := cell_at r h in
      let diff := to_signed64 (c_sequence cell - (h +64 1)) in
      if diff <? 0 then Some (r, None)
      else if negb (diff =? 0) then dequeue_loop f r (head r)
      else if head r =? h then
        Some (mkRing (<[Z.to_nat (Z.land h kMask) := mkCell (h +64 Capacity) (c_data cell)]> (buffer r))
                (h +64 1) (tail r), Some (c_data cell))
      else dequeue_loop f r (head r)
  end.

Definition try_dequeue (r : MPMCRing) : option (MPMCRing * option Z) :=
  dequeue_loop 2 r (head r).

(** The ring holds [l], oldest first; [h] is the unbounded head position. *)
Record rep (r : MPMCRing) (h : Z) (l : list Z) : Prop := {
  rep_len : length (buffer r) = 256%nat;
  rep_head : head r = wrap64 h;
  rep_tail : tail r = wrap64 (h + Z.of_nat (length l));
  rep_room : Z.of_nat (length l) ≤ 256;
  rep_full : ∀ (j : nat) x, l !! j = Some x →
    buffer r !! slot 8 (h + Z.of_nat j) = Some (mkCell (wrap64 (h + Z.of_nat j + 1)) x);
  rep_free : ∀ j, Z.of_nat (length l) ≤ j < 256 →
    ∃ d, buffer r !! slot 8 (h + j) = Some (mkCell (wrap64 (h + j)) d)
}.

Lemma mask8 i : Z.to_nat (Z.land i kMask) = slot 8 i.
Proof. change kMask with (2 ^ 8 - 1). apply mask_slot. lia. Qed.

Lemma signed_small a b d : -256 ≤ d ≤ 256 → a - b = d → to_signed64 (wrap64 a - wrap64 b) = d.
Proof.
  intros Hd E. unfold to_signed64. rewrite wrap64_sub_l, wrap64_sub_r, E.
  unfold wrap64, W64. zcases; Z.div_mod_to_equations; lia.
Qed.

Lemma make_rep : rep make 0 [].
Proof.
  split; try done. intros j Hj. change (0 ≤ j < 256) in Hj. exists 0.
  change (buffer make) with ((λ i, mkCell i 0) <$> seqZ 0 Capacity).
  rewrite list_lookup_fmap, Z.add_0_l. unfold slot.
  rewrite Z.mod_small by (change (2 ^ 8) with 256; lia).
  rewrite lookup_seqZ_lt by (unfold Capacity; lia). simpl. do 2 f_equal.
  rewrite wrap64_small by (unfold W64; lia). lia.
Qed.

Lemma try_enqueue_rep r h l x :
  rep r h l →
  if bool_decide (Z.of_nat (length l) < 256)
  then ∃ r', try_enqueue r x = Some (r', true) ∧ rep r' h (l ++ [x])
  else try_enqueue r x = Some (r, false).
Proof.
  intros [Hlen Hh Ht Hroom Hfull Hfree]. unfold try_enqueue. simpl.
  unfold cell_at. rewrite mask8. set (n := Z.of_nat (length l)) in *.
  case_bool_decide as Hn.
  - assert (to_signed64 (c_sequence (buffer r !!! slot 8 (tail r)) - tail r) = 0) as ->.
    { rewrite Ht, slot_wrap by lia. destruct (Hfree n) as [d Hd]; [lia|].
      rewrite (list_lookup_total_correct _ _ _ Hd). apply signed_small; lia. }
    simpl. rewrite Z.eqb_refl. eexists. split; [done|].
    split; simpl; rewrite ?length_insert, ?length_app; try done.
    + rewrite Ht. autorewrite with wrap. f_equal. simpl. lia.
    + simpl. lia.
    + intros j y Hj. rewrite Ht, slot_wrap by lia.
      apply lookup_app_Some in Hj as [Hj|[Hj1 Hj2]].
      * pose proof (lookup_lt_Some _ _ _ Hj). rewrite list_lookup_insert_ne; [by apply Hfull|].
        intros E. apply slot_inj in E; lia.
      * apply list_lookup_singleton_Some in Hj2 as [Hj2 <-].
        replace (Z.of_nat j) with n by lia. rewrite list_lookup_insert_eq.
        -- by rewrite wrap64_add_l.
        -- rewrite Hlen. apply (slot_lt 8). lia.
    + intros j Hj. simpl in Hj. rewrite Ht, slot_wrap by lia.
      rewrite list_lookup_insert_ne; [apply Hfree; lia|]. intros E. apply slot_inj in E; lia.
  - assert (n = 256) as E by lia. destruct l as [|y l'] eqn:El; [simpl in n; lia|].
    pose proof (Hfull 0%nat y eq_refl) as H0. rewrite Z.add_0_r in H0.
    assert (to_signed64 (c_sequence (buffer r !!! slot 8 (tail r)) - tail r) = -255) as ->; [|done].
    rewrite Ht, slot_wrap by lia. assert (slot 8 (h + n) = slot 8 h) as ->.
    { unfold slot. f_equal. rewrite E. change 256 with (1 * 2 ^ 8). apply Z_mod_plus_full. }
    rewrite (list_lookup_total_correct _ _ _ H0). apply signed_small; lia.
Qed.

Lemma try_dequeue_rep r h l :
  rep r h l →
  match l with
  | [] => try_dequeue r = Some (r, None)
  | x :: l' => ∃ r', try_dequeue r = Some (r', Some x) ∧ rep r' (h + 1) l'
  end.
Proof.
  intros [Hlen Hh Ht Hroom Hfull Hfree]. unfold try_dequeue. simpl.
  unfold cell_at. rewrite mask8. assert (slot 8 (head r) = slot 8 h) as Es by (by rewrite Hh, slot_wrap).
  assert (head r +64 1 = h +64 1) as E1 by (by rewrite Hh, wrap64_add_l).
  rewrite Es, E1. destruct l as [|x l'].
  - destruct (Hfree 0) as [d Hd]; [simpl; lia|]. rewrite Z.add_0_r in Hd.
    rewrite (list_lookup_total_correct _ _ _ Hd). simpl.
    by rewrite (signed_small h (h + 1) (-1)) by lia.
  - pose proof (Hfull 0%nat x eq_refl) as H0. rewrite Z.add_0_r in H0.
    rewrite (list_lookup_total_correct _ _ _ H0). simpl.
    rewrite (signed_small (h + 1) (h + 1) 0) by lia. simpl. rewrite Z.eqb_refl.
    eexists. split; [done|]. simpl in *.
    assert (∀ j, 0 < j < 256 → slot 8 h ≠ slot 8 (h + j)) as Hne.
    { intros j Hj E. apply slot_inj in E; lia. }
    split; simpl; rewrite ?length_insert; try done.
    + rewrite Ht. f_equal. lia.
    + lia.
    + intros j y Hj. pose proof (lookup_lt_Some _ _ _ Hj).
      replace (h + 1 + Z.of_nat j) with (h + Z.of_nat (S j)) by lia.
      rewrite list_lookup_insert_ne by (apply Hne; lia). apply (Hfull (S j) y Hj).
    + intros j Hj. destruct (decide (j = 255)) as [->|Hj'].
      * assert (slot 8 (h + 1 + 255) = slot 8 h) as ->.
        { unfold slot. f_equal. replace (h + 1 + 255) with (h + 1 * 2 ^ 8) by lia. apply Z_mod_plus_full. }
        exists x. rewrite list_lookup_insert_eq by (rewrite Hlen; apply (slot_lt 8); lia).
        do 2 f_equal. rewrite Hh, wrap64_add_l. f_equal. unfold Capacity. lia.
      * replace (h + 1 + j) with (h + (j + 1)) by lia.
        rewrite list_lookup_insert_ne by (apply Hne; lia). apply Hfree. lia.
Qed.
End Vyukov.

(** ** The free list of medium objects *)

Module Central.

(** A freed medium object starts with its size and the link; [heap] maps the
    address of a freed object to them. *)
Record FreeNode := mkFree { f_size : Z; f_next : Z }.
Notation Heap := (gmap Z FreeNode).

Record CentralFreeList := mkCentral { c_head : Z; c_heap : Heap }.

Definition empty : CentralFreeList := mkCentral 0 ∅.

Definition push (c : CentralFreeList) (ptr size : Z) : CentralFreeList :=
  mkCentral ptr (<[ptr := mkFree size (c_head c)]> (c_heap c)).

(** [prev->next = v;] *)
Definition set_link (h : Heap) (p v : Z) : Heap :=
  alter (λ n, mkFree (f_size n) v) p h.

(** The scanning loop of [pop]; [None] is a dangling pointer or no fuel. *)
Fixpoint scan (fuel : nat) (h : Heap) (min_size found prev curr chain : Z) : option (Heap * Z * Z) :=
  match fuel with
  | O => None
  | S f =>
      if curr =? 0 then Some (h, found, chain)
      else match h !! curr with
        | None => None
        | Some n =>
            if (found =? 0) && (min_size <=? f_size n) then
              if prev =? 0 then scan f h min_size curr prev (f_next n) (f_next n)
              else scan f (set_link h prev (f_next n)) min_size curr prev (f_next n) chain
            else scan f h min_size found curr (f_next n) chain
        end
  end.

(** [while (tail->next) tail = tail->next;] *)
Fixpoint last_node (fuel : nat) (h : Heap) (t : Z) : option Z :=
  match fuel with
  | O => None
  | S f => match h !! t with
           | None => None
           | Some n => if f_next n =? 0 then Some t else last_node f h (f_next n)
           end
  end.

Definition pop (fuel : nat) (c : CentralFreeList) (min_size : Z) : option (CentralFreeList * option Z) :=
  let chain := c_head c in
  if chain =? 0 then Some (mkCentral 0 (c_heap c), None)
  else match scan fuel (c_heap c) min_size 0 0 chain chain with
    | None => None
    | Some (h, found, chain') =>
        let res := if found =? 0 then None else Some found in
        if chain' =? 0 then Some (mkCentral 0 h, res)
        else match last_node fuel h chain' with
          | None => None
          | Some t => Some (mkCentral chain' (set_link h t 0), res)
          end
    end.

(** [lseg h p l q]: the links from [p] visit the objects [l] and reach [q]. *)
Fixpoint lseg (h : Heap) (p : Z) (l : list (Z * Z)) (q : Z) : Prop :=
  match l with
  | [] => p = q
  | (a, sz) :: l' => p = a ∧ a ≠ 0 ∧ ∃ n, h !! a = Some n ∧ f_size n = sz ∧ lseg h (f_next n) l' q
  end.

Definition rep (c : CentralFreeList) (l : list (Z * Z)) : Prop :=
  lseg (c_heap c) (c_head c) l 0 ∧ NoDup l.*1.

(** First object of at least [min_size] bytes, and the list without it. *)
Fixpoint take_first (min_size : Z) (l : list (Z * Z)) : option Z * list (Z * Z) :=
  match l with
  | [] => (None, [])
  | (a, sz) :: l' =>
      if min_size <=? sz then (Some a, l')
      else let '(r, k) := take_first min_size l' in (r, (a, sz) :: k)
  end.

Lemma lseg_app h p l1 l2 q : lseg h p (l1 ++ l2) q ↔ ∃ m, lseg h p l1 m ∧ lseg h m l2 q.
Proof.
  revert p. induction l1 as [|[a sz] l1 IH]; intros p; simpl.
  - split; [by eexists|]. by intros (m & -> & ?).
  - split.
    + intros (-> & Ha & n & Hn & Hs & H). apply IH in H as (m & ? & ?). exists m. eauto 10.
    + intros (m & (-> & Ha & n & Hn & Hs & H) & H2). split; [done|]. split; [done|].
      exists n. split_and!; try done. apply IH. eauto.
Qed.

Lemma lseg_frame h h' p l q :
  (∀ a, a ∈ l.*1 → h' !! a = h !! a) → lseg h p l q → lseg h' p l q.
Proof.
  revert p. induction l as [|[a sz] l IH]; intros p Hf; simpl; [done|].
  intros (-> & Ha & n & Hn & Hs & H). split; [done|]. split; [done|]. exists n.
  split_and!; try done; [rewrite Hf; [done|left]|]. apply IH; [|done]. intros b Hb. apply Hf. by right.
Qed.

(** Redirecting the last link of a segment. *)
Lemma lseg_set_link h p l a sz q v :
  lseg h p (l ++ [(a, sz)]) q → a ∉ l.*1 → lseg (set_link h a v) p (l ++ [(a, sz)]) v.
Proof.
  intros (m & H1 & H2)%lseg_app Hna. apply lseg_app. exists m. split.
  - eapply lseg_frame; [|done]. intros b Hb. unfold set_link. rewrite lookup_alter_ne; [done|].
    by intros ->.
  - simpl in *. destruct H2 as (-> & Ha & n & Hn & Hs & _). split; [done|]. split; [done|].
    eexists. split; [unfold set_link; by rewrite lookup_alter_eq, Hn|]. done.
Qed.

(** After the find, the loop only walks to the end. *)
Lemma scan_found h min f p c l fuel chain :
  f ≠ 0 → lseg h c l 0 → (length l < fuel)%nat → scan fuel h min f p c chain = Some (h, f, chain).
Proof.
  intros Hf. revert c p fuel. induction l as [|[a sz] l IH]; intros c p fuel Hl Hlen;
    (destruct fuel as [|fuel]; [simpl in Hlen; lia|]); simpl in *.
  - by subst.
  - destruct Hl as (-> & Ha & n & Hn & Hs & Hl). rewrite (proj2 (Z.eqb_neq a 0) Ha), Hn.
    rewrite (proj2 (Z.eqb_neq f 0) Hf). simpl. apply IH; [done|lia].
Qed.

Definition last_addr (l : list (Z * Z)) : Z := match last l with Some (a, _) => a | None => 0 end.

Lemma scan_spec min h pre c l fuel chain :
  lseg h chain pre c → lseg h c l 0 → NoDup (pre ++ l).*1 → (length l < fuel)%nat →
  ∃ h' found chain', scan fuel h min 0 (last_addr pre) c chain = Some (h', found, chain')
    ∧ (found = 0 ↔ (take_first min l).1 = None)
    ∧ (found ≠ 0 → (take_first min l).1 = Some found)
    ∧ lseg h' chain' (pre ++ (take_first min l).2) 0.
Proof.
  revert pre c fuel. induction l as [|[a sz] l IH]; intros pre c fuel Hpre Hl Hnd Hlen;
    (destruct fuel as [|fuel]; [simpl in Hlen; lia|]); simpl in Hl; simpl scan.
  - subst c. simpl. exists h, 0, chain. split_and!; try done. by rewrite app_nil_r.
  - destruct Hl as (-> & Ha & n & Hn & Hs & Hl). rewrite (proj2 (Z.eqb_neq a 0) Ha), Hn. simpl.
    simpl in Hlen. rewrite Hs. destruct (Z.leb_spec min sz) as [Hm|Hm].
    + destruct pre as [|[b sb] pre _] using rev_ind.
      * simpl in *. subst chain. rewrite (scan_found _ _ _ _ _ l) by (done || lia).
        eexists _, _, _. split; [done|]. split_and!; done.
      * unfold last_addr. rewrite last_snoc.
        assert (b ≠ 0) as Hb. { apply lseg_app in Hpre as (m & _ & _ & ? & _). done. }
        rewrite (proj2 (Z.eqb_neq b 0) Hb).
        rewrite !fmap_app in Hnd. simpl in Hnd. rewrite <- app_assoc in Hnd.
        apply NoDup_app in Hnd as (Hn1 & Hn2 & Hn3). simpl in Hn3.
        apply NoDup_cons in Hn3 as [Hn3 Hn4].
        assert (lseg (set_link h b (f_next n)) (f_next n) l 0) as Hl'.
        { eapply lseg_frame; [|done]. intros x Hx. unfold set_link. rewrite lookup_alter_ne; [done|].
          intros ->. apply Hn3. right. done. }
        rewrite (scan_found _ _ _ _ _ l) by (done || lia).
        eexists _, _, _. split; [done|]. split; [done|]. split; [done|]. apply lseg_app.
        exists (f_next n). split; [|done]. eapply lseg_set_link; [done|].
        intros Hin. apply (Hn2 b Hin). left.
    + destruct (IH (pre ++ [(a, sz)]) (f_next n) fuel) as (h' & found & chain' & E & H1 & H2 & H3).
      * apply lseg_app. exists a. split; [done|]. simpl. eauto 10.
      * done.
      * by rewrite <- app_assoc.
      * lia.
      * unfold last_addr in E. rewrite last_snoc in E. exists h', found, chain'. split; [done|].
        destruct (take_first min l) as [r k]. simpl in *. split_and!; try done.
        by rewrite <- app_assoc in H3.
Qed.

Lemma last_node_spec h p l fuel :
  lseg h p l 0 → l ≠ [] → (length l ≤ fuel)%nat → last_node fuel h p = Some (last_addr l).
Proof.
  revert p l. induction fuel as [|fuel IH]; intros p l Hl Hne Hlen.
  - destruct l; [done|simpl in Hlen; lia].
  - destruct l as [|[a sz] l]; [done|]. destruct Hl as (-> & Ha & n & Hn & Hs & Hl). simpl.
    rewrite Hn. destruct l as [|[b sb] l].
    + simpl in Hl. by rewrite Hl.
    + pose proof Hl as Hl'. destruct Hl' as (E & Hb & _). rewrite E, (proj2 (Z.eqb_neq b 0) Hb), <- E.
      rewrite (IH (f_next n) ((b, sb) :: l)); [|done..|simpl in *; lia].
      by subst b.
Qed.

Lemma set_link_same h p l a sz :
  lseg h p (l ++ [(a, sz)]) 0 → a ∉ l.*1 → lseg (set_link h a 0) p (l ++ [(a, sz)]) 0.
Proof. apply lseg_set_link. Qed.

Lemma take_first_sub min l : sublist ((take_first min l).2).*1 l.*1.
Proof.
  induction l as [|[a sz] l IH]; simpl; [done|].
  destruct (min <=? sz); simpl; [by apply sublist_cons|].
  destruct (take_first min l) as [r k]. simpl in *. by apply sublist_skip.
Qed.

Lemma take_first_some min l a k :
  take_first min l = (Some a, k) → ∃ sz, min ≤ sz ∧ l ≡ₚ (a, sz) :: k.
Proof.
  revert k. induction l as [|[b sb] l IH]; intros k; simpl; [done|].
  destruct (Z.leb_spec min sb).
  - intros [= <- <-]. by exists sb.
  - destruct (take_first min l) as [r k'] eqn:E. intros [= -> <-].
    destruct (IH k' eq_refl) as (sz & ? & Hp). exists sz. split; [done|].
    rewrite Hp. apply Permutation_swap.
Qed.

Lemma take_first_none min l k : take_first min l = (None, k) → k = l.
Proof.
  revert k. induction l as [|[b sb] l IH]; intros k; simpl; [by intros [= <-]|].
  destruct (min <=? sb); [done|]. destruct (take_first min l) as [r k'] eqn:E.
  intros [= -> <-]. by rewrite (IH k' eq_refl).
Qed.

Lemma push_rep c l ptr size :
  rep c l → ptr ≠ 0 → ptr ∉ l.*1 → rep (push c ptr size) ((ptr, size) :: l).
Proof.
  intros [Hl Hn] Hp Hni. split; simpl; [|by apply NoDup_cons].
  split; [done|]. split; [done|]. eexists. rewrite lookup_insert_eq. split; [done|]. split; [done|].
  eapply lseg_frame; [|done]. intros a Ha. rewrite lookup_insert_ne; [done|]. by intros ->.
Qed.

Lemma exists_last_or_nil {A} (l : list A) : l = [] ∨ ∃ k x, l = k ++ [x].
Proof. destruct l as [|x l _] using rev_ind; eauto. Qed.

(** [pop] finds the first object that is large enough and keeps the others, in
    order. *)
Lemma pop_rep c l min fuel :
  rep c l → (length l < fuel)%nat →
  ∃ c', pop fuel c min = Some (c', (take_first min l).1) ∧ rep c' (take_first min l).2.
Proof.
  intros [Hl Hn] Hlen. unfold pop.
  assert (NoDup ((take_first min l).2).*1) as Hn'.
  { eapply sublist_NoDup; [done|]. apply take_first_sub. }
  destruct l as [|[a0 s0] l0] eqn:El.
  { simpl in Hl. rewrite Hl. simpl. eexists. split; [done|]. split; [done|constructor]. }
  rewrite <- El in *. assert (c_head c ≠ 0) as Hc. { rewrite El in Hl. destruct Hl as (-> & ? & _). done. }
  rewrite (proj2 (Z.eqb_neq _ 0) Hc).
  destruct (scan_spec min (c_heap c) [] (c_head c) l fuel (c_head c)) as (h & found & chain' & E & H1 & H2 & H3);
    try done. simpl in H3. unfold last_addr in E. simpl in E. rewrite E.
  assert ((if found =? 0 then None else Some found) = (take_first min l).1) as ->.
  { destruct (Z.eqb_spec found 0) as [Ez|Ez]; [symmetry; by apply H1|symmetry; by apply H2]. }
  set (k := (take_first min l).2) in *. destruct (exists_last_or_nil k) as [Ek|(k0 & x & Ek)]; rewrite Ek in *.
  - simpl in H3. subst chain'. simpl. eexists. split; [done|]. split; [done|constructor].
  - destruct x as [b sb]. assert (chain' ≠ 0) as Hch.
    { destruct k0 as [|[b' sb'] k1]; simpl in H3; destruct H3 as (-> & ? & _); done. }
    rewrite (proj2 (Z.eqb_neq _ 0) Hch).
    assert (length (k0 ++ [(b, sb)]) ≤ length l)%nat as Hk.
    { pose proof (sublist_length _ _ (take_first_sub min l)) as Hs. rewrite !length_fmap in Hs.
      fold k in Hs. rewrite Ek in Hs. done. }
    rewrite (last_node_spec h chain' (k0 ++ [(b, sb)]) fuel); [|done|by destruct k0|lia].
    unfold last_addr. rewrite last_snoc. eexists. split; [done|]. split; [|done]. simpl.
    apply set_link_same; [done|]. rewrite fmap_app in Hn'. apply NoDup_app in Hn' as (_ & Hd & _).
    intros Hin. apply (Hd b Hin). left.
Qed.
End Central.
