(* ===== verification/Pool.v ===== *)
(** [MemoryPool] ([memory_pool.h], [memory_pool.cc]): the tiered allocator of
    one worker.  The state is the pool, the two thread-local caches that
    [allocate] and [deallocate] each declare for themselves, and the addresses
    [operator new] hands out, which are an argument of the operations.  A free
    list of small objects is the list of their addresses: the links live in the
    freed objects. *)
From S2P Require Import Prelude Float64 Circ PoolLists.

(** ** Free lists of small objects *)

(** [SizeClassFreeList] and [ThreadLocalCache::LocalFreeList]. *)
Record FreeList := mkFL { fl_nodes : list Z; fl_count : Z }.
#[export] Instance FreeList_inhabited : Inhabited FreeList := populate (mkFL [] 0).

Definition fl_push (f : FreeList) (ptr : Z) : FreeList :=
  mkFL (ptr :: fl_nodes f) (fl_count f +64 1).
Definition fl_pop (f : FreeList) : FreeList * option Z :=
  match fl_nodes f with
  | [] => (f, None)
  | x :: l => (mkFL l (fl_count f -64 1), Some x)
  end.

(** [ThreadLocalCache]: one list per size class. *)
Notation ThreadLocalCache := (list FreeList).
Definition new_cache : ThreadLocalCache := replicate (Z.to_nat kNumSizeClasses) (mkFL [] 0).

Definition tlc_allocate (t : ThreadLocalCache) (c : Z) : ThreadLocalCache * option Z :=
  if c <? kNumSizeClasses then
    let '(f, r) := fl_pop (t !!! Z.to_nat c) in
    match r with None => (t, None) | Some x => (<[Z.to_nat c := f]> t, Some x) end
  else (t, None).
Definition tlc_deallocate (t : ThreadLocalCache) (ptr c : Z) : ThreadLocalCache :=
  if c <? kNumSizeClasses then <[Z.to_nat c := fl_push (t !!! Z.to_nat c) ptr]> t else t.
Definition list_count (t : ThreadLocalCache) (c : Z) : Z :=
  if c <? kNumSizeClasses then fl_count (t !!! Z.to_nat c) else 0.

(** The two function-local [thread_local] caches. *)
Record Tls := mkTls { tls_alloc : ThreadLocalCache; tls_free : ThreadLocalCache }.
Definition new_tls : Tls := mkTls new_cache new_cache.

(** ** The pool *)

Record AtomicStats := mkPStats {
  alloc_count : Z; free_count : Z; cache_hit_count : Z; cache_miss_count : Z;
  total_allocated : Z; total_freed : Z; peak_usage : Z
}.
Definition pstats0 : AtomicStats := mkPStats 0 0 0 0 0 0 0.

Record Pool := mkPool {
  small_free_lists : list FreeList;
  return_rings : list Vyukov.MPMCRing;
  preallocated_blocks : list Z;
  bump_block_ptr : Z;
  bump_offset : Z;
  bump_block_idx : Z;
  central_free_list : Central.CentralFreeList;
  allocated_blocks : list Z;
  pstats : AtomicStats
}.
#[export] Instance Ring_inhabited : Inhabited Vyukov.MPMCRing := populate Vyukov.make.

Definition kInitialBlocks : nat := 4.

(** [Impl::Impl]; [blocks] are the addresses [alloc_block] returns. *)
Definition make_pool (blocks : list Z) : Pool :=
  let pre := take kInitialBlocks blocks in
  mkPool (replicate 6 (mkFL [] 0)) (replicate 6 Vyukov.make) pre
    (match pre with b :: _ => b | [] => 0 end) 0 (match pre with _ :: _ => 0 | [] => SIZE_MAX end)
    Central.empty [] pstats0.

Definition upd_stats (f : AtomicStats → AtomicStats) (p : Pool) : Pool :=
  mkPool (small_free_lists p) (return_rings p) (preallocated_blocks p) (bump_block_ptr p)
    (bump_offset p) (bump_block_idx p) (central_free_list p) (allocated_blocks p) (f (pstats p)).
Definition add_alloc (s : AtomicStats) := mkPStats (alloc_count s +64 1) (free_count s)
  (cache_hit_count s) (cache_miss_count s) (total_allocated s) (total_freed s) (peak_usage s).
Definition add_free (n : Z) (s : AtomicStats) := mkPStats (alloc_count s) (free_count s +64 1)
  (cache_hit_count s) (cache_miss_count s) (total_allocated s) (total_freed s +64 n) (peak_usage s).
Definition add_hit (s : AtomicStats) := mkPStats (alloc_count s) (free_count s)
  (cache_hit_count s +64 1) (cache_miss_count s) (total_allocated s) (total_freed s) (peak_usage s).
Definition add_miss (s : AtomicStats) := mkPStats (alloc_count s) (free_count s)
  (cache_hit_count s) (cache_miss_count s +64 1) (total_allocated s) (total_freed s) (peak_usage s).
Definition add_bytes (n : Z) (s : AtomicStats) := mkPStats (alloc_count s) (free_count s)
  (cache_hit_count s) (cache_miss_count s) (total_allocated s +64 n) (total_freed s) (peak_usage s).

(** [(x + a - 1) & ~(a - 1)] *)
Definition align_up (x a : Z) : Z := Z.land (wrap64 (x + a - 1)) (Z.lnot (a - 1)).

Definition alloc_size (bytes alignment : Z) : Z :=
  if 16 <? alignment then align_up bytes alignment else bytes.

Definition set_bump (p : Pool) (blocks : list Z) (ptr off idx : Z) : Pool :=
  mkPool (small_free_lists p) (return_rings p) blocks ptr off idx
    (central_free_list p) (allocated_blocks p) (pstats p).

(** The index of the next pre-allocated block, from [i] on. *)
Fixpoint next_block (blocks : list Z) (i : Z) : option (Z * Z) :=
  match blocks with
  | [] => None
  | b :: rest => if negb (b =? 0) then Some (i, b) else next_block rest (i + 1)
  end.

Definition allocate_from_block (fresh : Z) (p : Pool) (size alignment : Z) : Pool * Z :=
  let align := Z.max alignment 16 in
  let off := align_up (bump_offset p) align in
  let size := align_up size align in
  let blocks := preallocated_blocks p in
  if negb (bump_block_ptr p =? 0) && (off +64 size <=? kBlockSize) then
    (upd_stats (add_bytes size) (set_bump p blocks (bump_block_ptr p) (off +64 size) (bump_block_idx p)),
     bump_block_ptr p +64 off)
  else
    let i := bump_block_idx p +64 1 in
    match next_block (drop (Z.to_nat i) blocks) i with
    | Some (i', b) => (upd_stats (add_bytes size) (set_bump p blocks b size i'), b)
    | None =>
        let blocks' := blocks ++ [fresh] in
        (upd_stats (add_bytes size)
           (set_bump p blocks' fresh size (Z.of_nat (length blocks') -64 1)), fresh)
    end.

Definition set_class (p : Pool) (c : Z) (f : FreeList) (r : Vyukov.MPMCRing) : Pool :=
  mkPool (<[Z.to_nat c := f]> (small_free_lists p)) (<[Z.to_nat c := r]> (return_rings p))
    (preallocated_blocks p) (bump_block_ptr p) (bump_offset p) (bump_block_idx p)
    (central_free_list p) (allocated_blocks p) (pstats p).
Definition set_medium (p : Pool) (c : Central.CentralFreeList) (blocks : list Z) : Pool :=
  mkPool (small_free_lists p) (return_rings p) (preallocated_blocks p) (bump_block_ptr p)
    (bump_offset p) (bump_block_idx p) c blocks (pstats p).

(** Drain the return ring into the central list, at most [n] objects. *)
Fixpoint drain (n : nat) (r : Vyukov.MPMCRing) (f : FreeList) : option (Vyukov.MPMCRing * FreeList) :=
  match n with
  | O => Some (r, f)
  | S n' => match Vyukov.try_dequeue r with
            | None => None
            | Some (r', None) => Some (r', f)
            | Some (r', Some x) => drain n' r' (fl_push f x)
            end
  end.

Definition allocate_small (fresh : Z) (t : Tls) (p : Pool) (size alignment : Z) : option (Tls * Pool * Z) :=
  let c := size_class_index size in
  let class_size := kSizeClasses !!! Z.to_nat c in
  let '(ta, hit) := tlc_allocate (tls_alloc t) c in
  match hit with
  | Some x => Some (mkTls ta (tls_free t), upd_stats add_hit p, x)
  | None =>
      match drain 16 (return_rings p !!! Z.to_nat c) (small_free_lists p !!! Z.to_nat c) with
      | None => None
      | Some (r, f) =>
          match fl_pop f with
          | (f', Some x) => Some (t, upd_stats add_hit (set_class p c f' r), x)
          | (f', None) =>
              let '(p', x) := allocate_from_block fresh (upd_stats add_miss (set_class p c f' r))
                                class_size alignment in
              Some (t, p', x)
          end
      end
  end.

(** [Impl::allocate]; [fuel] bounds the walk over the medium free list. *)
Definition allocate (fuel : nat) (fresh : Z) (t : Tls) (p : Pool) (bytes alignment : Z)
  : option (Tls * Pool * Z) :=
  let p := upd_stats add_alloc p in
  let size := alloc_size bytes alignment in
  if size <=? kSmallObjectMax then allocate_small fresh t p size alignment
  else if size <=? kMediumObjectMax then
    match Central.pop fuel (central_free_list p) size with
    | None => None
    | Some (c, Some x) => Some (t, upd_stats add_hit (set_medium p c (allocated_blocks p)), x)
    | Some (c, None) =>
        Some (t, upd_stats add_miss (set_medium p c (allocated_blocks p ++ [fresh])), fresh)
    end
  else Some (t, upd_stats add_miss p, fresh).

(** [Impl::deallocate]; the flag tells whether [operator delete] was called. *)
Definition deallocate (t : Tls) (p : Pool) (ptr bytes alignment : Z) : option (Tls * Pool * bool) :=
  let size := alloc_size bytes alignment in
  let p := upd_stats (add_free size) p in
  if size <=? kSmallObjectMax then
    let c := size_class_index size in
    if 64 <? list_count (tls_free t) c then
      match Vyukov.try_enqueue (return_rings p !!! Z.to_nat c) ptr with
      | None => None
      | Some (r, _) => Some (t, set_class p c (small_free_lists p !!! Z.to_nat c) r, false)
      end
    else Some (mkTls (tls_alloc t) (tlc_deallocate (tls_free t) ptr c), p, false)
  else if size <=? kMediumObjectMax then
    Some (t, set_medium p (Central.push (central_free_list p) ptr size) (allocated_blocks p), false)
  else Some (t, p, true).

(** [Impl::warmup]; [blocks] are the addresses [alloc_block] returns. *)
Definition warmup_blocks (total_bytes : Z) : Z := (total_bytes +64 (kBlockSize - 1)) / kBlockSize.
Definition warmup (p : Pool) (blocks : list Z) (total_bytes : Z) : Pool :=
  set_bump p (preallocated_blocks p ++ take (Z.to_nat (warmup_blocks total_bytes)) blocks)
    (bump_block_ptr p) (bump_offset p) (bump_block_idx p).

(** [Impl::stats] and [MemoryPoolStats]. *)
Definition current_in_use (p : Pool) : Z := total_allocated (pstats p) -64 total_freed (pstats p).
Record MemoryPoolStats := mkPoolStats {
  s_total_allocated : Z; s_total_freed : Z; s_current_in_use : Z; s_peak_usage : Z;
  s_alloc_count : Z; s_free_count : Z; s_cache_hit_count : Z; s_cache_miss_count : Z
}.
Definition stats (p : Pool) : MemoryPoolStats :=
  let s := pstats p in
  mkPoolStats (total_allocated s) (total_freed s) (current_in_use p) (peak_usage s)
    (alloc_count s) (free_count s) (cache_hit_count s) (cache_miss_count s).
Definition cache_hit_rate (s : MemoryPoolStats) : double :=
  let total := s_cache_hit_count s +64 s_cache_miss_count s in
  if total =? 0 then d_zero else d_div (d_of_Z (s_cache_hit_count s)) (d_of_Z total).

(** [Impl::~Impl]: the blocks given back to the system. *)
Definition destroy (p : Pool) : list Z * list Z :=
  (filter (λ b, b ≠ 0) (preallocated_blocks p), allocated_blocks p).

(** ** Invariant of the small-object tier *)

Definition class_size (c : Z) : Z := kSizeClasses !!! Z.to_nat c.

(** Two ranges of memory do not overlap. *)
Definition apart (a n b m : Z) : Prop := a + n ≤ b ∨ b + m ≤ a.

(** How much of block number [i] the bump allocator has handed out. *)
Definition used (p : Pool) (i : Z) : Z :=
  if i <? bump_block_idx p then kBlockSize else if i =? bump_block_idx p then bump_offset p else 0.

Definition block_ok (b : Z) : Prop := 0 < b ∧ b + kBlockSize < W64 ∧ b mod 64 = 0.

(** The block supply: pairwise disjoint blocks, the bump block among them. *)
Record blocks_inv (p : Pool) : Prop := {
  bk_ok : ∀ b, b ∈ preallocated_blocks p → block_ok b;
  bk_apart : ∀ (i j : nat) b b', i ≠ j → preallocated_blocks p !! i = Some b →
    preallocated_blocks p !! j = Some b' → apart b kBlockSize b' kBlockSize;
  bk_bump : 0 ≤ bump_block_idx p ∧ preallocated_blocks p !! Z.to_nat (bump_block_idx p) = Some (bump_block_ptr p);
  bk_off : 0 ≤ bump_offset p ≤ kBlockSize ∧ bump_offset p mod 16 = 0
}.

(** Object [a] of class [c] lies in the part of a block already handed out. *)
Definition carved (p : Pool) (c a : Z) : Prop :=
  ∃ (i : nat) b, preallocated_blocks p !! i = Some b ∧ b ≤ a
    ∧ a + class_size c ≤ b + used p (Z.of_nat i) ∧ a mod 16 = 0.

(** Where the objects of class [c] are: in one of the caches, in the ring, in
    the central list, with the client, or dropped by a full ring. *)
Definition accounted (t : Tls) (p : Pool) (rl live lost objs : Z → list Z) (c : Z) : Prop :=
  objs c ≡ₚ fl_nodes (tls_alloc t !!! Z.to_nat c) ++ fl_nodes (tls_free t !!! Z.to_nat c)
    ++ rl c ++ fl_nodes (small_free_lists p !!! Z.to_nat c) ++ live c ++ lost c.

Definition is_class (c : Z) : Prop := 0 ≤ c < kNumSizeClasses.

Record objs_inv (t : Tls) (p : Pool) (rl live lost objs : Z → list Z) : Prop := {
  ob_len : length (tls_alloc t) = 6%nat ∧ length (tls_free t) = 6%nat
    ∧ length (small_free_lists p) = 6%nat ∧ length (return_rings p) = 6%nat;
  ob_ring : ∀ c, is_class c → ∃ h, Vyukov.rep (return_rings p !!! Z.to_nat c) h (rl c);
  ob_acc : ∀ c, is_class c → accounted t p rl live lost objs c;
  ob_nodup : ∀ c, is_class c → NoDup (objs c);
  ob_apart : ∀ c a c' a', is_class c → is_class c' → a ∈ objs c → a' ∈ objs c' →
    (c = c' ∧ a = a') ∨ apart a (class_size c) a' (class_size c');
  ob_carved : ∀ c a, is_class c → a ∈ objs c → carved p c a
}.

(** The caches of [allocate] are never filled. *)
Definition alloc_cache_empty (t : Tls) : Prop := ∀ c, is_class c → fl_nodes (tls_alloc t !!! Z.to_nat c) = [].

Lemma class_cases c : is_class c → c = 0 ∨ c = 1 ∨ c = 2 ∨ c = 3 ∨ c = 4 ∨ c = 5.
Proof. unfold is_class, kNumSizeClasses. lia. Qed.

Lemma class_size_pow c : is_class c → class_size c = 2 ^ (c + 3).
Proof. intros H. by destruct (class_cases c H) as [->|[->|[->|[->|[->| ->]]]]]. Qed.

Lemma class_size_bounds c : is_class c → 8 ≤ class_size c ≤ 256.
Proof. intros H. by destruct (class_cases c H) as [->|[->|[->|[->|[->| ->]]]]]. Qed.

(** A small request goes to the smallest class that holds it. *)
Lemma size_class_fits size :
  0 ≤ size ≤ 256 →
  is_class (size_class_index size) ∧ size ≤ class_size (size_class_index size)
  ∧ (0 < size_class_index size → class_size (size_class_index size - 1) < size).
Proof.
  intros Hs. destruct (decide (size ≤ 8)) as [H8|H8].
  { unfold size_class_index. rewrite (proj2 (Z.leb_le size 8) H8).
    split; [done|]. split; [|lia]. change (size ≤ 8). lia. }
  rewrite size_class_index_log2 by lia.
  pose proof (Z.log2_up_spec size ltac:(lia)) as [Hlo Hup].
  pose proof (Z.log2_up_le_mono size 256 ltac:(lia)) as Hle. change (Z.log2_up 256) with 8 in Hle.
  assert (3 < Z.log2_up size).
  { destruct (Z.leb_spec (Z.log2_up size) 3) as [H3|]; [|done].
    pose proof (Z.pow_le_mono_r 2 _ _ ltac:(lia) H3). lia. }
  rewrite Z.min_l by lia.
  assert (is_class (Z.log2_up size - 3)) as Hc by (unfold is_class, kNumSizeClasses; lia).
  split; [done|]. rewrite class_size_pow by done.
  replace (Z.log2_up size - 3 + 3) with (Z.log2_up size) by lia. split; [done|].
  intros Hpos. rewrite class_size_pow by (unfold is_class, kNumSizeClasses; lia).
  by replace (Z.log2_up size - 3 - 1 + 3) with (Z.pred (Z.log2_up size)) by lia.
Qed.

Lemma land_lnot x k : 0 ≤ k → Z.land x (Z.lnot (2 ^ k - 1)) = x - x mod 2 ^ k.
Proof.
  intros Hk. replace (2 ^ k - 1) with (Z.ones k) by (rewrite Z.ones_equiv; lia).
  rewrite <- Z.ldiff_land, Z.ldiff_ones_r, Z.shiftr_div_pow2, Z.shiftl_mul_pow2 by done.
  pose proof (Z.div_mod x (2 ^ k) ltac:(lia)). lia.
Qed.

(** [align_up] rounds up to a multiple of a power of two. *)
Lemma align_up_spec x k :
  0 ≤ k → 0 ≤ x → x + 2 ^ k ≤ W64 →
  x ≤ align_up x (2 ^ k) < x + 2 ^ k ∧ align_up x (2 ^ k) mod 2 ^ k = 0.
Proof.
  intros Hk Hx Hw. unfold align_up. rewrite wrap64_small by lia. rewrite land_lnot by done.
  set (m := 2 ^ k) in *. assert (0 < m) by (unfold m; lia).
  pose proof (Z.mod_pos_bound (x + m - 1) m ltac:(lia)). split; [lia|].
  rewrite Zminus_mod_idemp_r, Z.sub_diag. by apply Z.mod_0_l, Z.neq_sym, Z.lt_neq.
Qed.

(** What [operator new] promises for a new block: aligned as asked, and apart
    from the blocks that are in use. *)
Definition fresh_block (p : Pool) (b : Z) : Prop :=
  block_ok b ∧ ∀ b', b' ∈ preallocated_blocks p → apart b kBlockSize b' kBlockSize.

(** The object of [n] bytes at [x] was cut from unused space. *)
Record cut (p p' : Pool) (x n : Z) : Prop := {
  cut_at : ∃ (i : nat) b, preallocated_blocks p' !! i = Some b ∧ b + used p (Z.of_nat i) ≤ x
    ∧ b ≤ x ∧ x + n ≤ b + used p' (Z.of_nat i);
  cut_aligned : x mod 16 = 0;
  cut_used : ∀ i, used p i ≤ used p' i;
  cut_blocks : preallocated_blocks p `prefix_of` preallocated_blocks p';
  cut_rest : small_free_lists p' = small_free_lists p ∧ return_rings p' = return_rings p
    ∧ central_free_list p' = central_free_list p ∧ allocated_blocks p' = allocated_blocks p
}.

Lemma align16 k : 4 ≤ k ≤ 8 → ∀ x, x mod 2 ^ k = 0 → x mod 16 = 0.
Proof.
  intros Hk x Hx. apply Z.mod_divide in Hx; [|lia]. apply Z.mod_divide; [lia|].
  eapply Z.divide_trans; [|done]. exists (2 ^ (k - 4)).
  change 16 with (2 ^ 4). rewrite <- Z.pow_add_r by lia. f_equal. lia.
Qed.

Lemma next_block_first blocks i b rest :
  blocks = b :: rest → b ≠ 0 → next_block blocks i = Some (i, b).
Proof. intros -> Hb. simpl. by rewrite (proj2 (Z.eqb_neq b 0) Hb). Qed.

Lemma add_mod_16 a b : a mod 64 = 0 → b mod 16 = 0 → (a + b) mod 16 = 0.
Proof. intros. Z.div_mod_to_equations. lia. Qed.

(** The object fits behind the bump offset of the current block. *)
Lemma cut_current p size off sz :
  blocks_inv p → bump_offset p ≤ off → off mod 16 = 0 → 0 ≤ size ≤ sz → sz mod 16 = 0 → off + sz ≤ kBlockSize →
  let p' := upd_stats (add_bytes sz) (set_bump p (preallocated_blocks p) (bump_block_ptr p) (off + sz) (bump_block_idx p)) in
  blocks_inv p' ∧ cut p p' (bump_block_ptr p + off) size.
Proof.
  intros [Hok Hap [Hi0 Hi] [Hoff Hoff16]] Hau Ham' Hsu Hsm' Hfit p'.
  assert (block_ok (bump_block_ptr p)) as (Hb0 & Hbw & Hb64) by (apply Hok, list_elem_of_lookup; eauto).
  split; split; simpl; try done.
  - split; [lia|]. by rewrite Zplus_mod, Ham', Hsm'.
  - exists (Z.to_nat (bump_block_idx p)), (bump_block_ptr p). split; [done|].
    unfold used. simpl. rewrite Z2Nat.id, Z.ltb_irrefl, Z.eqb_refl by done. lia.
  - by apply add_mod_16.
  - intros i. unfold used. simpl. zcases; lia.
Qed.

(** The object opens a block that [operator new] has just returned. *)
Lemma cut_fresh p fresh size sz :
  blocks_inv p → fresh_block p fresh → 0 ≤ size ≤ sz → sz mod 16 = 0 → sz ≤ kBlockSize →
  Z.of_nat (length (preallocated_blocks p)) = bump_block_idx p + 1 →
  let p' := upd_stats (add_bytes sz) (set_bump p (preallocated_blocks p ++ [fresh]) fresh sz (bump_block_idx p + 1)) in
  blocks_inv p' ∧ cut p p' fresh size.
Proof.
  intros [Hok Hap [Hi0 Hi] [Hoff Hoff16]] [Hf Hfa] Hsu Hsm' Hk Hl p'. destruct Hf as (Hf0 & Hfw & Hf64).
  apply lookup_lt_Some in Hi as Hi'. split; split; simpl; try done.
  - intros b [Hb|Hb]%elem_of_app; [by apply Hok|]. by apply list_elem_of_singleton in Hb as ->.
  - intros i j b b' Hij [Hbi|[Hbi1 Hbi2]]%lookup_app_Some [Hbj|[Hbj1 Hbj2]]%lookup_app_Some;
      repeat match goal with H : [fresh] !! _ = Some _ |- _ =>
        apply list_lookup_singleton_Some in H as [? <-] end.
    + by eapply Hap.
    + destruct (Hfa b) as [?|?]; [apply list_elem_of_lookup; eauto|by right|by left].
    + apply Hfa, list_elem_of_lookup; eauto.
    + lia.
  - split; [lia|]. rewrite lookup_app_r by lia. apply list_lookup_singleton_Some. split; [lia|done].
  - split; [unfold kBlockSize in *; lia|done].
  - exists (length (preallocated_blocks p)), fresh. unfold used. simpl. rewrite Hl.
    split; [rewrite lookup_app_r, Nat.sub_diag by lia; done|]. zcases; lia.
  - by rewrite <- (Z.add_0_r fresh), add_mod_16.
  - intros i. unfold used. simpl. unfold kBlockSize in *. zcases; lia.
  - by apply prefix_app_r.
Qed.

(** The object opens the next preallocated block. *)
Lemma cut_next p b size sz :
  blocks_inv p → preallocated_blocks p !! Z.to_nat (bump_block_idx p + 1) = Some b →
  0 ≤ size ≤ sz → sz mod 16 = 0 → sz ≤ kBlockSize →
  let p' := upd_stats (add_bytes sz) (set_bump p (preallocated_blocks p) b sz (bump_block_idx p + 1)) in
  blocks_inv p' ∧ cut p p' b size.
Proof.
  intros [Hok Hap [Hi0 Hi] [Hoff Hoff16]] Hb Hsu Hsm' Hk p'.
  assert (block_ok b) as (Hx0 & Hxw & Hx64) by (apply Hok, list_elem_of_lookup; eauto).
  split; split; simpl; try done.
  - split; [lia|done].
  - split; [unfold kBlockSize in *; lia|done].
  - exists (Z.to_nat (bump_block_idx p + 1)), b. split; [done|]. unfold used. simpl.
    rewrite Z2Nat.id by lia. zcases; lia.
  - by rewrite <- (Z.add_0_r b), add_mod_16.
  - intros i. unfold used. simpl. unfold kBlockSize in *. zcases; lia.
Qed.

Lemma allocate_from_block_spec fresh p size k p' x :
  blocks_inv p → fresh_block p fresh → 8 ≤ size ≤ 256 → 0 ≤ k ≤ 8 →
  Z.of_nat (length (preallocated_blocks p)) < SIZE_MAX →
  allocate_from_block fresh p size (2 ^ k) = (p', x) →
  blocks_inv p' ∧ cut p p' x size.
Proof.
  intros Hinv Hfresh Hs Hk Hlen E. pose proof Hinv as [Hok Hap [Hi0 Hi] [Hoff Hoff16]].
  set (k' := Z.max k 4). assert (Z.max (2 ^ k) 16 = 2 ^ k') as Hmax.
  { unfold k'. destruct (Z.max_spec k 4) as [[? ->]|[? ->]].
    - rewrite Z.max_r; [done|]. change 16 with (2 ^ 4). apply Z.pow_le_mono_r; lia.
    - rewrite Z.max_l; [done|]. change 16 with (2 ^ 4). apply Z.pow_le_mono_r; lia. }
  assert (4 ≤ k' ≤ 8) as Hk' by lia.
  assert (16 ≤ 2 ^ k' ≤ 256) as Hp.
  { change 16 with (2 ^ 4). change 256 with (2 ^ 8). split; apply Z.pow_le_mono_r; lia. }
  unfold allocate_from_block in E. rewrite Hmax in E.
  destruct (align_up_spec (bump_offset p) k') as [Hau Ham]; [lia|lia|unfold W64, kBlockSize in *; lia|].
  destruct (align_up_spec size k') as [Hsu Hsm]; [lia|lia|unfold W64; lia|].
  pose proof (align16 k' Hk' _ Ham) as Ham'. pose proof (align16 k' Hk' _ Hsm) as Hsm'.
  set (off := align_up (bump_offset p) (2 ^ k')) in *. set (sz := align_up size (2 ^ k')) in *.
  assert (block_ok (bump_block_ptr p)) as (Hb0 & Hbw & Hb64) by (apply Hok, list_elem_of_lookup; eauto).
  rewrite (wrap64_small (off + sz)) in E by (unfold W64, kBlockSize in *; lia).
  rewrite (proj2 (Z.eqb_neq _ 0)) in E by lia. simpl in E.
  destruct (Z.leb_spec (off + sz) kBlockSize) as [Hfit|Hfit].
  - injection E as <- <-. rewrite wrap64_small by (unfold kBlockSize, W64 in *; lia).
    by apply cut_current; try lia.
  - destruct (drop (Z.to_nat (bump_block_idx p +64 1)) (preallocated_blocks p)) as [|b rest] eqn:Ed.
    + simpl in E. injection E as <- <-. apply lookup_lt_Some in Hi as Hi'.
      assert (Z.of_nat (length (preallocated_blocks p)) = bump_block_idx p + 1) as Hl.
      { apply (f_equal length) in Ed. rewrite length_drop in Ed. simpl in Ed.
        rewrite wrap64_small in Ed by (unfold SIZE_MAX in *; lia). lia. }
      assert (Z.of_nat (length (preallocated_blocks p ++ [fresh])) -64 1 = bump_block_idx p + 1) as ->.
      { rewrite length_app. simpl. rewrite wrap64_small by (unfold SIZE_MAX in *; lia). lia. }
      apply cut_fresh; unfold kBlockSize; done || lia.
    + apply lookup_lt_Some in Hi as Hi'.
      assert (bump_block_idx p +64 1 = bump_block_idx p + 1) as Ew
        by (apply wrap64_small; unfold SIZE_MAX in *; lia). rewrite Ew in *.
      assert (preallocated_blocks p !! Z.to_nat (bump_block_idx p + 1) = Some b) as Hb.
      { replace (Z.to_nat (bump_block_idx p + 1)) with (Z.to_nat (bump_block_idx p + 1) + 0)%nat by lia.
        by rewrite <- lookup_drop, Ed. }
      assert (block_ok b) as (Hx0 & Hxw & Hx64) by (apply Hok, list_elem_of_lookup; eauto).
      rewrite (next_block_first _ _ b rest) in E by (done || lia). injection E as <- <-.
      apply cut_next; unfold kBlockSize; done || lia.
Qed.

(** ** The operations preserve the invariant *)

Lemma drain_spec n r h rl f :
  Vyukov.rep r h rl →
  ∃ r' h' rl' f', drain n r f = Some (r', f') ∧ Vyukov.rep r' h' rl'
    ∧ rl ++ fl_nodes f ≡ₚ rl' ++ fl_nodes f'.
Proof.
  revert r h rl f. induction n as [|n IH]; intros r h rl f Hr; simpl.
  - by eexists r, h, rl, f.
  - pose proof (Vyukov.try_dequeue_rep r h rl Hr) as Hd. destruct rl as [|x rl].
    + rewrite Hd. by eexists r, h, [], f.
    + destruct Hd as (r' & E & Hr'). rewrite E.
      destruct (IH r' (h + 1) rl (fl_push f x) Hr') as (r2 & h2 & rl2 & f2 & E2 & Hr2 & Hp).
      exists r2, h2, rl2, f2. split_and!; try done. rewrite <- Hp. simpl.
      by rewrite Permutation_middle.
Qed.

Lemma class_index_inj c c' : is_class c → is_class c' → Z.to_nat c = Z.to_nat c' → c = c'.
Proof. unfold is_class. lia. Qed.

Lemma class_index_lt c : is_class c → (Z.to_nat c < 6)%nat.
Proof. unfold is_class, kNumSizeClasses. lia. Qed.

(** Objects change hands: the set of objects and the blocks stay. *)
Lemma objs_move t p rl live lost objs t' p' rl' live' lost' :
  objs_inv t p rl live lost objs →
  length (tls_alloc t') = 6%nat → length (tls_free t') = 6%nat →
  length (small_free_lists p') = 6%nat → length (return_rings p') = 6%nat →
  preallocated_blocks p' = preallocated_blocks p → bump_block_idx p' = bump_block_idx p →
  bump_offset p' = bump_offset p →
  (∀ c, is_class c → ∃ h, Vyukov.rep (return_rings p' !!! Z.to_nat c) h (rl' c)) →
  (∀ c, is_class c → accounted t' p' rl' live' lost' objs c) →
  objs_inv t' p' rl' live' lost' objs.
Proof.
  intros [_ _ _ Hn Ha Hc] ? ? ? ? Hb Hi Ho Hr Hacc. split; try done.
  intros c a Hcl Hin. destruct (Hc c a Hcl Hin) as (i & b & ? & ? & ? & ?). exists i, b.
  unfold used in *. rewrite Hb, Hi, Ho. done.
Qed.

(** A new object is cut from a block. *)
Lemma objs_cut t p rl live lost objs p' c x :
  blocks_inv p → blocks_inv p' → objs_inv t p rl live lost objs → is_class c →
  cut p p' x (class_size c) →
  objs_inv t p' rl (<[c := x :: live c]> live) lost (<[c := x :: objs c]> objs).
Proof.
  intros Hbi Hbi' [Hl Hr Hacc Hn Ha Hc] Hcl [(i & b & Hib & Hux & Hbx & Hxu) H16 Hus Hpre (Er1 & Er2 & _)].
  pose proof (class_size_bounds c Hcl) as Hcs.
  assert (∀ i', used p' i' ≤ kBlockSize) as Hused.
  { intros i'. unfold used. pose proof (bk_off _ Hbi') as [? _]. unfold kBlockSize in *. zcases; lia. }
  assert (∀ c' a', is_class c' → a' ∈ objs c' → apart x (class_size c) a' (class_size c')) as Hnew.
  { intros c' a' Hc' Ha'. destruct (Hc c' a' Hc' Ha') as (j & b' & Hj & Hle & Hend & _).
    pose proof (class_size_bounds c' Hc'). pose proof (Hus (Z.of_nat j)). pose proof (Hused (Z.of_nat j)).
    pose proof (Hused (Z.of_nat i)).
    assert (preallocated_blocks p' !! j = Some b') as Hj' by (by eapply prefix_lookup_Some).
    destruct (decide (i = j)) as [<-|Hij].
    - rewrite Hib in Hj'. injection Hj' as <-. right. lia.
    - destruct (bk_apart _ Hbi' i j b b' Hij Hib Hj') as [?|?]; [left|right]; lia. }
  split.
  - by rewrite Er1, Er2.
  - by rewrite Er2.
  - intros c' Hc'. unfold accounted in *. rewrite Er1. destruct (decide (c' = c)) as [->|].
    + rewrite !fn_lookup_insert, (Hacc c Hc'). solve_Permutation.
    + rewrite !fn_lookup_insert_ne by done. by apply Hacc.
  - intros c' Hc'. destruct (decide (c' = c)) as [->|].
    + rewrite fn_lookup_insert. apply NoDup_cons. split; [|by apply Hn].
      intros Hin. destruct (Hnew c x Hc' Hin); lia.
    + rewrite fn_lookup_insert_ne by done. by apply Hn.
  - assert (∀ c' a', is_class c' → a' ∈ <[c := x :: objs c]> objs c' →
              (c' = c ∧ a' = x) ∨ a' ∈ objs c') as Hcase.
    { intros c' a' Hc'. destruct (decide (c' = c)) as [->|].
      - rewrite fn_lookup_insert, elem_of_cons. naive_solver.
      - rewrite fn_lookup_insert_ne by done. naive_solver. }
    intros c1 a1 c2 a2 H1 H2 [[-> ->]|Ha1]%Hcase [[-> ->]|Ha2]%Hcase; try done.
    + by left.
    + right. by apply Hnew.
    + right. destruct (Hnew c1 a1 H1 Ha1); [by right|by left].
    + by apply Ha.
  - intros c' a' Hc' Hin. destruct (decide (c' = c ∧ a' = x)) as [[-> ->]|Hno].
    + by exists i, b.
    + assert (a' ∈ objs c') as Hin'.
      { destruct (decide (c' = c)) as [->|]; [|by rewrite fn_lookup_insert_ne in Hin].
        rewrite fn_lookup_insert, elem_of_cons in Hin. naive_solver. }
      destruct (Hc c' a' Hc' Hin') as (j & b' & Hj & ? & ? & ?). exists j, b'.
      split_and!; try done; [by eapply prefix_lookup_Some|]. pose proof (Hus (Z.of_nat j)). lia.
Qed.

Lemma blocks_inv_same p p' :
  preallocated_blocks p' = preallocated_blocks p → bump_block_ptr p' = bump_block_ptr p →
  bump_offset p' = bump_offset p → bump_block_idx p' = bump_block_idx p →
  blocks_inv p → blocks_inv p'.
Proof. intros E1 E2 E3 E4 []. split; rewrite ?E1, ?E2, ?E3, ?E4; done. Qed.

(** After draining the ring of class [c]. *)
Lemma objs_drained t p rl live lost objs c r h rlc f :
  objs_inv t p rl live lost objs → is_class c → Vyukov.rep r h rlc →
  rl c ++ fl_nodes (small_free_lists p !!! Z.to_nat c) ≡ₚ rlc ++ fl_nodes f →
  objs_inv t (set_class p c f r) (<[c := rlc]> rl) live lost objs.
Proof.
  intros Hinv Hcl Hr Hp. pose proof Hinv as [(L1 & L2 & L3 & L4) Hri Hacc _ _ _].
  pose proof (class_index_lt c Hcl).
  eapply objs_move; try done; simpl; rewrite ?length_insert; try done.
  - intros c' Hc'. destruct (decide (c' = c)) as [->|Hne].
    + rewrite fn_lookup_insert, list_lookup_total_insert_eq by lia. eauto.
    + rewrite fn_lookup_insert_ne, list_lookup_total_insert_ne; [by apply Hri| |done].
      intros E. by apply class_index_inj in E.
  - intros c' Hc'. unfold accounted in *. simpl. specialize (Hacc c' Hc').
    destruct (decide (c' = c)) as [->|Hne].
    + rewrite fn_lookup_insert, list_lookup_total_insert_eq by lia. rewrite Hacc.
      do 2 f_equiv. rewrite !(assoc _ (rl c)), !(assoc _ rlc). by rewrite Hp.
    + rewrite fn_lookup_insert_ne, list_lookup_total_insert_ne; [done| |done].
      intros E. by apply class_index_inj in E.
Qed.

Lemma allocate_small_spec fresh t p rl live lost objs size k :
  objs_inv t p rl live lost objs → blocks_inv p → fresh_block p fresh →
  Z.of_nat (length (preallocated_blocks p)) < SIZE_MAX → 0 ≤ size ≤ 256 → 0 ≤ k ≤ 8 →
  let c := size_class_index size in
  ∃ t' p' x rl' objs', allocate_small fresh t p size (2 ^ k) = Some (t', p', x)
    ∧ objs_inv t' p' rl' (<[c := x :: live c]> live) lost objs' ∧ blocks_inv p'
    ∧ (alloc_cache_empty t → t' = t) ∧ preallocated_blocks p `prefix_of` preallocated_blocks p'
    ∧ central_free_list p' = central_free_list p ∧ allocated_blocks p' = allocated_blocks p.
Proof.
  intros Hinv Hb Hf Hlen Hs Hk c. destruct (size_class_fits size Hs) as (Hcl & _ & _). fold c in Hcl.
  pose proof Hinv as [(L1 & L2 & L3 & L4) Hri Hacc _ _ _]. pose proof (class_index_lt c Hcl) as Hlt.
  assert (∀ c', is_class c' → c' ≠ c → Z.to_nat c ≠ Z.to_nat c') as Hne.
  { intros c' Hc' Hn E. by apply class_index_inj in E. }
  unfold allocate_small. fold c. fold (class_size c). unfold tlc_allocate.
  rewrite (proj2 (Z.ltb_lt c kNumSizeClasses)) by apply Hcl. unfold fl_pop at 1.
  destruct (fl_nodes (tls_alloc t !!! Z.to_nat c)) as [|x l] eqn:Eta.
  2: { eexists _, _, x, rl, objs. split; [done|]. split; [|split_and!; try done].
    - eapply objs_move; try done; simpl; rewrite ?length_insert; try done.
      intros c' Hc'. specialize (Hacc c' Hc'). unfold accounted in *. simpl.
      destruct (decide (c' = c)) as [->|Hn].
      + rewrite fn_lookup_insert, list_lookup_total_insert_eq by lia. simpl.
        rewrite Hacc, Eta. solve_Permutation.
      + by rewrite fn_lookup_insert_ne, list_lookup_total_insert_ne by auto.
    - by eapply blocks_inv_same; [..|exact Hb].
    - intros He. by rewrite (He c Hcl) in Eta. }
  destruct (Hri c Hcl) as [h Hr].
  destruct (drain_spec 16 _ h (rl c) (small_free_lists p !!! Z.to_nat c) Hr)
    as (r & h' & rlc & f & Ed & Hr' & Hp). rewrite Ed.
  pose proof (objs_drained t p rl live lost objs c r h' rlc f Hinv Hcl Hr' Hp) as Hinv1.
  assert (blocks_inv (set_class p c f r)) as Hb1 by (by eapply blocks_inv_same; [..|exact Hb]).
  unfold fl_pop. destruct (fl_nodes f) as [|x l] eqn:Ef.
  - destruct (allocate_from_block fresh _ (class_size c) (2 ^ k)) as [p' x] eqn:Ea.
    apply allocate_from_block_spec in Ea as [Hb' Hcut]; try done;
      [|by eapply blocks_inv_same; [..|exact Hb]|by apply class_size_bounds].
    eexists t, p', x, (<[c := rlc]> rl), (<[c := x :: objs c]> objs). split; [done|].
    pose proof (cut_rest _ _ _ _ Hcut) as (_ & _ & ? & ?).
    split; [|split_and!; try done; by apply (cut_blocks _ _ _ _ Hcut)].
    eapply objs_cut; [|done| |done|done]; [by eapply blocks_inv_same; [..|exact Hb]|].
    eapply objs_move; try done; simpl; rewrite ?length_insert; try done; apply Hinv1.
  - eexists t, _, x, (<[c := rlc]> rl), objs. split; [done|].
    split; [|split_and!; try done; by eapply blocks_inv_same; [..|exact Hb]].
    eapply (objs_move t (set_class p c f r)); try done; simpl; rewrite ?length_insert; try done;
      [apply Hinv1|].
    intros c' Hc'. pose proof (ob_acc _ _ _ _ _ _ Hinv1 c' Hc') as Ha. unfold accounted in *. simpl in *.
    destruct (decide (c' = c)) as [->|Hn].
    + rewrite !fn_lookup_insert in *. rewrite list_lookup_total_insert_eq in * by lia. simpl.
      rewrite Ha, Ef. solve_Permutation.
    + rewrite !fn_lookup_insert_ne in * by done.
      by rewrite list_lookup_total_insert_ne in * by auto.
Qed.

(** Freeing to the return ring, which drops the object when it is full. *)
Lemma objs_free_ring t p rl live lost objs x l1 l2 c :
  objs_inv t p rl live lost objs → is_class c → live c = l1 ++ x :: l2 →
  ∃ r b rl' lost', Vyukov.try_enqueue (return_rings p !!! Z.to_nat c) x = Some (r, b) ∧
    objs_inv t (set_class p c (small_free_lists p !!! Z.to_nat c) r) rl' (<[c := l1 ++ l2]> live) lost' objs.
Proof.
  intros Hinv Hcl Hlive.
  pose proof Hinv as [(L1 & L2 & L3 & L4) Hri Hacc _ _ _]. pose proof (class_index_lt c Hcl) as Hlt.
  assert (∀ c', is_class c' → c' ≠ c → Z.to_nat c ≠ Z.to_nat c') as Hne.
  { intros c' Hc' Hn E. by apply class_index_inj in E. }
  destruct (Hri c Hcl) as [h Hr]. pose proof (Vyukov.try_enqueue_rep _ h (rl c) x Hr) as He.
  assert (∀ r rlc lostc, Vyukov.rep r h rlc → rl c ++ x :: lost c ≡ₚ rlc ++ lostc →
    objs_inv t (set_class p c (small_free_lists p !!! Z.to_nat c) r) (<[c := rlc]> rl)
      (<[c:=l1 ++ l2]> live) (<[c := lostc]> lost) objs) as Hgen.
  { intros r rlc lostc Hr' Hp.
    eapply objs_move; try done; simpl; rewrite ?length_insert; try done.
    - intros c' Hc'. destruct (decide (c' = c)) as [->|Hn].
      + rewrite fn_lookup_insert, list_lookup_total_insert_eq by lia. eauto.
      + rewrite fn_lookup_insert_ne, list_lookup_total_insert_ne by auto. by apply Hri.
    - intros c' Hc'. specialize (Hacc c' Hc'). unfold accounted in *. simpl.
      destruct (decide (c' = c)) as [->|Hn].
      + rewrite !fn_lookup_insert, list_lookup_total_insert_eq by lia. rewrite Hacc, Hlive.
        transitivity (fl_nodes (tls_alloc t !!! Z.to_nat c) ++ fl_nodes (tls_free t !!! Z.to_nat c) ++
          (rl c ++ x :: lost c) ++ fl_nodes (small_free_lists p !!! Z.to_nat c) ++ l1 ++ l2);
          [solve_Permutation|]. rewrite Hp. solve_Permutation.
      + by rewrite !fn_lookup_insert_ne, list_lookup_total_insert_ne by auto. }
  case_bool_decide.
  - destruct He as (r' & E & Hr'). eexists r', true, _, _. split; [done|].
    apply (Hgen _ (rl c ++ [x]) (lost c)); [done|solve_Permutation].
  - eexists _, false, _, _. split; [done|]. by apply (Hgen _ (rl c) (x :: lost c)).
Qed.

(** Freeing to the cache of [deallocate]. *)
Lemma objs_free_cache t p rl live lost objs x l1 l2 c :
  objs_inv t p rl live lost objs → is_class c → live c = l1 ++ x :: l2 →
  objs_inv (mkTls (tls_alloc t) (tlc_deallocate (tls_free t) x c)) p rl (<[c := l1 ++ l2]> live) lost objs.
Proof.
  intros Hinv Hcl Hlive.
  pose proof Hinv as [(L1 & L2 & L3 & L4) Hri Hacc _ _ _]. pose proof (class_index_lt c Hcl) as Hlt.
  unfold tlc_deallocate. rewrite (proj2 (Z.ltb_lt c kNumSizeClasses)) by apply Hcl.
  eapply objs_move; try done; simpl; rewrite ?length_insert; try done.
  intros c' Hc'. specialize (Hacc c' Hc'). unfold accounted in *. simpl.
  destruct (decide (c' = c)) as [->|Hn].
  - rewrite fn_lookup_insert, list_lookup_total_insert_eq by lia. simpl.
    rewrite Hacc, Hlive. solve_Permutation.
  - rewrite fn_lookup_insert_ne, list_lookup_total_insert_ne; [done| |done].
    intros E. by apply class_index_inj in E.
Qed.

Lemma objs_live_ext t p rl live live' lost objs :
  (∀ c, is_class c → live c ≡ₚ live' c) → objs_inv t p rl live lost objs → objs_inv t p rl live' lost objs.
Proof.
  intros He [Hl Hr Ha Hn Hap Hc]. split; try done. intros c Hcl. unfold accounted in *.
  by rewrite <- He, Ha.
Qed.

(** ** The pool and its client *)

(** Live objects are remembered with the request they answer; [w_heap] are the
    ranges [operator new] returned for medium objects. *)
Record pworld := mkPW {
  w_tls : Tls; w_pool : Pool; w_live : list (Z * Z * Z); w_heap : list (Z * Z)
}.

Definition small (n al : Z) : bool := alloc_size n al <=? kSmallObjectMax.
Definition medium (n al : Z) : bool := (kSmallObjectMax <? alloc_size n al) && (alloc_size n al <=? kMediumObjectMax).

Definition live_of (l : list (Z * Z * Z)) (c : Z) : list Z :=
  omap (λ o, if small o.1.2 o.2 && (size_class_index (alloc_size o.1.2 o.2) =? c) then Some o.1.1 else None) l.
Definition medium_of (l : list (Z * Z * Z)) : list (Z * Z) :=
  omap (λ o, if medium o.1.2 o.2 then Some (o.1.1, alloc_size o.1.2 o.2) else None) l.

#[global] Arguments live_of : simpl never.
#[global] Arguments medium_of : simpl never.

(** A request: at least one byte, a power-of-two alignment, no overflow. *)
Definition valid_req (n al : Z) : Prop := 1 ≤ n ∧ ∃ k, 0 ≤ k < 63 ∧ al = 2 ^ k ∧ n + al ≤ W64.

(** What [operator new] promises: memory apart from all that is in use. *)
Definition fresh_range (w : pworld) (b len : Z) : Prop :=
  0 < b ∧ b + len < W64
  ∧ (∀ b', b' ∈ preallocated_blocks (w_pool w) → apart b len b' kBlockSize)
  ∧ (∀ a n, (a, n) ∈ w_heap w → apart b len a n).
Definition fresh_aligned_block (w : pworld) (b : Z) : Prop := b mod 64 = 0 ∧ fresh_range w b kBlockSize.

(** Fuel for the walk over the medium free list: it holds at most the objects
    ever obtained for the medium tier. *)
Definition walk_fuel (p : Pool) : nat := S (length (allocated_blocks p)).

Inductive pool_step : pworld → pworld → Prop :=
| pool_alloc t p live heap n al fresh t' p' x :
    valid_req n al →
    (small n al = true → fresh_aligned_block (mkPW t p live heap) fresh) →
    (small n al = false → fresh_range (mkPW t p live heap) fresh (alloc_size n al)) →
    Z.of_nat (length (preallocated_blocks p)) < SIZE_MAX →
    allocate (walk_fuel p) fresh t p n al = Some (t', p', x) →
    pool_step (mkPW t p live heap)
      (mkPW t' p' ((x, n, al) :: live)
        (if decide (allocated_blocks p' = allocated_blocks p) then heap else (x, alloc_size n al) :: heap))
| pool_free t p l1 l2 heap x n al t' p' b :
    deallocate t p x n al = Some (t', p', b) →
    pool_step (mkPW t p (l1 ++ (x, n, al) :: l2) heap) (mkPW t' p' (l1 ++ l2) heap)
| pool_warmup t p live heap blocks total :
    NoDup blocks → Forall (fresh_aligned_block (mkPW t p live heap)) blocks →
    (∀ b b', b ∈ blocks → b' ∈ blocks → b ≠ b' → apart b kBlockSize b' kBlockSize) →
    pool_step (mkPW t p live heap) (mkPW t (warmup p blocks total) live heap).

Definition pool_init (blocks : list Z) : pworld := mkPW new_tls (make_pool blocks) [] [].

(** Four blocks as [alloc_block] returns them. *)
Definition initial_blocks (blocks : list Z) : Prop :=
  length blocks = 4%nat ∧ Forall block_ok blocks
  ∧ ∀ (i j : nat) b b', i ≠ j → blocks !! i = Some b → blocks !! j = Some b' → apart b kBlockSize b' kBlockSize.

Definition pool_reachable (blocks : list Z) (w : pworld) : Prop := steps pool_step (pool_init blocks) w.

(** Every medium object is on the free list or live, in a range of its own. *)
Record medium_inv (w : pworld) (ml : list (Z * Z)) : Prop := {
  md_rep : Central.rep (central_free_list (w_pool w)) ml;
  md_acc : (w_heap w).*1 ≡ₚ ml.*1 ++ (medium_of (w_live w)).*1;
  md_blocks : allocated_blocks (w_pool w) ≡ₚ (w_heap w).*1;
  md_nodup : NoDup (w_heap w).*1;
  md_fit : ∀ a sz, (a, sz) ∈ ml ++ medium_of (w_live w) → ∃ n, (a, n) ∈ w_heap w ∧ sz ≤ n;
  md_range : ∀ a n, (a, n) ∈ w_heap w → 0 < a ∧ 0 < n
    ∧ ∀ b, b ∈ preallocated_blocks (w_pool w) → apart a n b kBlockSize;
  md_apart : ∀ a n a' n', (a, n) ∈ w_heap w → (a', n') ∈ w_heap w → a = a' ∨ apart a n a' n'
}.

Definition pool_inv (w : pworld) : Prop :=
  blocks_inv (w_pool w) ∧ alloc_cache_empty (w_tls w)
  ∧ (∀ a n al, (a, n, al) ∈ w_live w → valid_req n al)
  ∧ (∃ rl lost objs, objs_inv (w_tls w) (w_pool w) rl (live_of (w_live w)) lost objs)
  ∧ ∃ ml, medium_inv w ml.

Lemma alloc_size_ge n al : valid_req n al → n ≤ alloc_size n al.
Proof.
  intros (Hn & k & Hk & -> & Hw). unfold alloc_size. destruct (16 <? 2 ^ k); [|lia].
  destruct (align_up_spec n k) as [? _]; lia.
Qed.

Lemma small_alignment n al : valid_req n al → small n al = true → ∃ k, 0 ≤ k ≤ 8 ∧ al = 2 ^ k.
Proof.
  intros (Hn & k & Hk & -> & Hw) Hs. exists k. split; [|done].
  unfold small, alloc_size, kSmallObjectMax in Hs. apply Z.leb_le in Hs.
  destruct (Z.ltb_spec 16 (2 ^ k)) as [H16|H16].
  - destruct (align_up_spec n k) as [Hle Hm]; [lia..|].
    assert (2 ^ k ≤ 256).
    { apply Z.mod_divide in Hm as [q Hq]; [|lia]. assert (0 < q) by nia. nia. }
    split; [lia|]. apply (Z.pow_le_mono_r_iff 2); lia.
  - split; [lia|]. assert (k ≤ 4); [|lia]. apply (Z.pow_le_mono_r_iff 2); lia.
Qed.

Lemma tier_cases n al :
  (small n al = true ∧ medium n al = false)
  ∨ (small n al = false ∧ medium n al = true)
  ∨ (small n al = false ∧ medium n al = false).
Proof. unfold small, medium. zcases; simpl; auto; lia. Qed.

Lemma live_of_cons_small x n al l :
  small n al = true → ∀ c, live_of ((x, n, al) :: l) c =
    <[size_class_index (alloc_size n al) := x :: live_of l (size_class_index (alloc_size n al))]> (live_of l) c.
Proof.
  intros Hs c. unfold live_of at 1. simpl. rewrite Hs. simpl.
  destruct (Z.eqb_spec (size_class_index (alloc_size n al)) c) as [->|Hne].
  - by rewrite fn_lookup_insert.
  - by rewrite fn_lookup_insert_ne.
Qed.

Lemma live_of_app l1 l2 c : live_of (l1 ++ l2) c = live_of l1 c ++ live_of l2 c.
Proof. apply omap_app. Qed.

Lemma live_of_cons_other x n al l c : small n al = false → live_of ((x, n, al) :: l) c = live_of l c.
Proof. intros Hs. unfold live_of. simpl. by rewrite Hs. Qed.

Lemma medium_of_app l1 l2 : medium_of (l1 ++ l2) = medium_of l1 ++ medium_of l2.
Proof. apply omap_app. Qed.

Lemma medium_of_cons x n al l :
  medium_of ((x, n, al) :: l) = (if medium n al then [(x, alloc_size n al)] else []) ++ medium_of l.
Proof. unfold medium_of. simpl. by destruct (medium n al). Qed.

(** The medium tier does not see changes of the small one. *)
Lemma medium_inv_frame t p live heap ml t' p' live' :
  medium_inv (mkPW t p live heap) ml →
  central_free_list p' = central_free_list p → allocated_blocks p' = allocated_blocks p →
  medium_of live' ≡ₚ medium_of live →
  (∀ b a n, b ∈ preallocated_blocks p' → (a, n) ∈ heap → b ∈ preallocated_blocks p ∨ apart a n b kBlockSize) →
  medium_inv (mkPW t' p' live' heap) ml.
Proof.
  intros [H1 H2 H3 H4 H5 H6 H7] Hc Ha Hm Hb. split; simpl in *; rewrite ?Hc, ?Ha, ?Hm; try done.
  - intros a sz. rewrite Hm. apply H5.
  - intros a n Hin. destruct (H6 a n Hin) as (? & ? & Hap). split_and!; try done.
    intros b Hbin. destruct (Hb b a n Hbin Hin); [by apply Hap|done].
Qed.

Lemma allocate_from_block_blocks fresh p size al p' x b :
  allocate_from_block fresh p size al = (p', x) →
  b ∈ preallocated_blocks p' → b ∈ preallocated_blocks p ∨ b = fresh.
Proof.
  unfold allocate_from_block. destruct (_ && _); [intros [= <- <-]; by left|].
  destruct (next_block _ _) as [[i' b']|]; intros [= <- <-]; simpl; [by left|].
  intros [?|?%list_elem_of_singleton]%elem_of_app; auto.
Qed.

Lemma allocate_small_blocks fresh t p size al t' p' x b :
  allocate_small fresh t p size al = Some (t', p', x) →
  b ∈ preallocated_blocks p' → b ∈ preallocated_blocks p ∨ b = fresh.
Proof.
  unfold allocate_small. destruct (tlc_allocate _ _) as [ta [hx|]]; [intros [= <- <- <-]; by left|].
  destruct (drain _ _ _) as [[r f]|]; [|done]. destruct (fl_pop f) as [f' [y|]]; [intros [= <- <- <-]; by left|].
  destruct (allocate_from_block _ _ _ _) as [p1 x1] eqn:E. intros [= <- <- <-] Hb.
  by eapply allocate_from_block_blocks in E; [|done].
Qed.

(** ** Preservation, tier by tier *)

Section Steps.
Context (t : Tls) (p : Pool) (live : list (Z * Z * Z)) (heap : list (Z * Z)).
Context (Hinv : pool_inv (mkPW t p live heap)).

Lemma inv_alloc_small n al fresh :
  valid_req n al → small n al = true → fresh_aligned_block (mkPW t p live heap) fresh →
  Z.of_nat (length (preallocated_blocks p)) < SIZE_MAX →
  ∃ t' p' x, allocate (walk_fuel p) fresh t p n al = Some (t', p', x)
    ∧ allocated_blocks p' = allocated_blocks p ∧ pool_inv (mkPW t' p' ((x, n, al) :: live) heap).
Proof.
  intros Hv Hs (Hf64 & Hf0 & Hfw & Hfb & Hfh) Hlen. destruct Hinv as (Hbi & Hce & Hvl & (rl & lost & objs & Ho) & ml & Hm).
  simpl in *. pose proof (small_alignment n al Hv Hs) as (k & Hk & ->).
  pose proof (alloc_size_ge n (2 ^ k) Hv) as Hge. destruct Hv as (Hn & Hv').
  set (size := alloc_size n (2 ^ k)) in *.
  unfold allocate. fold size. unfold small in Hs. fold size in Hs. rewrite Hs.
  unfold kSmallObjectMax in Hs. apply Z.leb_le in Hs.
  assert (objs_inv t (upd_stats add_alloc p) rl (live_of live) lost objs) as Ho'.
  { eapply objs_move; try done; simpl; apply Ho. }
  destruct (allocate_small_spec fresh t (upd_stats add_alloc p) rl (live_of live) lost objs size k)
    as (t' & p' & x & rl' & objs' & E & Ho2 & Hb2 & Ht & Hpre & Hc2 & Ha2); try done.
  { by eapply blocks_inv_same; [..|exact Hbi]. }
  { lia. }
  exists t', p', x. split; [done|]. split; [done|]. split; [done|]. split; [|split; [|split]].
  - simpl. by rewrite (Ht Hce).
  - intros a m al' [[= -> -> ->]|?]%elem_of_cons; [done|by eapply Hvl].
  - exists rl', lost, objs'. eapply objs_live_ext; [|exact Ho2]. intros c _. cbn [w_live].
    rewrite live_of_cons_small; [done|]. apply Z.leb_le. done.
  - exists ml. eapply medium_inv_frame; [done|done|done| |].
    + rewrite medium_of_cons. destruct (tier_cases n (2 ^ k)) as [[_ Hx]|[[Hx _]|[Hx _]]]; [by rewrite Hx|..];
        unfold small in Hx; fold size in Hx; apply Z.leb_gt in Hx; unfold kSmallObjectMax in Hx; lia.
    + intros b a m Hb Hin. eapply allocate_small_blocks in E as [?| ->]; [by left| |done].
      right. destruct (Hfh a m Hin); [by right|by left].
Qed.

(** The medium tier hands out a freed object that is large enough. *)
Lemma medium_reuse ml k x sz n al p' :
  medium_inv (mkPW t p live heap) ml → medium n al = true → ml ≡ₚ (x, sz) :: k → alloc_size n al ≤ sz →
  Central.rep (central_free_list p') k → allocated_blocks p' = allocated_blocks p →
  preallocated_blocks p' = preallocated_blocks p → medium_inv (mkPW t p' ((x, n, al) :: live) heap) k.
Proof.
  intros [H1 H2 H3 H4 H5 H6 H7] Hmed Hp Hsz Hrep Hab Hpb. simpl in *. split; simpl; rewrite ?Hab, ?Hpb; try done.
  - rewrite medium_of_cons, Hmed, H2, Hp. simpl. by rewrite Permutation_middle.
  - intros a s. rewrite medium_of_cons, Hmed. simpl. rewrite elem_of_app, elem_of_cons. intros [Hin|[[= -> ->]|Hin]].
    + apply H5. rewrite Hp, elem_of_app. left. by right.
    + destruct (H5 x sz) as (m & ? & ?); [rewrite Hp, elem_of_app; left; left|]. exists m. split; [done|lia].
    + apply H5. rewrite elem_of_app. by right.
Qed.

(** A new object from the system joins the heap. *)
Lemma medium_new ml n al fresh p' :
  medium_inv (mkPW t p live heap) ml → medium n al = true → fresh_range (mkPW t p live heap) fresh (alloc_size n al) →
  Central.rep (central_free_list p') ml → allocated_blocks p' = allocated_blocks p ++ [fresh] →
  preallocated_blocks p' = preallocated_blocks p →
  medium_inv (mkPW t p' ((fresh, n, al) :: live) ((fresh, alloc_size n al) :: heap)) ml.
Proof.
  intros [H1 H2 H3 H4 H5 H6 H7] Hmed (Hf0 & Hfw & Hfb & Hfh) Hrep Hab Hpb. simpl in *.
  assert (256 < alloc_size n al) as Hbig
    by (unfold medium, kSmallObjectMax in Hmed; apply andb_true_iff in Hmed as [Hb _]; by apply Z.ltb_lt).
  assert (fresh ∉ heap.*1) as Hnin.
  { intros ([a m] & -> & Hin)%list_elem_of_fmap. destruct (H6 a m Hin) as (? & ? & _). destruct (Hfh a m Hin); simpl in *; lia. }
  split; simpl; rewrite ?Hab, ?Hpb; try done.
  - rewrite medium_of_cons, Hmed, H2. simpl. by rewrite Permutation_middle.
  - rewrite H3. by rewrite Permutation_app_comm.
  - by apply NoDup_cons.
  - intros a s. rewrite medium_of_cons, Hmed. simpl. rewrite elem_of_app, elem_of_cons.
    intros [Hin|[[= -> ->]|Hin]]; [|eexists; split; [by left|lia]|];
      (destruct (H5 a s) as (m & ? & ?); [rewrite elem_of_app; by auto|]; exists m; split; [by right|done]).
  - intros a m [[= -> ->]|Hin]%elem_of_cons; [|by apply H6]. split_and!; [lia|lia|]. intros b Hb. by apply Hfb.
  - intros a m a' m' [[= -> ->]|Hin]%elem_of_cons [[= -> ->]|Hin']%elem_of_cons; [by left|right; by apply Hfh| |by apply H7].
    right. destruct (Hfh a m Hin); [by right|by left].
Qed.

(** The rest of the invariant does not notice a medium object. *)
Lemma pool_inv_medium x n al p' heap' ml' :
  valid_req n al → small n al = false → medium_inv (mkPW t p' ((x, n, al) :: live) heap') ml' →
  small_free_lists p' = small_free_lists p → return_rings p' = return_rings p →
  preallocated_blocks p' = preallocated_blocks p → bump_block_ptr p' = bump_block_ptr p →
  bump_offset p' = bump_offset p → bump_block_idx p' = bump_block_idx p →
  pool_inv (mkPW t p' ((x, n, al) :: live) heap').
Proof.
  intros Hv Hsm Hm Hl Hr Hb ? ? ?. destruct Hinv as (Hbi & Hce & Hvl & (rl & lost & objs & Ho) & _). simpl in *.
  split; [by eapply blocks_inv_same; [..|exact Hbi]|]. split; [done|]. split; [|split; [|by exists ml']].
  - intros a m al' [[= -> -> ->]|?]%elem_of_cons; [done|by eapply Hvl].
  - exists rl, lost, objs. apply (objs_live_ext _ _ _ (live_of live)); [intros c _; cbn [w_live]; by rewrite live_of_cons_other|].
    eapply objs_move; [exact Ho|..]; simpl; unfold accounted; rewrite ?Hl, ?Hr; by try apply Ho.
Qed.

(** The medium tier hands out [x], the first object that fits or a new one. *)
Lemma inv_alloc_medium n al fresh :
  valid_req n al → medium n al = true → fresh_range (mkPW t p live heap) fresh (alloc_size n al) →
  ∃ t' p' x, allocate (walk_fuel p) fresh t p n al = Some (t', p', x)
    ∧ pool_inv (mkPW t' p' ((x, n, al) :: live)
        (if decide (allocated_blocks p' = allocated_blocks p) then heap else (x, alloc_size n al) :: heap)).
Proof.
  intros Hv Hmed Hf. destruct Hinv as (_ & _ & _ & _ & ml & Hm). pose proof Hm as [H1 H2 H3 _ _ _ _]. simpl in *.
  pose proof Hmed as Hmd. unfold medium in Hmd. apply andb_true_iff in Hmd as [Hm1%Z.ltb_lt Hm2].
  assert (small n al = false) as Hsm by (unfold small; by apply Z.leb_gt).
  unfold allocate. rewrite (proj2 (Z.leb_gt _ _) Hm1), Hm2. simpl.
  assert ((length ml < walk_fuel p)%nat) as Hfuel.
  { unfold walk_fuel. apply Permutation_length in H2, H3.
    rewrite length_app, !length_fmap in H2. rewrite length_fmap in H3. lia. }
  destruct (Central.pop_rep (central_free_list p) ml (alloc_size n al) (walk_fuel p) H1 Hfuel) as (c' & E & Hrep).
  rewrite E. destruct (Central.take_first (alloc_size n al) ml) as [[x|] k] eqn:Etf; simpl in *.
  - apply Central.take_first_some in Etf as (sz & Hsz & Hp). eexists _, _, x. split; [done|]. rewrite decide_True by done.
    eapply pool_inv_medium; [done|done|by eapply medium_reuse|done..].
  - apply Central.take_first_none in Etf as ->. eexists _, _, fresh. split; [done|].
    rewrite decide_False by (intros Eq; apply (f_equal length) in Eq; simpl in Eq; rewrite length_app in Eq; simpl in Eq; lia).
    eapply pool_inv_medium; [done|done|by eapply medium_new|done..].
Qed.

(** A large object comes from the system and is not tracked. *)
Lemma inv_alloc_large n al fresh :
  valid_req n al → small n al = false → medium n al = false →
  ∃ t' p', allocate (walk_fuel p) fresh t p n al = Some (t', p', fresh)
    ∧ allocated_blocks p' = allocated_blocks p ∧ pool_inv (mkPW t' p' ((fresh, n, al) :: live) heap).
Proof.
  intros Hv Hs Hmd. destruct Hinv as (Hbi & Hce & Hvl & (rl & lost & objs & Ho) & ml & Hm). simpl in *.
  unfold allocate. pose proof Hs as Hs'. unfold small in Hs'. rewrite Hs'.
  unfold medium in Hmd. assert (alloc_size n al <=? kMediumObjectMax = false) as Hl.
  { apply Z.leb_gt in Hs'. rewrite (proj2 (Z.ltb_lt _ _) Hs') in Hmd. done. }
  rewrite Hl. eexists _, _. split; [done|]. split; [done|].
  split; [by eapply blocks_inv_same; [..|exact Hbi]|]. split; [done|]. split; [|split].
  - intros a m al' [[= -> -> ->]|?]%elem_of_cons; [done|by eapply Hvl].
  - exists rl, lost, objs. eapply objs_live_ext; [|eapply objs_move; try done; simpl; apply Ho].
    intros c _. cbn [w_live]. by rewrite live_of_cons_other.
  - exists ml. eapply medium_inv_frame; [done|done|done| |].
    + rewrite medium_of_cons. unfold medium. by rewrite Hl, andb_false_r.
    + intros b a m Hb _. by left.
Qed.

Lemma inv_warmup blocks total :
  NoDup blocks → Forall (fresh_aligned_block (mkPW t p live heap)) blocks →
  (∀ b b', b ∈ blocks → b' ∈ blocks → b ≠ b' → apart b kBlockSize b' kBlockSize) →
  pool_inv (mkPW t (warmup p blocks total) live heap).
Proof.
  intros Hnd Hfr Hap. destruct Hinv as (Hbi & Hce & Hvl & (rl & lost & objs & Ho) & ml & Hm). simpl in *.
  rewrite Forall_forall in Hfr. unfold warmup. set (nb := take _ blocks).
  assert (∀ b, b ∈ nb → b ∈ blocks) as Hsub by (intros b; apply subseteq_take).
  assert (NoDup nb) as Hnd' by (eapply sublist_NoDup; [done|apply sublist_take]).
  assert (∀ b, b ∈ nb → block_ok b) as Hok.
  { intros b Hb. destruct (Hfr b (Hsub b Hb)) as (? & ? & ? & _). done. }
  pose proof Hbi as [B1 B2 [B3 B4] B5].
  split; [|split; [done|split; [done|split]]].
  - split; simpl; try done.
    + intros b [?|?]%elem_of_app; auto.
    + intros i j b b' Hij [Hi|[Hi1 Hi2]]%lookup_app_Some [Hj|[Hj1 Hj2]]%lookup_app_Some.
      * by eapply B2.
      * apply list_elem_of_lookup_2 in Hj2. destruct (Hfr b' (Hsub b' Hj2)) as (_ & _ & _ & Hx & _).
        destruct (Hx b) as [?|?]; [by eapply list_elem_of_lookup_2|by right|by left].
      * apply list_elem_of_lookup_2 in Hi2. destruct (Hfr b (Hsub b Hi2)) as (_ & _ & _ & Hx & _).
        apply Hx. by eapply list_elem_of_lookup_2.
      * apply Hap; [by eapply Hsub, list_elem_of_lookup_2..|]. intros ->.
        assert (i - length (preallocated_blocks p) = j - length (preallocated_blocks p))%nat; [|lia].
        by eapply NoDup_lookup.
    + split; [done|]. by apply lookup_app_l_Some.
  - exists rl, lost, objs. destruct Ho as [O1 O2 O3 O4 O5 O6]. split; try done.
    intros c a Hc Ha. destruct (O6 c a Hc Ha) as (i & b & ? & ? & ? & ?). exists i, b.
    split_and!; try done. simpl. by apply lookup_app_l_Some.
  - exists ml. eapply medium_inv_frame; [done..|]. simpl. intros b a m [?|Hb]%elem_of_app Hin; [by left|].
    right. destruct (Hfr b (Hsub b Hb)) as (_ & _ & _ & _ & Hx). destruct (Hx a m Hin); [by right|by left].
Qed.
End Steps.

Lemma alloc_cache_kept t x c : alloc_cache_empty t → alloc_cache_empty (mkTls (tls_alloc t) (tlc_deallocate (tls_free t) x c)).
Proof. done. Qed.

Lemma inv_free_small t p l1 l2 heap x n al :
  pool_inv (mkPW t p (l1 ++ (x, n, al) :: l2) heap) → small n al = true →
  ∃ t' p', deallocate t p x n al = Some (t', p', false) ∧ pool_inv (mkPW t' p' (l1 ++ l2) heap).
Proof.
  intros (Hbi & Hce & Hvl & (rl & lost & objs & Ho) & ml & Hm) Hs. simpl in *.
  assert (valid_req n al) as Hv. { eapply (Hvl x). apply elem_of_app. right. left. }
  pose proof (alloc_size_ge n al Hv). destruct Hv as [Hn _].
  assert (∀ a m al', (a, m, al') ∈ l1 ++ l2 → valid_req m al') as Hvl'.
  { intros a m al' Hin. apply (Hvl a). rewrite elem_of_app, elem_of_cons in *. tauto. }
  assert (medium_of (l1 ++ l2) ≡ₚ medium_of (l1 ++ (x, n, al) :: l2)) as Hmed.
  { rewrite !medium_of_app, medium_of_cons.
    destruct (tier_cases n al) as [[_ Hx]|[[Hx _]|[Hx _]]]; [by rewrite Hx|congruence..]. }
  set (size := alloc_size n al) in *. set (c := size_class_index size).
  assert (live_of (l1 ++ (x, n, al) :: l2) c = live_of l1 c ++ x :: live_of l2 c) as Hlc.
  { rewrite live_of_app, live_of_cons_small by done. fold size c. by rewrite fn_lookup_insert. }
  assert (0 ≤ size ≤ 256) as Hsz by (unfold small in Hs; apply Z.leb_le in Hs; unfold kSmallObjectMax in Hs; lia).
  destruct (size_class_fits size Hsz) as (Hcl & _ & _). fold c in Hcl.
  assert (∀ c', is_class c' → <[c := live_of l1 c ++ live_of l2 c]> (live_of (l1 ++ (x, n, al) :: l2)) c'
            ≡ₚ live_of (l1 ++ l2) c') as Hext.
  { intros c' _. rewrite live_of_app. destruct (decide (c' = c)) as [->|Hne].
    - by rewrite fn_lookup_insert.
    - rewrite fn_lookup_insert_ne, live_of_app, live_of_cons_small by done. fold size c.
      by rewrite fn_lookup_insert_ne. }
  unfold deallocate. fold size. fold c. unfold small in Hs. fold size in Hs. rewrite Hs.
  assert (objs_inv t (upd_stats (add_free size) p) rl (live_of (l1 ++ (x, n, al) :: l2)) lost objs) as Ho'.
  { eapply objs_move; try done; simpl; apply Ho. }
  destruct (64 <? list_count (tls_free t) c).
  - destruct (objs_free_ring _ _ _ _ _ _ x _ _ c Ho' Hcl Hlc) as (r & b & rl' & lost' & E & Ho2).
    rewrite E. eexists _, _. split; [done|]. split; [by eapply blocks_inv_same; [..|exact Hbi]|].
    split; [done|]. split; [done|]. split.
    + exists rl', lost', objs. by eapply objs_live_ext.
    + exists ml. eapply medium_inv_frame; [done..|]. by left.
  - eexists _, _. split; [done|]. split; [by eapply blocks_inv_same; [..|exact Hbi]|].
    split; [done|]. split; [done|]. split.
    + exists rl, lost, objs. eapply objs_live_ext; [done|]. by apply objs_free_cache.
    + exists ml. eapply medium_inv_frame; [done..|]. by left.
Qed.

Lemma inv_free_other t p l1 l2 heap x n al :
  pool_inv (mkPW t p (l1 ++ (x, n, al) :: l2) heap) → small n al = false →
  ∃ t' p' b, deallocate t p x n al = Some (t', p', b) ∧ b = negb (medium n al)
    ∧ pool_inv (mkPW t' p' (l1 ++ l2) heap).
Proof.
  intros (Hbi & Hce & Hvl & (rl & lost & objs & Ho) & ml & Hm) Hs. simpl in *.
  assert (∀ a m al', (a, m, al') ∈ l1 ++ l2 → valid_req m al') as Hvl'.
  { intros a m al' Hin. apply (Hvl a). rewrite elem_of_app, elem_of_cons in *. tauto. }
  assert (∀ c', live_of (l1 ++ (x, n, al) :: l2) c' ≡ₚ live_of (l1 ++ l2) c') as Hext.
  { intros c'. by rewrite !live_of_app, live_of_cons_other. }
  unfold deallocate. pose proof Hs as Hs'. unfold small in Hs'. rewrite Hs'.
  destruct (tier_cases n al) as [[Hx _]|[[_ Hmd]|[_ Hmd]]]; [congruence|..].
  - assert (alloc_size n al <=? kMediumObjectMax = true) as Hl.
    { unfold medium in Hmd. by apply andb_true_iff in Hmd as [_ ?]. }
    rewrite Hl, Hmd. eexists _, _, _. split; [done|]. split; [done|].
    split; [by eapply blocks_inv_same; [..|exact Hbi]|]. split; [done|]. split; [done|]. split.
    + exists rl, lost, objs. eapply objs_live_ext; [intros c _; apply Hext|].
      eapply objs_move; try done; simpl; apply Ho.
    + exists ((x, alloc_size n al) :: ml). destruct Hm as [H1 H2 H3 H4 H5 H6 H7]. simpl in *.
      rewrite medium_of_app, medium_of_cons, Hmd in H2, H5. simpl in H2, H5.
      assert (heap.*1 ≡ₚ x :: ml.*1 ++ (medium_of (l1 ++ l2)).*1) as H2'.
      { rewrite H2, medium_of_app, !fmap_app. simpl. solve_Permutation. }
      split; simpl; try done.
      * rewrite H2' in H4. apply NoDup_cons in H4 as [Hnx _]. apply Central.push_rep; [done| |].
        -- destruct (H5 x (alloc_size n al)) as (m & Hin & _); [set_solver|].
           destruct (H6 x m Hin) as [? _]. lia.
        -- set_solver.
      * intros a s Hin. apply H5. rewrite medium_of_app in Hin.
        rewrite elem_of_cons, !elem_of_app in *. rewrite elem_of_cons. tauto.
  - assert (alloc_size n al <=? kMediumObjectMax = false) as Hl.
    { unfold medium in Hmd. apply Z.leb_gt in Hs'. rewrite (proj2 (Z.ltb_lt _ _) Hs') in Hmd. done. }
    rewrite Hl, Hmd. eexists _, _, _. split; [done|]. split; [done|].
    split; [by eapply blocks_inv_same; [..|exact Hbi]|]. split; [done|]. split; [done|]. split.
    + exists rl, lost, objs. eapply objs_live_ext; [intros c _; apply Hext|].
      eapply objs_move; try done; simpl; apply Ho.
    + exists ml. eapply medium_inv_frame; [done..| |by left].
      rewrite !medium_of_app, medium_of_cons, Hmd. done.
Qed.

Lemma pool_step_inv w w' : pool_inv w → pool_step w w' → pool_inv w'.
Proof.
  intros Hinv Hst. destruct Hst as [t p live heap n al fresh t' p' x Hv Hf1 Hf2 Hlen E
    |t p l1 l2 heap x n al t' p' b E|t p live heap blocks total Hnd Hfr Hap].
  - destruct (tier_cases n al) as [[Hs _]|[[Hs Hm]|[Hs Hm]]].
    + destruct (inv_alloc_small t p live heap Hinv n al fresh) as (t1 & p1 & x1 & E1 & Ea & Hi); auto.
      rewrite E in E1. injection E1 as <- <- <-. by rewrite decide_True.
    + destruct (inv_alloc_medium t p live heap Hinv n al fresh) as (t1 & p1 & x1 & E1 & Hi); auto.
      rewrite E in E1. by injection E1 as <- <- <-.
    + destruct (inv_alloc_large t p live heap Hinv n al fresh) as (t1 & p1 & E1 & Ea & Hi); auto.
      rewrite E in E1. injection E1 as <- <- ->. by rewrite decide_True.
  - destruct (small n al) eqn:Hs.
    + destruct (inv_free_small _ _ _ _ _ _ _ _ Hinv Hs) as (t1 & p1 & E1 & Hi).
      rewrite E in E1. by injection E1 as <- <- _.
    + destruct (inv_free_other _ _ _ _ _ _ _ _ Hinv Hs) as (t1 & p1 & b1 & E1 & _ & Hi).
      rewrite E in E1. by injection E1 as <- <- _.
  - by apply inv_warmup.
Qed.

Lemma pool_init_inv blocks : initial_blocks blocks → pool_inv (pool_init blocks).
Proof.
  intros (Hl & Hok & Hap). rewrite Forall_forall in Hok.
  destruct blocks as [|b0 [|b1 [|b2 [|b3 [|]]]]]; try done.
  assert (∀ c, is_class c → fl_nodes (new_cache !!! Z.to_nat c) = [] ∧
     fl_nodes (replicate 6 (mkFL [] 0) !!! Z.to_nat c) = [] ∧
     replicate 6 Vyukov.make !!! Z.to_nat c = Vyukov.make) as Hem.
  { intros c Hc. by destruct (class_cases c Hc) as [->|[->|[->|[->|[->| ->]]]]]. }
  split; [|split; [|split; [|split]]].
  - split; simpl; try done.
  - intros c Hc. by apply Hem.
  - by intros a n al ?%not_elem_of_nil.
  - exists (λ _, []), (λ _, []), (λ _, []). split; [done|..].
    + intros c Hc. exists 0. change (return_rings _) with (replicate 6 Vyukov.make).
      destruct (Hem c Hc) as (_ & _ & ->). apply Vyukov.make_rep.
    + intros c Hc. unfold accounted. change (small_free_lists _) with (replicate 6 (mkFL [] 0)).
      change (tls_alloc _) with new_cache. change (tls_free _) with new_cache.
      destruct (Hem c Hc) as (-> & -> & _). done.
    + intros c Hc; constructor.
    + by intros c a c' a' _ _ ?%not_elem_of_nil.
    + by intros c a _ ?%not_elem_of_nil.
  - exists []. split; simpl; try done.
    + split; [done|constructor].
    + constructor.
    + by intros a sz ?%not_elem_of_nil.
    + by intros a n ?%not_elem_of_nil.
    + by intros a n a' n' ?%not_elem_of_nil.
Qed.

Lemma pool_reachable_inv blocks w : initial_blocks blocks → pool_reachable blocks w → pool_inv w.
Proof.
  intros Hb. apply steps_invariant; [by apply pool_init_inv|]. intros a b Ha Hs. by eapply pool_step_inv.
Qed.

(** The part of a live object the client asked for. *)
Lemma live_small_obj w a n al rl lost objs :
  pool_inv w → objs_inv (w_tls w) (w_pool w) rl (live_of (w_live w)) lost objs →
  (a, n, al) ∈ w_live w → small n al = true →
  let c := size_class_index (alloc_size n al) in is_class c ∧ a ∈ objs c ∧ n ≤ class_size c.
Proof.
  intros (_ & _ & Hv & _) Ho Hin Hs c. pose proof (Hv a n al Hin) as Hva.
  pose proof (alloc_size_ge n al Hva). destruct Hva as [Hn _].
  pose proof Hs as Hs'. unfold small, kSmallObjectMax in Hs'. apply Z.leb_le in Hs'.
  destruct (size_class_fits (alloc_size n al) ltac:(lia)) as (Hcl & Hfit & _). fold c in Hcl, Hfit.
  split; [done|]. split; [|lia]. rewrite (ob_acc _ _ _ _ _ _ Ho c Hcl).
  apply list_elem_of_split in Hin as (l1 & l2 & ->).
  rewrite live_of_app, live_of_cons_small by done. fold c. rewrite fn_lookup_insert. set_solver.
Qed.

Lemma live_medium_obj w a n al ml :
  pool_inv w → medium_inv w ml → (a, n, al) ∈ w_live w → medium n al = true →
  ∃ m, (a, m) ∈ w_heap w ∧ n ≤ m.
Proof.
  intros (_ & _ & Hv & _) Hm Hin Hmd. pose proof (alloc_size_ge n al (Hv a n al Hin)).
  destruct (md_fit _ _ Hm a (alloc_size n al)) as (m & ? & ?); [|exists m; split; [done|lia]].
  apply elem_of_app. right. apply list_elem_of_omap. exists (a, n, al). split; [done|]. simpl. by rewrite Hmd.
Qed.

(** Two entries that contribute the same element to a duplicate-free [omap]
    are the same entry. *)
Lemma omap_NoDup_lookup {A B} (f : A → option B) l i j x y v :
  NoDup (omap f l) → l !! i = Some x → l !! j = Some y → f x = Some v → f y = Some v → i = j.
Proof.
  revert i j. induction l as [|z l IH]; intros i j Hn Hi Hj Hx Hy; [done|].
  assert (∀ k u, l !! k = Some u → f u = Some v → v ∈ omap f l) as Hin.
  { intros k u Hk Hu. apply list_elem_of_omap. exists u. split; [by eapply list_elem_of_lookup_2|done]. }
  destruct i as [|i], j as [|j]; [done|..]; simpl in *; simplify_eq.
  - rewrite Hx in Hn. apply NoDup_cons in Hn as [Hn _]. destruct Hn. eauto.
  - rewrite Hy in Hn. apply NoDup_cons in Hn as [Hn _]. destruct Hn. eauto.
  - f_equal. apply IH; try done. destruct (f z); [by apply NoDup_cons in Hn as [_ ?]|done].
Qed.

Lemma small_small_apart w i j a n al b m al' :
  pool_inv w → i ≠ j → w_live w !! i = Some (a, n, al) → w_live w !! j = Some (b, m, al') →
  small n al = true → small m al' = true → apart a n b m.
Proof.
  intros Hinv Hij Hi Hj Hs1 Hs2. pose proof Hinv as (_ & _ & _ & (rl & lost & objs & Ho) & _).
  destruct (live_small_obj w a n al rl lost objs Hinv Ho) as (Hc1 & Ha & Hn); [by eapply list_elem_of_lookup_2|done|].
  destruct (live_small_obj w b m al' rl lost objs Hinv Ho) as (Hc2 & Hb & Hm); [by eapply list_elem_of_lookup_2|done|].
  set (c1 := size_class_index (alloc_size n al)) in *. set (c2 := size_class_index (alloc_size m al')) in *.
  destruct (ob_apart _ _ _ _ _ _ Ho c1 a c2 b Hc1 Hc2 Ha Hb) as [[Ec ->]|[?|?]]; [|left; lia|right; lia].
  exfalso. apply Hij. pose proof (ob_nodup _ _ _ _ _ _ Ho c1 Hc1) as Hnd.
  rewrite (ob_acc _ _ _ _ _ _ Ho c1 Hc1) in Hnd.
  assert (NoDup (live_of (w_live w) c1)) as Hnl.
  { do 4 apply NoDup_app in Hnd as (_ & _ & Hnd). by apply NoDup_app in Hnd as (? & _). }
  eapply (omap_NoDup_lookup _ (w_live w) i j _ _ b Hnl Hi Hj); simpl.
  - rewrite Hs1. fold c1. by rewrite Z.eqb_refl.
  - rewrite Hs2. fold c2. by rewrite <- Ec, Z.eqb_refl.
Qed.

Lemma medium_medium_apart w i j a n al b m al' :
  pool_inv w → i ≠ j → w_live w !! i = Some (a, n, al) → w_live w !! j = Some (b, m, al') →
  medium n al = true → medium m al' = true → apart a n b m.
Proof.
  intros Hinv Hij Hi Hj Hs1 Hs2. pose proof Hinv as (_ & _ & _ & _ & ml & Hm).
  destruct (live_medium_obj w a n al ml Hinv Hm) as (u & Hu & Hnu); [by eapply list_elem_of_lookup_2|done|].
  destruct (live_medium_obj w b m al' ml Hinv Hm) as (v & Hv & Hmv); [by eapply list_elem_of_lookup_2|done|].
  destruct (md_apart _ _ Hm a u b v Hu Hv) as [->|[?|?]]; [|left; lia|right; lia].
  exfalso. apply Hij. pose proof (md_nodup _ _ Hm) as Hnd. rewrite (md_acc _ _ Hm) in Hnd.
  apply NoDup_app in Hnd as (_ & _ & Hnd). unfold medium_of in Hnd. rewrite list_fmap_omap in Hnd.
  eapply (omap_NoDup_lookup _ (w_live w) i j _ _ b Hnd Hi Hj); simpl; by rewrite ?Hs1, ?Hs2.
Qed.

Lemma small_medium_apart w a n al b m al' :
  pool_inv w → (a, n, al) ∈ w_live w → (b, m, al') ∈ w_live w →
  small n al = true → medium m al' = true → apart a n b m.
Proof.
  intros Hinv Hi Hj Hs1 Hs2. pose proof Hinv as (Hbi & _ & _ & (rl & lost & objs & Ho) & ml & Hm).
  destruct (live_small_obj w a n al rl lost objs Hinv Ho Hi Hs1) as (Hc1 & Ha & Hn).
  destruct (live_medium_obj w b m al' ml Hinv Hm Hj Hs2) as (v & Hv & Hmv).
  destruct (ob_carved _ _ _ _ _ _ Ho _ a Hc1 Ha) as (i & blk & Hblk & Hle & Hend & _).
  destruct (md_range _ _ Hm b v Hv) as (_ & _ & Hx).
  assert (used (w_pool w) (Z.of_nat i) ≤ kBlockSize).
  { pose proof (bk_off _ Hbi) as [? _]. unfold used. unfold kBlockSize in *. zcases; lia. }
  destruct (Hx blk) as [?|?]; [by eapply list_elem_of_lookup_2|right; lia|left; lia].
Qed.

(** ** Properties *)

(** C6: the pool never hands out overlapping memory: after any sequence of
    allocations, frees of live objects and warm-ups, any two live objects of
    the pooled tiers (up to 4096 bytes) occupy disjoint ranges of at least the
    requested size, provided [operator new] returns memory that is not in
    use. *)
Theorem pool_objects_disjoint (blocks : list Z) (w : pworld) (i j : nat) (a n al b m al' : Z) :
  initial_blocks blocks → pool_reachable blocks w →
  w_live w !! i = Some (a, n, al) → w_live w !! j = Some (b, m, al') → i ≠ j →
  alloc_size n al ≤ kMediumObjectMax → alloc_size m al' ≤ kMediumObjectMax → apart a n b m.
Proof.
  intros Hb Hr Hi Hj Hij Hn Hm. pose proof (pool_reachable_inv blocks w Hb Hr) as Hinv.
  assert (∀ n al, alloc_size n al ≤ kMediumObjectMax → small n al = false → medium n al = true) as Hmed.
  { intros n' al0 Hle Hs. unfold small in Hs. unfold medium. apply Z.leb_gt in Hs.
    by rewrite (proj2 (Z.ltb_lt _ _) Hs), (proj2 (Z.leb_le _ _) Hle). }
  destruct (small n al) eqn:Hs1, (small m al') eqn:Hs2.
  - by eapply (small_small_apart w i j).
  - eapply (small_medium_apart w a n al b m al'); eauto using list_elem_of_lookup_2.
  - destruct (small_medium_apart w b m al' a n al); eauto using list_elem_of_lookup_2; [by right|by left].
  - eapply (medium_medium_apart w i j); eauto.
Qed.

(** C39: [allocate] always returns: in every reachable state a valid request is
    answered, whatever the tier (the ring and the free-list walks terminate),
    and a small object is 16-byte aligned and lies inside a block of the pool. *)
Theorem pool_allocate_total (blocks : list Z) (w : pworld) (n al fresh : Z) :
  initial_blocks blocks → pool_reachable blocks w → valid_req n al →
  (small n al = true → fresh_aligned_block w fresh) →
  (small n al = false → fresh_range w fresh (alloc_size n al)) →
  Z.of_nat (length (preallocated_blocks (w_pool w))) < SIZE_MAX →
  ∃ t' p' x, allocate (walk_fuel (w_pool w)) fresh (w_tls w) (w_pool w) n al = Some (t', p', x)
    ∧ (small n al = true → x mod 16 = 0 ∧ ∃ blk, blk ∈ preallocated_blocks p' ∧ blk ≤ x ∧ x + n ≤ blk + kBlockSize).
Proof.
  intros Hb Hr Hv Hf1 Hf2 Hlen. pose proof (pool_reachable_inv blocks w Hb Hr) as Hinv.
  destruct w as [t p live heap]. simpl in *. destruct (tier_cases n al) as [[Hs _]|[[Hs Hm]|[Hs Hm]]].
  - destruct (inv_alloc_small t p live heap Hinv n al fresh) as (t' & p' & x & E & _ & Hi); auto.
    exists t', p', x. split; [done|]. intros _. pose proof Hi as (Hbi & _ & _ & (rl & lost & objs & Ho) & _).
    destruct (live_small_obj _ x n al rl lost objs Hi Ho) as (Hc & Hx & Hn); [left|done|].
    destruct (ob_carved _ _ _ _ _ _ Ho _ x Hc Hx) as (i & blk & Hblk & Hle & Hend & H16). split; [done|].
    exists blk. split; [by eapply list_elem_of_lookup_2|]. simpl in *.
    assert (used p' (Z.of_nat i) ≤ kBlockSize); [|lia].
    pose proof (bk_off _ Hbi) as [? _]. unfold used. simpl in *. unfold kBlockSize in *. zcases; lia.
  - destruct (inv_alloc_medium t p live heap Hinv n al fresh) as (t' & p' & x & E & _); auto.
    exists t', p', x. split; [done|]. congruence.
  - destruct (inv_alloc_large t p live heap Hinv n al fresh) as (t' & p' & E & _); auto.
    exists t', p', fresh. split; [done|]. congruence.
Qed.

(** The thread-local cache that [allocate] looks at is never filled,
    because [deallocate] declares a cache of its own: in every reachable state
    all its lists are empty, so an object freed to the cache (the first 65 of
    each class) is never handed out again. *)
Theorem pool_alloc_cache_dead (blocks : list Z) (w : pworld) (c : Z) :
  initial_blocks blocks → pool_reachable blocks w → is_class c →
  tlc_allocate (tls_alloc (w_tls w)) c = (tls_alloc (w_tls w), None).
Proof.
  intros Hb Hr Hc. destruct (pool_reachable_inv blocks w Hb Hr) as (_ & He & _).
  unfold tlc_allocate, fl_pop. rewrite (proj2 (Z.ltb_lt c kNumSizeClasses)) by apply Hc.
  by rewrite (He c Hc).
Qed.

(** The size-class computation, written with bit smearing and a count of
    trailing zeros, returns the smallest class that holds the request, and the
    index one past the last class for every larger request. *)
Theorem size_class_smallest (size : Z) :
  0 ≤ size ≤ 2 ^ 63 →
  if size <=? kSmallObjectMax
  then is_class (size_class_index size) ∧ size ≤ class_size (size_class_index size)
    ∧ (0 < size_class_index size → class_size (size_class_index size - 1) < size)
  else size_class_index size = kNumSizeClasses.
Proof.
  intros Hs. unfold kSmallObjectMax. destruct (Z.leb_spec size 256); [apply size_class_fits; lia|].
  rewrite size_class_index_log2 by lia. rewrite Z.min_r; [done|].
  pose proof (Z.log2_up_spec size ltac:(lia)) as [_ Hup].
  destruct (Z.leb_spec (Z.log2_up size) 8) as [H8|]; [|lia].
  pose proof (Z.pow_le_mono_r 2 _ _ ltac:(lia) H8). lia.
Qed.

(** A medium object is released to the system exactly once: in every
    reachable state the blocks the destructor deletes are, without repetition,
    the medium objects on the free list and those still live. *)
Theorem pool_medium_released_once (blocks : list Z) (w : pworld) :
  initial_blocks blocks → pool_reachable blocks w →
  NoDup (destroy (w_pool w)).2 ∧
  ∃ free, Central.rep (central_free_list (w_pool w)) free
    ∧ (destroy (w_pool w)).2 ≡ₚ free.*1 ++ (medium_of (w_live w)).*1.
Proof.
  intros Hb Hr. destruct (pool_reachable_inv blocks w Hb Hr) as (_ & _ & _ & _ & ml & [H1 H2 H3 H4 _ _ _]).
  simpl. split; [by rewrite H3|]. exists ml. split; [done|]. by rewrite H3.
Qed.

(** ** Concrete runs *)

Definition sample_blocks : list Z := [1048576; 2097152; 3145728; 4194304].

Lemma sample_blocks_ok : initial_blocks sample_blocks.
Proof.
  split; [done|]. split.
  - repeat constructor; vm_compute; intuition congruence.
  - intros [|[|[|[|i]]]] [|[|[|[|j]]]] b b' Hij; try done; simpl; intros [= <-] [= <-];
      vm_compute; intuition congruence.
Qed.

(** Requests on a fresh pool, each with the address [operator new] would
    return, up to running out. *)
Fixpoint serve (t : Tls) (p : Pool) (reqs : list (Z * Z * Z)) : option (Tls * Pool * list Z) :=
  match reqs with
  | [] => Some (t, p, [])
  | (fresh, n, al) :: rest =>
      match allocate (walk_fuel p) fresh t p n al with
      | Some (t', p', x) =>
          match serve t' p' rest with Some (t2, p2, xs) => Some (t2, p2, x :: xs) | None => None end
      | None => None
      end
  end.

Fixpoint give_back (t : Tls) (p : Pool) (n al : Z) (xs : list Z) : option (Tls * Pool) :=
  match xs with
  | [] => Some (t, p)
  | x :: rest => match deallocate t p x n al with
                 | Some (t', p', _) => give_back t' p' n al rest
                 | None => None
                 end
  end.

(** Reuse ignores alignment: 69 objects of 64 bytes are allocated with the
    default alignment and freed, which fills the cache and sends the last ones
    through the return ring; a request for 64 bytes aligned to 64 is then
    answered with one of them, which is only 32-byte aligned. *)
Theorem pool_reuse_ignores_alignment :
  match serve new_tls (make_pool sample_blocks) ((0, 24, 16) :: replicate 69 (0, 64, 16)) with
  | Some (t, p, xs) =>
      match give_back t p 64 16 (tail xs) with
      | Some (t2, p2) =>
          match allocate (walk_fuel p2) 0 t2 p2 64 64 with
          | Some (_, _, x) => x ∈ xs ∧ x mod 64 = 32
          | None => False
          end
      | None => False
      end
  | None => False
  end.
Proof. vm_compute. split; [|reflexivity]. repeat (apply list_elem_of_here || apply list_elem_of_further). Qed.

(** [current_in_use] wraps below zero: medium and large allocations never
    count as allocated but their frees count as freed, so one allocation and
    free of 1000 bytes makes the pool report 2^64 - 1000 bytes in use. *)
Theorem pool_in_use_underflows :
  match allocate 1 8388608 new_tls (make_pool sample_blocks) 1000 16 with
  | Some (t, p, x) =>
      match deallocate t p x 1000 16 with
      | Some (_, p2, _) => current_in_use p2 = W64 - 1000
      | None => False
      end
  | None => False
  end.
Proof. vm_compute. reflexivity. Qed.

(** A medium and a small object on a fresh pool. *)
Definition sample1 : Tls * Pool * Z :=
  default (new_tls, make_pool [], 0) (allocate 1 8388608 new_tls (make_pool sample_blocks) 1000 16).
Definition sample2 : Tls * Pool * Z :=
  default (new_tls, make_pool [], 0) (allocate 2 16777216 sample1.1.1 sample1.1.2 24 16).

Lemma sample1_run :
  allocate (walk_fuel (make_pool sample_blocks)) 8388608 new_tls (make_pool sample_blocks) 1000 16
  = Some (sample1.1.1, sample1.1.2, sample1.2).
Proof. vm_compute. reflexivity. Qed.

Lemma sample2_run :
  allocate (walk_fuel sample1.1.2) 16777216 sample1.1.1 sample1.1.2 24 16
  = Some (sample2.1.1, sample2.1.2, sample2.2).
Proof. vm_compute. reflexivity. Qed.

Lemma sample_valid n : 1 ≤ n ≤ 1000 → valid_req n 16.
Proof. intros Hn. split; [lia|]. exists 4. split; [lia|]. split; [done|]. unfold W64. lia. Qed.

Lemma sample_fresh t p live heap b len :
  preallocated_blocks p = sample_blocks → 8388608 ≤ b → b + len < W64 → 0 ≤ len →
  (∀ a n, (a, n) ∈ heap → a + n ≤ b) → fresh_range (mkPW t p live heap) b len.
Proof.
  intros Hp Hb Hw Hl Hh. split; [lia|]. split; [done|]. split; simpl.
  - intros b'. rewrite Hp. unfold sample_blocks, kBlockSize. rewrite !elem_of_cons, elem_of_nil.
    intros [->|[->|[->|[->|[]]]]]; right; lia.
  - intros a n Hin. right. by apply Hh.
Qed.

Lemma sample_reachable :
  ∃ w, pool_reachable sample_blocks w ∧ w_live w = [(1048576, 24, 16); (8388608, 1000, 16)]
    ∧ w_heap w = [(8388608, 1000)] ∧ preallocated_blocks (w_pool w) = sample_blocks.
Proof.
  eexists (mkPW sample2.1.1 sample2.1.2 _ _). split.
  - eapply steps_snoc; [apply steps_once|].
    + eapply (pool_alloc _ _ _ _ 1000 16 8388608); [by apply sample_valid|done| |done|apply sample1_run].
      intros _. apply sample_fresh; try done. by intros a n ?%not_elem_of_nil.
    + eapply (pool_alloc _ _ _ _ 24 16 16777216); [by apply sample_valid| |done| |apply sample2_run].
      * intros _. split; [done|]. apply sample_fresh; try done.
        rewrite decide_False by (vm_compute; discriminate).
        intros a n [[= -> ->]|?%not_elem_of_nil]%elem_of_cons; [|done]. vm_compute. discriminate.
      * vm_compute. reflexivity.
  - split; [vm_compute; reflexivity|]. split; [|vm_compute; reflexivity].
    rewrite decide_True by (vm_compute; reflexivity). rewrite decide_False by (vm_compute; discriminate).
    vm_compute. reflexivity.
Qed.

Lemma pool_objects_disjoint_witness :
  ∃ w, w_live w = [(1048576, 24, 16); (8388608, 1000, 16)] ∧ apart 1048576 24 8388608 1000.
Proof.
  destruct sample_reachable as (w & Hr & Hl & _). exists w. split; [exact Hl|].
  apply (pool_objects_disjoint sample_blocks w 0 1 1048576 24 16 8388608 1000 16 sample_blocks_ok Hr).
  - rewrite Hl. reflexivity.
  - rewrite Hl. reflexivity.
  - discriminate.
  - vm_compute. discriminate.
  - vm_compute. discriminate.
Defined.

Lemma pool_allocate_total_witness :
  ∃ w t' p' x, allocate (walk_fuel (w_pool w)) 16777216 (w_tls w) (w_pool w) 100 16 = Some (t', p', x)
    ∧ x mod 16 = 0.
Proof.
  destruct sample_reachable as (w & Hr & Hl & Hh & Hb). exists w.
  destruct (pool_allocate_total sample_blocks w 100 16 16777216 sample_blocks_ok Hr) as (t' & p' & x & E & Hx).
  - apply sample_valid. lia.
  - intros _. split; [reflexivity|]. destruct w as [t p l h]. simpl in Hh, Hb. subst h.
    apply sample_fresh; [exact Hb|lia|reflexivity|discriminate|].
    intros a n Hin. apply list_elem_of_singleton in Hin. injection Hin as -> ->. lia.
  - intros H. discriminate H.
  - rewrite Hb. reflexivity.
  - exists t', p', x. split; [exact E|]. apply Hx. reflexivity.
Defined.

Lemma pool_alloc_cache_dead_witness :
  ∃ w, w_live w = [(1048576, 24, 16); (8388608, 1000, 16)]
    ∧ tlc_allocate (tls_alloc (w_tls w)) 2 = (tls_alloc (w_tls w), None).
Proof.
  destruct sample_reachable as (w & Hr & Hl & _). exists w. split; [exact Hl|].
  apply (pool_alloc_cache_dead sample_blocks w 2 sample_blocks_ok Hr). split; [discriminate|reflexivity].
Defined.

Lemma size_class_smallest_witness : size_class_index 100 = 4 ∧ 100 ≤ class_size 4.
Proof.
  split; [reflexivity|]. pose proof (size_class_smallest 100 ltac:(lia)) as H.
  change (is_class 4 ∧ 100 ≤ class_size 4 ∧ (0 < 4 → class_size 3 < 100)) in H. apply H.
Defined.

Lemma pool_medium_released_once_witness :
  ∃ w free, (destroy (w_pool w)).2 ≡ₚ free ++ [8388608] ∧ NoDup (destroy (w_pool w)).2.
Proof.
  destruct sample_reachable as (w & Hr & Hl & _).
  destruct (pool_medium_released_once sample_blocks w sample_blocks_ok Hr) as (Hn & free & _ & Hp).
  exists w, free.*1. split; [|exact Hn]. rewrite Hl in Hp. exact Hp.
Defined.

(** ** Statistics *)

(** Every allocation is a hit or a miss, and the peak is what it was at the
    start. *)
Definition counted (s : MemoryPoolStats) : Prop :=
  s_alloc_count s = s_cache_hit_count s +64 s_cache_miss_count s ∧ s_peak_usage s = 0.

Lemma counted_hit p : s_alloc_count (stats p) = wrap64 (s_cache_hit_count (stats p) + s_cache_miss_count (stats p) + 1) →
  s_peak_usage (stats p) = 0 → counted (stats (upd_stats add_hit p)).
Proof. intros H ?. split; [|done]. simpl in *. rewrite H, wrap64_add_l. f_equal. lia. Qed.

Lemma counted_miss p : s_alloc_count (stats p) = wrap64 (s_cache_hit_count (stats p) + s_cache_miss_count (stats p) + 1) →
  s_peak_usage (stats p) = 0 → counted (stats (upd_stats add_miss p)).
Proof. intros H ?. split; [|done]. simpl in *. rewrite H, wrap64_add_r. f_equal. lia. Qed.

Lemma allocate_from_block_counted fresh p size alignment :
  counted (stats p) → counted (stats (allocate_from_block fresh p size alignment).1).
Proof.
  intros H. unfold allocate_from_block. destruct (_ && _); [done|]. by destruct (next_block _ _) as [[? ?]|].
Qed.

(** The statistics are consistent whatever is allocated and freed: the counts
    of hits and misses add up to the count of allocations (modulo 2{^64}), so
    the hit rate is over all allocations.  The peak usage is never updated. *)
Theorem pool_statistics_consistent (blocks : list Z) (fuel : nat) (fresh : Z) (t : Tls) (p : Pool) (x bytes alignment : Z) :
  counted (stats (make_pool blocks))
  ∧ (counted (stats p) →
      (∀ t' p' a, allocate fuel fresh t p bytes alignment = Some (t', p', a) → counted (stats p'))
      ∧ (∀ t' p' d, deallocate t p x bytes alignment = Some (t', p', d) → counted (stats p'))
      ∧ counted (stats (warmup p blocks bytes))).
Proof.
  split; [done|]. intros [Hc Hk]. split_and!.
  - intros t' p' a. unfold allocate. set (p0 := upd_stats add_alloc p).
    assert (H1 : s_alloc_count (stats p0) = wrap64 (s_cache_hit_count (stats p0) + s_cache_miss_count (stats p0) + 1))
      by (simpl in *; by rewrite Hc, wrap64_add_l).
    assert (H2 : s_peak_usage (stats p0) = 0) by done.
    destruct (_ <=? _); [|destruct (_ <=? _)].
    + unfold allocate_small. destruct (tlc_allocate _ _) as [ta [y|]]; [intros [= <- <- <-]; by apply counted_hit|].
      destruct (drain _ _ _) as [[r f]|]; [|done]. destruct (fl_pop f) as [f' [y|]]; [intros [= <- <- <-]; by apply counted_hit|].
      set (p1 := upd_stats add_miss _). assert (H3 : counted (stats p1)) by (by apply counted_miss).
      assert (H4 := allocate_from_block_counted fresh p1 (kSizeClasses !!! Z.to_nat (size_class_index (alloc_size bytes alignment))) alignment H3).
      destruct (allocate_from_block _ _ _ _) as [p2 y]. by intros [= <- <- <-].
    + destruct (Central.pop _ _ _) as [[c [y|]]|]; [..|done]; intros [= <- <- <-]; [by apply counted_hit|by apply counted_miss].
    + intros [= <- <- <-]. by apply counted_miss.
  - intros t' p' d. unfold deallocate. destruct (_ <=? _); [destruct (_ <? _)|destruct (_ <=? _)].
    + destruct (Vyukov.try_enqueue _ _) as [[r ?]|]; [|done]. by intros [= <- <- <-].
    + by intros [= <- <- <-].
    + by intros [= <- <- <-].
    + by intros [= <- <- <-].
  - done.
Qed.
