(* ===== verification/Idle.v ===== *)
(** [AdaptiveIdle] ([adaptive_idle.h], [adaptive_idle.cc]): the spin / yield /
    park ladder of an idle worker and the notification that wakes it, as a
    transition system of one worker and any number of notifying threads.  The
    eventfd is its kernel counter: a read takes the whole counter and fails
    when it is 0, a write adds to it.  The mutex and the condition variable
    follow their C++ contracts, spurious wake-ups included. *)
From S2P Require Import Prelude.

Inductive IdleLevel := kActive | kSpin | kYield | kPark.

Record Config := mkIdleConfig { spin_iterations : Z; yield_rounds : Z }.
Definition default_config : Config := mkIdleConfig 100 5.

(** What [AdaptiveIdle] keeps for a single thread of control: the level, the
    counter of the eventfd, [pending_notify_] and [park_generation_]. *)
Record Parker := mkParker { p_level : IdleLevel; p_fd : Z; p_pending : bool; p_generation : Z }.
Definition parker0 : Parker := mkParker kActive 0 false 0.

(** A write of 1 to the non-blocking eventfd, which is refused at the largest
    counter. *)
Definition fd_write (v : Z) : Z := if v + 1 <? W64 - 1 then v + 1 else v.

(** [notify], seen from the worker's thread: nobody is blocked. *)
Definition notify (p : Parker) : Parker := mkParker (p_level p) (fd_write (p_fd p)) true (p_generation p +64 1).

(** [enter_idle] when no other thread interferes; [None] when it blocks on the
    condition variable. *)
Definition drain (rounds : Z) (fd : Z) : Z := if (0 <? rounds) && (0 <? fd) then 0 else fd.
Definition idle_park (p : Parker) : option Parker :=
  if p_pending p then Some (mkParker kActive (p_fd p) false (p_generation p))
  else if 0 <? p_fd p then Some (mkParker kActive 0 false (p_generation p))
  else None.
Definition enter_idle (cfg : Config) (p : Parker) : option Parker :=
  match p_level p with
  | kActive | kSpin => Some (mkParker kYield (drain (spin_iterations cfg) (p_fd p)) (p_pending p) (p_generation p))
  | kYield => Some (mkParker kPark (drain (yield_rounds cfg) (p_fd p)) (p_pending p) (p_generation p))
  | kPark => idle_park p
  end.
(** The return from the wait on the condition variable. *)
Definition unpark (p : Parker) : Parker := mkParker kActive (p_fd p) (p_pending p) (p_generation p).

(** Where the worker is. *)
Inductive wstate :=
| WRun                      (* outside enter_idle *)
| WSpin (i : Z) | WYield (i : Z)
| WPark                     (* about to lock park_mutex_ *)
| WLocked                   (* holds the mutex; about to exchange pending_notify_ *)
| WNoPending                (* holds the mutex; about to read the eventfd *)
| WCapture                  (* holds the mutex; about to load park_generation_ *)
| WPredicate (gen : Z)      (* holds the mutex; about to test the predicate of the wait *)
| WBlock (gen : Z)          (* holds the mutex; the predicate was false, about to block *)
| WWait (gen : Z)           (* blocked in park_cv_.wait, the mutex released *)
| WRelock (gen : Z).        (* woken; about to lock the mutex again *)

(** Where a notifying thread is. *)
Inductive nstate :=
| NIdle
| NLocked                   (* holds the mutex; about to set pending_notify_ *)
| NPending                  (* holds the mutex; about to increment park_generation_ *)
| NUnlock                   (* holds the mutex; about to release it *)
| NWrite | NCv.

(** Who holds [park_mutex_]. *)
Inductive Party := Worker | Notifier (i : nat).

Record idle := mkIdle {
  level : IdleLevel;
  event_fd : Z;
  mutex_owner : option Party;
  park_generation : Z;
  pending_notify : bool;
  cv_signal : bool;            (* the blocked worker has been signalled *)
  worker : wstate;
  notifier : nat → nstate;
  since_test : Z               (* notifications since the worker last found pending_notify_ unset *)
}.

Definition idle_init : idle := mkIdle kActive 0 None 0 false false WRun (λ _, NIdle) 0.

Definition set_worker (s : idle) w lv := mkIdle lv (event_fd s) (mutex_owner s) (park_generation s)
  (pending_notify s) (cv_signal s) w (notifier s) (since_test s).
Definition set_fd (s : idle) v := mkIdle (level s) v (mutex_owner s) (park_generation s)
  (pending_notify s) (cv_signal s) (worker s) (notifier s) (since_test s).
Definition set_owner (s : idle) o := mkIdle (level s) (event_fd s) o (park_generation s)
  (pending_notify s) (cv_signal s) (worker s) (notifier s) (since_test s).
Definition set_pending (s : idle) b := mkIdle (level s) (event_fd s) (mutex_owner s) (park_generation s)
  b (cv_signal s) (worker s) (notifier s) (since_test s).
Definition set_signal (s : idle) b := mkIdle (level s) (event_fd s) (mutex_owner s) (park_generation s)
  (pending_notify s) b (worker s) (notifier s) (since_test s).
Definition set_notifier (s : idle) i x := mkIdle (level s) (event_fd s) (mutex_owner s) (park_generation s)
  (pending_notify s) (cv_signal s) (worker s) (<[i := x]> (notifier s)) (since_test s).
Definition bump_generation (s : idle) := mkIdle (level s) (event_fd s) (mutex_owner s) (park_generation s +64 1)
  (pending_notify s) (cv_signal s) (worker s) (notifier s) (since_test s + 1).
Definition start_count (s : idle) := mkIdle (level s) (event_fd s) (mutex_owner s) (park_generation s)
  (pending_notify s) (cv_signal s) (worker s) (notifier s) 0.

(** The dispatch at the head of [enter_idle]. *)
Definition enter (lv : IdleLevel) : IdleLevel * wstate :=
  let lv := match lv with kActive => kSpin | _ => lv end in
  (lv, match lv with kActive => WRun | kSpin => WSpin 0 | kYield => WYield 0 | kPark => WPark end).

Definition is_waiting (w : wstate) : bool := match w with WWait _ => true | _ => false end.

(** One more step of the worker. *)
Ltac worker_runs c := eapply steps_trans; [apply steps_once; eapply c; simpl; first [reflexivity|eassumption]|].

Section Machine.
Context (cfg : Config).

(** A step of the worker. *)
Inductive worker_step : idle → idle → Prop :=
| enter_dispatch s lv w : worker s = WRun → enter (level s) = (lv, w) →
    worker_step s (set_worker s w lv)
(* idle_spin: the level set on a notification is overwritten by enter_idle *)
| spin_notified s i : worker s = WSpin i → i < spin_iterations cfg → 0 < event_fd s →
    worker_step s (set_worker (set_fd s 0) WRun kYield)
| spin_again s i : worker s = WSpin i → i < spin_iterations cfg → event_fd s = 0 →
    worker_step s (set_worker s (WSpin (i + 1)) (level s))
| spin_done s i : worker s = WSpin i → spin_iterations cfg ≤ i →
    worker_step s (set_worker s WRun kYield)
| yield_notified s i : worker s = WYield i → i < yield_rounds cfg → 0 < event_fd s →
    worker_step s (set_worker (set_fd s 0) WRun kPark)
| yield_again s i : worker s = WYield i → i < yield_rounds cfg → event_fd s = 0 →
    worker_step s (set_worker s (WYield (i + 1)) (level s))
| yield_done s i : worker s = WYield i → yield_rounds cfg ≤ i →
    worker_step s (set_worker s WRun kPark)
| park_lock s : worker s = WPark → mutex_owner s = None →
    worker_step s (set_worker (set_owner s (Some Worker)) WLocked (level s))
| park_pending s : worker s = WLocked → pending_notify s = true →
    worker_step s (set_worker (set_owner (set_pending s false) None) WRun kActive)
| park_no_pending s : worker s = WLocked → pending_notify s = false →
    worker_step s (set_worker (start_count s) WNoPending (level s))
| park_read s : worker s = WNoPending → 0 < event_fd s →
    worker_step s (set_worker (set_owner (set_fd s 0) None) WRun kActive)
| park_empty s : worker s = WNoPending → event_fd s = 0 →
    worker_step s (set_worker s WCapture (level s))
| park_capture s : worker s = WCapture →
    worker_step s (set_worker s (WPredicate (park_generation s)) (level s))
| park_false s g : worker s = WPredicate g → park_generation s = g →
    worker_step s (set_worker s (WBlock g) (level s))
| park_true s g : worker s = WPredicate g → park_generation s ≠ g →
    worker_step s (set_worker (set_owner s None) WRun kActive)
| park_block s g : worker s = WBlock g →    (* releases the mutex and blocks at once *)
    worker_step s (set_worker (set_owner (set_signal s false) None) (WWait g) (level s))
| park_wake s g : worker s = WWait g →      (* signalled, or a spurious wake-up *)
    worker_step s (set_worker (set_signal s false) (WRelock g) (level s))
| park_relock s g : worker s = WRelock g → mutex_owner s = None →
    worker_step s (set_worker (set_owner s (Some Worker)) (WPredicate g) (level s)).

(** A step of a notifying thread. *)
Inductive notifier_step (i : nat) : idle → idle → Prop :=
| notify_lock s : notifier s i = NIdle → mutex_owner s = None →
    notifier_step i s (set_notifier (set_owner s (Some (Notifier i))) i NLocked)
| notify_pending s : notifier s i = NLocked →
    notifier_step i s (set_notifier (set_pending s true) i NPending)
| notify_bump s : notifier s i = NPending →
    notifier_step i s (set_notifier (bump_generation s) i NUnlock)
| notify_unlock s : notifier s i = NUnlock →
    notifier_step i s (set_notifier (set_owner s None) i NWrite)
| notify_write s : notifier s i = NWrite →
    notifier_step i s (set_notifier (set_fd s (fd_write (event_fd s))) i NCv)
| notify_cv s : notifier s i = NCv →
    notifier_step i s (set_notifier (set_signal s (cv_signal s || is_waiting (worker s))) i NIdle).

Definition idle_step (s s' : idle) : Prop := worker_step s s' ∨ ∃ i, notifier_step i s s'.
Definition idle_reachable (s : idle) : Prop := steps idle_step idle_init s.

(** ** Invariant *)

Definition holds_mutex (w : wstate) : bool :=
  match w with WLocked | WNoPending | WCapture | WPredicate _ | WBlock _ => true | _ => false end.
Definition holds (x : nstate) : bool := match x with NLocked | NPending | NUnlock => true | _ => false end.
(** Past the test of [pending_notify_]; the generation captured, if any. *)
Definition tested (w : wstate) : bool :=
  match w with WNoPending | WCapture | WPredicate _ | WBlock _ | WWait _ | WRelock _ => true | _ => false end.
Definition captured (w : wstate) : option Z :=
  match w with WPredicate g | WBlock g | WWait g | WRelock g => Some g | _ => None end.

Record idle_inv (s : idle) : Prop := {
  ii_worker : holds_mutex (worker s) = true ↔ mutex_owner s = Some Worker;
  ii_notifier i : holds (notifier s i) = true ↔ mutex_owner s = Some (Notifier i);
  ii_fd : 0 ≤ event_fd s;
  ii_gen g : captured (worker s) = Some g → park_generation s = g +64 since_test s;
  ii_since : 0 ≤ since_test s;
  ii_zero : tested (worker s) = true → captured (worker s) = None → since_test s = 0;
  ii_pending : tested (worker s) = true → pending_notify s = (0 <? since_test s) ∨ ∃ i, notifier s i = NPending;
  ii_set i : notifier s i = NPending → pending_notify s = true;
  ii_range : 0 ≤ park_generation s < W64;
  ii_block g : worker s = WBlock g → park_generation s = g;
  ii_wake g : worker s = WWait g → park_generation s ≠ g → cv_signal s = true ∨ ∃ i, notifier s i ≠ NIdle
}.

(** While the worker has the mutex no notifier is in its critical section. *)
Lemma worker_alone s i : idle_inv s → holds_mutex (worker s) = true → holds (notifier s i) = false.
Proof.
  intros Hinv Hw%(ii_worker s Hinv). apply not_true_iff_false. intros Hn%(ii_notifier s Hinv). congruence.
Qed.

Lemma free_alone s i : idle_inv s → mutex_owner s = None → holds (notifier s i) = false ∧ holds_mutex (worker s) = false.
Proof.
  intros Hinv Hm. split; apply not_true_iff_false; [intros Hn%(ii_notifier s Hinv)|intros Hn%(ii_worker s Hinv)]; congruence.
Qed.

Lemma not_holding (f : nat → nstate) o :
  (∀ i, holds (f i) = false) → (∀ i, o ≠ Some (Notifier i)) → ∀ i, holds (f i) = true ↔ o = Some (Notifier i).
Proof. intros Hf Ho i. rewrite Hf. split; [done|]. by intros ?%Ho. Qed.

Lemma enter_free lv lv' w :
  enter lv = (lv', w) → holds_mutex w = false ∧ captured w = None ∧ tested w = false.
Proof. destruct lv; intros [= <- <-]; done. Qed.

(** A step of the worker that leaves generation, notifiers and the count alone
    and does not get past the test or the capture. *)
Lemma inv_worker s w lv fd o pd sg :
  idle_inv s → (holds_mutex w = true ↔ o = Some Worker) →
  (∀ i, holds (notifier s i) = true ↔ o = Some (Notifier i)) → 0 ≤ fd →
  (tested w = true → tested (worker s) = true ∧ pd = pending_notify s) →
  (pd = pending_notify s ∨ ∀ i, notifier s i ≠ NPending) →
  (∀ g, captured w = Some g → captured (worker s) = Some g ∨ (since_test s = 0 ∧ park_generation s = g)) →
  (tested w = true → captured w = None → captured (worker s) = None) →
  (∀ g, w = WBlock g ∨ w = WWait g → park_generation s = g) →
  idle_inv (mkIdle lv fd o (park_generation s) pd sg w (notifier s) (since_test s)).
Proof.
  intros Hinv Ho Hn Hf Ht Hpd Hc Hc0 Hb. pose proof Hinv as []. split; simpl; auto.
  - intros g Hg. destruct (Hc g Hg) as [?|[-> <-]]; [auto|]. by rewrite Z.add_0_r, wrap64_small.
  - intros Hw Hcw. destruct (Ht Hw) as [? _]. auto.
  - intros Hw. destruct (Ht Hw) as [? ->]. auto.
  - intros i Hi. destruct Hpd as [->|Hp]; [eauto|by destruct (Hp i)].
  - intros g -> Hne. destruct Hne. auto.
Qed.

Lemma worker_step_inv s s' : idle_inv s → worker_step s s' → idle_inv s'.
Proof.
  intros Hinv Hst. pose proof (ii_worker s Hinv) as Hw. pose proof (ii_notifier s Hinv) as Hn. pose proof (ii_fd s Hinv) as Hfd0.
  assert (Halone : holds_mutex (worker s) = true → ∀ i, holds (notifier s i) = false) by (intros ? i; by apply worker_alone).
  assert (Hz : worker s = WCapture → since_test s = 0) by (intros E; apply (ii_zero s Hinv); by rewrite E).
  destruct Hst as [s lv w Hi E|s i Hi Hl Hfd|s i Hi Hl Hfd|s i Hi Hl|s i Hi Hl Hfd|s i Hi Hl Hfd|s i Hi Hl
    |s Hi Hmx|s Hi Hp|s Hi Hp|s Hi Hfd|s Hi Hfd|s Hi|s g Hi Heq|s g Hi Hne|s g Hi|s g Hi|s g Hi Hmx];
    try (apply (inv_worker s); simpl; rewrite ?Hi in *; try first [done|lia|by left|solve [intuition congruence]]).
  - by rewrite (proj1 (enter_free _ _ _ E)).
  - by rewrite (proj2 (proj2 (enter_free _ _ _ E))).
  - by rewrite (proj1 (proj2 (enter_free _ _ _ E))).
  - intros g Hg. destruct (enter_free _ _ _ E) as (_ & Hc & _). by destruct Hg; subst w.
  - apply not_holding; [|done]. intros i. by apply free_alone.
  - right. intros i Hi'. specialize (Halone eq_refl i). by rewrite Hi' in Halone.
  - destruct Hinv. rewrite Hi in *. split; simpl; auto; done.
  - intros g' [E|E]; [done|]. injection E as <-. by apply (ii_block s Hinv).
  - apply not_holding; [|done]. intros i. by apply free_alone.
Qed.

Lemma notifier_at s i x : holds x = true → idle_inv s → notifier s i = x →
  holds_mutex (worker s) = false ∧ ∀ j, j ≠ i → holds (notifier s j) = false.
Proof.
  intros Hx Hinv Hi. assert (Ho : mutex_owner s = Some (Notifier i)) by (apply (ii_notifier s Hinv); by rewrite Hi).
  split; [|intros j Hj]; apply not_true_iff_false; [intros Hw%(ii_worker s Hinv)|intros Hn%(ii_notifier s Hinv)]; congruence.
Qed.

Lemma upd_holding (f : nat → nstate) i x o :
  (holds x = true ↔ o = Some (Notifier i)) → (∀ j, j ≠ i → holds (f j) = true ↔ o = Some (Notifier j)) →
  ∀ j, holds (<[i := x]> f j) = true ↔ o = Some (Notifier j).
Proof.
  intros Hx Hf j. destruct (decide (j = i)) as [->|]; [by rewrite fn_lookup_insert|]. rewrite fn_lookup_insert_ne by done. auto.
Qed.

Lemma upd_pending (f : nat → nstate) i x :
  x ≠ NPending → f i ≠ NPending → ∀ j, <[i := x]> f j = NPending ↔ f j = NPending.
Proof.
  intros Hx Hf j. destruct (decide (j = i)) as [->|]; [by rewrite fn_lookup_insert|by rewrite fn_lookup_insert_ne].
Qed.

(** A step of notifier [i] that does not touch the generation or
    [pending_notify_] and does not end the call. *)
Lemma inv_notifier s i x fd o :
  idle_inv s → (holds x = true ↔ o = Some (Notifier i)) → (∀ j, j ≠ i → holds (notifier s j) = true ↔ o = Some (Notifier j)) →
  (holds_mutex (worker s) = true ↔ o = Some Worker) → x ≠ NPending → notifier s i ≠ NPending → 0 ≤ fd → x ≠ NIdle →
  idle_inv (set_notifier (set_owner (set_fd s fd) o) i x).
Proof.
  intros [] Hx Hj Hw Hx1 Hx2 Hf Hx3. split; simpl; auto.
  - by apply upd_holding.
  - intros Ht. setoid_rewrite upd_pending; auto.
  - intros j. rewrite upd_pending by done. eauto.
  - intros g _ _. right. exists i. by rewrite fn_lookup_insert.
Qed.

Lemma notifier_step_inv i s s' : idle_inv s → notifier_step i s s' → idle_inv s'.
Proof.
  intros Hinv Hst. pose proof (ii_notifier s Hinv) as Hn. pose proof (ii_worker s Hinv) as Hw. pose proof (ii_fd s Hinv) as Hfd.
  destruct Hst as [s Hi Hm|s Hi|s Hi|s Hi|s Hi|s Hi].
  - apply (inv_notifier s i NLocked (event_fd s)); try done; [|by rewrite Hw, Hm|by rewrite Hi]. intros j Hj. rewrite Hn, Hm. naive_solver.
  - destruct (notifier_at s i NLocked eq_refl Hinv Hi) as [Hw0 Hj]. destruct Hinv. split; simpl; auto.
    + apply upd_holding; [by rewrite <-Hn, Hi|done].
    + intros _. right. exists i. by rewrite fn_lookup_insert.
    + intros g _ _. right. exists i. by rewrite fn_lookup_insert.
  - destruct (notifier_at s i NPending eq_refl Hinv Hi) as [Hw0 Hj]. destruct Hinv. split; simpl; auto.
    + apply upd_holding; [by rewrite <-Hn, Hi|done].
    + intros g Hg. rewrite (ii_gen0 g Hg), wrap64_add_l. f_equal. lia.
    + lia.
    + intros Ht Hc. destruct (worker s); done.
    + intros Ht. left. rewrite (ii_set0 i Hi). symmetry. apply Z.ltb_lt. lia.
    + intros j Hp. eapply ii_set0. done.
    + apply wrap64_range.
    + intros g Hg. by rewrite Hg in Hw0.
    + intros g _ _. right. exists i. by rewrite fn_lookup_insert.
  - destruct (notifier_at s i NUnlock eq_refl Hinv Hi) as [Hw0 Hj].
    apply (inv_notifier s i NWrite (event_fd s)); try done; [|by rewrite Hw0|by rewrite Hi]. intros j Hne. by rewrite Hj.
  - apply (inv_notifier s i NCv (fd_write (event_fd s)) (mutex_owner s)); try done; [by rewrite <-Hn, Hi|by rewrite Hi|].
    unfold fd_write. case_match; lia.
  - destruct Hinv. split; simpl; auto.
    + apply upd_holding; [by rewrite <-Hn, Hi|done].
    + intros Ht. setoid_rewrite upd_pending; [auto|done|by rewrite Hi].
    + intros j. rewrite upd_pending by (done || by rewrite Hi). eauto.
    + intros g Hg _. left. by rewrite Hg, orb_true_r.
Qed.

Lemma idle_reachable_inv s : idle_reachable s → idle_inv s.
Proof.
  apply steps_invariant.
  - by split.
  - intros a b Ha [Hs|[i Hs]]; [by eapply worker_step_inv|by eapply notifier_step_inv].
Qed.

(** ** The worker alone *)

(** What [p] records of the machine's state, with the worker outside the mutex. *)
Definition shows (s : idle) (p : Parker) : Prop :=
  mutex_owner s = None ∧ p = mkParker (level s) (event_fd s) (pending_notify s) (park_generation s).

Lemma spin_alone s i : worker s = WSpin i → event_fd s = 0 →
  ∃ j, spin_iterations cfg ≤ j ∧ steps worker_step s (set_worker s (WSpin j) (level s)).
Proof.
  remember (Z.to_nat (spin_iterations cfg - i)) as n eqn:En. revert s i En.
  induction n as [|n IH]; intros s i En Hw Hf.
  - exists i. split; [lia|]. rewrite <-Hw. destruct s; apply steps_refl.
  - destruct (IH (set_worker s (WSpin (i + 1)) (level s)) (i + 1)) as (j & Hj & Hs); [lia|done|done|].
    exists j. split; [done|]. eapply steps_trans; [apply steps_once, (spin_again s i); [done|lia|done]|exact Hs].
Qed.

Lemma yield_alone s i : worker s = WYield i → event_fd s = 0 →
  ∃ j, yield_rounds cfg ≤ j ∧ steps worker_step s (set_worker s (WYield j) (level s)).
Proof.
  remember (Z.to_nat (yield_rounds cfg - i)) as n eqn:En. revert s i En.
  induction n as [|n IH]; intros s i En Hw Hf.
  - exists i. split; [lia|]. rewrite <-Hw. destruct s; apply steps_refl.
  - destruct (IH (set_worker s (WYield (i + 1)) (level s)) (i + 1)) as (j & Hj & Hs); [lia|done|done|].
    exists j. split; [done|]. eapply steps_trans; [apply steps_once, (yield_again s i); [done|lia|done]|exact Hs].
Qed.

Lemma spin_returns s : worker s = WSpin 0 → 0 ≤ event_fd s →
  steps worker_step s (set_worker (set_fd s (drain (spin_iterations cfg) (event_fd s))) WRun kYield).
Proof.
  intros Hw Hf. unfold drain. destruct (Z.ltb_spec 0 (spin_iterations cfg)) as [Hi|Hi]; simpl.
  - destruct (Z.ltb_spec 0 (event_fd s)); [by apply steps_once, (spin_notified s 0)|].
    destruct (spin_alone s 0 Hw) as (j & Hj & Hs); [lia|]. eapply steps_snoc; [exact Hs|].
    exact (spin_done (set_worker s (WSpin j) (level s)) j eq_refl Hj).
  - apply steps_once. exact (spin_done s 0 Hw Hi).
Qed.

Lemma yield_returns s : worker s = WYield 0 → 0 ≤ event_fd s →
  steps worker_step s (set_worker (set_fd s (drain (yield_rounds cfg) (event_fd s))) WRun kPark).
Proof.
  intros Hw Hf. unfold drain. destruct (Z.ltb_spec 0 (yield_rounds cfg)) as [Hi|Hi]; simpl.
  - destruct (Z.ltb_spec 0 (event_fd s)); [by apply steps_once, (yield_notified s 0)|].
    destruct (yield_alone s 0 Hw) as (j & Hj & Hs); [lia|]. eapply steps_snoc; [exact Hs|].
    exact (yield_done (set_worker s (WYield j) (level s)) j eq_refl Hj).
  - apply steps_once. exact (yield_done s 0 Hw Hi).
Qed.


Lemma park_alone s : worker s = WPark → mutex_owner s = None → 0 ≤ event_fd s →
  match idle_park (mkParker (level s) (event_fd s) (pending_notify s) (park_generation s)) with
  | Some p => ∃ s', steps worker_step s s' ∧ worker s' = WRun ∧ shows s' p ∧ notifier s' = notifier s
  | None => ∃ s', steps worker_step s s' ∧ worker s' = WWait (park_generation s) ∧ cv_signal s' = false
      ∧ shows s' (mkParker (level s) 0 false (park_generation s)) ∧ notifier s' = notifier s
  end.
Proof.
  intros Hw Hm Hf. unfold idle_park. simpl. destruct (pending_notify s) eqn:Ep; [|destruct (Z.ltb_spec 0 (event_fd s)) as [He|He]].
  - eexists. split; [worker_runs park_lock; worker_runs park_pending; apply steps_refl|done].
  - eexists. split; [worker_runs park_lock; worker_runs park_no_pending; worker_runs park_read; apply steps_refl|].
    unfold shows. simpl. by rewrite Ep.
  - assert (E0 : event_fd s = 0) by lia. eexists. split.
    { worker_runs park_lock. worker_runs park_no_pending. worker_runs park_empty. worker_runs park_capture.
      worker_runs park_false. worker_runs park_block. apply steps_refl. }
    unfold shows. simpl. by rewrite Ep, E0.
Qed.

(** [enter_idle] of a worker nobody interferes with returns as the sequential
    definition says, or blocks on the condition variable. *)
Lemma enter_idle_alone s p :
  worker s = WRun → shows s p → 0 ≤ event_fd s →
  match enter_idle cfg p with
  | Some p' => ∃ s', steps worker_step s s' ∧ worker s' = WRun ∧ shows s' p' ∧ notifier s' = notifier s
  | None => ∃ s', steps worker_step s s' ∧ worker s' = WWait (park_generation s) ∧ cv_signal s' = false
      ∧ shows s' p ∧ notifier s' = notifier s
  end.
Proof.
  intros Hw [Hm ->] Hf. unfold enter_idle. simpl. destruct (level s) eqn:El.
  - eexists. split; [eapply steps_trans; [apply steps_once, (enter_dispatch s kSpin (WSpin 0)); [done|by rewrite El]|by apply spin_returns]|done].
  - eexists. split; [eapply steps_trans; [apply steps_once, (enter_dispatch s kSpin (WSpin 0)); [done|by rewrite El]|by apply spin_returns]|done].
  - eexists. split; [eapply steps_trans; [apply steps_once, (enter_dispatch s kYield (WYield 0)); [done|by rewrite El]|by apply yield_returns]|done].
  - pose (s1 := set_worker s WPark kPark).
    assert (Hs : steps worker_step s s1) by (apply steps_once, (enter_dispatch s kPark WPark); [done|by rewrite El]).
    pose proof (park_alone s1 eq_refl Hm Hf) as H. simpl in H.
    destruct (idle_park _) as [p'|] eqn:Ei; destruct H as (s' & Hst & H); exists s'; (split; [by eapply steps_trans|]); [done|].
    unfold idle_park in Ei. simpl in Ei. destruct (pending_notify s); [done|]. destruct (Z.ltb_spec 0 (event_fd s)) as [|He]; [done|].
    by replace (event_fd s) with 0 by lia.
Qed.
End Machine.

(** ** Properties *)

(** C14: no notification is lost while parking, with [notify] and [idle_park]
    interleaved access by access: when the worker is blocked on the condition
    variable, unsignalled, and no notifier is at work, then no notification has
    happened since it found [pending_notify_] unset, and the flag is still
    unset (unless exactly a multiple of 2^64 notifications happened, the
    period of the generation).  And a blocked worker whose generation has moved
    returns to the active level by its own steps once the mutex is free. *)
Theorem idle_no_lost_wakeup (cfg : Config) (s : idle) (g : Z) :
  idle_reachable cfg s → worker s = WWait g →
  (cv_signal s = false → (∀ i, notifier s i = NIdle) →
     park_generation s = g ∧ since_test s mod W64 = 0 ∧ pending_notify s = (0 <? since_test s))
  ∧ (mutex_owner s = None → park_generation s ≠ g →
     ∃ s', steps (worker_step cfg) s s' ∧ worker s' = WRun ∧ level s' = kActive).
Proof.
  intros Hr Hw. destruct (idle_reachable_inv cfg s Hr) as [_ _ _ Hg Hs _ Hp _ Hrg _ Hwk]. split.
  - intros Hc Hn. assert (park_generation s = g) as E.
    { destruct (decide (park_generation s = g)) as [|Hne]; [done|].
      destruct (Hwk g Hw Hne) as [?|[i ?]]; [congruence|]. by destruct (Hn i). }
    split; [done|]. specialize (Hg g ltac:(by rewrite Hw)). split.
    + assert (wrap64 (g + since_test s - g) = 0) as E2 by (by rewrite <- wrap64_sub_l, <- Hg, E, Z.sub_diag).
      by replace (g + since_test s - g) with (since_test s) in E2 by lia.
    + destruct Hp as [|[i Hi]]; [by rewrite Hw|done|]. by rewrite Hn in Hi.
  - intros Hm Hne. eexists. split; [|split].
    { worker_runs park_wake. worker_runs park_relock. worker_runs park_true. apply steps_refl. }
    all: done.
Qed.

(** A notification seen while spinning or yielding does not reactivate the
    worker: every way out of [enter_idle] at the spin level leaves the level at
    yield, and every way out at the yield level leaves it at park. *)
Theorem idle_level_reset_is_overwritten (cfg : Config) (s s' : idle) (i : Z) :
  idle_step cfg s s' → worker s' = WRun →
  (worker s = WSpin i → level s' = kYield) ∧ (worker s = WYield i → level s' = kPark).
Proof.
  intros [Hst|[j Hst]] Hrun; destruct Hst; simpl in *; split; intros E; congruence.
Qed.

(** Run one more step of the worker, or of notifier 0, and normalise the state. *)
Ltac state_of :=
  match goal with |- steps ?R ?x ?y =>
    let x' := eval cbv [set_worker set_fd set_owner set_pending set_signal set_notifier bump_generation start_count idle_init
      level event_fd mutex_owner park_generation pending_notify cv_signal worker notifier since_test] in x in
    change (steps R x' y) end.
Ltac run c :=
  eapply steps_trans; [apply steps_once; left; eapply c; first [reflexivity|by vm_compute]|]; state_of.
Ltac notifier_runs c :=
  eapply steps_trans; [apply steps_once; right; exists 0%nat; eapply c; first [reflexivity|by vm_compute]|]; state_of.

(** A worker that parks, and a notification that reaches it there. *)
Lemma sample_parked :
  ∃ s, idle_reachable (mkIdleConfig 0 0) s ∧ worker s = WWait 0 ∧ cv_signal s = false ∧ (∀ i, notifier s i = NIdle).
Proof.
  eexists. split.
  { unfold idle_reachable. run enter_dispatch. run spin_done. run enter_dispatch. run yield_done.
    run enter_dispatch. run park_lock. run park_no_pending. run park_empty. run park_capture.
    run park_false. run park_block. apply steps_refl. }
  by split_and!.
Qed.

Lemma sample_notified :
  ∃ s, idle_reachable (mkIdleConfig 0 0) s ∧ worker s = WWait 0 ∧ mutex_owner s = None ∧ park_generation s = 1
    ∧ cv_signal s = true.
Proof.
  eexists. split.
  { unfold idle_reachable. run enter_dispatch. run spin_done. run enter_dispatch. run yield_done.
    run enter_dispatch. run park_lock. run park_no_pending. run park_empty. run park_capture.
    run park_false. run park_block. notifier_runs notify_lock. notifier_runs notify_pending. notifier_runs notify_bump.
    notifier_runs notify_unlock. notifier_runs notify_write. notifier_runs notify_cv. apply steps_refl. }
  by split_and!.
Qed.

Lemma idle_no_lost_wakeup_witness :
  (∃ s, worker s = WWait 0 ∧ since_test s mod W64 = 0)
  ∧ ∃ s s', worker s = WWait 0 ∧ steps (worker_step (mkIdleConfig 0 0)) s s' ∧ worker s' = WRun ∧ level s' = kActive.
Proof.
  split.
  - destruct sample_parked as (s & Hr & Hw & Hc & Hn). exists s. split; [exact Hw|].
    destruct (idle_no_lost_wakeup (mkIdleConfig 0 0) s 0 Hr Hw) as [H _]. apply (H Hc Hn).
  - destruct sample_notified as (s & Hr & Hw & Hm & Hg & _). exists s.
    destruct (idle_no_lost_wakeup (mkIdleConfig 0 0) s 0 Hr Hw) as [_ H].
    destruct (H Hm) as (s' & Hst); [by rewrite Hg|]. by exists s'.
Defined.

Lemma idle_level_reset_is_overwritten_witness :
  let s := mkIdle kSpin 1 None 1 true false (WSpin 0) (λ _, NIdle) 1 in
  ∃ s', idle_step default_config s s' ∧ event_fd s' = 0 ∧ level s' = kYield.
Proof.
  intros s. set (s' := set_worker (set_fd s 0) WRun kYield).
  assert (idle_step default_config s s') as H by (left; apply (spin_notified _ s 0); reflexivity).
  exists s'. split; [exact H|]. split; [reflexivity|].
  apply (idle_level_reset_is_overwritten default_config s s' 0 H); reflexivity.
Defined.
