(* ===== verification/Metrics.v ===== *)
(** Performance counters: [perf_histogram.h], [worker_perf.h],
    [trace_config.h], [metric_counter.h], [metric_histogram.h] and
    [metric_window.h].  Counters are 64-bit and wrap; the percentile targets
    are computed in IEEE doubles as in the code.  Time stamps are arguments. *)
From S2P Require Import Prelude Types Float64.

(** ** [Histogram]: power-of-two buckets *)

Record Histogram := mkHist { h_buckets : list Z; h_count : Z; h_sum : Z }.

Definition kNumBuckets : nat := 64.
Definition new_hist : Histogram := mkHist (replicate kNumBuckets 0) 0 0.

(** [63 - __builtin_clzll(value)] *)
Definition bucket_of (value : Z) : nat := Z.to_nat (Z.log2 (if value =? 0 then 1 else value)).

Definition hist_record (h : Histogram) (value : Z) : Histogram :=
  let b := bucket_of value in
  let value := if value =? 0 then 1 else value in
  mkHist (<[b := (h_buckets h !!! b) +64 1]> (h_buckets h)) (h_count h +64 1) (h_sum h +64 value).

(** The scan of [percentile]: the first bucket where the sum reaches the
    target. *)
Fixpoint hist_scan (buckets : list Z) (i : nat) (accum target : Z) : nat :=
  match buckets with
  | [] => i
  | n :: rest =>
      let accum := accum +64 n in
      if target <=? accum then i else hist_scan rest (S i) accum target
  end.

(** [static_cast<uint64_t>(count * p)] *)
Definition target_of (count : Z) (p : double) : Z := wrap64 (d_trunc (d_mul (d_of_Z count) p)).

(** The result is the double [2^i]; it is given here as the exponent. *)
Definition hist_percentile_exp (h : Histogram) (p : double) : option nat :=
  if h_count h =? 0 then None
  else Some (Nat.min (hist_scan (h_buckets h) 0 0 (target_of (h_count h) p)) (kNumBuckets - 1)).

Definition hist_percentile (h : Histogram) (p : double) : double :=
  match hist_percentile_exp h p with
  | None => d_zero
  | Some i => d_of_Z (2 ^ Z.of_nat i)
  end.

(** ** [WorkerPerf] *)

Inductive PerfLevel := kPerfNone | kPerfCount | kPerfTrace.
Definition PerfLevel_code (l : PerfLevel) : Z := match l with kPerfNone => 0 | kPerfCount => 1 | kPerfTrace => 2 end.
Definition level_ge (a b : PerfLevel) : bool := PerfLevel_code b <=? PerfLevel_code a.

Record QueuePerf := mkQP {
  enqueued_count : Z; total_wait_ns : Z; max_wait_ns : Z; qp_exec_ns : Z;
  wait_hist : Histogram; exec_hist : Histogram
}.
Definition new_qp : QueuePerf := mkQP 0 0 0 0 new_hist new_hist.
#[export] Instance QueuePerf_inhabited : Inhabited QueuePerf := populate new_qp.

Record WorkerPerf := mkPerf { perf_worker_id : Z; perf_level : PerfLevel; perf_queues : list QueuePerf }.
Definition new_perf (id : Z) : WorkerPerf := mkPerf id kPerfNone (replicate 8 new_qp).
Definition set_level (w : WorkerPerf) (l : PerfLevel) : WorkerPerf := mkPerf (perf_worker_id w) l (perf_queues w).

Definition qidx (q : QueueType) : nat := Z.to_nat (QueueType_code q).
Definition upd_queue (w : WorkerPerf) (q : QueueType) (f : QueuePerf → QueuePerf) : WorkerPerf :=
  mkPerf (perf_worker_id w) (perf_level w) (<[qidx q := f (perf_queues w !!! qidx q)]> (perf_queues w)).

(** [now] is the cycle counter. *)
Definition record_enqueue (w : WorkerPerf) (q : QueueType) (now : Z) : WorkerPerf * Z :=
  match perf_level w with
  | kPerfNone => (w, 0)
  | lv =>
      (upd_queue w q (λ p, mkQP (enqueued_count p +64 1) (total_wait_ns p) (max_wait_ns p) (qp_exec_ns p)
                             (wait_hist p) (exec_hist p)),
       if level_ge lv kPerfTrace then now else 0)
  end.

Definition record_dequeue (w : WorkerPerf) (q : QueueType) (enqueue_ns now : Z) : WorkerPerf :=
  match perf_level w with
  | kPerfNone => w
  | lv =>
      let wait := if 0 <? enqueue_ns then now -64 enqueue_ns else 0 in
      upd_queue w q (λ p, mkQP (enqueued_count p) (total_wait_ns p +64 wait)
        (if max_wait_ns p <? wait then wait else max_wait_ns p) (qp_exec_ns p)
        (if level_ge lv kPerfTrace && (0 <? wait) then hist_record (wait_hist p) wait else wait_hist p)
        (exec_hist p))
  end.

Definition record_exec (w : WorkerPerf) (q : QueueType) (exec_ns : Z) : WorkerPerf :=
  match perf_level w with
  | kPerfNone => w
  | lv =>
      upd_queue w q (λ p, mkQP (enqueued_count p) (total_wait_ns p) (max_wait_ns p) (qp_exec_ns p +64 exec_ns)
        (wait_hist p) (if level_ge lv kPerfTrace then hist_record (exec_hist p) exec_ns else exec_hist p))
  end.

Record QueueSnapshotPerf := mkQSP {
  qsp_type : Z; qsp_enqueued : Z; qsp_avg_wait_ns : Z; qsp_max_wait_ns : Z; qsp_avg_exec_ns : Z;
  qsp_p50_wait_ns : Z; qsp_p99_wait_ns : Z
}.
Record PerfSnapshot := mkPSnap { ps_worker_id : Z; ps_queues : list QueueSnapshotPerf; ps_snapshot_ns : Z }.

Definition queue_snapshot (i : Z) (p : QueuePerf) : option QueueSnapshotPerf :=
  if enqueued_count p =? 0 then None
  else Some (mkQSP i (enqueued_count p) (total_wait_ns p / enqueued_count p) (max_wait_ns p)
               (qp_exec_ns p / enqueued_count p)
               (wrap64 (d_trunc (hist_percentile (wait_hist p) (d_lit 50 100))))
               (wrap64 (d_trunc (hist_percentile (wait_hist p) (d_lit 99 100))))).

Definition perf_snapshot (w : WorkerPerf) (now : Z) : PerfSnapshot :=
  mkPSnap (perf_worker_id w)
    (omap (λ '(i, p), queue_snapshot i p) (zip (seqZ 0 8) (perf_queues w))) now.

(** ** [TraceConfig] *)

Record TraceConfig := mkTrace { tr_enabled : bool; sample_rate : Z; next_id : Z }.
Definition trace_init : TraceConfig := mkTrace false 0 1.
Definition set_enabled (t : TraceConfig) (v : bool) := mkTrace v (sample_rate t) (next_id t).
Definition set_sample_rate (t : TraceConfig) (n : Z) := mkTrace (tr_enabled t) n (next_id t).
Definition should_trace (t : TraceConfig) (trace_id : Z) : bool :=
  if trace_id =? 0 then false
  else if negb (tr_enabled t) then false
  else if sample_rate t =? 0 then false
  else if sample_rate t =? 1 then true
  else trace_id mod sample_rate t =? 0.
Definition next_trace_id (t : TraceConfig) : TraceConfig * Z :=
  (mkTrace (tr_enabled t) (sample_rate t) (wrap32 (next_id t + 1)), next_id t).
Definition enable_all (t : TraceConfig) := mkTrace true 1 (next_id t).
Definition disable (t : TraceConfig) := mkTrace false (sample_rate t) (next_id t).

(** ** [MetricCounter], [MetricGauge], [MetricPeak] *)

Definition counter_add (v delta : Z) : Z := to_signed64 (v + delta).
Definition gauge_set (_ v : Z) : Z := v.
(** The compare-exchange loop of [MetricPeak], run alone. *)
Definition peak_record (prev v : Z) : Z := if prev <? v then v else prev.

(** ** [MetricLatency] *)

Record MetricLatency := mkLat { l_buckets : list Z; l_count : Z; l_sum : Z }.
Definition kBuckets : nat := 32.
Definition new_lat : MetricLatency := mkLat (replicate kBuckets 0) 0 0.

Definition bucket_index (ns : Z) : nat :=
  if ns =? 0 then 0%nat
  else
    let us := ns / 1000 in
    if us =? 0 then 0%nat
    else
      let idx := Z.to_nat (Z.log2 us + 1) in
      if Nat.leb kBuckets idx then (kBuckets - 1)%nat else idx.

Definition lat_record (l : MetricLatency) (ns : Z) : MetricLatency :=
  let i := bucket_index ns in
  mkLat (<[i := (l_buckets l !!! i) +64 1]> (l_buckets l)) (l_count l +64 1) (l_sum l +64 ns).

Fixpoint lat_scan (buckets : list Z) (i : nat) (cumulative lo target : Z) : Z :=
  let next := match i with O => 1000 | _ => wrap64 (lo * 2) end in
  match buckets with
  | [] => lo
  | n :: rest =>
      let cumulative := cumulative +64 n in
      if target <=? cumulative then
        if n =? 0 then lo
        else
          let frac := d_div (d_of_Z (target -64 (cumulative -64 n))) (d_of_Z n) in
          lo +64 d_trunc (d_mul (d_of_Z (next -64 lo)) frac)
      else lat_scan rest (S i) cumulative next target
  end.

Definition lat_percentile (l : MetricLatency) (p : double) : Z :=
  if l_count l =? 0 then 0
  else lat_scan (l_buckets l) 0 0 0 (target_of (l_count l) p).

Definition lat_avg_ns (l : MetricLatency) : Z := if 0 <? l_count l then l_sum l / l_count l else 0.
Definition lat_reset (l : MetricLatency) : MetricLatency := new_lat.

(** ** [MetricWindow] and [MetricRate] *)

Record MetricWindow := mkWindow { w_samples : list (Z * Z); w_dur : Z }.

Fixpoint evict (now dur : Z) (l : list (Z * Z)) : list (Z * Z) :=
  match l with
  | [] => []
  | (ts, v) :: rest => if ts + dur <? now then evict now dur rest else l
  end.

Definition window_sample (w : MetricWindow) (now value : Z) : MetricWindow :=
  mkWindow (evict now (w_dur w) (w_samples w ++ [(now, value)])) (w_dur w).

Record WindowStats := mkWStats { ws_min : Z; ws_max : Z; ws_avg : double }.

Definition window_value (w : MetricWindow) : WindowStats :=
  match w_samples w with
  | [] => mkWStats 0 0 d_zero
  | (_, v0) :: _ =>
      let '(mn, mx, sum) := foldl (λ '(mn, mx, sum) '(_, v),
        (if v <? mn then v else mn, if mx <? v then v else mx, d_add sum (d_of_Z v)))
        (v0, v0, d_zero) (w_samples w) in
      mkWStats mn mx (d_div sum (d_of_Z (Z.of_nat (length (w_samples w)))))
  end.

Record MetricRate := mkRate { last_value : Z; last_ts : Z; rate : double }.
Definition new_rate : MetricRate := mkRate 0 0 d_zero.

Definition rate_update (r : MetricRate) (now current_value : Z) : MetricRate :=
  let elapsed := d_div (d_of_Z (now - last_ts r)) (d_of_Z 1000000000) in
  let rate' :=
    if (0 <? last_ts r) && d_gt elapsed d_zero
    then d_div (d_of_Z (to_signed64 (current_value - last_value r))) elapsed
    else rate r in
  mkRate current_value now rate'.

(** ** Facts *)

(** How many of the recorded values fall into bucket [i], and into the first
    [i] buckets. *)
Definition in_bucket (vs : list Z) (i : nat) : Z := Z.of_nat (length (filter (λ v, bucket_of v = i) vs)).
Definition below (vs : list Z) (i : nat) : Z := Z.of_nat (length (filter (λ v, (bucket_of v < i)%nat) vs)).

Lemma bucket_lt v : 0 ≤ v < W64 → (bucket_of v < 64)%nat.
Proof.
  intros Hv. unfold bucket_of. destruct (Z.eqb_spec v 0) as [|H0]; [simpl; lia|].
  assert (Z.log2 v < 64) by (apply Z.log2_lt_pow2; [lia|exact (proj2 Hv)]).
  pose proof (Z.log2_nonneg v). lia.
Qed.

(** The bucket of a value is its binary magnitude. *)
Lemma bucket_lt_iff v i : 0 < v → (bucket_of v < i)%nat ↔ v < 2 ^ Z.of_nat i.
Proof.
  intros Hv. unfold bucket_of. destruct (Z.eqb_spec v 0); [lia|].
  rewrite Z.log2_lt_pow2 by lia. pose proof (Z.log2_nonneg v). lia.
Qed.

Lemma below_S vs i : below vs (S i) = below vs i + in_bucket vs i.
Proof.
  unfold below, in_bucket. induction vs as [|v vs IH]; [done|].
  rewrite !filter_cons. repeat case_decide; simpl; lia.
Qed.

Lemma below_le_length vs i : 0 ≤ below vs i ≤ Z.of_nat (length vs).
Proof. unfold below. pose proof (length_filter (λ v, (bucket_of v < i)%nat) vs). lia. Qed.

Record hist_rep (h : Histogram) (vs : list Z) : Prop := {
  hr_len : length (h_buckets h) = 64%nat;
  hr_buckets : ∀ i, (i < 64)%nat → h_buckets h !!! i = wrap64 (in_bucket vs i);
  hr_count : h_count h = wrap64 (Z.of_nat (length vs))
}.

Lemma new_hist_rep : hist_rep new_hist [].
Proof.
  split; [done| |done]. intros i Hi. change (h_buckets new_hist) with (replicate 64 0).
  by rewrite lookup_total_replicate_2.
Qed.

Lemma hist_record_rep h vs v : hist_rep h vs → 0 ≤ v < W64 → hist_rep (hist_record h v) (v :: vs).
Proof.
  intros [Hl Hb Hc] Hv. pose proof (bucket_lt v Hv). split; simpl.
  - by rewrite length_insert.
  - intros i Hi. unfold in_bucket. rewrite filter_cons. case_decide as E.
    + subst i. rewrite list_lookup_total_insert_eq by lia. rewrite Hb, wrap64_add_l by done.
      f_equal. unfold in_bucket. simpl. lia.
    + rewrite list_lookup_total_insert_ne by done. by apply Hb.
  - rewrite Hc, wrap64_add_l. f_equal. lia.
Qed.

(** The scan stops at the first bucket whose cumulative count reaches the
    target. *)
Lemma hist_scan_spec h vs target k i :
  hist_rep h vs → Z.of_nat (length vs) < W64 → (i + k = 64)%nat →
  let j := hist_scan (drop i (h_buckets h)) i (below vs i) target in
  (i ≤ j ≤ 64)%nat ∧ (∀ m, (i < m ≤ j)%nat → below vs m < target)
  ∧ ((j < 64)%nat → target ≤ below vs (S j)).
Proof.
  intros [Hl Hb Hc] Hlen. revert i. induction k as [|k IH]; intros i Hik.
  - rewrite drop_ge by lia. simpl. split; [lia|]. split; [lia|lia].
  - assert (∃ x, h_buckets h !! i = Some x) as [x Hx] by (apply lookup_lt_is_Some; lia).
    rewrite (drop_S _ _ _ Hx). simpl.
    assert (x = in_bucket vs i) as ->.
    { pose proof (list_lookup_total_correct _ _ _ Hx) as <-. rewrite Hb by lia.
      apply wrap64_small. unfold in_bucket. pose proof (length_filter (λ v, bucket_of v = i) vs). lia. }
    pose proof (below_le_length vs (S i)). rewrite <- below_S.
    rewrite wrap64_small by lia. destruct (Z.leb_spec target (below vs (S i))).
    + split; [lia|]. split; [lia|done].
    + destruct (IH (S i) ltac:(lia)) as (H1 & H2 & H3). split; [lia|]. split; [|done].
      intros m Hm. destruct (decide (m = S i)) as [->|]; [done|]. apply H2. lia.
Qed.

Lemma hist_records_rep vs : Forall (λ v, 0 ≤ v < W64) vs → hist_rep (foldr (λ v h, hist_record h v) new_hist vs) vs.
Proof. induction 1; simpl; [apply new_hist_rep|by apply hist_record_rep]. Qed.

Lemma filter_ext_in {A} (P1 P2 : A → Prop) `{!∀ x, Decision (P1 x), !∀ x, Decision (P2 x)} (l : list A) :
  (∀ x, x ∈ l → P1 x ↔ P2 x) → filter P1 l = filter P2 l.
Proof.
  induction l as [|x l IH]; intros HP; [done|]. rewrite !filter_cons.
  assert (filter P1 l = filter P2 l) as -> by (apply IH; intros y Hy; apply HP; by right).
  pose proof (HP x ltac:(left)). repeat case_decide; tauto.
Qed.

Lemma evict_sorted now dur l :
  (∀ i j a b, (i ≤ j)%nat → l !! i = Some a → l !! j = Some b → a.1 ≤ b.1) →
  evict now dur l = filter (λ s, now ≤ s.1 + dur) l.
Proof.
  induction l as [|[ts v] l IH]; intros Hs; simpl; [done|].
  rewrite filter_cons. destruct (Z.ltb_spec (ts + dur) now).
  - rewrite decide_False by (simpl; lia). apply IH.
    intros i j a b Hij Ha Hb. apply (Hs (S i) (S j)); [lia|done..].
  - rewrite decide_True by (simpl; lia). f_equal. symmetry. apply list_filter_all, Forall_forall.
    intros [t u] Hin. apply list_elem_of_lookup in Hin as [i Hi]. simpl.
    pose proof (Hs 0%nat (S i) (ts, v) (t, u) ltac:(lia) eq_refl Hi) as Hle. simpl in Hle. lia.
Qed.

Lemma foldl_min_max l mn mx sum mn' mx' sum' :
  foldl (λ '(mn, mx, sum) '(_, v),
    (if v <? mn then v else mn, if mx <? v then v else mx, d_add sum (d_of_Z v)))
    (mn, mx, sum) (l : list (Z * Z)) = (mn', mx', sum') →
  mn' ≤ mn ∧ mx ≤ mx' ∧ (∀ s, s ∈ l → mn' ≤ s.2 ≤ mx')
  ∧ (mn' = mn ∨ mn' ∈ l.*2) ∧ (mx' = mx ∨ mx' ∈ l.*2).
Proof.
  revert mn mx sum. induction l as [|[t v] l IH]; intros mn mx sum; simpl.
  - intros [= <- <- <-]. split_and!; try lia; try (by left). by intros s ?%not_elem_of_nil.
  - intros E. apply IH in E as (H1 & H2 & H3 & H4 & H5).
    split_and!.
    + destruct (Z.ltb_spec v mn); lia.
    + destruct (Z.ltb_spec mx v); lia.
    + intros s [->|Hs]%elem_of_cons; [|by apply H3]. simpl.
      destruct (Z.ltb_spec v mn), (Z.ltb_spec mx v); lia.
    + destruct H4 as [->|?]; [|right; by right]. destruct (v <? mn); [right; left|by left].
    + destruct H5 as [->|?]; [|right; by right]. destruct (mx <? v); [right; left|by left].
Qed.

Lemma bucket_index_ranges (ns : Z) :
  0 ≤ ns →
  let i := bucket_index ns in
  (i < kBuckets)%nat
  ∧ (i = 0%nat → ns < 1000)
  ∧ ((0 < i)%nat → 1000 * 2 ^ (Z.of_nat i - 1) ≤ ns)
  ∧ ((0 < i < 31)%nat → ns < 1000 * 2 ^ Z.of_nat i).
Proof.
  intros Hns. unfold bucket_index, kBuckets. destruct (Z.eqb_spec ns 0) as [->|H0]; [simpl; lia|].
  pose proof (Z.div_mod ns 1000 ltac:(lia)) as Hdm. pose proof (Z.mod_pos_bound ns 1000 ltac:(lia)) as Hmb.
  set (us := ns / 1000) in *. destruct (Z.eqb_spec us 0) as [Hu|Hu]; [simpl; lia|].
  assert (0 < us) as Hpos by (unfold us in *; Z.div_mod_to_equations; lia).
  pose proof (Z.log2_spec us Hpos) as [Hlo Hhi]. pose proof (Z.log2_nonneg us).
  destruct (Nat.leb_spec 32 (Z.to_nat (Z.log2 us + 1))) as [Hc|Hc]; simpl.
  - split; [lia|]. split; [lia|]. split; [|lia]. intros _.
    assert (2 ^ 30 ≤ 2 ^ Z.log2 us) by (apply Z.pow_le_mono_r; lia). change (2 ^ (Z.of_nat 31 - 1)) with (2 ^ 30). lia.
  - split; [lia|]. split; [lia|]. rewrite !Z2Nat.id by lia. split.
    + intros _. replace (Z.log2 us + 1 - 1) with (Z.log2 us) by lia. lia.
    + intros _. rewrite Z.add_1_r. lia.
Qed.

(** ** Properties *)

(** The histogram percentile brackets the recorded data.  For fewer than
    2^64 recorded values it returns a power of two [2^i]: at least the target
    number of values lie below [2^(i+1)], and, when [i > 0], fewer than the
    target lie below [2^i]. *)
Theorem histogram_percentile_brackets (vs : list Z) (p : double) (i : nat) :
  Forall (λ v, 0 < v < W64) vs → Z.of_nat (length vs) < W64 →
  let h := foldr (λ v h, hist_record h v) new_hist vs in
  let target := target_of (Z.of_nat (length vs)) p in
  target ≤ Z.of_nat (length vs) →
  hist_percentile_exp h p = Some i →
  hist_percentile h p = d_of_Z (2 ^ Z.of_nat i)
  ∧ target ≤ Z.of_nat (length (filter (λ v, v < 2 ^ (Z.of_nat i + 1)) vs))
  ∧ ((0 < i)%nat → Z.of_nat (length (filter (λ v, v < 2 ^ Z.of_nat i) vs)) < target).
Proof.
  intros Hvs Hlen h target Ht Hp.
  assert (hist_rep h vs) as Hr by (apply hist_records_rep; eapply Forall_impl; [done|simpl; lia]).
  split; [unfold hist_percentile; by rewrite Hp|]. unfold hist_percentile_exp in Hp.
  rewrite (hr_count _ _ Hr), wrap64_small in Hp by lia.
  destruct (Z.eqb_spec (Z.of_nat (length vs)) 0) as [|Hz]; [done|]. injection Hp as Hp. fold target in Hp.
  destruct (hist_scan_spec h vs target 64 0 Hr Hlen eq_refl) as (H1 & H2 & H3).
  rewrite drop_0 in H1, H2, H3. change (below vs 0) with (Z.of_nat (length (filter (λ v, (bucket_of v < 0)%nat) vs))) in *.
  assert (Z.of_nat (length (filter (λ v, (bucket_of v < 0)%nat) vs)) = 0) as E0.
  { clear. induction vs as [|v vs IH]; [done|]. rewrite filter_cons, decide_False by lia. done. }
  rewrite E0 in H1, H2, H3. set (j := hist_scan _ _ _ _) in *.
  assert (∀ m : nat, Z.of_nat (length (filter (λ v, v < 2 ^ Z.of_nat m) vs)) = below vs m) as Hbel.
  { intros m. unfold below. do 2 f_equal. apply filter_ext_in. rewrite Forall_forall in Hvs.
    intros v Hv. symmetry. apply bucket_lt_iff. by apply Hvs. }
  assert (below vs 64 = Z.of_nat (length vs)) as Hall.
  { unfold below. do 2 f_equal. apply list_filter_all, Forall_forall. intros v Hv. rewrite Forall_forall in Hvs.
    apply bucket_lt. specialize (Hvs v Hv). simpl in Hvs. lia. }
  replace (Z.of_nat i + 1) with (Z.of_nat (S i)) by lia. rewrite !Hbel.
  unfold kNumBuckets in Hp. destruct (decide (j < 64)%nat) as [Hj|Hj].
  - replace i with j by lia. split; [by apply H3|]. intros Hpos. apply H2. lia.
  - replace i with 63%nat by lia. rewrite Hall. split; [done|]. intros _. apply H2. lia.
Qed.

(** The sliding window: after a sample taken at [now], and time stamps in
    order, the window holds exactly the samples not older than its duration
    (the new one included), and its minimum and maximum are attained and bound
    every sample. *)
Theorem window_keeps_recent (w : MetricWindow) (now value : Z) :
  0 ≤ w_dur w →
  (∀ i j a b, (i ≤ j)%nat → (w_samples w ++ [(now, value)]) !! i = Some a →
     (w_samples w ++ [(now, value)]) !! j = Some b → a.1 ≤ b.1) →
  let w' := window_sample w now value in
  w_samples w' = filter (λ s, now ≤ s.1 + w_dur w) (w_samples w) ++ [(now, value)]
  ∧ (∀ s, s ∈ w_samples w' → ws_min (window_value w') ≤ s.2 ≤ ws_max (window_value w'))
  ∧ ws_min (window_value w') ∈ (w_samples w').*2 ∧ ws_max (window_value w') ∈ (w_samples w').*2.
Proof.
  intros Hd Hs w'. assert (w_samples w' = filter (λ s, now ≤ s.1 + w_dur w) (w_samples w) ++ [(now, value)]) as E.
  { unfold w', window_sample. simpl. rewrite evict_sorted by done. rewrite filter_app.
    rewrite (filter_cons _ _ []), decide_True by (simpl; lia). done. }
  split; [done|]. unfold window_value.
  destruct (w_samples w') as [|[t0 v0] l] eqn:El.
  { exfalso. by destruct (filter (λ s, now ≤ s.1 + w_dur w) (w_samples w)). }
  destruct (foldl _ _ _) as [[mn mx] sum] eqn:Ef. apply foldl_min_max in Ef as (H1 & H2 & H3 & H4 & H5).
  simpl. split; [done|]. split.
  - destruct H4 as [->|?]; [left|done].
  - destruct H5 as [->|?]; [left|done].
Qed.

(** Latency buckets: sub-microsecond samples go to bucket 0, samples of
    [2^(i-1)] to [2^i] microseconds to bucket [i], and everything from [2^30]
    microseconds on to the last bucket. *)
Theorem latency_bucket_ranges (ns : Z) :
  0 ≤ ns →
  let i := bucket_index ns in
  (i < kBuckets)%nat
  ∧ (i = 0%nat → ns < 1000)
  ∧ ((0 < i)%nat → 1000 * 2 ^ (Z.of_nat i - 1) ≤ ns)
  ∧ ((0 < i < 31)%nat → ns < 1000 * 2 ^ Z.of_nat i).
Proof. intros Hns. by apply bucket_index_ranges. Qed.

(** The median of a single latency sample is reported as 0: the target
    rounds down to 0, so the scan stops in the empty first bucket, the branch
    the code marks as impossible. *)
Theorem latency_single_sample_median (ns : Z) :
  1000 ≤ ns < W64 → lat_percentile (lat_record new_lat ns) (d_lit 50 100) = 0.
Proof.
  intros Hns. pose proof (bucket_index_ranges ns ltac:(lia)) as (_ & Hz & _).
  unfold lat_percentile. simpl l_count. change (0 +64 1) with 1. simpl (1 =? 0).
  change (target_of 1 (d_lit 50 100)) with 0. simpl l_buckets.
  destruct (bucket_index ns) as [|i] eqn:E; [lia|]. unfold new_lat. simpl. done.
Qed.

(** ** [MetricPeak] with concurrent recorders *)
Module Peak.

(** A call of [operator<<]: not begun, in the loop with the value it last
    read, done. *)
Inductive RecPc := PStart | PLoop (prev : Z) | PDone.
Record peak := mkPeak { pvalue : Z; recorders : list (Z * RecPc) }.
Definition peak0 (vs : list Z) : peak := mkPeak 0 ((λ v, (v, PStart)) <$> vs).

Definition set_rec (s : peak) (i : nat) (v : Z) (pc : RecPc) : peak := mkPeak (pvalue s) (<[i := (v, pc)]> (recorders s)).

(** One step per access to the atomic; a weak compare-exchange may also fail
    when the value is the expected one. *)
Inductive kstep : peak → peak → Prop :=
| k_load s i v : recorders s !! i = Some (v, PStart) → kstep s (set_rec s i v (PLoop (pvalue s)))
| k_exit s i v prev : recorders s !! i = Some (v, PLoop prev) → v ≤ prev → kstep s (set_rec s i v PDone)
| k_cas s i v prev : recorders s !! i = Some (v, PLoop prev) → prev < v → pvalue s = prev →
    kstep s (mkPeak v (<[i := (v, PDone)]> (recorders s)))
| k_retry s i v prev : recorders s !! i = Some (v, PLoop prev) → prev < v → kstep s (set_rec s i v (PLoop (pvalue s))).

Definition bounded (s : peak) (r : Z * RecPc) : Prop :=
  match r.2 with PStart => True | PLoop prev => prev ≤ pvalue s | PDone => r.1 ≤ pvalue s end.

Record peak_inv (vs : list Z) (s : peak) : Prop := {
  pi_values : (recorders s).*1 = vs;
  pi_origin : pvalue s = 0 ∨ pvalue s ∈ vs;
  pi_nonneg : 0 ≤ pvalue s;
  pi_bounded : Forall (bounded s) (recorders s)
}.

Lemma peak_inv_insert vs s i v pc pc' x :
  peak_inv vs s → recorders s !! i = Some (v, pc) → pvalue s ≤ x → x = 0 ∨ x ∈ vs →
  bounded (mkPeak x []) (v, pc') → peak_inv vs (mkPeak x (<[i := (v, pc')]> (recorders s))).
Proof.
  intros [Hv Ho Hn HF] Hi Hx Hxo Hb. split; simpl; [|done|lia|].
  - rewrite list_fmap_insert, <- Hv. apply list_insert_id. by rewrite list_lookup_fmap, Hi.
  - apply Forall_insert; [|done]. eapply Forall_impl; [exact HF|]. intros [w [|prev|]]; unfold bounded; simpl; lia.
Qed.

Lemma peak_inv_step vs s s' : peak_inv vs s → kstep s s' → peak_inv vs s'.
Proof.
  intros Hinv Hstep. assert (HF := pi_bounded _ _ Hinv). assert (Ho := pi_origin _ _ Hinv).
  destruct Hstep as [s i v Hi|s i v prev Hi Hle|s i v prev Hi Hlt Hp|s i v prev Hi Hlt];
    assert (Hb := Forall_lookup_1 _ _ _ _ HF Hi); unfold bounded in Hb; simpl in Hb;
    (eapply peak_inv_insert; [done|done|try lia|try done|unfold bounded; simpl; lia]).
  right. rewrite <- (pi_values _ _ Hinv). apply list_elem_of_fmap. exists (v, PLoop prev). split; [done|]. by eapply list_elem_of_lookup_2.
Qed.

(** Whatever the interleaving of the recorders, once all have returned the peak
    is the largest of the recorded values, or 0. *)
Theorem peak_is_max (vs : list Z) (s : peak) :
  steps kstep (peak0 vs) s → Forall (λ r, r.2 = PDone) (recorders s) → pvalue s = foldr Z.max 0 vs.
Proof.
  intros Hs HD. assert (Hinv : peak_inv vs s).
  { apply (steps_invariant kstep (peak_inv vs) (peak0 vs) s); [|intros a b; apply peak_inv_step|done].
    split; simpl; [|by left|done|by apply Forall_fmap, Forall_true]. rewrite <- list_fmap_compose. by apply list_fmap_id. }
  assert (Hle : Forall (λ v, v ≤ pvalue s) vs).
  { rewrite <- (pi_values _ _ Hinv). apply Forall_fmap. assert (HF := pi_bounded _ _ Hinv).
    rewrite Forall_forall in HF, HD |- *. intros [v pc] Hin. specialize (HF _ Hin). specialize (HD _ Hin).
    unfold bounded in HF. simpl in *. by subst pc. }
  assert (Hmax : ∀ x, x = 0 ∨ x ∈ vs → 0 ≤ x → Forall (λ v, v ≤ x) vs → x = foldr Z.max 0 vs); [|by apply Hmax; [apply Hinv|apply Hinv|]].
  clear. intros x Hx H0 HF. assert (foldr Z.max 0 vs ≤ x) by (clear Hx; induction HF; simpl in *; lia).
  destruct Hx as [->|Hin]; [|clear HF; induction Hin; simpl in *; lia].
  assert (0 ≤ foldr Z.max 0 vs) by (clear; induction vs; simpl; lia). lia.
Qed.
End Peak.

Lemma histogram_percentile_brackets_witness :
  hist_percentile_exp (foldr (λ v h, hist_record h v) new_hist [5; 9; 1000]) (d_lit 99 100) = Some 3%nat
  ∧ 2 ≤ Z.of_nat (length (filter (λ v, v < 16) [5; 9; 1000])).
Proof.
  split; [vm_compute; reflexivity|].
  destruct (histogram_percentile_brackets [5; 9; 1000] (d_lit 99 100) 3) as (_ & H & _).
  - repeat constructor; reflexivity.
  - reflexivity.
  - vm_compute. discriminate.
  - vm_compute. reflexivity.
  - exact H.
Defined.

Lemma window_keeps_recent_witness :
  w_samples (window_sample (mkWindow [(1, 9); (10, 7)] 5) 12 3) = [(10, 7); (12, 3)].
Proof.
  destruct (window_keeps_recent (mkWindow [(1, 9); (10, 7)] 5) 12 3) as [H _].
  - vm_compute. discriminate.
  - intros [|[|[|i]]] [|[|[|j]]] a b Hij Ha Hb; try (vm_compute in Ha; discriminate Ha);
      try (vm_compute in Hb; discriminate Hb); try (inversion Hij; fail);
      injection Ha as <-; injection Hb as <-; try (vm_compute; discriminate); exfalso; lia.
  - exact H.
Defined.

Lemma latency_bucket_ranges_witness : bucket_index 1500 = 1%nat ∧ 1000 * 2 ^ (Z.of_nat 1 - 1) ≤ 1500.
Proof.
  split; [reflexivity|].
  destruct (latency_bucket_ranges 1500 ltac:(lia)) as (_ & _ & H & _). apply H. apply Nat.lt_0_1.
Defined.

Lemma latency_single_sample_median_witness :
  lat_percentile (lat_record new_lat 5000) (d_lit 50 100) = 0.
Proof. apply (latency_single_sample_median 5000). split; [discriminate|reflexivity]. Defined.
