(* ===== verification/Scheduler.v ===== *)
(** [Scheduler] ([scheduler.h], [scheduler.cc]): the loop of a worker.  The
    queues are any implementation of the work-queue interface; the tasks are
    client code, so what a task does to the scheduler (the items it enqueues,
    a stop request) and how long it runs are a parameter [behave], which may
    depend on how many tasks ran before.  Calls that can spin forever return
    [None], and so does a drain that runs out of fuel.  [enter_idle] is the
    sequential one of [Idle]; where it blocks on the condition variable the turn
    ends in a state that is [parked], and the loop goes on after a
    notification. *)
From S2P Require Import Prelude Idle Types Circ Rings WorkQueues Float64 Policies Metrics.

(** What a running task does to its worker. *)
Inductive Effect := Enqueue (qi : Z) (x : WorkItem) | RequestStop.

Section Ops.
Context {Q : Type} `{!WorkQueueOps Q}.
Context (behave : nat → WorkItem → list Effect * Z).

Record Sched := mkSched {
  queues : list Q;
  policy : SchedulingPolicy;
  affine_idx : Z;
  disk_io_idx : Z;
  io_backend : bool;
  running : bool;
  stop_requested : bool;
  busy_poll : bool;
  stats : SchedulerStats;
  last_poll_times : list Z;
  total_dequeued : list Z;
  perf : option WorkerPerf;
  now_ns : Z;                         (* the steady clock *)
  tls_source_queue_idx : Z;
  executed : list (Z * WorkItem);     (* what ran, with the queue it came from *)
  offered : list (Z * WorkItem);      (* what was enqueued, by tasks or from outside *)
  idle_cfg : Idle.Config;
  parker : Parker;                    (* [idle_] *)
  parked : bool                       (* blocked in [idle_->enter_idle()] *)
}.

Definition new_sched (p : SchedulingPolicy) : Sched :=
  mkSched [] p SIZE_MAX SIZE_MAX false false false false stats0 [] [] None 0 SIZE_MAX [] []
    Idle.default_config parker0 false.

Definition set_queues (s : Sched) qs := mkSched qs (policy s) (affine_idx s) (disk_io_idx s) (io_backend s)
  (running s) (stop_requested s) (busy_poll s) (stats s) (last_poll_times s) (total_dequeued s) (perf s)
  (now_ns s) (tls_source_queue_idx s) (executed s) (offered s) (idle_cfg s) (parker s) (parked s).
Definition set_flags (s : Sched) r st := mkSched (queues s) (policy s) (affine_idx s) (disk_io_idx s)
  (io_backend s) r st (busy_poll s) (stats s) (last_poll_times s) (total_dequeued s) (perf s)
  (now_ns s) (tls_source_queue_idx s) (executed s) (offered s) (idle_cfg s) (parker s) (parked s).
Definition set_counts (s : Sched) st lp td := mkSched (queues s) (policy s) (affine_idx s) (disk_io_idx s)
  (io_backend s) (running s) (stop_requested s) (busy_poll s) st lp td (perf s)
  (now_ns s) (tls_source_queue_idx s) (executed s) (offered s) (idle_cfg s) (parker s) (parked s).
Definition set_time (s : Sched) pf t tls := mkSched (queues s) (policy s) (affine_idx s) (disk_io_idx s)
  (io_backend s) (running s) (stop_requested s) (busy_poll s) (stats s) (last_poll_times s) (total_dequeued s)
  pf t tls (executed s) (offered s) (idle_cfg s) (parker s) (parked s).
Definition set_logs (s : Sched) ex off := mkSched (queues s) (policy s) (affine_idx s) (disk_io_idx s)
  (io_backend s) (running s) (stop_requested s) (busy_poll s) (stats s) (last_poll_times s) (total_dequeued s)
  (perf s) (now_ns s) (tls_source_queue_idx s) ex off (idle_cfg s) (parker s) (parked s).
Definition put_policy (s : Sched) p := mkSched (queues s) p (affine_idx s) (disk_io_idx s)
  (io_backend s) (running s) (stop_requested s) (busy_poll s) (stats s) (last_poll_times s) (total_dequeued s)
  (perf s) (now_ns s) (tls_source_queue_idx s) (executed s) (offered s) (idle_cfg s) (parker s) (parked s).
Definition set_parker (s : Sched) cfg pk b := mkSched (queues s) (policy s) (affine_idx s) (disk_io_idx s)
  (io_backend s) (running s) (stop_requested s) (busy_poll s) (stats s) (last_poll_times s) (total_dequeued s)
  (perf s) (now_ns s) (tls_source_queue_idx s) (executed s) (offered s) cfg pk b.
Definition set_config (s : Sched) aff disk io busy := mkSched (queues s) (policy s) aff disk io
  (running s) (stop_requested s) busy (stats s) (last_poll_times s) (total_dequeued s)
  (perf s) (now_ns s) (tls_source_queue_idx s) (executed s) (offered s) (idle_cfg s) (parker s) (parked s).

(** The setters of the class. *)
Definition set_policy (s : Sched) (p : SchedulingPolicy) : Sched := put_policy s p.
Definition set_idle (s : Sched) (cfg : Idle.Config) (pk : Parker) : Sched := set_parker s cfg pk (parked s).
Definition set_io_backend (s : Sched) (backend : bool) : Sched :=
  set_config s (affine_idx s) (disk_io_idx s) backend (if backend then true else busy_poll s).
Definition set_affine_idx (s : Sched) (i : Z) := set_config s i (disk_io_idx s) (io_backend s) (busy_poll s).
Definition set_disk_io_idx (s : Sched) (i : Z) := set_config s (affine_idx s) i (io_backend s) (busy_poll s).
Definition set_busy_poll (s : Sched) (v : bool) := set_config s (affine_idx s) (disk_io_idx s) (io_backend s) v.
Definition set_perf (s : Sched) (w : option WorkerPerf) := set_time s w (now_ns s) (tls_source_queue_idx s).
Definition reset_stop (s : Sched) := set_flags s (running s) false.
Definition reset_stats (s : Sched) := set_counts s stats0 (last_poll_times s) (total_dequeued s).

Definition register_queue (s : Sched) (q : Q) : Sched * Z :=
  let idx := Z.of_nat (length (queues s)) in
  (set_counts (set_queues s (queues s ++ [q])) (stats s) (last_poll_times s ++ [0]) (total_dequeued s ++ [0]), idx).

(** An index is a [size_t]. *)
Definition get_queue (s : Sched) (idx : Z) : option Q :=
  if (0 <=? idx) && (idx <? Z.of_nat (length (queues s))) then queues s !! Z.to_nat idx else None.

Definition replace_queue (s : Sched) (idx : Z) (q : Q) : Sched * bool :=
  if Z.of_nat (length (queues s)) <=? idx then (s, false)
  else (set_queues s (<[Z.to_nat idx := q]> (queues s)), true).

(** [idle_->notify()]: a worker that is blocked there goes on. *)
Definition notify (s : Sched) : Sched :=
  set_parker s (idle_cfg s) ((if parked s then unpark else id) (Idle.notify (parker s))) false.

Definition request_stop (s : Sched) : Sched := notify (set_flags s false true).

(** An enqueue on queue [qi]; there is nothing behind an index out of range. *)
Definition offer (s : Sched) (qi : Z) (x : WorkItem) : option Sched :=
  match get_queue s qi with
  | None => Some s
  | Some q =>
      match enqueue q x with
      | None => None
      | Some q' => Some (set_logs (set_queues s (<[Z.to_nat qi := q']> (queues s)))
                           (executed s) (offered s ++ [(qi, x)]))
      end
  end.

Definition apply_effect (s : Sched) (e : Effect) : option Sched :=
  match e with
  | Enqueue qi x => offer s qi x
  | RequestStop => Some (request_stop s)
  end.

Fixpoint apply_effects (s : Sched) (es : list Effect) : option Sched :=
  match es with
  | [] => Some s
  | e :: es' => match apply_effect s e with None => None | Some s' => apply_effects s' es' end
  end.

(** [item.execute()]: the task runs, the clock advances. *)
Definition execute_item (s : Sched) (qi : Z) (x : WorkItem) : option (Sched * Z) :=
  let '(es, ns) := behave (length (executed s)) x in
  match apply_effects (set_logs s (executed s ++ [(qi, x)]) (offered s)) es with
  | None => None
  | Some s' => Some (set_time s' (perf s') (now_ns s' +64 ns) (tls_source_queue_idx s'), ns)
  end.

Definition count_task (s : Sched) (exec_ns : Z) : Sched :=
  let st := stats s in
  set_counts s (mkStats (total_polls st) (total_idles st) (total_tasks_executed st +64 1)
                  (total_exec_ns st +64 exec_ns)) (last_poll_times s) (total_dequeued s).

Definition perf_exec (s : Sched) (t : QueueType) (ns : Z) : Sched :=
  set_time s (match perf s with Some w => Some (record_exec w t ns) | None => None end)
    (now_ns s) (tls_source_queue_idx s).
Definition perf_dequeue (s : Sched) (t : QueueType) (enq : Z) : Sched :=
  set_time s (match perf s with Some w => Some (record_dequeue w t enq (now_ns s)) | None => None end)
    (now_ns s) (tls_source_queue_idx s).
Definition perf_lv (s : Sched) : PerfLevel := match perf s with Some w => perf_level w | None => kPerfNone end.

(** The body shared by [drain_p0] and [run_busy]; [lv] is the perf level read
    before the loop. *)
Definition run_task (lv : PerfLevel) (s : Sched) (qi : Z) (t : QueueType) (x : WorkItem) : option Sched :=
  let s := set_time s (perf s) (now_ns s) qi in
  match execute_item s qi x with
  | None => None
  | Some (s', ns) =>
      match lv with
      | kPerfNone => Some (count_task s' 0)
      | _ => let s' := count_task s' ns in
             Some (if level_ge lv kPerfTrace then perf_exec s' t ns else s')
      end
  end.

(** The body of the batch loop of [run], which sets no source queue. *)
Definition run_policy_task (s : Sched) (qi : Z) (t : QueueType) (x : WorkItem) : option Sched :=
  let s := if 0 <? wi_enqueue_ns x then perf_dequeue s t (wi_enqueue_ns x) else s in
  match execute_item s qi x with
  | None => None
  | Some (s', ns) => Some (perf_exec (count_task s' ns) t ns)
  end.

Fixpoint run_batch (body : Sched → WorkItem → option Sched) (s : Sched) (items : list WorkItem) : option Sched :=
  match items with
  | [] => Some s
  | x :: rest => match body s x with None => None | Some s' => run_batch body s' rest end
  end.

Definition kMaxBatchSize : Z := 64.

(** Take a batch of at most [max] items out of queue [qi]. *)
Definition take_batch (s : Sched) (qi max : Z) : option (Sched * QueueType * list WorkItem) :=
  match get_queue s qi with
  | None => None
  | Some q =>
      let '(q', items) := try_dequeue_batch q max in
      Some (set_queues s (<[Z.to_nat qi := q']> (queues s)), q_type q, items)
  end.

Definition stamp_poll (s : Sched) (qi : Z) : Sched :=
  set_counts s (stats s) (<[Z.to_nat qi := now_ns s]> (last_poll_times s)) (total_dequeued s).
Definition add_dequeued (s : Sched) (qi n : Z) : Sched :=
  set_counts s (stats s) (last_poll_times s)
    (alter (λ v, v +64 n) (Z.to_nat qi) (total_dequeued s)).

Fixpoint drain_loop (fuel : nat) (lv : PerfLevel) (s : Sched) : option Sched :=
  match fuel with
  | O => None
  | S f =>
      let i := affine_idx s in
      match take_batch s i kMaxBatchSize with
      | None => Some s
      | Some (s1, t, items) =>
          match items with
          | [] => Some s1
          | _ =>
              match run_batch (λ s x, run_task lv s i t x) (stamp_poll s1 i) items with
              | None => None
              | Some s2 => drain_loop f lv (add_dequeued s2 i (Z.of_nat (length items)))
              end
          end
      end
  end.

Definition drain_p0 (fuel : nat) (s : Sched) : option Sched :=
  if Z.of_nat (length (queues s)) <=? affine_idx s then Some s else drain_loop fuel (perf_lv s) s.

Definition snapshot_of (s : Sched) (i : nat) (q : Q) : QueueSnapshot :=
  mkSnapshot (q_type q) (base_priority q)
    (if Z.of_nat i =? affine_idx s then 0 else approx_count q)
    (nth i (last_poll_times s) 0) (nth i (total_dequeued s) 0).

Definition snapshots (s : Sched) : list QueueSnapshot := imap (snapshot_of s) (queues s).

Definition count_poll (s : Sched) : Sched :=
  let st := stats s in
  set_counts s (mkStats (total_polls st +64 1) (total_idles st) (total_tasks_executed st) (total_exec_ns st))
    (last_poll_times s) (total_dequeued s).
Definition count_idle (s : Sched) : Sched :=
  let st := stats s in
  set_counts s (mkStats (total_polls st) (total_idles st +64 1) (total_tasks_executed st) (total_exec_ns st))
    (last_poll_times s) (total_dequeued s).

(** Step 3 of [run]: the chosen batch. *)
Definition serve (fuel : nat) (s : Sched) (d : ScheduleDecision) : option Sched :=
  if Z.of_nat (length (queues s)) <=? queue_index d then Some s
  else
    match take_batch s (queue_index d) (Z.min (batch_size d) kMaxBatchSize) with
    | None => Some s
    | Some (s1, t, []) => Some s1
    | Some (s1, t, items) =>
        match run_batch (λ s x, run_policy_task s (queue_index d) t x) (stamp_poll s1 (queue_index d)) items with
        | None => None
        | Some s2 => drain_p0 fuel (add_dequeued s2 (queue_index d) (Z.of_nat (length items)))
        end
    end.

(** [idle_->enter_idle()] *)
Definition go_idle (s : Sched) : Sched :=
  match enter_idle (idle_cfg s) (parker s) with
  | Some pk => set_parker s (idle_cfg s) pk false
  | None => set_parker s (idle_cfg s) (parker s) true
  end.

(** One turn of the loop of [run]. *)
Definition run_iter (fuel : nat) (s : Sched) : option Sched :=
  match drain_p0 fuel s with
  | None => None
  | Some s1 =>
      let '(p, d) := policy_decide (policy s1) (snapshots s1) (stats s1) in
      let s2 := count_poll (put_policy s1 p) in
      if idle d then
        if io_backend s2 then Some s2 else Some (go_idle (count_idle s2))
      else serve fuel s2 d
  end.

(** Queue [qi] of the loop of [run_busy]. *)
Definition busy_queue (lv : PerfLevel) (s : Sched) (qi : Z) : option Sched :=
  match take_batch s qi kMaxBatchSize with
  | None => Some s
  | Some (s1, t, items) => run_batch (λ s x, run_task lv s qi t x) s1 items
  end.

Fixpoint busy_others (lv : PerfLevel) (s : Sched) (qis : list Z) : option Sched :=
  match qis with
  | [] => Some s
  | qi :: rest =>
      if (qi =? affine_idx s) || (qi =? disk_io_idx s) then busy_others lv s rest
      else match busy_queue lv s qi with None => None | Some s' => busy_others lv s' rest end
  end.

(** One turn of the loop of [run_busy]. *)
Definition busy_iter (fuel : nat) (s : Sched) : option Sched :=
  match drain_p0 fuel s with
  | None => None
  | Some s1 =>
      let lv := perf_lv s1 in
      match (if disk_io_idx s1 <? Z.of_nat (length (queues s1)) then busy_queue lv s1 (disk_io_idx s1) else Some s1) with
      | None => None
      | Some s2 =>
          match busy_others lv s2 (seqZ 0 (Z.of_nat (length (queues s2)))) with
          | None => None
          | Some s3 => drain_p0 fuel s3
          end
      end
  end.

(** [while (running_) ...], at most [n] turns; the mode is fixed on entry.  The
    loop stops where it blocks. *)
Fixpoint loop_mode (busy : bool) (n fuel : nat) (s : Sched) : option Sched :=
  if parked s then Some s
  else if running s then
    match n with
    | O => None
    | S n' => match (if busy then busy_iter fuel s else run_iter fuel s) with
              | None => None
              | Some s' => loop_mode busy n' fuel s'
              end
    end
  else Some s.

Definition run (n fuel : nat) (s : Sched) : option Sched :=
  if stop_requested s then
    let s := set_flags s false (stop_requested s) in Some (if busy_poll s then s else notify s)
  else loop_mode (busy_poll s) n fuel (set_flags s true (stop_requested s)).
End Ops.

Arguments Sched Q : clear implicits.

(** ** What the loop does to the queues *)

Lemma prefix_antisym {A} (l k : list A) : l `prefix_of` k → k `prefix_of` l → l = k.
Proof.
  intros [a ->] [b E]. rewrite <- app_assoc in E. apply (f_equal length) in E. rewrite !length_app in E.
  destruct a; [by rewrite app_nil_r|simpl in E; lia].
Qed.

Section Facts.
Context {Q : Type} `{!WorkQueueOps Q, !WorkQueueLaws Q}.
Context (behave : nat → WorkItem → list Effect * Z).

Implicit Type s : Sched Q.

(** The items of a log that belong to queue [i]. *)
Definition from (i : Z) (l : list (Z * WorkItem)) : list WorkItem := (filter (λ e, e.1 = i) l).*2.

Lemma from_app i l k : from i (l ++ k) = from i l ++ from i k.
Proof. unfold from. by rewrite filter_app, fmap_app. Qed.

Lemma from_one i j x : from i [(j, x)] = if decide (j = i) then [x] else [].
Proof. unfold from. rewrite filter_cons. simpl. by case_decide. Qed.

(** Per queue: what ran, then what was taken but has not run yet ([fl]), then
    what the queue holds, is what it held at first ([c0]) followed by a
    selection of what was offered, in order.  This is said of the queues that
    test for room; nothing is said of an SPSC queue, which may overflow. *)
Definition balanced (c0 fl : Z → list WorkItem) (qs : list Q) (ex off : list (Z * WorkItem)) : Prop :=
  ∀ i q, qs !! i = Some q → q_checked q = true → q_wf q
    ∧ ∃ acc, acc `sublist_of` from (Z.of_nat i) off
      ∧ from (Z.of_nat i) ex ++ fl (Z.of_nat i) ++ q_contents q = c0 (Z.of_nat i) ++ acc.

Definition inv (c0 fl : Z → list WorkItem) (s : Sched Q) : Prop :=
  balanced c0 fl (queues s) (executed s) (offered s).

(** What never changes while the loop runs. *)
Definition kinds (s : Sched Q) := q_meta <$> queues s.

Definition frame (s s' : Sched Q) : Prop :=
  affine_idx s' = affine_idx s ∧ disk_io_idx s' = disk_io_idx s ∧ io_backend s' = io_backend s
  ∧ policy s' = policy s ∧ length (queues s') = length (queues s) ∧ kinds s' = kinds s.

Lemma kinds_insert s s' i q q' :
  queues s' = <[i := q']> (queues s) → queues s !! i = Some q → q_meta q' = q_meta q → kinds s' = kinds s.
Proof.
  intros Es Hq E. unfold kinds. rewrite Es, list_fmap_insert, E. apply list_insert_id.
  by rewrite list_lookup_fmap, Hq.
Qed.

Lemma kinds_lookup s s' i q q' :
  kinds s' = kinds s → queues s !! i = Some q → queues s' !! i = Some q' → q_meta q' = q_meta q.
Proof.
  intros E Hq Hq'. apply (f_equal (.!! i)) in E. unfold kinds in E.
  rewrite !list_lookup_fmap, Hq, Hq' in E. by apply (inj Some) in E.
Qed.

Lemma meta_checked (q q' : Q) : q_meta q' = q_meta q → q_checked q' = q_checked q.
Proof. unfold q_meta. congruence. Qed.

Lemma kinds_checked s s' i q q' :
  kinds s' = kinds s → queues s !! i = Some q → queues s' !! i = Some q' → q_checked q' = q_checked q.
Proof. intros. by eapply meta_checked, kinds_lookup. Qed.

Lemma frame_refl s : frame s s. Proof. done. Qed.
Lemma frame_trans s1 s2 s3 : frame s1 s2 → frame s2 s3 → frame s1 s3.
Proof. intros (? & ? & ? & ? & ? & ?) (? & ? & ? & ? & ? & ?). repeat split; congruence. Qed.

Lemma get_queue_some s qi q :
  get_queue s qi = Some q → 0 ≤ qi ∧ Z.of_nat (Z.to_nat qi) = qi ∧ queues s !! Z.to_nat qi = Some q.
Proof.
  unfold get_queue. destruct (Z.leb_spec 0 qi), (Z.ltb_spec qi (Z.of_nat (length (queues s)))); simpl; try done.
  intros ->. split; [done|]. split; [lia|done].
Qed.

Lemma get_queue_nat s i : get_queue s (Z.of_nat i) = queues s !! i.
Proof.
  unfold get_queue. rewrite Nat2Z.id. destruct (Z.leb_spec 0 (Z.of_nat i)); [|lia].
  destruct (Z.ltb_spec (Z.of_nat i) (Z.of_nat (length (queues s)))); simpl; [done|].
  symmetry. apply lookup_ge_None_2. lia.
Qed.

Lemma offer_spec c0 fl s qi x :
  inv c0 fl s → ∃ s', offer s qi x = Some s' ∧ inv c0 fl s' ∧ frame s s' ∧ executed s' = executed s
    ∧ (offered s') = offered s ++ (if get_queue s qi then [(qi, x)] else []).
Proof.
  intros Hinv. unfold offer. destruct (get_queue s qi) as [q|] eqn:E.
  2: { exists s. split; [done|]. split; [done|]. split; [done|]. split; [done|]. by rewrite app_nil_r. }
  apply get_queue_some in E as (H0 & Hz & Hq). pose proof (lookup_lt_Some _ _ _ Hq) as Hlt.
  assert (∃ q', enqueue q x = Some q' ∧ q_meta q' = q_meta q ∧ (q_checked q = true →
    q_wf q → q_wf q' ∧ q_contents q' = fifo_enqueue (q_room q) (q_contents q) x)) as (q' & -> & Hm & Hl).
  { destruct (q_checked q) eqn:Ec.
    - destruct (Hinv _ _ Hq Ec) as [Hwf _]. destruct (enqueue_law q x Hwf ltac:(by left)) as (q' & ? & ? & ? & ?). by exists q'.
    - destruct (unchecked_enqueue q x Ec) as (q' & ? & ?). by exists q'. }
  eexists. split; [done|]. split; [|by repeat split; simpl; rewrite ?length_insert; [|by eapply kinds_insert]].
  pose proof (meta_checked q q' Hm) as Hk.
  intros i q0 Hi Hck. simpl in *. destruct (decide (i = Z.to_nat qi)) as [->|Hne].
  - rewrite list_lookup_insert_eq in Hi by done. injection Hi as <-. rewrite Hk in Hck.
    destruct (Hinv _ _ Hq Hck) as (Hwf & acc & Hsub & Heq). destruct (Hl Hck Hwf) as [Hwf' Hc].
    rewrite Hz in *. split; [done|]. rewrite from_app, from_one, decide_True by done.
    rewrite Hc. unfold fifo_enqueue. destruct (_ <? _).
    + exists (acc ++ [x]). split; [by apply sublist_app|]. rewrite !app_assoc. f_equal. by rewrite <- app_assoc.
    + exists acc. split; [by apply sublist_inserts_r|done].
  - rewrite list_lookup_insert_ne in Hi by done. destruct (Hinv _ _ Hi Hck) as (? & acc' & ? & ?).
    split; [done|]. exists acc'. split; [|done]. rewrite from_app. by apply sublist_inserts_r.
Qed.

Lemma effects_spec c0 fl es s :
  inv c0 fl s → ∃ s', apply_effects s es = Some s' ∧ inv c0 fl s' ∧ frame s s' ∧ executed s' = executed s.
Proof.
  revert s. induction es as [|[qi x|] es IH]; intros s Hinv; simpl.
  - by exists s.
  - destruct (offer_spec c0 fl s qi x Hinv) as (s1 & E & Hi1 & Hf1 & He1 & _). rewrite E.
    destruct (IH s1 Hi1) as (s2 & E2 & Hi2 & Hf2 & He2). exists s2. split; [done|]. split; [done|].
    split; [by eapply frame_trans|congruence].
  - destruct (IH (request_stop s) Hinv) as (s2 & E2 & Hi2 & Hf2 & He2). by exists s2.
Qed.

(** Only the items in flight of the queues matter. *)
Lemma inv_flight c0 fl fl' s :
  (∀ i, fl' (Z.of_nat i) = fl (Z.of_nat i)) → inv c0 fl s → inv c0 fl' s.
Proof. intros E Hinv i q Hi Hck. rewrite E. by apply Hinv. Qed.

(** Running the next item in flight from queue [qi]. *)
Lemma execute_spec c0 fl s qi x rest :
  inv c0 fl s → fl qi = x :: rest →
  ∃ s' ns, execute_item behave s qi x = Some (s', ns) ∧ inv c0 (<[qi := rest]> fl) s' ∧ frame s s'
    ∧ executed s' = executed s ++ [(qi, x)].
Proof.
  intros Hinv Hfl. unfold execute_item. destruct (behave (length (executed s)) x) as [es ns].
  assert (inv c0 (<[qi := rest]> fl) (set_logs s (executed s ++ [(qi, x)]) (offered s))) as H1.
  { intros i q Hi Hck. destruct (Hinv i q Hi Hck) as (? & acc & ? & Heq). split; [done|].
    exists acc. split; [done|]. rewrite <- Heq. simpl. rewrite from_app, from_one.
    destruct (decide (qi = Z.of_nat i)) as [->|Hne].
    - rewrite fn_lookup_insert, Hfl. by rewrite <- app_assoc.
    - rewrite fn_lookup_insert_ne by done. by rewrite app_nil_r. }
  destruct (effects_spec c0 _ es _ H1) as (s' & E & Hi & Hf & He). rewrite E.
  eexists _, ns. split; [done|]. split; [exact Hi|]. split; [exact Hf|exact He].
Qed.

(** A body that executes exactly its item. *)
Definition runs_one (body : Sched Q → WorkItem → option (Sched Q)) (qi : Z) : Prop :=
  ∀ c0 fl s x rest, inv c0 fl s → fl qi = x :: rest →
  ∃ s', body s x = Some s' ∧ inv c0 (<[qi := rest]> fl) s' ∧ frame s s'
    ∧ executed s' = executed s ++ [(qi, x)].

Lemma run_task_one lv qi t : runs_one (λ s x, run_task behave lv s qi t x) qi.
Proof.
  intros c0 fl s x rest Hinv Hfl. unfold run_task.
  destruct (execute_spec c0 fl (set_time s (perf s) (now_ns s) qi) qi x rest Hinv Hfl) as (s' & ns & E & Hi & Hf & He).
  rewrite E. destruct lv; eexists; (split; [done|]); done.
Qed.

Lemma run_policy_task_one qi t : runs_one (λ s x, run_policy_task behave s qi t x) qi.
Proof.
  intros c0 fl s x rest Hinv Hfl. unfold run_policy_task. set (s0 := if _ : bool then _ else s).
  assert (inv c0 fl s0 ∧ frame s s0 ∧ executed s0 = executed s) as (Hi0 & Hf0 & He0)
    by (unfold s0; destruct (0 <? wi_enqueue_ns x); done).
  destruct (execute_spec c0 fl s0 qi x rest Hi0 Hfl) as (s' & ns & E & Hi & Hf & He).
  rewrite E. eexists. split; [done|]. split; [exact Hi|]. split; [exact (frame_trans _ _ _ Hf0 Hf)|]. by rewrite <- He0.
Qed.

Lemma run_batch_spec body qi items c0 fl s :
  runs_one body qi → inv c0 fl s → fl qi = items →
  ∃ s', run_batch body s items = Some s' ∧ inv c0 (<[qi := []]> fl) s' ∧ frame s s'
    ∧ executed s' = executed s ++ ((λ x, (qi, x)) <$> items).
Proof.
  intros Hb. revert fl s. induction items as [|x items IH]; intros fl s Hinv Hfl.
  - exists s. split; [done|]. split; [|split; [done|by rewrite app_nil_r]].
    eapply inv_flight; [|done]. intros i. destruct (decide (Z.of_nat i = qi)) as [->|].
    + by rewrite fn_lookup_insert.
    + by rewrite fn_lookup_insert_ne.
  - destruct (Hb c0 fl s x items Hinv Hfl) as (s1 & E1 & Hi1 & Hf1 & He1). simpl. rewrite E1.
    destruct (IH (<[qi := items]> fl) s1 Hi1) as (s2 & E2 & Hi2 & Hf2 & He2); [by rewrite fn_lookup_insert|].
    exists s2. split; [done|]. split; [|split; [by eapply frame_trans|]].
    + eapply inv_flight; [|done]. intros i. destruct (decide (Z.of_nat i = qi)) as [->|].
      * by rewrite !fn_lookup_insert.
      * by rewrite !fn_lookup_insert_ne.
    + rewrite He2, He1. simpl. by rewrite <- app_assoc.
Qed.

Definition nothing : Z → list WorkItem := λ _, [].

(** A batch of a queue that tests for room is its front. *)
Lemma take_batch_spec c0 s qi max :
  inv c0 nothing s → 0 ≤ max →
  match take_batch s qi max with
  | None => get_queue s qi = None
  | Some (s1, t, items) => ∃ q, get_queue s qi = Some q
      ∧ (q_checked q = true → items = take (Z.to_nat max) (q_contents q))
      ∧ (0 < approx_count q → 0 < max → items ≠ [])
      ∧ inv c0 (<[qi := items]> nothing) s1 ∧ frame s s1 ∧ executed s1 = executed s
      ∧ ∃ q', get_queue s1 qi = Some q' ∧ q_checked q' = q_checked q
        ∧ (q_checked q = true → q_contents q' = drop (Z.to_nat max) (q_contents q))
  end.
Proof.
  intros Hinv Hmax. unfold take_batch. destruct (get_queue s qi) as [q|] eqn:E; [|done].
  apply get_queue_some in E as E2. destruct E2 as (H0 & Hz & Hq). pose proof (lookup_lt_Some _ _ _ Hq) as Hlt.
  destruct (try_dequeue_batch q max) as [q' items] eqn:Eb.
  assert (q_meta q' = q_meta q ∧ (0 < approx_count q → 0 < max → items ≠ [])
    ∧ (q_checked q = true → q_wf q' ∧ items = take (Z.to_nat max) (q_contents q)
       ∧ q_contents q' = drop (Z.to_nat max) (q_contents q))) as (Hm & Hne & Hl).
  { destruct (q_checked q) eqn:Ec; [|by destruct (unchecked_batch q max Ec _ _ Eb)].
    destruct (Hinv _ _ Hq Ec) as [Hwf _]. destruct (batch_law q max Hwf Hmax _ _ Eb) as (? & ? & -> & ?).
    split; [done|]. split; [|done]. rewrite (count_law q Hwf). intros Hc Hp E0.
    destruct (q_contents q); [simpl in Hc; lia|]. by destruct (Z.to_nat max) eqn:En; [lia|]. }
  pose proof (meta_checked q q' Hm) as Hk.
  exists q. split; [done|]. split; [by intros (_ & ? & _)%Hl|]. split; [done|].
  split; [|split; [by repeat split; simpl; rewrite ?length_insert; [|by eapply kinds_insert]|split; [done|]]].
  - intros i q0 Hi Hck. simpl in *. destruct (decide (i = Z.to_nat qi)) as [->|Hni].
    + rewrite list_lookup_insert_eq in Hi by done. injection Hi as <-. rewrite Hk in Hck.
      destruct (Hinv _ _ Hq Hck) as (_ & acc & Hsub & Heq). destruct (Hl Hck) as (Hwf' & -> & Hc).
      rewrite Hz in *. split; [done|]. exists acc. split; [done|].
      rewrite fn_lookup_insert, Hc, take_drop. done.
    + rewrite list_lookup_insert_ne in Hi by done. destruct (Hinv _ _ Hi Hck) as (? & acc' & ? & Heq').
      split; [done|]. exists acc'. split; [done|]. rewrite fn_lookup_insert_ne; [done|lia].
  - exists q'. split; [|split; [done|by intros (_ & _ & ?)%Hl]]. unfold get_queue. simpl. rewrite length_insert.
    unfold get_queue in E. destruct (_ && _); [|done]. by rewrite list_lookup_insert_eq.
Qed.

Lemma inv_settled c0 qi s : inv c0 (<[qi := []]> nothing) s → inv c0 nothing s.
Proof.
  apply inv_flight. intros i. destruct (decide (Z.of_nat i = qi)) as [->|].
  - by rewrite fn_lookup_insert.
  - by rewrite fn_lookup_insert_ne.
Qed.

Lemma inv_settled_twice c0 qi items s :
  inv c0 (<[qi := []]> (<[qi := items]> nothing)) s → inv c0 nothing s.
Proof.
  apply inv_flight. intros i. destruct (decide (Z.of_nat i = qi)) as [->|].
  - by rewrite fn_lookup_insert.
  - by rewrite !fn_lookup_insert_ne.
Qed.

(** The affine queue has been drained. *)
Definition p0_empty (s : Sched Q) : Prop :=
  ∀ q, get_queue s (affine_idx s) = Some q → q_checked q = true → q_contents q = [].

(** [take_nil_inv] for batches: an empty batch means an empty queue. *)
Lemma empty_batch max (l : list WorkItem) : 0 < max → [] = take (Z.to_nat max) l → l = [].
Proof. intros Hm E. destruct l as [|x l]; [done|]. destruct (Z.to_nat max) eqn:En; [lia|done]. Qed.

Lemma drain_loop_spec c0 fuel lv s s' :
  inv c0 nothing s → drain_loop behave fuel lv s = Some s' →
  inv c0 nothing s' ∧ frame s s' ∧ p0_empty s' ∧ executed s `prefix_of` executed s'.
Proof.
  revert s. induction fuel as [|f IH]; intros s Hinv; simpl; [done|].
  pose proof (take_batch_spec c0 s (affine_idx s) kMaxBatchSize Hinv ltac:(done)) as Ht.
  set (i := affine_idx s) in *.
  destruct (take_batch s i kMaxBatchSize) as [[[s1 t] items]|].
  - destruct Ht as (q & Hq & Hit & _ & Hi1 & Hf1 & He1 & q' & Hq' & Hk' & Hc'). destruct items as [|x items].
    + intros [= <-]. split; [by eapply inv_settled|]. split; [done|]. split; [|by rewrite He1].
      intros q0 Hq0 Hck. destruct Hf1 as (Ea & _). rewrite Ea in Hq0. fold i in Hq0. rewrite Hq' in Hq0.
      injection Hq0 as <-. rewrite Hk' in Hck.
      rewrite Hc', (empty_batch kMaxBatchSize _ ltac:(done) (Hit Hck)) by done. apply drop_nil.
    + destruct (run_batch_spec (λ s x, run_task behave lv s i t x) i (x :: items) c0
        (<[i := x :: items]> nothing) (stamp_poll s1 i)) as (s2 & E2 & Hi2 & Hf2 & He2).
      { apply run_task_one. } { exact Hi1. } { by rewrite fn_lookup_insert. }
      rewrite E2. intros E. apply IH in E as (Hi & Hf & Hp & Hx).
      * split; [done|]. split; [|split; [done|]].
        -- eapply frame_trans; [exact Hf1|]. eapply frame_trans; [exact Hf2|exact Hf].
        -- etransitivity; [|exact Hx]. simpl. rewrite He2. simpl. rewrite He1. by apply prefix_app_r.
      * exact (inv_settled_twice _ _ _ _ Hi2).
  - intros [= <-]. split; [done|]. split; [done|]. split; [|done]. intros q Hq. fold i in Hq. congruence.
Qed.

Lemma drain_p0_spec c0 fuel s s' :
  inv c0 nothing s → drain_p0 behave fuel s = Some s' →
  inv c0 nothing s' ∧ frame s s' ∧ p0_empty s' ∧ executed s `prefix_of` executed s'.
Proof.
  intros Hinv. unfold drain_p0. destruct (Z.leb_spec (Z.of_nat (length (queues s))) (affine_idx s)).
  - intros [= <-]. split; [done|]. split; [done|]. split; [|done]. intros q Hq.
    unfold get_queue in Hq. rewrite (proj2 (Z.ltb_ge _ _)), andb_false_r in Hq by done. done.
  - by apply drain_loop_spec.
Qed.

(** One batch of queue [qi], taken and run. *)
Lemma batch_run_spec c0 s qi max t s1 items body g :
  inv c0 nothing s → 0 ≤ max → take_batch s qi max = Some (s1, t, items) → runs_one body qi →
  (∀ s, queues (g s) = queues s ∧ executed (g s) = executed s ∧ offered (g s) = offered s ∧ frame s (g s)) →
  ∃ s2, run_batch body (g s1) items = Some s2 ∧ inv c0 nothing s2 ∧ frame s s2
    ∧ executed s2 = executed s ++ ((λ x, (qi, x)) <$> items)
    ∧ ∃ q, get_queue s qi = Some q ∧ (q_checked q = true → items = take (Z.to_nat max) (q_contents q)).
Proof.
  intros Hinv Hmax E Hb Hg. pose proof (take_batch_spec c0 s qi max Hinv Hmax) as Ht. rewrite E in Ht.
  destruct Ht as (q & Hq & Hit & _ & Hi1 & Hf1 & He1 & _). destruct (Hg s1) as (G1 & G2 & G3 & G4).
  destruct (run_batch_spec body qi items c0 (<[qi := items]> nothing) (g s1)) as (s2 & E2 & Hi2 & Hf2 & He2).
  { done. } { unfold inv. by rewrite G1, G2, G3. } { by rewrite fn_lookup_insert. }
  exists s2. split; [done|]. split; [|split; [|split; [by rewrite He2, G2, He1|by exists q]]].
  - exact (inv_settled_twice _ _ _ _ Hi2).
  - eapply frame_trans; [exact Hf1|]. eapply frame_trans; [exact G4|exact Hf2].
Qed.

Lemma serve_spec c0 fuel s d s' :
  inv c0 nothing s → p0_empty s → 0 ≤ batch_size d → serve behave fuel s d = Some s' →
  inv c0 nothing s' ∧ frame s s' ∧ p0_empty s' ∧ executed s `prefix_of` executed s'
  ∧ (executed s' = executed s → ∀ q, get_queue s (queue_index d) = Some q →
       0 < batch_size d → approx_count q ≤ 0).
Proof.
  intros Hinv Hp0 Hb. unfold serve. destruct (Z.leb_spec (Z.of_nat (length (queues s))) (queue_index d)) as [Hle|Hlt].
  { intros [= <-]. do 4 (split; [done|]). intros _ q Hq. unfold get_queue in Hq.
    rewrite (proj2 (Z.ltb_ge _ _)), andb_false_r in Hq by done. done. }
  assert (0 ≤ Z.min (batch_size d) kMaxBatchSize) as Hmin by (unfold kMaxBatchSize; lia).
  pose proof (take_batch_spec c0 s (queue_index d) _ Hinv Hmin) as Ht.
  destruct (take_batch s (queue_index d) (Z.min (batch_size d) kMaxBatchSize)) as [[[s1 t] items]|] eqn:Et.
  2: { intros [= <-]. do 4 (split; [done|]). intros _ q Hq. congruence. }
  destruct items as [|x items].
  - destruct Ht as (q & Hq & Hit & Hne & Hi1 & Hf1 & He1 & q' & Hq' & Hk' & Hc'). intros [= <-].
    split; [by eapply inv_settled|]. split; [done|]. split; [|split; [by rewrite He1|]].
    + intros q0 Hq0 Hck. destruct Hf1 as (Ea & _). rewrite Ea in Hq0.
      destruct (decide (queue_index d = affine_idx s)) as [Eq|Hna].
      * rewrite <- Eq in Hq0. rewrite Hq' in Hq0. injection Hq0 as <-. rewrite Hk' in Hck. rewrite Hc' by done.
        rewrite (Hp0 q) by (by rewrite <- ?Eq). apply drop_nil.
      * apply Hp0; [|done]. unfold take_batch in Et. rewrite Hq in Et.
        destruct (try_dequeue_batch q _) as [q2 it2]. injection Et as <- _ _.
        unfold get_queue in *. simpl in *. rewrite length_insert in Hq0.
        destruct (Z.leb_spec 0 (queue_index d)), (Z.leb_spec 0 (affine_idx s)), (Z.ltb_spec (affine_idx s) (Z.of_nat (length (queues s))));
          simpl in *; try done. by rewrite list_lookup_insert_ne in Hq0 by lia.
    + intros _ q0 Hq0 Hpos. rewrite Hq in Hq0. injection Hq0 as <-.
      destruct (Z.lt_ge_cases 0 (approx_count q)) as [Hc|]; [|done]. destruct (Hne Hc); [unfold kMaxBatchSize; lia|done].
  - destruct (batch_run_spec c0 s (queue_index d) _ t s1 (x :: items)
      (λ s x, run_policy_task behave s (queue_index d) t x) (λ s, stamp_poll s (queue_index d)) Hinv Hmin Et)
      as (s2 & E2 & Hi2 & Hf2 & He2 & _); [apply run_policy_task_one|done|].
    rewrite E2. intros E. apply (drain_p0_spec c0) in E as (Hi & Hf & Hp & Hx); [|exact Hi2].
    simpl in Hx. rewrite He2 in Hx.
    split; [done|]. split; [eapply frame_trans; [exact Hf2|exact Hf]|]. split; [done|]. split.
    + etransitivity; [|exact Hx]. by apply prefix_app_r.
    + intros Eq. exfalso. rewrite Eq in Hx. apply prefix_length in Hx. rewrite length_app in Hx. simpl in Hx. lia.
Qed.

(** What a turn of either loop keeps; the policy's own state may change. *)
Definition turn_frame (s s' : Sched Q) : Prop :=
  affine_idx s' = affine_idx s ∧ disk_io_idx s' = disk_io_idx s ∧ length (queues s') = length (queues s)
  ∧ kinds s' = kinds s.

Lemma snapshots_lookup s i :
  snapshots s !! i = snapshot_of s i <$> queues s !! i.
Proof. unfold snapshots. apply list_lookup_imap. Qed.

(** Queue [i] has nothing to run, by its content where it is known and by its
    own count otherwise. *)
Definition nothing_left (s : Sched Q) (i : nat) (q : Q) : Prop :=
  (q_checked q = true → q_contents q = []) ∧ (Z.of_nat i ≠ affine_idx s → approx_count q ≤ 0).

Lemma idle_means_empty c0 s mb d :
  inv c0 nothing s → p0_empty s → decision_sound mb (snapshots s) d → idle d = true →
  ∀ i q, queues s !! i = Some q → nothing_left s i q.
Proof.
  intros Hinv Hp Hd Hi i q Hq. unfold decision_sound in Hd. rewrite Hi in Hd.
  assert (Z.of_nat i ≠ affine_idx s → approx_count q ≤ 0) as Hc.
  { intros E. rewrite Forall_lookup in Hd. specialize (Hd i (snapshot_of s i q)). rewrite snapshots_lookup, Hq in Hd.
    specialize (Hd eq_refl). unfold snapshot_of in Hd. simpl in Hd. by rewrite (proj2 (Z.eqb_neq _ _) E) in Hd. }
  split; [|done]. intros Hck. destruct (Hinv i q Hq Hck) as (Hwf & _).
  destruct (decide (Z.of_nat i = affine_idx s)) as [E|E].
  - apply Hp; [|done]. by rewrite <- E, get_queue_nat.
  - specialize (Hc E). rewrite (count_law q Hwf) in Hc. apply nil_length_inv. lia.
Qed.

Lemma max_batch_kept p qs st : max_batch (policy_decide p qs st).1 = max_batch p.
Proof.
  destruct p as [p|p|p]; simpl.
  - unfold rr_decide. destruct (_ =? _); [done|]. by destruct (rr_scan _ _ _ _ _ _) as [[]|].
  - enough (∀ l p', sp_max_batch p' = sp_max_batch p → sp_max_batch (sp_loop p' qs l).1 = sp_max_batch p) as Hl.
    { pose proof (Hl [0; 1; 2; 3] p eq_refl). unfold sp_decide. destruct (_ =? _); [done|]. by destruct (sp_loop _ _ _). }
    induction l as [|a l IH]; intros p' E; cbn [sp_loop]; [done|]. destruct (sp_count qs a =? 0); [by apply IH|].
    destruct (rr_scan _ _ _ _ _ _) as [[]|]; [done|]. apply IH. by destruct (_ =? _).
  - unfold wf_decide. by destruct (wf_scan _ _ _ _).
Qed.

(** A policy in its working range, with a batch limit. *)
Definition policy_ok (s : Sched Q) : Prop :=
  cursor_ok (policy s) ∧ 0 < max_batch (policy s) ∧ Z.of_nat (length (queues s)) < 2 ^ 63.

(** Going idle changes nothing but the state of [idle_]. *)
Lemma go_idle_shape s : ∃ pk b, go_idle s = set_parker s (idle_cfg s) pk b.
Proof. unfold go_idle. destruct (enter_idle _ _) as [pk|]; eauto. Qed.

Lemma run_iter_spec c0 fuel s s' :
  inv c0 nothing s → policy_ok s → run_iter behave fuel s = Some s' →
  inv c0 nothing s' ∧ turn_frame s s' ∧ policy_ok s' ∧ p0_empty s' ∧ executed s `prefix_of` executed s'
  ∧ (executed s' = executed s → ∀ i q, queues s' !! i = Some q → nothing_left s' i q).
Proof.
  intros Hinv (Hcur & Hmb & Hlen). unfold run_iter. destruct (drain_p0 behave fuel s) as [s1|] eqn:E1; [|done].
  apply (drain_p0_spec c0) in E1 as (Hi1 & (F1 & F2 & F3 & F4 & F5 & F6) & Hp1 & Hx1); [|done].
  assert (length (snapshots s1) = length (queues s1)) as Hsl by (unfold snapshots; apply length_imap).
  destruct (policy_decide_sound (policy s1) (snapshots s1) (stats s1)) as [Hd Hc']; [by rewrite F4|lia|].
  pose proof (max_batch_kept (policy s) (snapshots s1) (stats s1)) as Hmk.
  rewrite F4 in *. destruct (policy_decide (policy s) (snapshots s1) (stats s1)) as [p d]. simpl in Hd, Hc', Hmk.
  destruct (idle d) eqn:Eid.
  - pose proof (idle_means_empty c0 s1 _ d Hi1 Hp1 Hd Eid) as Hem. simpl.
    destruct (go_idle_shape (count_idle (count_poll (put_policy s1 p)))) as (pk & b & ->).
    destruct (io_backend s1); intros [= <-]; (split; [done|]); (split; [done|]);
      (split; [split; [done|simpl; lia]|]); (split; [done|]); (split; [done|]); done.
  - intros E. apply (serve_spec c0) in E as (Hi2 & (G1 & G2 & G3 & G4 & G5 & G6) & Hp2 & Hx2 & Hno); [|done|done|].
    2: { unfold decision_sound in Hd. rewrite Eid in Hd. destruct Hd as (q & _ & _ & Hc & ->). lia. }
    split; [done|]. split; [split_and!; simpl in *; [congruence..|by rewrite G6]|].
    split; [unfold policy_ok; rewrite G4; split; [done|simpl in *; lia]|].
    split; [done|]. split; [by etransitivity|]. intros Heq. exfalso.
    unfold decision_sound in Hd. rewrite Eid in Hd. destruct Hd as (sn & H0 & Hlk & Hc & Hb).
    rewrite snapshots_lookup in Hlk. destruct (queues s1 !! Z.to_nat (queue_index d)) as [q|] eqn:Eq; [|done].
    injection Hlk as <-.
    assert (approx_count q ≤ 0) as Hnil.
    { apply Hno.
      - simpl in *. rewrite Heq in *. exact (prefix_antisym _ _ Hx1 Hx2).
      - unfold get_queue. simpl. pose proof (lookup_lt_Some _ _ _ Eq).
        destruct (Z.leb_spec 0 (queue_index d)), (Z.ltb_spec (queue_index d) (Z.of_nat (length (queues s1)))); simpl; lia || done.
      - lia. }
    unfold snapshot_of in Hc. simpl in Hc. destruct (_ =? _); lia.
Qed.

(** What queue [i] has run and still holds. *)
Definition account (s : Sched Q) (i : Z) : list WorkItem :=
  from i (executed s) ++ match queues s !! Z.to_nat i with Some q => q_contents q | None => [] end.

(** A state is balanced against its own account. *)
Definition sound_queues (s : Sched Q) : Prop := ∀ i q, queues s !! i = Some q → q_checked q = true → q_wf q.

Lemma inv_sound c0 fl s : inv c0 fl s → sound_queues s.
Proof. intros Hinv i q Hi Hck. by destruct (Hinv i q Hi Hck). Qed.

Lemma inv_start s : sound_queues s → inv (account s) nothing s.
Proof.
  intros Hs i q Hi Hck. split; [by apply (Hs i)|]. exists []. split; [apply sublist_nil_l|].
  unfold account. by rewrite Nat2Z.id, Hi, app_nil_r.
Qed.

Lemma busy_queue_spec c0 lv s qi :
  inv c0 nothing s → ∃ s', busy_queue behave lv s qi = Some s' ∧ inv c0 nothing s' ∧ frame s s'
    ∧ ∃ items, executed s' = executed s ++ ((λ x, (qi, x)) <$> items)
        ∧ ∀ q, get_queue s qi = Some q → q_checked q = true → items = take (Z.to_nat kMaxBatchSize) (q_contents q).
Proof.
  intros Hinv. unfold busy_queue.
  pose proof (take_batch_spec c0 s qi kMaxBatchSize Hinv ltac:(done)) as Ht.
  destruct (take_batch s qi kMaxBatchSize) as [[[s1 t] items]|] eqn:Et.
  - destruct (batch_run_spec c0 s qi kMaxBatchSize t s1 items (λ s x, run_task behave lv s qi t x) (λ s, s) Hinv
      ltac:(done) Et) as (s2 & E2 & Hi2 & Hf2 & He2 & q & Hq & Hit); [apply run_task_one|done|].
    exists s2. do 3 (split; [done|]). exists items. split; [done|]. intros q0 Hq0. rewrite Hq in Hq0. by injection Hq0 as <-.
  - exists s. do 3 (split; [done|]). exists []. rewrite app_nil_r. split; [done|]. intros q. by rewrite Ht.
Qed.

(** Queue [i] has run at least one item since [s0]. *)
Definition advanced (s0 s : Sched Q) (i : Z) : Prop :=
  (length (from i (executed s0)) < length (from i (executed s)))%nat.

Lemma from_prefix i l k : l `prefix_of` k → from i l `prefix_of` from i k.
Proof. intros [d ->]. rewrite from_app. by apply prefix_app_r. Qed.

Lemma advanced_mono s0 s s' i : advanced s0 s i → executed s `prefix_of` executed s' → advanced s0 s' i.
Proof. unfold advanced. intros H1 H2%(from_prefix i)%prefix_length. lia. Qed.

(** A queue that had work at [s0] and is empty now has run an item. *)
Lemma emptied_advanced s0 s i q0 q :
  inv (account s0) nothing s → queues s0 !! i = Some q0 → q_contents q0 ≠ [] →
  queues s !! i = Some q → q_checked q = true → q_contents q = [] → advanced s0 s (Z.of_nat i).
Proof.
  intros Hinv H0 Hne Hq Hck Hem. destruct (Hinv i q Hq Hck) as (_ & acc & _ & E).
  unfold account in E. rewrite Nat2Z.id, H0, Hem in E. unfold nothing, advanced in *.
  apply (f_equal length) in E. rewrite !length_app in E. destruct (q_contents q0); [done|]. simpl in *. lia.
Qed.

Lemma busy_queue_advances s0 lv s s' i q0 :
  inv (account s0) nothing s → executed s0 `prefix_of` executed s → kinds s = kinds s0 →
  queues s0 !! i = Some q0 → q_checked q0 = true → q_contents q0 ≠ [] →
  busy_queue behave lv s (Z.of_nat i) = Some s' → advanced s0 s' (Z.of_nat i).
Proof.
  intros Hinv Hx Hk H0 Hck Hne E.
  destruct (busy_queue_spec _ lv s (Z.of_nat i) Hinv) as (s2 & E2 & Hi & Hf & items & He & Hit).
  rewrite E in E2. injection E2 as <-. destruct (lookup_lt_is_Some_2 (queues s) i) as [q Hq].
  { apply (f_equal length) in Hk. unfold kinds in Hk. rewrite !length_fmap in Hk. apply lookup_lt_Some in H0. lia. }
  assert (q_checked q = true) as Hcq by (by rewrite (kinds_checked s0 s i q0 q Hk H0 Hq)).
  specialize (Hit q). rewrite get_queue_nat in Hit. rewrite (Hit Hq Hcq) in He.
  destruct (q_contents q) as [|x l] eqn:Ec.
  - apply advanced_mono with s; [by eapply emptied_advanced|]. rewrite He. by apply prefix_app_r.
  - unfold advanced. rewrite He, from_app, length_app. change (Z.to_nat kMaxBatchSize) with 64%nat. cbn [take fmap list_fmap].
    pose proof (prefix_length _ _ (from_prefix (Z.of_nat i) _ _ Hx)).
    change (?a :: ?b) with ([a] ++ b) in |- *. rewrite (from_app _ [_]), from_one, decide_True by done.
    rewrite length_app. simpl. lia.
Qed.

Lemma busy_others_spec s0 lv qis s :
  inv (account s0) nothing s → executed s0 `prefix_of` executed s → kinds s = kinds s0 →
  ∃ s', busy_others behave lv s qis = Some s' ∧ inv (account s0) nothing s' ∧ frame s s'
    ∧ executed s `prefix_of` executed s'
    ∧ ∀ i q0, Z.of_nat i ∈ qis → Z.of_nat i ≠ affine_idx s → Z.of_nat i ≠ disk_io_idx s →
        queues s0 !! i = Some q0 → q_checked q0 = true → q_contents q0 ≠ [] → advanced s0 s' (Z.of_nat i).
Proof.
  revert s. induction qis as [|qi qis IH]; intros s Hinv Hx Hlen; cbn [busy_others].
  { exists s. do 4 (split; [done|]). intros i q0 Hin. by apply elem_of_nil in Hin. }
  destruct (Z.eqb_spec qi (affine_idx s)), (Z.eqb_spec qi (disk_io_idx s)); cbn [orb].
  1-3: destruct (IH s Hinv Hx Hlen) as (s' & E & Hi & Hf & He & Ha); exists s'; do 4 (split; [done|]);
    intros i q0 Hin ?? ???; apply elem_of_cons in Hin as [Hin|Hin]; [congruence|by eapply Ha].
  destruct (busy_queue_spec _ lv s qi Hinv) as (s1 & E1 & Hi1 & Hf1 & its & He1 & _). rewrite E1.
  assert (executed s `prefix_of` executed s1) as Hp1 by (rewrite He1; by apply prefix_app_r).
  destruct (IH s1) as (s' & E & Hi & Hf & He & Ha);
    [done|by etransitivity|destruct Hf1 as (_ & _ & _ & _ & _ & ->); done|].
  exists s'. split; [done|]. split; [done|]. split; [by eapply frame_trans|]. split; [by etransitivity|].
  intros i q0 Hin Hna Hnd Hq0 Hck Hne. apply elem_of_cons in Hin as [<-|Hin].
  - eapply advanced_mono; [|exact He]. by apply (busy_queue_advances s0 lv s s1 i q0).
  - destruct Hf1 as (Ea & Ed & _). eapply Ha; [done|congruence|congruence|done..].
Qed.

Lemma elem_of_indices s0 i (q : Q) : queues s0 !! i = Some q → Z.of_nat i ∈ seqZ 0 (Z.of_nat (length (queues s0))).
Proof. intros H1%lookup_lt_Some. apply elem_of_seqZ. lia. Qed.

Lemma busy_iter_spec fuel s s' :
  sound_queues s → 0 ≤ disk_io_idx s → busy_iter behave fuel s = Some s' →
  inv (account s) nothing s' ∧ frame s s' ∧ p0_empty s' ∧ executed s `prefix_of` executed s'
  ∧ ∀ i q, queues s !! i = Some q → q_checked q = true → q_contents q ≠ [] → advanced s s' (Z.of_nat i).
Proof.
  intros Hs Hd. pose proof (inv_start s Hs) as Hinv. unfold busy_iter.
  destruct (drain_p0 behave fuel s) as [s1|] eqn:E1; [|done].
  apply (drain_p0_spec (account s)) in E1 as (Hi1 & Hf1 & Hp1 & Hx1); [|done].
  set (lv := perf_lv s1).
  assert (∃ s2, (if disk_io_idx s1 <? Z.of_nat (length (queues s1)) then busy_queue behave lv s1 (disk_io_idx s1)
                 else Some s1) = Some s2 ∧ inv (account s) nothing s2 ∧ frame s1 s2 ∧ executed s1 `prefix_of` executed s2
    ∧ ∀ i q, Z.of_nat i = disk_io_idx s1 → queues s !! i = Some q → q_checked q = true → q_contents q ≠ [] →
        advanced s s2 (Z.of_nat i))
    as (s2 & -> & Hi2 & Hf2 & Hx2 & Ha2).
  { destruct (Z.ltb_spec (disk_io_idx s1) (Z.of_nat (length (queues s1)))) as [Hlt|Hge].
    - destruct (busy_queue_spec _ lv s1 (disk_io_idx s1) Hi1) as (s2 & E2 & Hi2 & Hf2 & its & He2 & _). exists s2.
      do 3 (split; [done|]). split; [rewrite He2; by apply prefix_app_r|]. intros i q Ei Hq Hck Hne.
      eapply busy_queue_advances; [exact Hi1|done|by destruct Hf1 as (_ & _ & _ & _ & _ & ->)|done..|by rewrite Ei].
    - exists s1. do 4 (split; [done|]). intros i q Ei Hq%lookup_lt_Some. destruct Hf1 as (_ & _ & _ & _ & El & _). lia. }
  assert (length (queues s2) = length (queues s) ∧ kinds s2 = kinds s) as [El2 Ek2]
    by (destruct Hf1 as (_ & _ & _ & _ & ? & ?), Hf2 as (_ & _ & _ & _ & ? & ?); split; congruence).
  destruct (busy_others_spec s lv (seqZ 0 (Z.of_nat (length (queues s2)))) s2) as (s3 & -> & Hi3 & Hf3 & Hx3 & Ha3);
    [done|by etransitivity|done|]. intros E.
  apply (drain_p0_spec (account s)) in E as (Hi & Hf & Hp & Hx); [|done].
  split; [done|]. split; [eauto using frame_trans|]. split; [done|]. split; [by do 3 (etransitivity; [done|])|].
  intros i q Hq Hck Hne. destruct (decide (Z.of_nat i = affine_idx s)) as [Ea|Hna].
  - apply advanced_mono with s1; [|by do 2 (etransitivity; [done|])].
    destruct (lookup_lt_is_Some_2 (queues s1) i) as [q1 Hq1];
      [apply lookup_lt_Some in Hq; destruct Hf1 as (_ & _ & _ & _ & -> & _); done|].
    assert (q_checked q1 = true) as Hc1.
    { destruct Hf1 as (_ & _ & _ & _ & _ & Ek). by rewrite (kinds_checked s s1 i q q1 Ek Hq Hq1). }
    eapply emptied_advanced; [done..|]. apply Hp1; [|done]. destruct Hf1 as (-> & _). by rewrite <- Ea, get_queue_nat.
  - destruct Hf1 as (A1 & D1 & _), Hf2 as (A2 & D2 & _). destruct (decide (Z.of_nat i = disk_io_idx s)) as [Ed|Hnd].
    + apply advanced_mono with s2; [|by etransitivity]. eapply Ha2; [congruence|done..].
    + apply advanced_mono with s3; [|done]. eapply Ha3; [|congruence|congruence|done..].
      rewrite El2. by eapply elem_of_indices.
Qed.

(** ** The worker thread and its environment

    One turn of the loop the worker is in, unless it is blocked, an enqueue by
    another thread, a notification, or a stop request.  (That an enqueue may be taken as one step is the subject of
    the interleaving of the ring.) *)
Inductive worker_step (fuel : nat) : Sched Q → Sched Q → Prop :=
| worker_turn s s' : parked s = false → running s = true → busy_poll s = false → run_iter behave fuel s = Some s' → worker_step fuel s s'
| worker_busy_turn s s' : parked s = false → running s = true → busy_poll s = true → busy_iter behave fuel s = Some s' → worker_step fuel s s'
| worker_offered s s' qi x : offer s qi x = Some s' → worker_step fuel s s'
| worker_notified s : worker_step fuel s (notify s)
| worker_stopped s : worker_step fuel s (request_stop s).

Lemma busy_others_inv c0 lv qis s :
  inv c0 nothing s → ∃ s', busy_others behave lv s qis = Some s' ∧ inv c0 nothing s' ∧ frame s s'.
Proof.
  revert s. induction qis as [|qi qis IH]; intros s Hinv; cbn [busy_others]; [by exists s|].
  destruct (_ || _); [by apply IH|]. destruct (busy_queue_spec c0 lv s qi Hinv) as (s1 & -> & Hi & Hf & _).
  destruct (IH s1 Hi) as (s2 & -> & Hi2 & Hf2). exists s2. eauto using frame_trans.
Qed.

Lemma busy_iter_inv c0 fuel s s' :
  inv c0 nothing s → busy_iter behave fuel s = Some s' → inv c0 nothing s' ∧ frame s s'.
Proof.
  intros Hinv. unfold busy_iter. destruct (drain_p0 behave fuel s) as [s1|] eqn:E1; [|done].
  apply (drain_p0_spec c0) in E1 as (Hi1 & Hf1 & _); [|done].
  assert (∃ s2, (if disk_io_idx s1 <? Z.of_nat (length (queues s1)) then busy_queue behave (perf_lv s1) s1 (disk_io_idx s1)
                 else Some s1) = Some s2 ∧ inv c0 nothing s2 ∧ frame s1 s2) as (s2 & -> & Hi2 & Hf2).
  { destruct (_ <? _); [|by exists s1].
    destruct (busy_queue_spec c0 (perf_lv s1) s1 (disk_io_idx s1) Hi1) as (s2 & ? & ? & ? & _). by exists s2. }
  destruct (busy_others_inv c0 (perf_lv s1) (seqZ 0 (Z.of_nat (length (queues s2)))) s2 Hi2) as (s3 & -> & Hi3 & Hf3).
  intros E. apply (drain_p0_spec c0) in E as (Hi & Hf & _); [|done]. split; [done|]. eauto using frame_trans.
Qed.

Lemma worker_steps_inv fuel s0 s :
  sound_queues s0 → policy_ok s0 → steps (worker_step fuel) s0 s → inv (account s0) nothing s ∧ policy_ok s.
Proof.
  intros Hs Hp. apply (steps_invariant _ (λ s, inv (account s0) nothing s ∧ policy_ok s));
    [by split; [apply inv_start|]|].
  intros a b Hab Hst. destruct Hst as [s1 s2 _ _ _ E|s1 s2 _ _ _ E|s1 s2 qi x E|s1|s1]; destruct Hab as [Hi Ho].
  - by destruct (run_iter_spec _ fuel s1 s2 Hi Ho E) as (? & _ & ? & _).
  - apply (busy_iter_inv (account s0)) in E as [? (_ & _ & _ & Ep & El & _)]; [|done]. split; [done|].
    unfold policy_ok. by rewrite Ep, El.
  - destruct (offer_spec _ _ s1 qi x Hi) as (s' & E' & Hi' & (_ & _ & _ & Ep & El & _) & _). rewrite E in E'.
    injection E' as <-. split; [done|]. unfold policy_ok. by rewrite Ep, El.
  - by split.
  - by split.
Qed.

(** ** When the affine queue is drained in finitely many batches *)

(** No task enqueues into queue [a]. *)
Definition never_feeds (a : Z) : Prop := ∀ n x y, Enqueue a y ∉ (behave n x).1.

Lemma effects_keep_queue a es s s' :
  (∀ y, Enqueue a y ∉ es) → apply_effects s es = Some s' → get_queue s' a = get_queue s a.
Proof.
  revert s. induction es as [|e es IH]; intros s Hn; cbn [apply_effects]; [by intros [= ->]|].
  assert (∀ y, Enqueue a y ∉ es) as Hn' by (intros y Hy; by apply (Hn y), list_elem_of_further).
  assert (∀ y, e ≠ Enqueue a y) as Hne by (intros y ->; apply (Hn y), list_elem_of_here).
  destruct (apply_effect s e) as [s1|] eqn:E1; [|done]. intros E. rewrite (IH s1 Hn' E).
  destruct e as [qi x|]; simpl in E1; [|by injection E1 as <-]. unfold offer in E1.
  destruct (get_queue s qi) as [q|] eqn:Eq; [|by injection E1 as <-]. apply get_queue_some in Eq as (H0 & Hz & Hq).
  destruct (enqueue q x) as [q'|]; [|done]. injection E1 as <-. unfold get_queue. simpl. rewrite length_insert.
  destruct (Z.leb_spec 0 a); simpl; [|done]. destruct (_ <? _); [|done]. apply list_lookup_insert_ne.
  intros Ez. apply (Hne x). f_equal. lia.
Qed.

Lemma run_task_keeps_queue a lv qi t s x s' :
  never_feeds a → run_task behave lv s qi t x = Some s' → get_queue s' a = get_queue s a.
Proof.
  intros Hn. unfold run_task, execute_item. simpl. pose proof (Hn (length (executed s)) x) as Hn'.
  destruct (behave _ x) as [es ns]. destruct (apply_effects _ es) as [s1|] eqn:E; [|done].
  apply (effects_keep_queue a) in E; [|done]. destruct lv; intros [= <-]; exact E.
Qed.

Lemma run_policy_task_keeps_queue a qi t s x s' :
  never_feeds a → run_policy_task behave s qi t x = Some s' → get_queue s' a = get_queue s a.
Proof.
  intros Hn. unfold run_policy_task. set (s0 := if _ : bool then _ else s).
  assert (get_queue s0 a = get_queue s a) as E0 by (unfold s0; by destruct (0 <? _)). unfold execute_item.
  pose proof (Hn (length (executed s0)) x) as Hn'. destruct (behave _ x) as [es ns].
  destruct (apply_effects _ es) as [s1|] eqn:E; [|done].
  apply (effects_keep_queue a) in E; [|done]. intros [= <-]. rewrite <- E0. exact E.
Qed.

Lemma run_batch_keeps_queue a body items s s' :
  (∀ s x s', body s x = Some s' → get_queue s' a = get_queue s a) →
  run_batch body s items = Some s' → get_queue s' a = get_queue s a.
Proof.
  intros Hb. revert s. induction items as [|x items IH]; intros s; simpl; [by intros [= ->]|].
  destruct (body s x) as [s1|] eqn:E; [|done]. intros ?%IH. rewrite <- (Hb s x s1 E). done.
Qed.

Definition p0_length (s : Sched Q) : nat :=
  match get_queue s (affine_idx s) with Some q => length (q_contents q) | None => 0 end.

(** No task feeds the affine queue, which is one that tests for room. *)
Definition p0_calm (s : Sched Q) : Prop :=
  never_feeds (affine_idx s) ∧ ∀ q, get_queue s (affine_idx s) = Some q → q_checked q = true.

Lemma p0_calm_frame s s' : affine_idx s' = affine_idx s → kinds s' = kinds s → p0_calm s → p0_calm s'.
Proof.
  intros Ea Ek [Hn Hc]. split; [by rewrite Ea|]. rewrite Ea. intros q' (H0 & Hz & Hq')%get_queue_some.
  destruct (lookup_lt_is_Some_2 (queues s) (Z.to_nat (affine_idx s))) as [q Hq].
  { apply (f_equal length) in Ek. unfold kinds in Ek. rewrite !length_fmap in Ek. apply lookup_lt_Some in Hq'. lia. }
  rewrite (kinds_checked s s' _ q q' Ek Hq Hq'). apply Hc. rewrite <- Hz, get_queue_nat. done.
Qed.

Lemma drain_loop_returns c0 fuel lv s :
  inv c0 nothing s → p0_calm s → (p0_length s < fuel)%nat →
  ∃ s', drain_loop behave fuel lv s = Some s'.
Proof.
  revert s. induction fuel as [|f IH]; intros s Hinv Hn Hf; [lia|]. simpl.
  pose proof (take_batch_spec c0 s (affine_idx s) kMaxBatchSize Hinv ltac:(done)) as Ht.
  unfold p0_length in Hf. set (i := affine_idx s) in *.
  destruct (take_batch s i kMaxBatchSize) as [[[s1 t] items]|] eqn:Et; [|by eexists].
  destruct Ht as (q & Hq & Hit & _ & Hi1 & Hf1 & He1 & q' & Hq' & _ & Hc'). destruct items as [|x items]; [by eexists|].
  assert (q_checked q = true) as Hck by (by apply Hn). specialize (Hit Hck). specialize (Hc' Hck).
  destruct (batch_run_spec c0 s i kMaxBatchSize t s1 (x :: items) (λ s x, run_task behave lv s i t x)
    (λ s, stamp_poll s i) Hinv ltac:(done) Et) as (s2 & E2 & Hi2 & (Ea & _ & _ & _ & _ & Ek) & _); [apply run_task_one|done|].
  rewrite E2. apply (run_batch_keeps_queue i) in E2; [|intros ???; apply run_task_keeps_queue, Hn].
  apply IH; [exact Hi2|by apply (p0_calm_frame s)|]. unfold p0_length. simpl. rewrite Ea. fold i.
  change (get_queue (add_dequeued s2 i (Z.of_nat (S (length items)))) i) with (get_queue s2 i). rewrite E2.
  change (get_queue (stamp_poll s1 i) i) with (get_queue s1 i).
  rewrite Hq', Hc', length_drop. rewrite Hq in Hf. destruct (q_contents q); [done|].
  change (Z.to_nat kMaxBatchSize) with 64%nat. simpl in *. lia.
Qed.

Lemma drain_p0_returns c0 fuel s :
  inv c0 nothing s → p0_calm s → (p0_length s < fuel)%nat →
  ∃ s', drain_p0 behave fuel s = Some s'.
Proof. intros. unfold drain_p0. destruct (_ <=? _); [by eexists|]. by eapply drain_loop_returns. Qed.

Lemma returned_p0_empty s : p0_calm s → p0_empty s → p0_length s = 0%nat.
Proof.
  intros [_ Hc] Hp. unfold p0_length. destruct (get_queue s (affine_idx s)) as [q|] eqn:E; [|done].
  by rewrite (Hp q E (Hc q eq_refl)).
Qed.

(** A batch of a queue other than [a] leaves [a] alone. *)
Lemma take_batch_keeps_queue a qi max s s1 t items :
  a ≠ qi → take_batch s qi max = Some (s1, t, items) → get_queue s1 a = get_queue s a.
Proof.
  intros Hne. unfold take_batch. destruct (get_queue s qi) as [q|] eqn:Eq; [|done].
  apply get_queue_some in Eq as (H0 & Hz & Hq). destruct (try_dequeue_batch q max) as [q' it]. intros [= <- _ _].
  unfold get_queue. simpl. rewrite length_insert. destruct (Z.leb_spec 0 a); simpl; [|done].
  destruct (_ <? _); [|done]. apply list_lookup_insert_ne. lia.
Qed.

(** Serving any queue while the affine queue is empty keeps it empty. *)
Lemma served_p0_empty c0 qi max t s s1 items body g s2 :
  inv c0 nothing s → 0 ≤ max → p0_empty s → take_batch s qi max = Some (s1, t, items) → affine_idx s2 = affine_idx s →
  (∀ s x s', body s x = Some s' → get_queue s' (affine_idx s2) = get_queue s (affine_idx s2)) →
  (∀ a, get_queue (g s1) a = get_queue s1 a) → run_batch body (g s1) items = Some s2 → p0_empty s2.
Proof.
  intros Hinv Hmax Hp Et Ea Hb Hg E. apply (run_batch_keeps_queue (affine_idx s2)) in E; [|done].
  unfold p0_empty. rewrite E, Hg, Ea. destruct (decide (affine_idx s = qi)) as [Eq|Hne].
  - pose proof (take_batch_spec c0 s qi max Hinv Hmax) as Ht. rewrite Et in Ht.
    destruct Ht as (q & Hq & _ & _ & _ & _ & _ & q' & Hq' & Hk & Hc'). rewrite Eq, Hq'. intros q0 [= <-] Hck.
    rewrite Hk in Hck. rewrite Hc', (Hp q) by by rewrite ?Eq. apply drop_nil.
  - rewrite (take_batch_keeps_queue (affine_idx s) qi max s s1 t items Hne Et). exact Hp.
Qed.

Lemma drain_again c0 fuel s :
  inv c0 nothing s → p0_calm s → p0_empty s → (0 < fuel)%nat →
  ∃ s', drain_p0 behave fuel s = Some s'.
Proof. intros Hi Hn Hp Hf. apply (drain_p0_returns c0); [done|done|]. by rewrite returned_p0_empty. Qed.

Lemma run_iter_returns fuel s :
  sound_queues s → policy_ok s → p0_calm s → (p0_length s < fuel)%nat →
  ∃ s', run_iter behave fuel s = Some s'.
Proof.
  intros Hs (Hcur & Hmb & Hlen) Hn Hf. pose proof (inv_start s Hs) as Hinv. unfold run_iter.
  destruct (drain_p0_returns _ fuel s Hinv Hn Hf) as [s1 E1]. rewrite E1.
  apply (drain_p0_spec (account s)) in E1 as (Hi1 & (F1 & F2 & F3 & F4 & F5 & F6) & Hp1 & Hx1); [|done].
  assert (length (snapshots s1) = length (queues s1)) as Hsl by (unfold snapshots; apply length_imap).
  destruct (policy_decide_sound (policy s1) (snapshots s1) (stats s1)) as [Hd _]; [by rewrite F4|lia|].
  destruct (policy_decide (policy s1) (snapshots s1) (stats s1)) as [p d]. simpl in Hd.
  destruct (idle d) eqn:Ei; [destruct (io_backend _); by eexists|]. unfold serve.
  assert (0 ≤ batch_size d) as Hb.
  { unfold decision_sound in Hd. rewrite Ei in Hd. destruct Hd as (sn & _ & _ & ? & ->). rewrite F4. lia. }
  set (s2 := count_poll _). destruct (_ <=? _); [by eexists|].
  assert (0 ≤ Z.min (batch_size d) kMaxBatchSize) as Hmin by (unfold kMaxBatchSize; lia).
  destruct (take_batch s2 (queue_index d) (Z.min (batch_size d) kMaxBatchSize)) as [[[s3 t] items]|] eqn:Et; [|by eexists].
  destruct items as [|x items]; [by eexists|].
  destruct (batch_run_spec (account s) s2 (queue_index d) _ t s3 (x :: items)
    (λ s x, run_policy_task behave s (queue_index d) t x) (λ s, stamp_poll s (queue_index d)) Hi1 Hmin Et)
    as (s4 & E4 & Hi4 & (A4 & _ & _ & _ & _ & K4) & _); [apply run_policy_task_one|done|]. rewrite E4.
  assert (p0_calm s4) as Hn4 by (apply (p0_calm_frame s); [by rewrite A4|by rewrite K4|done]).
  apply (drain_again (account s)); [exact Hi4|exact Hn4| |lia].
  eapply (served_p0_empty (account s) (queue_index d) _ t s2 s3 (x :: items) _
    (λ s, stamp_poll s (queue_index d)) s4 Hi1 Hmin Hp1 Et A4); [|done|exact E4].
  intros ???. apply run_policy_task_keeps_queue, Hn4.
Qed.

Lemma busy_queue_p0 c0 lv qi s s' :
  inv c0 nothing s → p0_calm s → p0_empty s → busy_queue behave lv s qi = Some s' → p0_empty s'.
Proof.
  intros Hinv Hn Hp E. destruct (busy_queue_spec c0 lv s qi Hinv) as (s2 & E2 & _ & (Ea & _ & _ & _ & _ & Ek) & _).
  rewrite E in E2. injection E2 as <-. unfold busy_queue in E.
  destruct (take_batch s qi kMaxBatchSize) as [[[s1 t] items]|] eqn:Et; [|by injection E as <-].
  eapply (served_p0_empty c0 qi kMaxBatchSize t s s1 items _ (λ s, s) s' Hinv ltac:(done) Hp Et Ea); [|done|exact E].
  intros ???. apply run_task_keeps_queue. by apply (p0_calm_frame s).
Qed.

Lemma busy_others_p0 c0 lv qis s s' :
  inv c0 nothing s → p0_calm s → p0_empty s → busy_others behave lv s qis = Some s' → p0_empty s'.
Proof.
  revert s. induction qis as [|qi qis IH]; intros s Hinv Hn Hp; cbn [busy_others]; [by intros [= <-]|].
  destruct (_ || _); [by apply IH|]. destruct (busy_queue_spec c0 lv s qi Hinv) as (s1 & E1 & Hi & (Ea & _ & _ & _ & _ & Ek) & _).
  rewrite E1. apply IH; [done|by apply (p0_calm_frame s)|exact (busy_queue_p0 c0 lv qi s s1 Hinv Hn Hp E1)].
Qed.

Lemma busy_iter_returns fuel s :
  sound_queues s → p0_calm s → (p0_length s < fuel)%nat →
  ∃ s', busy_iter behave fuel s = Some s'.
Proof.
  intros Hs Hn Hf. pose proof (inv_start s Hs) as Hinv. unfold busy_iter.
  destruct (drain_p0_returns _ fuel s Hinv Hn Hf) as [s1 E1]. rewrite E1.
  apply (drain_p0_spec (account s)) in E1 as (Hi1 & (F1 & _ & _ & _ & _ & K1) & Hp1 & _); [|done].
  apply (p0_calm_frame s s1 F1 K1) in Hn.
  assert (∃ s2, (if disk_io_idx s1 <? Z.of_nat (length (queues s1)) then busy_queue behave (perf_lv s1) s1 (disk_io_idx s1)
                 else Some s1) = Some s2 ∧ inv (account s) nothing s2 ∧ p0_calm s2 ∧ p0_empty s2)
    as (s2 & -> & Hi2 & Hn2 & Hp2).
  { destruct (_ <? _); [|by exists s1].
    destruct (busy_queue_spec (account s) (perf_lv s1) s1 (disk_io_idx s1) Hi1) as (s2 & E & ? & (Ea & _ & _ & _ & _ & Ek) & _).
    exists s2. do 2 (split; [done|]). split; [by apply (p0_calm_frame s1)|].
    exact (busy_queue_p0 _ _ _ s1 s2 Hi1 Hn Hp1 E). }
  destruct (busy_others_inv (account s) (perf_lv s1) (seqZ 0 (Z.of_nat (length (queues s2)))) s2 Hi2)
    as (s3 & E3 & Hi3 & (Ea3 & _ & _ & _ & _ & Ek3)).
  rewrite E3. apply (busy_others_p0 (account s)) in E3; [|done..].
  apply (drain_again (account s)); [done|by apply (p0_calm_frame s2)|done|lia].
Qed.

(** ** Blocking *)

(** Nothing but going idle blocks the thread. *)
Lemma effects_awake es s s' : apply_effects s es = Some s' → parked s = false → parked s' = false.
Proof.
  revert s. induction es as [|e es IH]; intros s; simpl; [by intros [= <-]|].
  destruct (apply_effect s e) as [s1|] eqn:E; [|done]. intros H Hp. apply (IH s1 H). destruct e as [qi x|]; simpl in E.
  - unfold offer in E. destruct (get_queue s qi) as [q|]; [|by injection E as <-]. destruct (enqueue q x); [|done]. by injection E as <-.
  - by injection E as <-.
Qed.

Lemma execute_awake s qi x s' ns : execute_item behave s qi x = Some (s', ns) → parked s = false → parked s' = false.
Proof.
  unfold execute_item. destruct (behave _ x) as [es ns']. destruct (apply_effects _ es) as [s1|] eqn:E; [|done].
  intros [= <- _] Hp. exact (effects_awake es _ s1 E Hp).
Qed.

Lemma run_task_awake lv qi t x s s' : run_task behave lv s qi t x = Some s' → parked s = false → parked s' = false.
Proof.
  unfold run_task. destruct (execute_item _ _ _ _) as [[s1 ns]|] eqn:E; [|done]. intros H Hp.
  apply execute_awake in E; [|exact Hp]. destruct lv; injection H as <-; exact E.
Qed.

Lemma run_policy_task_awake qi t x s s' : run_policy_task behave s qi t x = Some s' → parked s = false → parked s' = false.
Proof.
  unfold run_policy_task. destruct (execute_item _ _ _ _) as [[s1 ns]|] eqn:E; [|done]. intros [= <-] Hp.
  apply execute_awake in E; [exact E|]. by destruct (0 <? _).
Qed.

Lemma run_batch_awake body items s s' :
  (∀ s x s', body s x = Some s' → parked s = false → parked s' = false) →
  run_batch body s items = Some s' → parked s = false → parked s' = false.
Proof.
  intros Hb. revert s. induction items as [|x items IH]; intros s; simpl; [by intros [= <-]|].
  destruct (body s x) as [s1|] eqn:E; [|done]. intros H Hp. apply (IH s1 H). by eapply Hb.
Qed.

Lemma take_batch_parked s qi max s1 t items : take_batch s qi max = Some (s1, t, items) → parked s1 = parked s.
Proof. unfold take_batch. destruct (get_queue s qi) as [q|]; [|done]. destruct (try_dequeue_batch q max). by intros [= <- _ _]. Qed.

Lemma drain_awake fuel s s' : drain_p0 behave fuel s = Some s' → parked s = false → parked s' = false.
Proof.
  unfold drain_p0. destruct (_ <=? _); [by intros [= <-]|]. generalize (perf_lv s) as lv. intros lv.
  revert s. induction fuel as [|f IH]; intros s; simpl; [done|].
  destruct (take_batch _ _ _) as [[[s1 t] items]|] eqn:Et; [|by intros [= <-]]. apply take_batch_parked in Et.
  destruct items as [|x items]; [intros [= <-]; congruence|]. destruct (run_batch _ _ _) as [s2|] eqn:E; [|done].
  intros H Hp. apply (IH _ H). simpl. eapply run_batch_awake; [|exact E|simpl; congruence]. intros ???. apply run_task_awake.
Qed.

Lemma busy_queue_awake lv s qi s' : busy_queue behave lv s qi = Some s' → parked s = false → parked s' = false.
Proof.
  unfold busy_queue. destruct (take_batch _ _ _) as [[[s1 t] items]|] eqn:Et; [|by intros [= <-]]. apply take_batch_parked in Et.
  intros H Hp. eapply run_batch_awake; [|exact H|congruence]. intros ???. apply run_task_awake.
Qed.

Lemma busy_iter_awake fuel s s' : busy_iter behave fuel s = Some s' → parked s = false → parked s' = false.
Proof.
  unfold busy_iter. destruct (drain_p0 behave fuel s) as [s1|] eqn:E1; [|done].
  destruct (if _ : bool then busy_queue _ _ _ _ else _) as [s2|] eqn:E2; [|done].
  destruct (busy_others _ _ s2 _) as [s3|] eqn:E3; [|done]. intros E4 Hp. apply (drain_awake _ _ _ E4).
  assert (Hp2 : parked s2 = false).
  { apply drain_awake in E1; [|done]. destruct (_ <? _); [by eapply busy_queue_awake|congruence]. }
  revert s2 E3 Hp2 E2. generalize (perf_lv s1) as lv. intros lv s2. generalize (seqZ 0 (Z.of_nat (length (queues s2)))). intros l E3 Hp2 _.
  revert s2 E3 Hp2. induction l as [|qi l IH]; intros s2; cbn [busy_others]; [by intros [= <-]|].
  destruct (_ || _); [apply IH|]. destruct (busy_queue _ _ s2 qi) as [s2'|] eqn:E; [|done].
  intros E3 Hp2. apply (IH s2' E3). by eapply busy_queue_awake.
Qed.

(** What a turn that blocks has found. *)
Definition found_nothing (s s' : Sched Q) : Prop :=
  io_backend s = false ∧ p_level (parker s') = kPark ∧ p_pending (parker s') = false ∧ p_fd (parker s') ≤ 0
  ∧ ∀ i q, queues s' !! i = Some q → nothing_left s' i q.

Lemma go_idle_blocks s : parked (go_idle s) = true →
  p_level (parker (go_idle s)) = kPark ∧ p_pending (parker (go_idle s)) = false ∧ p_fd (parker (go_idle s)) ≤ 0.
Proof.
  unfold go_idle, enter_idle. destruct (p_level (parker s)) eqn:El; simpl; try done. unfold idle_park.
  destruct (p_pending (parker s)) eqn:Ep; [done|]. destruct (Z.ltb_spec 0 (p_fd (parker s))); simpl; [done|]. by rewrite El, Ep.
Qed.

Lemma run_iter_blocks fuel s s' :
  sound_queues s → policy_ok s → parked s = false → run_iter behave fuel s = Some s' → parked s' = true → found_nothing s s'.
Proof.
  intros Hs (Hcur & Hmb & Hlen) Hp. pose proof (inv_start s Hs) as Hinv. unfold run_iter.
  destruct (drain_p0 behave fuel s) as [s1|] eqn:E1; [|done]. pose proof (drain_awake _ _ _ E1 Hp) as Hp1.
  apply (drain_p0_spec (account s)) in E1 as (Hi1 & (F1 & F2 & F3 & F4 & F5 & F6) & He1 & Hx1); [|done].
  assert (length (snapshots s1) = length (queues s1)) as Hsl by (unfold snapshots; apply length_imap).
  destruct (policy_decide_sound (policy s1) (snapshots s1) (stats s1)) as [Hd _]; [by rewrite F4|lia|].
  destruct (policy_decide (policy s1) (snapshots s1) (stats s1)) as [p d]. simpl in Hd.
  destruct (idle d) eqn:Eid.
  - pose proof (idle_means_empty (account s) s1 _ d Hi1 He1 Hd Eid) as Hem. simpl.
    destruct (io_backend s1) eqn:Eio; intros [= <-] Hb; [simpl in Hb; congruence|].
    destruct (go_idle_blocks _ Hb) as (H1 & H2 & H3). split; [congruence|]. do 3 (split; [done|]).
    destruct (go_idle_shape (count_idle (count_poll (put_policy s1 p)))) as (pk & b & ->). exact Hem.
  - intros E Hb. exfalso. apply not_false_iff_true in Hb. apply Hb. clear Hb. unfold serve in E.
    destruct (_ <=? _); [by injection E as <-|].
    destruct (take_batch _ _ _) as [[[s3 t] items]|] eqn:Et; [|by injection E as <-]. apply take_batch_parked in Et.
    destruct items as [|x items]; [injection E as <-; by rewrite Et|].
    destruct (run_batch _ _ _) as [s4|] eqn:E4; [|done]. apply (drain_awake _ _ _ E). simpl.
    eapply run_batch_awake; [|exact E4|simpl; by rewrite Et]. intros ???. apply run_policy_task_awake.
Qed.
End Facts.

(** ** Properties *)

(** C3: nothing is lost, run twice or reordered.  Whatever the tasks do,
    whatever other threads enqueue and whichever of the two loops runs, in
    every reachable state the items run from a queue followed by the items it
    still holds are the items it held at the start followed by items offered
    to it, in the order they were offered (those that found no room are
    missing).  The queue is any that tests for room; the worker may have others
    that do not (the SPSC queues of an online worker). *)
Theorem scheduler_exactly_once_fifo {Q : Type} `{!WorkQueueOps Q, !WorkQueueLaws Q}
    (behave : nat → WorkItem → list Effect * Z) (fuel : nat) (s0 s : Sched Q) (i : nat) (q0 q : Q) :
  sound_queues s0 → policy_ok s0 → executed s0 = [] → steps (worker_step behave fuel) s0 s →
  queues s0 !! i = Some q0 → queues s !! i = Some q → q_checked q = true →
  ∃ accepted, accepted `sublist_of` from (Z.of_nat i) (offered s)
    ∧ from (Z.of_nat i) (executed s) ++ q_contents q = q_contents q0 ++ accepted.
Proof.
  intros Hs Hp He Hst H0 Hq Hck. destruct (worker_steps_inv behave fuel s0 s Hs Hp Hst) as [Hi _].
  destruct (Hi i q Hq Hck) as (_ & acc & Hsub & E). exists acc. split; [done|].
  rewrite <- (app_nil_l (q_contents q)). change [] with (nothing (Z.of_nat i)) at 1. rewrite E.
  unfold account. by rewrite He, Nat2Z.id, H0.
Qed.

(** C33: the policy-driven loop is work conserving: a turn that runs no task
    leaves every queue without work (empty, or reporting a count of 0 when it
    is one that does not test for room), so the worker only goes idle when
    there is nothing to do; and every turn ends with the affine queue
    drained. *)
Theorem scheduler_work_conserving {Q : Type} `{!WorkQueueOps Q, !WorkQueueLaws Q}
    (behave : nat → WorkItem → list Effect * Z) (fuel : nat) (s s' : Sched Q) :
  sound_queues s → policy_ok s → run_iter behave fuel s = Some s' →
  p0_empty s'
  ∧ (executed s' = executed s → ∀ i q, queues s' !! i = Some q → nothing_left s' i q).
Proof.
  intros Hs Hp E. by destruct (run_iter_spec behave _ fuel s s' (inv_start s Hs) Hp E) as (_ & _ & _ & ? & _ & ?).
Qed.

(** C32: the busy-poll loop starves no queue: in one turn, the item at the
    front of every non-empty queue (that tests for room) is run, whatever the
    tasks enqueue meanwhile. *)
Theorem busy_poll_no_starvation {Q : Type} `{!WorkQueueOps Q, !WorkQueueLaws Q}
    (behave : nat → WorkItem → list Effect * Z) (fuel : nat) (s s' : Sched Q) (i : nat) (q : Q) (x : WorkItem) :
  sound_queues s → 0 ≤ disk_io_idx s → busy_iter behave fuel s = Some s' →
  queues s !! i = Some q → q_checked q = true → head (q_contents q) = Some x →
  ∃ ran, executed s' = executed s ++ ran ∧ (Z.of_nat i, x) ∈ ran.
Proof.
  intros Hs Hd E Hq Hck Hx. destruct (busy_iter_spec behave fuel s s' Hs Hd E) as (Hi & Hf & _ & [ran Er] & Ha).
  exists ran. split; [done|]. destruct (q_contents q) as [|y l] eqn:Ec; [done|]. injection Hx as ->.
  specialize (Ha i q Hq Hck ltac:(by rewrite Ec)). unfold advanced in Ha. rewrite Er, from_app, length_app in Ha.
  destruct (lookup_lt_is_Some_2 (queues s') i) as [q' Hq'];
    [apply lookup_lt_Some in Hq; destruct Hf as (_ & _ & _ & _ & -> & _); done|].
  assert (q_checked q' = true) as Hck'.
  { destruct Hf as (_ & _ & _ & _ & _ & Ek). by rewrite (kinds_checked s s' i q q' Ek Hq Hq'). }
  destruct (Hi i q' Hq' Hck') as (_ & acc & _ & E'). unfold account in E'. rewrite Nat2Z.id, Hq, Ec, Er, from_app in E'.
  rewrite <- !app_assoc in E'. apply app_inv_head in E'. simpl in E'.
  destruct (from (Z.of_nat i) ran) as [|z k] eqn:Ek; [simpl in Ha; lia|]. injection E' as -> _.
  assert (x ∈ from (Z.of_nat i) ran) as Hin by (rewrite Ek; apply list_elem_of_here).
  unfold from in Hin. apply list_elem_of_fmap in Hin as ([j y'] & -> & Hin).
  apply list_elem_of_filter in Hin as [Ej Hin]. simpl in Ej. by rewrite <- Ej.
Qed.

(** C37: both kinds of turn come to an end when no task enqueues into the
    affine queue: the drains then need no more batches than the queue has
    items.  A turn of the busy-poll loop returns.  A turn of the other loop
    returns, or blocks in [enter_idle]; it blocks only when no IO backend is
    set, the worker is at the park level, no notification is pending, the
    eventfd is drained and every queue is left without work; a notification,
    a stop request among them, makes it go on at the active level. *)
Theorem scheduler_turn_terminates {Q : Type} `{!WorkQueueOps Q, !WorkQueueLaws Q}
    (behave : nat → WorkItem → list Effect * Z) (s : Sched Q) :
  sound_queues s → policy_ok s → p0_calm behave s → parked s = false →
  (∃ s', run_iter behave (S (p0_length s)) s = Some s'
     ∧ (parked s' = true → found_nothing s s' ∧ parked (notify s') = false ∧ p_level (parker (notify s')) = kActive))
  ∧ (∃ s', busy_iter behave (S (p0_length s)) s = Some s' ∧ parked s' = false).
Proof.
  intros Hs Hp Hn Ha. split.
  - destruct (run_iter_returns behave (S (p0_length s)) s Hs Hp Hn) as [s' E]; [lia|]. exists s'. split; [done|].
    intros Hb. split; [by apply (run_iter_blocks behave (S (p0_length s)))|]. unfold notify. rewrite Hb. done.
  - destruct (busy_iter_returns behave (S (p0_length s)) s Hs Hn) as [s' E]; [lia|]. exists s'. split; [done|].
    by apply (busy_iter_awake behave _ _ _ E).
Qed.

(** The batches of the policy-driven loop leave [tls_source_queue_idx] as
    they found it, while those of the other loop and of the drain set it to
    the queue of the item (the comment at its declaration promises it for
    every execution). *)
Theorem run_leaves_source_queue {Q : Type} `{!WorkQueueOps Q} (behave : nat → WorkItem → list Effect * Z)
    (s : Sched Q) (qi : Z) (t : QueueType) (lv : PerfLevel) (x : WorkItem) :
  (∀ s', run_policy_task behave s qi t x = Some s' → tls_source_queue_idx s' = tls_source_queue_idx s)
  ∧ (∀ s', run_task behave lv s qi t x = Some s' → tls_source_queue_idx s' = qi).
Proof.
  assert (∀ es s1 s2, apply_effects s1 es = Some s2 → tls_source_queue_idx s2 = tls_source_queue_idx s1) as He.
  { induction es as [|[j y|] es IH]; intros s1 s2; cbn [apply_effects apply_effect]; [by intros [= ->]| |exact (IH (request_stop s1) s2)].
    unfold offer. destruct (get_queue s1 j) as [q|]; [|apply IH]. destruct (enqueue q y); [|done]. intros ->%IH. done. }
  unfold run_policy_task, run_task, execute_item. split; intros s'; simpl.
  - set (s0 := if _ : bool then _ else s).
    assert (tls_source_queue_idx s0 = tls_source_queue_idx s) as <- by (unfold s0; by destruct (0 <? _)).
    destruct (behave _ x) as [es ns]. destruct (apply_effects _ es) as [s1|] eqn:E; [|done].
    apply He in E. intros [= <-]. exact E.
  - destruct (behave _ x) as [es ns]. destruct (apply_effects _ es) as [s1|] eqn:E; [|done].
    apply He in E. destruct lv; intros [= <-]; exact E.
Qed.

(** ** Witnesses: two rings, the first one affine; task 7 enqueues task 9. *)

Definition filled (t : QueueType) (p : Priority) (items : list WorkItem) : WorkQueue :=
  fold_left (λ w x, default w (wq_enqueue w x)) items (default (make_local t p "local" 0) (make_ring t p "ring" 8)).

Definition sample_behave (n : nat) (x : WorkItem) : list Effect * Z :=
  if wi_word x =? 7 then ([Enqueue 1 (make_coro 9)], 100) else ([], 50).

Definition sample_sched : Sched WorkQueue :=
  let s := (register_queue (new_sched (PolicyRR (new_RR 16))) (filled kAffine kCritical [make_coro 1; make_coro 2])).1 in
  let s := (register_queue s (filled kEngine kMedium [make_coro 7; make_coro 8])).1 in
  set_flags (set_affine_idx s 0) true false.

Lemma filled_sound t p items : wq_wf (filled t p items) ∧ wq_checked (filled t p items) = true.
Proof.
  unfold filled. assert (∀ w, wq_wf w ∧ wq_checked w = true →
    wq_wf (fold_left (λ w x, default w (wq_enqueue w x)) items w)
    ∧ wq_checked (fold_left (λ w x, default w (wq_enqueue w x)) items w) = true) as Hf.
  { induction items as [|x items IH]; intros w [Hw Hc]; [done|]. apply IH.
    pose proof (enqueue_law w x) as Hl.
    destruct (Hl Hw ltac:(by left)) as (w' & E & Hw' & Hm & _). simpl in E. rewrite E. simpl.
    split; [done|]. unfold q_meta in Hm. simpl in Hm. congruence. }
  apply Hf. destruct (make_ring_spec t p "ring" 8 ltac:(lia)) as (w & E & Hw & _).
  rewrite E. split; [done|]. unfold make_ring in E. destruct (Mpmc.make 8); [|done]. by injection E as <-.
Qed.

Lemma sample_sound : sound_queues sample_sched.
Proof.
  intros [|[|i]] q Hq _; cbn -[filled] in Hq; [injection Hq as <-; apply filled_sound..|]. by destruct i.
Qed.

Lemma sample_policy : policy_ok sample_sched.
Proof. repeat split; simpl; lia. Qed.

Lemma scheduler_exactly_once_fifo_witness :
  match run_iter sample_behave 4 sample_sched with
  | Some s => executed s = [(0, make_coro 1); (0, make_coro 2); (1, make_coro 7); (1, make_coro 8)]
      ∧ ∀ q, queues s !! 1%nat = Some q →
        ∃ accepted, accepted `sublist_of` from 1 (offered s)
          ∧ from 1 (executed s) ++ q_contents q = [make_coro 7; make_coro 8] ++ accepted
  | None => False
  end.
Proof.
  destruct (run_iter sample_behave 4 sample_sched) as [s|] eqn:E; [|by vm_compute in E].
  split; [vm_compute in E; by injection E as <-|]. intros q Hq.
  assert (q_checked q = true) as Hck.
  { assert (q_checked <$> queues s = [true; true]) as Hk by (vm_compute in E; by injection E as <-).
    apply (f_equal (.!! 1%nat)) in Hk. rewrite list_lookup_fmap, Hq in Hk. by injection Hk. }
  destruct (scheduler_exactly_once_fifo sample_behave 4 sample_sched s 1
    (filled kEngine kMedium [make_coro 7; make_coro 8]) q sample_sound sample_policy eq_refl
    (steps_once _ _ _ (worker_turn sample_behave 4 sample_sched s eq_refl eq_refl eq_refl E)) eq_refl Hq Hck) as (acc & Hs & Ha).
  exists acc. split; [exact Hs|]. rewrite <- (eq_refl : wq_contents (filled kEngine kMedium [make_coro 7; make_coro 8]) = _) at 1. exact Ha.
Defined.

Lemma scheduler_work_conserving_witness :
  match run_iter sample_behave 4 sample_sched with Some s' => p0_empty s' | None => False end.
Proof.
  destruct (run_iter sample_behave 4 sample_sched) as [s'|] eqn:E; [|by vm_compute in E].
  exact (proj1 (scheduler_work_conserving sample_behave 4 sample_sched s' sample_sound sample_policy E)).
Defined.

Lemma busy_poll_no_starvation_witness :
  match busy_iter sample_behave 4 sample_sched with
  | Some s' => ∃ ran, executed s' = [] ++ ran ∧ (1, make_coro 7) ∈ ran
  | None => False
  end.
Proof.
  destruct (busy_iter sample_behave 4 sample_sched) as [s'|] eqn:E; [|by vm_compute in E].
  exact (busy_poll_no_starvation sample_behave 4 sample_sched s' 1
    (filled kEngine kMedium [make_coro 7; make_coro 8]) (make_coro 7) sample_sound ltac:(done) E eq_refl eq_refl eq_refl).
Defined.

(** A turn that runs the work there is, and one that finds none and blocks. *)
Definition drained_sched : Sched WorkQueue :=
  let s := (register_queue (new_sched (PolicyRR (new_RR 16))) (filled kAffine kCritical [])).1 in
  set_idle (set_flags (set_affine_idx s 0) true false) Idle.default_config (mkParker kPark 0 false 0).

Lemma sample_calm (s : Sched WorkQueue) items :
  affine_idx s = 0 → queues s !! 0%nat = Some (filled kAffine kCritical items) → p0_calm sample_behave s.
Proof.
  intros Ea Hq. split.
  - intros n x y. unfold sample_behave. rewrite Ea. destruct (wi_word x =? 7); simpl; [|apply not_elem_of_nil].
    intros Hin. apply list_elem_of_singleton in Hin. discriminate Hin.
  - intros q Hg. rewrite Ea, (get_queue_nat s 0 : get_queue s 0 = _), Hq in Hg. injection Hg as <-. apply filled_sound.
Qed.

Lemma scheduler_turn_terminates_witness :
  (∃ s', run_iter sample_behave (S (p0_length sample_sched)) sample_sched = Some s') ∧ p0_length sample_sched = 2%nat
  ∧ ∃ s', run_iter sample_behave 1 drained_sched = Some s' ∧ parked s' = true ∧ found_nothing drained_sched s'
      ∧ parked (notify s') = false.
Proof.
  split; [|split; [vm_compute; reflexivity|]].
  - destruct (scheduler_turn_terminates sample_behave sample_sched sample_sound sample_policy) as [(s' & E & _) _];
      [by eapply sample_calm|reflexivity|]. exists s'. exact E.
  - assert (Hs : sound_queues drained_sched).
    { intros [|i] q Hq _; cbn -[filled] in Hq; [injection Hq as <-; apply filled_sound|]. by destruct i. }
    destruct (scheduler_turn_terminates sample_behave drained_sched Hs) as [(s' & E & H) _];
      [repeat split; simpl; lia|by eapply sample_calm|reflexivity|].
    assert (Hb : parked s' = true) by (vm_compute in E; by injection E as <-).
    exists s'. split; [exact E|]. split; [exact Hb|]. destruct (H Hb) as (H1 & H2 & _). split; assumption.
Defined.

Lemma run_leaves_source_queue_witness :
  match run_policy_task sample_behave sample_sched 1 kEngine (make_coro 8) with
  | Some s' => tls_source_queue_idx s' = SIZE_MAX
  | None => False
  end.
Proof.
  destruct (run_policy_task sample_behave sample_sched 1 kEngine (make_coro 8)) as [s'|] eqn:E; [|by vm_compute in E].
  exact (proj1 (run_leaves_source_queue sample_behave sample_sched 1 kEngine kPerfNone (make_coro 8)) s' E).
Defined.
