(* ===== verification/Registry.v ===== *)
(** [WorkerRegistry] ([worker_registry.h], [worker_registry.cc]): the global
    table of workers.  Workers and executors are addresses; a vector indexed by
    id that is grown by [resize] is a list.  Every method runs under the mutex.
    [None] is the exception of a [resize] to a negative NUMA node converted to
    [size_t]. *)
From S2P Require Import Prelude Types.

(** An online worker, or worker [local_id] of a work-stealing executor. *)
Inductive WorkerHandle := Online (w : Z) | Offline (exec local_id : Z).

#[export] Instance WorkerHandle_eq : EqDecision WorkerHandle.
Proof. solve_decision. Defined.

(** Where [push_affine] delivers an item; it reads [item.coro] for an online
    worker whatever the tag of the item. *)
Inductive Delivery := ToOnline (w h : Z) | ToOffline (exec local_id : Z) (item : WorkItem) | DroppedItem.

Definition push_affine (h : WorkerHandle) (item : WorkItem) : Delivery :=
  match h with
  | Online w => ToOnline w (wi_word item)
  | Offline exec l => if exec =? 0 then DroppedItem else ToOffline exec l item
  end.

Record Registry := mkReg {
  all_workers : list (option Z);
  by_numa : list (list Z);
  handles : list (option WorkerHandle);
  offline_by_numa : list (list Z);
  offline_global_id : gmap (Z * Z) Z;
  next_global_id : Z
}.

Definition new_registry : Registry := mkReg [] [] [] [] ∅ 0.

(** [if (n > v.size()) v.resize(n, d)] *)
Definition grow {A} (n : nat) (d : A) (l : list A) : list A := l ++ replicate (n - length l) d.
Definition set_grown {A} (i : nat) (d x : A) (l : list A) : list A := <[i := x]> (grow (S i) d l).
Definition push_at (i : nat) (x : Z) (l : list (list Z)) : list (list Z) := alter (λ v, v ++ [x]) i (grow (S i) [] l).

Definition register_worker (r : Registry) (w global_id numa_node : Z) : option Registry :=
  if numa_node <? 0 then None
  else Some (mkReg (set_grown (Z.to_nat global_id) None (Some w) (all_workers r))
               (push_at (Z.to_nat numa_node) w (by_numa r))
               (set_grown (Z.to_nat global_id) None (Some (Online w)) (handles r))
               (offline_by_numa r) (offline_global_id r) (next_global_id r)).

Definition take_id (r : Registry) : Registry := mkReg (all_workers r) (by_numa r) (handles r)
  (offline_by_numa r) (offline_global_id r) (next_global_id r +64 1).

Definition register_online_worker (r : Registry) (w numa_node : Z) : option (Registry * Z) :=
  let gid := next_global_id r in
  r' ← register_worker (take_id r) w gid numa_node; Some (r', gid).

Definition register_offline_worker (r : Registry) (exec local_id numa_node : Z) : option (Registry * Z) :=
  let gid := next_global_id r in
  if numa_node <? 0 then None
  else Some (mkReg (all_workers r) (by_numa r)
               (set_grown (Z.to_nat gid) None (Some (Offline exec local_id)) (handles r))
               (push_at (Z.to_nat numa_node) gid (offline_by_numa r))
               (<[(exec, local_id) := gid]> (offline_global_id r)) (gid +64 1), gid).

Definition total_workers (r : Registry) : Z := Z.of_nat (length (all_workers r)).

Definition get_by_id (r : Registry) (global_id : Z) : option Z := mjoin (all_workers r !! Z.to_nat global_id).

Definition get_by_numa (r : Registry) (numa_node : Z) : list Z :=
  if numa_node <? 0 then [] else default [] (by_numa r !! Z.to_nat numa_node).

(** [pick] is the generator of the thread: any index of the vector. *)
Definition get_random_from_numa (pick : nat → nat) (r : Registry) (numa_node : Z) : option Z :=
  match get_by_numa r numa_node with
  | [] => None
  | v => v !! (pick (length v) mod length v)%nat
  end.

Definition get_handle (r : Registry) (global_id : Z) : option WorkerHandle := mjoin (handles r !! Z.to_nat global_id).

Definition get_global_id_for_offline (r : Registry) (exec local_id : Z) : Z :=
  default SIZE_MAX (offline_global_id r !! (exec, local_id)).

(** Erase the first occurrence of [gid] in the first vector that has one. *)
Fixpoint erase_first (gid : Z) (v : list Z) : list Z :=
  match v with
  | [] => []
  | x :: v' => if x =? gid then v' else x :: erase_first gid v'
  end.
Fixpoint erase_numa (gid : Z) (vs : list (list Z)) : list (list Z) :=
  match vs with
  | [] => []
  | v :: vs' => if bool_decide (gid ∈ v) then erase_first gid v :: vs' else v :: erase_numa gid vs'
  end.

Definition drop_handle (r : Registry) (gid : Z) : Registry :=
  mkReg (all_workers r) (by_numa r) (<[Z.to_nat gid := None]> (handles r))
    (erase_numa gid (offline_by_numa r)) (offline_global_id r) (next_global_id r).

Definition remove_executor (r : Registry) (exec : Z) : Registry :=
  let to_remove := (map_to_list (filter (λ kv, kv.1.1 = exec) (offline_global_id r))).*2 in
  let r' := fold_left drop_handle to_remove r in
  mkReg (all_workers r') (by_numa r') (handles r') (offline_by_numa r')
    (filter (λ kv, ¬ kv.1.1 = exec) (offline_global_id r')) (next_global_id r').

(** ** Histories

    [reg_step]: registrations with generated ids and removals.  An executor
    registers each of its workers once (its constructor does). *)
Inductive reg_step : Registry → Registry → Prop :=
| reg_online r w n r' gid : next_global_id r < SIZE_MAX →
    register_online_worker r w n = Some (r', gid) → reg_step r r'
| reg_offline r e l n r' gid : next_global_id r < SIZE_MAX → offline_global_id r !! (e, l) = None →
    register_offline_worker r e l n = Some (r', gid) → reg_step r r'
| reg_remove r e : reg_step r (remove_executor r e).

(** The reverse map and the handles agree, in both directions. *)
Record reg_inv (r : Registry) : Prop := {
  ri_next : 0 ≤ next_global_id r < W64;
  ri_len : (length (handles r) ≤ Z.to_nat (next_global_id r))%nat;
  ri_map : ∀ k gid, offline_global_id r !! k = Some gid → 0 ≤ gid ∧ handles r !! Z.to_nat gid = Some (Some (Offline k.1 k.2));
  ri_back : ∀ i e l, handles r !! i = Some (Some (Offline e l)) → offline_global_id r !! (e, l) = Some (Z.of_nat i)
}.

Lemma grow_length {A} n (d : A) l : length (grow n d l) = Nat.max n (length l).
Proof. unfold grow. rewrite length_app, length_replicate. lia. Qed.

Lemma set_grown_length {A} i (d x : A) l : length (set_grown i d x l) = Nat.max (S i) (length l).
Proof. unfold set_grown. by rewrite length_insert, grow_length. Qed.

Lemma set_grown_eq {A} i (d x : A) l : set_grown i d x l !! i = Some x.
Proof. unfold set_grown. apply list_lookup_insert_eq. rewrite grow_length. lia. Qed.

Lemma set_grown_ne {A} i j (x : option A) l : i ≠ j →
  set_grown i None x l !! j = l !! j ∨ (set_grown i None x l !! j = Some None ∧ l !! j = None).
Proof.
  intros Hne. unfold set_grown, grow. rewrite list_lookup_insert_ne by done.
  destruct (l !! j) as [y|] eqn:E; [left; by apply lookup_app_l_Some|].
  apply lookup_ge_None_1 in E. rewrite lookup_app_r by done.
  destruct (replicate _ _ !! _) as [y|] eqn:E'; [|by left]. right. apply lookup_replicate in E' as [-> _]. done.
Qed.

(** A fresh id: what the new handle leaves alone. *)
Lemma set_grown_fresh (hs : list (option WorkerHandle)) (i j : nat) h x :
  (length hs ≤ i)%nat → hs !! j = Some h → set_grown i None x hs !! j = Some h.
Proof.
  intros Hl Hj. destruct (set_grown_ne i j x hs) as [E|[_ E]]; [|congruence..].
  apply lookup_lt_Some in Hj. lia.
Qed.

Lemma fold_drop_fields gids r :
  let r' := fold_left drop_handle gids r in
  offline_global_id r' = offline_global_id r ∧ next_global_id r' = next_global_id r
  ∧ length (handles r') = length (handles r)
  ∧ (∀ i h, handles r' !! i = Some (Some h) → handles r !! i = Some (Some h) ∧ Forall (λ g, Z.to_nat g ≠ i) gids)
  ∧ (∀ i h, handles r !! i = Some h → Forall (λ g, Z.to_nat g ≠ i) gids → handles r' !! i = Some h).
Proof.
  revert r. induction gids as [|g gids IH]; intros r; simpl; [done|].
  destruct (IH (drop_handle r g)) as (E1 & E2 & E3 & E4 & E5). simpl in *.
  split; [done|]. split; [done|]. split; [by rewrite E3, length_insert|]. split.
  - intros i h Hi. apply E4 in Hi as [Hi Hf]. apply list_lookup_insert_Some in Hi as [(_ & ? & _)|(? & ?)]; [done|].
    split; [done|]. by constructor.
  - intros i h Hi Hf. inversion Hf; subst. apply E5; [|done]. by rewrite list_lookup_insert_ne.
Qed.

Lemma removed_ids r e k gid :
  k.1 = e → offline_global_id r !! k = Some gid →
  gid ∈ (map_to_list (filter (λ kv, kv.1.1 = e) (offline_global_id r))).*2.
Proof.
  intros Hk Hg. apply list_elem_of_fmap. exists (k, gid). split; [done|]. apply elem_of_map_to_list.
  by apply map_lookup_filter_Some.
Qed.

Lemma reg_inv_remove r e : reg_inv r → reg_inv (remove_executor r e).
Proof.
  intros [Hn Hl Hm Hb]. unfold remove_executor.
  set (gids := (map_to_list _).*2). destruct (fold_drop_fields gids r) as (E1 & E2 & E3 & E4 & E5).
  set (r' := fold_left drop_handle gids r) in *. split; simpl; rewrite ?E2, ?E3; [done|done| |].
  - intros k gid Hk. rewrite E1 in Hk. apply map_lookup_filter_Some in Hk as [Hk Hne]. simpl in Hne.
    destruct (Hm k gid Hk) as [H0 Hh]. split; [done|]. apply E5; [done|]. apply Forall_forall. intros g Hg Eg.
    apply list_elem_of_fmap in Hg as ([k' g'] & -> & Hg). apply elem_of_map_to_list, map_lookup_filter_Some in Hg as [Hg He].
    simpl in *. destruct (Hm k' g' Hg) as [_ Hh']. rewrite Eg, Hh in Hh'. injection Hh' as ? ?. congruence.
  - intros i e' l Hi. apply E4 in Hi as [Hi Hf]. rewrite E1. apply map_lookup_filter_Some. split; [by apply Hb|].
    simpl. intros ->. pose proof (Hb i e l Hi) as Hg. apply (removed_ids r e (e, l)) in Hg; [|done].
    rewrite Forall_forall in Hf. specialize (Hf _ Hg). lia.
Qed.

Lemma reg_step_inv r r' : reg_inv r → reg_step r r' → reg_inv r'.
Proof.
  intros Hinv Hst. destruct Hst as [r w n r' gid Hlt E|r e l n r' gid Hlt Hno E|r e]; [..|by apply reg_inv_remove].
  - destruct Hinv as [Hn Hl Hm Hb]. unfold register_online_worker, register_worker in E. destruct (n <? 0); [done|].
    injection E as <- <-. assert (next_global_id r +64 1 = next_global_id r + 1) as En
      by (apply wrap64_small; unfold SIZE_MAX, W64 in *; lia).
    split; cbn [next_global_id handles offline_global_id take_id].
    + rewrite En. unfold SIZE_MAX, W64 in *. lia.
    + rewrite En, set_grown_length. lia.
    + intros k gid Hk. destruct (Hm k gid Hk) as [? Hh]. split; [done|]. by apply set_grown_fresh.
    + intros i e l Hi. destruct (decide (i = Z.to_nat (next_global_id r))) as [->|Hne].
      * rewrite set_grown_eq in Hi. done.
      * destruct (set_grown_ne (Z.to_nat (next_global_id r)) i (Some (Online w)) (handles r)) as [E|[E _]]; [done|..];
          rewrite E in Hi; [by apply Hb|done].
  - destruct Hinv as [Hn Hl Hm Hb]. unfold register_offline_worker in E. destruct (n <? 0); [done|].
    injection E as <- <-. assert (next_global_id r +64 1 = next_global_id r + 1) as En
      by (apply wrap64_small; unfold SIZE_MAX, W64 in *; lia).
    split; cbn [next_global_id handles offline_global_id].
    + rewrite En. unfold SIZE_MAX, W64 in *. lia.
    + rewrite En, set_grown_length. lia.
    + intros k gid Hk. apply lookup_insert_Some in Hk as [[<- <-]|[Hne Hk]].
      * split; [lia|]. apply set_grown_eq.
      * destruct (Hm k gid Hk) as [? Hh]. split; [done|]. by apply set_grown_fresh.
    + intros i e' l' Hi. destruct (decide (i = Z.to_nat (next_global_id r))) as [->|Hne].
      * rewrite set_grown_eq in Hi. injection Hi as -> ->. rewrite lookup_insert_eq. f_equal. lia.
      * destruct (set_grown_ne (Z.to_nat (next_global_id r)) i (Some (Offline e l)) (handles r)) as [E|[E _]]; [done|..];
          rewrite E in Hi; [|done]. apply Hb in Hi. rewrite lookup_insert_ne; [done|congruence].
Qed.

Lemma reg_reachable_inv r : steps reg_step new_registry r → reg_inv r.
Proof. apply steps_invariant; [|intros a b; apply reg_step_inv]. split; simpl; [done|lia|done|done]. Qed.

(** ** Properties *)


(** Ids given by the caller collide with generated ones.  A worker group
    registers its workers with the ids 0, 1, ... of its own while executors
    draw theirs from the counter, which also starts at 0: after both, the id
    the registry returns for the executor's worker leads to the online worker,
    so a timer of the former wakes the latter. *)
Theorem registry_ids_collide :
  match register_offline_worker new_registry 16 0 0 with
  | Some (r1, gid) =>
      match register_worker r1 64 0 0 with
      | Some r2 => get_global_id_for_offline r2 16 0 = gid ∧ get_handle r2 gid = Some (Online 64)
      | None => False
      end
  | None => False
  end.
Proof. vm_compute. split; reflexivity. Qed.

