(* ===== verification/Timers.v ===== *)
(** Timers ([timer.h], [timer.cc]): the heap of a worker ([WorkerTimerState]),
    the shared wheel of the offline executors ([OfflineTimerWheel]) and the
    global thread that serves it.

    [std::priority_queue] is an interface, [PrioQueue]: its top is some node of
    minimal deadline (the order of equal deadlines is not specified) and [pop]
    removes that node.  Everything below holds for any implementation; one is
    given to run the definitions.  A time point is the 64-bit count of the
    steady clock, [TimePoint_max] its largest value. *)
From S2P Require Import Prelude Types.
From stdpp Require Import sorting.
Local Open Scope Z_scope.

Record TimerNode := mkTimer {
  deadline : Z;
  source_queue_idx : Z;
  source_worker_id : Z;
  timer_handle : Z;
  on_expire : option Z          (* a callback, when set *)
}.

#[export] Instance TimerNode_eq : EqDecision TimerNode.
Proof. solve_decision. Defined.

Definition TimePoint_max : Z := 2 ^ 63 - 1.

(** [operator<] is reversed, so the greatest node has the earliest deadline. *)
Definition node_lt (a b : TimerNode) : bool := deadline b <? deadline a.

(** ** [std::priority_queue<TimerNode>] *)

Class PrioQueue (P : Type) := {
  pq_empty : P;
  pq_push : P → TimerNode → P;
  pq_top : P → option TimerNode;
  pq_pop : P → P;
  pq_size : P → nat
}.

Class PrioQueueLaws (P : Type) `{!PrioQueue P} := {
  pq_nodes : P → list TimerNode;
  pq_empty_nodes : pq_nodes pq_empty = [];
  pq_push_nodes p n : pq_nodes (pq_push p n) ≡ₚ n :: pq_nodes p;
  pq_size_nodes p : pq_size p = length (pq_nodes p);
  pq_top_none p : pq_top p = None → pq_nodes p = [];
  pq_top_some p n : pq_top p = Some n →
    pq_nodes p ≡ₚ n :: pq_nodes (pq_pop p) ∧ Forall (λ m, node_lt n m = false) (pq_nodes p)
}.

(** ** [WorkerTimerState] *)

Section Heap.
Context {P : Type} `{!PrioQueue P}.

Definition timer_insert (pending : P) (node : TimerNode) : P := pq_push pending node.

(** The loop of [expire], at most [fuel] turns. *)
Fixpoint expire_loop (fuel : nat) (pending : P) (now : Z) (expired : list TimerNode) : P * list TimerNode :=
  match fuel with
  | O => (pending, expired)
  | S f =>
      match pq_top pending with
      | Some n => if deadline n <=? now then expire_loop f (pq_pop pending) now (expired ++ [n])
                  else (pending, expired)
      | None => (pending, expired)
      end
  end.

(** The loop pops once per turn, so the size of the heap is enough fuel. *)
Definition expire (pending : P) (now : Z) : P * list TimerNode := expire_loop (pq_size pending) pending now [].

Definition next_deadline (pending : P) : Z :=
  match pq_top pending with Some n => deadline n | None => TimePoint_max end.

(** [OfflineTimerWheel::insert]: the second result is [need_wake]. *)
Definition wheel_insert (pending : P) (node : TimerNode) : P * bool :=
  let prev_top := next_deadline pending in
  let pending' := pq_push pending node in
  (pending', match pq_top pending' with Some n => deadline n <? prev_top | None => false end).

(** What [sleep_until_next] waits for: no deadline when the heap is empty. *)
Definition sleep_until (pending : P) : option Z := deadline <$> pq_top pending.
End Heap.

(** ** [co_sleep_for], [co_sleep_until] and [SleepAwaiter::await_suspend] *)

Definition sleep_node (d : Z) : TimerNode := mkTimer d SIZE_MAX SIZE_MAX 0 None.
Definition co_sleep_for (now dur : Z) : TimerNode := sleep_node (now + dur).
Definition co_sleep_until (d : Z) : TimerNode := sleep_node d.

(** Which timer a sleeping coroutine is registered with: that of its online
    worker, the wheel (with the global id of its offline worker), or none. *)
Inductive SleepTarget := SleepOnline (n : TimerNode) | SleepOffline (n : TimerNode) | SleepLost.

Definition sleep_suspend (node : TimerNode) (h tls : Z) (online : bool) (offline_id : option Z) : SleepTarget :=
  let n := mkTimer (deadline node) (if tls =? SIZE_MAX then SIZE_MAX else tls) (source_worker_id node) h (on_expire node) in
  if online then SleepOnline n
  else match offline_id with
       | Some id => SleepOffline (mkTimer (deadline n) (source_queue_idx n) id h (on_expire n))
       | None => SleepLost
       end.

(** What the timer thread does with an expired node: call back, push to the
    worker it came from if the registry knows it, or drop it. *)
Inductive Fired := FiredCallback (cb : Z) | FiredPush (target : Z) (item : WorkItem) | FiredDropped.

Definition fire_offline (get_handle : Z → option Z) (n : TimerNode) : Fired :=
  match on_expire n with
  | Some cb => FiredCallback cb
  | None => match get_handle (source_worker_id n) with
            | Some t => FiredPush t (make_coro (timer_handle n))
            | None => FiredDropped
            end
  end.

(** ** The global timer thread

    One step per critical section of the wheel's mutex, per atomic access of
    the stop flag, per node delivered and per signal of the condition
    variable.  The clock ticks
    on its own; a wait may end at its deadline, on a signal or spuriously. *)

Inductive TimerThread :=
| TCheck                 (* about to read the stop flag *)
| TExpire                (* about to take the expired nodes out *)
| TFire (rest : list TimerNode)     (* delivering them, [rest] is left *)
| TSleep                 (* about to enter sleep_until_next *)
| TWait (until : option Z)
| TDone.

Inductive Stopper := StopNone | StopSet | StopJoin.

Record wheel {P : Type} := mkWheel {
  heap : P;
  thread : TimerThread;
  clock : Z;
  stop : bool;
  signalled : bool;              (* the waiting thread has been signalled *)
  notifying : nat → bool;        (* inserters between the unlock and notify_one *)
  stopper : Stopper;
  fired : list TimerNode;        (* taken out as expired, in that order *)
  inserted : list TimerNode;
  delivered : list (TimerNode * Fired)   (* and what was done with them *)
}.
Arguments wheel P : clear implicits.

Section Wheel.
Context {P : Type} `{!PrioQueue P}.

Definition wheel_init : wheel P := mkWheel P pq_empty TCheck 0 false false (λ _, false) StopNone [] [] [].

Definition set_thread (w : wheel P) t := mkWheel P (heap w) t (clock w) (stop w) false (notifying w)
  (stopper w) (fired w) (inserted w) (delivered w).
Definition waiting (t : TimerThread) : bool := match t with TWait _ => true | _ => false end.

(** [cv_.notify_one()]: it reaches the thread only if it waits now. *)
Definition notify_cv (w : wheel P) n st := mkWheel P (heap w) (thread w) (clock w) (stop w)
  (signalled w || waiting (thread w)) n st (fired w) (inserted w) (delivered w).

Inductive wheel_step : wheel P → wheel P → Prop :=
| tick w t : clock w ≤ t → wheel_step w
    (mkWheel P (heap w) (thread w) t (stop w) (signalled w) (notifying w) (stopper w) (fired w) (inserted w) (delivered w))
| check_go w : thread w = TCheck → stop w = false → wheel_step w (set_thread w TExpire)
| check_stop w : thread w = TCheck → stop w = true → wheel_step w (set_thread w TDone)
| expire_now w h ex : thread w = TExpire → expire (heap w) (clock w) = (h, ex) → wheel_step w
    (mkWheel P h (TFire ex) (clock w) (stop w) false (notifying w) (stopper w) (fired w ++ ex) (inserted w) (delivered w))
| fire_one w n rest get_handle : thread w = TFire (n :: rest) → wheel_step w
    (mkWheel P (heap w) (TFire rest) (clock w) (stop w) false (notifying w) (stopper w) (fired w) (inserted w)
       (delivered w ++ [(n, fire_offline get_handle n)]))
| fire_end w : thread w = TFire [] → wheel_step w (set_thread w TSleep)
| sleep w : thread w = TSleep → wheel_step w (set_thread w (TWait (sleep_until (heap w))))
| wake_signal w d : thread w = TWait d → signalled w = true → wheel_step w (set_thread w TCheck)
| wake_time w d : thread w = TWait (Some d) → d ≤ clock w → wheel_step w (set_thread w TCheck)
| wake_spurious w d : thread w = TWait d → wheel_step w (set_thread w TCheck)
| insert w i node h nw : notifying w i = false → wheel_insert (heap w) node = (h, nw) → wheel_step w
    (mkWheel P h (thread w) (clock w) (stop w) (signalled w) (<[i := nw]> (notifying w)) (stopper w) (fired w)
       (inserted w ++ [node]) (delivered w))
| insert_notify w i : notifying w i = true → wheel_step w (notify_cv w (<[i := false]> (notifying w)) (stopper w))
| stop_set w : stopper w = StopNone → wheel_step w
    (mkWheel P (heap w) (thread w) (clock w) true (signalled w) (notifying w) StopSet (fired w) (inserted w) (delivered w))
| stop_notify w : stopper w = StopSet → wheel_step w (notify_cv w (notifying w) StopJoin).

(** The nodes taken out and not delivered yet. *)
Definition in_delivery (t : TimerThread) : list TimerNode := match t with TFire rest => rest | _ => [] end.

Definition wheel_reachable (w : wheel P) : Prop := steps wheel_step wheel_init w.
End Wheel.

(** ** Facts about the heap *)

Section HeapFacts.
Context {P : Type} `{!PrioQueue P, !PrioQueueLaws P}.

Definition in_order (l : list TimerNode) : Prop := StronglySorted (λ a b, deadline a ≤ deadline b) l.

Lemma top_minimal p n : pq_top p = Some n → ∀ m, m ∈ pq_nodes p → deadline n ≤ deadline m.
Proof.
  intros E m Hm. destruct (pq_top_some p n E) as [_ Hf]. rewrite Forall_forall in Hf.
  specialize (Hf m Hm). unfold node_lt in Hf. lia.
Qed.

Lemma next_deadline_le p m : m ∈ pq_nodes p → next_deadline p ≤ deadline m.
Proof.
  intros Hm. unfold next_deadline. destruct (pq_top p) as [n|] eqn:E; [by eapply top_minimal|].
  rewrite (pq_top_none p E) in Hm. by apply elem_of_nil in Hm.
Qed.

Lemma expire_loop_spec fuel p now acc :
  (pq_size p ≤ fuel)%nat → in_order acc → (∀ a m, a ∈ acc → m ∈ pq_nodes p → deadline a ≤ deadline m) →
  ∃ p' ex, expire_loop fuel p now acc = (p', acc ++ ex) ∧ pq_nodes p ≡ₚ ex ++ pq_nodes p'
    ∧ in_order (acc ++ ex) ∧ Forall (λ n, deadline n ≤ now) ex ∧ Forall (λ n, now < deadline n) (pq_nodes p').
Proof.
  revert p acc. induction fuel as [|f IH]; intros p acc Hf Ho Hle; cbn [expire_loop].
  - rewrite pq_size_nodes in Hf. destruct (pq_nodes p) eqn:E; [|simpl in Hf; lia].
    exists p, []. rewrite app_nil_r, E. done.
  - destruct (pq_top p) as [n|] eqn:E.
    2: { apply pq_top_none in E. exists p, []. rewrite app_nil_r, E. done. }
    pose proof (top_minimal p n E) as Hmin. destruct (pq_top_some p n E) as [Hp _].
    destruct (Z.leb_spec (deadline n) now) as [Hd|Hd].
    2: { exists p, []. rewrite app_nil_r. do 3 (split; [done|]). split; [done|]. apply Forall_forall.
         intros m Hm. specialize (Hmin m Hm). lia. }
    destruct (IH (pq_pop p) (acc ++ [n])) as (p' & ex & E' & Hp' & Ho' & Hex & Hrest).
    + rewrite pq_size_nodes in *. apply Permutation_length in Hp. simpl in Hp. lia.
    + apply StronglySorted_app_2; [|done|by repeat constructor]. intros a b Ha ->%list_elem_of_singleton.
      apply Hle; [done|]. rewrite Hp. apply list_elem_of_here.
    + intros a m [Ha| ->%list_elem_of_singleton]%elem_of_app Hm.
      * apply Hle; [done|]. rewrite Hp. by apply list_elem_of_further.
      * apply Hmin. rewrite Hp. by apply list_elem_of_further.
    + exists p', (n :: ex). rewrite <- app_assoc in E', Ho'. split; [done|].
      split; [by rewrite Hp, Hp'|]. split; [done|]. split; [by constructor|done].
Qed.

Lemma expire_spec p now p' ex :
  expire p now = (p', ex) →
  pq_nodes p ≡ₚ ex ++ pq_nodes p' ∧ in_order ex ∧ Forall (λ n, deadline n ≤ now) ex
  ∧ Forall (λ n, now < deadline n) (pq_nodes p').
Proof.
  unfold expire. intros E. destruct (expire_loop_spec (pq_size p) p now []) as (p2 & ex2 & E2 & ? & ? & ? & ?);
    [done|constructor|by intros a m ?%elem_of_nil|].
  rewrite E in E2. injection E2 as -> ->. done.
Qed.

(** The wheel asks for a wake-up exactly when the earliest deadline moved. *)
Lemma wheel_insert_spec p node p' nw :
  wheel_insert p node = (p', nw) →
  pq_nodes p' ≡ₚ node :: pq_nodes p ∧ nw = bool_decide (deadline node < next_deadline p).
Proof.
  unfold wheel_insert. intros [= <- <-]. pose proof (pq_push_nodes p node) as Hp. split; [done|].
  destruct (pq_top (pq_push p node)) as [n|] eqn:E.
  2: { apply pq_top_none in E. rewrite E in Hp. by apply Permutation_nil_cons in Hp. }
  pose proof (top_minimal _ n E) as Hmin. destruct (pq_top_some _ n E) as [Hn _].
  assert (n ∈ node :: pq_nodes p) as Hin by (rewrite <- Hp, Hn; apply list_elem_of_here).
  assert (deadline n ≤ deadline node) by (apply Hmin; rewrite Hp; apply list_elem_of_here).
  apply elem_of_cons in Hin as [->|Hin].
  - destruct (Z.ltb_spec (deadline node) (next_deadline p)); symmetry; [by apply bool_decide_eq_true|].
    apply bool_decide_eq_false. lia.
  - pose proof (next_deadline_le p n Hin). assert (deadline n <? next_deadline p = false) as -> by lia.
    symmetry. apply bool_decide_eq_false. lia.
Qed.
End HeapFacts.

(** ** Facts about the timer thread *)

Section WheelFacts.
Context {P : Type} `{!PrioQueue P, !PrioQueueLaws P}.

(** The wait of the thread ends no later than [d] time, on its own. *)
Definition bounded_by (until : option Z) (n : TimerNode) : Prop :=
  deadline n < TimePoint_max → ∃ d, until = Some d ∧ d ≤ deadline n.

Definition wake_coming (w : wheel P) : Prop := signalled w = true ∨ ∃ i, notifying w i = true.

Record wheel_inv (w : wheel P) : Prop := {
  wi_account : inserted w ≡ₚ fired w ++ pq_nodes (heap w);
  wi_fired : Forall (λ n, deadline n ≤ clock w) (fired w);
  wi_delivered : fired w = (delivered w).*1 ++ in_delivery (thread w);
  wi_how : Forall (λ e, ∃ get_handle, e.2 = fire_offline get_handle e.1) (delivered w);
  wi_sleep : ∀ u, thread w = TWait u → wake_coming w ∨ ∀ n, n ∈ pq_nodes (heap w) → bounded_by u n
}.

Lemma sleep_until_bound (h : P) n : n ∈ pq_nodes h → bounded_by (sleep_until h) n.
Proof.
  intros Hn _. unfold sleep_until. destruct (pq_top h) as [t|] eqn:E.
  - exists (deadline t). split; [done|]. by eapply top_minimal.
  - rewrite (pq_top_none h E) in Hn. by apply elem_of_nil in Hn.
Qed.

(** A node that does not move the earliest deadline is already covered. *)
Lemma insert_bound u (h : P) node :
  (∀ n, n ∈ pq_nodes h → bounded_by u n) → ¬ deadline node < next_deadline h → bounded_by u node.
Proof.
  intros Hb Hn Hm. unfold next_deadline in Hn. destruct (pq_top h) as [t|] eqn:E; [|lia].
  destruct (pq_top_some h t E) as [Hp _].
  destruct (Hb t) as (d & -> & ?); [rewrite Hp; apply list_elem_of_here|lia|].
  exists d. split; [done|lia].
Qed.

Lemma wheel_step_inv w w' : wheel_inv w → wheel_step w w' → wheel_inv w'.
Proof.
  intros [Ha Hf Hd Hh Hs] Hst. destruct Hst as [w t Ht|w E _|w E _|w h ex E Ex|w n rest g E|w E|w E|w d E _|w d E _|w d E|w i node h nw Hi E|w i Hi|w E|w E].
  - split; [done| |done..]. eapply Forall_impl; [exact Hf|]. simpl. lia.
  - rewrite E in Hd. by split.
  - rewrite E in Hd. by split.
  - rewrite E in Hd. simpl in Hd. rewrite app_nil_r in Hd. destruct (expire_spec _ _ _ _ Ex) as (Hp & _ & Hdl & _).
    split; simpl; [|by apply Forall_app|by rewrite Hd|done|done]. by rewrite <- app_assoc, <- Hp.
  - rewrite E in Hd. simpl in Hd. split; simpl; try done.
    + by rewrite Hd, fmap_app, <- app_assoc.
    + apply Forall_app. split; [done|]. constructor; [by exists g|constructor].
  - rewrite E in Hd. by split.
  - rewrite E in Hd. split; [done..|]. simpl. intros u [= <-]. right. intros n. apply sleep_until_bound.
  - rewrite E in Hd. by split.
  - rewrite E in Hd. by split.
  - rewrite E in Hd. by split.
  - destruct (wheel_insert_spec _ _ _ _ E) as [Hp ->]. split; [|done..|].
    + simpl. rewrite Hp, Ha. by rewrite <- Permutation_cons_append, Permutation_middle.
    + simpl. intros u Eu. unfold wake_coming. simpl.
      destruct (decide (deadline node < next_deadline (heap w))) as [Hlt|Hge].
      { left. right. exists i. rewrite fn_lookup_insert. by apply bool_decide_eq_true. }
      destruct (Hs u Eu) as [[Hsig|[j Hj]]|Hb]; [by left; left| |].
      * left. right. exists j. rewrite fn_lookup_insert_ne; [done|]. intros ->. congruence.
      * right. intros n Hn. rewrite Hp in Hn. apply elem_of_cons in Hn as [->|Hn]; [by eapply insert_bound|by apply Hb].
  - split; [done..|]. simpl. intros u Eu. left. left. simpl. rewrite Eu. by rewrite orb_true_r.
  - split; [done..|]. exact Hs.
  - split; [done..|]. simpl. intros u Eu. left. left. simpl. rewrite Eu. by rewrite orb_true_r.
Qed.

Lemma wheel_reachable_inv w : wheel_reachable w → wheel_inv w.
Proof.
  apply steps_invariant; [|intros a b; apply wheel_step_inv].
  split; simpl; [by rewrite pq_empty_nodes|constructor|done|constructor|done].
Qed.
End WheelFacts.

(** ** An implementation: insertion into a sorted list *)

Fixpoint sorted_insert (n : TimerNode) (l : list TimerNode) : list TimerNode :=
  match l with
  | [] => [n]
  | m :: l' => if deadline n <? deadline m then n :: l else m :: sorted_insert n l'
  end.

Lemma sorted_insert_perm n l : sorted_insert n l ≡ₚ n :: l.
Proof.
  induction l as [|m l IH]; [done|]. simpl. destruct (_ <? _); [done|]. rewrite IH. apply Permutation_swap.
Qed.

Lemma sorted_insert_order n l : in_order l → in_order (sorted_insert n l).
Proof.
  induction l as [|m l IH]; intros Hs; simpl; [by repeat constructor|]. inversion Hs as [|? ? Hs' Hm]; subst.
  destruct (Z.ltb_spec (deadline n) (deadline m)).
  - constructor; [done|]. constructor; [lia|]. eapply Forall_impl; [exact Hm|]. simpl. lia.
  - constructor; [by apply IH|]. rewrite sorted_insert_perm. constructor; [lia|done].
Qed.

Definition sorted_list : Type := { l : list TimerNode | in_order l }.

Lemma tail_in_order l : in_order l → in_order (tail l).
Proof. intros Hs. destruct Hs; [constructor|done]. Qed.

#[export] Instance sorted_prio : PrioQueue sorted_list := {
  pq_empty := exist _ [] (SSorted_nil _);
  pq_push p n := exist _ (sorted_insert n (proj1_sig p)) (sorted_insert_order n _ (proj2_sig p));
  pq_top p := head (proj1_sig p);
  pq_pop p := exist _ (tail (proj1_sig p)) (tail_in_order _ (proj2_sig p));
  pq_size p := length (proj1_sig p)
}.

#[export, program] Instance sorted_prio_laws : PrioQueueLaws sorted_list := { pq_nodes p := proj1_sig p }.
Next Obligation. done. Qed.
Next Obligation. intros p n. apply sorted_insert_perm. Qed.
Next Obligation. done. Qed.
Next Obligation. intros [[|m l] Hs]; simpl; done. Qed.
Next Obligation.
  intros [[|m l] Hs] n; simpl; [done|]. intros [= <-]. split; [done|]. inversion Hs as [|? ? _ Hm]; subst.
  unfold node_lt. constructor; [lia|]. eapply Forall_impl; [exact Hm|]. simpl. lia.
Qed.

(** ** Properties *)

(** [expire] returns exactly the nodes whose deadline has passed, in order
    of their deadlines, and keeps exactly the others. *)
Theorem timer_expire_exact {P : Type} `{!PrioQueue P, !PrioQueueLaws P} (pending p' : P) (now : Z) (ex : list TimerNode) :
  expire pending now = (p', ex) →
  ex ≡ₚ filter (λ n, deadline n ≤ now) (pq_nodes pending)
  ∧ pq_nodes p' ≡ₚ filter (λ n, ¬ deadline n ≤ now) (pq_nodes pending)
  ∧ StronglySorted (λ a b, deadline a ≤ deadline b) ex.
Proof.
  intros (Hp & Ho & Hd & Hr)%expire_spec. split; [|split; [|done]].
  - rewrite Hp, filter_app, (list_filter_all _ ex), (list_filter_none _ (pq_nodes p')), app_nil_r; [done|..];
      (eapply Forall_impl; [done|]); simpl; lia.
  - rewrite Hp, filter_app, (list_filter_none _ ex), (list_filter_all _ (pq_nodes p')); [done|..];
      (eapply Forall_impl; [done|]); simpl; lia.
Qed.

(** C15: the global timer thread loses no timer and fires none early: in every
    reachable state the inserted nodes are the ones taken out and the pending
    ones, every node taken out has a deadline that has passed, and has been
    delivered or is about to be, in that order: its callback was run, or its
    coroutine was pushed to the worker the registry knew at that moment, or
    dropped when it knew none.  When the thread waits, for each pending node
    either its wait ends by that node's deadline or a wake-up is on its way. *)
Theorem timer_thread_never_oversleeps {P : Type} `{!PrioQueue P, !PrioQueueLaws P} (w : wheel P) :
  wheel_reachable w →
  inserted w ≡ₚ fired w ++ pq_nodes (heap w)
  ∧ Forall (λ n, deadline n ≤ clock w) (fired w)
  ∧ (∀ u n, thread w = TWait u → n ∈ pq_nodes (heap w) → deadline n < TimePoint_max →
      (signalled w = true ∨ ∃ i, notifying w i = true) ∨ ∃ d, u = Some d ∧ d ≤ deadline n)
  ∧ fired w = (delivered w).*1 ++ in_delivery (thread w)
  ∧ Forall (λ e, ∃ get_handle, e.2 = fire_offline get_handle e.1) (delivered w).
Proof.
  intros [Ha Hf Hd Hh Hs]%wheel_reachable_inv. split; [done|]. split; [done|]. split; [|done]. intros u n Eu Hn Hm.
  destruct (Hs u Eu) as [?|Hb]; [by left|right]. by apply Hb.
Qed.

(** Stopping the timer thread can hang.  [stop_global_timer_thread] sets
    the flag and signals without taking the mutex: when the thread has read
    the flag but does not wait yet, the signal is lost, and with an empty heap
    the thread then waits with no deadline while the stopper joins it. *)
Theorem timer_stop_signal_lost :
  ∃ w : wheel sorted_list, wheel_reachable w ∧ stop w = true ∧ stopper w = StopJoin
    ∧ thread w = TWait None ∧ signalled w = false ∧ (∀ i, notifying w i = false) ∧ pq_nodes (heap w) = [].
Proof.
  eexists. split.
  { unfold wheel_reachable. eapply steps_trans; [apply steps_once; apply check_go; reflexivity|].
    eapply steps_trans; [apply steps_once; eapply expire_now; reflexivity|].
    eapply steps_trans; [apply steps_once; eapply fire_end; reflexivity|].
    eapply steps_trans; [apply steps_once; eapply stop_set; reflexivity|].
    eapply steps_trans; [apply steps_once; eapply stop_notify; reflexivity|].
    apply steps_once. apply sleep. reflexivity. }
  simpl. done.
Qed.

Definition sample_timers : sorted_list :=
  pq_push (pq_push (pq_push pq_empty (sleep_node 30)) (sleep_node 10)) (mkTimer 20 2 0 5 (Some 9)).

Lemma timer_expire_exact_witness :
  (expire sample_timers 20).2 ≡ₚ [sleep_node 10; mkTimer 20 2 0 5 (Some 9)].
Proof.
  destruct (expire sample_timers 20) as [p' ex] eqn:E.
  destruct (timer_expire_exact sample_timers p' 20 ex E) as [Hp _]. exact Hp.
Defined.

Lemma timer_thread_never_oversleeps_witness :
  ∃ w : wheel sorted_list, thread w = TWait (Some 50) ∧ inserted w ≡ₚ fired w ++ pq_nodes (heap w) ∧ inserted w ≠ [].
Proof.
  eexists. refine (_ : _ ∧ _ ∧ _). split; [|split].
  2: { refine (proj1 (timer_thread_never_oversleeps _ _)). unfold wheel_reachable.
       eapply steps_trans; [apply steps_once; eapply (insert _ 0%nat (sleep_node 50)); reflexivity|].
       eapply steps_trans; [apply steps_once; apply check_go; reflexivity|].
       eapply steps_trans; [apply steps_once; eapply expire_now; reflexivity|].
    eapply steps_trans; [apply steps_once; eapply fire_end; reflexivity|].
       apply steps_once. apply sleep. reflexivity. }
  - reflexivity.
  - discriminate.
Defined.
