(* ===== verification/ChaseLev.v ===== *)
(** The work-stealing deque ([chase_lev_deque.h], [work_stealing_deque.h]): one
    owner that pushes and pops at the bottom and any number of thieves that
    steal at the top, one step per access of [top_], [bottom_], [array_] or a
    slot.  Arrays live in a heap, because [push] deletes the old array when it
    grows; a thief that still holds its address reads whatever is there, any
    value, and may go on to advance [top_].  Items are copied when moved, as [WorkItem]s are.  The indices are
    [int64_t]s kept as [Z]: they are bounded by the number of pushes. *)
From S2P Require Import Prelude PoolLists.

Section Deque.
Context {T : Type} `{!Inhabited T}.

(** ** [CircularArray] *)

Record CircularArray := mkArray { a_capacity : Z; a_items : list T }.

Definition new_array (capacity : Z) : CircularArray := mkArray capacity (replicate (Z.to_nat capacity) inhabitant).
(** Slots are only accessed at indices from 0 on, where the cast to [size_t] is
    the identity. *)
Definition a_slot (a : CircularArray) (i : Z) : nat := Z.to_nat (i mod a_capacity a).
Definition a_load (a : CircularArray) (i : Z) : option T := a_items a !! a_slot a i.
Definition a_store (a : CircularArray) (i : Z) (x : T) : CircularArray :=
  mkArray (a_capacity a) (<[a_slot a i := x]> (a_items a)).

(** [new_array->store(i, take(i))] for [i] in [idxs]. *)
Fixpoint copy_items (old new : CircularArray) (idxs : list Z) : CircularArray :=
  match idxs with
  | [] => new
  | i :: rest => copy_items old (match a_load old i with Some x => a_store new i x | None => new end) rest
  end.

Definition grow_array (a : CircularArray) (top bottom : Z) : CircularArray :=
  copy_items a (new_array (a_capacity a * 2)) (seqZ top (bottom - top)).

(** ** The machine *)

Inductive Owner :=
| OIdle
| PushTop (x : T) (b : Z)                (* about to read top_ *)
| PushCheck (x : T) (b t : Z)            (* about to compare with the capacity *)
| PushPublish (x : T) (b new : Z)        (* grown; about to store array_ *)
| PushDelete (x : T) (b old : Z)         (* about to delete the old array *)
| PushStore (x : T) (b : Z)              (* about to write the slot *)
| PushBottom (x : T) (b : Z)             (* about to store bottom_ *)
| PopStore (b : Z)                       (* about to store the decremented bottom_ *)
| PopTop (b : Z)                         (* about to read top_ *)
| PopTake (b t : Z)                      (* t <= b; about to read the slot *)
| PopCas (b : Z) (x : T)                 (* last item; about to advance top_ *)
| PopRestore (b : Z).                    (* about to restore bottom_ *)

Inductive Thief :=
| SIdle
| STop (t : Z)                           (* read top_; about to read bottom_ *)
| SArr (t : Z)                           (* t < bottom; about to read array_ *)
| SRead (t a : Z)                        (* about to read the slot *)
| SCas (t : Z) (x : T) (stale : bool).   (* about to advance top_; read from a deleted array? *)

Record deque := mkDeque {
  top_ : Z;
  bottom_ : Z;
  array_ : Z;
  arrays : gmap Z CircularArray;
  owner : Owner;
  thief : nat → Thief;
  pushed : list T;
  returned : list (option nat * T);      (* by the owner or by thief [i] *)
  garbage : list (nat * T);              (* returned by thief [i], read from a deleted array *)
  lost : list T;                         (* the items at the positions those thieves claimed *)
  deletes : nat                          (* arrays deleted so far *)
}.

Definition deque_init (capacity a : Z) : deque :=
  mkDeque 0 0 a {[a := new_array capacity]} OIdle (λ _, SIdle) [] [] [] [] 0.

Definition size (s : deque) : Z := if top_ s <? bottom_ s then bottom_ s - top_ s else 0.
Definition empty (s : deque) : bool := size s =? 0.

Definition set_owner (s : deque) o := mkDeque (top_ s) (bottom_ s) (array_ s) (arrays s) o (thief s) (pushed s) (returned s) (garbage s) (lost s) (deletes s).
Definition set_thief (s : deque) i th :=
  mkDeque (top_ s) (bottom_ s) (array_ s) (arrays s) (owner s) (<[i := th]> (thief s)) (pushed s) (returned s) (garbage s) (lost s) (deletes s).
Definition set_top (s : deque) t := mkDeque t (bottom_ s) (array_ s) (arrays s) (owner s) (thief s) (pushed s) (returned s) (garbage s) (lost s) (deletes s).
Definition set_bottom (s : deque) b := mkDeque (top_ s) b (array_ s) (arrays s) (owner s) (thief s) (pushed s) (returned s) (garbage s) (lost s) (deletes s).
Definition set_arrays (s : deque) a m := mkDeque (top_ s) (bottom_ s) a m (owner s) (thief s) (pushed s) (returned s) (garbage s) (lost s) (deletes s).
Definition log_push (s : deque) x :=
  mkDeque (top_ s) (bottom_ s) (array_ s) (arrays s) (owner s) (thief s) (pushed s ++ [x]) (returned s) (garbage s) (lost s) (deletes s).
Definition log_return (s : deque) w x :=
  mkDeque (top_ s) (bottom_ s) (array_ s) (arrays s) (owner s) (thief s) (pushed s) (returned s ++ [(w, x)]) (garbage s) (lost s) (deletes s).

Definition log_garbage (s : deque) i y x :=
  mkDeque (top_ s) (bottom_ s) (array_ s) (arrays s) (owner s) (thief s) (pushed s) (returned s)
    (garbage s ++ [(i, y)]) (lost s ++ [x]) (deletes s).
Definition log_delete (s : deque) :=
  mkDeque (top_ s) (bottom_ s) (array_ s) (arrays s) (owner s) (thief s) (pushed s) (returned s)
    (garbage s) (lost s) (S (deletes s)).

(** A slot of an array that still exists. *)
Definition read_slot (s : deque) (a i : Z) : option T := A ← arrays s !! a; a_load A i.

Inductive dstep : deque → deque → Prop :=
(* push *)
| push_call s x : owner s = OIdle → dstep s (set_owner s (PushTop x (bottom_ s)))
| push_top s x b : owner s = PushTop x b → dstep s (set_owner s (PushCheck x b (top_ s)))
| push_fits s x b t A : owner s = PushCheck x b t → arrays s !! array_ s = Some A → b - t < a_capacity A →
    dstep s (set_owner s (PushStore x b))
| push_grow s x b t A new : owner s = PushCheck x b t → arrays s !! array_ s = Some A → a_capacity A ≤ b - t →
    arrays s !! new = None →
    dstep s (set_owner (set_arrays s (array_ s) (<[new := grow_array A t b]> (arrays s))) (PushPublish x b new))
| push_publish s x b new : owner s = PushPublish x b new →
    dstep s (set_owner (set_arrays s new (arrays s)) (PushDelete x b (array_ s)))
| push_delete s x b old : owner s = PushDelete x b old →
    dstep s (set_owner (log_delete (set_arrays s (array_ s) (delete old (arrays s)))) (PushStore x b))
| push_store s x b A : owner s = PushStore x b → arrays s !! array_ s = Some A →
    dstep s (set_owner (set_arrays s (array_ s) (<[array_ s := a_store A b x]> (arrays s))) (PushBottom x b))
| push_done s x b : owner s = PushBottom x b → dstep s (set_owner (log_push (set_bottom s (b + 1)) x) OIdle)
(* pop *)
| pop_call s : owner s = OIdle → dstep s (set_owner s (PopStore (bottom_ s - 1)))
| pop_store s b : owner s = PopStore b → dstep s (set_owner (set_bottom s b) (PopTop b))
| pop_top s b : owner s = PopTop b →
    dstep s (set_owner s (if top_ s <=? b then PopTake b (top_ s) else PopRestore b))
| pop_take s b t x : owner s = PopTake b t → t < b → read_slot s (array_ s) b = Some x →
    dstep s (set_owner (log_return s None x) OIdle)
| pop_take_last s b t x : owner s = PopTake b t → t = b → read_slot s (array_ s) b = Some x →
    dstep s (set_owner s (PopCas b x))
| pop_cas_ok s b x : owner s = PopCas b x → top_ s = b →
    dstep s (set_owner (log_return (set_top s (b + 1)) None x) (PopRestore b))
| pop_cas_fail s b x : owner s = PopCas b x → top_ s ≠ b → dstep s (set_owner s (PopRestore b))
| pop_restore s b : owner s = PopRestore b → dstep s (set_owner (set_bottom s (b + 1)) OIdle)
(* steal *)
| steal_top s i : thief s i = SIdle → dstep s (set_thief s i (STop (top_ s)))
| steal_empty s i t : thief s i = STop t → bottom_ s ≤ t → dstep s (set_thief s i SIdle)
| steal_bottom s i t : thief s i = STop t → t < bottom_ s → dstep s (set_thief s i (SArr t))
| steal_array s i t : thief s i = SArr t → dstep s (set_thief s i (SRead t (array_ s)))
| steal_read s i t a x : thief s i = SRead t a → read_slot s a t = Some x → dstep s (set_thief s i (SCas t x false))
| steal_read_deleted s i t a y : thief s i = SRead t a → arrays s !! a = None → dstep s (set_thief s i (SCas t y true))
| steal_ok s i t x : thief s i = SCas t x false → top_ s = t →
    dstep s (set_thief (log_return (set_top s (t + 1)) (Some i) x) i SIdle)
| steal_garbage s i t y x : thief s i = SCas t y true → top_ s = t → read_slot s (array_ s) t = Some x →
    dstep s (set_thief (log_garbage (set_top s (t + 1)) i y x) i SIdle)
| steal_fail s i t x stale : thief s i = SCas t x stale → top_ s ≠ t → dstep s (set_thief s i SIdle).

Definition deque_reachable (capacity a : Z) (s : deque) : Prop := steps dstep (deque_init capacity a) s.

(** ** The abstract deque *)

(** Where the deque ends: a pop that has lowered [bottom_] but not claimed the
    item yet still leaves it in the deque. *)
Definition logical_bottom (s : deque) : Z :=
  match owner s with
  | PopTop b | PopCas b _ | PopRestore b => b + 1
  | PopTake b t => if t <? b then b else b + 1
  | _ => bottom_ s
  end.

Definition item_at (s : deque) (i : Z) : option T := read_slot s (array_ s) i.

Definition abs_items (s : deque) (lo hi : Z) : list T := omap (item_at s) (seqZ lo (hi - lo)).

(** The items of the deque, the oldest first. *)
Definition abs (s : deque) : list T := abs_items s (top_ s) (logical_bottom s).

(** The item the owner has claimed and not read yet. *)
Definition in_hand (s : deque) : list T :=
  match owner s with
  | PopTake b t => if t <? b then option_list (item_at s b) else []
  | _ => []
  end.
End Deque.
Arguments deque T : clear implicits.
Arguments CircularArray T : clear implicits.

(** ** Invariant *)

Section Invariant.
Context {T : Type} `{!Inhabited T}.
Implicit Types (s : deque T) (A : CircularArray T).

(** An array besides the current one, while [push] replaces it. *)
Definition extra (o : Owner (T:=T)) : option Z :=
  match o with PushPublish _ _ a | PushDelete _ _ a => Some a | _ => None end.

Definition has_room s (a b : Z) : Prop := ∃ A, arrays s !! a = Some A ∧ b - top_ s < a_capacity A.

(** What the local variables of the owner promise. *)
Definition owner_ok s : Prop :=
  match owner s with
  | OIdle => True
  | PushTop _ b => b = bottom_ s
  | PushCheck _ b t => b = bottom_ s ∧ 0 ≤ t ≤ top_ s ∧ ∀ A, arrays s !! array_ s = Some A → b - t ≤ a_capacity A
  | PushPublish _ b new => b = bottom_ s ∧ new ≠ array_ s ∧ has_room s new b
  | PushDelete _ b old => b = bottom_ s ∧ old ≠ array_ s ∧ has_room s (array_ s) b
  | PushStore _ b => b = bottom_ s ∧ has_room s (array_ s) b
  | PushBottom x b => b = bottom_ s ∧ has_room s (array_ s) b ∧ item_at s b = Some x
  | PopStore b => b = bottom_ s - 1
  | PopTop b => bottom_ s = b
  | PopTake b t => bottom_ s = b ∧ 0 ≤ t ≤ b ∧ t ≤ top_ s
  | PopCas b x => bottom_ s = b ∧ 0 ≤ b ≤ top_ s ∧ (top_ s = b → item_at s b = Some x)
  | PopRestore b => bottom_ s = b ∧ top_ s = b + 1
  end.

(** A thief that can still win holds the item at the top. *)
Definition thief_ok s (th : Thief (T:=T)) : Prop :=
  match th with
  | SIdle => True
  | STop t => t ≤ top_ s
  | SArr t | SRead t _ => t ≤ top_ s ∧ (t = top_ s → t < logical_bottom s)
  | SCas t x stale => t ≤ top_ s ∧ (t = top_ s → t < logical_bottom s ∧ (stale = false → item_at s t = Some x))
  end.

Definition array_ok A : Prop := 0 < a_capacity A ∧ length (a_items A) = Z.to_nat (a_capacity A).

Record dinv s : Prop := {
  di_arr : is_Some (arrays s !! array_ s);
  di_wf : ∀ a A, arrays s !! a = Some A → array_ok A;
  di_range : 0 ≤ top_ s ≤ logical_bottom s;
  di_cap : ∀ a A, arrays s !! a = Some A → logical_bottom s - top_ s ≤ a_capacity A;
  di_agree : ∀ a A i, arrays s !! a = Some A → top_ s ≤ i < logical_bottom s → a_load A i = item_at s i;
  di_only : ∀ a, is_Some (arrays s !! a) → a = array_ s ∨ extra (owner s) = Some a;
  di_owner : owner_ok s;
  di_thief : ∀ i, thief_ok s (thief s i);
  di_account : pushed s ≡ₚ (returned s).*2 ++ lost s ++ in_hand s ++ abs s
}.

(** ** Arrays *)

Lemma slot_lt_len A i : array_ok A → (a_slot A i < length (a_items A))%nat.
Proof. intros [Hc Hl]. unfold a_slot. rewrite Hl. pose proof (Z.mod_pos_bound i (a_capacity A) Hc). lia. Qed.

Lemma load_some A i : array_ok A → is_Some (a_load A i).
Proof. intros H1. apply lookup_lt_is_Some_2. by apply slot_lt_len. Qed.

Lemma store_ok A i x : array_ok A → array_ok (a_store A i x).
Proof. intros [Hc Hl]. split; [done|]. simpl. by rewrite length_insert. Qed.

Lemma load_store_eq A i x : array_ok A → a_load (a_store A i x) i = Some x.
Proof. intros H1. unfold a_load. simpl. apply list_lookup_insert_eq. by apply slot_lt_len. Qed.

Lemma load_store_ne A i j x : array_ok A → i ≠ j → Z.abs (i - j) < a_capacity A → a_load (a_store A i x) j = a_load A j.
Proof.
  intros [Hc _] Hne Hd. unfold a_load. simpl. apply list_lookup_insert_ne. unfold a_slot. simpl.
  pose proof (Z.mod_pos_bound i (a_capacity A) Hc). pose proof (Z.mod_pos_bound j (a_capacity A) Hc).
  intros E. assert (i mod a_capacity A = j mod a_capacity A) as Em by lia.
  rewrite (Z.div_mod i (a_capacity A)), (Z.div_mod j (a_capacity A)), Em in Hne, Hd by lia.
  assert (i / a_capacity A ≠ j / a_capacity A) by (intros Eq; rewrite Eq in Hne; lia). nia.
Qed.

Lemma copy_items_spec A (new : CircularArray T) lo n :
  array_ok A → array_ok new → Z.of_nat n ≤ a_capacity new →
  let A' := copy_items A new (seqZ lo (Z.of_nat n)) in
  array_ok A' ∧ a_capacity A' = a_capacity new
  ∧ (∀ i, lo ≤ i < lo + Z.of_nat n → a_load A' i = a_load A i)
  ∧ (∀ i, lo + Z.of_nat n - a_capacity new ≤ i < lo → a_load A' i = a_load new i).
Proof.
  revert lo new. induction n as [|n IH]; intros lo new HA Hnew Hn.
  { cbn. split; [done|]. split; [done|]. split; [lia|done]. }
  rewrite seqZ_cons by lia. replace (Z.pred (Z.of_nat (S n))) with (Z.of_nat n) by lia. cbn [copy_items].
  destruct (load_some A lo HA) as [x Hx]. rewrite Hx.
  destruct (IH (Z.succ lo) (a_store new lo x)) as (H1 & H2 & H3 & H4); [done|by apply store_ok|simpl; lia|].
  split; [done|]. split; [done|]. simpl in H4. split.
  - intros i Hi. destruct (decide (i = lo)) as [->|]; [|apply H3; lia].
    rewrite H4 by lia. rewrite load_store_eq by done. done.
  - intros i Hi. rewrite H4 by lia. apply load_store_ne; [done|lia|lia].
Qed.

Lemma new_array_ok c : 0 < c → array_ok (new_array (T:=T) c).
Proof. intros Hc. split; [done|]. simpl. by rewrite length_replicate. Qed.

Lemma grow_spec A lo hi :
  array_ok A → lo ≤ hi → hi - lo ≤ a_capacity A * 2 →
  array_ok (grow_array A lo hi) ∧ a_capacity (grow_array A lo hi) = a_capacity A * 2
  ∧ ∀ i, lo ≤ i < hi → a_load (grow_array A lo hi) i = a_load A i.
Proof.
  intros HA Hle Hc. unfold grow_array. destruct HA as [Hp Hl].
  destruct (copy_items_spec A (new_array (a_capacity A * 2)) lo (Z.to_nat (hi - lo))) as (H1 & H2 & H3 & _);
    [done|apply new_array_ok; lia|simpl; lia|].
  replace (Z.of_nat (Z.to_nat (hi - lo))) with (hi - lo) in * by lia.
  split; [done|]. split; [done|]. intros i Hi. apply H3. lia.
Qed.

(** ** The abstract contents *)

Lemma abs_items_ext s s' lo hi : (∀ i, lo ≤ i < hi → item_at s' i = item_at s i) → abs_items s' lo hi = abs_items s lo hi.
Proof.
  intros H1. unfold abs_items.
  assert (∀ i, i ∈ seqZ lo (hi - lo) → item_at s' i = item_at s i) as H2 by (intros i Hi; apply H1; apply elem_of_seqZ in Hi; lia).
  clear H1. induction (seqZ lo (hi - lo)) as [|i l IH]; [done|]. cbn [omap list_omap]. rewrite H2 by apply list_elem_of_here.
  rewrite IH; [done|]. intros j Hj. apply H2. by apply list_elem_of_further.
Qed.

Lemma abs_items_cons s lo hi x : lo < hi → item_at s lo = Some x → abs_items s lo hi = x :: abs_items s (lo + 1) hi.
Proof.
  intros Hlt E. unfold abs_items. rewrite seqZ_cons by lia. cbn [omap list_omap]. rewrite E.
  by replace (Z.pred (hi - lo)) with (hi - (lo + 1)) by lia.
Qed.

Lemma abs_items_snoc s lo hi x : lo ≤ hi → item_at s hi = Some x → abs_items s lo (hi + 1) = abs_items s lo hi ++ [x].
Proof.
  intros Hle E. unfold abs_items. replace (hi + 1 - lo) with ((hi - lo) + 1) by lia. rewrite seqZ_app, omap_app by lia.
  f_equal. replace (lo + (hi - lo)) with hi by lia. change 1 with (Z.succ 0). rewrite seqZ_cons by lia. cbn. by rewrite E.
Qed.

Lemma abs_items_nil s lo hi : hi ≤ lo → abs_items s lo hi = [].
Proof. intros Hle. unfold abs_items. by rewrite seqZ_nil by lia. Qed.

(** ** Thieves *)

Lemma thief_ok_mono s s' th :
  top_ s' = top_ s →
  (top_ s < logical_bottom s → top_ s < logical_bottom s' ∧ item_at s' (top_ s) = item_at s (top_ s)) →
  thief_ok s th → thief_ok s' th.
Proof.
  intros Et Hb. destruct th as [|t|t|t a|t x st]; simpl; rewrite ?Et; [done|done|..].
  - intros [? H1]. split; [done|]. intros ->. apply Hb. by apply H1.
  - intros [? H1]. split; [done|]. intros ->. apply Hb. by apply H1.
  - intros [? H1]. split; [done|]. intros ->. destruct (H1 eq_refl) as [Hlt Hx]. destruct (Hb Hlt) as [? ->]. done.
Qed.

Lemma thief_ok_advance s s' th : top_ s < top_ s' → thief_ok s th → thief_ok s' th.
Proof. intros Ht. destruct th as [|t|t|t a|t x st]; simpl; try (intros [? ?]); try done; try lia; split; lia. Qed.

Lemma item_some s i : dinv s → is_Some (item_at s i).
Proof.
  intros Hi. destruct (di_arr s Hi) as [A HA]. unfold item_at, read_slot. rewrite HA. simpl.
  apply load_some. by apply (di_wf s Hi _ _ HA).
Qed.

(** ** Preservation *)

(** Steps of the owner that touch nothing shared. *)
Lemma inv_set_owner s o :
  dinv s → logical_bottom (set_owner s o) = logical_bottom s → in_hand (set_owner s o) = in_hand s →
  extra o = extra (owner s) → owner_ok (set_owner s o) → dinv (set_owner s o).
Proof.
  intros [H1 H2 H3 H4 H5 H6 H7 H8 H9] El Eh Ex Ho. split; rewrite ?El, ?Eh; try done.
  - intros a Ha. simpl. rewrite Ex. by apply H6.
  - intros i. apply (thief_ok_mono s); [done|by rewrite El|apply H8].
  - unfold abs. rewrite El. exact H9.
Qed.

(** Steps of a thief that touch nothing shared. *)
Lemma inv_set_thief s i th : dinv s → thief_ok s th → dinv (set_thief s i th).
Proof.
  intros [H1 H2 H3 H4 H5 H6 H7 H8 H9] Hth. split; try done. intros j. simpl.
  apply (thief_ok_mono s); [done|done|]. destruct (decide (j = i)) as [->|].
  - by rewrite fn_lookup_insert.
  - by rewrite fn_lookup_insert_ne.
Qed.

(** Steps of [push] on the arrays that keep the items in view. *)
Lemma inv_arrays s o a m :
  dinv s → let s' := set_owner (set_arrays s a m) o in
  logical_bottom s = bottom_ s → logical_bottom s' = bottom_ s → in_hand s = [] → in_hand s' = [] →
  is_Some (m !! a) →
  (∀ b A, m !! b = Some A → array_ok A ∧ bottom_ s - top_ s ≤ a_capacity A
     ∧ ∀ i, top_ s ≤ i < bottom_ s → a_load A i = item_at s i) →
  (∀ b, is_Some (m !! b) → b = a ∨ extra o = Some b) → owner_ok s' → dinv s'.
Proof.
  intros [H1 H2 H3 H4 H5 H6 H7 H8 H9] s' El El' Eh Eh' Ha Hm Hx Ho. rewrite El in *.
  assert (∀ i, top_ s ≤ i < bottom_ s → item_at s' i = item_at s i) as Hit.
  { intros i Hi. destruct Ha as [A HA]. unfold item_at at 1, read_slot. simpl. rewrite HA. simpl.
    by apply (Hm a A HA). }
  split; rewrite ?El', ?Eh'; simpl; try done.
  - intros b A Hb. by apply (Hm b A Hb).
  - intros b A Hb. by apply (Hm b A Hb).
  - intros b A i Hb Hi. rewrite Hit by done. by apply (Hm b A Hb).
  - intros i. apply (thief_ok_mono s); [done| |apply H8]. rewrite El, El'. intros Hlt. split; [done|].
    change (top_ s') with (top_ s). apply Hit. lia.
  - rewrite H9, Eh. simpl. unfold abs. rewrite El, El'. simpl. by rewrite (abs_items_ext s s').
Qed.

Ltac owner_fields Hinv E :=
  let H7 := fresh "Hown" in
  pose proof (di_owner _ Hinv) as H7; unfold owner_ok in H7; rewrite E in H7;
  pose proof (di_range _ Hinv) as Hrange; unfold logical_bottom in Hrange; rewrite E in Hrange.

(** In these states the deque ends at [bottom_] and nothing is claimed. *)
Definition plain (o : Owner (T:=T)) : bool :=
  match o with PopTop _ | PopTake _ _ | PopCas _ _ | PopRestore _ => false | _ => true end.

Lemma plain_view s : plain (owner s) = true → logical_bottom s = bottom_ s ∧ in_hand s = [].
Proof. unfold logical_bottom, in_hand. by destruct (owner s). Qed.

Lemma step_push_grow s x b t A new :
  dinv s → owner s = PushCheck x b t → arrays s !! array_ s = Some A → a_capacity A ≤ b - t → arrays s !! new = None →
  dinv (set_owner (set_arrays s (array_ s) (<[new := grow_array A t b]> (arrays s))) (PushPublish x b new)).
Proof.
  intros Hinv E HA Hc Hn. owner_fields Hinv E. destruct Hown as (-> & Ht & Hbt). specialize (Hbt A HA).
  destruct (plain_view s) as [El Eh]; [by rewrite E|].
  pose proof (di_wf _ Hinv _ _ HA) as Hok. assert (array_ s ≠ new) as Hne by congruence. pose proof Hok as [Hpos _].
  destruct (grow_spec A t (bottom_ s) Hok) as (G1 & G2 & G3); [lia|lia|].
  apply inv_arrays; try done.
  - rewrite lookup_insert_ne by done. apply Hinv.
  - intros a B Ha. apply lookup_insert_Some in Ha as [[<- <-]|[_ Ha]].
    + split; [done|]. split; [lia|]. intros i Hi. rewrite G3 by lia. apply (di_agree _ Hinv _ _ _ HA). by rewrite El.
    + split; [by apply (di_wf _ Hinv _ _ Ha)|]. rewrite <- El. split; [by apply (di_cap _ Hinv _ _ Ha)|].
      intros i. apply (di_agree _ Hinv _ _ _ Ha).
  - intros a Ha. destruct (decide (a = new)) as [->|Hna]; [by right|left]. rewrite lookup_insert_ne in Ha by done.
    apply (di_only _ Hinv) in Ha as [->|Ha]; [done|]. by rewrite E in Ha.
  - simpl. split; [done|]. split; [done|]. eexists. simpl. rewrite lookup_insert_eq. split; [done|]. simpl. lia.
Qed.

Lemma step_push_publish s x b new :
  dinv s → owner s = PushPublish x b new → dinv (set_owner (set_arrays s new (arrays s)) (PushDelete x b (array_ s))).
Proof.
  intros Hinv E. owner_fields Hinv E. destruct Hown as (-> & Hne & A & HA & Hroom).
  destruct (plain_view s) as [El Eh]; [by rewrite E|]. apply inv_arrays; try done.
  - intros a B Ha. split; [by apply (di_wf _ Hinv _ _ Ha)|]. rewrite <- El. split; [by apply (di_cap _ Hinv _ _ Ha)|].
    intros i. apply (di_agree _ Hinv _ _ _ Ha).
  - intros a Ha. apply (di_only _ Hinv) in Ha as [->|Ha]; [by right|left]. rewrite E in Ha. by injection Ha.
  - simpl. split; [done|]. split; [done|]. by exists A.
Qed.

Lemma inv_log_delete s : dinv s → dinv (log_delete s).
Proof. intros [H1 H2 H3 H4 H5 H6 H7 H8 H9]. by split. Qed.

Lemma step_push_delete s x b old :
  dinv s → owner s = PushDelete x b old → dinv (set_owner (log_delete (set_arrays s (array_ s) (delete old (arrays s)))) (PushStore x b)).
Proof.
  intros Hinv E. owner_fields Hinv E. destruct Hown as (-> & Hne & A & HA & Hroom).
  destruct (plain_view s) as [El Eh]; [by rewrite E|]. change (dinv (log_delete (set_owner (set_arrays s (array_ s) (delete old (arrays s))) (PushStore x (bottom_ s))))).
  apply inv_log_delete. apply inv_arrays; try done.
  - rewrite lookup_delete_ne by done. by exists A.
  - intros a B Ha. apply lookup_delete_Some in Ha as [_ Ha].
    split; [by apply (di_wf _ Hinv _ _ Ha)|]. rewrite <- El. split; [by apply (di_cap _ Hinv _ _ Ha)|].
    intros i. apply (di_agree _ Hinv _ _ _ Ha).
  - intros a [B Ha]. apply lookup_delete_Some in Ha as [Hao Ha].
    destruct (di_only _ Hinv a) as [->|Hx]; [by exists B|by left|]. rewrite E in Hx. by injection Hx.
  - simpl. split; [done|]. exists A. simpl. by rewrite lookup_delete_ne.
Qed.

Lemma step_push_store s x b A :
  dinv s → owner s = PushStore x b → arrays s !! array_ s = Some A →
  dinv (set_owner (set_arrays s (array_ s) (<[array_ s := a_store A b x]> (arrays s))) (PushBottom x b)).
Proof.
  intros Hinv E HA. owner_fields Hinv E. destruct Hown as (-> & A' & HA' & Hroom). rewrite HA in HA'. injection HA' as <-.
  destruct (plain_view s) as [El Eh]; [by rewrite E|]. pose proof (di_wf _ Hinv _ _ HA) as Hok. apply inv_arrays; try done.
  - rewrite lookup_insert_eq. by eexists.
  - intros a B Ha. apply lookup_insert_Some in Ha as [[<- <-]|[Hna Ha]].
    + split; [by apply store_ok|]. simpl. split; [lia|]. intros i Hi. rewrite load_store_ne; [|done|lia|lia].
      apply (di_agree _ Hinv _ _ _ HA). by rewrite El.
    + destruct (di_only _ Hinv a) as [->|Hx]; [by exists B|done|by rewrite E in Hx].
  - intros a Ha. left. destruct (decide (a = array_ s)) as [|Hna]; [done|]. rewrite lookup_insert_ne in Ha by done.
    destruct (di_only _ Hinv a Ha) as [|Hx]; [done|by rewrite E in Hx].
  - simpl. split; [done|]. split.
    + exists (a_store A (bottom_ s) x). simpl. by rewrite lookup_insert_eq.
    + unfold item_at, read_slot. simpl. rewrite lookup_insert_eq. simpl. by apply load_store_eq.
Qed.

Lemma step_push_done s x b : dinv s → owner s = PushBottom x b → dinv (set_owner (log_push (set_bottom s (b + 1)) x) OIdle).
Proof.
  intros Hinv E. owner_fields Hinv E. destruct Hown as (-> & (A & HA & Hroom) & Hx).
  destruct (plain_view s) as [El Eh]; [by rewrite E|]. destruct Hinv as [H1 H2 H3 H4 H5 H6 H7 H8 H9].
  assert (∀ a, is_Some (arrays s !! a) → a = array_ s) as Honly
    by (intros a Ha; destruct (H6 a Ha) as [|Hx']; [done|by rewrite E in Hx']).
  split; try done; unfold logical_bottom, owner_ok; simpl.
  - lia.
  - intros a B Ha. rewrite (Honly a) in Ha by by exists B. rewrite HA in Ha. injection Ha as <-. lia.
  - intros a B i Ha Hi. rewrite (Honly a) in Ha by by exists B. rewrite HA in Ha. injection Ha as <-.
    unfold item_at, read_slot. simpl. by rewrite HA.
  - intros a Ha. left. by apply Honly.
  - intros i. apply (thief_ok_mono s); [done| |apply H8]. intros _. unfold logical_bottom. simpl. split; [lia|done].
  - unfold abs, logical_bottom. simpl. rewrite (abs_items_snoc _ _ _ x) by (done || lia).
    rewrite H9, Eh. simpl. unfold abs. rewrite El.
    change (abs_items (set_owner (log_push (set_bottom s (bottom_ s + 1)) x) OIdle) (top_ s) (bottom_ s))
      with (abs_items s (top_ s) (bottom_ s)). by rewrite !app_assoc.
Qed.

(** A state that differs in [owner] and [bottom_] only, with the same view. *)
Lemma inv_bottom s o b :
  dinv s → let s' := set_owner (set_bottom s b) o in
  logical_bottom s' = logical_bottom s → in_hand s' = in_hand s → extra o = extra (owner s) → owner_ok s' → dinv s'.
Proof.
  intros [H1 H2 H3 H4 H5 H6 H7 H8 H9] s' El Eh Ex Ho. split; rewrite ?El, ?Eh; try done.
  - intros a Ha. simpl. rewrite Ex. by apply H6.
  - intros i. apply (thief_ok_mono s); [done|by rewrite El|apply H8].
  - unfold abs. rewrite El. exact H9.
Qed.

(** The owner claims the item at [b]: thieves cannot reach it any more. *)
Lemma step_pop_claim s b :
  dinv s → owner s = PopTop b → top_ s < b → dinv (set_owner s (PopTake b (top_ s))).
Proof.
  intros Hinv E Hlt. owner_fields Hinv E. destruct (item_some s b Hinv) as [x Hx]. destruct Hinv as [H1 H2 H3 H4 H5 H6 H7 H8 H9].
  assert (logical_bottom s = b + 1) as El by (unfold logical_bottom; by rewrite E).
  assert (logical_bottom (set_owner s (PopTake b (top_ s))) = b) as El'
    by (unfold logical_bottom; simpl; by rewrite (proj2 (Z.ltb_lt _ _) Hlt)).
  assert (in_hand (set_owner s (PopTake b (top_ s))) = [x]) as Eh'.
  { unfold in_hand. simpl. rewrite (proj2 (Z.ltb_lt _ _) Hlt). change (item_at _ b) with (item_at s b). by rewrite Hx. }
  split; rewrite ?El'; simpl; try done.
  - lia.
  - intros a A Ha. specialize (H4 a A Ha). lia.
  - intros a A i Ha Hi. apply (H5 a A i Ha). lia.
  - intros a Ha. destruct (H6 a Ha) as [|Hx']; [by left|by rewrite E in Hx'].
  - unfold owner_ok. simpl. split; [done|]. lia.
  - intros i. apply (thief_ok_mono s); [done| |apply H8]. rewrite El'. done.
  - rewrite H9, Eh'. unfold abs. rewrite El, El'. simpl. unfold in_hand. rewrite E. simpl.
    rewrite (abs_items_snoc s _ _ x) by (done || lia). do 2 apply Permutation_app_head.
    by rewrite Permutation_app_comm.
Qed.

Lemma step_pop_take s b t x :
  dinv s → owner s = PopTake b t → t < b → item_at s b = Some x → dinv (set_owner (log_return s None x) OIdle).
Proof.
  intros Hinv E Hlt Hx. owner_fields Hinv E. destruct Hown as (Hb & Ht & Htop).
  destruct Hinv as [H1 H2 H3 H4 H5 H6 H7 H8 H9].
  assert (logical_bottom s = b) as El by (unfold logical_bottom; by rewrite E, (proj2 (Z.ltb_lt _ _) Hlt)).
  split; try done; unfold logical_bottom; simpl; rewrite ?Hb.
  - by rewrite <- El.
  - intros a A Ha. rewrite <- El. by apply (H4 a A Ha).
  - intros a A i Ha. rewrite <- El. apply (H5 a A i Ha).
  - intros a Ha. destruct (H6 a Ha) as [|Hx']; [by left|by rewrite E in Hx'].
  - intros i. apply (thief_ok_mono s); [done| |apply H8]. unfold logical_bottom at 2. simpl. by rewrite Hb, El.
  - rewrite H9. unfold in_hand. rewrite E, (proj2 (Z.ltb_lt _ _) Hlt), Hx. unfold abs. rewrite El.
    unfold logical_bottom. simpl. rewrite Hb, fmap_app, <- app_assoc. simpl. by rewrite !Permutation_middle.
Qed.

(** [top_] advances past the first item, which is returned. *)
Lemma inv_take_top s o th x rt gb ls :
  dinv s → item_at s (top_ s) = Some x → top_ s < logical_bottom s →
  let s' := mkDeque (top_ s + 1) (bottom_ s) (array_ s) (arrays s) o th (pushed s) rt gb ls (deletes s) in
  rt.*2 ++ ls ≡ₚ x :: (returned s).*2 ++ lost s →
  logical_bottom s' = logical_bottom s → in_hand s' = in_hand s → extra o = extra (owner s) → owner_ok s' →
  (∀ i, thief_ok s (th i)) → dinv s'.
Proof.
  intros [H1 H2 H3 H4 H5 H6 H7 H8 H9] Hx Hlt s' Hlog El Eh Ex Ho Hth. split; rewrite ?El, ?Eh; simpl; try done.
  - lia.
  - intros a A Ha. specialize (H4 a A Ha). lia.
  - intros a A i Ha Hi. apply (H5 a A i Ha). lia.
  - intros a Ha. rewrite Ex. by apply H6.
  - intros i. apply (thief_ok_advance s); [simpl; lia|apply Hth].
  - rewrite H9. unfold abs. rewrite El. simpl. rewrite (abs_items_cons s _ _ x) by done.
    change (abs_items s' (top_ s + 1) (logical_bottom s)) with (abs_items s (top_ s + 1) (logical_bottom s)).
    rewrite (app_assoc rt.*2), Hlog. simpl. rewrite <- app_assoc. by rewrite !Permutation_middle.
Qed.

Lemma inv_steal s i x rt gb ls :
  dinv s → item_at s (top_ s) = Some x → top_ s < logical_bottom s → rt.*2 ++ ls ≡ₚ x :: (returned s).*2 ++ lost s →
  dinv (mkDeque (top_ s + 1) (bottom_ s) (array_ s) (arrays s) (owner s) (<[i := SIdle]> (thief s)) (pushed s) rt gb ls (deletes s)).
Proof.
  intros Hinv Hx Hlt Hlog. apply (inv_take_top s (owner s) _ x); try done.
  - pose proof (di_owner _ Hinv) as Hown. unfold owner_ok in *. simpl. unfold has_room in *. simpl.
    pose proof (di_range _ Hinv) as Hr. unfold logical_bottom in Hr, Hlt.
    destruct (owner s) as [|y b|y b t|y b a|y b a|y b|y b|b|b|b t|b y|b]; try done; try lia.
    + destruct Hown as (-> & ? & ?). split; [done|]. split; [lia|done].
    + destruct Hown as (-> & ? & B & ? & ?). split; [done|]. split; [done|]. exists B. split; [done|lia].
    + destruct Hown as (-> & ? & B & ? & ?). split; [done|]. split; [done|]. exists B. split; [done|lia].
    + destruct Hown as (-> & B & ? & ?). split; [done|]. exists B. split; [done|lia].
    + destruct Hown as (-> & (B & ? & ?) & ?). split; [done|]. split; [exists B; split; [done|lia]|done].
  - intros j. destruct (decide (j = i)) as [->|]; [by rewrite fn_lookup_insert|rewrite fn_lookup_insert_ne by done; apply Hinv].
Qed.

Lemma step_steal_ok s i t x :
  dinv s → thief s i = SCas t x false → top_ s = t →
  dinv (set_thief (log_return (set_top s (t + 1)) (Some i) x) i SIdle).
Proof.
  intros Hinv E Et. pose proof (di_thief _ Hinv i) as Hth. rewrite E in Hth. destruct Hth as [_ Hth].
  destruct (Hth (eq_sym Et)) as [Hlt Hx]. subst t. apply (inv_steal s i x); [done|by apply Hx|done|].
  cbn [returned lost log_return set_top]. rewrite fmap_app, <- app_assoc. simpl. by rewrite Permutation_middle.
Qed.

(** A thief that read a deleted array claims the item at the top all the same. *)
Lemma step_steal_garbage s i t y x :
  dinv s → thief s i = SCas t y true → top_ s = t → read_slot s (array_ s) t = Some x →
  dinv (set_thief (log_garbage (set_top s (t + 1)) i y x) i SIdle).
Proof.
  intros Hinv E Et Hx. pose proof (di_thief _ Hinv i) as Hth. rewrite E in Hth. destruct Hth as [_ Hth].
  destruct (Hth (eq_sym Et)) as [Hlt _]. subst t. apply (inv_steal s i x); [done|done|done|].
  cbn [returned lost log_garbage set_top]. rewrite app_assoc. by rewrite Permutation_app_comm.
Qed.

Lemma step_pop_cas s b x :
  dinv s → owner s = PopCas b x → top_ s = b → dinv (set_owner (log_return (set_top s (b + 1)) None x) (PopRestore b)).
Proof.
  intros Hinv E Et. owner_fields Hinv E. destruct Hown as (Hb & Hr & Hx).
  unfold set_owner, log_return, set_top. simpl. rewrite <- Et. apply (inv_take_top s _ _ x); try done.
  - rewrite Et. by apply Hx.
  - unfold logical_bottom. rewrite E. lia.
  - rewrite fmap_app, <- app_assoc. simpl. by rewrite Permutation_middle.
  - unfold logical_bottom. simpl. by rewrite E, Et.
  - unfold in_hand. simpl. by rewrite E.
  - by rewrite E.
  - unfold owner_ok. simpl. split; [congruence|done].
  - apply Hinv.
Qed.

Lemma step_pop_top s b :
  dinv s → owner s = PopTop b → dinv (set_owner s (if top_ s <=? b then PopTake b (top_ s) else PopRestore b)).
Proof.
  intros Hinv E. owner_fields Hinv E. destruct (Z.leb_spec (top_ s) b) as [Hle|Hgt].
  - destruct (decide (top_ s < b)); [by apply step_pop_claim|].
    apply inv_set_owner; try done; unfold logical_bottom, in_hand, owner_ok; simpl; rewrite ?E; try done;
      [by rewrite (proj2 (Z.ltb_ge _ _)) by lia..|]. split; [done|lia].
  - apply inv_set_owner; try done; unfold logical_bottom, in_hand, owner_ok; simpl; rewrite ?E; try done. split; [done|lia].
Qed.

(** A thief that saw [bottom_] above [t] saw an item of the contents there. *)
Lemma step_steal_bottom s i t : dinv s → thief s i = STop t → t < bottom_ s → dinv (set_thief s i (SArr t)).
Proof.
  intros Hinv E Hb. apply inv_set_thief; [done|]. pose proof (di_thief _ Hinv i) as Hth. rewrite E in Hth. simpl in *. split; [done|].
  intros _. pose proof (di_owner _ Hinv) as Hown. unfold owner_ok in Hown. unfold logical_bottom.
  destruct (owner s) as [| | | | | | | |b'|b' t'|b' y|b']; try done; [lia| |lia|lia]. destruct (_ <? _); lia.
Qed.

Lemma step_steal_read s i t a x :
  dinv s → thief s i = SRead t a → read_slot s a t = Some x → dinv (set_thief s i (SCas t x false)).
Proof.
  intros Hinv E Hx. apply inv_set_thief; [done|]. pose proof (di_thief _ Hinv i) as Hth. rewrite E in Hth. simpl in *.
  destruct Hth as [Hle Hth]. split; [done|]. intros ->. split; [by apply Hth|]. intros _.
  unfold read_slot in Hx. destruct (arrays s !! a) as [A|] eqn:HA; [|done]. simpl in Hx.
  rewrite <- Hx. symmetry. apply (di_agree _ Hinv a A); [done|]. split; [lia|by apply Hth].
Qed.

Lemma dstep_inv s s' : dinv s → dstep s s' → dinv s'.
Proof.
  intros Hinv Hst. destruct Hst as [s x E|s x b E|s x b t A E HA Hc|s x b t A new E HA Hc Hn|s x b new E|s x b old E
    |s x b A E HA|s x b E|s E|s b E|s b E|s b t x E Hlt Hx|s b t x E Ht Hx|s b x E Et|s b x E Et|s b E
    |s i E|s i t E Hb|s i t E Hb|s i t E|s i t a x E Hx|s i t a y E Hn|s i t x E Et|s i t y x E Et Hx|s i t x st E Et].
  - apply inv_set_owner; try done; unfold logical_bottom, in_hand, owner_ok; simpl; by rewrite E.
  - owner_fields Hinv E. subst b. apply inv_set_owner; try done; try (unfold logical_bottom, in_hand; simpl; by rewrite E); try (by rewrite E).
    unfold owner_ok. simpl. split; [done|]. split; [lia|]. intros A HA. pose proof (di_cap _ Hinv _ _ HA) as Hcap.
    unfold logical_bottom in Hcap. by rewrite E in Hcap.
  - owner_fields Hinv E. destruct Hown as (-> & Ht & _).
    apply inv_set_owner; try done; try (unfold logical_bottom, in_hand; simpl; by rewrite E); try (by rewrite E).
    unfold owner_ok. simpl. split; [done|]. exists A. split; [done|]. simpl. lia.
  - by apply step_push_grow.
  - by apply step_push_publish.
  - by apply step_push_delete.
  - by apply step_push_store.
  - by apply step_push_done.
  - apply inv_set_owner; try done; unfold logical_bottom, in_hand, owner_ok; simpl; by rewrite E.
  - owner_fields Hinv E. subst b. apply inv_bottom; try done; unfold logical_bottom, in_hand, owner_ok; simpl; rewrite ?E; try done. lia.
  - by apply step_pop_top.
  - by eapply step_pop_take.
  - owner_fields Hinv E. destruct Hown as (Hb & Hr & Htop). subst t.
    apply inv_set_owner; try done; unfold logical_bottom, in_hand, owner_ok; simpl; rewrite ?E, ?Z.ltb_irrefl; try done.
    split; [done|]. split; [lia|]. intros _. exact Hx.
  - by apply step_pop_cas.
  - owner_fields Hinv E. destruct Hown as (Hb & Hr & _).
    apply inv_set_owner; try done; unfold logical_bottom, in_hand, owner_ok; simpl; rewrite ?E; try done. split; [done|lia].
  - owner_fields Hinv E. destruct Hown as (Hb & Hr).
    apply inv_bottom; try done; unfold logical_bottom, in_hand, owner_ok; simpl; rewrite ?E; done.
  - apply inv_set_thief; [done|]. simpl. lia.
  - by apply inv_set_thief.
  - by apply step_steal_bottom.
  - apply inv_set_thief; [done|]. pose proof (di_thief _ Hinv i) as Hth. by rewrite E in Hth.
  - by apply (step_steal_read s i t a).
  - apply inv_set_thief; [done|]. pose proof (di_thief _ Hinv i) as Hth. rewrite E in Hth. destruct Hth as [? Hth].
    split; [done|]. intros Ht. split; [by apply Hth|done].
  - by apply step_steal_ok.
  - by apply step_steal_garbage.
  - by apply inv_set_thief.
Qed.

Lemma deque_reachable_inv capacity a s : 0 < capacity → deque_reachable capacity a s → dinv s.
Proof.
  intros Hc. apply steps_invariant; [|intros x y; apply dstep_inv].
  split; unfold logical_bottom, owner_ok; simpl; try done.
  - rewrite lookup_singleton_eq. by eexists.
  - intros b A [_ <-]%lookup_singleton_Some. by apply new_array_ok.
  - intros b A [_ <-]%lookup_singleton_Some. simpl. lia.
  - lia.
  - intros b [A [-> _]%lookup_singleton_Some]. by left.
Qed.

(** ** Deleted arrays *)

(** Only a thief that holds the address of a deleted array returns garbage. *)
Definition fresh_thief s (th : Thief (T:=T)) : Prop :=
  match th with SRead _ a => is_Some (arrays s !! a) | SCas _ _ stale => stale = false | _ => True end.

Definition garbage_ok s : Prop :=
  length (garbage s) = length (lost s) ∧ (deletes s = 0%nat → garbage s = [] ∧ ∀ i, fresh_thief s (thief s i)).

Lemma garbage_ok_thief s i th :
  garbage_ok s → (deletes s = 0%nat → fresh_thief s th) → garbage_ok (set_thief s i th).
Proof.
  intros [H1 H2] Hth. split; [done|]. intros Hd. destruct (H2 Hd) as [? Hf]. split; [done|]. intros j. simpl.
  destruct (decide (j = i)) as [->|]; [rewrite fn_lookup_insert; by apply Hth|rewrite fn_lookup_insert_ne by done; apply Hf].
Qed.

Lemma garbage_ok_arrays s m :
  (∀ a, is_Some (arrays s !! a) → is_Some (m !! a)) → garbage_ok s → ∀ a, garbage_ok (set_arrays s a m).
Proof.
  intros Hm [H1 H2] a. split; [done|]. intros Hd. destruct (H2 Hd) as [? Hf]. split; [done|]. intros j. specialize (Hf j).
  simpl in *. destruct (thief s j); simpl in *; auto.
Qed.

Lemma insert_keeps (m : gmap Z (CircularArray T)) k A a : is_Some (m !! a) → is_Some (<[k := A]> m !! a).
Proof. intros Ha. destruct (decide (k = a)) as [->|]; [rewrite lookup_insert_eq; by eexists|by rewrite lookup_insert_ne]. Qed.

Lemma garbage_ok_step s s' : dinv s → garbage_ok s → dstep s s' → garbage_ok s'.
Proof.
  intros Hinv Hg Hst. pose proof Hg as [Hlen Hfresh]. destruct Hst as [s x E|s x b E|s x b t A E HA Hc|s x b t A new E HA Hc Hn|s x b new E|s x b old E
    |s x b A E HA|s x b E|s E|s b E|s b E|s b t x E Hlt Hx|s b t x E Ht Hx|s b x E Et|s b x E Et|s b E
    |s i E|s i t E Hb|s i t E Hb|s i t E|s i t a x E Hx|s i t a y E Hn|s i t x E Et|s i t y x E Et Hx|s i t x st E Et];
    try done; try by apply garbage_ok_thief.
  - apply (garbage_ok_arrays s); [intros a; apply insert_keeps|done].
  - apply (garbage_ok_arrays s); [intros a; apply insert_keeps|done].
  - apply garbage_ok_thief; [done|]. intros _. apply Hinv.
  - apply garbage_ok_thief; [done|]. intros Hd. destruct (Hfresh Hd) as [_ Hf]. specialize (Hf i). rewrite E in Hf.
    destruct Hf as [A HA]. congruence.
  - split; simpl; [rewrite !length_app; simpl; lia|]. intros Hd. destruct (Hfresh Hd) as [_ Hf]. specialize (Hf i). by rewrite E in Hf.
Qed.

Lemma deque_reachable_garbage capacity a s : 0 < capacity → deque_reachable capacity a s → garbage_ok s.
Proof.
  intros Hc Hr. enough (dinv s ∧ garbage_ok s) by tauto. revert Hr.
  apply (steps_invariant dstep (λ s, dinv s ∧ garbage_ok s)).
  - split; [by apply (deque_reachable_inv capacity a), steps_refl|by split].
  - intros x y [H1 H2] Hs. split; [by eapply dstep_inv|by eapply garbage_ok_step].
Qed.
End Invariant.

(** ** [WorkStealingDeque]: the capacity it asks for *)

Definition kMinCapacity : Z := 64.
Definition next_pow2 (v : Z) : Z := smear (v -64 1) +64 1.
Definition ws_capacity (capacity : Z) : Z := next_pow2 (Z.max capacity kMinCapacity).

Lemma ws_capacity_spec capacity : capacity ≤ 2 ^ 63 →
  ∃ k, ws_capacity capacity = 2 ^ k ∧ 6 ≤ k ≤ 63 ∧ capacity ≤ ws_capacity capacity.
Proof.
  intros Hc. unfold ws_capacity, kMinCapacity, next_pow2. set (v := Z.max capacity 64).
  assert (64 ≤ v ≤ 2 ^ 63) as Hv by lia. change (2 ^ 63) with 9223372036854775808 in Hv.
  rewrite (wrap64_small (v - 1)) by (unfold W64; lia). rewrite smear_spec by (change (2 ^ 64) with W64; unfold W64; lia).
  exists (Z.log2 (v - 1) + 1). pose proof (Z.log2_spec (v - 1) ltac:(lia)) as [Hlo Hhi].
  assert (5 ≤ Z.log2 (v - 1)) by (apply Z.log2_le_pow2; lia).
  assert (Z.log2 (v - 1) < 63) by (apply Z.log2_lt_pow2; [lia|change (2 ^ 63) with 9223372036854775808; lia]).
  rewrite Z.ones_equiv. replace (Z.pred (2 ^ (Z.log2 (v - 1) + 1)) + 1) with (2 ^ (Z.log2 (v - 1) + 1)) by lia.
  pose proof (Z.pow_le_mono_r 2 (Z.log2 (v - 1) + 1) 63 ltac:(lia) ltac:(lia)) as Hup.
  change (2 ^ 63) with 9223372036854775808 in Hup.
  rewrite wrap64_small by (unfold W64; split; [apply Z.pow_nonneg; lia|lia]).
  split; [done|]. split; [lia|]. replace (Z.succ (Z.log2 (v - 1))) with (Z.log2 (v - 1) + 1) in Hhi by lia. lia.
Qed.

(** ** Linearisation *)

Section Linear.
Context {T : Type} `{!Inhabited T}.
Implicit Type s : deque T.

Definition no_loss s s' : Prop := lost s' = lost s ∧ garbage s' = garbage s.

(** What a step is for the abstract deque. *)
Inductive lin_step s s' : Prop :=
| lin_stutter : abs s' = abs s → in_hand s' = in_hand s → pushed s' = pushed s → returned s' = returned s → no_loss s s' → lin_step s s'
| lin_push x : abs s' = abs s ++ [x] → in_hand s' = in_hand s → pushed s' = pushed s ++ [x] → returned s' = returned s →
    no_loss s s' → lin_step s s'                    (* a push, at the bottom *)
| lin_steal i x : abs s = x :: abs s' → in_hand s' = in_hand s → pushed s' = pushed s →
    returned s' = returned s ++ [(Some i, x)] → no_loss s s' → lin_step s s'     (* a thief, at the top *)
| lin_lost i y x t : thief s i = SCas t y true → abs s = x :: abs s' → in_hand s' = in_hand s → pushed s' = pushed s →
    returned s' = returned s → garbage s' = garbage s ++ [(i, y)] → lost s' = lost s ++ [x] →
    lin_step s s'                                   (* a thief that read a deleted array, at the top *)
| lin_claim x : abs s = abs s' ++ [x] → in_hand s = [] → in_hand s' = [x] → pushed s' = pushed s →
    returned s' = returned s → no_loss s s' → lin_step s s'        (* the owner, at the bottom *)
| lin_return x : abs s' = abs s → in_hand s = [x] → in_hand s' = [] → pushed s' = pushed s →
    returned s' = returned s ++ [(None, x)] → no_loss s s' → lin_step s s'
| lin_last x : abs s = [x] → abs s' = [] → in_hand s' = in_hand s → pushed s' = pushed s →
    returned s' = returned s ++ [(None, x)] → no_loss s s' → lin_step s s'.      (* the owner wins the last item *)

(** A step that keeps the ends and the items in between stutters. *)
Lemma stutter s s' :
  top_ s' = top_ s → logical_bottom s' = logical_bottom s → in_hand s' = in_hand s →
  (∀ i, top_ s ≤ i < logical_bottom s → item_at s' i = item_at s i) →
  pushed s' = pushed s → returned s' = returned s → no_loss s s' → lin_step s s'.
Proof.
  intros Et El Eh Hi Ep Er Hl. apply lin_stutter; try done. unfold abs. rewrite Et, El. by apply abs_items_ext.
Qed.

Lemma plain_both s s' :
  plain (owner s) = true → plain (owner s') = true → bottom_ s' = bottom_ s →
  logical_bottom s' = logical_bottom s ∧ in_hand s' = in_hand s.
Proof. intros [-> ->]%plain_view [-> ->]%plain_view Eb. done. Qed.

(** The item at the top is the first of the contents. *)
Lemma abs_top s x : top_ s < logical_bottom s → item_at s (top_ s) = Some x →
  abs s = x :: abs_items s (top_ s + 1) (logical_bottom s).
Proof. intros. by apply abs_items_cons. Qed.

(** The writes of a push before [bottom_] move no item of the contents. *)
Lemma stutter_plain s s' :
  plain (owner s) = true → plain (owner s') = true → bottom_ s' = bottom_ s → top_ s' = top_ s →
  (∀ i, top_ s ≤ i < bottom_ s → item_at s' i = item_at s i) →
  pushed s' = pushed s → returned s' = returned s → no_loss s s' → lin_step s s'.
Proof.
  intros H1 H2 Eb Et Hi Ep Er Hl. destruct (plain_both s s') as [El Eh]; [done..|]. apply stutter; try done.
  destruct (plain_view s H1) as [-> _]. done.
Qed.

Lemma owner_facts s : dinv s → owner_ok s.
Proof. intros Hinv. apply Hinv. Qed.

Ltac owner_at Hinv E := pose proof (owner_facts _ Hinv) as Ho; unfold owner_ok in Ho; rewrite E in Ho.

Lemma linear_publish s x b new :
  dinv s → owner s = PushPublish x b new → lin_step s (set_owner (set_arrays s new (arrays s)) (PushDelete x b (array_ s))).
Proof.
  intros Hinv E. apply stutter_plain; try done; [by rewrite E|]. intros i Hi. owner_at Hinv E.
  destruct Ho as (_ & _ & A & HA & _). unfold item_at at 1, read_slot. simpl. rewrite HA. simpl.
  apply (di_agree _ Hinv new A); [done|]. unfold logical_bottom. by rewrite E.
Qed.

Lemma linear_store s x b A :
  dinv s → owner s = PushStore x b → arrays s !! array_ s = Some A →
  lin_step s (set_owner (set_arrays s (array_ s) (<[array_ s := a_store A b x]> (arrays s))) (PushBottom x b)).
Proof.
  intros Hinv E HA. apply stutter_plain; try done; [by rewrite E|]. intros i Hi. owner_at Hinv E.
  destruct Ho as (Hb & A' & HA' & Hroom). rewrite HA in HA'. injection HA' as <-.
  unfold item_at, read_slot. simpl. rewrite lookup_insert_eq, HA. simpl.
  apply load_store_ne; [by apply (di_wf _ Hinv _ _ HA)|lia|lia].
Qed.

Lemma linear_pushed s x b :
  dinv s → owner s = PushBottom x b → lin_step s (set_owner (log_push (set_bottom s (b + 1)) x) OIdle).
Proof.
  intros Hinv E. destruct (plain_view s) as [El Eh]; [by rewrite E|]. owner_at Hinv E. destruct Ho as (Hb & _ & Hx).
  pose proof (di_range _ Hinv) as Hr. rewrite El in Hr.
  apply (lin_push _ _ x); try done. unfold abs. rewrite El. unfold logical_bottom. simpl. subst b.
  exact (abs_items_snoc s (top_ s) (bottom_ s) x (proj2 Hr) Hx).
Qed.

(** Reading the top claims the bottom item unless it is the last one. *)
Lemma linear_pop_top s b :
  dinv s → owner s = PopTop b → lin_step s (set_owner s (if top_ s <=? b then PopTake b (top_ s) else PopRestore b)).
Proof.
  intros Hinv E. owner_at Hinv E. assert (logical_bottom s = b + 1) as El by (unfold logical_bottom; by rewrite E).
  destruct (Z.leb_spec (top_ s) b) as [Hle|Hgt]; [destruct (decide (top_ s < b)) as [Hlt|Hge]|].
  - destruct (item_some s b Hinv) as [x Hx]. apply (lin_claim _ _ x); try done.
    + unfold abs. rewrite El. unfold logical_bottom. simpl. rewrite (proj2 (Z.ltb_lt _ _) Hlt).
      by apply (abs_items_snoc s); [lia|].
    + unfold in_hand. by rewrite E.
    + unfold in_hand. simpl. rewrite (proj2 (Z.ltb_lt _ _) Hlt). change (item_at _ b) with (item_at s b). by rewrite Hx.
  - apply stutter; try done; unfold logical_bottom, in_hand; simpl; rewrite E, (proj2 (Z.ltb_ge _ _)) by lia; done.
  - apply stutter; try done; unfold logical_bottom, in_hand; simpl; by rewrite E.
Qed.

Lemma linear_take s b t x :
  dinv s → owner s = PopTake b t → t < b → read_slot s (array_ s) b = Some x →
  lin_step s (set_owner (log_return s None x) OIdle).
Proof.
  intros Hinv E Hlt Hx. owner_at Hinv E. destruct Ho as (Hb & _). apply (lin_return _ _ x); try done.
  - unfold abs, logical_bottom. simpl. rewrite E, (proj2 (Z.ltb_lt _ _) Hlt), Hb. done.
  - unfold in_hand. rewrite E, (proj2 (Z.ltb_lt _ _) Hlt). change (item_at s b) with (read_slot s (array_ s) b). by rewrite Hx.
Qed.

Lemma linear_won s b x :
  dinv s → owner s = PopCas b x → top_ s = b → lin_step s (set_owner (log_return (set_top s (b + 1)) None x) (PopRestore b)).
Proof.
  intros Hinv E Et. owner_at Hinv E. destruct Ho as (Hb & _ & Hx).
  assert (logical_bottom s = b + 1) as El by (unfold logical_bottom; by rewrite E). apply (lin_last _ _ x); try done.
  - rewrite (abs_top s x); [|lia|rewrite Et; by apply Hx]. rewrite abs_items_nil by lia. done.
  - unfold abs. apply abs_items_nil. unfold logical_bottom. simpl. lia.
  - unfold in_hand. simpl. by rewrite E.
Qed.

Lemma dstep_linear s s' : dinv s → dstep s s' → lin_step s s'.
Proof.
  intros Hinv Hst. destruct Hst as [s x E|s x b E|s x b t A E HA Hc|s x b t A new E HA Hc Hn|s x b new E|s x b old E
    |s x b A E HA|s x b E|s E|s b E|s b E|s b t x E Hlt Hx|s b t x E Ht Hx|s b x E Et|s b x E Et|s b E
    |s i E|s i t E Hb|s i t E Hb|s i t E|s i t a x E Hx|s i t a y E Hn|s i t x E Et|s i t y x E Et Hx|s i t x st E Et].
  1-3,9: by apply stutter_plain; rewrite ?E.
  - (* grow *) apply stutter_plain; try done; [by rewrite E|].
    intros i Hi. unfold item_at, read_slot. simpl. rewrite lookup_insert_ne by congruence. done.
  - by apply linear_publish.
  - (* delete *) apply stutter_plain; try done; [by rewrite E|]. intros i Hi. owner_at Hinv E.
    destruct Ho as (_ & Hne & _). unfold item_at, read_slot. simpl. by rewrite lookup_delete_ne.
  - by apply linear_store.
  - by apply linear_pushed.
  - (* lowered bottom *) owner_at Hinv E. apply stutter; try done; unfold logical_bottom, in_hand; simpl; rewrite E; [lia|done].
  - by apply linear_pop_top.
  - by apply (linear_take s b t).
  - (* take the last *) subst t. apply stutter; try done; unfold logical_bottom, in_hand; simpl; by rewrite E, Z.ltb_irrefl.
  - by apply linear_won.
  - apply stutter; try done; unfold logical_bottom, in_hand; simpl; by rewrite E.
  - apply stutter; try done; unfold logical_bottom, in_hand; simpl; by rewrite E.
  - by apply stutter.
  - by apply stutter.
  - by apply stutter.
  - by apply stutter.
  - by apply stutter.
  - by apply stutter.
  - (* stolen *) pose proof (di_thief _ Hinv i) as Hth. rewrite E in Hth. destruct Hth as [_ Hth].
    destruct (Hth (eq_sym Et)) as [Hlt Hx]. apply (lin_steal _ _ i x); try done.
    rewrite (abs_top s x); [|lia|rewrite Et; by apply Hx]. subst t. done.
  - (* claimed by a thief with a value of a deleted array *)
    pose proof (di_thief _ Hinv i) as Hth. rewrite E in Hth. destruct Hth as [_ Hth].
    destruct (Hth (eq_sym Et)) as [Hlt _]. apply (lin_lost _ _ i y x t); try done.
    rewrite (abs_top s x); [|lia|by rewrite Et]. subst t. done.
  - by apply stutter.
Qed.
End Linear.

(** ** Properties *)

(** C16: every pushed item is accounted for exactly once.  Under any
    interleaving of the owner with any number of thieves, growth included, the
    pushed items are the returned ones, the one the owner has claimed and is
    about to read, those still in the deque, and the lost ones: an item is lost
    when a thief that read its value out of an array [push] had deleted
    advances [top_] over it and returns that value, one for each lost item.  As
    long as no array has been deleted, nothing is lost: every pushed item leaves
    the deque exactly once. *)
Theorem deque_exactly_once {T : Type} `{!Inhabited T} (capacity a : Z) (s : deque T) :
  0 < capacity → deque_reachable capacity a s →
  pushed s ≡ₚ (returned s).*2 ++ lost s ++ in_hand s ++ abs s
  ∧ length (garbage s) = length (lost s)
  ∧ (deletes s = 0%nat → lost s = [] ∧ pushed s ≡ₚ (returned s).*2 ++ in_hand s ++ abs s).
Proof.
  intros Hc Hr. destruct (deque_reachable_garbage capacity a s Hc Hr) as [Hg Hd].
  pose proof (di_account s (deque_reachable_inv capacity a s Hc Hr)) as Ha. split_and!; [done|done|].
  intros H0. destruct (Hd H0) as [E _]. rewrite E in Hg. assert (El : lost s = []) by (by destruct (lost s)).
  by rewrite El in Ha.
Qed.


(** Run one step of the machine. *)
Ltac deque_state :=
  match goal with |- steps ?R ?x ?y =>
    let x' := eval cbv [set_owner set_thief set_top set_bottom set_arrays log_push log_return log_garbage log_delete deque_init
      top_ bottom_ array_ arrays owner thief pushed returned garbage lost deletes] in x in
    change (steps R x' y) end.
Tactic Notation "drun" uconstr(c) :=
  eapply steps_trans; [apply steps_once; eapply c; reflexivity || (simpl; lia)|]; deque_state.

(** A thief reads a deleted array: [push] deletes the old array as soon as it
    has published the new one, while a thief that loaded the old pointer has yet
    to read its slot.  The thief's exchange still succeeds, so it returns a
    value that was never pushed, and the oldest item is gone. *)
Theorem steal_reads_deleted_array :
  ∃ s : deque Z, deque_reachable 1 100 s ∧ pushed s = [7] ∧ garbage s = [(0%nat, 42)] ∧ lost s = [7] ∧ abs s = [].
Proof.
  eexists. split; [unfold deque_reachable|].
  - drun (push_call (deque_init (T:=Z) 1 100) 7). drun push_top. drun push_fits. drun push_store. drun push_done.
    drun (steal_top _ 0%nat). drun (steal_bottom _ 0%nat). drun (steal_array _ 0%nat).
    drun (push_call _ 8). drun push_top.
    eapply steps_trans; [apply steps_once; eapply (push_grow _ _ _ _ _ 200); [reflexivity|reflexivity|simpl; lia|reflexivity]|]; deque_state.
    drun push_publish. drun push_delete. drun (steal_read_deleted _ 0%nat 0 100 42).
    drun (steal_garbage _ 0%nat). apply steps_refl.
  - split_and!; reflexivity.
Qed.

(** ** Conflicting slot accesses *)

Section Race.
Context {T : Type} `{!Inhabited T}.
Implicit Types (s : deque T) (x : T).

(** The owner is idle and [a], of capacity [c], is the current array. *)
Definition quiet (c a : Z) s : Prop :=
  owner s = OIdle ∧ array_ s = a ∧ ∃ A, arrays s !! a = Some A ∧ a_capacity A = c.

(** Up to the slot write of a [push] that does not grow. *)
Lemma run_push_store c a s x :
  quiet c a s → bottom_ s - top_ s < c →
  steps dstep s (set_owner s (PushStore x (bottom_ s))).
Proof.
  intros (Ho & Ea & A & HA & Ec) Hlt. subst a.
  eapply steps_trans; [by apply steps_once, (push_call s x)|].
  eapply steps_trans; [by apply steps_once, push_top|].
  apply steps_once. eapply (push_fits (set_owner (set_owner s _) _)); [done|done|simpl; lia].
Qed.

Lemma run_push c a s x :
  quiet c a s → bottom_ s - top_ s < c →
  ∃ s', steps dstep s s' ∧ quiet c a s' ∧ bottom_ s' = bottom_ s + 1 ∧ top_ s' = top_ s ∧ thief s' = thief s.
Proof.
  intros Hq Hlt. pose proof (run_push_store c a s x Hq Hlt) as Hs. destruct Hq as (Ho & Ea & A & HA & Ec). subst a.
  eexists. split_and!.
  - eapply steps_trans; [exact Hs|].
    eapply steps_trans; [by apply steps_once; eapply push_store|]. by apply steps_once; eapply push_done.
  - split_and!; [done|done|]. exists (a_store A (bottom_ s) x). split; [apply lookup_insert_eq|done].
  - done.
  - done.
  - done.
Qed.

Lemma run_pushes c a s x (n : nat) :
  quiet c a s → bottom_ s + Z.of_nat n - top_ s ≤ c →
  ∃ s', steps dstep s s' ∧ quiet c a s' ∧ bottom_ s' = bottom_ s + Z.of_nat n ∧ top_ s' = top_ s ∧ thief s' = thief s.
Proof.
  revert s. induction n as [|n IH]; intros s Hq Hn.
  - exists s. split_and!; try done; [constructor|lia].
  - destruct (run_push c a s x Hq) as (s1 & H1 & Hq1 & Eb & Et & Eth); [lia|].
    destruct (IH s1 Hq1) as (s2 & H2 & Hq2 & Eb2 & Et2 & Eth2); [lia|].
    exists s2. split_and!; try done; [by eapply steps_trans|lia|lia|congruence].
Qed.

(** Thief [i] up to its slot read. *)
Lemma run_steal_read c a s i :
  quiet c a s → thief s i = SIdle → top_ s < bottom_ s →
  ∃ s', steps dstep s s' ∧ quiet c a s' ∧ bottom_ s' = bottom_ s ∧ top_ s' = top_ s
    ∧ thief s' i = SRead (top_ s) a ∧ ∀ j, i ≠ j → thief s' j = thief s j.
Proof.
  intros (Ho & Ea & HA) Hi Hlt. subst a. eexists. split_and!.
  - eapply steps_trans; [by apply steps_once, (steal_top s i)|].
    eapply steps_trans; [apply steps_once; eapply (steal_bottom _ i); [apply fn_lookup_insert|done]|].
    apply steps_once. eapply (steal_array _ i). apply fn_lookup_insert.
  - by split_and!.
  - done.
  - done.
  - apply fn_lookup_insert.
  - intros j Hj. simpl. by rewrite !fn_lookup_insert_ne.
Qed.

Lemma run_steal_rest c a s i :
  quiet c a s → dinv s → thief s i = SRead (top_ s) a →
  ∃ s', steps dstep s s' ∧ quiet c a s' ∧ bottom_ s' = bottom_ s ∧ top_ s' = top_ s + 1
    ∧ ∀ j, i ≠ j → thief s' j = thief s j.
Proof.
  intros (Ho & Ea & HA) Hd Hi. subst a. destruct (item_some s (top_ s) Hd) as [x Hx]. eexists. split_and!.
  - eapply steps_trans; [by apply steps_once; eapply (steal_read s i)|].
    apply steps_once. eapply (steal_ok _ i); [apply fn_lookup_insert|done].
  - by split_and!.
  - done.
  - done.
  - intros j Hj. simpl. by rewrite !fn_lookup_insert_ne.
Qed.

(** Whatever the capacity, a thief that another thief overtook can be about to
    read the very slot that the owner is about to write: the slots are plain
    memory, so the two accesses are a data race. *)
Theorem deque_slot_race (capacity a : Z) (x : T) :
  0 < capacity →
  ∃ s : deque T, deque_reachable capacity a s ∧ owner s = PushStore x capacity
    ∧ thief s 0%nat = SRead 0 a ∧ array_ s = a
    ∧ ∃ A, arrays s !! a = Some A ∧ a_slot A capacity = a_slot A 0.
Proof.
  intros Hc. set (s0 := deque_init (T:=T) capacity a).
  assert (quiet capacity a s0) as Hq0.
  { split_and!; try done. exists (new_array capacity). split; [apply lookup_insert_eq|done]. }
  destruct (run_push capacity a s0 x Hq0) as (s1 & H1 & Hq1 & Eb1 & Et1 & Eth1); [simpl; lia|].
  destruct (run_steal_read capacity a s1 0 Hq1) as (s2 & H2 & Hq2 & Eb2 & Et2 & Eth2 & Eo2); [by rewrite Eth1|simpl in *; lia|].
  destruct (run_steal_read capacity a s2 1 Hq2) as (s3 & H3 & Hq3 & Eb3 & Et3 & Eth3 & Eo3);
    [by rewrite Eo2, Eth1|simpl in *; lia|].
  pose proof (steps_trans _ _ _ _ (steps_trans _ _ _ _ H1 H2) H3) as H03.
  destruct (run_steal_rest capacity a s3 1 Hq3) as (s4 & H4 & Hq4 & Eb4 & Et4 & Eo4);
    [by apply (deque_reachable_inv capacity a)|by rewrite Et3|].
  destruct (run_pushes capacity a s4 x (Z.to_nat (capacity - 1)) Hq4) as (s5 & H5 & Hq5 & Eb5 & Et5 & Eth5); [simpl in *; lia|].
  exists (set_owner s5 (PushStore x (bottom_ s5))).
  assert (bottom_ s5 = capacity) as Eb by (simpl in *; lia). split_and!.
  - eapply steps_trans; [|apply (run_push_store capacity a); [done|simpl in *; lia]].
    eapply steps_trans; [|exact H5]. by eapply steps_trans.
  - simpl. by rewrite Eb.
  - simpl. rewrite Eth5, Eo4, Eo3, Eth2 by done. by rewrite Et1.
  - by destruct Hq5 as (_ & ? & _).
  - destruct Hq5 as (_ & _ & A & HA & Ec). exists A. split; [done|]. unfold a_slot.
    by rewrite Ec, Z_mod_same_full, Zmod_0_l.
Qed.

End Race.

Lemma two_pushed : ∃ s : deque Z, deque_reachable 64 100 s ∧ pushed s = [7; 8] ∧ abs s = [7; 8] ∧ owner s = OIdle
  ∧ thief s 0%nat = SIdle ∧ deletes s = 0%nat.
Proof.
  eexists. split; [unfold deque_reachable|].
  - drun (push_call (deque_init (T:=Z) 64 100) 7). drun push_top. drun push_fits. drun push_store. drun push_done.
    drun (push_call _ 8). drun push_top. drun push_fits. drun push_store. apply steps_once. eapply push_done. reflexivity.
  - split; [reflexivity|]. split; [vm_compute; reflexivity|]. split_and!; reflexivity.
Defined.

Lemma deque_exactly_once_witness :
  ∃ s : deque Z, pushed s = [7; 8] ∧ pushed s ≡ₚ (returned s).*2 ++ in_hand s ++ abs s.
Proof.
  destruct two_pushed as (s & Hr & Hp & _ & _ & _ & Hd). exists s. split; [exact Hp|].
  destruct (deque_exactly_once 64 100 s ltac:(done) Hr) as (_ & _ & H). exact (proj2 (H Hd)).
Defined.

