(* ===== verification/Online.v ===== *)
(** Online workers and their group ([worker.h], [worker.cc], [online_worker.h],
    [online_worker.cc], [yield_awaiter.h], [online_group.h], [online_group.cc]).

    A worker is its scheduler with five queues, the indices of the queues and
    its timers.  Threads, CPU pinning and the coroutine frames themselves are
    not modelled: a coroutine is the word of its handle, and what it does
    between two suspensions is a function here ([timer_turn]) or an effect of
    a task.  What hwloc reports is an argument of the group. *)
From S2P Require Import Prelude Types Circ Rings WorkQueues Float64 Policies Metrics Scheduler Timers Registry.

Inductive TaskDispatchMode := kIndirect | kDirect.

Record WorkerCfg := mkWCfg { cpu_id : Z; numa_node : Z; policy_cfg : PolicyConfig }.

(** [PolicyConfig{"strict_priority"}] *)
Definition strict_cfg : PolicyConfig := mkPolicyConfig "strict_priority" [] 64.
Definition default_wcfg : WorkerCfg := mkWCfg 1 0 strict_cfg.

(** ** [yield_awaiter.h] *)

(** The queue of [yield()]: the source queue, else the default queue of the
    current worker, else 0. *)
Definition yield_idx (tls : Z) (worker_default : option Z) : Z :=
  if tls =? SIZE_MAX then default 0 worker_default else tls.

Definition yield_suspend (s : Sched WorkQueue) (queue_idx h : Z) : option (Sched WorkQueue) :=
  offer s queue_idx (make_coro h).

Section Worker.
Context {P : Type} `{!PrioQueue P}.

Record OnlineWorker := mkOW {
  ow_id : Z;
  ow_cfg : WorkerCfg;
  ow_sched : Sched WorkQueue;
  idx_affine : Z; idx_net_io : Z; idx_disk_io : Z; idx_engine : Z; idx_timer : Z;
  dispatch_mode : TaskDispatchMode;
  timer_state : P;
  io_ready : bool                     (* io_backend_ is set *)
}.

Definition with_sched (w : OnlineWorker) (s : Sched WorkQueue) : OnlineWorker :=
  mkOW (ow_id w) (ow_cfg w) s (idx_affine w) (idx_net_io w) (idx_disk_io w) (idx_engine w) (idx_timer w)
    (dispatch_mode w) (timer_state w) (io_ready w).
Definition with_mode (w : OnlineWorker) (m : TaskDispatchMode) : OnlineWorker :=
  mkOW (ow_id w) (ow_cfg w) (ow_sched w) (idx_affine w) (idx_net_io w) (idx_disk_io w) (idx_engine w) (idx_timer w)
    m (timer_state w) (io_ready w).
Definition with_timers (w : OnlineWorker) (p : P) : OnlineWorker :=
  mkOW (ow_id w) (ow_cfg w) (ow_sched w) (idx_affine w) (idx_net_io w) (idx_disk_io w) (idx_engine w) (idx_timer w)
    (dispatch_mode w) p (io_ready w).

(** [Worker::Worker]; [None] is the exception of an unknown policy name. *)
Definition worker_sched (id : Z) (cfg : WorkerCfg) : option (Sched WorkQueue) :=
  match make_policy (policy_cfg cfg) with
  | inl p => Some (set_perf (new_sched p) (Some (new_perf id)))
  | inr _ => None
  end.

(** [OnlineWorker::OnlineWorker] *)
Definition online_worker (id : Z) (cfg : WorkerCfg) : option OnlineWorker :=
  s ← worker_sched id cfg;
  aq ← make_ring kAffine kCritical "affine" 65536;
  let '(s, ia) := register_queue s aq in
  let s := set_affine_idx s ia in
  let '(s, ni) := register_queue s (make_spsc kNetIO kHigh "net_io" 4096) in
  let '(s, di) := register_queue s (make_spsc kDiskIO kHigh "disk_io" 4096) in
  let s := set_disk_io_idx s di in
  eq ← make_ring kEngine kMedium "engine" 65536;
  let '(s, ei) := register_queue s eq in
  tq ← make_affine kTimer kHigh "timer" 8192;
  let '(s, ti) := register_queue s tq in
  match make_policy strict_cfg with
  | inl p => Some (mkOW id cfg (set_policy s p) ia ni di ei ti kDirect pq_empty false)
  | inr _ => None
  end.

Definition default_queue_idx (w : OnlineWorker) : Z := idx_engine w.

(** [submit_engine], [submit_net_io], [submit_disk_io]: stamp the item, then
    enqueue it; [now] is the time-stamp counter. *)
Definition submit (w : OnlineWorker) (qi : Z) (t : QueueType) (now : Z) (item : WorkItem) : option OnlineWorker :=
  let s := ow_sched w in
  let '(s, ns) := match perf s with
                  | Some p => let '(p', ns) := record_enqueue p t now in (set_perf s (Some p'), ns)
                  | None => (s, 0)
                  end in
  s' ← offer s qi (set_enqueue_ns item ns); Some (with_sched w s').

Definition submit_engine (w : OnlineWorker) := submit w (idx_engine w) kEngine.
Definition submit_net_io (w : OnlineWorker) := submit w (idx_net_io w) kNetIO.
Definition submit_disk_io (w : OnlineWorker) := submit w (idx_disk_io w) kDiskIO.

Definition enqueue_affine (w : OnlineWorker) (h : Z) : option OnlineWorker :=
  s' ← offer (ow_sched w) (idx_affine w) (make_coro h); Some (with_sched w s').

Definition init_io_backend (w : OnlineWorker) : OnlineWorker :=
  mkOW (ow_id w) (ow_cfg w) (set_io_backend (ow_sched w) true) (idx_affine w) (idx_net_io w) (idx_disk_io w)
    (idx_engine w) (idx_timer w) (dispatch_mode w) (timer_state w) true.

(** ** [swap_engine_queue] *)

(** The three classes the loop knows; an item for any other is dropped. *)
Definition migrate (new : WorkQueue) (item : WorkItem) : option WorkQueue :=
  match new with
  | LocalWorkQueue _ _ | RingWorkQueue _ _ | AffineWorkQueue _ _ => wq_enqueue new item
  | BatchedSPSCWorkQueue _ _ => Some new
  end.

Fixpoint drain_into (fuel : nat) (old new : WorkQueue) : option WorkQueue :=
  match fuel with
  | O => None
  | S f =>
      match wq_try_dequeue old with
      | (_, None) => Some new
      | (old', Some item) => new' ← migrate new item; drain_into f old' new'
      end
  end.

Definition swap_engine_queue (fuel : nat) (w : OnlineWorker) (new : WorkQueue) : option (OnlineWorker * bool) :=
  match get_queue (ow_sched w) (idx_engine w) with
  | None => Some (w, false)
  | Some old =>
      new' ← drain_into fuel old new;
      let '(s, ok) := replace_queue (ow_sched w) (idx_engine w) new' in
      let w := with_sched w s in
      Some (if ok then with_mode w match wq_semantic new' with kLocalS => kDirect | _ => kIndirect end else w, ok)
  end.

(** ** The timer coroutine *)

Section Timer.
Context (run_cb : Z → list Effect).     (* what the callback of a timed wait does *)

(** The queue an expired sleeper goes back to. *)
Definition wake_queue (w : OnlineWorker) (n : TimerNode) : Z :=
  if source_queue_idx n =? SIZE_MAX then idx_engine w else source_queue_idx n.

Fixpoint wake_expired (w : OnlineWorker) (s : Sched WorkQueue) (ex : list TimerNode) : option (Sched WorkQueue) :=
  match ex with
  | [] => Some s
  | n :: rest =>
      s' ← match on_expire n with
           | Some cb => apply_effects s (run_cb cb)
           | None => offer s (wake_queue w n) (make_coro (timer_handle n))
           end;
      wake_expired w s' rest
  end.

(** One turn of [timer_coro_fn], from a resumption to the next suspension;
    [self] is its own handle. *)
Definition timer_turn (w : OnlineWorker) (now self : Z) : option OnlineWorker :=
  let '(p, ex) := expire (timer_state w) now in
  let w := with_timers w p in
  s ← match ex with
      | [] => let s := ow_sched w in
              yield_suspend s (yield_idx (tls_source_queue_idx s) (Some (default_queue_idx w))) self
      | _ => s ← wake_expired w (ow_sched w) ex; yield_suspend s (idx_timer w) self
      end;
  Some (with_sched w s).
End Timer.
End Worker.
Arguments OnlineWorker P : clear implicits.

(** ** [OnlineWorkerGroup] *)

Record GroupCfg := mkGCfg {
  num_workers : Z;
  base_cpu_id : Z;
  auto_discover_numa : bool;
  per_numa_workers : list Z;
  pin_cpu : bool;
  bind_memory : bool;
  register_global : bool
}.

(** What hwloc reports, per NUMA node: the number of physical cores and the
    OS indices of the PUs that may be used (first PUs of the cores only unless
    [use_ht_siblings]). *)
Record Topology := mkTopo { phys_cores : list Z; usable_pus : list (list Z) }.

Definition numa_count (t : Topology) : nat := Nat.max 1 (length (phys_cores t)).

(** [v.resize(n, 0)], which also truncates. *)
Definition resize_counts (n : nat) (l : list Z) : list Z := take n l ++ replicate (n - length l) 0.

Definition even_split (total : Z) (nodes : nat) : list Z :=
  (λ n : nat, total / Z.of_nat nodes + (if Z.of_nat n <? total mod Z.of_nat nodes then 1 else 0)) <$> seq 0 nodes.

Definition per_numa (cfg : GroupCfg) (t : Topology) : list Z :=
  match per_numa_workers cfg with
  | [] => if num_workers cfg =? 0 then resize_counts (numa_count t) (phys_cores t)
          else even_split (num_workers cfg) (numa_count t)
  | l => resize_counts (numa_count t) l
  end.

(** The configuration of worker [w] of node [n], the [global_id]-th of all. *)
Definition numa_wcfg (cfg : GroupCfg) (t : Topology) (n w global_id : nat) : WorkerCfg :=
  let pus := default [] (usable_pus t !! n) in
  mkWCfg
    (match pus with
     | [] => if 0 <? base_cpu_id cfg then wrap32 (base_cpu_id cfg + Z.of_nat global_id) else 0
     | _ => if pin_cpu cfg then wrap32 (nth (w mod length pus) pus 0 + 1)
            else if 0 <? base_cpu_id cfg then wrap32 (base_cpu_id cfg + Z.of_nat global_id) else 0
     end)
    (if bind_memory cfg then Z.of_nat n + 1 else 0)
    strict_cfg.

Definition legacy_wcfg (cfg : GroupCfg) (i : nat) : WorkerCfg :=
  mkWCfg (wrap32 (base_cpu_id cfg + Z.of_nat i + (if pin_cpu cfg then 1 else 0)))
    (if bind_memory cfg then 1 else 0) strict_cfg.

(** The workers in creation order, with their NUMA node; node [n] has [counts !! n]. *)
Fixpoint numa_plan (cfg : GroupCfg) (t : Topology) (n global_id : nat) (counts : list Z) : list (nat * WorkerCfg) :=
  match counts with
  | [] => []
  | c :: rest =>
      ((λ w, (n, numa_wcfg cfg t n w (global_id + w)%nat)) <$> seq 0 (Z.to_nat c))
      ++ numa_plan cfg t (S n) (global_id + Z.to_nat c)%nat rest
  end.

Definition uses_numa (cfg : GroupCfg) : bool :=
  auto_discover_numa cfg || match per_numa_workers cfg with [] => false | _ => true end.

Definition worker_plan (cfg : GroupCfg) (t : Topology) : list (nat * WorkerCfg) :=
  if uses_numa cfg then numa_plan cfg t 0 0 (per_numa cfg t)
  else (λ i, (0%nat, legacy_wcfg cfg i)) <$> seq 0 (Z.to_nat (num_workers cfg)).

Section Group.
Context {P : Type} `{!PrioQueue P}.

(** [numa_lists]: for each NUMA node the indices of its workers (empty in the
    legacy layout). *)
Record Group := mkGroup { g_workers : list (OnlineWorker P); g_numa_lists : list (list nat) }.

Definition numa_lists (plan : list (nat * WorkerCfg)) (nodes : nat) : list (list nat) :=
  (λ n, (filter (λ p : nat * nat, p.2 = n) (imap (λ i e, (i, e.1)) plan)).*1) <$> seq 0 nodes.

(** [first_id] is [Worker::next_id_]; a worker is known to the registry by its
    id. *)
Definition make_workers (first_id : Z) (plan : list (nat * WorkerCfg)) : option (list (OnlineWorker P)) :=
  mapM (λ p : Z * WorkerCfg, online_worker p.1 p.2) (imap (λ i e, (first_id + Z.of_nat i, e.2)) plan).

Definition register_plan (reg : Registry) (first_id : Z) (plan : list (nat * WorkerCfg)) : option Registry :=
  fold_left (λ acc p, r ← acc; register_worker r (first_id + Z.of_nat p.1) (Z.of_nat p.1) (Z.of_nat p.2))
    (imap (λ i e, (i, e.1)) plan) (Some reg).

Definition make_group (cfg : GroupCfg) (t : Topology) (first_id : Z) (reg : Registry) : option (Group * Registry) :=
  let plan := worker_plan cfg t in
  ws ← make_workers first_id plan;
  reg' ← (if register_global cfg then register_plan reg first_id plan else Some reg);
  Some (mkGroup ws (if uses_numa cfg then numa_lists plan (numa_count t) else []), reg').

Definition worker_count (g : Group) : Z := Z.of_nat (length (g_workers g)).

Definition route_by_hash (g : Group) (key : Z) : Z :=
  match g_workers g with [] => 0 | _ => key mod worker_count g end.

(** A negative node converted to [size_t] is out of range. *)
Definition get_numa_workers (g : Group) (node : Z) : list nat :=
  if node <? 0 then [] else default [] (g_numa_lists g !! Z.to_nat node).

Definition route_by_numa_hash (g : Group) (key node : Z) : Z :=
  match get_numa_workers g node with
  | [] => route_by_hash g key
  | l => key mod Z.of_nat (length l)
  end.

Definition update_worker (g : Group) (i : nat) (w : OnlineWorker P) : Group :=
  mkGroup (<[i := w]> (g_workers g)) (g_numa_lists g).

(** [None]: there is no such worker (undefined behaviour), or the enqueue spins. *)
Definition submit_to (g : Group) (key now : Z) (item : WorkItem) : option Group :=
  let i := Z.to_nat (route_by_hash g key) in
  w ← g_workers g !! i; w' ← submit_engine w now item; Some (update_worker g i w').

Record OnlineGroupStats := mkGStats { gs_count : Z; gs_tasks : Z; gs_exec_ns : Z }.

Definition group_stats (g : Group) : OnlineGroupStats :=
  fold_left (λ a w, let st := stats (ow_sched w) in
                    mkGStats (gs_count a) (gs_tasks a +64 total_tasks_executed st) (gs_exec_ns a +64 total_exec_ns st))
    (g_workers g) (mkGStats (worker_count g) 0 0).

(** The rank of the worker with id [id]. *)
Definition rank (g : Group) (id : Z) : Z :=
  match list_find (λ w, ow_id w = id) (g_workers g) with Some (i, _) => Z.of_nat i | None => SIZE_MAX end.
End Group.
Arguments Group P : clear implicits.

(** ** Swapping the engine queue *)

Lemma fifo_fill room (xs l : list WorkItem) :
  fold_left (fifo_enqueue room) xs l = l ++ take (Z.to_nat (room - Z.of_nat (length l))) xs.
Proof.
  revert l. induction xs as [|x xs IH]; intros l; simpl; [by rewrite take_nil, app_nil_r|].
  rewrite IH. unfold fifo_enqueue. destruct (Z.ltb_spec (Z.of_nat (length l)) room).
  - rewrite length_app, <- app_assoc. simpl.
    replace (Z.to_nat (room - Z.of_nat (length l))) with (S (Z.to_nat (room - Z.of_nat (length l + 1)))) by lia. done.
  - replace (Z.to_nat (room - Z.of_nat (length l))) with 0%nat by lia. done.
Qed.

Lemma migrate_law new x : wq_wf new → wq_checked new = true →
  ∃ new', migrate new x = Some new' ∧ wq_wf new' ∧ q_meta new' = q_meta new
    ∧ wq_contents new' = fifo_enqueue (wq_room new) (wq_contents new) x.
Proof.
  intros Hw Hc. pose proof (enqueue_law new x) as Hl. destruct (Hl Hw ltac:(by left)) as (new' & E & ? & ? & ?).
  exists new'. split; [|done]. by destruct new.
Qed.

Lemma drain_into_spec fuel old new :
  wq_wf old → wq_wf new → wq_checked new = true → (length (wq_contents old) < fuel)%nat →
  ∃ new', drain_into fuel old new = Some new' ∧ wq_wf new' ∧ q_meta new' = q_meta new
    ∧ wq_contents new' = fold_left (fifo_enqueue (wq_room new)) (wq_contents old) (wq_contents new).
Proof.
  revert old new. induction fuel as [|f IH]; intros old new Ho Hn Hc Hf; [lia|]. simpl.
  destruct (wq_try_dequeue old) as [old' o] eqn:E. pose proof (dequeue_law old) as Hl.
  destruct (Hl Ho _ _ E) as (Ho' & _ & -> & Ht). simpl in *. destruct (wq_contents old) as [|x l]; simpl; [by exists new|].
  destruct (migrate_law new x Hn Hc) as (n1 & E1 & Hn1 & Hm1 & Hc1). rewrite E1. simpl.
  assert (wq_room n1 = wq_room new ∧ wq_checked n1 = wq_checked new) as [Hr Hk]
    by (unfold q_meta in Hm1; simpl in Hm1; split; congruence).
  destruct (IH old' n1) as (n2 & E2 & Hn2 & Hm2 & Hc2); [done|done|by rewrite Hk|rewrite Ht; simpl in *; lia|].
  exists n2. split; [done|]. split; [done|]. split; [by rewrite Hm2|]. rewrite Hc2, Hr, Ht, Hc1. done.
Qed.

Lemma semantic_kept new new' : q_meta new' = q_meta new → wq_semantic new' = wq_semantic new.
Proof. unfold q_meta. simpl. congruence. Qed.

(** ** The layout of a group *)

Definition total_of (counts : list Z) : nat := sum_list (Z.to_nat <$> counts).

Lemma numa_plan_length cfg t counts n gid : length (numa_plan cfg t n gid counts) = total_of counts.
Proof.
  revert n gid. induction counts as [|c counts IH]; intros n gid; [done|]. simpl.
  rewrite length_app, length_fmap, length_seq, IH. done.
Qed.

Lemma even_split_sum_from a r k m : 0 ≤ a →
  Z.of_nat (sum_list (Z.to_nat <$> ((λ n : nat, a + (if Z.of_nat n <? r then 1 else 0)) <$> seq k m)))
  = Z.of_nat m * a + Z.max 0 (Z.min (Z.of_nat m) (r - Z.of_nat k)).
Proof.
  intros Ha. revert k. induction m as [|m IH]; intros k; [simpl; lia|]. cbn [seq fmap list_fmap sum_list].
  rewrite Nat2Z.inj_add, IH. replace (Z.of_nat (S m)) with (Z.of_nat m + 1) by lia. rewrite Z.mul_add_distr_r.
  unfold id. destruct (Z.ltb_spec (Z.of_nat k) r); lia.
Qed.

Lemma even_split_total total nodes : 0 ≤ total → (0 < nodes)%nat → Z.of_nat (total_of (even_split total nodes)) = total.
Proof.
  intros Ht Hn. unfold total_of, even_split. rewrite even_split_sum_from by (apply Z.div_pos; lia).
  pose proof (Z.div_mod total (Z.of_nat nodes) ltac:(lia)). pose proof (Z.mod_pos_bound total (Z.of_nat nodes) ltac:(lia)). lia.
Qed.

Section GroupFacts.
Context {P : Type} `{!PrioQueue P}.

#[local] Opaque make_spsc make_ring make_affine make_policy.

Lemma online_worker_id id cfg (w : OnlineWorker P) : online_worker id cfg = Some w → ow_id w = id.
Proof.
  unfold online_worker. intros E. destruct (worker_sched id cfg); [|done]. cbn [mbind option_bind] in E.
  destruct (make_ring kAffine _ _ _); [|done]. cbn [mbind option_bind] in E.
  destruct (make_ring kEngine _ _ _); [|done]. cbn [mbind option_bind] in E.
  destruct (make_affine _ _ _ _); [|done]. cbn [mbind option_bind register_queue] in E.
  destruct (make_policy strict_cfg); [|discriminate E]. injection E as E. by rewrite <- E.
Qed.
#[local] Transparent make_spsc make_ring make_affine make_policy.

Lemma make_workers_spec first plan (ws : list (OnlineWorker P)) :
  make_workers first plan = Some ws →
  length ws = length plan ∧ ∀ i w, ws !! i = Some w → ow_id w = first + Z.of_nat i.
Proof.
  unfold make_workers. intros E%mapM_Some_1. pose proof (Forall2_length _ _ _ E) as Hl. rewrite length_imap in Hl.
  split; [done|]. intros i w Hw. destruct (Forall2_lookup_r _ _ _ _ _ E Hw) as ([id cfg] & Hi & Ho).
  apply list_lookup_imap_Some in Hi as (e & _ & [= -> ->]). by apply online_worker_id in Ho.
Qed.

Lemma rank_found first (g : Group P) i w :
  (∀ i w, g_workers g !! i = Some w → ow_id w = first + Z.of_nat i) → g_workers g !! i = Some w →
  rank g (ow_id w) = Z.of_nat i.
Proof.
  intros Hid Hw. unfold rank. destruct (list_find (λ w', ow_id w' = ow_id w) (g_workers g)) as [[j w']|] eqn:E.
  - apply list_find_Some in E as (Hj & Ee & _). rewrite (Hid _ _ Hj), (Hid _ _ Hw) in Ee. lia.
  - apply list_find_None in E. rewrite Forall_lookup in E. by destruct (E i w Hw).
Qed.
End GroupFacts.

(** ** The timer coroutine *)

Lemma offer_log {Q} `{!WorkQueueOps Q} (s s' : Sched Q) qi x :
  offer s qi x = Some s' →
  offered s' = offered s ++ (if get_queue s qi then [(qi, x)] else []) ∧ length (queues s') = length (queues s).
Proof.
  unfold offer. destruct (get_queue s qi) as [q|]; [|intros [= <-]; by rewrite app_nil_r].
  destruct (enqueue q x); [|done]. intros [= <-]. simpl. by rewrite length_insert.
Qed.

Lemma get_queue_isSome {Q} (s : Sched Q) qi : 0 ≤ qi < Z.of_nat (length (queues s)) → is_Some (get_queue s qi).
Proof.
  intros Hq. unfold get_queue. destruct (Z.leb_spec 0 qi), (Z.ltb_spec qi (Z.of_nat (length (queues s)))); simpl; try lia.
  apply lookup_lt_is_Some_2. lia.
Qed.

Section TimerFacts.
Context {P : Type} `{!PrioQueue P, !PrioQueueLaws P}.

Definition in_range (s : Sched WorkQueue) (qi : Z) : Prop := 0 ≤ qi < Z.of_nat (length (queues s)).

Lemma offer_in_range (s s' : Sched WorkQueue) qi x :
  offer s qi x = Some s' → in_range s qi → offered s' = offered s ++ [(qi, x)] ∧ length (queues s') = length (queues s).
Proof.
  intros E Hr. destruct (offer_log s s' qi x E) as [El Eq]. destruct (get_queue_isSome s qi Hr) as [q Hq].
  by rewrite El, Hq.
Qed.

Lemma wake_expired_log run_cb (w : OnlineWorker P) ex s s' :
  wake_expired run_cb w s ex = Some s' → Forall (λ n, on_expire n = None ∧ in_range s (wake_queue w n)) ex →
  offered s' = offered s ++ ((λ n, (wake_queue w n, make_coro (timer_handle n))) <$> ex)
  ∧ length (queues s') = length (queues s).
Proof.
  revert s. induction ex as [|n ex IH]; intros s E Hf; simpl in *; [injection E as <-; by rewrite app_nil_r|].
  inversion Hf as [|? ? [Hn Hr] Hf']; subst. rewrite Hn in E.
  destruct (offer s (wake_queue w n) (make_coro (timer_handle n))) as [s1|] eqn:E1; [|done]. simpl in E.
  destruct (offer_in_range s s1 _ _ E1 Hr) as [El Eq].
  destruct (IH s1 E) as [El2 Eq2]; [eapply Forall_impl; [exact Hf'|]; unfold in_range; by rewrite Eq|].
  split; [|congruence]. rewrite El2, El, <- app_assoc. done.
Qed.
End TimerFacts.

(** ** Properties *)

(** Hot-swapping the engine queue.  The items of the old queue end up in
    the (empty) new one, in order, as many as it has room for; no other queue
    of the worker changes, and the dispatch mode follows the semantics of the
    new queue.  So a swap to a [LocalWorkQueue], whose room is 1023 whatever
    capacity it is given, drops every task of the backlog beyond the first
    1023. *)
Theorem swap_engine_queue_migrates {P : Type} `{!PrioQueue P} (w : OnlineWorker P) (old new : WorkQueue) :
  get_queue (ow_sched w) (idx_engine w) = Some old → wq_wf old →
  wq_wf new → wq_checked new = true → wq_contents new = [] →
  ∃ w' new', swap_engine_queue (S (length (wq_contents old))) w new = Some (w', true)
    ∧ get_queue (ow_sched w') (idx_engine w) = Some new'
    ∧ wq_contents new' = take (Z.to_nat (wq_room new)) (wq_contents old)
    ∧ dispatch_mode w' = match wq_semantic new with kLocalS => kDirect | _ => kIndirect end
    ∧ ∀ i, Z.of_nat i ≠ idx_engine w → queues (ow_sched w') !! i = queues (ow_sched w) !! i.
Proof.
  intros Hq Ho Hn Hc He. apply get_queue_some in Hq as Hs. destruct Hs as (H0 & Hz & Hl).
  destruct (drain_into_spec (S (length (wq_contents old))) old new Ho Hn Hc ltac:(lia)) as (new' & E & Hw & Hm & Hcon).
  rewrite He, fifo_fill in Hcon. simpl in Hcon. rewrite Z.sub_0_r in Hcon.
  unfold swap_engine_queue. rewrite Hq, E. cbn [mbind option_bind]. unfold replace_queue.
  pose proof (lookup_lt_Some _ _ _ Hl) as Hlt.
  destruct (Z.leb_spec (Z.of_nat (length (queues (ow_sched w)))) (idx_engine w)) as [Hle|Hle]; [lia|].
  eexists _, new'. split; [done|]. split; [|split; [done|split; [by rewrite <- (semantic_kept new new')|]]].
  - unfold get_queue. simpl. rewrite length_insert.
    destruct (Z.leb_spec 0 (idx_engine w)), (Z.ltb_spec (idx_engine w) (Z.of_nat (length (queues (ow_sched w)))));
      simpl; try lia. by apply list_lookup_insert_eq.
  - intros i Hi. simpl. apply list_lookup_insert_ne. lia.
Qed.

(** A group built for [n] workers has exactly [n] of them: with NUMA
    discovery they are spread over the nodes with counts that differ by at
    most one and add up to [n], every key is routed to an existing worker, and
    the rank of the worker at index [i] is [i]. *)
Theorem online_group_layout {P : Type} `{!PrioQueue P} (cfg : GroupCfg) (t : Topology) (first : Z)
    (reg reg' : Registry) (g : Group P) :
  0 < num_workers cfg → per_numa_workers cfg = [] → make_group cfg t first reg = Some (g, reg') →
  worker_count g = num_workers cfg
  ∧ (∀ key, 0 ≤ route_by_hash g key < worker_count g)
  ∧ (∀ i w, g_workers g !! i = Some w → rank g (ow_id w) = Z.of_nat i)
  ∧ (auto_discover_numa cfg = true →
     Z.of_nat (total_of (per_numa cfg t)) = num_workers cfg
     ∧ ∀ a b, a ∈ per_numa cfg t → b ∈ per_numa cfg t → a ≤ b + 1).
Proof.
  intros Hn Hp. unfold make_group. intros E. destruct (make_workers first (worker_plan cfg t)) as [ws|] eqn:Ew; [|done].
  cbn [mbind option_bind] in E. assert (g_workers g = ws) as Hg.
  { destruct (register_global cfg); [destruct (register_plan _ _ _); [|done]|]; simpl in E; by injection E as <- _. }
  destruct (make_workers_spec first _ ws Ew) as [Hlen Hid].
  assert (Z.of_nat (total_of (per_numa cfg t)) = num_workers cfg) as Hsum.
  { unfold per_numa. rewrite Hp, (proj2 (Z.eqb_neq _ _)) by lia. apply even_split_total; unfold numa_count; lia. }
  assert (worker_count g = num_workers cfg) as Hc.
  { unfold worker_count. rewrite Hg, Hlen. unfold worker_plan, uses_numa. rewrite Hp, orb_false_r.
    destruct (auto_discover_numa cfg); [by rewrite numa_plan_length|]. rewrite length_fmap, length_seq. lia. }
  split; [done|]. split; [|split].
  - intros key. unfold route_by_hash. destruct (g_workers g); [lia|]. apply Z.mod_pos_bound. lia.
  - intros i w Hw. apply (rank_found first); [by rewrite Hg|done].
  - intros _. split; [done|]. unfold per_numa. rewrite Hp, (proj2 (Z.eqb_neq _ _)) by lia. unfold even_split.
    intros a b (m & -> & _)%list_elem_of_fmap (k & -> & _)%list_elem_of_fmap.
    destruct (_ <? _), (_ <? _); lia.
Qed.

(** One turn of the timer coroutine.  With plain sleepers whose queues
    exist, it hands every due coroutine back to the queue it slept from (the
    engine queue when none was recorded), once each and in deadline order,
    keeps exactly the timers that are not due, and then re-enqueues itself:
    into the timer queue when something expired, else where [yield] sends
    it. *)
Theorem timer_turn_delivers {P : Type} `{!PrioQueue P, !PrioQueueLaws P} (run_cb : Z → list Effect)
    (w w' : OnlineWorker P) (now self : Z) :
  timer_turn run_cb w now self = Some w' →
  Forall (λ n, on_expire n = None ∧ in_range (ow_sched w) (wake_queue w n)) (pq_nodes (timer_state w)) →
  in_range (ow_sched w) (idx_timer w) →
  in_range (ow_sched w) (yield_idx (tls_source_queue_idx (ow_sched w)) (Some (idx_engine w))) →
  ∃ ex, pq_nodes (timer_state w) ≡ₚ ex ++ pq_nodes (timer_state w') ∧ in_order ex
    ∧ Forall (λ n, deadline n ≤ now) ex ∧ Forall (λ n, now < deadline n) (pq_nodes (timer_state w'))
    ∧ offered (ow_sched w') = offered (ow_sched w)
        ++ ((λ n, (wake_queue w n, make_coro (timer_handle n))) <$> ex)
        ++ [(match ex with [] => yield_idx (tls_source_queue_idx (ow_sched w)) (Some (idx_engine w)) | _ => idx_timer w end,
             make_coro self)].
Proof.
  unfold timer_turn. intros E Hf Ht Hy. destruct (expire (timer_state w) now) as [p ex] eqn:Ex.
  destruct (expire_spec _ _ _ _ Ex) as (Hp & Ho & Hd & Hr). exists ex.
  assert (Forall (λ n, on_expire n = None ∧ in_range (ow_sched w) (wake_queue w n)) ex) as Hfx
    by (rewrite Hp in Hf; by apply Forall_app in Hf as [? _]).
  destruct ex as [|n ex]; unfold yield_suspend in E; cbn [mbind option_bind] in E.
  - destruct (offer _ _ _) as [s|] eqn:Eo in E; [|done]. simpl in E. injection E as <-.
    apply (offer_in_range _ _ _ _ Eo) in Hy as [El _]. split; [done|]. do 3 (split; [done|]). exact El.
  - destruct (wake_expired run_cb _ _ (n :: ex)) as [s1|] eqn:Ew in E; [|done]. simpl in E.
    apply (wake_expired_log run_cb _ _ _ _ Ew) in Hfx as [El Eq].
    destruct (offer s1 _ _) as [s|] eqn:Eo in E; [|done]. simpl in E. injection E as <-.
    destruct (offer_in_range _ _ _ _ Eo) as [El2 _]; [unfold in_range in *; simpl in *; by rewrite Eq|].
    split; [done|]. do 3 (split; [done|]). simpl in *. rewrite El2, El, <- app_assoc. done.
Qed.

(** ** Witnesses *)

Definition sample_timer_queue : sorted_list := pq_push (pq_push pq_empty (mkTimer 5 1 SIZE_MAX 70 None)) (mkTimer 90 SIZE_MAX SIZE_MAX 71 None).

Definition sample_worker : OnlineWorker sorted_list :=
  mkOW 0 default_wcfg sample_sched 0 SIZE_MAX SIZE_MAX 1 0 kDirect sample_timer_queue false.

Lemma swap_engine_queue_migrates_witness :
  ∃ w' new', swap_engine_queue 3 sample_worker (make_local kEngine kMedium "engine-direct" 200000) = Some (w', true)
    ∧ get_queue (ow_sched w') 1 = Some new' ∧ wq_contents new' = [make_coro 7; make_coro 8] ∧ dispatch_mode w' = kDirect.
Proof.
  destruct (swap_engine_queue_migrates sample_worker (filled kEngine kMedium [make_coro 7; make_coro 8])
    (make_local kEngine kMedium "engine-direct" 200000) eq_refl (proj1 (filled_sound _ _ _)) local_make_wf eq_refl eq_refl)
    as (w' & new' & E & Hq & Hc & Hm & _).
  exists w', new'. split; [exact E|]. split; [exact Hq|]. split; [exact Hc|exact Hm].
Defined.

Definition sample_group_cfg : GroupCfg := mkGCfg 3 0 true [] true true true.
Definition sample_topology : Topology := mkTopo [2; 2] [[0; 1]; [2; 3]].

Lemma online_group_layout_witness :
  match make_group (P:=sorted_list) sample_group_cfg sample_topology 0 new_registry with
  | Some (g, _) => worker_count g = 3 ∧ per_numa sample_group_cfg sample_topology = [2; 1]
  | None => False
  end.
Proof.
  destruct (make_group (P:=sorted_list) sample_group_cfg sample_topology 0 new_registry) as [[g reg']|] eqn:E.
  - split; [|reflexivity]. exact (proj1 (online_group_layout sample_group_cfg sample_topology 0 new_registry reg' g ltac:(done) eq_refl E)).
  - assert (match make_group (P:=sorted_list) sample_group_cfg sample_topology 0 new_registry with Some _ => true | None => false end = true)
      as Hs by (vm_compute; reflexivity). rewrite E in Hs. discriminate Hs.
Defined.

Lemma timer_turn_delivers_witness :
  match timer_turn (λ _, []) sample_worker 20 99 with
  | Some w' => ∃ ex, pq_nodes (timer_state sample_worker) ≡ₚ ex ++ pq_nodes (timer_state w') ∧ Forall (λ n, deadline n ≤ 20) ex
  | None => False
  end.
Proof.
  destruct (timer_turn (λ _, []) sample_worker 20 99) as [w'|] eqn:E.
  - destruct (timer_turn_delivers (λ _, []) sample_worker w' 20 99 E) as (ex & Hp & _ & Hd & _).
    + repeat constructor; vm_compute; discriminate || reflexivity.
    + done.
    + done.
    + exists ex. split; [exact Hp|exact Hd].
  - assert (match timer_turn (λ _, []) sample_worker 20 99 with Some _ => true | None => false end = true)
      as Hs by (vm_compute; reflexivity). rewrite E in Hs. discriminate Hs.
Defined.
