(* ===== verification/Feedback.v ===== *)
(** The closed-loop dispatch controller ([dispatch_types.h],
    [metrics_collector.h], [capacity_estimator.h], [strategy_decider.h],
    [strategy_executor.h], [feedback_loop.h], [feedback_loop.cc]).

    The collector holds pointers to the workers' counters, so [collect] takes
    the counters as they are at that moment.  Clocks are arguments.  Doubles
    are IEEE binary64. *)
From S2P Require Import Prelude Types Circ Rings WorkQueues Float64 Policies Metrics Scheduler Timers Registry Online.

(** ** [dispatch_types.h] *)

Inductive DispatchStrategy := kDirectAll | kDispatchSingle | kDispatchMultiple | kMixed.

Record DispatchPlan := mkPlan {
  strategy : DispatchStrategy;
  direct_workers : Z;
  dispatch_threads : Z;
  consumers_per_dispatch : Z
}.

#[export] Instance DispatchStrategy_eq : EqDecision DispatchStrategy.
Proof. solve_decision. Defined.
#[export] Instance DispatchPlan_eq : EqDecision DispatchPlan.
Proof. solve_decision. Defined.

Definition default_plan : DispatchPlan := mkPlan kDirectAll 0 0 0.

Record HardwareTopology := mkHW {
  cpu_cores : Z;
  numa_nodes : Z;
  nic_queues : Z;
  nic_bandwidth_gbps : double;
  disk_count : Z;
  disk_io_queues : Z;
  disk_bandwidth_gbps : double;
  eng_ops_per_core : double
}.

(** [cores] is what [sysconf(_SC_NPROCESSORS_ONLN)] returns. *)
Definition probe (cores : Z) : HardwareTopology :=
  mkHW (wrap64 cores) 1 4 (d_of_Z 10) 1 1 (d_lit 5 10) (d_of_Z 50000).

Inductive Stage := kNet | kEngineStage | kDisk | kBalanced.

Record BottleneckAnalysis := mkBA {
  c_net : double; c_eng : double; c_disk : double; c_total : double; ba_bottleneck : Stage; headroom : double
}.

Definition identify_bottleneck (net eng disk : double) : Stage :=
  if d_lt net eng && d_lt net disk then kNet
  else if d_lt eng net && d_lt eng disk then kEngineStage
  else if d_lt disk net && d_lt disk eng then kDisk
  else kBalanced.

(** [std::min] and [std::max] of an initializer list: the first extreme. *)
Definition d_min3 (a b c : double) : double :=
  let m := if d_lt b a then b else a in if d_lt c m then c else m.
Definition d_max3 (a b c : double) : double :=
  let m := if d_lt a b then b else a in if d_lt m c then c else m.

Definition ba_compute (net eng disk : double) : BottleneckAnalysis :=
  let total := d_min3 net eng disk in
  let max_cap := d_max3 net eng disk in
  mkBA net eng disk total (identify_bottleneck net eng disk)
    (if d_gt max_cap d_zero then d_div (d_sub max_cap total) max_cap else d_zero).

(** ** [metrics_collector.h] *)

Record QueueMetrics := mkQM {
  qm_type : Z;
  enqueued_delta : Z;
  executed_delta : Z;
  qm_exec_ns : Z;
  qm_avg_wait_ns : Z;
  qm_p50 : double;
  qm_p99 : double
}.

Record WorkerUtilization := mkWU { wu_worker_id : Z; busy_ns : Z; idle_ns : Z; park_count : Z }.

Record RuntimeMetrics := mkRM {
  rm_snapshot_ns : Z;
  elapsed_seconds : double;
  total_enqueued_delta : Z;
  total_executed_delta : Z;
  per_queue : list QueueMetrics;
  per_worker : list WorkerUtilization;
  io_ops_per_sec : double;
  io_bytes_per_sec : double
}.

Record Collector := mkCollector {
  attached : list Z;                 (* ids of the attached workers *)
  prev_last_ns : Z;
  prev_enqueued : Z;
  prev_executed : Z;
  io_ops : double;
  io_bytes : double
}.

Definition new_collector : Collector := mkCollector [] 0 0 0 d_zero d_zero.
Definition attach_worker (c : Collector) (id : Z) : Collector :=
  mkCollector (attached c ++ [id]) (prev_last_ns c) (prev_enqueued c) (prev_executed c) (io_ops c) (io_bytes c).
Definition set_io_metrics (c : Collector) (ops bytes : double) : Collector :=
  mkCollector (attached c) (prev_last_ns c) (prev_enqueued c) (prev_executed c) ops bytes.
Definition set_baseline (c : Collector) (ns enq exe : Z) : Collector :=
  mkCollector (attached c) ns enq exe (io_ops c) (io_bytes c).

Definition queue_metrics (qs : QueueSnapshotPerf) : QueueMetrics :=
  mkQM (qsp_type qs) (qsp_enqueued qs) (if 0 <? qsp_avg_exec_ns qs then qsp_enqueued qs else 0)
    (wrap64 (qsp_avg_exec_ns qs * qsp_enqueued qs)) (qsp_avg_wait_ns qs) (d_of_Z (qsp_p50_wait_ns qs)) (d_of_Z (qsp_p99_wait_ns qs)).

Definition sum64 (l : list Z) : Z := fold_left (λ a x, a +64 x) l 0.

Section Collect.
Context (perf_of : Z → WorkerPerf) (tsc : Z).       (* the counters behind the pointers *)

(** Every queue snapshot of every attached worker, with the worker's id. *)
Definition all_snapshots (c : Collector) : list (Z * QueueSnapshotPerf) :=
  mjoin ((λ id, (λ qs, (id, qs)) <$> ps_queues (perf_snapshot (perf_of id) tsc)) <$> attached c).

Definition collect (c : Collector) (now_ns : Z) : Collector * RuntimeMetrics :=
  let snaps := all_snapshots c in
  let total_enq := sum64 ((λ e, qsp_enqueued e.2) <$> snaps) in
  let total_exe := sum64 ((λ e, if (0 <? qsp_avg_exec_ns e.2) && (0 <? qsp_enqueued e.2) then qsp_enqueued e.2 else 0) <$> snaps) in
  let pq := (λ e, queue_metrics e.2) <$> snaps in
  let pw := (λ e, mkWU e.1 (wrap64 (qsp_avg_exec_ns e.2 * qsp_enqueued e.2)) 0 0) <$> snaps in
  let c' := set_baseline c now_ns total_enq total_exe in
  if prev_last_ns c =? 0 then (c', mkRM 0 d_zero 0 0 pq pw d_zero d_zero)
  else (c', mkRM now_ns (d_div (d_of_Z (now_ns -64 prev_last_ns c)) (d_of_Z 1000000000))
              (total_enq -64 prev_enqueued c) (total_exe -64 prev_executed c) pq pw (io_ops c) (io_bytes c)).
End Collect.

(** ** [capacity_estimator.h] *)

Record RealTimeCapacity := mkCap {
  arrival_rate : double;
  service_rate_per_core : double;
  utilization : double;
  avg_queue_depth : double;
  avg_latency_us : double;
  max_throughput : double;
  cap_bottleneck : Stage;
  headroom_pct : double
}.

Definition no_capacity : RealTimeCapacity := mkCap d_zero d_zero d_zero d_zero d_zero d_zero kNet d_zero.

Definition wait_sums (l : list QueueMetrics) : double * Z :=
  fold_left (λ a q, if 0 <? enqueued_delta q
                    then (d_add a.1 (d_of_Z (wrap64 (qm_avg_wait_ns q * enqueued_delta q))), a.2 +64 enqueued_delta q)
                    else a) l (d_zero, 0).

(** The last p99 of the queues of a type. *)
Definition last_p99 (t : QueueType) (l : list QueueMetrics) : double :=
  fold_left (λ a q, if qm_type q =? QueueType_code t then qm_p99 q else a) l d_zero.

Definition estimate (m : RuntimeMetrics) (active_workers : Z) : RealTimeCapacity :=
  if d_le (elapsed_seconds m) d_zero || (active_workers =? 0) then no_capacity
  else
    let el := elapsed_seconds m in
    let n := d_of_Z active_workers in
    let mu := d_div (d_div (d_of_Z (total_executed_delta m)) el) n in
    let busy := sum64 (qm_exec_ns <$> per_queue m) in
    let u := d_div (d_of_Z busy) (d_mul (d_mul el (d_of_Z 1000000000)) n) in
    let u := if d_gt u (d_of_Z 1) then d_of_Z 1 else u in
    let '(total_wait, wait_count) := wait_sums (per_queue m) in
    let lat := if 0 <? wait_count then d_div (d_div total_wait (d_of_Z wait_count)) (d_of_Z 1000) else d_zero in
    let eng := last_p99 kEngine (per_queue m) in
    let net := last_p99 kNetIO (per_queue m) in
    mkCap (d_div (d_of_Z (total_enqueued_delta m)) el) mu u
      (d_div u (d_add (d_sub (d_of_Z 1) u) (d_lit 1 10000))) lat (d_mul mu n)
      (if d_gt eng (d_mul net (d_of_Z 2)) && d_gt net d_zero then kEngineStage
       else if d_gt u (d_lit 8 10) then kEngineStage else kBalanced)
      (d_mul (d_sub (d_of_Z 1) u) (d_of_Z 100)).

(** ** [strategy_decider.h] *)

Record DeciderConfig := mkDCfg {
  utilization_high : double; utilization_low : double; latency_p99_degrade : double; hysteresis : double
}.
Definition default_decider_cfg : DeciderConfig := mkDCfg (d_lit 85 100) (d_lit 30 100) (d_of_Z 2) (d_lit 1 10).

Record Decider := mkDecider { d_cfg : DeciderConfig; baseline_latency_us : double }.
Definition new_decider (cfg : DeciderConfig) : Decider := mkDecider cfg d_zero.

Definition direct_all (hw : HardwareTopology) : DispatchPlan := mkPlan kDirectAll (nic_queues hw) 0 1.
Definition dispatch_single (hw : HardwareTopology) : DispatchPlan := mkPlan kDispatchSingle 0 1 (nic_queues hw).

Definition decide (d : Decider) (cap : RealTimeCapacity) (current : DispatchPlan) (hw : HardwareTopology)
  : Decider * option DispatchPlan :=
  let cfg := d_cfg d in
  let base := if d_eq (baseline_latency_us d) d_zero && d_gt (avg_latency_us cap) d_zero
              then avg_latency_us cap else baseline_latency_us d in
  let d' := mkDecider cfg base in
  let limit := d_mul base (latency_p99_degrade cfg) in
  let u := utilization cap in
  (d',
   if d_gt u (d_add (utilization_low cfg) (hysteresis cfg)) && d_lt u (d_sub (utilization_high cfg) (hysteresis cfg))
      && d_lt (avg_latency_us cap) limit then None
   else if d_gt u (utilization_high cfg) then
     if (direct_workers current +64 dispatch_threads current) +64 1 <=? nic_queues hw then Some (direct_all hw) else None
   else if d_lt u (utilization_low cfg) then Some (dispatch_single hw)
   else if d_gt base d_zero && d_gt (avg_latency_us cap) limit then Some (direct_all hw)
   else None).

(** ** [strategy_executor.h] *)

Record DecisionRecord := mkDecisionRecord {
  dr_timestamp_ns : Z;
  dr_from : DispatchPlan;
  dr_to : DispatchPlan;
  utilization_before : double;
  p99_latency_before : double;
  reason : string
}.

Definition record_decision (history : list DecisionRecord) (now : Z) (from to : DispatchPlan) (cap : RealTimeCapacity)
    (why : string) : list DecisionRecord :=
  history ++ [mkDecisionRecord now from to (utilization cap) (avg_latency_us cap) why].

(** ** [feedback_loop.cc] *)

Section Loop.
Context {P : Type} `{!PrioQueue P}.

Record FeedbackLoop := mkLoop {
  collector : Collector;
  decider : Decider;
  history : list DecisionRecord;
  group : option (Group P);
  consecutive_samples : Z;
  current_plan : DispatchPlan;
  hw : HardwareTopology;
  pending_plan : option DispatchPlan;
  consecutive_same : Z;
  tick_count : Z
}.

Definition new_loop (c : Collector) (d : Decider) (samples cores : Z) : FeedbackLoop :=
  mkLoop c d [] None samples (mkPlan kDirectAll 4 0 0) (probe cores) None 0 0.

Definition bind_workers (l : FeedbackLoop) (g : option (Group P)) : FeedbackLoop :=
  let p := current_plan l in
  let p' := match g with Some g => mkPlan (strategy p) 0 (dispatch_threads p) (worker_count g) | None => p end in
  mkLoop (collector l) (decider l) (history l) g (consecutive_samples l) p' (hw l) (pending_plan l)
    (consecutive_same l) (tick_count l).

(** The queue a worker gets under a plan. *)
Definition engine_queue (direct : bool) : option WorkQueue :=
  if direct then Some (make_local kEngine kMedium "engine-direct" 200000)
  else make_ring kEngine kMedium "engine-dispatch" 65536.

(** Enough turns for the loop of [swap_engine_queue]. *)
Definition swap_fuel (w : OnlineWorker P) : nat :=
  match get_queue (ow_sched w) (idx_engine w) with Some q => S (Z.to_nat (wq_approx_count q)) | None => 0 end.

Fixpoint apply_workers (plan : DispatchPlan) (i : Z) (ws : list (OnlineWorker P)) : option (list (OnlineWorker P)) :=
  match ws with
  | [] => Some []
  | w :: rest =>
      q ← engine_queue (i <? direct_workers plan);
      '(w', _) ← swap_engine_queue (swap_fuel w) w q;
      rest' ← apply_workers plan (i + 1) rest;
      Some (w' :: rest')
  end.

(** [None]: an enqueue of the migration never returns. *)
Definition apply_plan (g : option (Group P)) (plan : DispatchPlan) : option (option (Group P) * bool) :=
  match g with
  | None => Some (None, false)
  | Some g => ws ← apply_workers plan 0 (g_workers g); Some (Some (mkGroup ws (g_numa_lists g)), true)
  end.

(** The clocks and counters one tick reads. *)
Record TickEnv := mkEnv { now_steady : Z; now_tsc : Z; counters : Z → WorkerPerf }.

Definition active_workers (l : FeedbackLoop) : Z := match group l with Some g => worker_count g | None => 1 end.

(** Steps 1 to 3 of [tick]: [None] when the sample is too short. *)
Definition sample (l : FeedbackLoop) (e : TickEnv)
  : Collector * option (RealTimeCapacity * Decider * option DispatchPlan) :=
  let '(c, m) := collect (counters e) (now_tsc e) (collector l) (now_steady e) in
  (c, if d_lt (elapsed_seconds m) (d_of_Z 1) then None
      else let cap := estimate m (active_workers l) in
           let '(d, p) := decide (decider l) cap (current_plan l) (hw l) in Some (cap, d, p)).

Definition why (cap : RealTimeCapacity) : string :=
  if d_gt (utilization cap) (d_lit 8 10) then "overload"
  else if d_lt (utilization cap) (d_lit 3 10) then "underload" else "latency_spike".

Definition tick (l : FeedbackLoop) (e : TickEnv) : option (FeedbackLoop * bool) :=
  let n := tick_count l +64 1 in
  match sample l e with
  | (c, None) =>
      Some (mkLoop c (decider l) (history l) (group l) (consecutive_samples l) (current_plan l) (hw l)
              (pending_plan l) (consecutive_same l) n, false)
  | (c, Some (cap, d, None)) =>
      Some (mkLoop c d (history l) (group l) (consecutive_samples l) (current_plan l) (hw l) None 0 n, false)
  | (c, Some (cap, d, Some new_plan)) =>
      let same := if bool_decide (pending_plan l = Some new_plan) then consecutive_same l +64 1 else 1 in
      if consecutive_samples l <=? same then
        match apply_plan (group l) new_plan with
        | None => None
        | Some (g, ok) =>
            Some (mkLoop c d
                    (if ok then record_decision (history l) (now_steady e) (current_plan l) new_plan cap (why cap)
                     else history l)
                    g (consecutive_samples l) (if ok then new_plan else current_plan l) (hw l) None 0 n, ok)
        end
      else Some (mkLoop c d (history l) (group l) (consecutive_samples l) (current_plan l) (hw l) (Some new_plan) same n, false)
  end.
End Loop.
Arguments FeedbackLoop P : clear implicits.

(** ** Runs of the controller *)

Section LoopFacts.
Context {P : Type} `{!PrioQueue P}.

(** The decisions since the last switch, the latest first; ticks whose sample
    was too short decide nothing. *)
Inductive ticks (l0 : FeedbackLoop P) : list (option DispatchPlan) → FeedbackLoop P → Prop :=
| ticks_start : ticks l0 [] l0
| ticks_short h l e c l' b : ticks l0 h l → sample l e = (c, None) → tick l e = Some (l', b) → ticks l0 h l'
| ticks_decided h l e c cap d p l' b : ticks l0 h l → sample l e = (c, Some (cap, d, p)) →
    tick l e = Some (l', b) → ticks l0 (if b then [] else p :: h) l'.

(** The records of the switches, each from where the one before it led. *)
Fixpoint chained (p : DispatchPlan) (recs : list DecisionRecord) (q : DispatchPlan) : Prop :=
  match recs with
  | [] => p = q
  | r :: rest => dr_from r = p ∧ chained (dr_to r) rest q
  end.

Lemma chained_snoc p recs q r : chained p recs q → dr_from r = q → chained p (recs ++ [r]) (dr_to r).
Proof. revert p. induction recs as [|r0 recs IH]; intros p; simpl; [by intros -> ->|]. intros [-> Hc] Hr. auto. Qed.

Record loop_inv (l0 : FeedbackLoop P) (h : list (option DispatchPlan)) (l : FeedbackLoop P) : Prop := {
  li_samples : consecutive_samples l = consecutive_samples l0;
  li_none : pending_plan l = None → consecutive_same l = 0;
  li_some p : pending_plan l = Some p →
    0 < consecutive_same l < consecutive_samples l
    ∧ take (Z.to_nat (consecutive_same l)) h = replicate (Z.to_nat (consecutive_same l)) (Some p);
  li_chain : chained (current_plan l0) (history l) (current_plan l)
}.

(** The decisions a switch or a longer wait is based on. *)
Lemma same_extends l0 h l p :
  loop_inv l0 h l → 0 ≤ consecutive_samples l < W64 →
  let same := if bool_decide (pending_plan l = Some p) then consecutive_same l +64 1 else 1 in
  0 < same ∧ same ≤ Z.max 1 (consecutive_samples l)
  ∧ take (Z.to_nat same) (Some p :: h) = replicate (Z.to_nat same) (Some p).
Proof.
  intros Hi Hs same. unfold same. destruct (bool_decide_reflect (pending_plan l = Some p)) as [E|E].
  - destruct (li_some _ _ _ Hi p E) as [Hr Ht]. rewrite wrap64_small by lia. split; [lia|]. split; [lia|].
    replace (Z.to_nat (consecutive_same l + 1)) with (S (Z.to_nat (consecutive_same l))) by lia. simpl. by rewrite Ht.
  - split; [lia|]. split; [lia|done].
Qed.

Lemma tick_inv l0 h l e c cap d p l' b :
  0 ≤ consecutive_samples l0 < W64 → loop_inv l0 h l → sample l e = (c, Some (cap, d, p)) → tick l e = Some (l', b) →
  loop_inv l0 (if b then [] else p :: h) l'
  ∧ (b = true → ∃ plan, p = Some plan ∧ current_plan l' = plan
      ∧ take (Z.to_nat (consecutive_samples l0)) (p :: h) = replicate (Z.to_nat (consecutive_samples l0)) (Some plan)).
Proof.
  intros Hr Hi Es. unfold tick. rewrite Es. rewrite <- (li_samples _ _ _ Hi) in Hr.
  destruct p as [p|]; [|intros [= <- <-]; split; [|done]; split; simpl; [apply Hi|done|done|apply Hi]].
  destruct (same_extends l0 h l p Hi Hr) as (H0 & H1 & Ht).
  set (same := if bool_decide _ then _ else _) in *.
  destruct (Z.leb_spec (consecutive_samples l) same) as [Hle|Hgt].
  - assert (take (Z.to_nat (consecutive_samples l0)) (Some p :: h) = replicate (Z.to_nat (consecutive_samples l0)) (Some p)) as Ht'.
    { rewrite <- (li_samples _ _ _ Hi). apply (f_equal (take (Z.to_nat (consecutive_samples l)))) in Ht.
      rewrite take_take, take_replicate in Ht. by replace (Z.to_nat (consecutive_samples l) `min` Z.to_nat same)%nat
        with (Z.to_nat (consecutive_samples l)) in Ht by lia. }
    destruct (apply_plan (group l) p) as [[g ok]|]; [|done]. intros [= <- <-]. split.
    + split; simpl; [apply Hi|done|done|]. destruct ok; [|apply Hi].
      change p with (dr_to (mkDecisionRecord (now_steady e) (current_plan l) p (utilization cap) (avg_latency_us cap) (why cap))) at 2.
      apply chained_snoc with (current_plan l); [apply Hi|done].
    + intros ->. exists p. done.
  - intros [= <- <-]. split; [|done]. split; simpl; [apply Hi|done| |apply Hi]. intros q [= <-]. split; [lia|done].
Qed.

Lemma ticks_inv l0 h l :
  0 ≤ consecutive_samples l0 < W64 → pending_plan l0 = None → consecutive_same l0 = 0 → history l0 = [] →
  ticks l0 h l → loop_inv l0 h l.
Proof.
  intros Hr Hp Hs Hh. induction 1 as [|h l e c l' b _ IH E Et|h l e c cap d p l' b _ IH E Et].
  - split; [done|done|by rewrite Hp|by rewrite Hh].
  - unfold tick in Et. rewrite E in Et. injection Et as <- <-. split; apply IH.
  - by destruct (tick_inv l0 h l e c cap d p l' b Hr IH E Et).
Qed.
End LoopFacts.

(** ** Properties *)

(** C38: the controller is debounced and keeps an exact audit trail.  When a
    tick switches, the last [consecutive_samples] decisions since the previous
    switch all proposed the plan that is now current; and the recorded
    switches form a chain from the initial plan to the current one. *)
Theorem feedback_switch_debounced {P : Type} `{!PrioQueue P} (l0 l l' : FeedbackLoop P) (h : list (option DispatchPlan))
    (e : TickEnv) (c : Collector) (cap : RealTimeCapacity) (d : Decider) (p : option DispatchPlan) :
  0 ≤ consecutive_samples l0 < W64 → pending_plan l0 = None → consecutive_same l0 = 0 → history l0 = [] →
  ticks l0 h l → sample l e = (c, Some (cap, d, p)) → tick l e = Some (l', true) →
  p = Some (current_plan l')
  ∧ take (Z.to_nat (consecutive_samples l0)) (p :: h) = replicate (Z.to_nat (consecutive_samples l0)) (Some (current_plan l'))
  ∧ chained (current_plan l0) (history l') (current_plan l').
Proof.
  intros Hr Hp Hs Hh Ht E Et.
  destruct (tick_inv l0 h l e c cap d p l' true Hr (ticks_inv l0 h l Hr Hp Hs Hh Ht) E Et) as [Hi Hb].
  destruct (Hb eq_refl) as (plan & -> & <- & Htk). split; [done|]. split; [done|]. apply Hi.
Qed.

(** Ticks half a second apart never decide anything, however long they
    go on: each one moves the baseline although it discards the sample as too
    short, so the elapsed time never accumulates to the second that is
    required. *)
Theorem feedback_fast_ticks_never_decide {P : Type} `{!PrioQueue P} (l : FeedbackLoop P) (start : Z) (n : nat)
    (env : nat → TickEnv) :
  0 < start → prev_last_ns (collector l) = start →
  (∀ k, now_steady (env k) = start + (Z.of_nat k + 1) * 500000000) → start + (Z.of_nat n + 1) * 500000000 < W64 →
  ∃ l', foldl (λ s k, match s with Some l => match tick l (env k) with Some (l', false) => Some l' | _ => None end
                                 | None => None end) (Some l) (seq 0 n) = Some l'
    ∧ current_plan l' = current_plan l ∧ history l' = history l ∧ pending_plan l' = pending_plan l
    ∧ prev_last_ns (collector l') = start + Z.of_nat n * 500000000.
Proof.
  intros H0 Hc Henv Hw. induction n as [|n IH]; [exists l; simpl; rewrite Hc; repeat split; lia|].
  rewrite seq_S, foldl_snoc. destruct IH as (l1 & -> & E1 & E2 & E3 & E4); [lia|]. cbn [Nat.add].
  unfold tick, sample, collect. rewrite E4, Henv.
  destruct (Z.eqb_spec (start + Z.of_nat n * 500000000) 0) as [Hz|_]; [lia|].
  replace (start + (Z.of_nat n + 1) * 500000000 -64 (start + Z.of_nat n * 500000000)) with 500000000
    by (rewrite wrap64_small; unfold W64 in *; lia).
  cbn [elapsed_seconds].
  replace (d_lt (d_div (d_of_Z 500000000) (d_of_Z 1000000000)) (d_of_Z 1)) with true by (vm_compute; reflexivity).
  eexists. split; [reflexivity|]. simpl. repeat split; try done. lia.
Qed.

(** Under a load that stays low the decider proposes single dispatch even
    when that is the current plan already, so the controller keeps swapping
    every worker's queue for nothing: the record it appends leads from a plan
    to itself. *)
Theorem decider_reproposes_current_plan :
  (decide (new_decider default_decider_cfg)
     (mkCap d_zero d_zero (d_lit 1 10) d_zero d_zero d_zero kBalanced d_zero)
     (dispatch_single (probe 8)) (probe 8)).2 = Some (dispatch_single (probe 8)).
Proof. vm_compute. reflexivity. Qed.

(** ** Witnesses *)

Definition idle_env (ns : Z) : TickEnv := mkEnv ns 0 (λ _, new_perf 0).

(** A loop with a group of no workers that switches on the first decision. *)
Definition sample_loop : FeedbackLoop sorted_list :=
  mkLoop (mkCollector [] 1000 0 0 d_zero d_zero) (new_decider default_decider_cfg) [] (Some (mkGroup [] []))
    1 default_plan (probe 8) None 0 0.

Lemma feedback_switch_debounced_witness :
  match sample sample_loop (idle_env 2000001000), tick sample_loop (idle_env 2000001000) with
  | (_, Some (_, _, p)), Some (l', true) => p = Some (current_plan l') ∧ current_plan l' = dispatch_single (probe 8)
  | _, _ => False
  end.
Proof.
  destruct (sample sample_loop (idle_env 2000001000)) as [c [[[cap d] p]|]] eqn:Es; [|vm_compute in Es; discriminate Es].
  destruct (tick sample_loop (idle_env 2000001000)) as [[l' []]|] eqn:Et; [|vm_compute in Et; discriminate Et..].
  split.
  - refine (proj1 (feedback_switch_debounced sample_loop sample_loop l' [] (idle_env 2000001000) c cap d p _ _ _ _ _ Es Et));
      [split; vm_compute; congruence|reflexivity..|apply ticks_start].
  - vm_compute in Et. injection Et as <-. reflexivity.
Defined.

Lemma feedback_fast_ticks_never_decide_witness :
  ∃ l', foldl (λ s k, match s with Some l => match tick l (idle_env (1000 + (Z.of_nat k + 1) * 500000000)) with Some (l', false) => Some l' | _ => None end
                                 | None => None end) (Some sample_loop) (seq 0 10) = Some l' ∧ history l' = [].
Proof.
  destruct (feedback_fast_ticks_never_decide sample_loop 1000 10 (λ k, idle_env (1000 + (Z.of_nat k + 1) * 500000000))
    ltac:(done) eq_refl (λ k, eq_refl) ltac:(done)) as (l' & E & _ & Hh & _).
  exists l'. split; [exact E|exact Hh].
Defined.
