(* ===== verification/IoBackend.v ===== *)
(** The I/O interface: [io_request.h], [io_backend.h] and [io_backend.cc].

    [IIOBackend] is the abstract class.  [IIOBackendLaws] is the contract of a
    back end, a ledger of requests: a request that was accepted is outstanding
    until its callback is invoked, and it is invoked once.  The coroutine calls
    [co_read] and [co_write] are a client of that contract; the three back ends
    discharge it in [IoLibaio], [IoUring] and [IoSpdk].

    A callback is recorded as an effect of the call that invokes it; the only
    callback of the repository, [io_rw_complete], is run by [deliver]. *)
From S2P Require Import Prelude.

(** ** [io_request.h] *)

Inductive Op := kRead | kWrite | kFlush | kTrim.

Record IOCompletion := mkComp { user_data : Z; c_result : Z }.

Record IORequest := mkReq {
  r_op : Op;
  r_fd : Z;
  r_offset : Z;
  r_buf : Z;
  r_len : Z;
  r_trace_id : Z;
  callback_fn : Z;      (* 0 is the null pointer *)
  callback_ctx : Z
}.

Definition default_req : IORequest := mkReq kRead (-1) 0 0 0 0 0 0.
#[export] Instance IORequest_inhabited : Inhabited IORequest := populate default_req.
#[export] Instance Op_eq : EqDecision Op.
Proof. solve_decision. Defined.
#[export] Instance IORequest_eq : EqDecision IORequest.
Proof. solve_decision. Defined.
#[export] Instance IOCompletion_eq : EqDecision IOCompletion.
Proof. solve_decision. Defined.

(** One call of a callback: which function, with which context and completion. *)
Record Callback := mkCall { call_fn : Z; call_ctx : Z; call_comp : IOCompletion }.

Definition invoke_callback (r : IORequest) (comp : IOCompletion) : list Callback :=
  if callback_fn r =? 0 then [] else [mkCall (callback_fn r) (callback_ctx r) comp].

(** Error numbers the back ends report. *)
Definition EIO : Z := 5.
Definition EAGAIN : Z := 11.
Definition EINVAL : Z := 22.
Definition ENOSYS : Z := 38.
Definition ENOBUFS : Z := 105.

(** ** The abstract class

    [None] stands for an exception of [be_submit] and for a failed assertion
    or an access out of range of [be_poll]. *)
Class IIOBackend (B : Type) := {
  be_name : B → string;
  be_submit : B → IORequest → option (B * list Callback);
  be_submit_batch : B → list IORequest → option (B * list Callback);
  be_flush_pending : B → option (B * list Callback);
  be_pending_count : B → Z;
  be_flush_submissions : B → B;
  be_has_sqe_submitted : B → bool;
  be_flush_cqe_task_work : B → B;
  be_poll : B → Z → option (B * list Callback * list IOCompletion)
}.

(** The default bodies of the virtual functions. *)
Section Defaults.
Context {B : Type} (submit : B → IORequest → option (B * list Callback)).

Fixpoint default_submit_batch (b : B) (requests : list IORequest) : option (B * list Callback) :=
  match requests with
  | [] => Some (b, [])
  | req :: rest =>
      '(b1, calls1) ← submit b req;
      '(b2, calls2) ← default_submit_batch b1 rest;
      Some (b2, calls1 ++ calls2)
  end.

Definition default_flush_pending (b : B) : option (B * list Callback) := Some (b, []).
Definition default_pending_count (b : B) : Z := 0.
Definition default_flush_submissions (b : B) : B := b.
Definition default_has_sqe_submitted (b : B) : bool := false.
Definition default_flush_cqe_task_work (b : B) : B := b.
End Defaults.

(** ** The contract

    [answers done calls]: [calls] are the callbacks of the requests [done], in
    order, each with some completion; a request without a callback function is
    answered silently. *)
Inductive answers : list IORequest → list Callback → Prop :=
| answers_nil : answers [] []
| answers_cons r comp done calls :
    answers done calls → answers (r :: done) (invoke_callback r comp ++ calls).

(** The requests every back end serves. *)
Definition servable (r : IORequest) : Prop := r_op r = kRead ∨ r_op r = kWrite.

(** A call moved [before] to [after]: every request of [before] is answered by
    [calls] or still in [after], and nothing else is. *)
Definition settles (before : list IORequest) (calls : list Callback) (after : list IORequest) : Prop :=
  ∃ done, answers done calls ∧ before ≡ₚ done ++ after.

Class IIOBackendLaws (B : Type) `{!IIOBackend B} := {
  be_inv : B → Prop;
  be_outstanding : B → list IORequest;
  be_issued : B → Z;                     (* requests accepted so far *)
  submit_law b req :
    be_inv b → servable req → be_issued b < SIZE_MAX →
    ∃ b' calls, be_submit b req = Some (b', calls) ∧ be_inv b'
      ∧ be_issued b' ≤ be_issued b + 1
      ∧ settles (req :: be_outstanding b) calls (be_outstanding b');
  flush_pending_law b :
    be_inv b → be_issued b ≤ SIZE_MAX →
    ∃ b' calls, be_flush_pending b = Some (b', calls) ∧ be_inv b' ∧ be_issued b' ≤ be_issued b
      ∧ settles (be_outstanding b) calls (be_outstanding b');
  flush_submissions_law b :
    be_inv b → be_inv (be_flush_submissions b)
      ∧ be_issued (be_flush_submissions b) = be_issued b
      ∧ be_outstanding (be_flush_submissions b) ≡ₚ be_outstanding b;
  poll_law b max :
    be_inv b → 0 < max →
    ∃ b' calls out, be_poll b max = Some (b', calls, out) ∧ be_inv b'
      ∧ be_issued b' = be_issued b ∧ Z.of_nat (length out) ≤ max
      ∧ settles (be_outstanding b) calls (be_outstanding b')
}.

(** ** Facts on the ledger *)

Lemma answers_app d1 c1 d2 c2 : answers d1 c1 → answers d2 c2 → answers (d1 ++ d2) (c1 ++ c2).
Proof. induction 1; simpl; [done|]. intros. rewrite <- (assoc_L (++)). constructor. auto. Qed.

Lemma answers_one r comp : answers [r] (invoke_callback r comp).
Proof. rewrite <- (app_nil_r (invoke_callback r comp)). repeat constructor. Qed.

#[export] Hint Resolve answers_app answers_one answers_nil : runtime.

Lemma settles_refl l : settles l [] l.
Proof. exists []. split; [constructor|done]. Qed.

Lemma settles_perm l1 l2 : l1 ≡ₚ l2 → settles l1 [] l2.
Proof. intros. exists []. split; [constructor|done]. Qed.

Lemma settles_now r comp l : settles (r :: l) (invoke_callback r comp) l.
Proof. exists [r]. split; auto with runtime. Qed.

Lemma settles_trans l1 c1 l2 c2 l3 : settles l1 c1 l2 → settles l2 c2 l3 → settles l1 (c1 ++ c2) l3.
Proof.
  intros (d1 & A1 & P1) (d2 & A2 & P2). exists (d1 ++ d2). split; [auto with runtime|].
  by rewrite P1, P2, (assoc_L (++)).
Qed.

Lemma settles_frame k l1 c l2 : settles l1 c l2 → settles (k ++ l1) c (k ++ l2).
Proof.
  intros (d & A & P). exists d. split; [done|]. rewrite P. by rewrite !(assoc_L (++)), (Permutation_app_comm k d).
Qed.

#[export] Instance settles_proper : Proper ((≡ₚ) ==> (=) ==> (≡ₚ) ==> iff) settles.
Proof.
  intros l1 l1' H1 c ? <- l2 l2' H2. unfold settles.
  split; intros (d & A & P); exists d; (split; [done|]).
  - by rewrite <- H1, P, H2.
  - by rewrite H1, P, H2.
Qed.

#[export] Hint Resolve settles_refl settles_perm settles_now : runtime.

(** ** [IIOBackend::co_read] and [co_write]

    The [IOState] of each call lives in the frame of its coroutine, so calls
    are numbered by their frames.  [baton_posts] counts the calls of
    [baton.post]; the call returns [result] once the baton is posted. *)
Record IOState := mkIOState { baton_posts : nat; io_result : IOCompletion; thrown : bool }.

Definition io_state0 : IOState := mkIOState 0 (mkComp 0 0) false.

(** The address of [io_rw_complete]. *)
Definition io_rw_complete_fn : Z := 4198400.

Definition io_rw_complete (st : IOState) (comp : IOCompletion) : IOState :=
  mkIOState (S (baton_posts st)) comp (thrown st).

(** Run the callbacks of a back-end call on the frames they point to. *)
Definition deliver (frames : list IOState) (calls : list Callback) : list IOState :=
  fold_left (λ fs c, alter (λ st, io_rw_complete st (call_comp c)) (Z.to_nat (call_ctx c)) fs) calls frames.

Definition co_request (op : Op) (fd offset buf len : Z) (frame : nat) : IORequest :=
  mkReq op fd offset buf len 0 io_rw_complete_fn (Z.of_nat frame).

Section Client.
Context {B : Type} `{!IIOBackend B}.

Record Client := mkClient { cl_backend : B; cl_frames : list IOState }.

(** Start of [co_read] or [co_write]: a new frame, then [submit]; an exception
    ends the call with [-EIO]. *)
Definition co_rw (c : Client) (op : Op) (fd offset buf len : Z) : Client :=
  let n := length (cl_frames c) in
  match be_submit (cl_backend c) (co_request op fd offset buf len n) with
  | None => mkClient (cl_backend c) (cl_frames c ++ [mkIOState 0 (mkComp 0 (- EIO)) true])
  | Some (b', calls) => mkClient b' (deliver (cl_frames c ++ [io_state0]) calls)
  end.

Definition co_read (c : Client) := co_rw c kRead.
Definition co_write (c : Client) := co_rw c kWrite.

(** What the call of frame [n] has returned, if it has. *)
Definition co_returned (c : Client) (n : nat) : option IOCompletion :=
  st ← cl_frames c !! n;
  if thrown st then Some (io_result st)
  else if decide (baton_posts st = 0%nat) then None else Some (io_result st).

(** One turn of [io_poll_coro_fn] in [online_worker.cc]: flush, submit, poll
    at most 64 completions. *)
Definition io_poll_turn (c : Client) : option Client :=
  '(b1, calls1) ← be_flush_pending (cl_backend c);
  '(b2, calls2, _) ← be_poll (be_flush_submissions b1) 64;
  Some (mkClient b2 (deliver (deliver (cl_frames c) calls1) calls2)).

Inductive IoOp := OpRead (fd offset buf len : Z) | OpWrite (fd offset buf len : Z) | OpPoll.

Definition io_op (c : Client) (o : IoOp) : option Client :=
  match o with
  | OpRead fd offset buf len => Some (co_read c fd offset buf len)
  | OpWrite fd offset buf len => Some (co_write c fd offset buf len)
  | OpPoll => io_poll_turn c
  end.

Fixpoint io_run (c : Client) (ops : list IoOp) : option Client :=
  match ops with
  | [] => Some c
  | o :: rest => c' ← io_op c o; io_run c' rest
  end.
End Client.

Arguments Client B : clear implicits.

(** ** The calls of a client on any back end *)

(** How many of the requests [l] belong to frame [n]. *)
Definition owed (n : nat) (l : list IORequest) : nat :=
  length (filter (λ r, callback_ctx r = Z.of_nat n) l).

(** Requests made by [co_read] and [co_write] for one of [k] frames. *)
Definition from_frames (k : nat) (r : IORequest) : Prop :=
  callback_fn r = io_rw_complete_fn ∧ ∃ n, callback_ctx r = Z.of_nat n ∧ (n < k)%nat.

#[export] Instance owed_proper n : Proper ((≡ₚ) ==> (=)) (owed n).
Proof. intros l1 l2 H. unfold owed. by rewrite H. Qed.

Lemma owed_app n l k : owed n (l ++ k) = (owed n l + owed n k)%nat.
Proof. unfold owed. by rewrite filter_app, length_app. Qed.

Lemma owed_beyond n k l : Forall (from_frames k) l → (k ≤ n)%nat → owed n l = 0%nat.
Proof.
  intros H Hn. unfold owed. rewrite list_filter_none; [done|].
  eapply Forall_impl; [exact H|]. intros r (_ & m & Hc & ?) HH. rewrite Hc in HH. lia.
Qed.

Lemma deliver_length frames calls : length (deliver frames calls) = length frames.
Proof.
  revert frames. induction calls as [|c calls IH]; intros frames; [done|].
  simpl. by rewrite IH, length_alter.
Qed.

(** The callbacks of [done] post the baton of frame [n] as often as [n] is owed
    an answer by [done], and touch nothing else of it. *)
Lemma deliver_posts k done calls frames n st :
  answers done calls → Forall (from_frames k) done → frames !! n = Some st →
  ∃ st', deliver frames calls !! n = Some st'
    ∧ baton_posts st' = (baton_posts st + owed n done)%nat ∧ thrown st' = thrown st.
Proof.
  intros HA. revert frames st. induction HA as [|r comp done calls HA IH]; intros frames st HF Hn.
  { exists st. unfold owed. simpl. repeat split; [done|lia]. }
  apply Forall_cons in HF as [(Hfn & m & Hctx & Hm) HF].
  unfold invoke_callback. rewrite Hfn. simpl. rewrite Hctx, Nat2Z.id.
  unfold owed. rewrite filter_cons, Hctx.
  destruct (decide (m = n)) as [->|Hne].
  - rewrite decide_True by done.
    destruct (IH (alter (λ st, io_rw_complete st comp) n frames) (io_rw_complete st comp))
      as (st' & H1 & H2 & H3); [done|by rewrite list_lookup_alter_eq, Hn|].
    exists st'. simpl in *. unfold owed in H2. split; [done|]. split; [lia|done].
  - rewrite decide_False by lia.
    destruct (IH (alter (λ st, io_rw_complete st comp) m frames) st) as (st' & ? & ? & ?);
      [done|by rewrite list_lookup_alter_ne|].
    by exists st'.
Qed.

Section ClientFacts.
Context {B : Type} `{!IIOBackend B, !IIOBackendLaws B}.

(** Every call that was made is answered once, or owed one answer. *)
Record client_inv (c : Client B) : Prop := {
  ci_backend : be_inv (cl_backend c);
  ci_frames : Forall (from_frames (length (cl_frames c))) (be_outstanding (cl_backend c));
  ci_once n st : cl_frames c !! n = Some st →
    thrown st = false ∧ (baton_posts st + owed n (be_outstanding (cl_backend c)) = 1)%nat
}.

Lemma settles_from_frames k before calls after :
  settles before calls after → Forall (from_frames k) before →
  ∃ done, answers done calls ∧ before ≡ₚ done ++ after
    ∧ Forall (from_frames k) done ∧ Forall (from_frames k) after.
Proof.
  intros (done & HA & HP) HF. exists done. rewrite HP in HF. apply Forall_app in HF as [? ?]. done.
Qed.

(** Delivering the callbacks of a back-end call keeps the balance. *)
Lemma client_settles frames b' before calls :
  be_inv b' → settles before calls (be_outstanding b') →
  Forall (from_frames (length frames)) before →
  (∀ n st, frames !! n = Some st → thrown st = false ∧ (baton_posts st + owed n before = 1)%nat) →
  client_inv (mkClient b' (deliver frames calls)).
Proof.
  intros Hinv Hs HF Hone.
  destruct (settles_from_frames _ _ _ _ Hs HF) as (done & HA & HP & HF1 & HF2).
  split; simpl; [done|by rewrite deliver_length|].
  intros n st Hn.
  destruct (frames !! n) as [st0|] eqn:E.
  2:{ apply lookup_ge_None in E. apply lookup_lt_Some in Hn. rewrite deliver_length in Hn. lia. }
  destruct (Hone _ _ E) as [Ht Hb].
  destruct (deliver_posts _ _ _ _ _ _ HA HF1 E) as (st' & E' & Hp & Ht'). simplify_eq.
  rewrite HP, owed_app in Hb. rewrite Ht'. split; [done|lia].
Qed.

Lemma client_inv_rw c op fd offset buf len :
  op = kRead ∨ op = kWrite → client_inv c → be_issued (cl_backend c) < SIZE_MAX →
  client_inv (co_rw c op fd offset buf len)
  ∧ be_issued (cl_backend (co_rw c op fd offset buf len)) ≤ be_issued (cl_backend c) + 1
  ∧ length (cl_frames (co_rw c op fd offset buf len)) = S (length (cl_frames c)).
Proof.
  intros Hop [Hb HF Hone] Hlt. unfold co_rw.
  set (n := length (cl_frames c)). set (req := co_request op fd offset buf len n).
  destruct (submit_law (cl_backend c) req) as (b' & calls & -> & Hb' & Hi & Hs); [done|done|done|].
  simpl. split; [|by rewrite deliver_length, length_app; simpl; lia].
  eapply client_settles; [done|exact Hs| |].
  - rewrite length_app. simpl. constructor.
    + split; [done|]. exists n. split; [done|]. subst n. lia.
    + eapply Forall_impl; [exact HF|]. intros r (? & m & ? & ?). split; [done|]. exists m. split; [done|lia].
  - intros m st Hm. unfold owed. rewrite filter_cons. change (callback_ctx req) with (Z.of_nat n).
    apply lookup_app_Some in Hm as [Hm|[Hge Hm]].
    + apply lookup_lt_Some in Hm as Hlt'. rewrite decide_False by (subst n; lia). by apply Hone.
    + fold n in Hge, Hm. destruct (m - n)%nat as [|j] eqn:E; [|done]. simplify_eq/=.
      rewrite decide_True by (f_equal; lia). simpl. fold (owed m (be_outstanding (cl_backend c))).
      rewrite (owed_beyond m n) by done. done.
Qed.

Lemma client_inv_poll c :
  client_inv c → be_issued (cl_backend c) ≤ SIZE_MAX →
  ∃ c', io_poll_turn c = Some c' ∧ client_inv c'
    ∧ be_issued (cl_backend c') ≤ be_issued (cl_backend c)
    ∧ length (cl_frames c') = length (cl_frames c).
Proof.
  intros [Hb HF Hone] Hi. unfold io_poll_turn.
  destruct (flush_pending_law (cl_backend c)) as (b1 & calls1 & -> & Hb1 & Hi1 & Hs1); [done|done|]. simpl.
  destruct (client_settles (cl_frames c) b1 _ _ Hb1 Hs1 HF Hone) as [_ HF1 Hone1].
  destruct (flush_submissions_law b1 Hb1) as (Hb2 & Hi2 & HP2).
  destruct (poll_law (be_flush_submissions b1) 64) as (b3 & calls3 & out & -> & Hb3 & Hi3 & _ & Hs3); [done|lia|].
  simpl. eexists. split; [done|]. simpl. rewrite !deliver_length. split; [|split; [lia|done]].
  eapply client_settles; [done|rewrite HP2 in Hs3; exact Hs3|done|done].
Qed.

Lemma client_inv_op c o :
  client_inv c → be_issued (cl_backend c) < SIZE_MAX →
  ∃ c', io_op c o = Some c' ∧ client_inv c' ∧ be_issued (cl_backend c') ≤ be_issued (cl_backend c) + 1
    ∧ (length (cl_frames c) ≤ length (cl_frames c'))%nat.
Proof.
  intros Hc Hlt. destruct o as [fd off buf len|fd off buf len|]; simpl.
  - destruct (client_inv_rw c kRead fd off buf len) as (? & ? & ?); auto.
    eexists. repeat split_and; [done|done|done|unfold co_read; lia].
  - destruct (client_inv_rw c kWrite fd off buf len) as (? & ? & ?); auto.
    eexists. repeat split_and; [done|done|done|unfold co_write; lia].
  - destruct (client_inv_poll c) as (c' & ? & ? & ? & ?); [done|lia|].
    exists c'. repeat split_and; [done|done|lia|lia].
Qed.

Lemma client_inv_run ops c :
  client_inv c → be_issued (cl_backend c) + Z.of_nat (length ops) ≤ SIZE_MAX →
  ∃ c', io_run c ops = Some c' ∧ client_inv c'.
Proof.
  revert c. induction ops as [|o ops IH]; intros c Hc Hi; simpl in *; [eauto|].
  destruct (client_inv_op c o) as (c1 & -> & Hc1 & Hi1 & _); [done|lia|]. simpl. apply IH; [done|lia].
Qed.
End ClientFacts.

(** On any back end that keeps the contract, every sequence of [co_read],
    [co_write] and poll turns runs without a failed assertion, and afterwards
    each call has had its baton posted exactly once, and has returned, or has
    not returned and exactly one request of it is outstanding at the back end. *)
Lemma co_io_answered_once {B : Type} `{!IIOBackend B, !IIOBackendLaws B} (b : B) (ops : list IoOp) :
  be_inv b → be_outstanding b = [] → be_issued b + Z.of_nat (length ops) ≤ SIZE_MAX →
  ∃ c, io_run (mkClient b []) ops = Some c
    ∧ ∀ n, (n < length (cl_frames c))%nat →
        ∃ st, cl_frames c !! n = Some st
          ∧ ((baton_posts st = 1%nat ∧ co_returned c n = Some (io_result st)
              ∧ owed n (be_outstanding (cl_backend c)) = 0%nat)
             ∨ (co_returned c n = None ∧ owed n (be_outstanding (cl_backend c)) = 1%nat)).
Proof.
  intros Hb Ho Hi. destruct (client_inv_run ops (mkClient b [])) as (c & Hrun & [_ _ Hone]); [|done|].
  { split; simpl; [done|by rewrite Ho; constructor|done]. }
  exists c. split; [done|]. intros n Hn. apply lookup_lt_is_Some_2 in Hn as [st Hst].
  exists st. split; [done|]. destruct (Hone _ _ Hst) as [Ht Hsum].
  unfold co_returned. rewrite Hst. simpl. rewrite Ht.
  destruct (baton_posts st) as [|[|?]]; simpl in *; [right|left|lia]; repeat split; lia.
Qed.
