(* ===== verification/IoLibaio.v ===== *)
(** [LibaioBackend] ([libaio_backend.h/.cc]).

    libaio and the kernel are the class [Aio]: [io_submit] of one control block
    and [io_getevents], with a zero timeout.  [AioLaws] states the documented
    behaviour: a block that was accepted stays in flight until one event with
    its [data] is returned. *)
From S2P Require Import Prelude IoBackend.

Inductive IocbCmd := IO_CMD_PREAD | IO_CMD_PWRITE.

Record Iocb := mkIocb {
  cb_cmd : IocbCmd; cb_fd : Z; cb_buf : Z; cb_nbytes : Z; cb_offset : Z; cb_data : Z }.

Record IoEvent := mkEvent { ev_data : Z; ev_res : Z }.

Class Aio (K : Type) := {
  io_submit : K → Iocb → K * Z;
  io_getevents : K → Z → K * (Z + list IoEvent)    (* [inl] a negative return value *)
}.

Class AioLaws (K : Type) `{!Aio K} := {
  aio_inflight : K → list Z;
  io_submit_law k cb k' ret :
    io_submit k cb = (k', ret) →
    (ret < 0 ∧ aio_inflight k' = aio_inflight k)
    ∨ (0 ≤ ret ∧ aio_inflight k' ≡ₚ cb_data cb :: aio_inflight k);
  io_getevents_error k nr k' ret :
    io_getevents k nr = (k', inl ret) → ret < 0 ∧ aio_inflight k' = aio_inflight k;
  io_getevents_law k nr k' evs :
    io_getevents k nr = (k', inr evs) →
    Z.of_nat (length evs) ≤ nr ∧ aio_inflight k ≡ₚ (ev_data <$> evs) ++ aio_inflight k'
}.

(** [std::vector::resize]. *)
Definition resize (n : nat) (l : list IORequest) : list IORequest :=
  take n l ++ replicate (n - length l) default_req.

(** Room for index [idx]: [pending_.resize(idx + 1)] when it is too short. *)
Definition grow_to (idx : Z) (l : list IORequest) : list IORequest :=
  if Z.of_nat (length l) <=? idx then resize (Z.to_nat (idx + 1)) l else l.

Section Backend.
Context {K : Type} `{!Aio K}.

Record LibaioBackend := mkLibaio {
  la_queue_depth : Z;
  la_ctx : K;
  la_pending : list IORequest;
  la_submit_count : Z
}.

(** The constructor; [setup] is the context [io_setup] returns, or its error. *)
Definition make_libaio (queue_depth : Z) (setup : Z + K) : Z + LibaioBackend :=
  match setup with
  | inl ret => inl ret
  | inr ctx => inr (mkLibaio queue_depth ctx (replicate (Z.to_nat (wrap64 (queue_depth * 2))) default_req) 0)
  end.

(** The control block of a read or write. *)
Definition prep (r : IORequest) (idx : Z) : option Iocb :=
  match r_op r with
  | kRead => Some (mkIocb IO_CMD_PREAD (r_fd r) (r_buf r) (r_len r) (r_offset r) idx)
  | kWrite => Some (mkIocb IO_CMD_PWRITE (r_fd r) (r_buf r) (r_len r) (r_offset r) idx)
  | _ => None
  end.

Definition la_submit (b : LibaioBackend) (req : IORequest) : LibaioBackend * list Callback :=
  let idx := la_submit_count b in
  let pending := <[Z.to_nat idx := req]> (grow_to idx (la_pending b)) in
  match prep req idx with
  | None => (mkLibaio (la_queue_depth b) (la_ctx b) pending (idx +64 1), [])
  | Some cb =>
      let '(ctx, ret) := io_submit (la_ctx b) cb in
      (mkLibaio (la_queue_depth b) ctx pending (idx +64 1),
       if ret <? 0 then invoke_callback req (mkComp idx ret) else [])
  end.

(** The completion of one event and the callback it triggers. *)
Definition la_event_comp (e : IoEvent) : IOCompletion := mkComp (ev_data e) (ev_res e).
Definition la_event (pending : list IORequest) (e : IoEvent) : list Callback :=
  match pending !! Z.to_nat (ev_data e) with
  | Some r => invoke_callback r (la_event_comp e)
  | None => []
  end.

Definition la_poll (b : LibaioBackend) (max : Z) : LibaioBackend * list Callback * list IOCompletion :=
  let '(ctx, r) := io_getevents (la_ctx b) (Z.min max 64) in
  let b' := mkLibaio (la_queue_depth b) ctx (la_pending b) (la_submit_count b) in
  match r with
  | inl ret => (b', [], [mkComp 0 ret])
  | inr evs => (b', evs ≫= la_event (la_pending b), la_event_comp <$> evs)
  end.

#[export] Instance LibaioBackend_ops : IIOBackend LibaioBackend := {
  be_name _ := "libaio"%string;
  be_submit b r := Some (la_submit b r);
  be_submit_batch := default_submit_batch (λ b r, Some (la_submit b r));
  be_flush_pending := default_flush_pending;
  be_pending_count := default_pending_count;
  be_flush_submissions := default_flush_submissions;
  be_has_sqe_submitted := default_has_sqe_submitted;
  be_flush_cqe_task_work := default_flush_cqe_task_work;
  be_poll b max := Some (la_poll b max)
}.
End Backend.

Arguments LibaioBackend K : clear implicits.

(** ** The table of requests *)

(** The requests recorded under the indices [ids]. *)
Definition at_ids (pending : list IORequest) (ids : list Z) : list IORequest :=
  (λ i, pending !!! Z.to_nat i) <$> ids.

(** Indices handed out: below the counter, which the table covers. *)
Definition ids_ok (count : Z) (pending : list IORequest) (ids : list Z) : Prop :=
  0 ≤ count ≤ SIZE_MAX ∧ count ≤ Z.of_nat (length pending) ∧ Forall (λ i, 0 ≤ i < count) ids.

#[export] Instance at_ids_proper p : Proper ((≡ₚ) ==> (≡ₚ)) (at_ids p).
Proof. intros ? ? H. unfold at_ids. by rewrite H. Qed.

Lemma at_ids_app p l k : at_ids p (l ++ k) = at_ids p l ++ at_ids p k.
Proof. apply fmap_app. Qed.

Lemma ids_ok_perm count p l k : l ≡ₚ k → ids_ok count p l → ids_ok count p k.
Proof. unfold ids_ok. by intros ->. Qed.

Lemma resize_prefix n l : (length l ≤ n)%nat → resize n l = l ++ replicate (n - length l) default_req.
Proof. intros. unfold resize. by rewrite take_ge. Qed.

Lemma length_resize n l : length (resize n l) = n.
Proof. unfold resize. rewrite length_app, length_take, length_replicate. lia. Qed.

(** A table grown for index [count] and written there keeps the requests of
    the indices below. *)
Lemma at_ids_write count p p' ids req :
  ids_ok count p ids → (∃ tl, p' = p ++ tl) →
  at_ids (<[Z.to_nat count := req]> p') ids = at_ids p ids.
Proof.
  intros (Hc & Hl & HF) [tl ->]. apply list_fmap_ext. intros j i Hj.
  rewrite Forall_lookup in HF. specialize (HF _ _ Hj).
  rewrite list_lookup_total_insert_ne by lia. rewrite lookup_total_app_l; [done|lia].
Qed.

Lemma ids_ok_write count p p' ids req :
  ids_ok count p ids → count < SIZE_MAX → (Z.to_nat count < length p')%nat → (length p ≤ length p')%nat →
  ids_ok (count +64 1) (<[Z.to_nat count := req]> p') ids.
Proof.
  intros (Hc & Hl & HF) Hlt Hlen Hlen'. rewrite wrap64_small by (unfold SIZE_MAX in *; lia).
  unfold ids_ok. rewrite length_insert. repeat split_and; [lia|lia|lia|].
  eapply Forall_impl; [exact HF|]. simpl. lia.
Qed.

Lemma ids_ok_cons count p ids :
  ids_ok (count +64 1) p ids → 0 ≤ count < SIZE_MAX → ids_ok (count +64 1) p (count :: ids).
Proof.
  intros (Hc & Hl & HF) Hlt. split; [done|]. split; [done|]. constructor; [|done].
  rewrite wrap64_small by (unfold SIZE_MAX in *; lia). lia.
Qed.

Lemma at_ids_written count p ids req :
  (Z.to_nat count < length p)%nat →
  at_ids (<[Z.to_nat count := req]> p) (count :: ids) = req :: at_ids (<[Z.to_nat count := req]> p) ids.
Proof. intros. unfold at_ids. simpl. by rewrite list_lookup_total_insert_eq. Qed.

Lemma grow_to_prefix idx l : 0 ≤ idx → ∃ tl, grow_to idx l = l ++ tl.
Proof.
  intros. unfold grow_to. zcases; [rewrite resize_prefix by lia; eauto|].
  exists []. by rewrite app_nil_r.
Qed.

Lemma grow_to_length idx l : 0 ≤ idx →
  Z.of_nat (length (grow_to idx l)) = Z.max (Z.of_nat (length l)) (idx + 1).
Proof. intros. unfold grow_to. zcases; rewrite ?length_resize; lia. Qed.

(** The callbacks of the entries of a table answer their requests. *)
Lemma answers_table {E} (count : Z) (pending : list IORequest) (evs : list E)
    (data : E → Z) (comp : E → IOCompletion) rest :
  ids_ok count pending ((data <$> evs) ++ rest) →
  answers (at_ids pending (data <$> evs))
    (evs ≫= λ e, match pending !! Z.to_nat (data e) with Some r => invoke_callback r (comp e) | None => [] end).
Proof.
  intros (Hc & Hl & HF). induction evs as [|e evs IH]; [constructor|].
  simpl in *. apply Forall_cons in HF as [Hi HF].
  destruct (lookup_lt_is_Some_2 pending (Z.to_nat (data e))) as [r Hr]; [lia|].
  rewrite Hr, (list_lookup_total_correct _ _ _ Hr). constructor. by apply IH.
Qed.

(** ** The contract *)

Section Laws.
Context {K : Type} `{!Aio K, !AioLaws K}.

Definition la_inv (b : LibaioBackend K) : Prop :=
  ids_ok (la_submit_count b) (la_pending b) (aio_inflight (la_ctx b)).
Definition la_outstanding (b : LibaioBackend K) : list IORequest :=
  at_ids (la_pending b) (aio_inflight (la_ctx b)).

Lemma la_submit_keeps b req :
  la_inv b → servable req → la_submit_count b < SIZE_MAX →
  ∃ b' calls, la_submit b req = (b', calls) ∧ la_inv b'
    ∧ la_submit_count b' = la_submit_count b + 1
    ∧ settles (req :: la_outstanding b) calls (la_outstanding b').
Proof.
  intros Hinv Hop Hlt. pose proof Hinv as (Hc & Hl & _). unfold la_submit.
  assert (∃ cb, prep req (la_submit_count b) = Some cb ∧ cb_data cb = la_submit_count b) as (cb & -> & Hdata).
  { unfold prep. destruct Hop as [-> | ->]; eauto. }
  destruct (io_submit (la_ctx b) cb) as [k' ret] eqn:Ek.
  pose proof (grow_to_length (la_submit_count b) (la_pending b)) as Hgl.
  destruct (grow_to_prefix (la_submit_count b) (la_pending b)) as [tl Htl]; [lia|].
  assert (Hok := ids_ok_write _ _ (grow_to (la_submit_count b) (la_pending b)) _ req Hinv Hlt).
  assert (Hat := at_ids_write _ _ (grow_to (la_submit_count b) (la_pending b)) _ req Hinv (ex_intro _ tl Htl)).
  eexists _, _. split; [done|]. unfold la_inv, la_outstanding in *. simpl.
  split_and!; [..|destruct (io_submit_law _ _ _ _ Ek) as [[? ->]|[? HP]]].
  - destruct (io_submit_law _ _ _ _ Ek) as [[_ ->]|[_ HP]]; [apply Hok; lia|].
    eapply ids_ok_perm; [symmetry; exact HP|]. rewrite Hdata. apply ids_ok_cons; [apply Hok; lia|lia].
  - apply wrap64_small. unfold SIZE_MAX in *. lia.
  - rewrite (proj2 (Z.ltb_lt _ _)) by done. rewrite Hat. auto with runtime.
  - rewrite (proj2 (Z.ltb_ge _ _)) by done. rewrite HP, Hdata, at_ids_written by lia. rewrite Hat. auto with runtime.
Qed.

Lemma la_poll_keeps b max :
  la_inv b → 0 < max →
  ∃ b' calls out, la_poll b max = (b', calls, out) ∧ la_inv b'
    ∧ la_submit_count b' = la_submit_count b ∧ Z.of_nat (length out) ≤ max
    ∧ settles (la_outstanding b) calls (la_outstanding b').
Proof.
  intros Hinv Hmax. unfold la_poll.
  destruct (io_getevents (la_ctx b) (Z.min max 64)) as [k' [ret|evs]] eqn:Ek;
    eexists _, _, _; (split; [done|]); unfold la_inv, la_outstanding in *; simpl.
  - destruct (io_getevents_error _ _ _ _ Ek) as [_ ->]. repeat split_and; auto with runtime; lia.
  - destruct (io_getevents_law _ _ _ _ Ek) as [Hn HP].
    assert (Hok := ids_ok_perm _ _ _ _ HP Hinv). repeat split_and; [|done|rewrite length_fmap; lia|].
    + destruct Hok as (? & ? & HF). apply Forall_app in HF as [_ HF]. done.
    + exists (at_ids (la_pending b) (ev_data <$> evs)). rewrite HP, at_ids_app. split; [|done].
      by eapply (answers_table _ _ _ ev_data la_event_comp).
Qed.

#[export] Program Instance LibaioBackend_laws : IIOBackendLaws (LibaioBackend K) := {
  be_inv := la_inv; be_outstanding := la_outstanding; be_issued := la_submit_count
}.
Next Obligation.
  intros b req Hinv Hop Hlt. destruct (la_submit_keeps b req) as (b' & calls & E & ? & ? & ?); [done..|].
  exists b', calls. simpl. rewrite E. repeat split_and; auto; lia.
Qed.
Next Obligation. intros b Hinv _. exists b, []. simpl. repeat split_and; auto with runtime; lia. Qed.
Next Obligation. intros b Hinv. simpl. auto. Qed.
Next Obligation.
  intros b max Hinv Hmax. destruct (la_poll_keeps b max) as (b' & calls & out & E & ?); [done..|].
  exists b', calls, out. simpl. by rewrite E.
Qed.
End Laws.

(** ** A kernel that serves requests in order, at most [sim_cap] at a time *)

Record SimAio := mkSimAio { sim_cap : nat; sim_queue : list Iocb }.

#[export] Instance SimAio_ops : Aio SimAio := {
  io_submit k cb :=
    if decide (length (sim_queue k) < sim_cap k)%nat
    then (mkSimAio (sim_cap k) (sim_queue k ++ [cb]), 1) else (k, - EAGAIN);
  io_getevents k nr :=
    let n := Z.to_nat nr in
    (mkSimAio (sim_cap k) (drop n (sim_queue k)),
     if nr <? 0 then inl (- EINVAL)
     else inr ((λ cb, mkEvent (cb_data cb) (cb_nbytes cb)) <$> take n (sim_queue k)))
}.

#[export] Program Instance SimAio_laws : AioLaws SimAio := { aio_inflight k := cb_data <$> sim_queue k }.
Next Obligation.
  intros k cb k' ret. simpl. case_decide; intros [= <- <-]; simpl; [right|left]; (split; [done|]); [|done].
  rewrite fmap_app. simpl. by rewrite Permutation_app_comm.
Qed.
Next Obligation.
  intros k nr k' ret. simpl. destruct (Z.ltb_spec nr 0); intros [= <- <-]. simpl.
  by rewrite (Z2Nat.nonpos nr), drop_0 by lia.
Qed.
Next Obligation.
  intros k nr k' evs. simpl. destruct (Z.ltb_spec nr 0); intros [= <- <-]. simpl.
  rewrite length_fmap, length_take. split; [lia|]. rewrite <- list_fmap_compose, <- fmap_app.
  change (compose ev_data _) with cb_data. by rewrite take_drop.
Qed.

(** ** Facts on the back end *)

(** A flush or trim request is recorded under an index and then dropped: it
    reaches neither the kernel nor its callback. *)
Theorem libaio_drops_flush {K} `{!Aio K, !AioLaws K} (b : LibaioBackend K) (req : IORequest) :
  la_inv b → la_submit_count b < SIZE_MAX → ¬ servable req →
  ∃ b', la_submit b req = (b', []) ∧ la_ctx b' = la_ctx b ∧ la_inv b' ∧ la_outstanding b' = la_outstanding b.
Proof.
  intros Hinv Hlt Hop. pose proof Hinv as (Hc & Hl & _). unfold la_submit.
  replace (prep req (la_submit_count b)) with (@None Iocb) by (unfold prep, servable in *; destruct (r_op req); tauto).
  eexists. split; [done|]. split; [done|].
  pose proof (grow_to_length (la_submit_count b) (la_pending b)).
  split; [apply (ids_ok_write _ _ _ _ _ Hinv); lia|].
  apply (at_ids_write _ _ _ _ _ Hinv), grow_to_prefix. lia.
Qed.

(** The first [n] submissions of a back end of depth [d] leave a table of
    [max (2 d) n] requests: indices are never reused. *)
Theorem libaio_table_grows {K} `{!Aio K} (b : LibaioBackend K) (reqs : list IORequest) :
  0 ≤ la_submit_count b → la_submit_count b + Z.of_nat (length reqs) ≤ SIZE_MAX →
  let b' := fold_left (λ b r, fst (la_submit b r)) reqs b in
  la_submit_count b' = la_submit_count b + Z.of_nat (length reqs)
  ∧ (reqs ≠ [] → Z.of_nat (length (la_pending b')) =
       Z.max (Z.of_nat (length (la_pending b))) (la_submit_count b + Z.of_nat (length reqs))).
Proof.
  revert b. induction reqs as [|r reqs IH]; intros b H0 Hlt; simpl in *; [split; [lia|done]|].
  set (b1 := fst (la_submit b r)).
  assert (la_submit_count b1 = la_submit_count b + 1
    ∧ length (la_pending b1) = length (grow_to (la_submit_count b) (la_pending b))) as [Hc Hp].
  { unfold b1, la_submit. destruct (prep r _) as [cb|]; [destruct (io_submit _ cb)|]; simpl;
      rewrite length_insert, wrap64_small by (unfold SIZE_MAX in *; lia); done. }
  assert (Hg := grow_to_length (la_submit_count b) (la_pending b) H0).
  destruct (IH b1) as [IH1 IH2]; [lia|lia|]. split; [lia|]. intros _.
  destruct (decide (reqs = [])) as [->|Hne]; [simpl; lia|]. rewrite IH2 by done. lia.
Qed.
