(* ===== verification/IoUring.v ===== *)
(** [IOUringBackend] ([io_uring_backend.h/.cc]).

    liburing and the kernel are the class [Uring].  A submission entry is
    reached through a pointer: [get_sqe] returns what the slot holds, stale
    content included, and [put_sqe] stores the entry the code has prepared.
    [UringLaws] states the documented behaviour: the [user_data] of every entry
    handed over is in the ring until the completion that carries it is seen. *)
From S2P Require Import Prelude IoBackend IoLibaio.

Inductive SqeOp := OP_READ | OP_WRITE | OP_OTHER (code : Z).

Record Sqe := mkSqe {
  sqe_op : SqeOp; sqe_fd : Z; sqe_buf : Z; sqe_len : Z; sqe_off : Z; sqe_data : Z }.
Record Cqe := mkCqe { cqe_data : Z; cqe_res : Z }.

Class Uring (K : Type) := {
  get_sqe : K → option (K * Sqe);
  put_sqe : K → Sqe → K;
  ring_submit : K → K * Z;
  ring_submit_and_wait : K → Z → K * Z;
  wait_cqe : K → K * (Z + Cqe);        (* [inl]: a return value other than 0 *)
  peek_cqe : K → K * (Z + Cqe);        (* [inl]: a negative return value *)
  cqe_seen : K → K;
  enter_getevents : K → K;
  ring_fd : K → Z
}.

Class UringLaws (K : Type) `{!Uring K} := {
  ring_data : K → list Z;
  put_sqe_law k k' stale s :
    get_sqe k = Some (k', stale) → ring_data (put_sqe k' s) ≡ₚ sqe_data s :: ring_data k;
  ring_submit_law k : ring_data (fst (ring_submit k)) ≡ₚ ring_data k;
  wait_cqe_error k k' ret : wait_cqe k = (k', inl ret) → ring_data k' ≡ₚ ring_data k;
  wait_cqe_law k k' c : wait_cqe k = (k', inr c) → ring_data k ≡ₚ cqe_data c :: ring_data (cqe_seen k');
  peek_cqe_error k k' ret : peek_cqe k = (k', inl ret) → ret < 0 ∧ ring_data k' ≡ₚ ring_data k;
  peek_cqe_law k k' c : peek_cqe k = (k', inr c) → ring_data k ≡ₚ cqe_data c :: ring_data (cqe_seen k')
}.

(** [static_cast<int>]. *)
Definition to_int (x : Z) : Z := let y := wrap32 x in if y <? 2147483648 then y else y - W32.

Record BufferConfig := mkBufCfg { min_batch_depth : Z; max_age_iterations : Z }.
Definition default_buf_cfg : BufferConfig := mkBufCfg 0 3.

Record BufferEntry := mkEntry { be_request : IORequest; be_age : Z }.

(** [pending_.resize(std::max(pending_.size() * 2, idx + 1))]. *)
Definition grow_double (idx : Z) (l : list IORequest) : list IORequest :=
  if Z.of_nat (length l) <=? idx
  then resize (Z.to_nat (Z.max (wrap64 (Z.of_nat (length l) * 2)) (idx + 1))) l else l.

Section Backend.
Context {K : Type} `{!Uring K}.

(** [flushing_] is declared and never written; the two global metrics are
    kept with the back end. *)
Record IOUringBackend := mkUring {
  u_queue_depth : Z;
  u_ring : K;
  u_pending : list IORequest;
  u_incoming : list BufferEntry;
  u_flushing : list BufferEntry;
  u_buf_cfg : BufferConfig;
  u_submit_count : Z;
  u_pending_sqe_count : Z;
  u_needs_cqe_flush : bool;
  g_io_submitted : Z;
  g_io_completed : Z
}.

Definition with_ring (u : IOUringBackend) (k : K) : IOUringBackend :=
  mkUring (u_queue_depth u) k (u_pending u) (u_incoming u) (u_flushing u) (u_buf_cfg u) (u_submit_count u)
    (u_pending_sqe_count u) (u_needs_cqe_flush u) (g_io_submitted u) (g_io_completed u).
Definition with_incoming (u : IOUringBackend) (l : list BufferEntry) : IOUringBackend :=
  mkUring (u_queue_depth u) (u_ring u) (u_pending u) l (u_flushing u) (u_buf_cfg u) (u_submit_count u)
    (u_pending_sqe_count u) (u_needs_cqe_flush u) (g_io_submitted u) (g_io_completed u).
Definition with_sqe_count (u : IOUringBackend) (n : Z) : IOUringBackend :=
  mkUring (u_queue_depth u) (u_ring u) (u_pending u) (u_incoming u) (u_flushing u) (u_buf_cfg u)
    (u_submit_count u) n (u_needs_cqe_flush u) (g_io_submitted u) (g_io_completed u).
Definition count_completed (u : IOUringBackend) : IOUringBackend :=
  mkUring (u_queue_depth u) (u_ring u) (u_pending u) (u_incoming u) (u_flushing u) (u_buf_cfg u)
    (u_submit_count u) (u_pending_sqe_count u) (u_needs_cqe_flush u) (g_io_submitted u) (g_io_completed u + 1).
Definition set_buffer_config (u : IOUringBackend) (cfg : BufferConfig) : IOUringBackend :=
  mkUring (u_queue_depth u) (u_ring u) (u_pending u) (u_incoming u) (u_flushing u) cfg (u_submit_count u)
    (u_pending_sqe_count u) (u_needs_cqe_flush u) (g_io_submitted u) (g_io_completed u).

(** The completion of an entry and the callback found under its index. *)
Definition u_comp (c : Cqe) : IOCompletion := mkComp (cqe_data c) (cqe_res c).
Definition u_callback (u : IOUringBackend) (c : Cqe) : list Callback :=
  match u_pending u !! Z.to_nat (cqe_data c) with
  | Some r => invoke_callback r (u_comp c)
  | None => []
  end.

(** The label [got_sqe]: record the request, prepare the entry (a request that
    is neither a read nor a write keeps the stale fields), set its data. *)
Definition prepare (stale : Sqe) (req : IORequest) (idx : Z) : Sqe :=
  match r_op req with
  | kRead => mkSqe OP_READ (r_fd req) (r_buf req) (r_len req) (r_offset req) idx
  | kWrite => mkSqe OP_WRITE (r_fd req) (r_buf req) (r_len req) (r_offset req) idx
  | _ => mkSqe (sqe_op stale) (sqe_fd stale) (sqe_buf stale) (sqe_len stale) (sqe_off stale) idx
  end.

Definition fill_sqe (u : IOUringBackend) (k : K) (stale : Sqe) (req : IORequest) : IOUringBackend :=
  let idx := u_submit_count u in
  mkUring (u_queue_depth u) (put_sqe k (prepare stale req idx))
    (<[Z.to_nat idx := req]> (grow_double idx (u_pending u)))
    (u_incoming u) (u_flushing u) (u_buf_cfg u) (idx +64 1) (u_pending_sqe_count u +64 1)
    (u_needs_cqe_flush u) (g_io_submitted u + 1) (g_io_completed u).

(** The loop that waits for completions until an entry is free. *)
Fixpoint drain_for_sqe (attempts : nat) (u : IOUringBackend) (req : IORequest) : IOUringBackend * list Callback :=
  match attempts with
  | O => (u, invoke_callback req (mkComp 0 (- ENOBUFS)))
  | S attempts' =>
      let '(u1, calls1) :=
        match wait_cqe (u_ring u) with
        | (k, inl _) => (with_ring u k, [])
        | (k, inr c) => (with_ring u (cqe_seen k), u_callback u c)
        end in
      match get_sqe (u_ring u1) with
      | Some (k, stale) => (fill_sqe u1 k stale req, calls1)
      | None => let '(u2, calls2) := drain_for_sqe attempts' u1 req in (u2, calls1 ++ calls2)
      end
  end.

Definition submit_impl (u : IOUringBackend) (req : IORequest) : IOUringBackend * list Callback :=
  match get_sqe (u_ring u) with
  | Some (k, stale) => (fill_sqe u k stale req, [])
  | None =>
      let u1 := with_sqe_count (with_ring u (fst (ring_submit (u_ring u)))) 0 in
      drain_for_sqe (Z.to_nat (to_int (wrap64 (u_queue_depth u * 2)))) u1 req
  end.

Fixpoint submit_all (u : IOUringBackend) (reqs : list IORequest) : IOUringBackend * list Callback :=
  match reqs with
  | [] => (u, [])
  | req :: rest =>
      let '(u1, calls1) := submit_impl u req in
      let '(u2, calls2) := submit_all u1 rest in (u2, calls1 ++ calls2)
  end.

Definition flush_submissions (u : IOUringBackend) : IOUringBackend :=
  if 0 <? u_pending_sqe_count u
  then with_sqe_count (with_ring u (fst (ring_submit (u_ring u)))) 0 else u.

Definition u_submit (u : IOUringBackend) (req : IORequest) : IOUringBackend * list Callback :=
  let '(u1, calls) := submit_impl u req in (flush_submissions u1, calls).

Definition u_submit_batch (u : IOUringBackend) (requests : list IORequest) : IOUringBackend * list Callback :=
  if min_batch_depth (u_buf_cfg u) <=? Z.of_nat (length requests)
  then let '(u1, calls) := submit_all u requests in (flush_submissions u1, calls)
  else (with_incoming u (u_incoming u ++ ((λ r, mkEntry r 0) <$> requests)), []).

Definition bump_age (e : BufferEntry) : BufferEntry := mkEntry (be_request e) (be_age e +64 1).

Definition flush_pending (u : IOUringBackend) : IOUringBackend * list Callback :=
  let cfg := u_buf_cfg u in
  if min_batch_depth cfg =? 0 then (u, []) else
  let incoming := bump_age <$> u_incoming u in
  let u1 := with_incoming u incoming in
  let go := (min_batch_depth cfg <=? Z.of_nat (length incoming))
            || existsb (λ e, max_age_iterations cfg <=? be_age e) incoming in
  if negb go then (u1, []) else
  let '(u2, calls) := submit_all u1 (be_request <$> incoming) in
  (flush_submissions (with_incoming u2 []), calls).

Definition pending_count (u : IOUringBackend) : Z :=
  Z.of_nat (length (u_incoming u)) + Z.of_nat (length (u_flushing u)).

Definition submit_and_wait (u : IOUringBackend) (wait_nr : Z) : IOUringBackend * Z :=
  if u_pending_sqe_count u =? 0 then (u, 0) else
  let '(k, ret) := ring_submit_and_wait (u_ring u) wait_nr in
  (mkUring (u_queue_depth u) k (u_pending u) (u_incoming u) (u_flushing u) (u_buf_cfg u) (u_submit_count u)
     0 false (g_io_submitted u) (g_io_completed u), ret).

Definition flush_cqe_task_work (u : IOUringBackend) : IOUringBackend := with_ring u (enter_getevents (u_ring u)).

(** The loop of [poll]: [None] when the assertion on the index fails. *)
Fixpoint poll_loop (max : nat) (u : IOUringBackend) : option (IOUringBackend * list Callback * list IOCompletion) :=
  match max with
  | O => Some (u, [], [])
  | S max' =>
      match peek_cqe (u_ring u) with
      | (k, inl ret) =>
          if ret =? - EAGAIN then Some (with_ring u k, [], [])
          else Some (with_ring u k, [], [mkComp 0 ret])
      | (k, inr c) =>
          if Z.of_nat (length (u_pending u)) <=? cqe_data c then None else
          let u1 := count_completed (with_ring u (cqe_seen k)) in
          '(u2, calls, out) ← poll_loop max' u1;
          Some (u2, u_callback u c ++ calls, u_comp c :: out)
      end
  end.

#[export] Instance IOUringBackend_ops : IIOBackend IOUringBackend := {
  be_name _ := "io_uring"%string;
  be_submit u r := Some (u_submit u r);
  be_submit_batch u rs := Some (u_submit_batch u rs);
  be_flush_pending u := Some (flush_pending u);
  be_pending_count := pending_count;
  be_flush_submissions := flush_submissions;
  be_has_sqe_submitted := u_needs_cqe_flush;
  be_flush_cqe_task_work := flush_cqe_task_work;
  be_poll u max := poll_loop (Z.to_nat max) u
}.

(** ** Construction and ring groups

    [group_ring_fds_] is shared by all rings of the process. *)
Record UringCfg := mkUCfg { uc_queue_depth : Z; sq_poll_group : Z }.

Record UringParams := mkParams {
  p_attach_wq : bool; p_wq_fd : Z; p_sqpoll : bool; p_sq_aff : bool; p_single_issuer : bool;
  p_sq_thread_idle : Z; p_sq_thread_cpu : Z }.

Definition uring_params (groups : gmap Z Z) (cfg : UringCfg) : UringParams :=
  let attach := if 0 <=? sq_poll_group cfg then groups !! sq_poll_group cfg else None in
  match attach with
  | Some fd => mkParams true fd false false false 0 0
  | None => mkParams false 0 true true true 0 2
  end.

(** [init] is [io_uring_queue_init_params]: an error number or a ring. *)
Definition make_uring (init : Z → UringParams → Z + K) (groups : gmap Z Z) (cfg : UringCfg)
  : gmap Z Z * (Z + IOUringBackend) :=
  let params := uring_params groups cfg in
  let primary := (0 <=? sq_poll_group cfg) && negb (p_attach_wq params) in
  let groups1 := if primary then <[sq_poll_group cfg := -1]> groups else groups in
  match init (uc_queue_depth cfg) params with
  | inl ret => (groups1, inl ret)
  | inr ring =>
      (if primary then <[sq_poll_group cfg := ring_fd ring]> groups1 else groups1,
       inr (mkUring (uc_queue_depth cfg) ring
              (replicate (Z.to_nat (wrap64 (uc_queue_depth cfg * 2))) default_req) [] []
              default_buf_cfg 0 0 false 0 0))
  end.

(** The destructor: the first entry, in the order of the hash table, that
    holds this ring's descriptor is erased. *)
Fixpoint erase_fd (order : list (Z * Z)) (fd : Z) (groups : gmap Z Z) : gmap Z Z :=
  match order with
  | [] => groups
  | (g, f) :: rest => if f =? fd then delete g groups else erase_fd rest fd groups
  end.

Definition destroy_uring (order : list (Z * Z)) (groups : gmap Z Z) (u : IOUringBackend) : gmap Z Z :=
  erase_fd order (ring_fd (u_ring u)) groups.
End Backend.

Arguments IOUringBackend K : clear implicits.

(** ** The contract *)

Lemma grow_double_prefix idx l : 0 ≤ idx → ∃ tl, grow_double idx l = l ++ tl.
Proof.
  intros. unfold grow_double. zcases; [rewrite resize_prefix by lia; eauto|].
  exists []. by rewrite app_nil_r.
Qed.

Lemma grow_double_length idx l :
  0 ≤ idx → (Z.to_nat idx < length (grow_double idx l))%nat ∧ (length l ≤ length (grow_double idx l))%nat.
Proof. intros. unfold grow_double. zcases; rewrite ?length_resize; lia. Qed.

Section Laws.
Context {K : Type} `{!Uring K, !UringLaws K}.

(** The requests whose entries are in the ring. *)
Definition u_inring (u : IOUringBackend K) : list IORequest := at_ids (u_pending u) (ring_data (u_ring u)).
Definition u_inv (u : IOUringBackend K) : Prop :=
  ids_ok (u_submit_count u) (u_pending u) (ring_data (u_ring u)).
Definition u_outstanding (u : IOUringBackend K) : list IORequest :=
  (be_request <$> u_incoming u) ++ u_inring u.
Definition u_issued (u : IOUringBackend K) : Z :=
  u_submit_count u + Z.of_nat (length (u_incoming u)).

(** What the steps of a submission keep besides the requests of the ring. *)
Definition same_buffer (u u' : IOUringBackend K) : Prop :=
  u_incoming u' = u_incoming u ∧ u_buf_cfg u' = u_buf_cfg u ∧ u_needs_cqe_flush u' = u_needs_cqe_flush u.

Lemma with_ring_keeps u k :
  ring_data k ≡ₚ ring_data (u_ring u) → u_inv u → u_inv (with_ring u k) ∧ u_inring (with_ring u k) ≡ₚ u_inring u.
Proof.
  intros HP Hinv. split; [by eapply ids_ok_perm|]. unfold u_inring. simpl. by rewrite HP.
Qed.

Lemma fill_sqe_keeps u k stale req :
  u_inv u → u_submit_count u < SIZE_MAX → get_sqe (u_ring u) = Some (k, stale) →
  u_inv (fill_sqe u k stale req) ∧ u_submit_count (fill_sqe u k stale req) = u_submit_count u + 1
  ∧ u_inring (fill_sqe u k stale req) ≡ₚ req :: u_inring u.
Proof.
  intros Hinv Hlt Hg. pose proof Hinv as (Hc & Hl & _).
  assert (HP := put_sqe_law _ _ _ (prepare stale req (u_submit_count u)) Hg).
  assert (Hd : sqe_data (prepare stale req (u_submit_count u)) = u_submit_count u)
    by (unfold prepare; by destruct (r_op req)).
  rewrite Hd in HP. destruct (grow_double_length (u_submit_count u) (u_pending u)) as [Hg1 Hg2]; [lia|].
  assert (Hat := at_ids_write _ _ _ _ req Hinv (grow_double_prefix _ (u_pending u) (proj1 Hc))).
  unfold u_inv, u_inring. simpl. repeat split_and.
  - eapply ids_ok_perm; [symmetry; exact HP|]. apply ids_ok_cons; [by eapply ids_ok_write|lia].
  - apply wrap64_small. unfold SIZE_MAX in *. lia.
  - by rewrite HP, at_ids_written, Hat.
Qed.

(** Seeing one completion answers its request. *)
Lemma cqe_keeps u k c :
  u_inv u → ring_data (u_ring u) ≡ₚ cqe_data c :: ring_data (cqe_seen k) →
  u_inv (with_ring u (cqe_seen k)) ∧ settles (u_inring u) (u_callback u c) (u_inring (with_ring u (cqe_seen k)))
  ∧ 0 ≤ cqe_data c < Z.of_nat (length (u_pending u)).
Proof.
  intros Hinv HP. assert (Hok := ids_ok_perm _ _ _ _ HP Hinv).
  assert (HA := answers_table _ _ [c] cqe_data u_comp (ring_data (cqe_seen k)) Hok).
  destruct Hok as (? & ? & HF). apply Forall_cons in HF as [Hi HF].
  split; [done|]. split; [|lia].
  exists (at_ids (u_pending u) [cqe_data c]). unfold u_inring. simpl in *. rewrite app_nil_r in HA.
  split; [done|]. by rewrite HP.
Qed.

Definition impl_spec (u : IOUringBackend K) (reqs : list IORequest) (res : IOUringBackend K * list Callback) : Prop :=
  let '(u', calls) := res in
  u_inv u' ∧ same_buffer u u'
  ∧ u_submit_count u ≤ u_submit_count u' ≤ u_submit_count u + Z.of_nat (length reqs)
  ∧ settles (reqs ++ u_inring u) calls (u_inring u').

(** Split a specification and close its bookkeeping parts. *)
Ltac ledger :=
  unfold impl_spec, same_buffer in *; split_hyps; split_and!; simpl in *;
  try done; try congruence; try lia; auto with runtime.

Lemma drain_keeps attempts u req :
  u_inv u → u_submit_count u < SIZE_MAX → impl_spec u [req] (drain_for_sqe attempts u req).
Proof.
  revert u. induction attempts as [|n IH]; intros u Hinv Hlt; simpl.
  { ledger. }
  assert (∃ u1 calls1, match wait_cqe (u_ring u) with
            | (k, inl _) => (with_ring u k, [])
            | (k, inr c) => (with_ring u (cqe_seen k), u_callback u c) end = (u1, calls1)
          ∧ u_inv u1 ∧ same_buffer u u1 ∧ u_submit_count u1 = u_submit_count u
          ∧ settles (u_inring u) calls1 (u_inring u1)) as (u1 & calls1 & -> & Hinv1 & Hb1 & Hc1 & Hs1).
  { destruct (wait_cqe (u_ring u)) as [k [ret|c]] eqn:Ew; eexists _, _; (split; [done|]).
    - destruct (with_ring_keeps u k) as [? HP]; [by eapply wait_cqe_error|done|].
      repeat split_and; try done. by apply settles_perm.
    - destruct (cqe_keeps u k c) as (? & ? & _); [done|by apply wait_cqe_law|]. repeat split_and; done. }
  apply (settles_frame [req]) in Hs1. simpl in Hs1.
  destruct (get_sqe (u_ring u1)) as [[k stale]|] eqn:Eg; simpl.
  - destruct (fill_sqe_keeps u1 k stale req) as (? & Hc2 & HP2); [done|lia|done|].
    rewrite HP2. ledger.
  - specialize (IH u1 Hinv1 ltac:(lia)). destruct (drain_for_sqe n u1 req) as [u2 calls2].
    destruct IH as (? & ? & ? & Hs2). assert (Hs := settles_trans _ _ _ _ _ Hs1 Hs2). ledger.
Qed.

Lemma submit_impl_keeps u req :
  u_inv u → u_submit_count u < SIZE_MAX → impl_spec u [req] (submit_impl u req).
Proof.
  intros Hinv Hlt. unfold submit_impl. destruct (get_sqe (u_ring u)) as [[k stale]|] eqn:Eg.
  - destruct (fill_sqe_keeps u k stale req) as (? & Hc & HP); [done..|].
    unfold impl_spec. rewrite HP. ledger.
  - destruct (with_ring_keeps u (fst (ring_submit (u_ring u)))) as [H1 HP]; [apply ring_submit_law|done|].
    set (u1 := with_sqe_count (with_ring u (fst (ring_submit (u_ring u)))) 0).
    assert (Hd := drain_keeps (Z.to_nat (to_int (wrap64 (u_queue_depth u * 2)))) u1 req H1 Hlt).
    unfold impl_spec in *. destruct (drain_for_sqe _ u1 req) as [u2 calls].
    change (u_inring u1) with (u_inring (with_ring u (fst (ring_submit (u_ring u))))) in Hd.
    rewrite HP in Hd. ledger.
Qed.

Lemma submit_all_keeps reqs u :
  u_inv u → u_submit_count u + Z.of_nat (length reqs) ≤ SIZE_MAX → impl_spec u reqs (submit_all u reqs).
Proof.
  revert u. induction reqs as [|req reqs IH]; intros u Hinv Hlt; simpl in *; [ledger|].
  assert (H1 := submit_impl_keeps u req Hinv ltac:(lia)). destruct (submit_impl u req) as [u1 calls1].
  destruct H1 as (Hinv1 & Hb1 & Hc1 & Hs1). simpl in Hc1.
  specialize (IH u1 Hinv1 ltac:(lia)). destruct (submit_all u1 reqs) as [u2 calls2].
  destruct IH as (? & Hb2 & ? & Hs2). apply (settles_frame reqs) in Hs1.
  assert (Hs := settles_trans _ _ _ _ _ Hs1 Hs2). simpl in Hs.
  rewrite <- Permutation_middle in Hs. ledger.
Qed.

Lemma flush_submissions_keeps u :
  u_inv u → u_inv (flush_submissions u) ∧ same_buffer u (flush_submissions u)
  ∧ u_submit_count (flush_submissions u) = u_submit_count u ∧ u_inring (flush_submissions u) ≡ₚ u_inring u.
Proof.
  intros Hinv. unfold flush_submissions. zcases; [|ledger].
  destruct (with_ring_keeps u (fst (ring_submit (u_ring u)))) as [H1 HP]; [apply ring_submit_law|done|].
  ledger.
Qed.

(** The buffer stands in front of the ring in every back-end call. *)
Lemma u_submit_keeps u req :
  u_inv u → u_issued u < SIZE_MAX →
  ∃ u' calls, u_submit u req = (u', calls) ∧ u_inv u' ∧ u_issued u' ≤ u_issued u + 1
    ∧ settles (req :: u_outstanding u) calls (u_outstanding u').
Proof.
  intros Hinv Hlt. unfold u_submit, u_issued, u_outstanding in *.
  assert (H1 := submit_impl_keeps u req Hinv ltac:(lia)). destruct (submit_impl u req) as [u1 calls].
  destruct H1 as (Hinv1 & (Hi1 & _ & _) & Hc1 & Hs1).
  destruct (flush_submissions_keeps u1 Hinv1) as (Hinv2 & (Hi2 & _ & _) & Hc2 & HP2).
  eexists _, _. split; [done|]. split; [done|]. rewrite Hi2, Hi1, Hc2, HP2. simpl in Hc1. split; [lia|].
  apply (settles_frame (be_request <$> u_incoming u)) in Hs1. simpl in Hs1.
  by rewrite <- Permutation_middle in Hs1.
Qed.

(** Whether [flush_pending] hands the buffer over. *)
Definition flush_due (u : IOUringBackend K) : bool :=
  (min_batch_depth (u_buf_cfg u) <=? Z.of_nat (length (u_incoming u)))
  || existsb (λ e, max_age_iterations (u_buf_cfg u) <=? be_age e) (bump_age <$> u_incoming u).

Lemma requests_bumped (l : list BufferEntry) : be_request <$> (bump_age <$> l) = be_request <$> l.
Proof. rewrite <- list_fmap_compose. by apply list_fmap_ext. Qed.

Lemma flush_pending_keeps u :
  u_inv u → u_issued u ≤ SIZE_MAX →
  ∃ u' calls, flush_pending u = (u', calls) ∧ u_inv u' ∧ u_issued u' ≤ u_issued u
    ∧ settles (u_outstanding u) calls (u_outstanding u') ∧ u_buf_cfg u' = u_buf_cfg u
    ∧ u_incoming u' = if min_batch_depth (u_buf_cfg u) =? 0 then u_incoming u
                      else if flush_due u then [] else bump_age <$> u_incoming u.
Proof.
  intros Hinv Hlt. unfold flush_pending. destruct (Z.eqb_spec (min_batch_depth (u_buf_cfg u)) 0) as [?|_].
  { exists u, []. ledger. }
  rewrite length_fmap. fold (flush_due u). set (u1 := with_incoming u (bump_age <$> u_incoming u)).
  destruct (flush_due u); simpl.
  2:{ exists u1, []. unfold u_issued, u_outstanding in *. simpl. rewrite length_fmap, requests_bumped. ledger. }
  rewrite requests_bumped. unfold u_issued in *.
  assert (H1 := submit_all_keeps (be_request <$> u_incoming u) u1 Hinv). rewrite length_fmap in H1.
  specialize (H1 ltac:(simpl; lia)). destruct (submit_all u1 _) as [u2 calls].
  destruct H1 as (Hinv2 & (_ & Hcfg & _) & Hc2 & Hs2).
  destruct (flush_submissions_keeps (with_incoming u2 []) Hinv2) as (Hinv3 & (Hi3 & Hcfg3 & _) & Hc3 & HP3).
  rewrite length_fmap in Hc2. simpl in *.
  eexists _, _. split; [done|]. unfold u_outstanding. rewrite Hi3, Hc3, HP3, Hcfg3. simpl. ledger.
Qed.

Lemma poll_loop_keeps n u :
  u_inv u →
  ∃ u' calls out, poll_loop n u = Some (u', calls, out) ∧ u_inv u'
    ∧ u_submit_count u' = u_submit_count u ∧ u_incoming u' = u_incoming u ∧ (length out ≤ n)%nat
    ∧ settles (u_inring u) calls (u_inring u').
Proof.
  revert u. induction n as [|n IH]; intros u Hinv; simpl.
  { eexists _, _, _. ledger. }
  destruct (peek_cqe (u_ring u)) as [k [ret|c]] eqn:Ep.
  - destruct (with_ring_keeps u k) as [? HP]; [by eapply peek_cqe_error|done|].
    zcases; eexists _, _, _; (split; [done|]); rewrite HP; ledger.
  - destruct (cqe_keeps u k c) as (Hinv1 & Hs1 & Hi); [done|by apply peek_cqe_law|].
    destruct (Z.leb_spec (Z.of_nat (length (u_pending u))) (cqe_data c)); [lia|].
    destruct (IH (count_completed (with_ring u (cqe_seen k))) Hinv1) as (u' & calls & out & -> & ? & ? & ? & ? & Hs2).
    simpl. eexists _, _, _. split; [done|]. assert (Hs := settles_trans _ _ _ _ _ Hs1 Hs2). ledger.
Qed.

#[export] Program Instance IOUringBackend_laws : IIOBackendLaws (IOUringBackend K) := {
  be_inv := u_inv; be_outstanding := u_outstanding; be_issued := u_issued
}.
Next Obligation.
  intros u req Hinv _ Hlt. destruct (u_submit_keeps u req) as (u' & calls & E & ?); [done..|].
  exists u', calls. simpl. by rewrite E.
Qed.
Next Obligation.
  intros u Hinv Hlt. destruct (flush_pending_keeps u) as (u' & calls & E & ? & ? & ? & _); [done..|].
  exists u', calls. simpl. by rewrite E.
Qed.
Next Obligation.
  intros u Hinv. destruct (flush_submissions_keeps u Hinv) as (? & (Hi & _) & Hc & HP). simpl.
  unfold u_issued, u_outstanding. by rewrite Hi, Hc, HP.
Qed.
Next Obligation.
  intros u max Hinv Hmax. simpl.
  destruct (poll_loop_keeps (Z.to_nat max) u Hinv) as (u' & calls & out & -> & ? & Hc & Hi & ? & Hs).
  exists u', calls, out. unfold u_issued, u_outstanding. rewrite Hc, Hi.
  apply (settles_frame (be_request <$> u_incoming u)) in Hs. ledger.
Qed.
End Laws.

(** ** A ring that completes submitted entries in order *)

Record SimRing := mkSimRing { sr_cap : nat; sr_fd : Z; sr_sq : list Sqe; sr_cq : list Cqe }.

Definition sim_stale : Sqe := mkSqe (OP_OTHER 0) 0 0 0 0 0.
Definition sim_submit (k : SimRing) : SimRing * Z :=
  (mkSimRing (sr_cap k) (sr_fd k) [] (sr_cq k ++ ((λ s, mkCqe (sqe_data s) (sqe_len s)) <$> sr_sq k)),
   Z.of_nat (length (sr_sq k))).
Definition sim_peek (k : SimRing) : SimRing * (Z + Cqe) :=
  (k, match sr_cq k with [] => inl (- EAGAIN) | c :: _ => inr c end).

#[export] Instance SimRing_ops : Uring SimRing := {
  get_sqe k := if decide (length (sr_sq k) < sr_cap k)%nat then Some (k, sim_stale) else None;
  put_sqe k s := mkSimRing (sr_cap k) (sr_fd k) (sr_sq k ++ [s]) (sr_cq k);
  ring_submit := sim_submit;
  ring_submit_and_wait k _ := sim_submit k;
  wait_cqe := sim_peek;
  peek_cqe := sim_peek;
  cqe_seen k := mkSimRing (sr_cap k) (sr_fd k) (sr_sq k) (tail (sr_cq k));
  enter_getevents k := k;
  ring_fd := sr_fd
}.

Lemma sim_peek_law k k' c :
  sim_peek k = (k', inr c) → k' = k ∧ ∃ rest, sr_cq k = c :: rest.
Proof. unfold sim_peek. destruct (sr_cq k) eqn:E; intros [= <- <-]; eauto. Qed.

#[export] Program Instance SimRing_laws : UringLaws SimRing := {
  ring_data k := (cqe_data <$> sr_cq k) ++ (sqe_data <$> sr_sq k)
}.
Next Obligation.
  intros k k' stale s. simpl. case_decide; intros [= <- <-]. simpl.
  rewrite fmap_app, (assoc_L (++)). simpl. by rewrite Permutation_app_comm.
Qed.
Next Obligation.
  intros k. simpl. rewrite fmap_app, <- list_fmap_compose, app_nil_r.
  change (compose cqe_data _) with sqe_data. done.
Qed.
Next Obligation. intros k k' ret [= <- _]. done. Qed.
Next Obligation. intros k k' c H. apply sim_peek_law in H as [-> [rest E]]. simpl. by rewrite E. Qed.
Next Obligation.
  intros k k' ret. simpl. unfold sim_peek. destruct (sr_cq k) eqn:E; intros [= <- <-]. by rewrite E.
Qed.
Next Obligation. intros k k' c H. apply sim_peek_law in H as [-> [rest E]]. simpl. by rewrite E. Qed.

(** ** The buffer *)

Section Buffer.
Context {K : Type} `{!Uring K, !UringLaws K}.

Fixpoint flush_times (n : nat) (u : IOUringBackend K) : IOUringBackend K * list Callback :=
  match n with
  | O => (u, [])
  | S n' =>
      let '(u1, calls1) := flush_pending u in
      let '(u2, calls2) := flush_times n' u1 in (u2, calls1 ++ calls2)
  end.

(** Ages in the buffer: at least [a], below the limit. *)
Definition aged (a : Z) (u : IOUringBackend K) : Prop :=
  Forall (λ e, a ≤ be_age e < max_age_iterations (u_buf_cfg u)) (u_incoming u).

Lemma flush_ages a u u' calls :
  u_inv u → u_issued u ≤ SIZE_MAX → 0 < min_batch_depth (u_buf_cfg u) →
  0 ≤ a → max_age_iterations (u_buf_cfg u) < W64 → aged a u → flush_pending u = (u', calls) → aged (a + 1) u'.
Proof.
  intros Hinv Hi Hmin Ha Hmax Haged E.
  destruct (flush_pending_keeps u Hinv Hi) as (u2 & c2 & E2 & _ & _ & _ & Hcfg & Hin).
  rewrite E in E2. injection E2 as -> ->.
  unfold aged in *. rewrite Hcfg, Hin. destruct (Z.eqb_spec (min_batch_depth (u_buf_cfg u)) 0); [lia|].
  destruct (flush_due u) eqn:Ed; [constructor|].
  apply orb_false_iff in Ed as [_ Ed]. apply Forall_forall. intros e He.
  assert (Hlt : be_age e < max_age_iterations (u_buf_cfg u)).
  { destruct (Z.ltb_spec (be_age e) (max_age_iterations (u_buf_cfg u))); [done|].
    assert (existsb (λ e, max_age_iterations (u_buf_cfg u) <=? be_age e) (bump_age <$> u_incoming u) = true);
      [|congruence].
    apply existsb_exists. exists e. split; [by apply list_elem_of_In|by apply Z.leb_le]. }
  split; [|done]. apply list_elem_of_fmap in He as (e0 & -> & He0). rewrite Forall_forall in Haged.
  specialize (Haged _ He0). simpl. rewrite wrap64_small by lia. lia.
Qed.

Lemma flush_times_keeps n a u :
  u_inv u → u_issued u ≤ SIZE_MAX → 0 < min_batch_depth (u_buf_cfg u) →
  0 ≤ a → max_age_iterations (u_buf_cfg u) < W64 → aged a u →
  ∃ u' calls, flush_times n u = (u', calls) ∧ u_buf_cfg u' = u_buf_cfg u ∧ aged (a + Z.of_nat n) u'
    ∧ settles (u_outstanding u) calls (u_outstanding u').
Proof.
  revert a u. induction n as [|n IH]; intros a u Hinv Hi Hmin Ha Hmax Haged; simpl.
  { exists u, []. rewrite Z.add_0_r. split_and!; auto with runtime. }
  destruct (flush_pending_keeps u Hinv Hi) as (u1 & c1 & E1 & Hinv1 & Hi1 & Hs1 & Hcfg1 & _). rewrite E1.
  destruct (IH (a + 1) u1) as (u2 & c2 & -> & Hcfg2 & Ha2 & Hs2);
    [done|lia|by rewrite Hcfg1|lia|by rewrite Hcfg1|by apply (flush_ages a u u1 c1)|].
  eexists _, _. split; [done|]. split; [congruence|].
  replace (a + Z.of_nat (S n)) with (a + 1 + Z.of_nat n) by lia.
  split; [done|]. by eapply settles_trans.
Qed.
End Buffer.

(** With buffering on, no request waits in the buffer of the io_uring back
    end for more than [max_age_iterations] calls of [flush_pending]: after that
    many calls the buffer is empty and every request that was in it is in the
    ring or has had its callback. *)
Theorem uring_buffer_bounded_wait {K : Type} `{!Uring K, !UringLaws K} (u : IOUringBackend K) :
  u_inv u → u_issued u ≤ SIZE_MAX → 0 < min_batch_depth (u_buf_cfg u) →
  max_age_iterations (u_buf_cfg u) < W64 → aged 0 u →
  ∃ u' calls, flush_times (Z.to_nat (max_age_iterations (u_buf_cfg u))) u = (u', calls)
    ∧ u_incoming u' = []
    ∧ settles ((be_request <$> u_incoming u) ++ u_inring u) calls (u_inring u').
Proof.
  intros Hinv Hi Hmin Hmax Haged.
  destruct (flush_times_keeps (Z.to_nat (max_age_iterations (u_buf_cfg u))) 0 u) as (u' & calls & E & Hcfg & Ha & Hs);
    [done..|].
  exists u', calls. split; [done|].
  assert (Hnil : u_incoming u' = []).
  { destruct (u_incoming u') as [|e l] eqn:El; [done|]. unfold aged in Ha. rewrite El in Ha.
    apply Forall_cons in Ha as [Ha _]. rewrite Hcfg in Ha. lia. }
  split; [done|]. unfold u_outstanding in Hs. rewrite Hnil in Hs. done.
Qed.

Definition sample_uring : IOUringBackend SimRing :=
  mkUring 2 (mkSimRing 2 7 [] []) (replicate 4 default_req)
    [mkEntry (mkReq kWrite 3 0 64 512 0 9 1) 1; mkEntry (mkReq kRead 3 512 128 512 0 9 2) 0] []
    (mkBufCfg 8 3) 0 0 false 0 0.

Lemma uring_buffer_bounded_wait_witness :
  ∃ u' calls, flush_times 3 sample_uring = (u', calls) ∧ u_incoming u' = []
    ∧ settles ((be_request <$> u_incoming sample_uring) ++ u_inring sample_uring) calls (u_inring u').
Proof.
  apply (uring_buffer_bounded_wait sample_uring).
  - split_and!; vm_compute; [discriminate|discriminate|discriminate|constructor].
  - vm_compute. discriminate.
  - reflexivity.
  - reflexivity.
  - repeat constructor; vm_compute; congruence.
Defined.

(** A group whose first ring could not be created keeps the placeholder: the
    next ring of the group attaches to descriptor [-1]. *)
Theorem uring_failed_primary_poisons_group {K : Type} `{!Uring K} (init : Z → UringParams → Z + K)
    (groups : gmap Z Z) (cfg : UringCfg) (err : Z) :
  0 ≤ sq_poll_group cfg → groups !! sq_poll_group cfg = None →
  init (uc_queue_depth cfg) (uring_params groups cfg) = inl err →
  let groups' := fst (make_uring init groups cfg) in
  p_attach_wq (uring_params groups' cfg) = true ∧ p_wq_fd (uring_params groups' cfg) = -1.
Proof.
  intros Hg Hn Hi. assert (Hb : (0 <=? sq_poll_group cfg) = true) by by apply Z.leb_le.
  assert (Hp : p_attach_wq (uring_params groups cfg) = false) by (unfold uring_params; by rewrite Hb, Hn).
  unfold make_uring. rewrite Hi, Hb, Hp. simpl.
  unfold uring_params. by rewrite Hb, lookup_insert_eq.
Qed.
