(* ===== verification/IoSpdk.v ===== *)
(** [SPDKBackend] ([spdk_backend.h/.cc]), both as built with SPDK and as the
    stub built without it.

    The NVMe library is the class [Nvme]: a command is queued or refused, and
    [process_completions] calls the completion function for commands that have
    finished.  What the constructor asks of the environment (initialisation,
    the devices on the bus, queue pairs, DMA memory) is the record [SpdkEnv]. *)
From S2P Require Import Prelude IoBackend IoLibaio IoUring.
From Stdlib Require Import Ascii.

Record NvmeCmd := mkCmd { nc_write : bool; nc_buf : Z; nc_lba : Z; nc_lba_count : Z; nc_arg : Z }.
Record NvmeCpl := mkCpl { cpl_arg : Z; cpl_is_error : bool }.

Class Nvme (K : Type) := {
  nvme_cmd : K → NvmeCmd → K * Z;
  process_completions : K → K * Z * list NvmeCpl
}.

Class NvmeLaws (K : Type) `{!Nvme K} := {
  nvme_inflight : K → list Z;
  nvme_cmd_law k c k' rc :
    nvme_cmd k c = (k', rc) →
    (rc ≠ 0 ∧ nvme_inflight k' = nvme_inflight k) ∨ (rc = 0 ∧ nvme_inflight k' ≡ₚ nc_arg c :: nvme_inflight k);
  process_law k k' ret cpls :
    process_completions k = (k', ret, cpls) →
    nvme_inflight k ≡ₚ (cpl_arg <$> cpls) ++ nvme_inflight k'
}.

Record SpdkConfig := mkSpdkCfg {
  s_traddr : string; s_nsid : Z; s_queue_depth : Z; s_io_unit_size : Z; s_buf_count : Z; s_buf_size : Z }.

Definition kCompletionBatch : nat := 1024.

Section Backend.
Context {K : Type} `{!Nvme K}.

(** [sp_completed] is the filled part of the staging array [completed_]. *)
Record SPDKBackend := mkSpdk {
  sp_cfg : SpdkConfig;
  sp_ctrlr : Z;
  sp_ns : Z;
  sp_qpair : K;
  sp_pending : list IORequest;
  sp_submit_count : Z;
  sp_completed : list IOCompletion;
  sp_dma_bufs : list Z
}.

Definition with_qpair (s : SPDKBackend) (k : K) : SPDKBackend :=
  mkSpdk (sp_cfg s) (sp_ctrlr s) (sp_ns s) k (sp_pending s) (sp_submit_count s) (sp_completed s) (sp_dma_bufs s).
Definition with_completed (s : SPDKBackend) (l : list IOCompletion) : SPDKBackend :=
  mkSpdk (sp_cfg s) (sp_ctrlr s) (sp_ns s) (sp_qpair s) (sp_pending s) (sp_submit_count s) l (sp_dma_bufs s).

(** The blocks of a request. *)
Definition lba_of (unit offset : Z) : Z := offset / unit.
Definition lba_count_of (unit len : Z) : Z :=
  let n := wrap32 (wrap64 (len + unit - 1) / unit) in if n =? 0 then 1 else n.

Definition nvme_of (s : SPDKBackend) (r : IORequest) (write : bool) (idx : Z) : NvmeCmd :=
  let unit := s_io_unit_size (sp_cfg s) in
  mkCmd write (r_buf r) (lba_of unit (r_offset r)) (lba_count_of unit (r_len r)) idx.

(** The request recorded under the next index, with the queue pair [k]. *)
Definition sp_record (s : SPDKBackend) (req : IORequest) (k : K) : SPDKBackend :=
  let idx := sp_submit_count s in
  mkSpdk (sp_cfg s) (sp_ctrlr s) (sp_ns s) k (<[Z.to_nat idx := req]> (grow_double idx (sp_pending s)))
    (idx +64 1) (sp_completed s) (sp_dma_bufs s).

(** The command of a read or write; a refusal [rc] is reported as [-rc]. *)
Definition sp_issue (s : SPDKBackend) (req : IORequest) (write : bool) : SPDKBackend * list Callback :=
  let idx := sp_submit_count s in
  let '(k, rc) := nvme_cmd (sp_qpair s) (nvme_of s req write idx) in
  (sp_record s req k, if rc =? 0 then [] else invoke_callback req (mkComp idx (- rc))).

Definition sp_submit (s : SPDKBackend) (req : IORequest) : SPDKBackend * list Callback :=
  match r_op req with
  | kRead => sp_issue s req false
  | kWrite => sp_issue s req true
  | _ => (sp_record s req (sp_qpair s), invoke_callback req (mkComp (sp_submit_count s) (- EINVAL)))
  end.

(** [on_io_complete], run on the registered instance. *)
Definition on_io_complete (s : SPDKBackend) (cpl : NvmeCpl) : SPDKBackend * list Callback :=
  let idx := cpl_arg cpl in
  if sp_submit_count s <=? idx then (s, []) else
  let r := sp_pending s !!! Z.to_nat idx in
  let comp := mkComp idx (if cpl_is_error cpl then - EIO else to_signed64 (r_len r)) in
  let calls := if idx <? Z.of_nat (length (sp_pending s)) then invoke_callback r comp else [] in
  (if decide (length (sp_completed s) < kCompletionBatch)%nat
   then with_completed s (sp_completed s ++ [comp]) else s, calls).

Fixpoint complete_all (s : SPDKBackend) (cpls : list NvmeCpl) : SPDKBackend * list Callback :=
  match cpls with
  | [] => (s, [])
  | cpl :: rest =>
      let '(s1, calls1) := on_io_complete s cpl in
      let '(s2, calls2) := complete_all s1 rest in (s2, calls1 ++ calls2)
  end.

Definition sp_poll (s : SPDKBackend) (max : Z) : SPDKBackend * list Callback * list IOCompletion :=
  let '(k, ret, cpls) := process_completions (sp_qpair s) in
  let '(s1, calls) := complete_all (with_qpair (with_completed s []) k) cpls in
  if ret <? 0 then (s1, calls, [mkComp 0 ret])
  else if ret =? 0 then (s1, calls, [])
  else (s1, calls, take (Nat.min (length (sp_completed s1)) (Z.to_nat max)) (sp_completed s1)).

#[export] Instance SPDKBackend_ops : IIOBackend SPDKBackend := {
  be_name _ := "spdk"%string;
  be_submit s r := Some (sp_submit s r);
  be_submit_batch := default_submit_batch (λ s r, Some (sp_submit s r));
  be_flush_pending := default_flush_pending;
  be_pending_count := default_pending_count;
  be_flush_submissions := default_flush_submissions;
  be_has_sqe_submitted := default_has_sqe_submitted;
  be_flush_cqe_task_work := default_flush_cqe_task_work;
  be_poll s max := Some (sp_poll s max)
}.
End Backend.

Arguments SPDKBackend K : clear implicits.

(** ** The contract *)

Section Laws.
Context {K : Type} `{!Nvme K, !NvmeLaws K}.

Definition sp_inv (s : SPDKBackend K) : Prop :=
  ids_ok (sp_submit_count s) (sp_pending s) (nvme_inflight (sp_qpair s)).
Definition sp_outstanding (s : SPDKBackend K) : list IORequest :=
  at_ids (sp_pending s) (nvme_inflight (sp_qpair s)).

Lemma sp_issue_keeps (s : SPDKBackend K) req w :
  sp_inv s → sp_submit_count s < SIZE_MAX →
  ∃ s' calls, sp_issue s req w = (s', calls) ∧ sp_inv s' ∧ sp_submit_count s' = sp_submit_count s + 1
    ∧ settles (req :: sp_outstanding s) calls (sp_outstanding s').
Proof.
  intros Hinv Hlt. pose proof Hinv as (Hc & Hl & _).
  destruct (grow_double_length (sp_submit_count s) (sp_pending s)) as [Hg1 Hg2]; [lia|].
  assert (Hok := ids_ok_write _ _ _ _ req Hinv Hlt Hg1 Hg2).
  assert (Hat := at_ids_write _ _ _ _ req Hinv (grow_double_prefix _ (sp_pending s) (proj1 Hc))).
  unfold sp_issue. destruct (nvme_cmd (sp_qpair s) _) as [k rc] eqn:Ek. eexists _, _. split; [done|].
  unfold sp_inv, sp_outstanding in *. simpl.
  destruct (nvme_cmd_law _ _ _ _ Ek) as [[Hrc ->]|[-> HP]].
  - rewrite (proj2 (Z.eqb_neq rc 0)) by done. rewrite Hat.
    split_and!; [done|apply wrap64_small; unfold SIZE_MAX in *; lia|auto with runtime].
  - simpl in HP |- *. split_and!; [|apply wrap64_small; unfold SIZE_MAX in *; lia|].
    + eapply ids_ok_perm; [symmetry; exact HP|]. apply ids_ok_cons; [done|lia].
    + rewrite HP, at_ids_written by done. rewrite Hat. auto with runtime.
Qed.

Lemma sp_submit_keeps (s : SPDKBackend K) req :
  sp_inv s → servable req → sp_submit_count s < SIZE_MAX →
  ∃ s' calls, sp_submit s req = (s', calls) ∧ sp_inv s' ∧ sp_submit_count s' = sp_submit_count s + 1
    ∧ settles (req :: sp_outstanding s) calls (sp_outstanding s').
Proof. intros ? [E|E] ?; unfold sp_submit; rewrite E; by apply sp_issue_keeps. Qed.

Lemma complete_all_keeps cpls (s : SPDKBackend K) rest :
  ids_ok (sp_submit_count s) (sp_pending s) ((cpl_arg <$> cpls) ++ rest) → (length (sp_completed s) ≤ kCompletionBatch)%nat →
  ∃ s' calls, complete_all s cpls = (s', calls)
    ∧ sp_pending s' = sp_pending s ∧ sp_submit_count s' = sp_submit_count s ∧ sp_qpair s' = sp_qpair s
    ∧ (length (sp_completed s') ≤ kCompletionBatch)%nat
    ∧ answers (at_ids (sp_pending s) (cpl_arg <$> cpls)) calls.
Proof.
  revert s. induction cpls as [|cpl cpls IH]; intros s Hok Hlen; simpl.
  { eexists _, _. split; [done|]. auto with runtime. }
  destruct Hok as (Hc & Hl & HF). simpl in HF. apply Forall_cons in HF as [Hi HF].
  assert (∃ s1 comp, on_io_complete s cpl = (s1, invoke_callback (sp_pending s !!! Z.to_nat (cpl_arg cpl)) comp)
    ∧ sp_pending s1 = sp_pending s ∧ sp_submit_count s1 = sp_submit_count s ∧ sp_qpair s1 = sp_qpair s
    ∧ (length (sp_completed s1) ≤ kCompletionBatch)%nat) as (s1 & comp & -> & Hp & Hs & Hq & Hlen1).
  { unfold on_io_complete. rewrite (proj2 (Z.leb_gt _ _)) by lia.
    rewrite (proj2 (Z.ltb_lt (cpl_arg cpl) (Z.of_nat _))) by lia.
    eexists _, _. split; [done|]. case_decide; simpl; rewrite ?length_app; simpl; split_and!; try done; lia. }
  destruct (IH s1) as (s2 & calls & -> & ? & ? & ? & ? & HA); [by rewrite Hp, Hs|done|].
  eexists _, _. split; [done|]. split_and!; try congruence; try done.
  rewrite Hp in HA. by constructor.
Qed.

Lemma sp_poll_keeps (s : SPDKBackend K) max :
  sp_inv s → 0 < max →
  ∃ s' calls out, sp_poll s max = (s', calls, out) ∧ sp_inv s' ∧ sp_submit_count s' = sp_submit_count s
    ∧ Z.of_nat (length out) ≤ max ∧ settles (sp_outstanding s) calls (sp_outstanding s').
Proof.
  intros Hinv Hmax. unfold sp_poll.
  destruct (process_completions (sp_qpair s)) as [[k ret] cpls] eqn:Ek.
  assert (HP := process_law _ _ _ _ Ek). assert (Hok := ids_ok_perm _ _ _ _ HP Hinv).
  destruct (complete_all_keeps cpls (with_qpair (with_completed s []) k) (nvme_inflight k))
    as (s1 & calls & -> & Hp & Hc & Hq & Hlen & HA); [done|simpl; unfold kCompletionBatch; lia|]. simpl in *.
  assert (sp_inv s1 ∧ settles (sp_outstanding s) calls (sp_outstanding s1)) as [H1 H2].
  { unfold sp_inv, sp_outstanding, settles in *. rewrite Hp, Hc, Hq. split.
    - destruct Hok as (? & ? & HF). apply Forall_app in HF as [_ HF]. done.
    - eexists. split; [exact HA|]. by rewrite HP, at_ids_app. }
  zcases; eexists _, _, _; (split; [done|]); split_and!; try done; simpl; rewrite ?length_take; lia.
Qed.

#[export] Program Instance SPDKBackend_laws : IIOBackendLaws (SPDKBackend K) := {
  be_inv := sp_inv; be_outstanding := sp_outstanding; be_issued := sp_submit_count
}.
Next Obligation.
  intros s req Hinv Hop Hlt. destruct (sp_submit_keeps s req) as (s' & calls & E & ? & ? & ?); [done..|].
  exists s', calls. simpl. rewrite E. split_and!; [done..|lia|done].
Qed.
Next Obligation. intros s Hinv _. exists s, []. simpl. split_and!; auto with runtime; lia. Qed.
Next Obligation. intros s Hinv. simpl. auto. Qed.
Next Obligation.
  intros s max Hinv Hmax. destruct (sp_poll_keeps s max) as (s' & calls & out & E & ?); [done..|].
  exists s', calls, out. simpl. by rewrite E.
Qed.
End Laws.

(** ** Construction *)

(** [snprintf(addr, "%04x:%02x:%02x.%x", ...)]. *)
Definition hex_digit (n : Z) : ascii :=
  match String.get (Z.to_nat n) "0123456789abcdef" with Some c => c | None => "0"%char end.

Fixpoint hex_digits (fuel : nat) (n : Z) (acc : string) : string :=
  match fuel with
  | O => acc
  | S fuel' =>
      let acc' := String (hex_digit (n mod 16)) acc in
      if n <? 16 then acc' else hex_digits fuel' (n / 16) acc'
  end.

Fixpoint zeros (n : nat) (s : string) : string :=
  match n with O => s | S n' => String "0"%char (zeros n' s) end.

(** [%0wx] of a 32-bit value: eight digits are enough. *)
Definition hex (width : nat) (n : Z) : string :=
  let s := hex_digits 8 n EmptyString in zeros (width - String.length s) s.

Record PciAddr := mkPci { pci_domain : Z; pci_bus : Z; pci_device : Z; pci_function : Z }.

Definition pci_string (a : PciAddr) : string :=
  (hex 4 (pci_domain a) ++ ":" ++ hex 2 (pci_bus a) ++ ":" ++ hex 2 (pci_device a) ++ "." ++ hex 0 (pci_function a))%string.

(** A device on the bus: its address, its controller, and for a namespace id
    its handle, whether it is active and its sector size. *)
Record Device := mkDevice {
  dev_addr : PciAddr; dev_ctrlr : Z; dev_ns : Z → option (Z * bool * Z) }.

Record ProbeCtx := mkProbe { pc_ctrlr : option Z; pc_ns : option (Z * Z) (* handle, sector size *) }.

Definition probe_cb (cfg : SpdkConfig) (d : Device) : bool :=
  bool_decide (s_traddr cfg = pci_string (dev_addr d)).

Definition attach_cb (cfg : SpdkConfig) (ctx : ProbeCtx) (d : Device) : ProbeCtx :=
  match pc_ctrlr ctx with
  | Some _ => ctx
  | None =>
      match dev_ns d (s_nsid cfg) with
      | Some (ns, true, sector) => mkProbe (Some (dev_ctrlr d)) (Some (ns, sector))
      | _ => mkProbe None None
      end
  end.

(** [spdk_nvme_probe]: every device is offered to [probe_cb]; the accepted ones
    are attached and passed to [attach_cb]. *)
Fixpoint nvme_probe (cfg : SpdkConfig) (bus : list Device) (ctx : ProbeCtx) (attached : list Z) : ProbeCtx * list Z :=
  match bus with
  | [] => (ctx, attached)
  | d :: rest =>
      if probe_cb cfg d then nvme_probe cfg rest (attach_cb cfg ctx d) (dev_ctrlr d :: attached)
      else nvme_probe cfg rest ctx attached
  end.

(** The process-wide state: [g_spdk_initialized], [instance_], and the
    controllers that are attached. *)
Record SpdkGlobals := mkGlobals { g_initialized : bool; g_instance : option Z; g_attached : list Z }.

Record SpdkEnv (K : Type) := mkEnv {
  env_init_rc : Z;
  env_bus : list Device;
  env_probe_rc : Z;
  env_alloc_qpair : Z → Z → option K;         (* queue size, requests *)
  env_dma_malloc : nat → option Z }.
Arguments env_init_rc {K}. Arguments env_bus {K}. Arguments env_probe_rc {K}.
Arguments env_alloc_qpair {K}. Arguments env_dma_malloc {K}.

Definition init_env {K} (env : SpdkEnv K) (g : SpdkGlobals) : SpdkGlobals * Z :=
  if g_initialized g then (g, 0)
  else if env_init_rc env <? 0 then (g, - EIO)
  else (mkGlobals true (g_instance g) (g_attached g), 0).

Inductive SpdkError :=
| NoPciAddress | EnvInitFailed (rc : Z) | AlreadyRegistered | ProbeFailed (rc : Z)
| NoMatchingDevice | NamespaceUnavailable | QpairAllocationFailed.

Definition spdk_config (bdev_name : string) (queue_depth max_file_size : Z) : SpdkConfig :=
  mkSpdkCfg bdev_name
    (if (0 <? max_file_size) && (max_file_size <=? W32 - 1) then max_file_size else 1)
    (if 0 <? queue_depth then queue_depth else 256) 0 1024 4096.

Definition set_instance (g : SpdkGlobals) (i : option Z) : SpdkGlobals :=
  mkGlobals (g_initialized g) i (g_attached g).

(** Remove one attachment of a controller. *)
Fixpoint remove_one (c : Z) (l : list Z) : list Z :=
  match l with [] => [] | x :: rest => if c =? x then rest else x :: remove_one c rest end.
Definition detach (g : SpdkGlobals) (c : Z) : SpdkGlobals :=
  mkGlobals (g_initialized g) (g_instance g) (remove_one c (g_attached g)).

Fixpoint dma_pool (malloc : nat → option Z) (i n : nat) : list Z :=
  match n with
  | O => []
  | S n' => match malloc i with None => [] | Some buf => buf :: dma_pool malloc (S i) n' end
  end.

Section Construct.
Context {K : Type}.

Definition make_spdk (this : Z) (cfg : SpdkConfig) (env : SpdkEnv K) (g : SpdkGlobals)
  : SpdkGlobals * (SpdkError + SPDKBackend K) :=
  if bool_decide (s_traddr cfg = EmptyString) then (g, inl NoPciAddress) else
  let '(g1, rc) := init_env env g in
  if negb (rc =? 0) then (g1, inl (EnvInitFailed rc)) else
  match g_instance g1 with
  | Some _ => (g1, inl AlreadyRegistered)
  | None =>
      let '(ctx, attached) := nvme_probe cfg (env_bus env) (mkProbe None None) (g_attached g1) in
      let g2 := mkGlobals (g_initialized g1) (Some this) attached in
      if negb (env_probe_rc env =? 0) then (set_instance g2 None, inl (ProbeFailed (env_probe_rc env))) else
      match pc_ctrlr ctx, pc_ns ctx with
      | None, _ => (set_instance g2 None, inl NoMatchingDevice)
      | Some c, None => (detach (set_instance g2 None) c, inl NamespaceUnavailable)
      | Some c, Some (ns, sector) =>
          let unit := if s_io_unit_size cfg =? 0 then sector else s_io_unit_size cfg in
          match env_alloc_qpair env (wrap32 (s_queue_depth cfg)) (wrap32 (s_queue_depth cfg * 2)) with
          | None => (set_instance (detach g2 c) None, inl QpairAllocationFailed)
          | Some q =>
              (g2, inr (mkSpdk
                 (mkSpdkCfg (s_traddr cfg) (s_nsid cfg) (s_queue_depth cfg) unit (s_buf_count cfg) (s_buf_size cfg))
                 c ns q (replicate (Z.to_nat (wrap64 (s_queue_depth cfg * 2))) default_req) 0 []
                 (dma_pool (env_dma_malloc env) 0 (Z.to_nat (s_buf_count cfg)))))
          end
      end
  end.

(** The destructor: completions that are ready are delivered, the controller
    is detached, the instance pointer is cleared. *)
Definition destroy_spdk `{!Nvme K} (this : Z) (g : SpdkGlobals) (s : SPDKBackend K) : SpdkGlobals * list Callback :=
  let '(k, _, cpls) := process_completions (sp_qpair s) in
  let calls := snd (complete_all (with_qpair s k) cpls) in
  let g1 := detach g (sp_ctrlr s) in
  (if bool_decide (g_instance g1 = Some this) then set_instance g1 None else g1, calls).
End Construct.

(** ** The stub built without SPDK *)

Inductive SpdkStub := mkStub.

Definition stub_submit (s : SpdkStub) (req : IORequest) : SpdkStub * list Callback :=
  (s, invoke_callback req (mkComp 0 (- ENOSYS))).
Definition stub_poll (s : SpdkStub) (max : Z) : SpdkStub * list Callback * list IOCompletion := (s, [], []).
Definition stub_init_env : Z := - ENOSYS.

#[export] Instance SpdkStub_ops : IIOBackend SpdkStub := {
  be_name _ := "spdk"%string;
  be_submit s r := Some (stub_submit s r);
  be_submit_batch := default_submit_batch (λ s r, Some (stub_submit s r));
  be_flush_pending := default_flush_pending;
  be_pending_count := default_pending_count;
  be_flush_submissions := default_flush_submissions;
  be_has_sqe_submitted := default_has_sqe_submitted;
  be_flush_cqe_task_work := default_flush_cqe_task_work;
  be_poll s max := Some (stub_poll s max)
}.

#[export] Program Instance SpdkStub_laws : IIOBackendLaws SpdkStub := {
  be_inv _ := True; be_outstanding _ := []; be_issued _ := 0
}.
Next Obligation. intros s req _ _ _. eexists _, _. split; [done|]. split_and!; auto with runtime; lia. Qed.
Next Obligation. intros s _ _. eexists _, _. split; [done|]. split_and!; auto with runtime; lia. Qed.
Next Obligation. auto. Qed.
Next Obligation. intros s max _ Hm. eexists _, _, _. split; [done|]. split_and!; auto with runtime; simpl; lia. Qed.

(** ** Properties *)

Lemma probe_ctx_both cfg bus ctx attached :
  (pc_ctrlr ctx = None ↔ pc_ns ctx = None) →
  (pc_ctrlr (fst (nvme_probe cfg bus ctx attached)) = None ↔ pc_ns (fst (nvme_probe cfg bus ctx attached)) = None).
Proof.
  revert ctx attached. induction bus as [|d bus IH]; intros ctx attached H; simpl; [done|].
  destruct (probe_cb cfg d); apply IH; [|done].
  unfold attach_cb. destruct (pc_ctrlr ctx) eqn:E; [by rewrite E|].
  destruct (dev_ns d (s_nsid cfg)) as [[[? []] ?]|]; done.
Qed.

(** The SPDK constructor registers [this] as the one instance exactly when
    it succeeds, and it succeeds only if no instance was registered; whatever
    the error, [instance_] is what it was before; the error "namespace not
    available" is never reported, since [attach_cb] drops the controller
    together with the namespace. *)
Theorem spdk_constructor_registers {K : Type} (this : Z) (cfg : SpdkConfig) (env : SpdkEnv K) (g : SpdkGlobals) :
  match make_spdk this cfg env g with
  | (g', inr s) => g_instance g = None ∧ g_instance g' = Some this ∧ g_initialized g' = true
  | (g', inl e) => g_instance g' = g_instance g ∧ e ≠ NamespaceUnavailable
  end.
Proof.
  unfold make_spdk. case_bool_decide; [done|].
  assert (g_instance (fst (init_env env g)) = g_instance g
    ∧ (snd (init_env env g) = 0 → g_initialized (fst (init_env env g)) = true)) as [Hi Hinit].
  { unfold init_env. destruct (g_initialized g) eqn:E; [done|]. zcases; done. }
  destruct (init_env env g) as [g1 rc]. simpl in Hi, Hinit.
  destruct (Z.eqb_spec rc 0) as [->|]; simpl; [|done].
  destruct (g_instance g1) eqn:E1; [by rewrite <- Hi, E1|].
  assert (Hboth := probe_ctx_both cfg (env_bus env) (mkProbe None None) (g_attached g1)).
  destruct (nvme_probe cfg _ _ _) as [ctx attached]. simpl in *.
  destruct (env_probe_rc env =? 0); simpl; [|by rewrite <- Hi].
  destruct (pc_ctrlr ctx) as [c|]; [|by rewrite <- Hi].
  destruct (pc_ns ctx) as [[ns sector]|]; [|by assert (Some c = None) by tauto].
  destruct (env_alloc_qpair env _ _); simpl; rewrite <- Hi; auto.
Qed.

(** A matching device whose namespace is missing or inactive stays attached
    and the error says that no device matches. *)
Theorem spdk_inactive_namespace_leaks {K : Type} (this : Z) (cfg : SpdkConfig) (env : SpdkEnv K) (d : Device) :
  s_traddr cfg = pci_string (dev_addr d) → s_traddr cfg ≠ EmptyString → env_bus env = [d] →
  env_probe_rc env = 0 → env_init_rc env = 0 →
  (∀ ns sector, dev_ns d (s_nsid cfg) ≠ Some (ns, true, sector)) →
  make_spdk this cfg env (mkGlobals false None []) = (mkGlobals true None [dev_ctrlr d], inl NoMatchingDevice).
Proof.
  intros Ha Hne Hbus Hp Hi Hns. unfold make_spdk. rewrite bool_decide_eq_false_2 by done.
  unfold init_env. rewrite Hi, Hbus, Hp. simpl. unfold probe_cb. rewrite bool_decide_eq_true_2 by done.
  unfold attach_cb. simpl. destruct (dev_ns d (s_nsid cfg)) as [[[ns []] sector]|] eqn:E; try done.
  by destruct (Hns ns sector).
Qed.

(** C40: a request whose offset is a multiple of the sector size is turned into
    a run of whole sectors that starts at the offset and covers its bytes; the
    run ends less than one sector past the last byte, except that a request of
    no bytes is sent as one sector, since a command of no sectors is never
    sent.  This is for lengths that do not wrap around in 64 bits when rounded
    up and whose number of sectors fits the 32-bit field. *)
Theorem spdk_sectors_cover {K : Type} (s : SPDKBackend K) (r : IORequest) (write : bool) (idx : Z) :
  let unit := s_io_unit_size (sp_cfg s) in
  let cmd := nvme_of s r write idx in
  0 < unit → 0 ≤ r_offset r → 0 ≤ r_len r → r_offset r mod unit = 0 →
  r_len r + unit - 1 < W64 → r_len r ≤ (W32 - 1) * unit →
  nc_lba cmd * unit = r_offset r ∧ 1 ≤ nc_lba_count cmd
  ∧ r_offset r + r_len r ≤ (nc_lba cmd + nc_lba_count cmd) * unit
  ∧ (0 < r_len r → (nc_lba cmd + nc_lba_count cmd) * unit < r_offset r + r_len r + unit)
  ∧ (r_len r = 0 → nc_lba_count cmd = 1).
Proof.
  intros unit cmd Hu Ho Hl Hal H64 H32. subst cmd. simpl. unfold lba_of, lba_count_of. fold unit.
  rewrite wrap64_small by lia.
  assert (Hq := Z.div_mod (r_len r + unit - 1) unit ltac:(lia)).
  assert (Hm := Z.mod_pos_bound (r_len r + unit - 1) unit Hu).
  assert (Ho' := Z.div_mod (r_offset r) unit ltac:(lia)). rewrite Hal in Ho'.
  set (n := (r_len r + unit - 1) / unit) in *. set (o := r_offset r / unit) in *.
  assert (0 ≤ n < W32) by nia. assert (r_len r = 0 ∧ n = 0 ∨ 0 < r_len r ∧ 1 ≤ n) as Hcase by nia.
  replace (wrap32 n) with n by (symmetry; apply Z.mod_small; unfold W32 in *; lia).
  destruct (Z.eqb_spec n 0); split_and!; nia.
Qed.

(** With an offset inside a sector the command starts at the sector's first
    byte, before the bytes that were asked for. *)
Theorem spdk_unaligned_offset_rounded_down {K : Type} (s : SPDKBackend K) (r : IORequest) (write : bool) (idx : Z) :
  let unit := s_io_unit_size (sp_cfg s) in
  0 < unit → r_offset r mod unit ≠ 0 → nc_lba (nvme_of s r write idx) * unit < r_offset r.
Proof.
  intros unit Hu Hm. simpl. unfold lba_of. fold unit.
  assert (H := Z.div_mod (r_offset r) unit ltac:(lia)). assert (H2 := Z.mod_pos_bound (r_offset r) unit Hu). nia.
Qed.

(** A read or write that the library refuses with a negative error code is
    reported with a positive result, which [IOCompletion] documents as a number
    of transferred bytes. *)
Theorem spdk_refusal_reported_as_bytes {K : Type} `{!Nvme K} (s : SPDKBackend K) (req : IORequest) (write : bool) (k : K) (rc : Z) :
  r_op req = (if write then kWrite else kRead) → callback_fn req ≠ 0 →
  nvme_cmd (sp_qpair s) (nvme_of s req write (sp_submit_count s)) = (k, rc) → rc < 0 →
  ∃ s' comp, sp_submit s req = (s', [mkCall (callback_fn req) (callback_ctx req) comp]) ∧ 0 < c_result comp.
Proof.
  intros Hop Hcb Hk Hrc. exists (sp_record s req k), (mkComp (sp_submit_count s) (- rc)).
  split; [|simpl; lia]. assert (sp_submit s req = sp_issue s req write) as -> by (unfold sp_submit; rewrite Hop; by destruct write).
  unfold sp_issue. rewrite Hk. unfold invoke_callback.
  by rewrite (proj2 (Z.eqb_neq rc 0)), (proj2 (Z.eqb_neq _ _) Hcb) by lia.
Qed.

(** ** A queue pair of bounded depth that completes everything when polled *)

Record SimNvme := mkSimNvme { sn_cap : nat; sn_queue : list Z }.

#[export] Instance SimNvme_ops : Nvme SimNvme := {
  nvme_cmd k c :=
    if decide (length (sn_queue k) < sn_cap k)%nat
    then (mkSimNvme (sn_cap k) (sn_queue k ++ [nc_arg c]), 0) else (k, - 12);
  process_completions k :=
    (mkSimNvme (sn_cap k) [], Z.of_nat (length (sn_queue k)), (λ a, mkCpl a false) <$> sn_queue k)
}.

#[export] Program Instance SimNvme_laws : NvmeLaws SimNvme := { nvme_inflight := sn_queue }.
Next Obligation.
  intros k c k' rc. simpl. case_decide; intros [= <- <-]; simpl; [right|left]; (split; [done|]); [|done].
  by rewrite Permutation_app_comm.
Qed.
Next Obligation.
  intros k k' ret cpls [= <- _ <-]. simpl. rewrite <- list_fmap_compose, app_nil_r.
  change (compose cpl_arg _) with (@id Z). by rewrite list_fmap_id.
Qed.

Definition sample_spdk : SPDKBackend SimNvme :=
  mkSpdk (mkSpdkCfg "0000:5f:00.0" 1 1 512 1024 4096) 1 2 (mkSimNvme 0 []) (replicate 2 default_req) 0 [] [].

Example pci_string_sample : pci_string (mkPci 0 95 0 0) = "0000:5f:00.0"%string.
Proof. reflexivity. Qed.

Lemma spdk_sectors_cover_witness :
  (nc_lba (nvme_of sample_spdk (mkReq kRead 0 1024 64 700 0 9 1) false 0) * 512 = 1024
   ∧ 1024 + 700 ≤ (nc_lba (nvme_of sample_spdk (mkReq kRead 0 1024 64 700 0 9 1) false 0)
                  + nc_lba_count (nvme_of sample_spdk (mkReq kRead 0 1024 64 700 0 9 1) false 0)) * 512)
  ∧ nc_lba_count (nvme_of sample_spdk (mkReq kRead 0 1024 64 0 0 9 1) false 0) = 1.
Proof.
  split.
  - destruct (spdk_sectors_cover sample_spdk (mkReq kRead 0 1024 64 700 0 9 1) false 0) as (H1 & _ & H2 & _);
      [vm_compute; congruence..|]. split; [exact H1|exact H2].
  - destruct (spdk_sectors_cover sample_spdk (mkReq kRead 0 1024 64 0 0 9 1) false 0) as (_ & _ & _ & _ & H);
      [vm_compute; congruence..|]. exact (H eq_refl).
Defined.

Lemma spdk_refusal_reported_as_bytes_witness :
  ∃ s' comp, sp_submit sample_spdk (mkReq kRead 0 1024 64 700 0 9 1) = (s', [mkCall 9 1 comp]) ∧ 0 < c_result comp.
Proof.
  apply (spdk_refusal_reported_as_bytes sample_spdk (mkReq kRead 0 1024 64 700 0 9 1) false (mkSimNvme 0 []) (-12));
    [reflexivity|vm_compute; congruence|reflexivity|reflexivity].
Defined.
