(* ===== verification/IoEngine.v ===== *)
(** [IOEngine] ([io_engine.h/.cc]): choice of the back end, and virtual
    dispatch over the three of them. *)
From S2P Require Import Prelude IoBackend IoLibaio IoUring IoSpdk.

Record IOBackendConfig := mkIoCfg {
  io_type : string;
  io_queue_depth : Z;
  io_max_file_size : Z;
  io_bdev_name : string;
  io_sq_poll_group : Z
}.

Definition default_io_cfg : IOBackendConfig := mkIoCfg "io_uring" 256 0 "" (-1).

Section Engine.
Context {KA KU KN : Type} `{!Aio KA, !Uring KU, !Nvme KN}.

(** [std::unique_ptr<IIOBackend>]. *)
Inductive AnyBackend :=
| BUring (u : IOUringBackend KU)
| BLibaio (l : LibaioBackend KA)
| BSpdk (s : SPDKBackend KN).

Inductive IoError :=
| IORingSetupFailed (ret : Z) | IOAioSetupFailed (ret : Z) | SpdkFailed (e : SpdkError) | UnknownBackend (type : string).

(** What the operating system answers to the constructors. *)
Record IoSystem := mkSystem {
  sys_uring_init : Z → UringParams → Z + KU;
  sys_aio_setup : Z → Z + KA;
  sys_spdk : SpdkEnv KN
}.

(** The static state of the back-end classes. *)
Record IoStatics := mkStatics { st_ring_groups : gmap Z Z; st_spdk : SpdkGlobals }.

Definition create (this : Z) (sys : IoSystem) (g : IoStatics) (cfg : IOBackendConfig) : IoStatics * (IoError + AnyBackend) :=
  if bool_decide (io_type cfg = "io_uring"%string) then
    let '(groups, r) := make_uring (sys_uring_init sys) (st_ring_groups g)
                          (mkUCfg (io_queue_depth cfg) (io_sq_poll_group cfg)) in
    (mkStatics groups (st_spdk g), match r with inl ret => inl (IORingSetupFailed ret) | inr u => inr (BUring u) end)
  else if bool_decide (io_type cfg = "libaio"%string) then
    (g, match make_libaio (io_queue_depth cfg) (sys_aio_setup sys (io_queue_depth cfg)) with
        | inl ret => inl (IOAioSetupFailed ret) | inr l => inr (BLibaio l) end)
  else if bool_decide (io_type cfg = "spdk"%string) then
    let '(sg, r) := make_spdk this (spdk_config (io_bdev_name cfg) (io_queue_depth cfg) (io_max_file_size cfg))
                      (sys_spdk sys) (st_spdk g) in
    (mkStatics (st_ring_groups g) sg, match r with inl e => inl (SpdkFailed e) | inr s => inr (BSpdk s) end)
  else (g, inl (UnknownBackend (io_type cfg))).

(** Apply a call of the dynamic type and wrap the object again. *)
Definition any_map {A B R} (f : A → B) (r : option (A * R)) : option (B * R) :=
  '(a, x) ← r; Some (f a, x).

#[export] Instance AnyBackend_ops : IIOBackend AnyBackend := {
  be_name b := match b with BUring u => be_name u | BLibaio l => be_name l | BSpdk s => be_name s end;
  be_submit b r :=
    match b with
    | BUring u => any_map BUring (be_submit u r)
    | BLibaio l => any_map BLibaio (be_submit l r)
    | BSpdk s => any_map BSpdk (be_submit s r)
    end;
  be_submit_batch b rs :=
    match b with
    | BUring u => any_map BUring (be_submit_batch u rs)
    | BLibaio l => any_map BLibaio (be_submit_batch l rs)
    | BSpdk s => any_map BSpdk (be_submit_batch s rs)
    end;
  be_flush_pending b :=
    match b with
    | BUring u => any_map BUring (be_flush_pending u)
    | BLibaio l => any_map BLibaio (be_flush_pending l)
    | BSpdk s => any_map BSpdk (be_flush_pending s)
    end;
  be_pending_count b :=
    match b with BUring u => be_pending_count u | BLibaio l => be_pending_count l | BSpdk s => be_pending_count s end;
  be_flush_submissions b :=
    match b with
    | BUring u => BUring (be_flush_submissions u)
    | BLibaio l => BLibaio (be_flush_submissions l)
    | BSpdk s => BSpdk (be_flush_submissions s)
    end;
  be_has_sqe_submitted b :=
    match b with
    | BUring u => be_has_sqe_submitted u | BLibaio l => be_has_sqe_submitted l | BSpdk s => be_has_sqe_submitted s
    end;
  be_flush_cqe_task_work b :=
    match b with
    | BUring u => BUring (be_flush_cqe_task_work u)
    | BLibaio l => BLibaio (be_flush_cqe_task_work l)
    | BSpdk s => BSpdk (be_flush_cqe_task_work s)
    end;
  be_poll b max :=
    match b with
    | BUring u => '(u', c, o) ← be_poll u max; Some (BUring u', c, o)
    | BLibaio l => '(l', c, o) ← be_poll l max; Some (BLibaio l', c, o)
    | BSpdk s => '(s', c, o) ← be_poll s max; Some (BSpdk s', c, o)
    end
}.

Context `{!AioLaws KA, !UringLaws KU, !NvmeLaws KN}.

#[export] Program Instance AnyBackend_laws : IIOBackendLaws AnyBackend := {
  be_inv b := match b with BUring u => be_inv u | BLibaio l => be_inv l | BSpdk s => be_inv s end;
  be_outstanding b := match b with BUring u => be_outstanding u | BLibaio l => be_outstanding l | BSpdk s => be_outstanding s end;
  be_issued b := match b with BUring u => be_issued u | BLibaio l => be_issued l | BSpdk s => be_issued s end
}.
Next Obligation.
  intros [b|b|b] req H1 H2 H3; destruct (submit_law b req H1 H2 H3) as (b' & calls & E & ?);
    unfold be_submit at 1, AnyBackend_ops; rewrite E; by eexists (_ b'), calls.
Qed.
Next Obligation.
  intros [b|b|b] H1 H2; destruct (flush_pending_law b H1 H2) as (b' & calls & E & ?);
    unfold be_flush_pending at 1, AnyBackend_ops; rewrite E; by eexists (_ b'), calls.
Qed.
Next Obligation. intros [b|b|b] H1; exact (flush_submissions_law b H1). Qed.
Next Obligation.
  intros [b|b|b] max H1 H2; destruct (poll_law b max H1 H2) as (b' & calls & out & E & ?);
    unfold be_poll at 1, AnyBackend_ops; rewrite E; by eexists (_ b'), calls, out.
Qed.

(** The operating system hands out rings, contexts and queue pairs with
    nothing in flight. *)
Definition fresh_system (sys : IoSystem) : Prop :=
  (∀ depth p k, sys_uring_init sys depth p = inr k → ring_data k = [])
  ∧ (∀ depth k, sys_aio_setup sys depth = inr k → aio_inflight k = [])
  ∧ (∀ size reqs k, env_alloc_qpair (sys_spdk sys) size reqs = Some k → nvme_inflight k = []).

Lemma ids_ok_fresh pending : ids_ok 0 pending [].
Proof. split_and!; [lia|unfold SIZE_MAX, W64; lia|lia|constructor]. Qed.

Lemma make_uring_fresh sys groups cfg groups' u :
  fresh_system sys → make_uring (sys_uring_init sys) groups cfg = (groups', inr u) →
  u_inv u ∧ u_outstanding u = [] ∧ u_issued u = 0.
Proof.
  intros (Hf & _ & _). unfold make_uring.
  destruct (sys_uring_init sys _ _) as [|k] eqn:E; intros [= _ <-]. apply Hf in E.
  unfold u_inv, u_outstanding, u_inring, u_issued. simpl. rewrite E. by split_and!; [apply ids_ok_fresh|..].
Qed.

Lemma make_spdk_fresh sys this cfg g g' s :
  fresh_system sys → make_spdk this cfg (sys_spdk sys) g = (g', inr s) →
  sp_inv s ∧ sp_outstanding s = [] ∧ sp_submit_count s = 0.
Proof.
  intros (_ & _ & Hf). unfold make_spdk. intros H. repeat (case_match; simplify_eq/=).
  all: unfold sp_inv, sp_outstanding; simpl; erewrite Hf by done; split_and!; [apply ids_ok_fresh|done|done].
Qed.

Lemma create_fresh this sys g cfg g' b :
  fresh_system sys → create this sys g cfg = (g', inr b) →
  be_inv b ∧ be_outstanding b = [] ∧ be_issued b = 0 ∧ be_name b = io_type cfg.
Proof.
  intros Hf. unfold create. repeat case_bool_decide.
  - destruct (make_uring _ _ _) as [groups [|u]] eqn:E; intros [= _ <-].
    destruct (make_uring_fresh _ _ _ _ _ Hf E) as (? & ? & ?). done.
  - unfold make_libaio. destruct (sys_aio_setup sys _) as [|k] eqn:E; intros [= _ <-].
    apply (proj1 (proj2 Hf)) in E. simpl. unfold la_inv, la_outstanding. simpl. rewrite E.
    by split_and!; [apply ids_ok_fresh|..].
  - destruct (make_spdk _ _ _ _) as [sg [|s]] eqn:E; intros [= _ <-].
    destruct (make_spdk_fresh _ _ _ _ _ _ Hf E) as (? & ? & ?). done.
  - done.
Qed.
End Engine.

Arguments IoSystem KA KU KN : clear implicits.

Arguments AnyBackend KA KU KN : clear implicits.

(** C21: whatever back end [IOEngine::create] builds, its name is the one the
    configuration asks for, and every sequence of [co_read], [co_write] and poll
    turns on it runs without a failed assertion and leaves each call either
    returned, with its baton posted exactly once, or waiting with exactly one
    request of it in flight. *)
Theorem io_engine_answers_once {KA KU KN : Type} `{!Aio KA, !Uring KU, !Nvme KN, !AioLaws KA, !UringLaws KU, !NvmeLaws KN}
    (this : Z) (sys : IoSystem KA KU KN) (g g' : IoStatics) (cfg : IOBackendConfig) (b : AnyBackend KA KU KN) (ops : list IoOp) :
  fresh_system sys → create this sys g cfg = (g', inr b) → Z.of_nat (length ops) ≤ SIZE_MAX →
  be_name b = io_type cfg
  ∧ ∃ c, io_run (mkClient b []) ops = Some c
    ∧ ∀ n, (n < length (cl_frames c))%nat →
        ∃ st, cl_frames c !! n = Some st
          ∧ ((baton_posts st = 1%nat ∧ co_returned c n = Some (io_result st)
              ∧ owed n (be_outstanding (cl_backend c)) = 0%nat)
             ∨ (co_returned c n = None ∧ owed n (be_outstanding (cl_backend c)) = 1%nat)).
Proof.
  intros Hf Hc Hlen. destruct (create_fresh _ _ _ _ _ _ Hf Hc) as (Hinv & Ho & Hi & Hn).
  split; [done|]. apply co_io_answered_once; [done|done|]. rewrite Hi. lia.
Qed.

(** The simulated kernels, a ring of one entry among them. *)
Definition sample_system : IoSystem SimAio SimRing SimNvme :=
  mkSystem (λ _ _, inr (mkSimRing 1 5 [] [])) (λ _, inr (mkSimAio 1 []))
    (mkEnv _ 0 [] 0 (λ _ _, Some (mkSimNvme 1 [])) (λ _, None)).
Definition sample_statics : IoStatics := mkStatics ∅ (mkGlobals false None []).
Definition sample_libaio : AnyBackend SimAio SimRing SimNvme :=
  BLibaio (mkLibaio 1 (mkSimAio 1 []) (replicate 2 default_req) 0).
Definition sample_ops : list IoOp := [OpRead 3 0 64 512; OpWrite 3 512 128 100; OpPoll; OpRead 3 9 9 9].

Lemma io_engine_answers_once_witness :
  be_name sample_libaio = "libaio"%string
  ∧ ∃ c, io_run (mkClient sample_libaio []) sample_ops = Some c
    ∧ ∀ n, (n < length (cl_frames c))%nat →
        ∃ st, cl_frames c !! n = Some st
          ∧ ((baton_posts st = 1%nat ∧ co_returned c n = Some (io_result st)
              ∧ owed n (be_outstanding (cl_backend c)) = 0%nat)
             ∨ (co_returned c n = None ∧ owed n (be_outstanding (cl_backend c)) = 1%nat)).
Proof.
  apply (io_engine_answers_once 1 sample_system sample_statics sample_statics
           (mkIoCfg "libaio" 1 0 "" (-1)) sample_libaio sample_ops).
  - repeat split; intros; simplify_eq/=; reflexivity.
  - reflexivity.
  - vm_compute. congruence.
Defined.

(** The same run on the sample: the first call has its 512 bytes, the second
    was refused with [-EAGAIN], the third is in flight. *)
Example sample_results :
  (c ← io_run (mkClient sample_libaio []) sample_ops; Some ((λ n, c_result <$> co_returned c n) <$> [0; 1; 2]%nat))
  = Some [Some 512; Some (- EAGAIN); None].
Proof. reflexivity. Qed.

(** ** [OnlineWorker::co_read] and [co_write]: without a back end they throw. *)
Definition worker_co_rw {B} `{!IIOBackend B} (backend : option (Client B)) (op : Op) (fd offset buf len : Z)
  : option (Client B) :=
  c ← backend; Some (co_rw c op fd offset buf len).
