(* ===== verification/RingNet.v ===== *)
(** Several [MPMCRing]s used by the same threads, one element at a time
    ([ring_work_queue.h]: [enqueue], [try_dequeue_mc] and [try_dequeue]).

    A thread that is inside a call on a ring runs the steps of [RingConc] on it;
    the calls of different threads interleave access by access.  The file counts
    elements: what was handed to [enqueue] is in a ring, with a running call, or
    was given back.  [try_dequeue] is the dequeue without reservation; the
    counting holds as long as nobody uses it on a shared ring, and fails if the
    owner of a ring does while another thread takes from it. *)
From S2P Require Import Prelude Circ Rings RingConc.
Import Mpmc.

(** Which dequeue a caller uses. *)
Inductive Dequeue := TryDequeueMc | TryDequeue.

Section Machine.
Context {T : Type} `{!Inhabited T, !EqDecision T}.

(** A call under way: a dequeue, or an enqueue of [x]. *)
Inductive Op := OTake (d : Dequeue) | OPush (x : T).

(** The rings with the state of every thread on each, and the call each thread
    is in. *)
Record Net := mkNet { n_rings : list (cstate T); n_calls : list (option (nat * Op)) }.

(** [dequeue_bulk], the single-consumer variant, on the states of [RingConc]: no
    reservation before the copies, two plain stores after them. *)
Inductive sc_step : world T → tstate T → world T → tstate T → Prop :=
| s_load_head w n : sc_step w (CLoad n) w (CHead n (cons_head (rg w)))
| s_load_tail w n h n' :
    n' = Z.min n (prod_tail (rg w) -64 h) →
    sc_step w (CHead n h) w (if n' =? 0 then CDone 0 [] else CRead n' h [])
| s_read w n h acc x :
    Z.of_nat (length acc) < n →
    ring (rg w) !! Z.to_nat (Z.land (h +64 Z.of_nat (length acc)) (mask (rg w))) = Some x →
    sc_step w (CRead n h acc) w (CRead n h (acc ++ [x]))
| s_read_all w n h acc :
    Z.of_nat (length acc) = n → sc_step w (CRead n h acc) w (CWait n h acc)
| s_store_head w n h acc :
    sc_step w (CWait n h acc)
      (mkWorld (set_cons_head (rg w) (h +64 n)) (lg w) (grants w ++ [(h, n)])) (CStore n h acc)
| s_store_tail w n h acc :
    sc_step w (CStore n h acc) (mkWorld (set_cons_tail (rg w) (h +64 n)) (lg w) (grants w)) (CDone h acc).

(** One step inside a call. *)
Definition op_step (op : Op) : world T → tstate T → world T → tstate T → Prop :=
  match op with OTake TryDequeue => sc_step | _ => tstep end.

(** The state a call begins in. *)
Definition op_start (op : Op) : tstate T :=
  match op with OTake _ => CLoad 1 | OPush x => PLoad [x] 1 end.

Definition set_call (N : Net) (r tid : nat) (c : cstate T) (o : option (nat * Op)) : Net :=
  mkNet (<[r := c]> (n_rings N)) (<[tid := o]> (n_calls N)).

(** Thread [tid] calls [op] on ring [r]. *)
Definition start_call (N : Net) (tid r : nat) (op : Op) : option Net :=
  o ← n_calls N !! tid; c ← n_rings N !! r; t ← thr c !! tid;
  if o is None then
    if resting t then Some (set_call N r tid (mkC (wd c) (<[tid := op_start op]> (thr c))) (Some (r, op))) else None
  else None.

(** One access of thread [tid] inside its call. *)
Inductive net_step (tid : nat) : Net → Net → Prop :=
| net_access N r op c t w' t' :
    n_calls N !! tid = Some (Some (r, op)) → n_rings N !! r = Some c → thr c !! tid = Some t →
    resting t = false → op_step op (wd c) t w' t' → Z.of_nat (length (lg w')) < W64 →
    net_step tid N (set_call N r tid (mkC w' (<[tid := t']> (thr c))) (Some (r, op))).

(** The call returns: the operation and the state it ended in. *)
Definition finish_call (N : Net) (tid : nat) : option (Op * tstate T * Net) :=
  o ← n_calls N !! tid; p ← o; c ← n_rings N !! p.1; t ← thr c !! tid;
  if resting t then Some (p.2, t, set_call N p.1 tid c None) else None.

(** What a dequeue returns, and whether an enqueue was refused. *)
Definition taken (t : tstate T) : option T := match t with CDone _ acc => head acc | _ => None end.
Definition refused (t : tstate T) : bool := match t with PDone n => n =? 0 | _ => true end.

(** Rings of [2^k] slots, for [m] threads. *)
Definition ring_init (k : Z) (m : nat) : option (cstate T) := cinit (2 ^ k) m.

(** ** Where the elements are *)

(** In the ring: reserved by a producer and not granted to a consumer. *)
Definition waiting (c : cstate T) : list T := drop (Z.to_nat (cons_head (rg (wd c)))) (lg (wd c)).

(** With a call: not yet in the ring, or granted and not yet returned. *)
Definition op_items (l : list T) (op : Op) (t : tstate T) : list T :=
  match op, t with
  | OPush x, (PLoad _ _ | PHead _ _ _ | PCas _ _ _) => [x]
  | OPush x, PDone n => if n =? 0 then [x] else []
  | OTake _, (CRead n h _ | CWait n h _ | CStore n h _) => slice l h (Z.to_nat n)
  | OTake _, CDone _ acc => acc
  | _, _ => []
  end.

Definition hand (N : Net) (tid : nat) : list T :=
  match n_calls N !! tid with
  | Some (Some (r, op)) =>
      match n_rings N !! r with
      | Some c => match thr c !! tid with Some t => op_items (lg (wd c)) op t | None => [] end
      | None => []
      end
  | _ => []
  end.

Definition net_items (N : Net) : list T :=
  mjoin (waiting <$> n_rings N) ++ mjoin (hand N <$> seq 0 (length (n_calls N))).

(** ** Invariant *)

(** The states a thread may be in on a ring. *)
Definition op_ok (o : option Op) (t : tstate T) : Prop :=
  match o, t with
  | None, _ => resting t = true
  | Some (OTake d), (CLoad n | CHead n _ | CCas n _ | CRead n _ _ | CWait n _ _ | CStore n _ _) => d = TryDequeueMc ∧ n = 1
  | Some (OTake d), CDone _ acc => d = TryDequeueMc ∧ (length acc ≤ 1)%nat
  | Some (OPush x), (PLoad objs n | PHead objs n _ | PCas objs n _ | PWrite objs n _ _) => objs = [x] ∧ n = 1
  | Some (OPush x), (PWait n _ | PStore n _) => n = 1
  | Some (OPush x), PDone n => n = 0 ∨ n = 1
  | _, _ => False
  end.

Definition call_on (N : Net) (r tid : nat) : option Op :=
  match n_calls N !! tid with Some (Some (r', op)) => if decide (r' = r) then Some op else None | _ => None end.

Record net_inv (N : Net) : Prop := {
  ni_ring : ∀ r c, n_rings N !! r = Some c → ∃ k, 0 ≤ k ≤ 63 ∧ cinv k c;
  ni_thr : ∀ r c tid, n_rings N !! r = Some c → (tid < length (n_calls N))%nat →
    ∃ t, thr c !! tid = Some t ∧ op_ok (call_on N r tid) t;
  ni_calls : ∀ tid r op, n_calls N !! tid = Some (Some (r, op)) → is_Some (n_rings N !! r)
}.

(** ** Counting *)

Lemma occ_mjoin {A} z (f : A → list T) (l : list A) : occ z (mjoin (f <$> l)) = sum_list_with (λ x, occ z (f x)) l.
Proof. 
  induction l as [|x l IH]; [done|].
  change (mjoin (f <$> x :: l)) with (f x ++ mjoin (f <$> l)). by rewrite occ_app, IH.
Qed.

Lemma sum_insert {A} (f : A → nat) l i x y :
  l !! i = Some x → (sum_list_with f (<[i := y]> l) + f x = sum_list_with f l + f y)%nat.
Proof.
  revert i. induction l as [|a l IH]; intros i Hi; [done|]. destruct i as [|i]; simplify_eq/=; [lia|].
  specialize (IH i Hi). lia.
Qed.

Lemma sum_one (f g : nat → nat) l i :
  NoDup l → i ∈ l → (∀ j, j ≠ i → f j = g j) → (sum_list_with f l + g i = sum_list_with g l + f i)%nat.
Proof.
  intros Hnd Hi Hne. induction Hnd as [|j l Hj Hnd IH]; [by apply not_elem_of_nil in Hi|]. simpl.
  apply elem_of_cons in Hi as [->|Hi].
  - assert (sum_list_with f l = sum_list_with g l) as ->; [|lia].
    clear IH Hnd. induction l as [|a l IH]; [done|]. apply not_elem_of_cons in Hj as [? ?]. simpl.
    rewrite IH by done. by rewrite (Hne a).
  - rewrite (Hne j) by (intros ->; done). specialize (IH Hi). lia.
Qed.

(** A change at ring [r] and thread [tid]. *)
Lemma net_count N r tid c c' o z :
  n_rings N !! r = Some c → (tid < length (n_calls N))%nat →
  (∀ j, j ≠ tid → occ z (hand (set_call N r tid c' o) j) = occ z (hand N j)) →
  (occ z (net_items (set_call N r tid c' o)) + occ z (waiting c) + occ z (hand N tid)
   = occ z (net_items N) + occ z (waiting c') + occ z (hand (set_call N r tid c' o) tid))%nat.
Proof.
  intros Hr Hlt Hoth. unfold net_items. rewrite !occ_app, !occ_mjoin.
  cbn [n_rings n_calls set_call]. rewrite length_insert.
  pose proof (sum_insert (λ x, occ z (waiting x)) (n_rings N) r c c' Hr) as H1.
  pose proof (sum_one (λ j, occ z (hand (set_call N r tid c' o) j)) (λ j, occ z (hand N j))
    (seq 0 (length (n_calls N))) tid (NoDup_seq _ _) ltac:(apply elem_of_seq; lia) Hoth) as H2.
  simpl in H1, H2. lia.
Qed.

(** One access moves an element at most between the ring and the call. *)
Lemma access_count k w op t w' t' :
  0 ≤ k ≤ 63 → winv k w → tinv k w t → op_ok (Some op) t → resting t = false → op_step op w t w' t' →
  Z.of_nat (length (lg w')) < W64 →
  tstep w t w' t' ∧ op_ok (Some op) t' ∧ ∀ z,
    (occ z (drop (Z.to_nat (cons_head (rg w))) (lg w)) + occ z (op_items (lg w) op t)
     = occ z (drop (Z.to_nat (cons_head (rg w'))) (lg w')) + occ z (op_items (lg w') op t'))%nat.
Proof.
  intros Hk Hw Ht Hok Hrun Hst Hb.
  assert (tstep w t w' t') as Hs.
  { destruct op as [[]|]; try done. by destruct t; destruct Hok. }
  split; [done|]. clear Hst. pose proof (w_order _ _ Hw) as Ho. pose proof (w_log _ _ Hw) as Hlog.
  destruct Hs as
    [w t objs Hr|w t n Hr Hn|w objs n|w objs n h n' En|w objs n h Hh|w objs n h|w objs n h i x Hi Hx|w objs n h
    |w n h Hh|w n h Hh|w n h|w n|w n h n' En|w n h Hh|w n h|w n h acc x Hl Hx|w n h acc Hl|w n h acc Hh|w n h acc Hh|w n h acc];
    destruct op as [d|y]; simpl in *; try done; try congruence; try (by split; [|done]).
  - destruct Hok as [-> ->]. assert (n' = 0 ∨ n' = 1) as [-> | ->]; [|by split; [left|]|by split; [|]].
    pose proof (wrap64_range (capacity (rg w) + cons_tail (rg w) - h)). lia.
  - destruct Hok as [-> ->]. split; [done|]. intros z. simpl. rewrite drop_app_le by lia.
    rewrite !occ_app. change (take (Z.to_nat 1) [y]) with [y]. rewrite !occ_nil. lia.
  - by destruct Hok as [_ ->].
  - subst n. split; [by right|done].
  - destruct Hok as [-> ->]. assert (n' = 0 ∨ n' = 1) as [-> | ->]; [|by split; [split; [|simpl; lia]|]|by split; [|]].
    pose proof (wrap64_range (prod_tail (rg w) - h)). lia.
  - destruct Hok as [-> ->]. split; [done|]. intros z. rewrite Hh, wrap64_small by lia.
    destruct (lookup_lt_is_Some_2 (lg w) (Z.to_nat h)) as [x Hx]; [lia|].
    rewrite (drop_S _ _ _ Hx). unfold slice. rewrite (drop_S _ _ _ Hx). change (Z.to_nat 1) with 1%nat.
    replace (Z.to_nat (h + 1)) with (S (Z.to_nat h)) by lia.
    change (take 1 (x :: drop (S (Z.to_nat h)) (lg w))) with (x :: take 0 (drop (S (Z.to_nat h)) (lg w))).
    rewrite take_0, (occ_cons z x), occ_nil. lia.
  - destruct Hok as [-> ->]. destruct Ht as (_ & _ & _ & Hlen & Hacc). split; [split; [done|lia]|].
    intros z. replace (Z.to_nat 1) with (length acc) by lia. by rewrite <- Hacc.
Qed.

Lemma op_items_mono k w l' op t :
  winv k w → tinv k w t → op_items (lg w ++ l') op t = op_items (lg w) op t.
Proof.
  intros Hw Ht. pose proof (w_order _ _ Hw). pose proof (w_log _ _ Hw).
  destruct op, t; simpl in *; try done; destruct Ht as (? & ? & ? & _); apply slice_app_l; lia.
Qed.

Lemma hand_other N r tid c w' t' o j :
  net_inv N → n_rings N !! r = Some c → lg (wd c) `prefix_of` lg w' → j ≠ tid →
  hand (set_call N r tid (mkC w' (<[tid := t']> (thr c))) o) j = hand N j.
Proof.
  intros HN Hr [l' El] Hne. unfold hand. simpl. rewrite list_lookup_insert_ne by done.
  destruct (n_calls N !! j) as [[[r' op]|]|] eqn:Ec; [|done..].
  destruct (decide (r' = r)) as [->|Hr']; [|by rewrite list_lookup_insert_ne].
  rewrite list_lookup_insert_eq by (by eapply lookup_lt_Some). rewrite Hr. simpl. rewrite lookup_insert_ne by done.
  destruct (thr c !! j) as [t|] eqn:Et; [|done]. rewrite El.
  destruct (ni_ring _ HN r c Hr) as (k & _ & Hc). eapply op_items_mono; [apply Hc|by eapply (c_thread k)].
Qed.

Lemma hand_self N r tid c t op :
  (tid < length (n_calls N))%nat → is_Some (n_rings N !! r) → thr c !! tid = Some t →
  hand (set_call N r tid c (Some (r, op))) tid = op_items (lg (wd c)) op t.
Proof.
  intros Hlt [c0 Hr] Ht. unfold hand. simpl. rewrite list_lookup_insert_eq by done.
  rewrite list_lookup_insert_eq by (by eapply lookup_lt_Some). by rewrite Ht.
Qed.
Lemma hand_call N tid r op c t :
  n_calls N !! tid = Some (Some (r, op)) → n_rings N !! r = Some c → thr c !! tid = Some t →
  hand N tid = op_items (lg (wd c)) op t.
Proof. intros E1 E2 E3. unfold hand. by rewrite E1, E2, E3. Qed.
Lemma hand_idle N tid : n_calls N !! tid = Some None → hand N tid = [].
Proof. intros E. unfold hand. by rewrite E. Qed.
Lemma hand_done N r tid c : (tid < length (n_calls N))%nat → hand (set_call N r tid c None) tid = [].
Proof. intros Hlt. apply hand_idle. simpl. by rewrite list_lookup_insert_eq. Qed.

(** The invariant after a change at ring [r] and thread [tid]. *)
Lemma net_inv_set N r tid c w' t' o :
  net_inv N → n_rings N !! r = Some c → (tid < length (n_calls N))%nat →
  (∃ k, 0 ≤ k ≤ 63 ∧ cinv k (mkC w' (<[tid := t']> (thr c)))) →
  (∀ r', r' ≠ r → call_on N r' tid = None) →
  match o with Some (r', op) => r' = r ∧ op_ok (Some op) t' | None => resting t' = true end →
  net_inv (set_call N r tid (mkC w' (<[tid := t']> (thr c))) o).
Proof.
  intros HN Hr Hlt Hc Hoth Ho. pose proof (lookup_lt_Some _ _ _ Hr) as Hrl. split; simpl.
  - intros r' c' Hc'. destruct (decide (r = r')) as [<-|Hne].
    + rewrite list_lookup_insert_eq in Hc' by done. injection Hc' as <-. done.
    + rewrite list_lookup_insert_ne in Hc' by done. by eapply (ni_ring _ HN).
  - intros r' c' j Hc' Hj. rewrite length_insert in Hj. unfold call_on. simpl.
    destruct (decide (r = r')) as [<-|Hne].
    + rewrite list_lookup_insert_eq in Hc' by done. injection Hc' as <-. simpl.
      destruct (decide (j = tid)) as [->|Hjt].
      * rewrite list_lookup_insert_eq, lookup_insert_eq by done. exists t'. split; [done|].
        destruct o as [[r' op]|]; [|done]. destruct Ho as [-> Ho]. by rewrite decide_True.
      * rewrite list_lookup_insert_ne, lookup_insert_ne by done. by apply (ni_thr _ HN r).
    + rewrite list_lookup_insert_ne in Hc' by done. destruct (decide (j = tid)) as [->|Hjt].
      * rewrite list_lookup_insert_eq by done. destruct (ni_thr _ HN r' c' tid Hc' Hlt) as (t & Ht & Hok).
        exists t. split; [done|]. rewrite Hoth in Hok by done.
        destruct o as [[r'' op]|]; [|done]. destruct Ho as [-> _]. by rewrite decide_False.
      * rewrite list_lookup_insert_ne by done. by apply (ni_thr _ HN r').
  - intros j r' op Hj. destruct (decide (j = tid)) as [->|Hjt].
    + rewrite list_lookup_insert_eq in Hj by done. simplify_eq. destruct Ho as [-> _].
      rewrite list_lookup_insert_eq by done. eauto.
    + rewrite list_lookup_insert_ne in Hj by done. destruct (ni_calls _ HN j r' op Hj) as [c' Hc'].
      destruct (decide (r = r')) as [<-|]; [rewrite list_lookup_insert_eq by done; eauto|].
      rewrite list_lookup_insert_ne by done. eauto.
Qed.

Definition pushed (op : Op) : list T := match op with OPush x => [x] | OTake _ => [] end.
Definition mc_only (op : Op) : Prop := op ≠ OTake TryDequeue.

(** ** The three moves *)

Lemma start_call_ok N tid r op N' :
  net_inv N → mc_only op → start_call N tid r op = Some N' →
  net_inv N' ∧ length (n_calls N') = length (n_calls N) ∧ length (n_rings N') = length (n_rings N)
  ∧ ∀ z, occ z (net_items N') = (occ z (net_items N) + occ z (pushed op))%nat.
Proof.
  intros HN Hop H. unfold start_call in H. destruct (n_calls N !! tid) as [o|] eqn:Ec; [|done]. simpl in H.
  destruct (n_rings N !! r) as [c|] eqn:Er; [|done]. simpl in H. destruct (thr c !! tid) as [t|] eqn:Et; [|done]. simpl in H.
  destruct o; [done|]. destruct (resting t) eqn:Hrest; [|done]. injection H as <-.
  pose proof (lookup_lt_Some _ _ _ Ec) as Hlt. destruct (ni_ring _ HN r c Er) as (k & Hk & Hc).
  split; [|split; [by simpl; rewrite length_insert|split; [by simpl; rewrite length_insert|]]].
  - apply net_inv_set; try done.
    + exists k. split; [done|]. eapply (cstep_inv k Hk); [exact Hc|].
      apply (cstep_thread c tid t (wd c)); [done| |apply Hc].
      destruct op as [d|x]; [by apply call_dequeue|by apply (call_enqueue (wd c) t [x])].
    + intros r' _. unfold call_on. by rewrite Ec.
    + split; [done|]. destruct op as [[]|x]; [done|by destruct Hop|done].
  - intros z. pose proof (net_count N r tid c (mkC (wd c) (<[tid := op_start op]> (thr c))) (Some (r, op)) z Er Hlt) as E.
    specialize (E ltac:(intros j Hj; by rewrite (hand_other N r tid c))).
    rewrite (hand_self N r tid _ (op_start op)), (hand_idle N) in E by (done || by apply lookup_insert_eq). unfold waiting in E. simpl in E.
    destruct op; simpl in *; rewrite ?occ_nil in *; lia.
Qed.

Lemma net_step_ok tid N N' :
  net_inv N → net_step tid N N' →
  net_inv N' ∧ length (n_calls N') = length (n_calls N) ∧ length (n_rings N') = length (n_rings N)
  ∧ ∀ z, occ z (net_items N') = occ z (net_items N).
Proof.
  intros HN Hst0. destruct Hst0 as [N r op c t w' t' Ec Er Et Hrun Hst Hb].
  pose proof (lookup_lt_Some _ _ _ Ec) as Hlt. destruct (ni_ring _ HN r c Er) as (k & Hk & Hc).
  destruct (ni_thr _ HN r c tid Er Hlt) as (t0 & Et0 & Hok). rewrite Et in Et0. injection Et0 as <-.
  unfold call_on in Hok. rewrite Ec, decide_True in Hok by done.
  pose proof (c_world _ _ Hc) as Hw. pose proof (c_thread _ _ Hc _ _ Et) as Ht.
  destruct (access_count k (wd c) op t w' t' Hk Hw Ht Hok Hrun Hst Hb) as (Hs & Hok' & Hcount).
  destruct (tstep_local k Hk _ _ _ _ Hw Ht Hs Hb) as (_ & Hle & _).
  split; [|split; [by simpl; rewrite length_insert|split; [by simpl; rewrite length_insert|]]].
  - apply net_inv_set; try done.
    + exists k. split; [done|]. eapply (cstep_inv k Hk); [exact Hc|]. by apply (cstep_thread c tid t).
    + intros r' Hne. unfold call_on. rewrite Ec. by rewrite decide_False.
  - intros z. pose proof (net_count N r tid c (mkC w' (<[tid := t']> (thr c))) (Some (r, op)) z Er Hlt) as E.
    specialize (E ltac:(intros j Hj; rewrite (hand_other N r tid c); [done..|apply Hle|done])).
    rewrite (hand_self N r tid _ t'), (hand_call N tid r op c t) in E by (done || by apply lookup_insert_eq). unfold waiting in E. simpl in E.
    specialize (Hcount z). lia.
Qed.

Lemma finish_call_ok N tid op t N' :
  net_inv N → finish_call N tid = Some (op, t, N') →
  net_inv N' ∧ length (n_calls N') = length (n_calls N) ∧ length (n_rings N') = length (n_rings N) ∧ op_ok (Some op) t
  ∧ ∀ z, occ z (net_items N) = (occ z (net_items N') + occ z match op with
      | OTake _ => option_list (taken t) | OPush x => if refused t then [x] else [] end)%nat.
Proof.
  intros HN H. unfold finish_call in H. destruct (n_calls N !! tid) as [[[r op0]|]|] eqn:Ec; [|done..]. simpl in H.
  destruct (n_rings N !! r) as [c|] eqn:Er; [|done]. simpl in H. destruct (thr c !! tid) as [t0|] eqn:Et; [|done]. simpl in H.
  destruct (resting t0) eqn:Hrest; [|done]. injection H as <- <- <-.
  pose proof (lookup_lt_Some _ _ _ Ec) as Hlt. destruct (ni_ring _ HN r c Er) as (k & Hk & Hc).
  destruct (ni_thr _ HN r c tid Er Hlt) as (t1 & Et1 & Hok). rewrite Et in Et1. injection Et1 as <-.
  unfold call_on in Hok. rewrite Ec, decide_True in Hok by done.
  assert (c = mkC (wd c) (<[tid := t0]> (thr c))) as Ecc by (destruct c; simpl in *; by rewrite insert_id).
  split; [|split; [by simpl; rewrite length_insert|split; [by simpl; rewrite length_insert|split; [done|]]]].
  - rewrite Ecc. apply net_inv_set; try done.
    + exists k. by rewrite <- Ecc.
    + intros r' Hne. unfold call_on. rewrite Ec. by rewrite decide_False.
  - intros z. pose proof (net_count N r tid c (mkC (wd c) (<[tid := t0]> (thr c))) None z Er Hlt) as E.
    specialize (E ltac:(intros j Hj; by rewrite (hand_other N r tid c))).
    rewrite (hand_call N tid r op0 c t0), hand_done in E by done. rewrite <- Ecc in E. rewrite occ_nil in E.
    destruct op0 as [d|x], t0 as [| | | | | | |n| | | | | | |h acc]; simpl in *; try done.
    + destruct Hok as [_ Hl]. destruct acc as [|a [|b acc]]; simpl in *; rewrite ?occ_nil in *; lia.
    + destruct (n =? 0); rewrite ?occ_nil in *; lia.
Qed.

(** No call is ever stuck: a thread inside one takes its next access or has
    returned. *)
Lemma call_progress N tid r op :
  net_inv N → n_calls N !! tid = Some (Some (r, op)) →
  (∀ c, n_rings N !! r = Some c → Z.of_nat (length (lg (wd c))) < W64 - 1) →
  (∃ N', net_step tid N N') ∨ is_Some (finish_call N tid).
Proof.
  intros HN Ec Hb. pose proof (lookup_lt_Some _ _ _ Ec) as Hlt. destruct (ni_calls _ HN _ _ _ Ec) as [c Er].
  destruct (ni_ring _ HN r c Er) as (k & Hk & Hc). destruct (ni_thr _ HN r c tid Er Hlt) as (t & Et & Hok).
  unfold call_on in Hok. rewrite Ec, decide_True in Hok by done. specialize (Hb c Er).
  destruct (resting t) eqn:Hrest.
  { right. unfold finish_call. rewrite Ec. simpl. rewrite Er. simpl. rewrite Et. simpl. rewrite Hrest. eauto. }
  left. pose proof (c_thread _ _ Hc _ _ Et) as Ht. pose proof (c_world _ _ Hc) as Hw.
  assert (∃ w' t', tstep (wd c) t w' t' ∧ Z.of_nat (length (lg w')) < W64) as (w' & t' & Hs & Hb').
  { destruct op as [d|x], t as [|objs n|objs n h|objs n h|objs n h i|n h|n h|n|n|n h|n h|n h acc|n h acc|n h acc|h acc];
      simpl in Hok, Ht; try done.
    - eexists _, _. split; [apply c_load_head|lia].
    - eexists _, _. split; [by eapply c_load_tail|lia].
    - eexists _, _. split; [apply c_cas_fail|lia].
    - destruct Ht as (_ & _ & _ & Hl & _). destruct (Z.eq_dec (Z.of_nat (length acc)) n); [eexists _, _; split; [by apply c_read_all|lia]|].
      destruct (lookup_lt_is_Some_2 (ring (rg (wd c))) (Z.to_nat (Z.land (h +64 Z.of_nat (length acc)) (mask (rg (wd c)))))) as [x Hx].
      { rewrite (w_mask _ _ Hw), (w_len _ _ Hw), mask_slot by lia. apply slot_lt. lia. }
      eexists _, _. split; [by eapply c_read; [lia|exact Hx]|lia].
    - destruct (Z.eq_dec (cons_tail (rg (wd c))) h); eexists _, _; (split; [first [by apply c_wait_done|by apply c_wait_more]|lia]).
    - eexists _, _. split; [apply c_store|simpl; lia].
    - eexists _, _. split; [apply p_load_head|lia].
    - eexists _, _. split; [by eapply p_load_tail|lia].
    - eexists _, _. split; [apply p_cas_fail|lia].
    - destruct Hok as [-> ->]. destruct Ht as (_ & Hi & _). destruct (Z.eq_dec i 1) as [->|]; [eexists _, _; split; [apply p_written|lia]|].
      assert (i = 0) as -> by lia. eexists _, _. split; [by apply (p_write _ [x] 1 h 0 x)|simpl; lia].
    - destruct (Z.eq_dec (prod_tail (rg (wd c))) h); eexists _, _; (split; [first [by apply p_wait_done|by apply p_wait_more]|lia]).
    - eexists _, _. split; [apply p_store|simpl; lia]. }
  eexists. eapply (net_access tid N r op c t w' t'); try done.
  destruct op as [[]|]; try done. by destruct t; destruct Hok.
Qed.
End Machine.

Arguments Op : clear implicits.
Arguments Net : clear implicits.

(** Fresh rings with idle threads. *)
Lemma net_init_inv {T} `{!Inhabited T, !EqDecision T} (rings : list (cstate T)) m :
  Forall (λ c, ∃ k, 0 ≤ k ≤ 63 ∧ cinit (2 ^ k) m = Some c) rings →
  let N := mkNet rings (replicate m None) in net_inv N ∧ net_items N = [].
Proof.
  intros HF N.
  assert (∀ r c, rings !! r = Some c → ∃ k, 0 ≤ k ≤ 63 ∧ cinit (2 ^ k) m = Some c) as Hr.
  { intros r c Hc. by apply (Forall_lookup_1 _ _ _ _ HF Hc). }
  assert (∀ tid o, replicate m (None : option (nat * Op T)) !! tid = Some o → o = None) as Hn.
  { intros tid o H. by apply lookup_replicate_1 in H as [-> _]. }
  assert (∀ k (c : cstate T), cinit (2 ^ k) m = Some c → lg (wd c) = [] ∧ ∀ tid, (tid < m)%nat → thr c !! tid = Some Idle) as Hi.
  { intros k c H. unfold cinit in H. destruct (make (2 ^ k)); simplify_eq/=. split; [done|]. intros tid Hlt.
    apply elem_of_list_to_map_1.
    - rewrite <- list_fmap_compose. replace (fst ∘ _) with (id : nat → nat) by done. rewrite list_fmap_id. apply NoDup_seq.
    - apply list_elem_of_fmap. exists tid. split; [done|]. apply elem_of_seq. lia. }
  split; [split; simpl|].
  - intros r c Hc. destruct (Hr r c Hc) as (k & Hk & E). exists k. split; [done|]. by apply (cinit_inv k Hk m).
  - intros r c tid Hc Hlt. rewrite length_replicate in Hlt. destruct (Hr r c Hc) as (k & Hk & E).
    exists Idle. split; [by apply (Hi k c E)|]. unfold call_on. simpl.
    destruct (replicate m None !! tid) as [o|] eqn:Eo; [|done]. by rewrite (Hn tid o Eo).
  - intros tid r op H. by apply Hn in H.
  - unfold net_items. simpl. assert (mjoin (waiting <$> rings) = []) as ->.
    { apply mjoin_all_nil, Forall_fmap. eapply Forall_impl; [exact HF|]. intros c (k & _ & E). simpl. unfold waiting.
      destruct (Hi k c E) as [-> _]. apply drop_nil. }
    apply mjoin_all_nil, Forall_fmap, Forall_true. intros tid. simpl. unfold hand. simpl.
    destruct (replicate m None !! tid) as [o|] eqn:Eo; [|done]. by rewrite (Hn tid o Eo).
Qed.

(** ** Running calls *)

Section Run.
Context {T : Type} `{!Inhabited T}.

(** The next access of a thread that is not held up by a spurious failure. *)
Definition tnext (w : world T) (t : tstate T) : option (world T * tstate T) :=
  match t with
  | PLoad objs n => Some (w, PHead objs n (prod_head (rg w)))
  | PHead objs n h =>
      let n' := Z.min n (wrap64 (capacity (rg w) + cons_tail (rg w) - h)) in
      Some (w, if n' =? 0 then PDone 0 else PCas objs n' h)
  | PCas objs n h =>
      if prod_head (rg w) =? h
      then Some (mkWorld (set_prod_head (rg w) (h +64 n)) (lg w ++ take (Z.to_nat n) objs) (grants w), PWrite objs n h 0)
      else Some (w, PLoad objs n)
  | PWrite objs n h i =>
      if i =? n then Some (w, PWait n h) else
      if i <? n then x ← objs !! Z.to_nat i; Some (mkWorld (set_slot (rg w) (h + i) x) (lg w) (grants w), PWrite objs n h (i + 1))
      else None
  | PWait n h => Some (w, if prod_tail (rg w) =? h then PStore n h else PWait n h)
  | PStore n h => Some (mkWorld (set_prod_tail (rg w) (h +64 n)) (lg w) (grants w), PDone n)
  | CLoad n => Some (w, CHead n (cons_head (rg w)))
  | CHead n h => let n' := Z.min n (prod_tail (rg w) -64 h) in Some (w, if n' =? 0 then CDone 0 [] else CCas n' h)
  | CCas n h =>
      if cons_head (rg w) =? h
      then Some (mkWorld (set_cons_head (rg w) (h +64 n)) (lg w) (grants w ++ [(h, n)]), CRead n h [])
      else Some (w, CLoad n)
  | CRead n h acc =>
      if Z.of_nat (length acc) =? n then Some (w, CWait n h acc) else
      if Z.of_nat (length acc) <? n then
        x ← ring (rg w) !! Z.to_nat (Z.land (h +64 Z.of_nat (length acc)) (mask (rg w))); Some (w, CRead n h (acc ++ [x]))
      else None
  | CWait n h acc => Some (w, if cons_tail (rg w) =? h then CStore n h acc else CWait n h acc)
  | CStore n h acc => Some (mkWorld (set_cons_tail (rg w) (h +64 n)) (lg w) (grants w), CDone h acc)
  | Idle | PDone _ | CDone _ _ => None
  end.

Lemma tnext_step w t w' t' : tnext w t = Some (w', t') → tstep w t w' t'.
Proof.
  destruct t as [|objs n|objs n h|objs n h|objs n h i|n h|n h|n|n|n h|n h|n h acc|n h acc|n h acc|h acc]; simpl; intros H; try done.
  - injection H as <- <-. apply p_load_head.
  - injection H as <- <-. by apply p_load_tail.
  - destruct (Z.eqb_spec (prod_head (rg w)) h); injection H as <- <-; [by apply p_cas_ok|apply p_cas_fail].
  - destruct (Z.eqb_spec i n) as [->|]; [injection H as <- <-; apply p_written|]. destruct (Z.ltb_spec i n); [|done].
    destruct (objs !! Z.to_nat i) eqn:E; [|done]. injection H as <- <-. by apply p_write.
  - destruct (Z.eqb_spec (prod_tail (rg w)) h); injection H as <- <-; [by apply p_wait_done|by apply p_wait_more].
  - injection H as <- <-. apply p_store.
  - injection H as <- <-. apply c_load_head.
  - injection H as <- <-. by apply c_load_tail.
  - destruct (Z.eqb_spec (cons_head (rg w)) h); injection H as <- <-; [by apply c_cas_ok|apply c_cas_fail].
  - destruct (Z.eqb_spec (Z.of_nat (length acc)) n); [injection H as <- <-; by apply c_read_all|].
    destruct (Z.ltb_spec (Z.of_nat (length acc)) n); [|done].
    destruct (ring (rg w) !! _) eqn:E; [|done]. injection H as <- <-. by apply c_read.
  - destruct (Z.eqb_spec (cons_tail (rg w)) h); injection H as <- <-; [by apply c_wait_done|by apply c_wait_more].
  - injection H as <- <-. apply c_store.
Qed.

(** One access of thread [tid] inside its call, for the calls that reserve. *)
Definition net_next (N : Net T) (tid : nat) : option (Net T) :=
  o ← n_calls N !! tid; p ← o; c ← n_rings N !! p.1; t ← thr c !! tid;
  r ← (if p.2 is OTake TryDequeue then None else tnext (wd c) t);
  if Z.of_nat (length (lg r.1)) <? W64
  then Some (set_call N p.1 tid (mkC r.1 (<[tid := r.2]> (thr c))) (Some p)) else None.

Lemma net_next_step N tid N' : net_next N tid = Some N' → net_step tid N N'.
Proof.
  unfold net_next. destruct (n_calls N !! tid) as [[[r op]|]|] eqn:Ec; [|done..]. simpl.
  destruct (n_rings N !! r) as [c|] eqn:Er; [|done]. simpl. destruct (thr c !! tid) as [t|] eqn:Et; [|done]. simpl. intros H.
  destruct (tnext (wd c) t) as [[w' t']|] eqn:En; [|by destruct op as [[]|]].
  assert (op ≠ OTake TryDequeue) as Hop by (by intros ->).
  assert (H' : (if Z.of_nat (length (lg w')) <? W64
    then Some (set_call N r tid (mkC w' (<[tid:=t']> (thr c))) (Some (r, op))) else None) = Some N') by (by destruct op as [[]|]).
  destruct (Z.ltb_spec (Z.of_nat (length (lg w'))) W64); [|done]. injection H' as <-.
  apply (net_access tid N r op c t w' t'); try done; [by destruct t|]. apply tnext_step in En. by destruct op as [[]|].
Qed.
End Run.

(** ** Why the owner must reserve too *)

Section Owner.
(** A ring of one slot with the element 7 in it, and two threads. *)
#[local] Definition lone (ch ct : Z) (g : list (Z * Z)) (t0 t1 : tstate Z) (o0 o1 : option (nat * Op Z)) : Net Z :=
  mkNet [mkC (mkWorld (mkRing 1 1 ch ct 1 0 [7]) [7] g) (<[0%nat := t0]> (<[1%nat := t1]> ∅))] [o0; o1].

#[local] Definition run (N N' : Net Z) : Prop := ∃ tid, net_step tid N N'.

(** Thread 0, the owner, uses [try_dequeue] while thread 1 uses
    [try_dequeue_mc]: both get the one element.  This is what the comment in
    [worker_loop] warns of. *)
Theorem owner_try_dequeue_double_consumes :
  ∃ N0 N1 N2 N N' N'' : Net Z, net_items N0 = [7]
    ∧ start_call N0 0 0 (OTake TryDequeue) = Some N1 ∧ start_call N1 1 0 (OTake TryDequeueMc) = Some N2
    ∧ steps run N2 N
    ∧ finish_call N 0 = Some (OTake TryDequeue, CDone 0 [7], N') ∧ finish_call N' 1 = Some (OTake TryDequeueMc, CDone 0 [7], N'').
Proof.
  set (a := Some (0%nat, OTake (T:=Z) TryDequeue)). set (b := Some (0%nat, OTake (T:=Z) TryDequeueMc)).
  assert (∀ ch ct g ch' ct' g' t t' u, resting t = false →
    sc_step (mkWorld (mkRing 1 1 ch ct 1 0 [7]) [7] g) t (mkWorld (mkRing 1 1 ch' ct' 1 0 [7]) [7] g') t' →
    run (lone ch ct g t u a b) (lone ch' ct' g' t' u a b)) as owner.
  { intros ch ct g ch' ct' g' t t' u Hr Hs. exists 0%nat.
    exact (net_access 0 (lone ch ct g t u a b) 0 (OTake TryDequeue) _ t _ t' eq_refl eq_refl eq_refl Hr Hs eq_refl). }
  assert (∀ ch ct g ch' ct' g' t u u', resting u = false →
    tstep (mkWorld (mkRing 1 1 ch ct 1 0 [7]) [7] g) u (mkWorld (mkRing 1 1 ch' ct' 1 0 [7]) [7] g') u' →
    run (lone ch ct g t u a b) (lone ch' ct' g' t u' a b)) as thief.
  { intros ch ct g ch' ct' g' t u u' Hr Hs. exists 1%nat.
    exact (net_access 1 (lone ch ct g t u a b) 0 (OTake TryDequeueMc) _ u _ u' eq_refl eq_refl eq_refl Hr Hs eq_refl). }
  exists (lone 0 0 [] Idle Idle None None), (lone 0 0 [] (CLoad 1) Idle a None), (lone 0 0 [] (CLoad 1) (CLoad 1) a b).
  exists (lone 1 1 [(0, 1); (0, 1)] (CDone 0 [7]) (CDone 0 [7]) a b),
    (lone 1 1 [(0, 1); (0, 1)] (CDone 0 [7]) (CDone 0 [7]) None b),
    (lone 1 1 [(0, 1); (0, 1)] (CDone 0 [7]) (CDone 0 [7]) None None).
  split_and!; try reflexivity.
  eapply steps_trans; [apply steps_once, owner; [done|by apply s_load_head]|].
  eapply steps_trans; [apply steps_once, (owner 0 0 [] 0 0 [] (CHead 1 0) (CRead 1 0 [])); [done|exact (s_load_tail (mkWorld (mkRing 1 1 0 0 1 0 [7]) [7] []) 1 0 1 eq_refl)]|].
  eapply steps_trans; [apply steps_once, owner; [done|by apply (s_read _ 1 0 [] 7)]|].
  eapply steps_trans; [apply steps_once, thief; [done|by apply c_load_head]|].
  eapply steps_trans; [apply steps_once, (thief 0 0 [] 0 0 [] _ (CHead 1 0) (CCas 1 0)); [done|exact (c_load_tail (mkWorld (mkRing 1 1 0 0 1 0 [7]) [7] []) 1 0 1 eq_refl)]|].
  eapply steps_trans; [apply steps_once, (thief 0 0 [] 1 0 [(0, 1)] _ (CCas 1 0) (CRead 1 0 [])); [done|exact (c_cas_ok (mkWorld (mkRing 1 1 0 0 1 0 [7]) [7] []) 1 0 eq_refl)]|].
  eapply steps_trans; [apply steps_once, thief; [done|by apply (c_read _ 1 0 [] 7)]|].
  eapply steps_trans; [apply steps_once, thief; [done|by apply (c_read_all _ 1 0 [7])]|].
  eapply steps_trans; [apply steps_once, thief; [done|by apply (c_wait_done _ 1 0 [7])]|].
  eapply steps_trans; [apply steps_once, (thief 1 0 [(0, 1)] 1 1 [(0, 1)] _ (CStore 1 0 [7]) (CDone 0 [7])); [done|exact (c_store (mkWorld (mkRing 1 1 1 0 1 0 [7]) [7] [(0, 1)]) 1 0 [7])]|].
  eapply steps_trans; [apply steps_once, owner; [done|by apply (s_read_all _ 1 0 [7])]|].
  eapply steps_trans; [apply steps_once, (owner 1 1 [(0, 1)] 1 1 [(0, 1); (0, 1)] (CWait 1 0 [7]) (CStore 1 0 [7])); [done|exact (s_store_head (mkWorld (mkRing 1 1 1 1 1 0 [7]) [7] [(0, 1)]) 1 0 [7])]|].
  apply steps_once, (owner 1 1 [(0, 1); (0, 1)] 1 1 [(0, 1); (0, 1)] (CStore 1 0 [7]) (CDone 0 [7]));
    [done|exact (s_store_tail (mkWorld (mkRing 1 1 1 1 1 0 [7]) [7] [(0, 1); (0, 1)]) 1 0 [7])].
Qed.
End Owner.
