(* ===== verification/Executor.v ===== *)
(** [WorkStealingExecutor] ([work_stealing_executor.h/.cc]) and
    [OfflineWorkerGroup] ([offline_group.h/.cc]): configuration and construction,
    as a function of the configuration and of what hwloc reports.  The running
    executor is in [ExecutorRun]. *)
From S2P Require Import Prelude Types Registry.

(** ** Construction *)

Record WsConfig := mkWsCfg {
  ws_num_workers : Z;
  ws_pin_cpus : bool;
  ws_use_ht_siblings : bool;
  ws_numa_aware : bool;
  ws_steal_attempts : Z
}.

Definition default_ws_cfg : WsConfig := mkWsCfg 0 true false true 4.

(** What hwloc reports of one NUMA node: [None] when there is no such object,
    else its PUs, each with whether it is the first of its core. *)
Definition Node : Type := option (list (Z * bool)).

(** [numa_count] is at least 1; without nodes, object 0 is null. *)
Definition ws_nodes (topo : list Node) : list Node := match topo with [] => [None] | _ => topo end.

Definition node_phys (n : Node) : Z :=
  match n with
  | None => 1
  | Some pus => let c := Z.of_nat (length (filter (λ p, snd p = true) pus)) in if c =? 0 then 1 else c
  end.

Definition node_pus (cfg : WsConfig) (n : Node) : list Z :=
  match n with
  | None => []
  | Some pus => fst <$> filter (λ p, ws_use_ht_siblings cfg = true ∨ snd p = true) pus
  end.

(** The proportional split; the last node takes what is left. *)
Fixpoint proportional (total total_phys allocated : Z) (phys : list Z) : list Z :=
  match phys with
  | [] => []
  | [_] => [total -64 allocated]
  | p :: rest =>
      let share := wrap64 (total * p) / total_phys in
      share :: proportional total total_phys (allocated +64 share) rest
  end.

Definition sum_Z (l : list Z) : Z := foldr Z.add 0 l.

Definition even (total : Z) (nodes : nat) : list Z :=
  (λ n, total / Z.of_nat nodes + (if Z.of_nat n <? total mod Z.of_nat nodes then 1 else 0)) <$> seq 0 nodes.

Definition ws_per_numa (cfg : WsConfig) (nodes : list Node) : list Z :=
  let phys := node_phys <$> nodes in
  if ws_num_workers cfg =? 0 then phys
  else if negb (ws_numa_aware cfg) then even (ws_num_workers cfg) (length nodes)
  else proportional (ws_num_workers cfg) (sum_Z phys) 0 phys.

(** [total_workers]: the sum is taken in the automatic mode only, where it is
    at least 1. *)
Definition ws_total (cfg : WsConfig) (nodes : list Node) : Z :=
  if ws_num_workers cfg =? 0 then sum_Z (node_phys <$> nodes) else ws_num_workers cfg.

Record WorkerPlan := mkPlan { wp_id : nat; wp_numa : nat; wp_cpu : Z }.

Definition pick_cpu (cfg : WsConfig) (pus : list Z) (w : nat) : Z :=
  match pus with
  | [] => -1
  | _ => if ws_pin_cpus cfg then pus !!! (w mod length pus)%nat else -1
  end.

(** The worker at position [w] of node [n]. *)
Fixpoint node_plans (cfg : WsConfig) (n : nat) (pus : list Z) (w count gid total : nat) : list WorkerPlan :=
  match count with
  | O => []
  | S count' =>
      if decide (gid < total)%nat
      then mkPlan gid n (pick_cpu cfg pus w) :: node_plans cfg n pus (S w) count' (S gid) total
      else []
  end.

Fixpoint all_plans (cfg : WsConfig) (n gid total : nat) (nodes : list Node) (counts : list Z) : list WorkerPlan :=
  match nodes, counts with
  | node :: nodes', c :: counts' =>
      let here := node_plans cfg n (node_pus cfg node) 0 (Z.to_nat c) gid total in
      here ++ all_plans cfg (S n) (gid + length here) total nodes' counts'
  | _, _ => []
  end.

Definition ws_plans (cfg : WsConfig) (topo : list Node) : list WorkerPlan :=
  let nodes := ws_nodes topo in
  all_plans cfg 0 0 (Z.to_nat (ws_total cfg nodes)) nodes (ws_per_numa cfg nodes).

(** [numa_peers_[i]]. *)
Definition ws_peers (cfg : WsConfig) (plans : list WorkerPlan) (i : nat) : list nat :=
  filter (λ j, j ≠ i ∧ (ws_numa_aware cfg = false ∨ (wp_numa <$> plans !! j) = (wp_numa <$> plans !! i)))
    (seq 0 (length plans)).

(** Registration of the workers, in order. *)
Definition ws_register (exec : Z) (plans : list WorkerPlan) (reg : Registry) : option Registry :=
  foldl (λ r p, r' ← r; fst <$> register_offline_worker r' exec (Z.of_nat (wp_id p)) (Z.of_nat (wp_numa p)))
    (Some reg) plans.

(** ** Layout *)

Lemma sum_Z_app l k : sum_Z (l ++ k) = sum_Z l + sum_Z k.
Proof. unfold sum_Z. induction l; simpl in *; lia. Qed.

Lemma sum_Z_nonneg l : Forall (λ c, 0 ≤ c) l → 0 ≤ sum_Z l.
Proof. induction 1; unfold sum_Z in *; simpl; lia. Qed.

Lemma node_phys_pos n : 1 ≤ node_phys n.
Proof. destruct n as [pus|]; simpl; [|lia]. zcases; lia. Qed.

Lemma proportional_spec total T phys allocated done_ :
  0 ≤ total → total * T < W64 → 0 < T → Forall (λ p, 1 ≤ p) phys → phys ≠ [] →
  0 ≤ done_ → done_ + sum_Z phys = T → 0 ≤ allocated → allocated * T ≤ total * done_ →
  sum_Z (proportional total T allocated phys) = total - allocated
  ∧ Forall (λ c, 0 ≤ c) (proportional total T allocated phys)
  ∧ length (proportional total T allocated phys) = length phys.
Proof.
  intros Ht Hw HT. revert allocated done_. induction phys as [|p phys IH]; intros allocated done_ HF Hne Hd Hs Ha Hat; [done|].
  apply Forall_cons in HF as [Hp HF]. assert (Hr : 0 ≤ sum_Z phys).
  { apply sum_Z_nonneg. eapply Forall_impl; [exact HF|]. simpl. lia. }
  unfold sum_Z in Hs. simpl in Hs. fold (sum_Z phys) in Hs.
  assert (Hle : allocated ≤ total) by nia.
  destruct phys as [|p2 phys].
  - simpl. unfold sum_Z. simpl. rewrite wrap64_small by (unfold W64 in *; nia). split_and!; [lia| |done].
    repeat constructor. lia.
  - change (proportional total T allocated (p :: p2 :: phys)) with
      (wrap64 (total * p) / T :: proportional total T (allocated +64 (wrap64 (total * p) / T)) (p2 :: phys)).
    rewrite (wrap64_small (total * p)) by (unfold W64 in *; nia).
    set (share := total * p / T) in *.
    assert (Hsh : share * T ≤ total * p) by (rewrite (Z.mul_comm share); by apply Z.mul_div_le).
    assert (H0 : 0 ≤ share) by (apply Z.div_pos; nia).
    rewrite (wrap64_small (allocated + share)) by (unfold W64 in *; nia).
    destruct (IH (allocated + share) (done_ + p)) as (H1 & H2 & H3); [done|done|lia|lia|lia|nia|].
    change (sum_Z (share :: proportional total T (allocated + share) (p2 :: phys)))
      with (share + sum_Z (proportional total T (allocated + share) (p2 :: phys))).
    split_and!; [lia|by constructor|]. change (length (share :: proportional total T (allocated + share) (p2 :: phys)))
      with (S (length (proportional total T (allocated + share) (p2 :: phys)))). rewrite H3. done.
Qed.

Lemma sum_even total (m k n : nat) :
  (0 < m)%nat → 0 ≤ total →
  sum_Z ((λ j, total / Z.of_nat m + (if Z.of_nat j <? total mod Z.of_nat m then 1 else 0)) <$> seq k n)
  = Z.of_nat n * (total / Z.of_nat m)
    + Z.max 0 (Z.min (total mod Z.of_nat m) (Z.of_nat (k + n)) - Z.min (total mod Z.of_nat m) (Z.of_nat k)).
Proof.
  intros Hm Ht. assert (Hr := Z.mod_pos_bound total (Z.of_nat m) ltac:(lia)).
  revert k. induction n as [|n IH]; intros k.
  - simpl. unfold sum_Z. simpl. lia.
  - change (seq k (S n)) with (k :: seq (S k) n). rewrite fmap_cons. unfold sum_Z in *. simpl foldr.
    rewrite IH. zcases; lia.
Qed.

Lemma ws_nodes_nonempty topo : ws_nodes topo ≠ [].
Proof. by destruct topo. Qed.

Lemma ws_per_numa_spec cfg nodes :
  nodes ≠ [] → 0 ≤ ws_num_workers cfg → ws_num_workers cfg * sum_Z (node_phys <$> nodes) < W64 →
  sum_Z (ws_per_numa cfg nodes) = ws_total cfg nodes ∧ Forall (λ c, 0 ≤ c) (ws_per_numa cfg nodes)
  ∧ length (ws_per_numa cfg nodes) = length nodes.
Proof.
  intros Hne H0 Hw. unfold ws_per_numa, ws_total.
  assert (HF : Forall (λ p, 1 ≤ p) (node_phys <$> nodes))
    by (apply Forall_fmap, Forall_true; intros; apply node_phys_pos).
  destruct (Z.eqb_spec (ws_num_workers cfg) 0).
  { split_and!; [done| |by rewrite length_fmap]. eapply Forall_impl; [exact HF|]. simpl. lia. }
  destruct (ws_numa_aware cfg); simpl.
  - assert (Hpos : 0 < sum_Z (node_phys <$> nodes)).
    { destruct nodes as [|nd nodes]; [done|]. rewrite fmap_cons in *. apply Forall_cons in HF as [? HF].
      assert (0 ≤ sum_Z (node_phys <$> nodes)) by (apply sum_Z_nonneg; eapply Forall_impl; [exact HF|]; simpl; lia).
      unfold sum_Z in *. simpl. lia. }
    destruct (proportional_spec (ws_num_workers cfg) (sum_Z (node_phys <$> nodes)) (node_phys <$> nodes) 0 0)
      as (H1 & H2 & H3); [lia|done|done|done|by destruct nodes|lia|lia|lia|lia|].
    rewrite H1, H3, length_fmap. split_and!; [lia|done|done].
  - unfold even. rewrite length_fmap, length_seq.
    assert (0 < length nodes)%nat by (destruct nodes; simpl; [done|lia]).
    split_and!; [|apply Forall_fmap, Forall_true|done].
    + rewrite sum_even by lia. assert (Hr := Z.mod_pos_bound (ws_num_workers cfg) (Z.of_nat (length nodes)) ltac:(lia)).
      assert (Hd := Z.div_mod (ws_num_workers cfg) (Z.of_nat (length nodes)) ltac:(lia)). simpl. lia.
    + intros j. simpl. assert (0 ≤ ws_num_workers cfg / Z.of_nat (length nodes)) by (apply Z.div_pos; lia). zcases; lia.
Qed.

Lemma node_plans_spec cfg n pus w count gid total :
  (gid + count ≤ total)%nat →
  length (node_plans cfg n pus w count gid total) = count
  ∧ wp_id <$> node_plans cfg n pus w count gid total = seq gid count
  ∧ Forall (λ p, wp_numa p = n) (node_plans cfg n pus w count gid total).
Proof.
  revert w gid. induction count as [|c IH]; intros w gid Hle; simpl; [by split_and!|].
  rewrite decide_True by lia. destruct (IH (S w) (S gid) ltac:(lia)) as (H1 & H2 & H3).
  simpl. split_and!; [by rewrite H1|by f_equal|by constructor].
Qed.

Lemma all_plans_spec cfg nodes counts n gid total :
  length counts = length nodes → Forall (λ c, 0 ≤ c) counts → (gid + Z.to_nat (sum_Z counts) ≤ total)%nat →
  let plans := all_plans cfg n gid total nodes counts in
  length plans = Z.to_nat (sum_Z counts) ∧ wp_id <$> plans = seq gid (length plans)
  ∧ Forall (λ p, (n ≤ wp_numa p)%nat) plans
  ∧ ∀ k c, counts !! k = Some c → length (filter (λ p, wp_numa p = (n + k)%nat) plans) = Z.to_nat c.
Proof.
  revert counts n gid. induction nodes as [|node nodes IH]; intros [|c counts] n gid Hl HF Hle; simpl in *; try done.
  apply Forall_cons in HF as [Hc HF]. assert (Hs := sum_Z_nonneg _ HF).
  unfold sum_Z in Hle. simpl in Hle. fold (sum_Z counts) in Hle.
  destruct (node_plans_spec cfg n (node_pus cfg node) 0 (Z.to_nat c) gid total) as (H1 & H2 & H3); [lia|].
  rewrite H1. set (here := node_plans _ _ _ _ _ _ _) in *.
  destruct (IH counts (S n) (gid + Z.to_nat c)%nat) as (R1 & R2 & R3 & R4); [lia|done|lia|].
  set (rest := all_plans _ _ _ _ _ _) in *. rewrite length_app.
  split_and!.
  - unfold sum_Z. simpl. fold (sum_Z counts). lia.
  - rewrite fmap_app, H2, R2, H1, R1. symmetry. apply seq_app.
  - apply Forall_app. split; [eapply Forall_impl; [exact H3|]; simpl; lia|].
    eapply Forall_impl; [exact R3|]. simpl. lia.
  - intros [|k] c' Hk; simpl in Hk; rewrite filter_app, length_app.
    + simplify_eq. rewrite list_filter_all, list_filter_none; [simpl; lia| |].
      * eapply Forall_impl; [exact R3|]. simpl. lia.
      * eapply Forall_impl; [exact H3|]. simpl. lia.
    + rewrite (list_filter_none _ here); [|eapply Forall_impl; [exact H3|]; simpl; lia].
      simpl. rewrite <- (R4 _ _ Hk). f_equal. apply list_filter_iff. intros p. lia.
Qed.

(** The peers of all workers. *)
Definition all_peers (cfg : WsConfig) (topo : list Node) : list (list nat) :=
  ws_peers cfg (ws_plans cfg topo) <$> seq 0 (length (ws_plans cfg topo)).

Lemma all_peers_lookup cfg topo i ps :
  all_peers cfg topo !! i = Some ps → ps = ws_peers cfg (ws_plans cfg topo) i.
Proof.
  unfold all_peers. rewrite list_lookup_fmap. destruct (seq _ _ !! i) as [j|] eqn:E; [|done].
  apply lookup_seq in E as [-> _]. simpl. by intros [= <-].
Qed.

Lemma ws_peers_spec cfg plans i v :
  v ∈ ws_peers cfg plans i ↔
  v ≠ i ∧ (v < length plans)%nat ∧ (ws_numa_aware cfg = true → (wp_numa <$> plans !! v) = (wp_numa <$> plans !! i)).
Proof.
  unfold ws_peers. rewrite list_elem_of_filter, elem_of_seq. destruct (ws_numa_aware cfg); intuition (auto || lia).
Qed.


(** The workers of an executor are numbered 0, 1, ... in the order of their
    NUMA nodes; node [n] gets [ws_per_numa] of them, and these add up to the
    requested number, or to one per physical core when none is requested. *)
Theorem executor_layout (cfg : WsConfig) (topo : list Node) :
  0 ≤ ws_num_workers cfg → ws_num_workers cfg * sum_Z (node_phys <$> ws_nodes topo) < W64 →
  Z.of_nat (length (ws_plans cfg topo)) = ws_total cfg (ws_nodes topo)
  ∧ wp_id <$> ws_plans cfg topo = seq 0 (length (ws_plans cfg topo))
  ∧ ∀ n c, ws_per_numa cfg (ws_nodes topo) !! n = Some c →
      length (filter (λ p, wp_numa p = n) (ws_plans cfg topo)) = Z.to_nat c.
Proof.
  intros H0 Hw. destruct (ws_per_numa_spec cfg _ (ws_nodes_nonempty topo) H0 Hw) as (Hs & HF & Hl).
  unfold ws_plans. assert (Hnn := sum_Z_nonneg _ HF).
  destruct (all_plans_spec cfg (ws_nodes topo) _ 0 0 (Z.to_nat (ws_total cfg (ws_nodes topo))) Hl HF) as (H1 & H2 & _ & H4);
    [rewrite Hs; lia|].
  rewrite H1, Hs. split_and!; [lia| |exact H4]. rewrite H2, H1, Hs. done.
Qed.

(** ** [OfflineWorkerGroup] *)

Record GroupConfig := mkGroupCfg { gc_num_workers : Z; gc_pin_cpus : bool; gc_numa_aware : bool }.

Definition group_exec_cfg (cfg : GroupConfig) : WsConfig :=
  mkWsCfg (gc_num_workers cfg) (gc_pin_cpus cfg) false (gc_numa_aware cfg) 4.

(** ** Samples *)

Definition sample_cfg : WsConfig := mkWsCfg 3 true false true 4.
Definition sample_topo : list Node := [Some [(0, true); (4, false); (1, true)]; Some [(2, true)]].

Example sample_plans :
  ws_plans sample_cfg sample_topo = [mkPlan 0 0 0; mkPlan 1 0 1; mkPlan 2 1 2].
Proof. reflexivity. Qed.

Lemma executor_layout_witness :
  Z.of_nat (length (ws_plans sample_cfg sample_topo)) = ws_total sample_cfg (ws_nodes sample_topo)
  ∧ wp_id <$> ws_plans sample_cfg sample_topo = seq 0 (length (ws_plans sample_cfg sample_topo))
  ∧ ∀ n c, ws_per_numa sample_cfg (ws_nodes sample_topo) !! n = Some c →
      length (filter (λ p, wp_numa p = n) (ws_plans sample_cfg sample_topo)) = Z.to_nat c.
Proof. apply (executor_layout sample_cfg sample_topo); vm_compute; congruence. Defined.
