(* ===== verification/ExecutorRun.v ===== *)
(** [WorkStealingExecutor] while it runs ([work_stealing_executor.cc],
    [offline_group.cc]): the worker threads, the tasks they run and outside
    threads that submit.

    The rings of the workers and the global entry ring are those of [RingNet]:
    every [enqueue] and every [try_dequeue_mc] is a call whose accesses
    interleave with those of all other threads.  Ring [i] belongs to worker [i];
    the global entry ring comes after them.  Threads are numbered alike: worker
    [i] is thread [i], outside threads come after the workers.  The yield queue
    is used by its own worker only.  Parking ([AdaptiveIdle], see [Idle]) may end
    at any time. *)
From S2P Require Import Prelude Types Rings WorkQueues RingConc RingNet Float64 Registry Executor.

(** Which dequeue [worker_loop] uses: on its own ring, on the global entry ring
    and on the ring of a victim. *)
Definition own_dequeue : Dequeue := TryDequeueMc.
Definition entry_dequeue : Dequeue := TryDequeueMc.
Definition steal_dequeue : Dequeue := TryDequeueMc.

(** Where a worker is in [worker_loop]. *)
Inductive Source := FromYield | FromLocal | FromGlobal | FromVictim (v : nat).
Inductive Pc :=
| PNew                                   (* no thread yet *)
| PStart                                 (* thread created, before the loop *)
| PTop | PLocal | PGlobal | PSteal (k : nat)
| PTake (src : Source) (k : nat)         (* inside [try_dequeue_mc], at attempt [k] of stealing *)
| PRun (item : WorkItem) (src : Source)  (* inside [item.execute()] *)
| PPush (item : WorkItem) (src : Source) (* the task is inside [enqueue] *)
| PPark
| PExit.

Record WStats := mkWStats {
  tasks_executed : Z; coro_resumes : Z; steals_success : Z; steals_failed : Z; parks : Z }.

Section Machine.
Context {Q : Type} `{!WorkQueueOps Q, !WorkQueueLaws Q}.

Record WState := mkWState {
  w_yield : Q;
  w_running : bool;
  w_peers : list nat;
  w_pc : Pc;
  w_stats : WStats
}.

(** The executor with its history: what was handed to it, what was dropped by
    a full queue, what has been executed, by whom and from where. *)
Record Exec := mkExec {
  x_workers : list WState;
  x_net : Net WorkItem;
  x_add_counter : Z;
  g_wse_tasks : Z;
  g_wse_steals : Z;
  x_submitted : list WorkItem;
  x_dropped : list WorkItem;
  x_executed : list (nat * Source * WorkItem)
}.

Definition set_pc (pc : Pc) (w : WState) : WState :=
  mkWState (w_yield w) (w_running w) (w_peers w) pc (w_stats w).
Definition set_running (b : bool) (w : WState) : WState :=
  mkWState (w_yield w) b (w_peers w) (w_pc w) (w_stats w).
Definition set_yield (q : Q) (w : WState) : WState :=
  mkWState q (w_running w) (w_peers w) (w_pc w) (w_stats w).
Definition set_stats (st : WStats) (w : WState) : WState :=
  mkWState (w_yield w) (w_running w) (w_peers w) (w_pc w) st.

Definition upd (x : Exec) (i : nat) (f : WState → WState) : Exec :=
  mkExec (alter f i (x_workers x)) (x_net x) (x_add_counter x) (g_wse_tasks x) (g_wse_steals x)
    (x_submitted x) (x_dropped x) (x_executed x).
Definition set_net (x : Exec) (N : Net WorkItem) : Exec :=
  mkExec (x_workers x) N (x_add_counter x) (g_wse_tasks x) (g_wse_steals x)
    (x_submitted x) (x_dropped x) (x_executed x).
Definition bump_counter (x : Exec) : Exec :=
  mkExec (x_workers x) (x_net x) (x_add_counter x +64 1) (g_wse_tasks x) (g_wse_steals x)
    (x_submitted x) (x_dropped x) (x_executed x).
Definition count_task (x : Exec) : Exec :=
  mkExec (x_workers x) (x_net x) (x_add_counter x) (g_wse_tasks x + 1) (g_wse_steals x)
    (x_submitted x) (x_dropped x) (x_executed x).
Definition count_steal (x : Exec) : Exec :=
  mkExec (x_workers x) (x_net x) (x_add_counter x) (g_wse_tasks x) (g_wse_steals x + 1)
    (x_submitted x) (x_dropped x) (x_executed x).
Definition record_submit (x : Exec) (item : WorkItem) : Exec :=
  mkExec (x_workers x) (x_net x) (x_add_counter x) (g_wse_tasks x) (g_wse_steals x)
    (item :: x_submitted x) (x_dropped x) (x_executed x).
Definition record_drop (x : Exec) (items : list WorkItem) : Exec :=
  mkExec (x_workers x) (x_net x) (x_add_counter x) (g_wse_tasks x) (g_wse_steals x)
    (x_submitted x) (items ++ x_dropped x) (x_executed x).
Definition record_run (x : Exec) (i : nat) (src : Source) (item : WorkItem) : Exec :=
  mkExec (x_workers x) (x_net x) (x_add_counter x) (g_wse_tasks x) (g_wse_steals x)
    (x_submitted x) (x_dropped x) ((i, src, item) :: x_executed x).

(** Statistics at the end of an execution. *)
Definition after_run (item : WorkItem) (src : Source) (s : WStats) : WStats :=
  mkWStats (if wi_tag item =? 0 then tasks_executed s +64 1 else tasks_executed s)
    (if wi_tag item =? 0 then coro_resumes s else coro_resumes s +64 1)
    (match src with FromVictim _ => steals_success s +64 1 | _ => steals_success s end)
    (steals_failed s) (parks s).
Definition after_miss (s : WStats) : WStats :=
  mkWStats (tasks_executed s) (coro_resumes s) (steals_success s) (steals_failed s +64 1) (parks s).
Definition after_park (s : WStats) : WStats :=
  mkWStats (tasks_executed s) (coro_resumes s) (steals_success s) (steals_failed s) (parks s +64 1).

(** The victim of attempt [k] of worker [id]. *)
Definition start_idx (id : nat) (peers : list nat) : Z :=
  wrap64 (Z.of_nat id * 2654435761) mod Z.of_nat (length peers).
Definition victim (id : nat) (peers : list nat) (k : nat) : nat :=
  peers !!! Z.to_nat (wrap64 (start_idx id peers + Z.of_nat k) mod Z.of_nat (length peers)).

Context (attempts : Z).

Definition workers (x : Exec) : nat := length (x_workers x).
(** The global entry ring. *)
Definition entry (x : Exec) : nat := workers x.

(** The ring a search goes to, and the dequeue used there. *)
Definition source_ring (x : Exec) (i : nat) (src : Source) : nat :=
  match src with FromVictim v => v | FromGlobal => entry x | _ => i end.
Definition source_dequeue (src : Source) : Dequeue :=
  match src with FromVictim _ => steal_dequeue | FromGlobal => entry_dequeue | _ => own_dequeue end.

(** The search worker [i] makes at this point of the loop, if any. *)
Definition search (i : nat) (w : WState) : option (Source * nat) :=
  match w_pc w with
  | PLocal => Some (FromLocal, 0%nat)
  | PGlobal => Some (FromGlobal, 0%nat)
  | PSteal k =>
      if bool_decide (w_peers w ≠ []) && (Z.of_nat k <? attempts)
      then Some (FromVictim (victim i (w_peers w) k), k) else None
  | _ => None
  end.

(** Where the loop goes on when a search found nothing. *)
Definition next_search (src : Source) (k : nat) (w : WState) : WState :=
  match src with
  | FromVictim _ => set_pc (PSteal (S k)) (set_stats (after_miss (w_stats w)) w)
  | FromGlobal => set_pc (PSteal 0) w
  | _ => set_pc PGlobal w
  end.

(** What a running task may do to the executor: [add], [yield], and
    [add_to_worker] through a route, which ignores an id out of range. *)
Inductive Effect := EAdd (item : WorkItem) | EYield (h : Z) | ERoute (worker_id h : Z).

(** The ring and item an effect enqueues to. *)
Definition effect_target (x : Exec) (i : nat) (e : Effect) : option (nat * WorkItem) :=
  match e with
  | EAdd item => Some (i, item)
  | ERoute wid h => if Z.of_nat (workers x) <=? wid then None else Some (Z.to_nat wid, make_coro h)
  | EYield _ => None
  end.

(** Whether a queue takes one more item. *)
Definition room_left (q : Q) : bool := Z.of_nat (length (q_contents q)) <? q_room q.

(** One step of worker [i]. *)
Inductive wstep (i : nat) : Exec → Exec → Prop :=
| w_enter x w :
    x_workers x !! i = Some w → w_pc w = PStart →
    wstep i x (upd x i (λ w, set_pc PTop (set_running true w)))
| w_stopped x w :
    x_workers x !! i = Some w → w_pc w = PTop → w_running w = false →
    wstep i x (upd x i (set_pc PExit))
| w_yielded x w q item :
    x_workers x !! i = Some w → w_pc w = PTop → w_running w = true → try_dequeue (w_yield w) = (q, Some item) →
    wstep i x (count_task (upd x i (λ w, set_pc (PRun item FromYield) (set_yield q w))))
| w_no_yield x w q :
    x_workers x !! i = Some w → w_pc w = PTop → w_running w = true → try_dequeue (w_yield w) = (q, None) →
    wstep i x (upd x i (λ w, set_pc PLocal (set_yield q w)))
| w_search x w src k N' :
    x_workers x !! i = Some w → search i w = Some (src, k) →
    start_call (x_net x) i (source_ring x i src) (OTake (source_dequeue src)) = Some N' →
    wstep i x (upd (set_net x N') i (set_pc (PTake src k)))
| w_found x w src k d t item N' :
    x_workers x !! i = Some w → w_pc w = PTake src k →
    finish_call (x_net x) i = Some (OTake d, t, N') → taken t = Some item →
    wstep i x (count_task (upd (set_net x N') i (set_pc (PRun item src))))
| w_missed x w src k d t N' :
    x_workers x !! i = Some w → w_pc w = PTake src k →
    finish_call (x_net x) i = Some (OTake d, t, N') → taken t = None →
    wstep i x (upd (set_net x N') i (next_search src k))
| w_give_up x w k :
    x_workers x !! i = Some w → w_pc w = PSteal k → search i w = None →
    wstep i x (upd x i (λ w, set_pc PPark (set_stats (after_park (w_stats w)) w)))
| w_unpark x w :
    x_workers x !! i = Some w → w_pc w = PPark → wstep i x (upd x i (set_pc PTop))
| w_push x w item src e r new N' :
    x_workers x !! i = Some w → w_pc w = PRun item src → effect_target x i e = Some (r, new) →
    start_call (x_net x) i r (OPush new) = Some N' →
    wstep i x (record_submit (upd (set_net x N') i (set_pc (PPush item src))) new)
| w_pushed x w item src new t N' :
    x_workers x !! i = Some w → w_pc w = PPush item src →
    finish_call (x_net x) i = Some (OPush new, t, N') →
    wstep i x (record_drop (upd (set_net x N') i (set_pc (PRun item src))) (if refused t then [new] else []))
| w_yield_to x w item src h q :
    x_workers x !! i = Some w → w_pc w = PRun item src → enqueue (w_yield w) (make_coro h) = Some q →
    wstep i x (record_drop (record_submit (upd x i (set_yield q)) (make_coro h))
                 (if room_left (w_yield w) then [] else [make_coro h]))
| w_done x w item src :
    x_workers x !! i = Some w → w_pc w = PRun item src →
    wstep i x
      (let x1 := record_run (upd x i (λ w, set_pc PTop (set_stats (after_run item src (w_stats w)) w))) i src item in
       match src with FromVictim _ => count_steal x1 | _ => x1 end).

(** The steps of all threads: [start] and [stop] for one worker each; an outside
    thread calls [add], [add_to_worker] or [submit_to_worker] of the group; any
    thread makes the next access of the call it is in. *)
Inductive xstep : Exec → Exec → Prop :=
| x_worker i x x' : wstep i x x' → xstep x x'
| x_access tid x N' : net_step tid (x_net x) N' → xstep x (set_net x N')
| x_start i x w : x_workers x !! i = Some w → w_pc w = PNew →
    xstep x (upd x i (λ w, set_pc PStart (set_running true w)))
| x_stop i x : xstep x (upd x i (set_running false))
| x_add tid x r item N' : (workers x ≤ tid)%nat → (r ≤ entry x)%nat →
    start_call (x_net x) tid r (OPush item) = Some N' → xstep x (record_submit (set_net x N') item)
| x_added tid x item t N' : (workers x ≤ tid)%nat → n_calls (x_net x) !! tid = Some (Some (entry x, OPush item)) →
    finish_call (x_net x) tid = Some (OPush item, t, N') →
    xstep x (bump_counter (record_drop (set_net x N') (if refused t then [item] else [])))
| x_routed tid x r item t N' : (workers x ≤ tid)%nat → n_calls (x_net x) !! tid = Some (Some (r, OPush item)) → r ≠ entry x →
    finish_call (x_net x) tid = Some (OPush item, t, N') →
    xstep x (record_drop (set_net x N') (if refused t then [item] else [])).

(** The worker [add] notifies. *)
Definition add_notifies (x : Exec) : Z := x_add_counter x mod Z.of_nat (workers x).
End Machine.

Arguments WState Q : clear implicits.
Arguments Exec Q : clear implicits.

(** ** Conservation of tasks *)

Section Conservation.
Context {Q : Type} `{!WorkQueueOps Q, !WorkQueueLaws Q} (attempts : Z).

Definition pc_items (pc : Pc) : list WorkItem := match pc with PRun item _ | PPush item _ => [item] | _ => [] end.
Definition pc_source (pc : Pc) : option Source :=
  match pc with PTake src _ | PRun _ src | PPush _ src => Some src | _ => None end.
Definition held_by (w : WState Q) : list WorkItem := q_contents (w_yield w) ++ pc_items (w_pc w).
(** Everything queued, on its way into or out of a ring, or being executed. *)
Definition held (x : Exec Q) : list WorkItem := mjoin (held_by <$> x_workers x) ++ net_items (x_net x).
Definition executed_items (x : Exec Q) : list WorkItem := snd <$> x_executed x.

Definition queue_ok (q : Q) : Prop := q_wf q ∧ q_checked q = true.

Definition from_peer (peers : list (list nat)) (i : nat) (src : Source) : Prop :=
  match src with FromVictim v => ∃ ps, peers !! i = Some ps ∧ v ∈ ps | _ => True end.

Record exec_inv (peers : list (list nat)) (x : Exec Q) : Prop := {
  xi_yield : Forall (λ w, queue_ok (w_yield w)) (x_workers x);
  xi_net : net_inv (x_net x);
  xi_balance z : occ z (x_submitted x) = (occ z (executed_items x) + occ z (held x) + occ z (x_dropped x))%nat;
  xi_peers : w_peers <$> x_workers x = peers;
  xi_stolen i src item : (i, src, item) ∈ x_executed x → from_peer peers i src;
  xi_source i w src : x_workers x !! i = Some w → pc_source (w_pc w) = Some src → from_peer peers i src
}.

(** The tasks of one worker and of the rest. *)
Lemma held_alter (x : Exec Q) i w f z :
  x_workers x !! i = Some w →
  (occ z (mjoin (held_by <$> alter f i (x_workers x))) + occ z (held_by w)
   = occ z (mjoin (held_by <$> x_workers x)) + occ z (held_by (f w)))%nat.
Proof.
  intros Hi. rewrite !occ_mjoin, <- (sum_insert (λ w, occ z (held_by w)) _ i w (f w) Hi).
  do 2 f_equal. apply list_eq. intros j. destruct (decide (j = i)) as [->|].
  - rewrite list_lookup_alter_eq, Hi, list_lookup_insert_eq by (by eapply lookup_lt_Some). done.
  - by rewrite list_lookup_alter_ne, list_lookup_insert_ne.
Qed.

(** A step that changes worker [i] by [f], the rings and the history. *)
Lemma inv_step peers (x x' : Exec Q) i w f :
  exec_inv peers x → x_workers x !! i = Some w → x_workers x' = alter f i (x_workers x) →
  net_inv (x_net x') → queue_ok (w_yield (f w)) → w_peers (f w) = w_peers w →
  (∀ src, pc_source (w_pc (f w)) = Some src → from_peer peers i src) →
  (∀ e, e ∈ x_executed x' → e ∈ x_executed x ∨ from_peer peers e.1.1 e.1.2) →
  (∀ z, occ z (x_submitted x') + (occ z (executed_items x) + occ z (held_by w) + occ z (net_items (x_net x)) + occ z (x_dropped x))
        = occ z (x_submitted x) + (occ z (executed_items x') + occ z (held_by (f w)) + occ z (net_items (x_net x'))
           + occ z (x_dropped x')))%nat →
  exec_inv peers x'.
Proof.
  intros [HW HN HB HP HS HR] Hi Hw HN' Hok Hpe Hpc Hex Hbal. split.
  - rewrite Hw. by apply Forall_alter; [done|intros w' Hw'; simplify_eq].
  - done.
  - intros z. specialize (HB z). specialize (Hbal z). pose proof (held_alter x i w f z Hi).
    unfold held in *. rewrite Hw, !occ_app in *. lia.
  - rewrite Hw, <- HP. apply list_eq. intros j. rewrite !list_lookup_fmap.
    destruct (decide (j = i)) as [->|Hne]; [rewrite list_lookup_alter_eq, Hi; simpl; by rewrite Hpe|].
    by rewrite list_lookup_alter_ne.
  - intros j src item He. destruct (Hex _ He) as [?|?]; [by eapply HS|done].
  - intros j w' src. rewrite Hw. destruct (decide (j = i)) as [->|Hne].
    + rewrite list_lookup_alter_eq, Hi. simpl. intros [= <-]. by apply Hpc.
    + rewrite list_lookup_alter_ne by done. by apply HR.
Qed.

(** A step of an outside thread, or an access inside a call. *)
Lemma inv_net peers (x x' : Exec Q) :
  exec_inv peers x → x_workers x' = x_workers x → x_executed x' = x_executed x → net_inv (x_net x') →
  (∀ z, occ z (x_submitted x') + (occ z (net_items (x_net x)) + occ z (x_dropped x))
        = occ z (x_submitted x) + (occ z (net_items (x_net x')) + occ z (x_dropped x')))%nat →
  exec_inv peers x'.
Proof.
  intros [HW HN HB HP HS HR] Ew Ee HN' Hbal. split; rewrite ?Ew, ?Ee; try done.
  - intros z. specialize (HB z). specialize (Hbal z). unfold held, executed_items in *.
    rewrite Ew, Ee, !occ_app in *. lia.
Qed.

Lemma dequeue_split (q q' : Q) o :
  queue_ok q → try_dequeue q = (q', o) →
  queue_ok q' ∧ ∀ z, occ z (q_contents q) = (occ z (option_list o) + occ z (q_contents q'))%nat.
Proof.
  intros [Hwf Hc] E. destruct (dequeue_law q Hwf _ _ E) as (Hwf' & Hm & -> & Hq).
  split.
  - split; [done|]. unfold q_meta in Hm. congruence.
  - intros z. rewrite Hq. destruct (q_contents q); simpl; [done|apply occ_cons].
Qed.

Lemma enqueue_split (q q' : Q) item :
  queue_ok q → enqueue q item = Some q' →
  queue_ok q' ∧ ∀ z, (occ z (q_contents q') + occ z (if room_left q then [] else [item])
                      = occ z (q_contents q) + occ z [item])%nat.
Proof.
  intros [Hwf Hc] E. destruct (enqueue_law q item Hwf) as (q2 & E2 & Hwf2 & Hm & Hq); [by left|].
  rewrite E in E2. injection E2 as <-. split.
  - split; [done|]. unfold q_meta in Hm. congruence.
  - intros z. rewrite Hq. unfold fifo_enqueue, room_left. destruct (_ <? _); rewrite ?occ_app, ?occ_nil; lia.
Qed.

(** Close the premises of [inv_step] that a step leaves alone, and the balance
    by counting. *)
Ltac keep Hinv :=
  simpl; first
    [ done
    | exact (xi_net _ _ Hinv)
    | by auto
    | intros ? ?; eapply (xi_source _ _ Hinv); by eauto
    | idtac ].
Ltac balance :=
  unfold held_by, executed_items; simpl;
  repeat match goal with H : w_pc _ = _ |- _ => rewrite H end; simpl;
  let z := fresh "z" in intros z;
  repeat match goal with H : ∀ z, occ z _ = _ |- _ => specialize (H z) | H : ∀ z, (_ + _)%nat = _ |- _ => specialize (H z) end; simpl in *;
  rewrite ?occ_app, ?occ_nil in *; simpl in *; lia.

Lemma source_mc src : mc_only (OTake (T:=WorkItem) (source_dequeue src)).
Proof. unfold mc_only. by destruct src. Qed.

Lemma push_mc (item : WorkItem) : mc_only (OPush item).
Proof. done. Qed.

Lemma victim_in_peers id ps k : ps ≠ [] → victim id ps k ∈ ps.
Proof.
  intros Hne. unfold victim. apply list_elem_of_lookup_total_2.
  assert (0 < Z.of_nat (length ps)) by (destruct ps; simpl in *; [done|lia]).
  assert (H2 := Z.mod_pos_bound (wrap64 (start_idx id ps + Z.of_nat k)) (Z.of_nat (length ps))). lia.
Qed.

Lemma search_from_peer peers x i w src k :
  exec_inv peers x → x_workers x !! i = Some w → search attempts i w = Some (src, k) → from_peer peers i src ∧ pc_items (w_pc w) = [].
Proof.
  intros Hinv Hi. unfold search. destruct (w_pc w); try done; try (by intros [= <- <-]).
  case_bool_decide as Hne; simpl; [|done]. destruct (_ <? _); [|done]. intros [= <- <-]. split; [|done].
  exists (w_peers w). split; [|by apply victim_in_peers]. by rewrite <- (xi_peers _ _ Hinv), list_lookup_fmap, Hi.
Qed.

Lemma inv_wstep peers i x x' : exec_inv peers x → wstep attempts i x x' → exec_inv peers x'.
Proof.
  intros Hinv Hstep. destruct Hstep as
    [x w Hi Hpc|x w Hi Hpc _|x w q item Hi Hpc _ E|x w q Hi Hpc _ E|x w src k N' Hi Hse E|x w src k d t item N' Hi Hpc E Et
    |x w src k d t N' Hi Hpc E Et|x w k Hi Hpc _|x w Hi Hpc|x w item src e r new N' Hi Hpc He E|x w item src new t N' Hi Hpc E
    |x w item src h q Hi Hpc E|x w item src Hi Hpc];
    pose proof (Forall_lookup_1 _ _ _ _ (xi_yield _ _ Hinv) Hi) as Hy; simpl in Hy.
  - eapply (inv_step _ _ _ i w); keep Hinv. balance.
  - eapply (inv_step _ _ _ i w); keep Hinv. balance.
  - destruct (dequeue_split _ _ _ Hy E) as [Hq HO]. eapply (inv_step _ _ _ i w); keep Hinv; [by intros ? [= <-]|balance].
  - destruct (dequeue_split _ _ _ Hy E) as [Hq HO]. eapply (inv_step _ _ _ i w); keep Hinv. balance.
  - destruct (search_from_peer _ _ _ _ _ _ Hinv Hi Hse) as [Hfp Hpi].
    destruct (start_call_ok _ _ _ _ _ (xi_net _ _ Hinv) (source_mc src) E) as (HN & _ & _ & HO).
    eapply (inv_step _ _ _ i w); keep Hinv; [by intros ? [= <-]|]. unfold held_by. rewrite Hpi. balance.
  - destruct (finish_call_ok _ _ _ _ _ (xi_net _ _ Hinv) E) as (HN & _ & _ & _ & HO). rewrite Et in HO.
    eapply (inv_step _ _ _ i w); keep Hinv; [intros ? [= <-]; by eapply (xi_source _ _ Hinv); [done|rewrite Hpc]|]. balance.
  - destruct (finish_call_ok _ _ _ _ _ (xi_net _ _ Hinv) E) as (HN & _ & _ & _ & HO). rewrite Et in HO.
    eapply (inv_step _ _ _ i w); keep Hinv; try (by destruct src). destruct src; balance.
  - eapply (inv_step _ _ _ i w); keep Hinv. balance.
  - eapply (inv_step _ _ _ i w); keep Hinv. balance.
  - destruct (start_call_ok _ _ _ _ _ (xi_net _ _ Hinv) (push_mc new) E) as (HN & _ & _ & HO).
    assert (HS := λ z, occ_cons z new (x_submitted x)).
    eapply (inv_step _ _ _ i w); keep Hinv; [intros ? [= <-]; by eapply (xi_source _ _ Hinv); [done|rewrite Hpc]|]. balance.
  - destruct (finish_call_ok _ _ _ _ _ (xi_net _ _ Hinv) E) as (HN & _ & _ & _ & HO).
    eapply (inv_step _ _ _ i w); keep Hinv; [intros ? [= <-]; by eapply (xi_source _ _ Hinv); [done|rewrite Hpc]|]. balance.
  - destruct (enqueue_split _ _ _ Hy E) as [Hq HO]. assert (HS := λ z, occ_cons z (make_coro h) (x_submitted x)).
    eapply (inv_step _ _ _ i w); keep Hinv. balance.
  - assert (HS := λ z, occ_cons z item (executed_items x)).
    assert (exec_inv peers (record_run (upd x i (λ w, set_pc PTop (set_stats (after_run item src (w_stats w)) w))) i src item)) as H1.
    { eapply (inv_step _ _ _ i w); keep Hinv.
      - intros e [->|]%elem_of_cons; [|by left]. right. simpl. by eapply (xi_source _ _ Hinv); [done|rewrite Hpc].
      - change (executed_items _) with (item :: executed_items x) at 2. intros z. rewrite HS. unfold held_by. simpl.
        rewrite Hpc. simpl. rewrite !occ_app, ?occ_nil. lia. }
    destruct src; try done. by destruct H1; split.
Qed.

Lemma inv_xstep peers x x' : exec_inv peers x → xstep attempts x x' → exec_inv peers x'.
Proof.
  intros Hinv Hstep. destruct Hstep as
    [i x x' H|tid x N' H|i x w Hi Hpc|i x|tid x r item N' _ _ E|tid x item t N' _ _ E|tid x r item t N' _ _ _ E].
  - by eapply inv_wstep.
  - destruct (net_step_ok _ _ _ (xi_net _ _ Hinv) H) as (HN & _ & _ & HO). eapply inv_net; try done. balance.
  - pose proof (Forall_lookup_1 _ _ _ _ (xi_yield _ _ Hinv) Hi) as Hy. simpl in Hy.
    eapply (inv_step _ _ _ i w); keep Hinv. balance.
  - destruct (x_workers x !! i) as [w|] eqn:Hi.
    + pose proof (Forall_lookup_1 _ _ _ _ (xi_yield _ _ Hinv) Hi) as Hy. simpl in Hy. eapply (inv_step _ _ _ i w); keep Hinv.
    + replace (upd x i (set_running false)) with x; [done|].
      destruct x; unfold upd; simpl in *. f_equal. symmetry. by apply alter_none.
  - destruct (start_call_ok _ _ _ _ _ (xi_net _ _ Hinv) (push_mc item) E) as (HN & _ & _ & HO).
    assert (HS := λ z, occ_cons z item (x_submitted x)). eapply inv_net; try done. balance.
  - destruct (finish_call_ok _ _ _ _ _ (xi_net _ _ Hinv) E) as (HN & _ & _ & _ & HO). eapply inv_net; try done. balance.
  - destruct (finish_call_ok _ _ _ _ _ (xi_net _ _ Hinv) E) as (HN & _ & _ & _ & HO). eapply inv_net; try done. balance.
Qed.
End Conservation.

(** ** The executor as constructed *)

Definition new_worker (peers : list nat) : WState WorkQueue :=
  mkWState (make_local kEngine kMedium "wse_yield" 1024) false peers PNew (mkWStats 0 0 0 0 0).

(** The executor, and [callers] threads outside it that may submit. *)
Definition make_exec (cfg : WsConfig) (topo : list Node) (callers : nat) : option (Exec WorkQueue) :=
  let plans := ws_plans cfg topo in
  let n := length plans in
  own ← cinit 4096 (n + callers);
  entry ← cinit 65536 (n + callers);
  Some (mkExec ((λ i, new_worker (ws_peers cfg plans i)) <$> seq 0 n)
          (mkNet (replicate n own ++ [entry]) (replicate (n + callers) None)) 0 0 0 [] [] []).

#[local] Opaque make_local cinit.

Lemma make_exec_inv cfg topo callers x : make_exec cfg topo callers = Some x → exec_inv (all_peers cfg topo) x.
Proof.
  unfold make_exec. set (n := length (ws_plans cfg topo)).
  destruct (cinit 4096 (n + callers)) as [own|] eqn:E1; [|done]. simpl.
  destruct (cinit 65536 (n + callers)) as [en|] eqn:E2; [|done]. simpl. intros [= <-].
  destruct (workqueue_constructors kEngine kMedium "wse_yield" 1024) as ((Hy & Hy0 & _) & _).
  destruct (net_init_inv (replicate n own ++ [en]) (n + callers)) as [HN Hitems].
  { apply Forall_app. split; [apply Forall_replicate; exists 12; by split|]. constructor; [exists 16; by split|constructor]. }
  split; simpl.
  - apply Forall_fmap, Forall_true. intros i. simpl. split; [exact Hy|done].
  - done.
  - intros z. unfold held. simpl. rewrite Hitems, app_nil_r.
    rewrite mjoin_all_nil; [done|]. apply Forall_fmap, Forall_fmap, Forall_true. intros i. unfold held_by. simpl. by rewrite Hy0.
  - rewrite <- list_fmap_compose. by apply list_fmap_ext.
  - intros ? ? ? H. by apply elem_of_nil in H.
  - intros i w src Hi Hpc. rewrite list_lookup_fmap in Hi. destruct (seq _ _ !! i); simplify_eq/=.
Qed.

#[local] Transparent cinit.

Lemma exec_reachable_inv cfg topo callers x0 x :
  make_exec cfg topo callers = Some x0 → steps (xstep (ws_steal_attempts cfg)) x0 x → exec_inv (all_peers cfg topo) x.
Proof.
  intros H0 Hs. eapply (steps_invariant (xstep (ws_steal_attempts cfg))); [by eapply make_exec_inv| |exact Hs].
  intros a b. apply inv_xstep.
Qed.

(** C22: along every interleaving, access by access, of the worker threads, of the
    tasks they run and of outside callers, the items handed to the executor are
    exactly those executed, those queued, on their way through a ring or
    running, and those a full queue refused, each as often as it was handed
    over; a stolen item was taken from another worker, of the same NUMA node
    when stealing is NUMA-aware; and a thread inside a ring operation can always
    make its next access or return. *)
Theorem executor_exactly_once (cfg : WsConfig) (topo : list Node) (callers : nat) (x0 x : Exec WorkQueue) :
  make_exec cfg topo callers = Some x0 → steps (xstep (ws_steal_attempts cfg)) x0 x →
  x_submitted x ≡ₚ executed_items x ++ held x ++ x_dropped x
  ∧ (∀ i v item, (i, FromVictim v, item) ∈ x_executed x →
      v ≠ i ∧ (ws_numa_aware cfg = true →
        (wp_numa <$> ws_plans cfg topo !! v) = (wp_numa <$> ws_plans cfg topo !! i)))
  ∧ (∀ tid r op, n_calls (x_net x) !! tid = Some (Some (r, op)) →
      (∀ c, n_rings (x_net x) !! r = Some c → Z.of_nat (length (lg (wd c))) < W64 - 1) →
      (∃ N', net_step tid (x_net x) N') ∨ is_Some (finish_call (x_net x) tid)).
Proof.
  intros H0 Hs. assert (Hinv := exec_reachable_inv _ _ _ _ _ H0 Hs). split_and!.
  - apply occ_perm. intros z. rewrite (xi_balance _ _ Hinv), !occ_app. lia.
  - intros i v item He. destruct (xi_stolen _ _ Hinv _ _ _ He) as (ps & Hps & Hv).
    apply all_peers_lookup in Hps as ->. apply ws_peers_spec in Hv as (? & _ & ?). done.
  - intros tid r op Hc Hb. by apply (call_progress _ _ r op (xi_net _ _ Hinv)).
Qed.

(** [stop] can be lost: [worker_loop] itself sets [running], so a stop that
    comes after [start] and before the thread enters the loop is undone. *)
Theorem executor_stop_overwritten {Q : Type} `{!WorkQueueOps Q, !WorkQueueLaws Q} (attempts : Z) (x : Exec Q) (i : nat) (w : WState Q) :
  x_workers x !! i = Some w → w_pc w = PNew →
  ∃ x1 x3 w3, xstep attempts x x1 ∧ xstep attempts (upd x1 i (set_running false)) x3
    ∧ x_workers x3 !! i = Some w3 ∧ w_pc w3 = PTop ∧ w_running w3 = true.
Proof.
  intros Hi Hpc. set (begin := λ w : WState Q, set_pc PStart (set_running true w)).
  set (enter := λ w : WState Q, set_pc PTop (set_running true w)).
  assert (∀ (x : Exec Q) w f, x_workers x !! i = Some w → x_workers (upd x i f) !! i = Some (f w)) as Hupd.
  { intros y u f Hu. simpl. by rewrite list_lookup_alter_eq, Hu. }
  assert (H1 := Hupd x w begin Hi). assert (H2 := Hupd _ _ (set_running false) H1). assert (H3 := Hupd _ _ enter H2).
  eexists (upd x i begin), _, _. split_and!; [by eapply x_start|by eapply x_worker, w_enter|exact H3|done|done].
Qed.

(** A worker with more peers than steal attempts has a peer it never probes:
    the start of the scan depends on the worker's number only. *)
Theorem executor_steal_blind_spot (id : nat) (ps : list nat) (attempts : nat) :
  NoDup ps → (attempts < length ps)%nat →
  ∃ p, p ∈ ps ∧ ∀ k, (k < attempts)%nat → victim id ps k ≠ p.
Proof.
  intros Hnd Hlt. set (vs := victim id ps <$> seq 0 attempts).
  destruct (decide (Forall (λ p, p ∈ vs) ps)) as [Hall|Hn].
  - exfalso. assert (length ps ≤ length vs)%nat.
    { apply NoDup_incl_length; [by apply NoDup_ListNoDup|]. intros p Hp.
      rewrite Forall_forall in Hall. apply list_elem_of_In, Hall, list_elem_of_In, Hp. }
    unfold vs in *. rewrite length_fmap, length_seq in *. lia.
  - apply not_Forall_Exists in Hn; [|intros ?; apply _]. apply Exists_exists in Hn as (p & Hp & Hno).
    exists p. split; [done|]. intros k Hk <-. apply Hno, list_elem_of_fmap. exists k. split; [done|].
    apply elem_of_seq. lia.
Qed.

(** ** Statistics of [OfflineWorkerGroup] *)

Record OfflineGroupStats := mkOffStats {
  og_worker_count : Z; og_tasks_submitted : Z; og_tasks_completed : Z; og_coro_resumes : Z;
  og_steals_success : Z; og_steals_failed : Z; og_parks : Z; og_utilization : double }.

Definition sum64 {Q} (f : WStats → Z) (ws : list (WState Q)) : Z :=
  foldl (λ a w, a +64 f (w_stats w)) 0 ws.

(** [stats]; [tasks_submitted] is never counted. *)
Definition offline_stats {Q} (x : Exec Q) : OfflineGroupStats :=
  let ws := x_workers x in
  let completed := sum64 tasks_executed ws in
  let parked := sum64 parks ws in
  let stolen := sum64 steals_success ws in
  mkOffStats (Z.of_nat (length ws)) 0 completed (sum64 coro_resumes ws) stolen
    (sum64 steals_failed ws) parked
    (if (0 <? Z.of_nat (length ws)) && (stolen <? completed)
     then d_sub (d_of_Z 1) (d_div (d_of_Z parked) (d_of_Z (wrap64 (completed + parked + 1))))
     else d_zero).

(** ** A run *)

(** Some of the steps, by name. *)
Inductive Action :=
| Access (tid : nat) | Start (i : nat) | Enter (i : nat) | Look (i : nat) | Search (i : nat) | Return (i : nat)
| Done (i : nat) | Submit (tid r : nat) (item : WorkItem) | Submitted (tid : nat).

Definition act (attempts : Z) (x : Exec WorkQueue) (a : Action) : option (Exec WorkQueue) :=
  match a with
  | Access tid => N ← net_next (x_net x) tid; Some (set_net x N)
  | Start i =>
      w ← x_workers x !! i; if w_pc w is PNew then Some (upd x i (λ w, set_pc PStart (set_running true w))) else None
  | Enter i =>
      w ← x_workers x !! i; if w_pc w is PStart then Some (upd x i (λ w, set_pc PTop (set_running true w))) else None
  | Look i =>
      w ← x_workers x !! i;
      match w_pc w, w_running w, try_dequeue (w_yield w) with
      | PTop, true, (q, None) => Some (upd x i (λ w, set_pc PLocal (set_yield q w)))
      | _, _, _ => None
      end
  | Search i =>
      w ← x_workers x !! i; p ← search attempts i w;
      N ← start_call (x_net x) i (source_ring x i p.1) (OTake (source_dequeue p.1));
      Some (upd (set_net x N) i (set_pc (PTake p.1 p.2)))
  | Return i =>
      w ← x_workers x !! i; r ← finish_call (x_net x) i;
      match w_pc w, r with
      | PTake src k, (OTake _, t, N) =>
          match taken t with
          | Some item => Some (count_task (upd (set_net x N) i (set_pc (PRun item src))))
          | None => Some (upd (set_net x N) i (next_search src k))
          end
      | _, _ => None
      end
  | Done i =>
      w ← x_workers x !! i;
      match w_pc w with
      | PRun item src =>
          let x1 := record_run (upd x i (λ w, set_pc PTop (set_stats (after_run item src (w_stats w)) w))) i src item in
          Some (match src with FromVictim _ => count_steal x1 | _ => x1 end)
      | _ => None
      end
  | Submit tid r item =>
      if decide (workers x ≤ tid ∧ r ≤ entry x)%nat
      then N ← start_call (x_net x) tid r (OPush item); Some (record_submit (set_net x N) item) else None
  | Submitted tid =>
      if decide (workers x ≤ tid)%nat then
        match n_calls (x_net x) !! tid, finish_call (x_net x) tid with
        | Some (Some (r, OPush item)), Some (OPush item', t, N) =>
            if decide (item = item' ∧ r = entry x)
            then Some (bump_counter (record_drop (set_net x N) (if refused t then [item] else []))) else None
        | _, _ => None
        end
      else None
  end.

Lemma act_step attempts x a x' : act attempts x a = Some x' → xstep attempts x x'.
Proof.
  destruct a as [tid|i|i|i|i|i|i|tid r item|tid]; simpl; intros H.
  - destruct (net_next (x_net x) tid) eqn:E; [|done]. injection H as <-. eapply x_access. by apply net_next_step.
  - destruct (x_workers x !! i) as [w|] eqn:E; [|done]. simpl in H. destruct (w_pc w) eqn:Ep; try done. injection H as <-. by eapply x_start.
  - destruct (x_workers x !! i) as [w|] eqn:E; [|done]. simpl in H. destruct (w_pc w) eqn:Ep; try done. injection H as <-.
    by eapply x_worker, w_enter.
  - destruct (x_workers x !! i) as [w|] eqn:E; [|done]. simpl in H. destruct (w_pc w) eqn:Ep; try done.
    destruct (w_running w) eqn:Er; [|done]. destruct (wq_try_dequeue (w_yield w)) as [q [o|]] eqn:Eq; [done|]. injection H as <-.
    by eapply x_worker, w_no_yield.
  - destruct (x_workers x !! i) as [w|] eqn:E; [|done]. simpl in H. destruct (search attempts i w) as [[src k]|] eqn:Es; [|done].
    simpl in H. destruct (start_call _ _ _ _) eqn:Ec; [|done]. injection H as <-. by eapply x_worker, w_search.
  - destruct (x_workers x !! i) as [w|] eqn:E; [|done]. simpl in H. destruct (finish_call (x_net x) i) as [[[op t] N]|] eqn:Ef; [|done].
    simpl in H. destruct (w_pc w) eqn:Ep; try done. destruct op; [|done]. destruct (taken t) eqn:Et; injection H as <-;
      [by eapply x_worker, w_found|by eapply x_worker, w_missed].
  - destruct (x_workers x !! i) as [w|] eqn:E; [|done]. simpl in H. destruct (w_pc w) eqn:Ep; try done. injection H as <-.
    by eapply x_worker, w_done.
  - case_decide as Hd; [|done]. destruct (start_call _ _ _ _) eqn:Ec; [|done]. injection H as <-. destruct Hd. by eapply x_add.
  - case_decide; [|done]. destruct (n_calls (x_net x) !! tid) as [[[r [|item]]|]|] eqn:Ec; try done.
    destruct (finish_call (x_net x) tid) as [[[[|item'] t] N]|] eqn:Ef; try done.
    case_decide as Hd; [|done]. destruct Hd as [<- ->]. injection H as <-. by eapply x_added.
Qed.

(** Outside thread 3 submits; worker 0 starts, finds its own ring empty and takes
    the item from the entry ring, which it executes. *)
Definition sample_actions : list Action :=
  [Submit 3 3 (make_func 9)] ++ replicate 7 (Access 3) ++ [Submitted 3; Start 0; Enter 0; Look 0; Search 0; Access 0; Access 0; Return 0;
   Search 0] ++ replicate 7 (Access 0) ++ [Return 0; Done 0].

Lemma sample_run :
  ∃ x0 x, make_exec sample_cfg sample_topo 1 = Some x0 ∧ steps (xstep 4) x0 x
    ∧ x_submitted x = [make_func 9] ∧ x_executed x = [(0%nat, FromGlobal, make_func 9)].
Proof.
  assert (H : match make_exec sample_cfg sample_topo 1 with
     | Some y => match play (act 4) y sample_actions with Some z => Some (x_submitted z, x_executed z) | None => None end
     | None => None end = Some ([make_func 9], [(0%nat, FromGlobal, make_func 9)])) by (vm_compute; reflexivity).
  destruct (make_exec sample_cfg sample_topo 1) as [x0|]; [|discriminate H].
  destruct (play (act 4) x0 sample_actions) as [x|] eqn:E; [|discriminate H]. injection H as H1 H2.
  exists x0, x. split; [done|]. split; [eapply play_steps; [apply act_step|exact E]|]. done.
Qed.

Lemma executor_exactly_once_witness :
  ∃ x, x_submitted x = [make_func 9] ∧ x_executed x = [(0%nat, FromGlobal, make_func 9)]
    ∧ x_submitted x ≡ₚ executed_items x ++ held x ++ x_dropped x.
Proof.
  destruct sample_run as (x0 & x & H0 & Hs & Hx & He). exists x. split; [exact Hx|]. split; [exact He|].
  exact (proj1 (executor_exactly_once sample_cfg sample_topo 1 x0 x H0 Hs)).
Defined.
