(* ===== verification/CoroTask.v ===== *)
(** [Task<R>] ([coro_task.h]): coroutine frames, promises and their lifetime.

    A coroutine body is a tree of what it does next: return, throw, await
    another task, or suspend until it is resumed with a value.  The machine
    keeps the frames on a heap and follows the symmetric transfers of
    [await_suspend] and [final_suspend]; a step on a frame that was destroyed
    has no result ([None]).  [eval] is the direct-style meaning of a body, to
    which the machine is compared.  [Task<void>] is the instance whose value is
    ignored; its promise has the same [final_suspend]. *)
From S2P Require Import Prelude.

Inductive Outcome := Val (v : Z) | Exn (e : Z).

Inductive Body :=
| BReturn (v : Z)                               (* [co_return v] *)
| BThrow (e : Z)                                (* an exception leaves the body *)
| BAwait (child : Body) (k : Outcome → Body)    (* [co_await task], then go on *)
| BSuspend (k : Z → Body).                      (* suspended until resumed *)

(** Where a frame continues when it is resumed. *)
Inductive Code :=
| AtStart (b : Body)
| AwaitingTask (child : nat) (k : Outcome → Body)
| AwaitingValue (k : Z → Body)
| AtEnd.

(** [TaskPromiseBase], [TaskPromise::result_] and the resume point. *)
Record Frame := mkFrame {
  continuation_ : option nat;
  exception_ : option Z;
  released_ : bool;
  completed_ : bool;
  result_ : option Z;
  f_code : Code
}.

(** [get_return_object] and [initial_suspend]: a suspended frame. *)
Definition new_frame (b : Body) : Frame := mkFrame None None false false None (AtStart b).

Definition set_code (c : Code) (f : Frame) : Frame :=
  mkFrame (continuation_ f) (exception_ f) (released_ f) (completed_ f) (result_ f) c.
Definition set_continuation (c : option nat) (f : Frame) : Frame :=
  mkFrame c (exception_ f) (released_ f) (completed_ f) (result_ f) (f_code f).
Definition set_released (b : bool) (f : Frame) : Frame :=
  mkFrame (continuation_ f) (exception_ f) b (completed_ f) (result_ f) (f_code f).
Definition set_completed (f : Frame) : Frame :=
  mkFrame (continuation_ f) (exception_ f) (released_ f) true (result_ f) (f_code f).
(** [return_value] / [return_void] and [unhandled_exception]. *)
Definition finish (o : Outcome) (f : Frame) : Frame :=
  match o with
  | Val v => mkFrame (continuation_ f) (exception_ f) (released_ f) (completed_ f) (Some v) AtEnd
  | Exn e => mkFrame (continuation_ f) (Some e) (released_ f) (completed_ f) (result_ f) AtEnd
  end.

(** [await_resume]: the exception if there is one, else the result. *)
Definition outcome_of (f : Frame) : option Outcome :=
  match exception_ f with
  | Some e => Some (Exn e)
  | None => Val <$> result_ f
  end.

(** What the thread that drives the coroutines does. *)
Inductive Ctrl :=
| Running (h : nat) (b : Body)   (* inside the body of [h] *)
| Finishing (h : nat)            (* at the final suspend point of [h] *)
| Resuming (h : nat)             (* control was transferred to [h] *)
| Suspended (h : nat)            (* [h] waits for a value; the thread is free *)
| Idle.

Record Machine := mkMachine {
  m_heap : gmap nat Frame;
  m_next : nat;                  (* the next frame address *)
  m_destroyed : list nat;        (* calls of [destroy], latest first *)
  m_values : list Z;             (* values the world will deliver *)
  m_ctrl : Ctrl
}.

Definition set_ctrl (m : Machine) (c : Ctrl) : Machine :=
  mkMachine (m_heap m) (m_next m) (m_destroyed m) (m_values m) c.
Definition set_heap (m : Machine) (H : gmap nat Frame) : Machine :=
  mkMachine H (m_next m) (m_destroyed m) (m_values m) (m_ctrl m).

(** [handle.destroy()]: a second call on the same frame is an error. *)
Definition destroy (m : Machine) (h : nat) : option Machine :=
  match m_heap m !! h with
  | Some _ => Some (mkMachine (delete h (m_heap m)) (m_next m) (h :: m_destroyed m) (m_values m) (m_ctrl m))
  | None => None
  end.

(** Call of a coroutine function. *)
Definition create (m : Machine) (b : Body) : Machine * nat :=
  (mkMachine (<[m_next m := new_frame b]> (m_heap m)) (S (m_next m)) (m_destroyed m) (m_values m) (m_ctrl m), m_next m).

(** [FinalAwaiter::await_suspend]. *)
Definition final_suspend (m : Machine) (h : nat) : option Machine :=
  f ← m_heap m !! h;
  let m1 := set_heap m (<[h := set_completed f]> (m_heap m)) in
  if released_ f then m2 ← destroy m1 h; Some (set_ctrl m2 Idle)
  else match continuation_ f with
  | Some cont =>
      Some (set_ctrl (set_heap m1 (<[h := set_continuation None (set_completed f)]> (m_heap m))) (Resuming cont))
  | None => Some (set_ctrl m1 Idle)
  end.

(** One step.  [BAwait]: the task is created, [Task::await_suspend] stores the
    continuation and transfers to the child.  A frame resumed by its child
    reads the outcome and the temporary [Task] destroys the child's frame. *)
Definition step (m : Machine) : option Machine :=
  match m_ctrl m with
  | Running h (BReturn v) =>
      f ← m_heap m !! h; Some (set_ctrl (set_heap m (<[h := finish (Val v) f]> (m_heap m))) (Finishing h))
  | Running h (BThrow e) =>
      f ← m_heap m !! h; Some (set_ctrl (set_heap m (<[h := finish (Exn e) f]> (m_heap m))) (Finishing h))
  | Running h (BAwait child k) =>
      f ← m_heap m !! h;
      let '(m1, c) := create m child in
      let H := <[h := set_code (AwaitingTask c k) f]> (<[c := set_continuation (Some h) (new_frame child)]> (m_heap m1)) in
      Some (set_ctrl (set_heap m1 H) (Resuming c))
  | Running h (BSuspend k) =>
      f ← m_heap m !! h;
      Some (set_ctrl (set_heap m (<[h := set_code (AwaitingValue k) f]> (m_heap m))) (Suspended h))
  | Finishing h => final_suspend m h
  | Resuming h =>
      f ← m_heap m !! h;
      match f_code f with
      | AtStart b => Some (set_ctrl m (Running h b))
      | AwaitingTask c k =>
          cf ← m_heap m !! c; o ← outcome_of cf; m1 ← destroy m c; Some (set_ctrl m1 (Running h (k o)))
      | _ => None
      end
  | Suspended h =>
      f ← m_heap m !! h;
      match f_code f, m_values m with
      | AwaitingValue k, v :: vs =>
          Some (mkMachine (m_heap m) (m_next m) (m_destroyed m) vs (Running h (k v)))
      | _, _ => None
      end
  | Idle => Some m
  end.

Fixpoint run (fuel : nat) (m : Machine) : option Machine :=
  match fuel with O => Some m | S n => m' ← step m; run n m' end.

(** ** [Task] objects: a handle or null *)

(** [Task::release]. *)
Definition release (m : Machine) (t : option nat) : Machine * option nat :=
  match t with
  | Some h => (set_heap m (alter (set_released true) h (m_heap m)), t)
  | None => (m, None)
  end.

(** [~Task]. *)
Definition task_destroy (m : Machine) (t : option nat) : option Machine :=
  match t with Some h => destroy m h | None => Some m end.

(** [operator=(Task&&)] of two different objects: the old frame is destroyed. *)
Definition task_move_assign (m : Machine) (this other : option nat) : option (Machine * option nat * option nat) :=
  m' ← task_destroy m this; Some (m', other, None).

(** ** [blockingRun] and the threads that resume the body

    The caller resumes the task's frame [h] and runs it until it is done or
    suspends; from then on it only watches [completed_], and the body is run on
    by whoever resumes it.  [FinalAwaiter::await_suspend] of [h] is three
    accesses to the promise: the store of [completed_] and the reads of
    [released_] and [continuation_]. *)
Inductive Caller := CResume | CSpin | CReturned (o : Outcome).
Inductive Final := FinNone | FinReleased | FinContinuation | FinLeft.

Record Blocking := mkBlocking {
  br_m : Machine;
  br_caller : Caller;
  br_final : Final;               (* how far the final suspend of [h] has got *)
  br_dead_reads : nat             (* reads of the promise after [destroy] *)
}.

Definition blocking_start (m : Machine) (h : nat) : Blocking :=
  let '(m1, _) := release m (Some h) in
  let m2 := set_heap m1 (alter (set_released false) h (m_heap m1)) in
  mkBlocking (set_ctrl m2 (Resuming h)) CResume FinNone 0.

Definition set_caller (s : Blocking) (c : Caller) : Blocking := mkBlocking (br_m s) c (br_final s) (br_dead_reads s).
Definition set_machine (s : Blocking) (m : Machine) : Blocking := mkBlocking m (br_caller s) (br_final s) (br_dead_reads s).
Definition set_final (s : Blocking) (p : Final) : Blocking := mkBlocking (br_m s) (br_caller s) p (br_dead_reads s).
(** A read of the promise of [h], which may be gone. *)
Definition read_promise (s : Blocking) (h : nat) : Blocking :=
  mkBlocking (br_m s) (br_caller s) (br_final s)
    (match m_heap (br_m s) !! h with Some _ => br_dead_reads s | None => S (br_dead_reads s) end).

(** [destroy] of a frame that is gone. *)
Definition destroy_again (m : Machine) (h : nat) : Machine :=
  mkMachine (m_heap m) (m_next m) (h :: m_destroyed m) (m_values m) (m_ctrl m).

Definition is_suspended (c : Ctrl) : bool := match c with Suspended _ => true | _ => false end.

Inductive blocking_step (h : nat) : Blocking → Blocking → Prop :=
(* the body runs: in [h.resume()] of the caller, later on another thread *)
| b_run s m' : br_final s = FinNone → m_ctrl (br_m s) ≠ Finishing h →
    (br_caller s = CResume → is_suspended (m_ctrl (br_m s)) = false) → step (br_m s) = Some m' →
    blocking_step h s (set_machine s m')
| b_store s f : br_final s = FinNone → m_ctrl (br_m s) = Finishing h → m_heap (br_m s) !! h = Some f →
    blocking_step h s (set_final (set_machine s (set_heap (br_m s) (<[h := set_completed f]> (m_heap (br_m s))))) FinReleased)
| b_released s : br_final s = FinReleased →
    (∀ f, m_heap (br_m s) !! h = Some f → released_ f = false) →
    blocking_step h s (set_final (read_promise s h) FinContinuation)
| b_continuation s : br_final s = FinContinuation →
    (∀ f, m_heap (br_m s) !! h = Some f → continuation_ f = None) →
    blocking_step h s (set_final (read_promise s h) FinLeft)
| b_released_self s f m' : br_final s = FinReleased → m_heap (br_m s) !! h = Some f → released_ f = true →
    destroy (br_m s) h = Some m' → blocking_step h s (set_final (set_machine s m') FinLeft)
| b_continuation_to s f c : br_final s = FinContinuation → m_heap (br_m s) !! h = Some f → continuation_ f = Some c →
    blocking_step h s (set_final (set_machine s (set_ctrl (set_heap (br_m s)
      (<[h := set_continuation None f]> (m_heap (br_m s)))) (Resuming c))) FinLeft)
(* out of a promise that is gone any value is read *)
| b_released_dead s : br_final s = FinReleased → m_heap (br_m s) !! h = None →
    blocking_step h s (set_final (set_machine (read_promise s h) (destroy_again (br_m s) h)) FinLeft)
| b_continuation_dead s c : br_final s = FinContinuation → m_heap (br_m s) !! h = None →
    blocking_step h s (set_final (set_machine (read_promise s h) (set_ctrl (br_m s) (Resuming c))) FinLeft)
(* [h.resume()] returns to the caller *)
| b_back s : br_caller s = CResume → is_suspended (m_ctrl (br_m s)) = true ∨ br_final s = FinLeft →
    blocking_step h s (set_caller s CSpin)
(* [completed_] is seen: the result is moved out and the frame destroyed *)
| b_done s f o m' : br_caller s = CSpin → m_heap (br_m s) !! h = Some f → completed_ f = true → outcome_of f = Some o →
    destroy (br_m s) h = Some m' → blocking_step h s (set_caller (set_machine s m') (CReturned o)).

(** ** The direct-style meaning of a body, given the values delivered to it *)
Fixpoint eval (b : Body) (vs : list Z) : option (Outcome * list Z) :=
  match b with
  | BReturn v => Some (Val v, vs)
  | BThrow e => Some (Exn e, vs)
  | BAwait child k => '(o, vs') ← eval child vs; eval (k o) vs'
  | BSuspend k => match vs with v :: vs' => eval (k v) vs' | [] => None end
  end.

(** ** The machine against the direct style *)

Lemma run_app n1 n2 m m1 m2 : run n1 m = Some m1 → run n2 m1 = Some m2 → run (n1 + n2) m = Some m2.
Proof.
  revert m. induction n1 as [|n IH]; intros m; simpl; [by intros [= ->]|].
  destruct (step m) as [m'|]; simpl; [|done]. apply IH.
Qed.

Lemma run_step m m1 m2 n : step m = Some m1 → run n m1 = Some m2 → run (S n) m = Some m2.
Proof. intros H1 H2. simpl. by rewrite H1. Qed.

(** On the way, no frame below [lo] gets to its final suspend point. *)
Definition finishes_above (lo n : nat) (m : Machine) : Prop :=
  ∀ k mk x, (k < n)%nat → run k m = Some mk → m_ctrl mk = Finishing x → (lo ≤ x)%nat.

Lemma finishes_app lo n1 n2 m m1 :
  run n1 m = Some m1 → finishes_above lo n1 m → finishes_above lo n2 m1 → finishes_above lo (n1 + n2) m.
Proof.
  revert m. induction n1 as [|n IH]; intros m; simpl; [by intros [= ->]|].
  destruct (step m) as [m'|] eqn:E; simpl; [|done]. intros Hr Hf1 Hf2 [|k] mk x Hk Hrun Hc.
  - apply (Hf1 0%nat mk x); [lia|done|done].
  - simpl in Hrun. rewrite E in Hrun. simpl in Hrun. refine (IH m' Hr _ Hf2 k mk x _ Hrun Hc); [|lia].
    intros j mj y Hj Hrj. apply (Hf1 (S j)); [lia|]. simpl. by rewrite E.
Qed.

Lemma finishes_mono lo lo' n m : (lo ≤ lo')%nat → finishes_above lo' n m → finishes_above lo n m.
Proof. intros Hle Hf k mk x Hk Hr Hc. specialize (Hf k mk x Hk Hr Hc). lia. Qed.

Lemma finishes_one lo m : (∀ x, m_ctrl m = Finishing x → (lo ≤ x)%nat) → finishes_above lo 1 m.
Proof. intros H [|k] mk x Hk; [by intros [= <-]; apply H|lia]. Qed.

Lemma finishes_two lo m m1 :
  step m = Some m1 → (∀ x, m_ctrl m = Finishing x → (lo ≤ x)%nat) → (∀ x, m_ctrl m1 = Finishing x → (lo ≤ x)%nat) →
  finishes_above lo 2 m.
Proof.
  intros Hs H0 H1. apply (finishes_app lo 1 1 m m1); [simpl; by rewrite Hs|by apply finishes_one..].
Qed.

(** Addresses from [m_next] on are free. *)
Definition fresh_from (m : Machine) : Prop := ∀ i, (m_next m ≤ i)%nat → m_heap m !! i = None.

(** The frame [f] of [h] has run a body to outcome [o]; the rest of the heap
    is as before and every frame made on the way was destroyed once. *)
Definition completes (m m' : Machine) (h : nat) (f : Frame) (o : Outcome) (rest : list Z) : Prop :=
  m_ctrl m' = Finishing h ∧ m_heap m' = <[h := finish o f]> (m_heap m) ∧ m_values m' = rest
  ∧ (m_next m ≤ m_next m')%nat
  ∧ ∃ ds, m_destroyed m' = ds ++ m_destroyed m ∧ ds ≡ₚ seq (m_next m) (m_next m' - m_next m).

Lemma finish_set_code o c f : finish o (set_code c f) = finish o f.
Proof. by destruct o. Qed.

Lemma outcome_finish o f : exception_ f = None → outcome_of (finish o f) = Some o.
Proof. intros H. destruct o; unfold outcome_of; simpl; [by rewrite H|done]. Qed.

(** The four steps around an awaited child: into the child, and back. *)
Definition awaiting (m : Machine) (h : nat) (f : Frame) (child : Body) (k : Outcome → Body) : Machine :=
  mkMachine (<[h := set_code (AwaitingTask (m_next m) k) f]>
               (<[m_next m := set_continuation (Some h) (new_frame child)]> (m_heap m)))
    (S (m_next m)) (m_destroyed m) (m_values m) (Running (m_next m) child).

Lemma enter_child m h f child k :
  m_ctrl m = Running h (BAwait child k) → m_heap m !! h = Some f → (h < m_next m)%nat →
  run 2 m = Some (awaiting m h f child k) ∧ finishes_above (m_next m) 2 m.
Proof.
  intros Hc Hh Hlt. split.
  2:{ eapply finishes_two; [unfold step; rewrite Hc, Hh; reflexivity|by rewrite Hc|done]. }
  eapply (run_step _ _ _ 1); [unfold step; rewrite Hc, Hh; done|].
  eapply (run_step _ _ _ 0); [|done]. unfold step. simpl.
  rewrite lookup_insert_ne by lia. rewrite lookup_insert_eq. simpl.
  unfold awaiting, set_ctrl, set_heap. simpl. by rewrite insert_insert_eq.
Qed.

Lemma leave_child m m3 h f child k o vs :
  m_heap m !! h = Some f → (h < m_next m)%nat → fresh_from m →
  completes (awaiting m h f child k) m3 (m_next m) (set_continuation (Some h) (new_frame child)) o vs →
  run 2 m3 = Some (mkMachine (<[h := set_code (AwaitingTask (m_next m) k) f]> (m_heap m)) (m_next m3)
    (m_next m :: m_destroyed m3) vs (Running h (k o))) ∧ finishes_above (m_next m) 2 m3.
Proof.
  intros Hh Hlt Hfr (Hc & Hheap & Hv & _).
  set (fc := finish o (set_continuation (Some h) (new_frame child))) in *.
  assert (Hr : released_ fc = false) by by destruct o.
  assert (Hk : continuation_ fc = Some h) by by destruct o.
  assert (Ho : outcome_of (set_continuation None (set_completed fc)) = Some o) by by destruct o.
  split.
  2:{ eapply finishes_two; [unfold step; rewrite Hc; unfold final_suspend; rewrite Hheap, lookup_insert_eq; simpl; rewrite Hr, Hk; reflexivity| |done].
      rewrite Hc. by intros x [= <-]. }
  eapply (run_step _ _ _ 1).
  { unfold step. rewrite Hc. unfold final_suspend. rewrite Hheap, lookup_insert_eq. simpl. by rewrite Hr, Hk. }
  eapply (run_step _ _ _ 0); [|done]. unfold step. simpl.
  rewrite !lookup_insert_ne by lia. rewrite lookup_insert_eq. simpl. rewrite lookup_insert_eq. simpl.
  rewrite Ho. simpl. unfold destroy. simpl. rewrite lookup_insert_eq. simpl.
  unfold set_ctrl. simpl. rewrite Hv. do 2 f_equal.
  apply map_eq. intros i. destruct (decide (i = m_next m)) as [->|Hi].
  - rewrite lookup_delete_eq, lookup_insert_ne by lia. symmetry. apply Hfr. lia.
  - rewrite lookup_delete_ne, !(lookup_insert_ne _ (m_next m) i) by done.
    destruct (decide (i = h)) as [->|]; [by rewrite !lookup_insert_eq|]. by rewrite !lookup_insert_ne by done.
Qed.

Lemma run_body b : ∀ m h f o rest,
  m_ctrl m = Running h b → m_heap m !! h = Some f → fresh_from m → (h < m_next m)%nat →
  eval b (m_values m) = Some (o, rest) →
  ∃ n m', run n m = Some m' ∧ completes m m' h f o rest ∧ finishes_above (m_next m) n m.
Proof.
  induction b as [v|e|child IHc k IHk|k IHk]; intros m h f o rest Hc Hh Hfr Hlt Hev; simpl in Hev.
  - simplify_eq. exists 1%nat. eexists. simpl. unfold step. rewrite Hc, Hh. simpl. split; [done|].
    split; [split_and!; try done; exists []; by rewrite Nat.sub_diag|]. apply finishes_one. by rewrite Hc.
  - simplify_eq. exists 1%nat. eexists. simpl. unfold step. rewrite Hc, Hh. simpl. split; [done|].
    split; [split_and!; try done; exists []; by rewrite Nat.sub_diag|]. apply finishes_one. by rewrite Hc.
  - destruct (eval child (m_values m)) as [[o1 vs1]|] eqn:Ec; [|done]. simpl in Hev.
    destruct (enter_child m h f child k Hc Hh Hlt) as [H1 F1].
    destruct (IHc (awaiting m h f child k) (m_next m) (set_continuation (Some h) (new_frame child)) o1 vs1)
      as (n2 & m3 & H2 & Hdone & F2); [done| | |simpl; lia|done|].
    { simpl. rewrite lookup_insert_ne by lia. apply lookup_insert_eq. }
    { intros i Hi. simpl in *. rewrite !lookup_insert_ne by lia. apply Hfr. lia. }
    destruct (leave_child m m3 h f child k o1 vs1 Hh Hlt Hfr Hdone) as [H3 F3].
    destruct Hdone as (_ & _ & _ & Hn3 & ds1 & Hd1 & Hp1). simpl in Hn3, Hd1, Hp1.
    set (m5 := mkMachine _ _ _ _ _) in H3.
    destruct (IHk o1 m5 h (set_code (AwaitingTask (m_next m) k) f) o rest) as (n4 & m6 & H4 & Hdone4 & F4);
      [done|apply lookup_insert_eq| |simpl; lia|done|].
    { intros i Hi. simpl in *. rewrite lookup_insert_ne by lia. apply Hfr. lia. }
    destruct Hdone4 as (Hc6 & Hh6 & Hv6 & Hn6 & ds2 & Hd6 & Hp6). simpl in Hn6, Hd6, Hp6, Hh6.
    exists (2 + (n2 + (2 + n4)))%nat, m6. split; [eauto using run_app|]. split.
    2:{ apply (finishes_app _ _ _ _ _ H1 F1), (finishes_app _ _ _ _ _ H2); [apply (finishes_mono _ (S (m_next m))); [lia|exact F2]|].
        apply (finishes_app _ _ _ _ _ H3 F3), (finishes_mono _ (m_next m3)); [lia|exact F4]. }
    split_and!; [done|by rewrite Hh6, finish_set_code, insert_insert_eq|done|lia|].
    exists (ds2 ++ m_next m :: ds1). split; [by rewrite Hd6, Hd1, <- (assoc_L (++))|].
    rewrite Hp6, Hp1. replace (m_next m6 - m_next m)%nat with (S ((m_next m3 - S (m_next m)) + (m_next m6 - m_next m3)))%nat by lia.
    simpl. rewrite seq_app. replace (S (m_next m) + (m_next m3 - S (m_next m)))%nat with (m_next m3) by lia.
    rewrite <- Permutation_middle. f_equiv. apply Permutation_app_comm.
  - destruct (m_values m) as [|v vs] eqn:Ev; [done|].
    set (f1 := set_code (AwaitingValue k) f).
    set (m2 := mkMachine (<[h := f1]> (m_heap m)) (m_next m) (m_destroyed m) vs (Running h (k v))).
    assert (H1 : run 2 m = Some m2).
    { eapply (run_step _ _ _ 1); [unfold step; rewrite Hc, Hh; done|].
      eapply (run_step _ _ _ 0); [|done]. unfold step. simpl. by rewrite lookup_insert_eq, Ev. }
    assert (F1 : finishes_above (m_next m) 2 m).
    { eapply finishes_two; [unfold step; rewrite Hc, Hh; reflexivity|by rewrite Hc|done]. }
    destruct (IHk v m2 h f1 o rest) as (n & m' & H2 & (? & Hheap & ? & ? & ?) & F2);
      [done|apply lookup_insert_eq| |done|done|].
    { intros i Hi. simpl in *. rewrite lookup_insert_ne by lia. by apply Hfr. }
    exists (2 + n)%nat, m'. split; [by eapply run_app|]. split; [|by apply (finishes_app _ _ _ _ _ H1)]. split_and!; try done.
    rewrite Hheap. simpl. unfold f1. by rewrite finish_set_code, insert_insert_eq.
Qed.

(** A created task, resumed for the first time with the flag [rel], reaches its
    final suspend point. *)
Lemma run_created m b rel o rest :
  fresh_from m → eval b (m_values m) = Some (o, rest) →
  ∃ n m', run n (set_ctrl (set_heap (fst (create m b)) (<[m_next m := set_released rel (new_frame b)]> (m_heap m)))
                   (Resuming (m_next m))) = Some m'
    ∧ m_ctrl m' = Finishing (m_next m) ∧ m_values m' = rest
    ∧ m_heap m' = <[m_next m := finish o (set_released rel (new_frame b))]> (m_heap m)
    ∧ (S (m_next m) ≤ m_next m')%nat
    ∧ (∀ k mk, (k < n)%nat → run k (set_ctrl (set_heap (fst (create m b)) (<[m_next m := set_released rel (new_frame b)]> (m_heap m)))
                   (Resuming (m_next m))) = Some mk → m_ctrl mk ≠ Finishing (m_next m))
    ∧ ∃ ds, m_destroyed m' = ds ++ m_destroyed m ∧ m_next m :: ds ≡ₚ seq (m_next m) (m_next m' - m_next m).
Proof.
  intros Hfr Hev. set (f := set_released rel (new_frame b)).
  set (m1 := mkMachine (<[m_next m := f]> (m_heap m)) (S (m_next m)) (m_destroyed m) (m_values m) (Running (m_next m) b)).
  destruct (run_body b m1 (m_next m) f o rest) as (n & m' & Hrun & (Hc & Hheap & Hv & Hn & ds & Hd & Hp) & Hf);
    [done|apply lookup_insert_eq| |simpl; lia|done|].
  { intros i Hi. simpl in *. rewrite lookup_insert_ne by lia. apply Hfr. lia. }
  simpl in Hn, Hd, Hp, Hheap. rewrite insert_insert_eq in Hheap.
  exists (S n), m'. split_and!; try done.
  - eapply run_step; [|exact Hrun]. unfold step. simpl. by rewrite lookup_insert_eq.
  - intros k mk Hk Hrk Ec. destruct k as [|k]; [simpl in Hrk; injection Hrk as <-; done|].
    simpl in Hrk. unfold step in Hrk. simpl in Hrk. rewrite lookup_insert_eq in Hrk. simpl in Hrk.
    assert (S (m_next m) ≤ m_next m)%nat; [|lia]. exact (Hf k mk (m_next m) ltac:(lia) Hrk Ec).
  - exists ds. split; [done|]. rewrite Hp.
    replace (m_next m' - m_next m)%nat with (S (m_next m' - S (m_next m))) by lia. done.
Qed.

(** ** The call of [blockingRun] *)

Lemma step_values m m' : step m = Some m' →
  (length (m_values m') ≤ length (m_values m))%nat
  ∧ (is_suspended (m_ctrl m) = true → (length (m_values m') < length (m_values m))%nat).
Proof.
  unfold step, final_suspend, destroy, create.
  destruct (m_ctrl m) as [h [v|e|c k|k]|h|h|h|] eqn:Ec; simpl; intros E;
    try (destruct (m_heap m !! h) as [f|]; [|done]; simpl in E); simplify_eq/=; try done.
  - rewrite lookup_insert_eq in E. destruct (released_ f); [|destruct (continuation_ f)]; by simplify_eq/=.
  - destruct (f_code f) as [b|c k|k|]; simplify_eq/=; try done.
    destruct (m_heap m !! c) as [cf|] eqn:Ecf; [|done]. simpl in E. destruct (outcome_of cf); [|done]. simpl in E. by simplify_eq/=.
  - destruct (f_code f); try done. destruct (m_values m) eqn:Ev; [done|]. simplify_eq/=. lia.
Qed.

Lemma run_split n1 n2 m m1 m2 : run (n1 + n2) m = Some m2 → run n1 m = Some m1 → run n2 m1 = Some m2.
Proof.
  revert m. induction n1 as [|n IH]; intros m; simpl; [by intros ? [= ->]|].
  destruct (step m) as [m'|]; simpl; [apply IH|done].
Qed.

Lemma run_values n m m' : run n m = Some m' → (length (m_values m') ≤ length (m_values m))%nat.
Proof.
  revert m. induction n as [|n IH]; intros m; simpl; [by intros [= ->]|].
  destruct (step m) as [m1|] eqn:E; simpl; [|done]. intros H%IH. apply step_values in E as [? _]. lia.
Qed.

(** A run that stops somewhere on its way has consumed a value there. *)
Lemma suspended_consumes k n m mk mn :
  run k m = Some mk → run n m = Some mn → (k < n)%nat → is_suspended (m_ctrl mk) = true →
  (length (m_values mn) < length (m_values m))%nat.
Proof.
  intros Hk Hn Hlt Hs. replace n with (k + S (n - S k))%nat in Hn by lia. apply (run_split _ _ _ _ _ Hn) in Hk as Hr.
  simpl in Hr. destruct (step mk) as [m1|] eqn:E; [|done]. simpl in Hr. apply step_values in E as [_ Hlt'].
  specialize (Hlt' Hs). apply run_values in Hr. apply run_values in Hk. lia.
Qed.

(** [completed_] of [h] is stored at its final suspend point only. *)
Definition incomplete (h : nat) (m : Machine) : Prop := ∀ f, m_heap m !! h = Some f → completed_ f = false.

Lemma incomplete_step h m m' : step m = Some m' → m_ctrl m ≠ Finishing h → incomplete h m → incomplete h m'.
Proof.
  unfold step, final_suspend, destroy, create. intros E Hc Hi.
  destruct (m_ctrl m) as [x [v|e|c k|k]|x|x|x|] eqn:Ec; simpl in E;
    try (destruct (m_heap m !! x) as [fx|] eqn:Ex; [|done]; simpl in E); simplify_eq/=; try done.
  1-4: intros f Hf; simpl in Hf; repeat (apply lookup_insert_Some in Hf as [[<- <-]|[_ Hf]]; [simpl; by eauto|]); by apply Hi.
  - assert (x ≠ h) by congruence. rewrite lookup_insert_eq in E. intros f.
    destruct (released_ fx); [|destruct (continuation_ fx)]; simplify_eq/=;
      rewrite ?delete_insert_eq, ?lookup_delete_ne, ?lookup_insert_ne by done; apply Hi.
  - destruct (f_code fx) as [b|c k|k|]; simplify_eq/=; try done.
    destruct (m_heap m !! c) as [cf|] eqn:Ecf; [|done]. simpl in E. destruct (outcome_of cf); [|done]. simpl in E. simplify_eq/=.
    intros f Hf. simpl in Hf. apply lookup_delete_Some in Hf as [_ Hf]. by apply Hi.
  - destruct (f_code fx); try done. destruct (m_values m); [done|]. simplify_eq/=. exact Hi.
Qed.

Lemma incomplete_run h n m m' :
  run n m = Some m' → (∀ k mk, (k < n)%nat → run k m = Some mk → m_ctrl mk ≠ Finishing h) → incomplete h m → incomplete h m'.
Proof.
  revert m. induction n as [|n IH]; intros m; simpl; [by intros [= ->]|].
  destruct (step m) as [m1|] eqn:E; simpl; [|done]. intros Hr Hf Hi. apply (IH m1 Hr).
  - intros k mk Hk Hrk. apply (Hf (S k)); [lia|]. simpl. by rewrite E.
  - apply (incomplete_step h m m1 E); [apply (Hf 0%nat); [lia|done]|done].
Qed.

Section Call.
(** The call started at [M0]; the body of [h] gets to its final suspend point at
    [mN], after [N] steps, with outcome [o]. *)
Context (h : nat) (M0 mN : Machine) (N : nat) (fN : Frame) (o : Outcome).
Context (HN : run N M0 = Some mN) (Hctrl : m_ctrl mN = Finishing h) (HfN : m_heap mN !! h = Some fN).
Context (Hrel : released_ fN = false) (Hcont : continuation_ fN = None) (Hout : outcome_of fN = Some o).
Context (Hway : ∀ k mk, (k < N)%nat → run k M0 = Some mk → m_ctrl mk ≠ Finishing h) (Hinc : incomplete h M0).

Definition completed_machine : Machine := set_heap mN (<[h := set_completed fN]> (m_heap mN)).
Definition destroyed_machine : Machine :=
  mkMachine (delete h (m_heap mN)) (m_next mN) (h :: m_destroyed mN) (m_values mN) (m_ctrl mN).
(** The body has been suspended on its way. *)
Definition consumed : Prop := (length (m_values mN) < length (m_values M0))%nat.

Inductive call_inv (s : Blocking) : Prop :=
| ci_running k : br_final s = FinNone → (k ≤ N)%nat → run k M0 = Some (br_m s) → br_dead_reads s = 0%nat →
    br_caller s = CResume ∨ br_caller s = CSpin ∧ consumed → call_inv s
| ci_final : br_final s ≠ FinNone → br_m s = completed_machine → br_dead_reads s = 0%nat →
    br_caller s = CResume ∨ br_caller s = CSpin ∧ (br_final s = FinLeft ∨ consumed) → call_inv s
| ci_returned : br_final s ≠ FinNone → m_heap (br_m s) = m_heap destroyed_machine ∧ m_values (br_m s) = m_values mN →
    (br_dead_reads s = 0%nat → br_m s = destroyed_machine) → br_caller s = CReturned o →
    (br_final s = FinLeft ∧ br_dead_reads s = 0%nat ∨ consumed) → call_inv s.

Lemma completed_lookup : m_heap completed_machine !! h = Some (set_completed fN).
Proof. apply lookup_insert_eq. Qed.
Lemma destroyed_lookup : m_heap destroyed_machine !! h = None.
Proof. apply lookup_delete_eq. Qed.
Lemma completed_destroy : destroy completed_machine h = Some destroyed_machine.
Proof. unfold destroy. rewrite completed_lookup. simpl. by rewrite delete_insert_eq. Qed.

Lemma running_at_end k mk : (k ≤ N)%nat → run k M0 = Some mk → m_ctrl mk = Finishing h → k = N ∧ mk = mN.
Proof.
  intros Hk Hr Hc. destruct (decide (k = N)) as [->|]; [split; congruence|]. destruct (Hway k mk); [lia|done|done].
Qed.

Lemma running_incomplete k mk : (k ≤ N)%nat → run k M0 = Some mk → incomplete h mk.
Proof. intros Hk Hr. apply (incomplete_run h k M0 mk Hr); [|done]. intros j mj Hj. apply Hway. lia. Qed.

(** The final suspend point reads a promise that is gone. *)
Lemma returned_dead s m' p :
  br_final s ≠ FinLeft → p ≠ FinNone → m_heap (br_m s) = m_heap destroyed_machine ∧ m_values (br_m s) = m_values mN →
  br_caller s = CReturned o → (br_final s = FinLeft ∧ br_dead_reads s = 0%nat ∨ consumed) →
  m_heap m' = m_heap (br_m s) → m_values m' = m_values (br_m s) →
  call_inv (set_final (set_machine (read_promise s h) m') p).
Proof.
  intros Hf Hp [Hh Hv] Hc Ho E1 E2. apply ci_returned; simpl; [done|by rewrite E1, E2| |done|].
  - by rewrite Hh, destroyed_lookup.
  - destruct Ho as [[? _]|]; [done|by right].
Qed.

Lemma call_step s s' : call_inv s → blocking_step h s s' → call_inv s'.
Proof.
  intros Hinv Hst. destruct Hst as [s m' Hf Hc Hs Hm|s f Hf Hc Hh|s Hf _|s Hf _|s f m' Hf Hh Hr Hm|s f c Hf Hh Hk|s Hf Hh|s c Hf Hh|s Hc Hor|s f o' m' Hc Hh Hd Ho Hm];
    destruct Hinv as [k H1 H2 H3 H4 H5|H1 H2 H3 H4|H1 [H2 Hv] Hm0 H3 H4]; try congruence.
  - assert (Hlt : k ≠ N) by (intros ->; congruence). apply (ci_running _ (S k)); try done; [lia|].
    replace (S k) with (k + 1)%nat by lia. eapply run_app; [exact H3|]. simpl. by rewrite Hm.
  - destruct (running_at_end k _ H2 H3 Hc) as [-> Em]. apply ci_final; simpl; try done.
    + rewrite Em in *. rewrite Hh in HfN. injection HfN as ->. done.
    + destruct H5 as [|[? ?]]; [by left|right; auto].
  - apply ci_final; simpl; try done; [rewrite H2, completed_lookup; done|]. destruct H4 as [|[? [|]]]; [by left|congruence|right; auto].
  - apply (returned_dead s (br_m s)); congruence || done.
  - apply ci_final; simpl; try done; [rewrite H2, completed_lookup; done|]. destruct H4 as [|[? [|]]]; [by left|congruence|right; auto].
  - apply (returned_dead s (br_m s)); congruence || done.
  - rewrite H2, completed_lookup in Hh. injection Hh as <-. simpl in Hr. congruence.
  - by rewrite H2, destroyed_lookup in Hh.
  - rewrite H2, completed_lookup in Hh. injection Hh as <-. simpl in Hk. congruence.
  - by rewrite H2, destroyed_lookup in Hh.
  - by rewrite H2, completed_lookup in Hh.
  - apply returned_dead; congruence || done.
  - by rewrite H2, completed_lookup in Hh.
  - apply returned_dead; congruence || done.
  - apply (ci_running _ k); try done. right. split; [done|]. destruct Hor as [Hor|]; [|congruence].
    destruct (decide (k = N)) as [->|]; [|apply (suspended_consumes k N M0 (br_m s)); [done|done|lia|done]].
    rewrite HN in H3. injection H3 as E. rewrite <-E, Hctrl in Hor. done.
  - apply ci_final; simpl; try done. right. split; [done|]. left. destruct Hor as [Hor|]; [|done]. rewrite H2 in Hor. simpl in Hor. by rewrite Hctrl in Hor.
  - rewrite (running_incomplete k (br_m s) H2 H3 f Hh) in Hd. done.
  - rewrite H2, completed_lookup in Hh. injection Hh as <-. rewrite H2, completed_destroy in Hm. injection Hm as <-.
    change (outcome_of fN = Some o') in Ho. apply ci_returned; try done; [simpl; congruence|].
    destruct H4 as [|[_ [|]]]; [congruence|by left|by right].
Qed.

(** From anywhere in the call the caller can still get its result. *)
Lemma call_runs s k :
  br_final s = FinNone → (k ≤ N)%nat → run k M0 = Some (br_m s) → br_caller s = CResume ∨ br_caller s = CSpin →
  ∃ s', steps (blocking_step h) s s' ∧ br_final s' = FinNone ∧ br_m s' = mN ∧ (br_caller s' = CResume ∨ br_caller s' = CSpin).
Proof.
  remember (N - k)%nat as d eqn:Ed. revert s k Ed. induction d as [|d IH]; intros s k Ed Hf Hk Hr Hc.
  { assert (k = N) as -> by lia. rewrite HN in Hr. injection Hr as E. exists s. by split; [apply steps_refl|]. }
  pose proof HN as Hn. replace N with (k + S (N - S k))%nat in Hn by lia. apply (run_split _ _ _ _ _ Hn) in Hr as Hr1.
  simpl in Hr1. destruct (step (br_m s)) as [m1|] eqn:Es; [|done].
  assert (Hm1 : run (S k) M0 = Some m1).
  { replace (S k) with (k + 1)%nat by lia. eapply run_app; [exact Hr|]. simpl. by rewrite Es. }
  assert (Hnf : m_ctrl (br_m s) ≠ Finishing h) by (apply (Hway k); [lia|done]).
  assert (∃ s1, steps (blocking_step h) s s1 ∧ br_m s1 = br_m s ∧ br_final s1 = FinNone
    ∧ (br_caller s1 = CResume ∨ br_caller s1 = CSpin) ∧ (br_caller s1 = CResume → is_suspended (m_ctrl (br_m s1)) = false))
    as (s1 & H1 & Em & Hf1 & Hc1 & Hs1).
  { destruct Hc as [Hc|Hc]; [destruct (is_suspended (m_ctrl (br_m s))) eqn:Eu|].
    - exists (set_caller s CSpin). split; [apply steps_once, b_back; [done|by left]|]. by split_and!; try right.
    - exists s. split; [apply steps_refl|]. by split_and!; try left.
    - exists s. split; [apply steps_refl|]. split_and!; try done; [by right|congruence]. }
  destruct (IH (set_machine s1 m1) (S k)) as (s' & H2 & Hs'); [lia|done|lia|done|done|].
  exists s'. split; [|exact Hs']. eapply steps_trans; [exact H1|]. eapply steps_trans; [|exact H2].
  apply steps_once, b_run; [done|by rewrite Em|done|by rewrite Em].
Qed.

Lemma call_ends s : br_final s ≠ FinNone → br_m s = completed_machine → br_caller s = CResume ∨ br_caller s = CSpin →
  ∃ s', steps (blocking_step h) s s' ∧ br_caller s' = CReturned o.
Proof.
  intros Hf Hm Hc. pose proof completed_lookup as Hl.
  assert (∃ s1, steps (blocking_step h) s s1 ∧ br_final s1 = FinLeft ∧ br_m s1 = completed_machine
    ∧ (br_caller s1 = CResume ∨ br_caller s1 = CSpin)) as (s1 & H1 & Hf1 & Hm1 & Hc1).
  { assert (Hcn : ∀ s, br_final s = FinContinuation → br_m s = completed_machine →
      blocking_step h s (set_final (read_promise s h) FinLeft)).
    { intros s1 Hs1 Em. apply b_continuation; [done|]. intros f. rewrite Em, Hl. intros [= <-]. done. }
    destruct (br_final s) eqn:Ef; [done|..].
    - eexists. split; [eapply steps_trans; [apply steps_once, b_released; [done|]|apply steps_once, Hcn; done]|done].
      intros f. rewrite Hm, Hl. intros [= <-]. done.
    - eexists. split; [apply steps_once, Hcn; done|done].
    - exists s. split; [apply steps_refl|done]. }
  assert (∃ s2, steps (blocking_step h) s s2 ∧ br_m s2 = completed_machine ∧ br_caller s2 = CSpin) as (s2 & H2 & Hm2 & Hc2).
  { destruct Hc1 as [Hc1|Hc1]; [|by exists s1]. exists (set_caller s1 CSpin). split; [|done].
    eapply steps_snoc; [exact H1|]. apply b_back; [done|by right]. }
  eexists. split.
  - eapply steps_snoc; [exact H2|]. eapply (b_done _ _ (set_completed fN) o destroyed_machine); rewrite ?Hm2; try done. apply completed_destroy.
  - done.
Qed.

Lemma call_returns s : call_inv s → ∃ s', steps (blocking_step h) s s' ∧ br_caller s' = CReturned o.
Proof.
  intros [k H1 H2 H3 H4 H5|H1 H2 H3 H4|H1 H2 H3 H4 H5].
  - destruct (call_runs s k) as (s1 & Hs1 & Hf1 & Hm1 & Hc1); [done|done|done|by destruct H5 as [|[? _]]; [left|right]|].
    pose (s2 := set_final (set_machine s1 (set_heap (br_m s1) (<[h := set_completed fN]> (m_heap (br_m s1))))) FinReleased).
    destruct (call_ends s2) as (s3 & Hs3 & Hr); [done|unfold s2; simpl; by rewrite Hm1|done|].
    exists s3. split; [|done]. eapply steps_trans; [exact Hs1|]. eapply steps_trans; [|exact Hs3].
    apply steps_once. apply b_store; [done|by rewrite Hm1|by rewrite Hm1].
  - apply call_ends; [done|done|]. by destruct H4 as [|[? _]]; [left|right].
  - exists s. split; [apply steps_refl|done].
Qed.
End Call.

(** C24: [blockingRun] returns what its task's body evaluates to in direct
    style.  The caller runs the body until it is done or first suspends; from
    then on other threads run it, and their steps interleave with the caller's
    in any way.  Whenever the caller has returned, its answer is the body's
    value or exception, the same delivered values are consumed and the body has
    reached its final suspend point; it can always still return; and as long as
    the final suspend point has read no promise that is gone, the heap of frames
    is then as it was and every frame created on the way, the task's own
    included, was destroyed exactly once.  When the body was not suspended on
    its way, it reads none; when it was, it may
    ([blocking_run_races_final_suspend]). *)
Theorem blocking_run_is_eval (m : Machine) (b : Body) (o : Outcome) (rest : list Z) (s : Blocking) :
  fresh_from m → eval b (m_values m) = Some (o, rest) →
  steps (blocking_step (snd (create m b))) (blocking_start (fst (create m b)) (snd (create m b))) s →
  (∀ o', br_caller s = CReturned o' → o' = o ∧ m_values (br_m s) = rest ∧ br_final s ≠ FinNone
     ∧ (br_dead_reads s = 0%nat → m_heap (br_m s) = m_heap m
          ∧ ∃ ds, m_destroyed (br_m s) = ds ++ m_destroyed m ∧ ds ≡ₚ seq (m_next m) (m_next (br_m s) - m_next m)))
  ∧ (∃ s', steps (blocking_step (snd (create m b))) s s' ∧ br_caller s' = CReturned o)
  ∧ (rest = m_values m → br_dead_reads s = 0%nat).
Proof.
  intros Hfr Hev Hst. simpl in Hst.
  destruct (run_created m b false o rest Hfr Hev) as (n & mN & Hrun & Hc & Hv & Hheap & Hn & Hway & ds & Hd & Hp).
  set (h := m_next m) in *. set (fN := finish o (set_released false (new_frame b))) in *.
  set (M0 := set_ctrl _ _) in Hrun, Hway.
  assert (E0 : blocking_start (create m b).1 h = mkBlocking M0 CResume FinNone 0).
  { unfold blocking_start, M0, create, set_ctrl, set_heap. simpl. fold h. by rewrite !alter_insert_eq. }
  assert (Hf : m_heap mN !! h = Some fN) by (rewrite Hheap; apply lookup_insert_eq).
  assert (Hrel : released_ fN = false) by by destruct o. assert (Hk : continuation_ fN = None) by by destruct o.
  assert (Ho : outcome_of fN = Some o) by by destruct o.
  assert (Hi : incomplete h M0) by (intros f; unfold M0; simpl; rewrite lookup_insert_eq; by intros [= <-]).
  assert (Hinv : call_inv h M0 mN n fN o s).
  { revert Hst. apply (steps_invariant _ (call_inv h M0 mN n fN o)).
    - cbn [fst snd create]. change (blocking_start _ _) with (blocking_start (create m b).1 h). rewrite E0.
      apply (ci_running _ _ _ _ _ _ _ 0); try done; [lia|by left].
    - intros x y Hx. by apply call_step. }
  split_and!.
  - intros o' Hr. destruct Hinv as [k _ _ _ _ [?|[? _]]|_ _ _ [?|[? _]]|Hn0 [_ Ev] Em Ec _]; [congruence..|]. rewrite Ec in Hr. injection Hr as <-.
    split_and!; [done|by rewrite Ev|done|]. intros E. rewrite (Em E). simpl. split.
    + rewrite Hheap, delete_insert_id; [done|]. by apply Hfr.
    + exists (h :: ds). split; [by rewrite Hd|done].
  - by apply (call_returns h M0 mN n fN o).
  - intros E. assert (¬ consumed M0 mN) by (unfold consumed; rewrite Hv, E; simpl; lia).
    destruct Hinv as [| |_ _ _ _ [[_ ?]|?]]; done.
Qed.


(** A task that is released and resumed by a queue frees itself: when its
    body is done the thread is free, the heap of frames is as it was before the
    task was created and every frame made on the way, its own included, was
    destroyed exactly once, whether the body returned or threw. *)
Theorem released_task_frees_itself (m : Machine) (b : Body) (o : Outcome) (rest : list Z) :
  fresh_from m → eval b (m_values m) = Some (o, rest) →
  ∃ n m', run n (set_ctrl (fst (release (fst (create m b)) (Some (snd (create m b))))) (Resuming (snd (create m b)))) = Some m'
    ∧ m_ctrl m' = Idle ∧ m_heap m' = m_heap m ∧ m_values m' = rest
    ∧ ∃ ds, m_destroyed m' = ds ++ m_destroyed m ∧ ds ≡ₚ seq (m_next m) (m_next m' - m_next m).
Proof.
  intros Hfr Hev.
  destruct (run_created m b true o rest Hfr Hev) as (n & m1 & Hrun & Hc & Hv & Hheap & Hn & _ & ds & Hd & Hp).
  set (h := m_next m) in *. set (f := finish o (set_released true (new_frame b))) in *.
  assert (Hrel : released_ f = true) by by destruct o.
  set (m2 := mkMachine (delete h (<[h := set_completed f]> (m_heap m1))) (m_next m1) (h :: m_destroyed m1) (m_values m1) Idle).
  assert (Hfin : run 1 m1 = Some m2).
  { eapply (run_step _ _ _ 0); [|done]. unfold step. rewrite Hc. unfold final_suspend.
    rewrite Hheap, lookup_insert_eq. simpl. rewrite Hrel. unfold destroy. simpl. rewrite lookup_insert_eq.
    unfold m2. by rewrite Hheap. }
  exists (n + 1)%nat, m2. split.
  - simpl. fold h. rewrite alter_insert_eq.
    assert (H := run_app _ _ _ _ _ Hrun Hfin). unfold create, set_ctrl, set_heap in *. simpl in *. done.
  - simpl. split_and!; [done| |done|].
    + rewrite Hheap, insert_insert_eq, delete_insert_id; [done|]. apply Hfr. done.
    + exists (h :: ds). split; [by rewrite Hd|done].
Qed.

(** ** Samples *)

(** Awaits a child that throws, catches, suspends once and adds up. *)
Definition sample_body : Body :=
  BAwait (BSuspend (λ v, BThrow (v + 1)))
    (λ o, match o with Exn e => BSuspend (λ v, BReturn (e + v)) | Val v => BReturn v end).

Definition sample_machine : Machine := mkMachine ∅ 0 [] [10; 20; 30] Idle.

Example sample_eval : eval sample_body [10; 20; 30] = Some (Val 31, [30]).
Proof. reflexivity. Qed.

(** Awaits a child and is never suspended. *)
Definition plain_body : Body := BAwait (BReturn 4) (λ o, match o with Val v => BReturn (v + 1) | Exn e => BThrow e end).

Lemma blocking_run_is_eval_witness :
  (let h := snd (create sample_machine sample_body) in
   ∃ s, steps (blocking_step h) (blocking_start (fst (create sample_machine sample_body)) h) s
     ∧ br_caller s = CReturned (Val 31) ∧ m_values (br_m s) = [30])
  ∧ (let h := snd (create sample_machine plain_body) in
   ∃ s, steps (blocking_step h) (blocking_start (fst (create sample_machine plain_body)) h) s
     ∧ br_caller s = CReturned (Val 5) ∧ br_dead_reads s = 0%nat ∧ m_heap (br_m s) = ∅).
Proof.
  split; intros h.
  - destruct (blocking_run_is_eval sample_machine sample_body (Val 31) [30]
      (blocking_start (fst (create sample_machine sample_body)) h)) as (_ & (s & Hs & Hr) & _);
      [intros i _; reflexivity|reflexivity|apply steps_refl|].
    destruct (blocking_run_is_eval sample_machine sample_body (Val 31) [30] s) as (H & _ & _);
      [intros i _; reflexivity|reflexivity|exact Hs|].
    exists s. split; [exact Hs|]. split; [exact Hr|]. destruct (H _ Hr) as (_ & Hv & _). exact Hv.
  - destruct (blocking_run_is_eval sample_machine plain_body (Val 5) [10; 20; 30]
      (blocking_start (fst (create sample_machine plain_body)) h)) as (_ & (s & Hs & Hr) & _);
      [intros i _; reflexivity|reflexivity|apply steps_refl|].
    destruct (blocking_run_is_eval sample_machine plain_body (Val 5) [10; 20; 30] s) as (H & _ & Hd);
      [intros i _; reflexivity|reflexivity|exact Hs|].
    exists s. split; [exact Hs|]. split; [exact Hr|]. split; [apply Hd; reflexivity|]. apply (H _ Hr), Hd. reflexivity.
Defined.

(** One more step of the call. *)
Ltac blocking_run c := eapply steps_trans; [apply steps_once; eapply c; first [done|by vm_compute|by left|by right]|].

(** A body that is suspended once and resumed by another thread: the caller sees
    [completed_] as soon as it is stored and destroys the frame, out of which
    the final suspend point then reads [released_]; what is left there may make
    it destroy the frame a second time. *)
Theorem blocking_run_races_final_suspend :
  let m := mkMachine ∅ 0 [] [5] Idle in let b := BSuspend BReturn in
  ∃ s, steps (blocking_step (snd (create m b))) (blocking_start (fst (create m b)) (snd (create m b))) s
    ∧ br_caller s = CReturned (Val 5) ∧ br_dead_reads s = 1%nat ∧ m_destroyed (br_m s) = [0; 0]%nat.
Proof.
  intros m b. eexists. split.
  - blocking_run b_run. blocking_run b_run. blocking_run b_back. blocking_run b_run. blocking_run b_run.
    blocking_run b_store. blocking_run b_done. blocking_run b_released_dead. apply steps_refl.
  - split_and!; reflexivity.
Qed.

Lemma released_task_frees_itself_witness :
  ∃ n m', run n (set_ctrl (fst (release (fst (create sample_machine sample_body)) (Some (snd (create sample_machine sample_body)))))
                   (Resuming (snd (create sample_machine sample_body)))) = Some m'
    ∧ m_ctrl m' = Idle ∧ m_heap m' = ∅ ∧ m_values m' = [30]
    ∧ ∃ ds, m_destroyed m' = ds ++ [] ∧ ds ≡ₚ seq 0 (m_next m' - 0).
Proof. apply (released_task_frees_itself sample_machine sample_body (Val 31) [30]); [intros i _; reflexivity|reflexivity]. Defined.
