(* ===== verification/CoroApi.v ===== *)
(** The coroutine API ([coro_api.h]): the shared state of a coroutine made by
    [coro_create] with [coro_join] and [coro_detach], the owner class
    [coro_thread], and [when_all]; the owner class [AffinityScopedLock] of
    [affinity_mutex.h]; and [OnlineWorker::co_submit].

    Each part is a transition system with one step per access to the shared
    state, so the routine and the coroutines that wait for it may be
    interleaved in any way. *)
From S2P Require Import Prelude Waiters Mutex Semaphore CoroTask.

(** ** [coro_create], [coro_join], [coro_detach] *)
Module Lifecycle.

(** Progress of the created coroutine, of a joiner and of a detacher. *)
Inductive RPc := RQueued | RRan | RDone | RPosted | REnd | RThrew.
Inductive JPc := JNone | JWaiting | JReady | JGot (ret : Z).
Inductive DPc := DNone | DSet | DEnd.

(** [coro_state]; [deletes] counts the [delete]s of it and [bad_use] records an
    access after the first. *)
Record coro := mkCoro {
  retval : Z;
  detached : bool;
  done : bool;
  posted : bool;
  deletes : nat;
  bad_use : bool;
  rpc : RPc;
  jpc : JPc;
  dpc : DPc
}.

Definition coro0 : coro := mkCoro 0 false false false 0 false RQueued JNone DNone.

Definition gone (s : coro) : bool := bool_decide (deletes s ≠ 0%nat).
(** An access to the state. *)
Definition touch (s : coro) : bool := bad_use s || gone s.

Section Steps.
Context (fn : Outcome).    (* what [start_routine(arg)] returns or throws *)

(** The lambda of [coro_create]; an exception of the routine is kept by the
    promise and ends the coroutine there. *)
Definition r_run (s : coro) : coro :=
  match fn with
  | Val v => mkCoro v (detached s) (done s) (posted s) (deletes s) (touch s) RRan (jpc s) (dpc s)
  | Exn _ => mkCoro (retval s) (detached s) (done s) (posted s) (deletes s) (bad_use s) RThrew (jpc s) (dpc s)
  end.
Definition r_done (s : coro) : coro :=
  mkCoro (retval s) (detached s) true (posted s) (deletes s) (touch s) RDone (jpc s) (dpc s).
(** [baton.post()]: a suspended joiner becomes ready on its own worker. *)
Definition r_post (s : coro) : coro :=
  mkCoro (retval s) (detached s) (done s) true (deletes s) (touch s) RPosted
    (match jpc s with JWaiting => JReady | j => j end) (dpc s).
Definition r_check (s : coro) : coro :=
  mkCoro (retval s) (detached s) (done s) (posted s) (if detached s then S (deletes s) else deletes s)
    (touch s) REnd (jpc s) (dpc s).

(** [coro_join]: [await_ready], [await_suspend]; then [await_resume]. *)
Definition j_await (s : coro) : coro :=
  mkCoro (retval s) (detached s) (done s) (posted s) (deletes s) (touch s) (rpc s)
    (if posted s then JReady else JWaiting) (dpc s).
Definition j_resume (s : coro) : coro :=
  mkCoro (retval s) (detached s) (done s) (posted s) (S (deletes s)) (touch s) (rpc s) (JGot (retval s)) (dpc s).

(** [coro_detach]: set the flag, then look at [done]. *)
Definition d_set (s : coro) : coro :=
  mkCoro (retval s) true (done s) (posted s) (deletes s) (touch s) (rpc s) (jpc s) DSet.
Definition d_load (s : coro) : coro :=
  mkCoro (retval s) (detached s) (done s) (posted s) (if done s then S (deletes s) else deletes s)
    (touch s) (rpc s) (jpc s) DEnd.

(** Any interleaving; the handle is joined or detached, not both. *)
Inductive cstep : coro → coro → Prop :=
| c_run s : rpc s = RQueued → cstep s (r_run s)
| c_done s : rpc s = RRan → cstep s (r_done s)
| c_post s : rpc s = RDone → cstep s (r_post s)
| c_check s : rpc s = RPosted → cstep s (r_check s)
| c_await s : jpc s = JNone → dpc s = DNone → cstep s (j_await s)
| c_resume s : jpc s = JReady → cstep s (j_resume s)
| c_set s : jpc s = JNone → dpc s = DNone → cstep s (d_set s)
| c_load s : dpc s = DSet → cstep s (d_load s).

(** The turns of one worker: the routine is an ordinary function call, so the
    lambda runs to its end without suspending, and so does [coro_detach]. *)
Definition r_turn (s : coro) : coro :=
  match fn with Val _ => r_check (r_post (r_done (r_run s))) | Exn _ => r_run s end.

Inductive tstep : coro → coro → Prop :=
| t_routine s : rpc s = RQueued → tstep s (r_turn s)
| t_await s : jpc s = JNone → dpc s = DNone → tstep s (j_await s)
| t_resume s : jpc s = JReady → tstep s (j_resume s)
| t_detach s : jpc s = JNone → dpc s = DNone → tstep s (d_load (d_set s)).

(** The states between turns. *)
Definition before_routine : list coro :=
  [coro0; mkCoro 0 false false false 0 false RQueued JWaiting DNone;
   mkCoro 0 true false false 0 false RQueued JNone DEnd].
Definition after_routine : list coro :=
  match fn with
  | Val v =>
      [mkCoro v false true true 0 false REnd JNone DNone; mkCoro v false true true 0 false REnd JReady DNone;
       mkCoro v false true true 1 false REnd (JGot v) DNone; mkCoro v true true true 1 false REnd JNone DEnd]
  | Exn _ =>
      [mkCoro 0 false false false 0 false RThrew JNone DNone; mkCoro 0 false false false 0 false RThrew JWaiting DNone;
       mkCoro 0 true false false 0 false RThrew JNone DEnd]
  end.
Definition between_turns : list coro := before_routine ++ after_routine.

(** Find an element in a list of explicit members. *)
Ltac find_member := repeat (apply elem_of_cons; first [left; reflexivity | right]).

Lemma turn_closed s s' : s ∈ between_turns → tstep s s' → s' ∈ between_turns.
Proof.
  unfold between_turns, before_routine, after_routine. intros Hs Hstep.
  destruct Hstep; unfold r_turn, r_run in *; destruct fn; simpl in Hs; 
    repeat (apply elem_of_cons in Hs as [->|Hs]); try (by apply elem_of_nil in Hs);
    simpl in *; try done; find_member.
Qed.

Lemma between_turns_inv s : steps tstep coro0 s → s ∈ between_turns.
Proof.
  intros Hs. apply (steps_invariant tstep (λ s, s ∈ between_turns) coro0 s); [apply list_elem_of_here| |done].
  apply turn_closed.
Qed.
End Steps.

(** C31: when the creator, the joiner and the coroutine take turns on one
    worker, the shared state of a coroutine is never touched after it was
    deleted and deleted at most once; a join returns what the routine returned,
    after it has finished; and once the routine has finished and its handle was
    joined to the end or detached, the state has been deleted. A routine that
    throws is different: its joiner is never resumed and the state is never
    deleted. *)
Theorem coro_state_freed_once (fn : Outcome) (s : coro) :
  steps (tstep fn) coro0 s →
  bad_use s = false ∧ (deletes s ≤ 1)%nat
  ∧ (∀ r, jpc s = JGot r → fn = Val r ∧ done s = true)
  ∧ (rpc s = REnd → dpc s = DEnd ∨ (∃ r, jpc s = JGot r) → deletes s = 1%nat)
  ∧ (∀ e, fn = Exn e → deletes s = 0%nat ∧ (jpc s = JNone ∨ jpc s = JWaiting)).
Proof.
  intros Hin%between_turns_inv. unfold between_turns, before_routine, after_routine in Hin.
  destruct fn; simpl in Hin; repeat (apply elem_of_cons in Hin as [->|Hin]); try (by apply elem_of_nil in Hin);
    simpl; split_and!; try done; try lia; intros; naive_solver.
Qed.

Lemma coro_state_freed_once_witness :
  bad_use (j_resume (r_turn (Val 7) (j_await coro0))) = false
  ∧ deletes (j_resume (r_turn (Val 7) (j_await coro0))) = 1%nat.
Proof.
  assert (Hs : steps (tstep (Val 7)) coro0 (j_resume (r_turn (Val 7) (j_await coro0)))).
  { eapply steps_snoc; [eapply steps_snoc; [eapply steps_snoc; [apply steps_refl|by apply t_await]|by apply t_routine]|].
    by apply t_resume. }
  destruct (coro_state_freed_once (Val 7) _ Hs) as (H1 & _ & _ & H4 & _). split; [exact H1|].
  apply H4; [reflexivity|]. right. eexists. reflexivity.
Defined.

(** Detaching from another worker while the routine finishes can delete the
    state twice: the routine sees [detached] and the detacher sees [done]. *)
Theorem coro_detach_double_delete (v : Z) :
  ∃ s, steps (cstep (Val v)) coro0 s ∧ deletes s = 2%nat.
Proof.
  exists (r_check (d_load (r_post (d_set (r_done (r_run (Val v) coro0)))))). split; [|done].
  eapply steps_snoc; [|by apply c_check]. eapply steps_snoc; [|by apply c_load].
  eapply steps_snoc; [|by apply c_post]. eapply steps_snoc; [|by apply c_set].
  eapply steps_snoc; [|by apply c_done]. eapply steps_snoc; [apply steps_refl|by apply c_run].
Qed.

(** A joiner on another worker deletes the state while the routine still has
    to read [detached]. *)
Theorem coro_join_read_after_delete (v : Z) :
  ∃ s, steps (cstep (Val v)) coro0 s ∧ bad_use s = true.
Proof.
  exists (r_check (j_resume (r_post (r_done (r_run (Val v) (j_await coro0)))))). split; [|done].
  eapply steps_snoc; [|by apply c_check]. eapply steps_snoc; [|by apply c_resume].
  eapply steps_snoc; [|by apply c_post]. eapply steps_snoc; [|by apply c_done].
  eapply steps_snoc; [|by apply c_run]. eapply steps_snoc; [apply steps_refl|by apply c_await].
Qed.
End Lifecycle.

(** ** Return codes *)
Module Codes.
Definition EINVAL : Z := 22.
Definition ENXIO : Z := 6.

(** [coro_create]: pointers as addresses, 0 for null; what it does on success
    is to queue the coroutine and to store its handle. *)
Inductive CreateResult := CreateError (rc : Z) | Created.
Definition coro_create (out start_routine worker : Z) : CreateResult :=
  if (out =? 0) || (start_routine =? 0) then CreateError (- EINVAL)
  else if worker =? 0 then CreateError (- ENXIO)
  else Created.

(** What the wrappers call once their pointer is not null. *)
Inductive Call := CMutexInit (m : mutex) | CMutexDestroy | CMutexUnlock | CSemInit (s : semaphore) | CSemDestroy | CSemPost | CDetach.

(** A null pointer is refused, else the call is forwarded. *)
Definition guarded (ptr : Z) (call : Call) : Z * option Call :=
  if ptr =? 0 then (- EINVAL, None) else (0, Some call).
Definition coro_mutex_init (m : Z) : Z * option Call := guarded m (CMutexInit mutex_init).
Definition coro_mutex_destroy (m : Z) : Z * option Call := guarded m CMutexDestroy.
Definition coro_mutex_unlock (m : Z) : Z * option Call := guarded m CMutexUnlock.
Definition coro_sem_init (m value : Z) : Z * option Call := guarded m (CSemInit (sem_init value)).
Definition coro_sem_destroy (m : Z) : Z * option Call := guarded m CSemDestroy.
Definition coro_sem_post (m : Z) : Z * option Call := guarded m CSemPost.
Definition coro_detach (h : Z) : Z * option Call := guarded h CDetach.
End Codes.

(** ** [coro_thread] *)
Module Thread.

(** The objects of a program, by number: each holds a handle or null.
    Handles are fresh numbers. *)
Record threads := mkThreads {
  objs : list (option Z);
  next : Z;
  joined : list Z;
  detached : list Z
}.
Definition threads0 : threads := mkThreads [] 0 [] [].

Definition joinable (t : threads) (i : nat) : bool :=
  match objs t !! i with Some (Some _) => true | _ => false end.

(** [detach] *)
Definition detach (t : threads) (i : nat) : threads :=
  match objs t !! i with
  | Some (Some h) => mkThreads (<[i := None]> (objs t)) (next t) (joined t) (h :: detached t)
  | _ => t
  end.

Inductive op :=
| Default                       (* [coro_thread()] *)
| Spawn (on_worker : bool)      (* the spawning constructor *)
| MoveNew (j : nat)             (* move construction from object [j] *)
| MoveAssign (i j : nat)
| Join (i : nat)
| Detach (i : nat)
| Destroy (i : nat).

Definition take (t : threads) (j : nat) : threads * option Z :=
  match objs t !! j with
  | Some h => (mkThreads (<[j := None]> (objs t)) (next t) (joined t) (detached t), h)
  | None => (t, None)
  end.

Definition push (t : threads) (h : option Z) : threads := mkThreads (objs t ++ [h]) (next t) (joined t) (detached t).

Definition exec (t : threads) (o : op) : threads :=
  match o with
  | Default => push t None
  | Spawn true => push (mkThreads (objs t) (next t + 1) (joined t) (detached t)) (Some (next t))
  | Spawn false => push t None
  | MoveNew j => let '(t1, h) := take t j in push t1 h
  | MoveAssign i j =>
      match objs t !! i with
      | None => t
      | Some _ =>
          let t1 := if joinable t i then detach t i else t in
          let '(t2, h) := take t1 j in
          mkThreads (<[i := h]> (objs t2)) (next t2) (joined t2) (detached t2)
      end
  | Join i =>
      match objs t !! i with
      | Some (Some h) => mkThreads (<[i := None]> (objs t)) (next t) (h :: joined t) (detached t)
      | _ => t        (* [coro_join(nullptr)] is outside the contract *)
      end
  | Detach i => detach t i
  | Destroy i => if joinable t i then detach t i else t
  end.

Definition live (t : threads) : list Z := objs t ≫= option_list.
Definition handles (t : threads) : list Z := live t ++ joined t ++ detached t.

(** All handles given out so far. *)
Definition given (t : threads) : list Z := seqZ 0 (next t).

Lemma live_insert (l : list (option Z)) i o o' z :
  l !! i = Some o →
  (occ z (<[i := o']> l ≫= option_list) + occ z (option_list o)
   = occ z (l ≫= option_list) + occ z (option_list o'))%nat.
Proof.
  revert i. induction l as [|x l IH]; intros [|i] Hi; simplify_eq/=; rewrite !occ_app; [lia|].
  specialize (IH _ Hi). lia.
Qed.

(** The balance: every handle given out is held, joined or detached once. *)
Definition balanced (t : threads) : Prop := 0 ≤ next t ∧ ∀ z, occ z (handles t) = occ z (given t).

Lemma balanced_move t i o h js ds :
  balanced t → objs t !! i = Some o →
  (∀ z, occ z js + occ z ds + occ z (option_list h) = occ z (joined t) + occ z (detached t) + occ z (option_list o))%nat →
  balanced (mkThreads (<[i := h]> (objs t)) (next t) js ds).
Proof.
  intros [Hn Hb] Hi Hz. split; [done|]. intros z. specialize (Hb z). specialize (Hz z).
  assert (Hl := live_insert (objs t) i o h z Hi). unfold handles, live, given in *. simpl. rewrite !occ_app in *. lia.
Qed.

Lemma balanced_detach t i : balanced t → balanced (detach t i).
Proof.
  intros Hb. unfold detach. destruct (objs t !! i) as [[h|]|] eqn:E; [|done..].
  apply (balanced_move t i (Some h)); [done..|]. intros z. simpl. rewrite (occ_cons z h (detached t)), ?occ_nil. lia.
Qed.

Lemma balanced_push_none t : balanced t → balanced (push t None).
Proof.
  intros [Hn Hb]. split; [done|]. intros z. specialize (Hb z). unfold handles, live, given in *. simpl.
  rewrite bind_app. simpl. rewrite ?occ_app, ?occ_nil in *. simpl. lia.
Qed.

(** Taking the handle of object [j] and giving it to another place. *)
Lemma balanced_push_taken t j o :
  balanced t → objs t !! j = Some o → balanced (push (mkThreads (<[j := None]> (objs t)) (next t) (joined t) (detached t)) o).
Proof.
  intros [Hn Hb] Hj. split; [done|]. intros z. specialize (Hb z). assert (Hl := live_insert (objs t) j o None z Hj).
  unfold handles, live, given in *. simpl in *. rewrite bind_app. simpl. rewrite ?occ_app, ?occ_nil in *. lia.
Qed.

Lemma balanced_assign t i j : balanced t → objs t !! i = Some None →
  balanced (let '(t2, h) := take t j in mkThreads (<[i := h]> (objs t2)) (next t2) (joined t2) (detached t2)).
Proof.
  intros Hb Hi. unfold take. destruct (objs t !! j) as [h|] eqn:Ej.
  2:{ apply (balanced_move t i None); [done..|]. intros z. simpl. rewrite ?occ_nil. lia. }
  destruct Hb as [Hn Hb]. split; [done|]. intros z. specialize (Hb z). simpl.
  assert (Hl := live_insert (objs t) j h None z Ej).
  assert (Hi2 : <[j := None]> (objs t) !! i = Some None).
  { destruct (decide (i = j)) as [->|]; [apply list_lookup_insert_eq; by eapply lookup_lt_Some|by rewrite list_lookup_insert_ne]. }
  assert (Hl2 := live_insert (<[j := None]> (objs t)) i None h z Hi2).
  unfold handles, live, given in *. simpl in *. rewrite !occ_app, ?occ_nil in *. lia.
Qed.

Lemma balanced_spawn t :
  balanced t → balanced (push (mkThreads (objs t) (next t + 1) (joined t) (detached t)) (Some (next t))).
Proof.
  intros [Hn Hb]. split; [simpl; lia|]. intros z. specialize (Hb z). unfold handles, live, given in *. simpl.
  rewrite bind_app, (seqZ_app 0 (next t) 1) by lia.
  assert (seqZ (0 + next t) 1 = [next t]) as -> by (unfold seqZ; simpl; f_equal; lia). simpl. rewrite ?occ_app, ?occ_nil in *. simpl. lia.
Qed.

Lemma balanced_exec t o : balanced t → balanced (exec t o).
Proof.
  intros Hb. destruct o as [|[]|j|i j|i|i|i]; simpl.
  - by apply balanced_push_none.
  - by apply balanced_spawn.
  - by apply balanced_push_none.
  - unfold take. destruct (objs t !! j) eqn:E; [by apply balanced_push_taken|by apply balanced_push_none].
  - destruct (objs t !! i) as [o|] eqn:Ei; [|done]. unfold joinable, detach. rewrite Ei.
    destruct o as [h|]; [|by apply balanced_assign].
    assert (Hd := balanced_detach t i Hb). unfold detach in Hd. rewrite Ei in Hd.
    apply balanced_assign; [done|]. apply list_lookup_insert_eq. by eapply lookup_lt_Some.
  - destruct (objs t !! i) as [[h|]|] eqn:E; [|done..].
    apply (balanced_move t i (Some h)); [done..|]. intros z. simpl. rewrite (occ_cons z h (joined t)), ?occ_nil. lia.
  - by apply balanced_detach.
  - destruct (joinable t i); [by apply balanced_detach|done].
Qed.

(** Over any sequence of constructions, moves, joins, detaches and
    destructions of [coro_thread] objects, every coroutine that was spawned is
    held by exactly one object, or was joined exactly once, or detached exactly
    once; in particular, when no object holds a handle any more, each was
    joined or detached exactly once. *)
Theorem coro_thread_owns_once (ops : list op) :
  let t := fold_left exec ops threads0 in
  handles t ≡ₚ given t ∧ NoDup (handles t) ∧ (live t = [] → joined t ++ detached t ≡ₚ given t).
Proof.
  intros t. assert (Hb : balanced t).
  { subst t. assert (H0 : balanced threads0) by (split; [done|]; intros z; done). revert H0. generalize threads0.
    induction ops as [|o ops IH]; intros t0 H0; simpl; [done|]. by apply IH, balanced_exec. }
  destruct Hb as [_ Hb]. assert (HP : handles t ≡ₚ given t) by (apply occ_perm; exact Hb).
  split_and!; [done|rewrite HP; apply NoDup_seqZ|]. intros Hl. unfold handles in HP. rewrite Hl in HP. done.
Qed.
End Thread.

(** ** [AffinityScopedLock] ([affinity_mutex.h]) *)
Module Guard.

(** The guards of a program, by number: each holds an acquisition of the mutex
    or null; [unlocked] lists the acquisitions that were given back by a call
    of [AffinityMutex::unlock]. *)
Record guards := mkGuards { gobjs : list (option Z); acquired : Z; unlocked : list Z }.
Definition guards0 : guards := mkGuards [] 0 [].

Inductive gop :=
| GDefault
| GAcquire                      (* the guard [co_await co_scoped_lock()] returns *)
| GMoveNew (j : nat)
| GMoveAssign (i j : nat)
| GUnlock (i : nat)
| GDestroy (i : nat).

Definition unlock (g : guards) (i : nat) : guards :=
  match gobjs g !! i with
  | Some (Some h) => mkGuards (<[i := None]> (gobjs g)) (acquired g) (h :: unlocked g)
  | _ => g
  end.
Definition take (g : guards) (j : nat) : guards * option Z :=
  match gobjs g !! j with
  | Some h => (mkGuards (<[j := None]> (gobjs g)) (acquired g) (unlocked g), h)
  | None => (g, None)
  end.
Definition gexec (g : guards) (o : gop) : guards :=
  match o with
  | GDefault => mkGuards (gobjs g ++ [None]) (acquired g) (unlocked g)
  | GAcquire => mkGuards (gobjs g ++ [Some (acquired g)]) (acquired g + 1) (unlocked g)
  | GMoveNew j => let '(g1, h) := take g j in mkGuards (gobjs g1 ++ [h]) (acquired g1) (unlocked g1)
  | GMoveAssign i j =>
      match gobjs g !! i with
      | None => g
      | Some _ =>
          let '(g1, h) := take (unlock g i) j in mkGuards (<[i := h]> (gobjs g1)) (acquired g1) (unlocked g1)
      end
  | GUnlock i | GDestroy i => unlock g i
  end.

(** A guard is a [coro_thread] that is never joined. *)
Definition as_threads (g : guards) : Thread.threads := Thread.mkThreads (gobjs g) (acquired g) [] (unlocked g).
Definition as_op (o : gop) : Thread.op :=
  match o with
  | GDefault => Thread.Default
  | GAcquire => Thread.Spawn true
  | GMoveNew j => Thread.MoveNew j
  | GMoveAssign i j => Thread.MoveAssign i j
  | GUnlock i => Thread.Detach i
  | GDestroy i => Thread.Destroy i
  end.

Lemma unlock_as_detach g i : as_threads (unlock g i) = Thread.detach (as_threads g) i.
Proof. unfold unlock, Thread.detach. simpl. by destruct (gobjs g !! i) as [[]|]. Qed.

Lemma take_as_take g j : Thread.take (as_threads g) j = (as_threads (take g j).1, (take g j).2).
Proof. unfold take, Thread.take. simpl. by destruct (gobjs g !! j). Qed.

Lemma gexec_as_exec g o : as_threads (gexec g o) = Thread.exec (as_threads g) (as_op o).
Proof.
  assert (Hd : ∀ i, Thread.detach (as_threads g) i
    = if Thread.joinable (as_threads g) i then Thread.detach (as_threads g) i else as_threads g).
  { intros i. unfold Thread.detach, Thread.joinable. by destruct (Thread.objs (as_threads g) !! i) as [[]|]. }
  destruct o as [| |j|i j|i|i]; simpl; try done.
  - rewrite take_as_take. by destruct (take g j).
  - destruct (gobjs g !! i); [|done]. rewrite <- Hd, <- unlock_as_detach, take_as_take. by destruct (take (unlock g i) j).
  - apply unlock_as_detach.
  - rewrite <- Hd. apply unlock_as_detach.
Qed.

(** Over any sequence of acquisitions, moves, unlocks and destructions of
    guards, each acquisition of the mutex is held by one guard or was unlocked
    exactly once. *)
Theorem guard_unlocks_once (ops : list gop) :
  let g := fold_left gexec ops guards0 in
  (gobjs g ≫= option_list) ++ unlocked g ≡ₚ seqZ 0 (acquired g).
Proof.
  intros g. assert (Hb : Thread.balanced (as_threads g)).
  { subst g. assert (H0 : Thread.balanced (as_threads guards0)) by (split; [done|]; intros z; done).
    revert H0. generalize guards0. induction ops as [|o ops IH]; intros g0 H0; simpl; [done|].
    apply IH. rewrite gexec_as_exec. by apply Thread.balanced_exec. }
  destruct Hb as [_ Hb]. apply occ_perm. exact Hb.
Qed.
End Guard.

(** ** [when_all] *)
Module WhenAll.

(** A spawned task: queued, its result stored, its decrement done (and last),
    finished; ended by an exception of its callable; or dropped, because the
    caller runs on no executor. *)
Inductive TPc := TQueued | TStored | TLast | TFinished | TThrew | TDropped.

(** Where [spawn_one] submits. *)
Inductive Context_ := OnOnlineWorker | OnExecutor | Outside.

(** [SharedState] with the awaiter: [resumed] is what it read, if it has. *)
Record shared := mkShared {
  remaining : Z;
  posts : nat;
  results : list (option Z);
  pcs : list TPc;
  resumed : option (list (option Z))
}.

Section Steps.
Context (fs : list Outcome).     (* what the callables return or throw *)

(** [when_all]: with no callables the baton is posted at once. *)
Definition start (ctx : Context_) : shared :=
  let n := length fs in
  mkShared (Z.of_nat n) (match n with O => 1 | _ => 0 end) (replicate n None)
    (replicate n (match ctx with Outside => TDropped | _ => TQueued end)) None.

(** The first half of a task: run the callable and keep its result. *)
Definition store_result (s : shared) (i : nat) : shared :=
  match fs !! i with
  | Some (Val v) => mkShared (remaining s) (posts s) (<[i := Some v]> (results s)) (<[i := TStored]> (pcs s)) (resumed s)
  | _ => mkShared (remaining s) (posts s) (results s) (<[i := TThrew]> (pcs s)) (resumed s)
  end.
(** [fetch_sub(1) == 1] *)
Definition decrement (s : shared) (i : nat) : shared :=
  mkShared (remaining s -64 1) (posts s) (results s)
    (<[i := if remaining s =? 1 then TLast else TFinished]> (pcs s)) (resumed s).
Definition post (s : shared) (i : nat) : shared :=
  mkShared (remaining s) (S (posts s)) (results s) (<[i := TFinished]> (pcs s)) (resumed s).
(** [await_resume], once the baton is posted. *)
Definition resume (s : shared) : shared :=
  mkShared (remaining s) (posts s) (results s) (pcs s) (Some (results s)).

Inductive wstep : shared → shared → Prop :=
| s_store s i : pcs s !! i = Some TQueued → wstep s (store_result s i)
| s_decrement s i : pcs s !! i = Some TStored → wstep s (decrement s i)
| s_post s i : pcs s !! i = Some TLast → wstep s (post s i)
| s_resume s : (0 < posts s)%nat → resumed s = None → wstep s (resume s).

#[export] Instance TPc_eq : EqDecision TPc.
Proof. solve_decision. Defined.
#[export] Instance Context_eq : EqDecision Context_.
Proof. solve_decision. Defined.

(** Tasks that have not decremented the counter yet. *)
Definition pending (s : shared) : nat := (occ TQueued (pcs s) + occ TStored (pcs s) + occ TThrew (pcs s))%nat.
Definition stored (pc : TPc) : Prop := pc = TStored ∨ pc = TLast ∨ pc = TFinished.

Definition has_result (s : shared) (i : nat) : Prop :=
  ∃ v, fs !! i = Some (Val v) ∧ results s !! i = Some (Some v).

Record all_inv (s : shared) : Prop := {
  ai_results : length (results s) = length fs;
  ai_pcs : length (pcs s) = length fs;
  ai_remaining : remaining s = Z.of_nat (pending s);
  ai_dropped : occ TDropped (pcs s) = 0%nat;
  ai_posts : (posts s + occ TLast (pcs s) = if decide (pending s = 0) then 1 else 0)%nat;
  ai_stored i pc : pcs s !! i = Some pc → stored pc → has_result s i;
  ai_resumed rs : resumed s = Some rs → ∃ vs, fs = Val <$> vs ∧ rs = Some <$> vs
}.

(** Once nothing is pending every result is in place. *)
Lemma all_stored s : all_inv s → pending s = 0%nat → ∃ vs, fs = Val <$> vs ∧ results s = Some <$> vs.
Proof.
  intros [Hr Hp _ Hd _ Hst _] H0.
  assert (Hall : ∀ i, (i < length fs)%nat → has_result s i).
  { intros i Hi. rewrite <- Hp in Hi. apply lookup_lt_is_Some_2 in Hi as [pc E]. apply (Hst _ _ E).
    unfold pending in H0. assert (pc ≠ TQueued ∧ pc ≠ TStored ∧ pc ≠ TThrew ∧ pc ≠ TDropped) as (? & ? & ? & ?).
    { apply list_elem_of_lookup_2 in E. split_and!; intros ->; by apply occ_zero in E; [|lia]. }
    unfold stored. destruct pc; tauto. }
  clear -Hr Hall. unfold has_result in Hall. revert Hr Hall. generalize (results s). clear s.
  induction fs as [|f l IH]; intros [|r rs] Hr Hall; try done; [by exists []|].
  destruct (Hall 0%nat ltac:(simpl; lia)) as (v & [= ->] & [= ->]).
  destruct (IH rs) as (vs & -> & ->); [by simplify_eq/=| |by exists (v :: vs)].
  intros i Hi. apply (Hall (S i)). simpl. lia.
Qed.

(** Counting after one task has moved from [a] to [b]. *)
Ltac recount Hi b :=
  pose proof (λ z, occ_insert z _ _ _ b Hi) as Hocc;
  pose proof (Hocc TQueued); pose proof (Hocc TStored); pose proof (Hocc TLast); pose proof (Hocc TThrew);
  pose proof (Hocc TDropped);
  clear Hocc; rewrite !occ_one in *; simpl in *.

Lemma stored_insert s i a b j pc :
  all_inv s → pcs s !! i = Some a → stored a → <[i := b]> (pcs s) !! j = Some pc → stored pc → has_result s j.
Proof.
  intros Hinv Hi Ha Hj Hpc. destruct (decide (j = i)) as [->|Hne]; [by eapply ai_stored|].
  rewrite list_lookup_insert_ne in Hj by done. by eapply ai_stored.
Qed.

(** A task takes its callable's result, or ends with its exception. *)
Lemma all_inv_store s i : all_inv s → pcs s !! i = Some TQueued → all_inv (store_result s i).
Proof.
  intros Hinv Hi. assert (Hinv0 := Hinv). destruct Hinv as [Hr Hp Hrem Hd Hpo Hst Hres]. unfold pending in *.
  unfold store_result. destruct (fs !! i) as [[v|e]|] eqn:Ef;
    [recount Hi TStored|recount Hi TThrew|recount Hi TThrew];
    split; unfold pending; simpl; rewrite ?length_insert; try done; try lia; try (repeat case_decide; lia);
    intros j pc Hj Hpc; (destruct (decide (j = i)) as [->|Hne];
      [|rewrite list_lookup_insert_ne in Hj by done; destruct (Hst j pc Hj Hpc) as (w & ? & ?); exists w; split; [done|];
        simpl; by rewrite ?list_lookup_insert_ne by done]).
  - exists v. split; [done|]. simpl. apply list_lookup_insert_eq. apply lookup_lt_Some in Hi. lia.
  - rewrite list_lookup_insert_eq in Hj by (by eapply lookup_lt_Some). destruct Hpc as [-> | [-> | ->]]; done.
  - apply lookup_lt_Some in Hi. apply lookup_ge_None in Ef. lia.
Qed.

Lemma all_inv_decrement s i :
  Z.of_nat (length fs) < W64 → all_inv s → pcs s !! i = Some TStored → all_inv (decrement s i).
Proof.
  intros HN Hinv Hi. assert (Hinv0 := Hinv). destruct Hinv as [Hr Hp Hrem Hd Hpo Hst Hres]. unfold pending in *.
  set (b := if remaining s =? 1 then TLast else TFinished).
  assert (Hq : (0 < occ TStored (pcs s))%nat).
  { destruct (occ TStored (pcs s)) eqn:E; [|lia]. apply occ_zero in E. by apply list_elem_of_lookup_2 in Hi. }
  assert (Hle : (occ TQueued (pcs s) + occ TStored (pcs s) + occ TThrew (pcs s) ≤ length fs)%nat).
  { rewrite <- Hp. clear. induction (pcs s) as [|a l IH]; [done|]. rewrite !(occ_cons _ a l), !occ_one. simpl.
    destruct a; simpl; lia. }
  assert (Hw : remaining s -64 1 = remaining s - 1) by (apply wrap64_small; unfold W64 in *; lia).
  recount Hi b.
  split; unfold pending; simpl; rewrite ?length_insert, ?Hw; fold b; try done.
  1-3: unfold b in *; destruct (Z.eqb_spec (remaining s) 1); simpl in *; repeat case_decide; lia.
  intros j pc Hj Hpc. eapply (stored_insert s i TStored b); eauto. by left.
Qed.

Lemma all_inv_step s s' : Z.of_nat (length fs) < W64 → all_inv s → wstep s s' → all_inv s'.
Proof.
  intros HN Hinv Hstep. destruct Hstep as [s i Hi|s i Hi|s i Hi|s Hpos Hn];
    [by apply all_inv_store|by apply all_inv_decrement|..];
    assert (Hinv0 := Hinv); destruct Hinv as [Hr Hp Hrem Hd Hpo Hst Hres]; unfold pending in *.
  - recount Hi TFinished. split; unfold pending; simpl; rewrite ?length_insert; try done; try lia.
    + repeat case_decide; lia.
    + intros j pc Hj Hpc. eapply (stored_insert s i TLast TFinished); eauto. by right; left.
  - split; simpl; try done. intros rs [= <-]. apply all_stored; [done|].
    unfold pending. case_decide; lia.
Qed.

Lemma all_inv_start ctx : ctx ≠ Outside → all_inv (start ctx).
Proof.
  intros Hctx. assert (HT : match ctx with Outside => TDropped | _ => TQueued end = TQueued) by by destruct ctx.
  split; unfold pending; simpl; rewrite ?length_replicate, ?HT, ?occ_replicate, ?occ_one; simpl; try done; try lia.
  - destruct (length fs); simpl; [done|]. lia.
  - intros i pc Hi [-> | [-> | ->]]; apply lookup_replicate in Hi as [? _]; done.
Qed.
Lemma all_inv_reachable ctx s :
  Z.of_nat (length fs) < W64 → ctx ≠ Outside → steps wstep (start ctx) s → all_inv s.
Proof.
  intros HN Hctx Hs. apply (steps_invariant wstep all_inv (start ctx) s); [by apply all_inv_start| |done].
  intros a b. by apply all_inv_step.
Qed.

(** The task of a callable that throws stays pending. *)
Lemma throwing_pending s e : all_inv s → Exn e ∈ fs → pending s ≠ 0%nat.
Proof.
  intros Hinv He Hp. destruct (all_stored s Hinv Hp) as (vs & -> & _). apply list_elem_of_fmap in He as (v & ? & _). done.
Qed.
End Steps.

(** C27: however the spawned tasks interleave, [when_all] posts its baton at most
    once, the awaiting coroutine never resumes before every callable has
    returned and then reads the results of all of them in order, and once all
    tasks are finished the baton has been posted, also when there are none. *)
Theorem when_all_returns_results (fs : list Outcome) (ctx : Context_) (s : shared) :
  Z.of_nat (length fs) < W64 → ctx ≠ Outside → steps (wstep fs) (start fs ctx) s →
  (posts s ≤ 1)%nat
  ∧ (∀ rs, resumed s = Some rs → ∃ vs, fs = Val <$> vs ∧ rs = Some <$> vs)
  ∧ (Forall (λ pc, pc = TFinished) (pcs s) → posts s = 1%nat).
Proof.
  intros HN Hctx Hs. assert (Hinv := all_inv_reachable fs ctx s HN Hctx Hs).
  assert (H := ai_posts _ _ Hinv). split_and!; [case_decide; lia|by apply Hinv|].
  intros HF. assert (H0 : ∀ z, z ≠ TFinished → occ z (pcs s) = 0%nat).
  { intros z Hz. revert HF. clear -Hz. induction 1 as [|pc l -> _ IH]; [done|].
    rewrite (occ_cons z TFinished l), IH, occ_one, decide_False; [done|congruence]. }
  unfold pending in H. rewrite !H0 in H by done. simpl in H. lia.
Qed.

Lemma when_all_returns_results_witness :
  let fs := [Val 7; Val 8] in
  let s := resume (post (decrement (decrement (store_result fs (store_result fs (start fs OnOnlineWorker) 1) 0) 1) 0) 0) in
  resumed s = Some [Some 7; Some 8] ∧ (posts s ≤ 1)%nat.
Proof.
  intros fs s. assert (Hs : steps (wstep fs) (start fs OnOnlineWorker) s).
  { unfold s. eapply steps_snoc; [|apply s_resume; [vm_compute; lia|reflexivity]].
    eapply steps_snoc; [|by apply s_post].
    eapply steps_snoc; [|by apply s_decrement]. eapply steps_snoc; [|by apply s_decrement].
    eapply steps_snoc; [|by apply s_store]. eapply steps_snoc; [apply steps_refl|by apply s_store]. }
  split; [reflexivity|].
  exact (proj1 (when_all_returns_results fs OnOnlineWorker s ltac:(reflexivity) ltac:(discriminate) Hs)).
Defined.

(** Called on a thread of no executor with at least one callable, or with a
    callable that throws, [when_all] is never resumed: no task is queued, or
    the one that threw never decrements the counter, so nothing can ever post
    the baton. *)
Theorem when_all_never_resumes (fs : list Outcome) (ctx : Context_) (s : shared) :
  Z.of_nat (length fs) < W64 → (ctx = Outside ∧ fs ≠ []) ∨ (∃ e, Exn e ∈ fs) →
  steps (wstep fs) (start fs ctx) s → posts s = 0%nat ∧ resumed s = None.
Proof.
  intros HN Hwhy Hs. assert (Hne : fs ≠ []) by (destruct Hwhy as [[_ ?]|[e He]]; [done|intros ->; by apply elem_of_nil in He]).
  destruct (decide (ctx = Outside)) as [->|Hctx].
  - assert (s = start fs Outside) as ->; [|by destruct fs].
    apply (steps_invariant (wstep fs) (λ s, s = start fs Outside) (start fs Outside) s); [done| |done].
    intros a b -> Hstep. inversion Hstep as [? i Hi|? i Hi|? i Hi|? Hpos]; subst; simpl in *;
      try (apply lookup_replicate in Hi as [? _]; done). destruct fs; [done|simpl in Hpos; lia].
  - destruct Hwhy as [[? _]|[e He]]; [done|]. assert (Hinv := all_inv_reachable fs ctx s HN Hctx Hs). split.
    + assert (H := ai_posts _ _ Hinv). assert (Hpe := throwing_pending fs s e Hinv He). case_decide; lia.
    + destruct (resumed s) as [rs|] eqn:Er; [|done]. destruct (ai_resumed _ _ Hinv rs Er) as (vs & -> & _).
      apply list_elem_of_fmap in He as (v & ? & _). done.
Qed.

Lemma when_all_never_resumes_witness :
  let fs := [Exn 5] in
  resumed (store_result fs (start fs OnExecutor) 0) = None ∧ posts (start [Val 7] Outside) = 0%nat.
Proof.
  split.
  - apply (when_all_never_resumes [Exn 5] OnExecutor); [reflexivity|right; exists 5; apply list_elem_of_here|].
    eapply steps_snoc; [apply steps_refl|by apply s_store].
  - apply (when_all_never_resumes [Val 7] Outside (start [Val 7] Outside)); [reflexivity|by left|apply steps_refl].
Defined.

(** *** The returned awaiter, moved

    [when_all] spawns its tasks with a pointer to the state inside its local
    awaiter and then returns that awaiter by value.  When the copy is not
    elided, the state is moved: the awaiting coroutine waits on the new one,
    the tasks keep using the old one. *)

(** The move constructors of [SharedState] and [AffinityBaton]: the counter and
    the results are copied, the baton's word moves over. *)
Definition move_state (s : shared) : shared * shared :=
  (mkShared (remaining s) (posts s) (results s) [] None, mkShared (remaining s) 0 (results s) (pcs s) None).

Inductive mstep (fs : list Outcome) : shared * shared → shared * shared → Prop :=
| m_task a s s' : wstep fs s s' → resumed s' = resumed s → mstep fs (a, s) (a, s')
| m_resume a s : (0 < posts a)%nat → resumed a = None → mstep fs (a, s) (resume a, s).

(** The move is harmless only when all tasks are done before it: then the
    awaiting coroutine still gets all results.  Otherwise it is never resumed,
    whatever the tasks do. *)
Theorem when_all_needs_elision (fs : list Outcome) (ctx : Context_) (s : shared) :
  Z.of_nat (length fs) < W64 → ctx ≠ Outside → steps (wstep fs) (start fs ctx) s →
  (∀ a s', steps (mstep fs) (move_state s) (a, s') → posts s = 0%nat → resumed a = None)
  ∧ ((0 < posts s)%nat → ∃ vs, fs = Val <$> vs
       ∧ mstep fs (move_state s) (resume (move_state s).1, (move_state s).2)
       ∧ resumed (resume (move_state s).1) = Some (Some <$> vs)).
Proof.
  intros HN Hctx Hs. split.
  - intros a s' Hm Hp. enough (posts a = 0%nat ∧ resumed a = None) by naive_solver.
    change a with (fst (a, s')). revert Hm.
    apply (steps_invariant (mstep fs) (λ x, posts x.1 = 0%nat ∧ resumed x.1 = None) (move_state s)); [done|].
    intros x y [H1 H2] Hst. destruct Hst as [a1 s1 s2 _ _|a1 s1 Hpos _]; [done|simpl in *; lia].
  - intros Hp. assert (Hinv := all_inv_reachable fs ctx s HN Hctx Hs). assert (H := ai_posts _ _ Hinv).
    destruct (all_stored fs s Hinv) as (vs & E & Er); [case_decide; lia|].
    exists vs. split_and!; [done|by apply m_resume|simpl; by rewrite Er].
Qed.
End WhenAll.

(** ** [OnlineWorker::co_submit] and [co_async] *)
Module Submit.
Record shared := mkShared { result : option Z; exception : option Z; posted : bool }.
Definition shared0 : shared := mkShared None None false.

(** [make_engine_work]: run the callable, keep its value or its exception,
    post the baton. *)
Definition engine_work (callable : Outcome) (st : shared) : shared :=
  match callable with
  | Val v => mkShared (Some v) (exception st) true
  | Exn e => mkShared (result st) (Some e) true
  end.

(** After [co_await state.baton]; [None] while the baton is not posted. *)
Definition co_submit_resume (st : shared) : option Outcome :=
  if posted st then match exception st with Some e => Some (Exn e) | None => Val <$> result st end else None.

(** [co_async]: without a worker the callable is not run and [R{}] is returned. *)
Definition co_async (on_worker : bool) (callable : Outcome) : option Outcome :=
  if on_worker then co_submit_resume (engine_work callable shared0) else Some (Val 0).

(** [co_spawn]: the work it submits to the engine queue; off a worker, none. *)
Definition co_spawn {A} (on_worker : bool) (fn : A) : list A := if on_worker then [fn] else [].

(** The awaiting coroutine gets what the callable did, value or exception, and
    not before it has run. *)
Lemma co_submit_transparent callable :
  co_submit_resume shared0 = None ∧ co_submit_resume (engine_work callable shared0) = Some callable.
Proof. by destruct callable. Qed.
End Submit.
