(* ===== verification/MetricText.v ===== *)
(** The text side of the metrics library: [MetricRegistry] of
    [metric_counter.h] with its JSON and Prometheus exports, and the HTTP
    server of [metric_server.cc].

    The registry holds pointers to live metrics, so an entry is an address
    into a store and its value is the one at the time of the export; a custom
    entry is a function of the store. [std::unordered_map] gives no iteration
    order: an export takes the order as a list that permutes the map. Sockets
    are the kernel's; what [accept] and [recv] return are arguments.

    Readers for the three formats (a flat JSON object, the Prometheus text
    format, an HTTP response) are part of the specification: an export is
    right when a reader gets back what was registered. *)
From Stdlib Require Import Ascii.
From stdpp Require Import gmap strings.
From S2P Require Import Prelude Float64 Metrics.

(** ** Text *)

Definition text := list ascii.
Definition txt (s : string) : text := String.list_ascii_of_string s.
Definition chr (n : nat) : ascii := Ascii.ascii_of_nat n.
Definition dq : ascii := chr 34.
Definition bslash : ascii := chr 92.
Definition lf : ascii := chr 10.
Definition cr : ascii := chr 13.
Definition crlf : text := [cr; lf].

Definition digit (d : Z) : ascii := Ascii.ascii_of_nat (48 + Z.to_nat d).
Definition digit_of (c : ascii) : option Z :=
  let n := Z.of_nat (Ascii.nat_of_ascii c) in if (48 <=? n) && (n <=? 57) then Some (n - 48) else None.

Arguments digit : simpl never.
Arguments digit_of : simpl never.

(** [std::to_string]: a number below [2 ^ fuel] has at most [fuel] digits. *)
Fixpoint dec (fuel : nat) (n : Z) : text :=
  match fuel with
  | O => []
  | S fuel' => if n <? 10 then [digit n] else dec fuel' (n / 10) ++ [digit (n mod 10)]
  end.
Definition to_dec (n : Z) : text := dec (S (Z.to_nat (Z.log2 n))) n.
Definition to_string (z : Z) : text := if z <? 0 then txt "-" ++ to_dec (- z) else to_dec z.

(** Reading a number back. *)
Fixpoint read_digits (acc : Z) (l : text) : Z * text :=
  match l with
  | c :: l' => match digit_of c with Some d => read_digits (acc * 10 + d) l' | None => (acc, l) end
  | [] => (acc, [])
  end.
Definition read_nat (l : text) : option (Z * text) :=
  match l with
  | c :: _ => match digit_of c with Some _ => Some (read_digits 0 l) | None => None end
  | [] => None
  end.
Definition read_int (l : text) : option (Z * text) :=
  match l with
  | c :: l' => if decide (c = "-"%char) then '(v, r) ← read_nat l'; Some (- v, r) else read_nat l
  | [] => None
  end.

Arguments to_string : simpl never.
Arguments read_nat : simpl never.
Arguments read_int : simpl never.

(** ** The registry *)

(** Metric values by the address of the metric object. *)
Definition Store := gmap Z Z.
Definition metric_value (st : Store) (a : Z) : Z := default 0 (st !! a).

(** [JsonFunc] *)
Inductive Entry := EMetric (addr : Z) | ECustom (fn : Store → text).
Definition run (st : Store) (e : Entry) : text :=
  match e with EMetric a => to_string (metric_value st a) | ECustom fn => fn st end.

Definition Registry := gmap text Entry.
Definition register_counter (r : Registry) (path : text) (c : Z) : Registry := <[path := EMetric c]> r.
Definition register_gauge (r : Registry) (path : text) (g : Z) : Registry := <[path := EMetric g]> r.
Definition register_peak (r : Registry) (path : text) (p : Z) : Registry := <[path := EMetric p]> r.
Definition register_custom (r : Registry) (path : text) (fn : Store → text) : Registry := <[path := ECustom fn]> r.

(** The loop of [to_json], with its [first] flag. *)
Definition json_entry (st : Store) (acc : text * bool) (e : text * Entry) : text * bool :=
  let '(out, first) := acc in let '(path, fn) := e in
  ((if first then out else out ++ txt ",") ++ ([dq] ++ path ++ [dq] ++ txt ":") ++ run st fn, false).
Definition to_json (iter : list (text * Entry)) (st : Store) : text :=
  let '(out, _) := fold_left (json_entry st) iter (txt "{", true) in out ++ txt "}".

Definition mangle (path : text) : text := (λ c, if decide (c = "/"%char) then "_"%char else c) <$> path.
Definition prom_entry (st : Store) (out : text) (e : text * Entry) : text :=
  let '(path, fn) := e in let name := mangle path in
  out ++ (txt "# HELP " ++ name ++ txt " auto-generated" ++ [lf])
      ++ (txt "# TYPE " ++ name ++ txt " gauge" ++ [lf])
      ++ (name ++ txt " " ++ run st fn ++ [lf]).
Definition to_prometheus (iter : list (text * Entry)) (st : Store) : text := fold_left (prom_entry st) iter [].

(** [MetricLatency::to_json] and [register_with]. *)
Definition json_field (name : string) (v : Z) : text := [dq] ++ txt name ++ [dq] ++ txt ":" ++ to_string v.
Definition latency_to_json (l : MetricLatency) : text :=
  txt "{" ++ json_field "count" (l_count l)
  ++ txt "," ++ json_field "avg_ns" (lat_avg_ns l)
  ++ txt "," ++ json_field "p50_ns" (lat_percentile l (d_lit 50 100))
  ++ txt "," ++ json_field "p90_ns" (lat_percentile l (d_lit 90 100))
  ++ txt "," ++ json_field "p99_ns" (lat_percentile l (d_lit 99 100))
  ++ txt "," ++ json_field "p999_ns" (lat_percentile l (d_lit 999 1000))
  ++ txt "}".
Definition register_with (r : Registry) (path : text) (read : Store → MetricLatency) : Registry :=
  register_custom r path (λ st, latency_to_json (read st)).

(** [MetricExporter]: the rates by name; how a double is printed is the C
    library's ([%.1f] in JSON, [%f] in the Prometheus text). The exports run
    the same loops as the registry's. *)
Section Exporter.
Context (print_1f print_f : double → text).
Definition Rates := gmap text MetricRate.
Definition register_rate (rs : Rates) (name : text) (r : MetricRate) : Rates := <[name := r]> rs.
(** [start] and [stop]: the thread only sleeps; starting it twice assigns to a
    joinable thread, which ends the program. *)
Definition exporter_start (joinable : bool) : option (bool * bool) := if joinable then None else Some (true, true).
Definition exporter_stop : bool * bool := (false, false).
Definition exporter_to_json (iter : list (text * MetricRate)) : text :=
  to_json ((λ p : text * MetricRate, (p.1, ECustom (λ _, print_1f (rate p.2)))) <$> iter) ∅.
Definition exporter_to_prometheus (iter : list (text * MetricRate)) : text :=
  to_prometheus ((λ p : text * MetricRate, (p.1, ECustom (λ _, print_f (rate p.2)))) <$> iter) ∅.
End Exporter.

(** ** Readers *)

(** A JSON string without escapes, up to its closing quote. *)
Definition plain_char (c : ascii) : bool :=
  bool_decide (c ≠ dq) && bool_decide (c ≠ bslash) && (32 <=? Z.of_nat (Ascii.nat_of_ascii c)).
Fixpoint read_key (l : text) : option (text * text) :=
  match l with
  | [] => None
  | c :: l' =>
      if decide (c = dq) then Some ([], l')
      else if plain_char c then '(k, r) ← read_key l'; Some (c :: k, r) else None
  end.

Definition expect (c : ascii) (l : text) : option text :=
  match l with x :: l' => if decide (x = c) then Some l' else None | [] => None end.

Definition read_member (l : text) : option (text * Z * text) :=
  l1 ← expect dq l; '(k, l2) ← read_key l1; l3 ← expect ":"%char l2; '(v, l4) ← read_int l3; Some (k, v, l4).

(** Members up to the closing brace at the end of the text. *)
Fixpoint read_members (fuel : nat) (l : text) : option (list (text * Z)) :=
  match fuel with
  | O => None
  | S fuel' =>
      '(k, v, l1) ← read_member l;
      match l1 with
      | [c] => if decide (c = "}"%char) then Some [(k, v)] else None
      | c :: l2 => if decide (c = ","%char) then ms ← read_members fuel' l2; Some ((k, v) :: ms) else None
      | [] => None
      end
  end.
Definition read_json (l : text) : option (list (text * Z)) :=
  l1 ← expect "{"%char l;
  if decide (l1 = txt "}") then Some [] else read_members (length l1) l1.

(** Lines that end in a line feed. *)
Fixpoint lines_of (cur : text) (l : text) : list text :=
  match l with
  | [] => []
  | c :: l' => if decide (c = lf) then cur :: lines_of [] l' else lines_of (cur ++ [c]) l'
  end.
Fixpoint split_space (l : text) : option (text * text) :=
  match l with
  | [] => None
  | c :: l' => if decide (c = " "%char) then Some ([], l') else '(a, b) ← split_space l'; Some (c :: a, b)
  end.
Definition read_sample (l : text) : option (text * Z) :=
  '(name, v) ← split_space l; '(z, r) ← read_int v; match r with [] => Some (name, z) | _ => None end.
(** A line that starts with [#] is a comment. *)
Fixpoint read_samples (ls : list text) : option (list (text * Z)) :=
  match ls with
  | [] => Some []
  | l :: ls' =>
      if decide (head l = Some "#"%char) then read_samples ls'
      else s ← read_sample l; ss ← read_samples ls'; Some (s :: ss)
  end.
Definition read_prometheus (l : text) : option (list (text * Z)) := read_samples (lines_of [] l).

(** ** The server *)

Fixpoint starts_with (pat s : text) : bool :=
  match pat, s with
  | [], _ => true
  | p :: pat', c :: s' => bool_decide (p = c) && starts_with pat' s'
  | _, [] => false
  end.
(** [std::string::find]; [None] is [npos]. *)
Fixpoint find_sub (pat s : text) : option nat :=
  if starts_with pat s then Some O else match s with [] => None | _ :: s' => S <$> find_sub pat s' end.
Definition find_from (pat s : text) (pos : nat) : option nat := Nat.add pos <$> find_sub pat (drop pos s).
Definition substr (s : text) (pos n : nat) : text := take n (drop pos s).

(** What the handlers can see: the registry, in its iteration order, and the
    metrics. *)
Record World := mkWorld { w_iter : list (text * Entry); w_store : Store }.
Definition Handler := World → text.
Definition Endpoints := gmap text Handler.
Definition add_endpoint (eps : Endpoints) (path : text) (h : Handler) : Endpoints := <[path := h]> eps.

(** A quoted word. *)
Definition quoted (s : string) : text := [dq] ++ txt s ++ [dq].
Definition health_body : text := txt "{" ++ quoted "status" ++ txt ":" ++ quoted "ok" ++ txt "}".
Definition index_body : text :=
  txt "{" ++ [lf]
  ++ txt "  " ++ quoted "service" ++ txt ": " ++ quoted "storage-engine metrics" ++ txt "," ++ [lf]
  ++ txt "  " ++ quoted "endpoints" ++ txt ": {" ++ [lf]
  ++ txt "    " ++ quoted "/metrics" ++ txt ": " ++ quoted "JSON format" ++ txt "," ++ [lf]
  ++ txt "    " ++ quoted "/metrics?format=prometheus" ++ txt ": " ++ quoted "Prometheus format" ++ txt "," ++ [lf]
  ++ txt "    " ++ quoted "/health" ++ txt ": " ++ quoted "health check" ++ [lf]
  ++ txt "  }" ++ [lf] ++ txt "}" ++ [lf].

(** The constructor. *)
Definition default_endpoints : Endpoints :=
  let e1 := add_endpoint ∅ (txt "/metrics") (λ w, to_json (w_iter w) (w_store w)) in
  let e2 := add_endpoint e1 (txt "/metrics?format=prometheus") (λ w, to_prometheus (w_iter w) (w_store w)) in
  let e3 := add_endpoint e2 (txt "/health") (λ _, health_body) in
  add_endpoint e3 (txt "/") (λ _, index_body).

(** [handle_request]: the request line, *)
Definition request_path (req : text) : text :=
  match find_sub (txt "GET /") req with
  | Some p0 =>
      match find_from (txt " HTTP") req p0 with
      | Some p1 => substr req (p0 + 4) (p1 - p0 - 4)
      | None => txt "/"
      end
  | None => txt "/"
  end.
(** the endpoint: the exact path first, then the path without its query, *)
Definition lookup_endpoint (eps : Endpoints) (path : text) : option Handler :=
  match eps !! path with
  | Some h => Some h
  | None => match find_sub (txt "?") path with Some q => eps !! substr path 0 q | None => None end
  end.
Definition not_found_body (path : text) : text :=
  txt "{" ++ quoted "error" ++ txt ":" ++ quoted "not found" ++ txt "," ++ quoted "path" ++ txt ":" ++ [dq] ++ path ++ [dq] ++ txt "}".
Definition route (eps : Endpoints) (w : World) (path : text) : text :=
  match lookup_endpoint eps path with Some h => h w | None => not_found_body path end.
(** and the response. *)
Definition respond (body : text) : text :=
  txt "HTTP/1.1 200 OK" ++ crlf
  ++ txt "Content-Type: application/json" ++ crlf
  ++ txt "Access-Control-Allow-Origin: *" ++ crlf
  ++ txt "Content-Length: " ++ to_string (Z.of_nat (length body)) ++ crlf
  ++ crlf ++ body.
Definition handle_request (eps : Endpoints) (w : World) (req : text) : text := respond (route eps w (request_path req)).

(** [std::string(buf)] ends at the first null character. *)
Fixpoint c_str (buf : text) : text :=
  match buf with
  | [] => []
  | c :: buf' => if decide (c = Ascii.zero) then [] else c :: c_str buf'
  end.

(** One connection: what [recv] delivers, if it delivers anything, and the
    response that is sent. *)
Definition serve_connection (eps : Endpoints) (w : World) (received : text) : option text :=
  match received with [] => None | _ => Some (handle_request eps w (c_str received)) end.

(** The loop: per iteration the flag [running_], then the connection
    [accept] returned, if any. *)
Fixpoint serve (eps : Endpoints) (w : World) (evs : list (bool * option text)) : list text :=
  match evs with
  | (true, Some received) :: evs' => option_list (serve_connection eps w received) ++ serve eps w evs'
  | (true, None) :: evs' => serve eps w evs'
  | (false, _) :: _ | [] => []
  end.

(** [start] and [stop]; [closed] lists the descriptors that were closed. A
    second [start] assigns to a running thread, which ends the program. *)
Record Server := mkServer { listen_fd : Z; running : bool; thread : bool; closed : list Z }.
Definition server0 : Server := mkServer (-1) false false [].
Definition start (sock : Z) (s : Server) : option Server :=
  if sock <? 0 then Some (mkServer sock (running s) (thread s) (closed s))
  else if thread s then None else Some (mkServer sock true true (closed s)).
Definition stop (s : Server) : Server :=
  if 0 <=? listen_fd s then mkServer (-1) false false (closed s ++ [listen_fd s])
  else mkServer (listen_fd s) false false (closed s).

(** ** Reading a response *)

(** A line up to its CR LF. *)
Fixpoint read_line (l : text) : option (text * text) :=
  match l with
  | [] => None
  | c :: l' =>
      if decide (c = cr) then (match l' with d :: l'' => if decide (d = lf) then Some ([], l'') else None | [] => None end)
      else '(a, b) ← read_line l'; Some (c :: a, b)
  end.
(** Header lines up to the empty line. *)
Fixpoint read_head (fuel : nat) (l : text) : option (list text * text) :=
  match fuel with
  | O => None
  | S fuel' =>
      '(h, l1) ← read_line l;
      match h with [] => Some ([], l1) | _ => '(hs, r) ← read_head fuel' l1; Some (h :: hs, r) end
  end.
Fixpoint header (name : text) (hs : list text) : option text :=
  match hs with
  | [] => None
  | h :: hs' => if starts_with name h then Some (drop (length name) h) else header name hs'
  end.
Record Response := mkResponse { status : Z; content_type : text; payload : text }.
(** A client: status line, content type, and as many bytes as the length says. *)
Definition read_response (l : text) : option Response :=
  '(hs, rest) ← read_head (length l) l;
  st ← header (txt "HTTP/1.1 ") hs; '(code, _) ← read_nat st;
  ct ← header (txt "Content-Type: ") hs;
  cl ← header (txt "Content-Length: ") hs; '(n, _) ← read_nat cl;
  if Z.of_nat (length rest) <? n then None else Some (mkResponse code ct (take (Z.to_nat n) rest)).

(** ** Numbers read back *)

Lemma digit_of_digit d : 0 ≤ d < 10 → digit_of (digit d) = Some d.
Proof.
  intros Hd. unfold digit_of, digit. rewrite Ascii.nat_ascii_embedding by lia.
  rewrite Nat2Z.inj_add, Z2Nat.id by lia.
  change (Z.of_nat 48) with 48. rewrite (proj2 (Z.leb_le 48 (48 + d))), (proj2 (Z.leb_le (48 + d) 57)) by lia.
  simpl. f_equal. lia.
Qed.

Lemma dec_read fuel n : 0 ≤ n < 2 ^ Z.of_nat fuel → (0 < fuel)%nat →
  (∃ c l, dec fuel n = c :: l ∧ is_Some (digit_of c))
  ∧ ∃ k, ∀ acc rest, read_digits acc (dec fuel n ++ rest) = read_digits (acc * 10 ^ Z.of_nat k + n) rest.
Proof.
  revert n. induction fuel as [|fuel IH]; [lia|]. intros n Hn _. cbn [dec]. destruct (Z.ltb_spec n 10) as [Hlt|Hge].
  - assert (Hd : digit_of (digit n) = Some n) by (apply digit_of_digit; lia). split; [by exists (digit n), []; rewrite Hd|].
    exists 1%nat. intros acc rest. cbn [app read_digits]. rewrite Hd. f_equal.
  - assert (Hf : (0 < fuel)%nat) by (destruct fuel; [simpl in Hn; lia|lia]).
    assert (Hq : 0 ≤ n / 10 < 2 ^ Z.of_nat fuel).
    { split; [apply Z.div_pos; lia|]. apply Z.div_lt_upper_bound; [lia|].
      rewrite Nat2Z.inj_succ, Z.pow_succ_r in Hn by lia. lia. }
    destruct (IH _ Hq Hf) as ((c & l & -> & Hc) & k & Hk). split; [by exists c, (l ++ [digit (n mod 10)])|].
    exists (S k). intros acc rest. rewrite <- app_assoc, Hk. cbn [app read_digits].
    rewrite digit_of_digit by (apply Z.mod_pos_bound; lia). f_equal.
    rewrite Nat2Z.inj_succ, Z.pow_succ_r by lia. assert (n = 10 * (n / 10) + n mod 10) by (apply Z_div_mod_eq_full). lia.
Qed.

Lemma fuel_enough n : 0 ≤ n → 0 ≤ n < 2 ^ Z.of_nat (S (Z.to_nat (Z.log2 n))).
Proof.
  intros Hn. split; [done|]. rewrite Nat2Z.inj_succ, Z2Nat.id by apply Z.log2_nonneg.
  destruct (Z.eq_dec n 0) as [->|]; [simpl; lia|]. apply Z.log2_spec. lia.
Qed.

(** Not a digit, so that a number before it ends there. *)
Definition stops (rest : text) : Prop := match rest with [] => True | c :: _ => digit_of c = None end.

Lemma read_digits_stops acc rest : stops rest → read_digits acc rest = (acc, rest).
Proof. destruct rest as [|c rest]; simpl; [done|]. by intros ->. Qed.

Lemma read_nat_dec n rest : 0 ≤ n → stops rest → read_nat (to_dec n ++ rest) = Some (n, rest).
Proof.
  intros Hn Hr. destruct (dec_read _ n (fuel_enough n Hn) ltac:(lia)) as ((c & l & Hd & d & Hc) & k & Hk).
  unfold to_dec. specialize (Hk 0 rest). rewrite Hd in *. simpl app in *. unfold read_nat. rewrite Hc.
  rewrite Hk, read_digits_stops by done. done.
Qed.

Lemma read_int_to_string z rest : stops rest → read_int (to_string z ++ rest) = Some (z, rest).
Proof.
  intros Hr. unfold to_string. destruct (Z.ltb_spec z 0) as [Hlt|Hge].
  - rewrite <- app_assoc. simpl app. unfold read_int. rewrite decide_True by done. rewrite read_nat_dec by (done || lia). simpl. f_equal. f_equal; lia.
  - destruct (dec_read _ z (fuel_enough z Hge) ltac:(lia)) as ((c & l & Hd & d & Hc) & _).
    assert (H := read_nat_dec z rest Hge Hr). unfold to_dec in *. rewrite Hd in *. simpl app in *. unfold read_int.
    case_decide as Hm; [|done]. subst c. by vm_compute in Hc.
Qed.

(** ** JSON *)

Definition member (st : Store) (e : text * Entry) : text := ([dq] ++ e.1 ++ [dq] ++ txt ":") ++ run st e.2.

(** The members after the first. *)
Definition more (st : Store) (iter : list (text * Entry)) : text := flat_map (λ e, txt "," ++ member st e) iter.

Lemma json_fold st iter out : (fold_left (json_entry st) iter (out, false)).1 = out ++ more st iter.
Proof.
  revert out. induction iter as [|[p fn] iter IH]; intros out; [by simpl; rewrite app_nil_r|].
  cbn [fold_left json_entry]. rewrite IH. unfold more, member. cbn [flat_map fst snd]. by rewrite <- !app_assoc.
Qed.

Lemma to_json_cons st e iter : to_json (e :: iter) st = txt "{" ++ member st e ++ more st iter ++ txt "}".
Proof.
  unfold to_json. cbn [fold_left]. destruct e as [p fn]. cbn [json_entry].
  assert (H := json_fold st iter (txt "{" ++ member st (p, fn))). unfold member in *. cbn [fst snd] in *.
  destruct (fold_left _ iter _) as [out b]. cbn [fst] in H. rewrite H. by rewrite <- !app_assoc.
Qed.

(** A path that needs no escapes; a registry of plain metrics. *)
Definition clean (p : text) : Prop := forallb plain_char p = true.
Definition numeric (e : text * Entry) : Prop := ∃ a, e.2 = EMetric a.
Definition reading (st : Store) (e : text * Entry) : text * Z :=
  (e.1, match e.2 with EMetric a => metric_value st a | ECustom _ => 0 end).

Lemma read_key_clean p rest : clean p → read_key (p ++ dq :: rest) = Some (p, rest).
Proof.
  induction p as [|c p IH]; intros Hp; cbn [read_key app]; [by rewrite decide_True|].
  apply andb_prop in Hp as [Hc Hp]. rewrite Hc, (IH Hp). rewrite decide_False; [done|].
  unfold plain_char in Hc. intros ->. done.
Qed.

Lemma expect_cons c l : expect c (c :: l) = Some l.
Proof. unfold expect. by rewrite decide_True. Qed.

Lemma read_member_member st e rest :
  clean e.1 → numeric e → stops rest → read_member (member st e ++ rest) = Some (reading st e, rest).
Proof.
  destruct e as [p fn]. intros Hp [a Ha] Hr. cbn [fst snd] in *. subst fn. unfold read_member, member, reading.
  cbn [fst snd run]. rewrite <- !app_assoc. cbn [app]. rewrite expect_cons. cbn [mbind option_bind].
  rewrite read_key_clean by done. cbn [mbind option_bind txt String.list_ascii_of_string app]. rewrite expect_cons.
  cbn [mbind option_bind]. by rewrite read_int_to_string.
Qed.

Lemma read_members_all st iter e fuel :
  Forall (λ e, clean e.1 ∧ numeric e) (e :: iter) → (length iter < fuel)%nat →
  read_members fuel (member st e ++ more st iter ++ txt "}") = Some (reading st <$> (e :: iter)).
Proof.
  revert e fuel. induction iter as [|e' iter IH]; intros e [|fuel] [[Hc Hn] HF]%Forall_cons Hf; cbn [length] in Hf; try lia;
    cbn [read_members]; rewrite read_member_member by done; [done|].
  cbn [mbind option_bind]. unfold more. cbn [flat_map]. fold (more st iter).
  rewrite <- !app_assoc. specialize (IH e' fuel HF ltac:(lia)). revert IH. generalize (member st e' ++ more st iter ++ txt "}").
  intros l Hl. cbn [txt String.list_ascii_of_string app]. destruct l as [|c l]; [by destruct fuel|].
  cbn. rewrite decide_True by done. rewrite Hl. done.
Qed.

Lemma more_length st iter : (length iter ≤ length (more st iter))%nat.
Proof. induction iter as [|e iter IH]; simpl; [lia|]. rewrite length_app. lia. Qed.

Lemma read_json_all st iter :
  Forall (λ e, clean e.1 ∧ numeric e) iter → read_json (to_json iter st) = Some (reading st <$> iter).
Proof.
  intros HF. destruct iter as [|e iter]; [done|]. rewrite to_json_cons. unfold read_json.
  cbn [txt String.list_ascii_of_string app]. rewrite expect_cons. cbn [mbind option_bind].
  rewrite decide_False by (unfold member; done). apply read_members_all; [done|].
  rewrite !length_app. assert (H := more_length st iter). simpl. lia.
Qed.

(** The summary of a latency metric reads back field by field. *)
Definition latency_fields (l : MetricLatency) : list (string * Z) :=
  [("count"%string, l_count l); ("avg_ns"%string, lat_avg_ns l); ("p50_ns"%string, lat_percentile l (d_lit 50 100));
   ("p90_ns"%string, lat_percentile l (d_lit 90 100)); ("p99_ns"%string, lat_percentile l (d_lit 99 100));
   ("p999_ns"%string, lat_percentile l (d_lit 999 1000))].

(** A store and entries that hold the given values. *)
Definition as_store (vs : list Z) : Store := list_to_map (imap (λ i v, (Z.of_nat i, v)) vs).
Definition as_entries (fs : list (string * Z)) : list (text * Entry) := imap (λ i f, (txt f.1, EMetric (Z.of_nat i))) fs.

Lemma latency_as_json l : latency_to_json l = to_json (as_entries (latency_fields l)) (as_store (latency_fields l).*2).
Proof.
  unfold latency_to_json, latency_fields. generalize (l_count l), (lat_avg_ns l), (lat_percentile l (d_lit 50 100)),
    (lat_percentile l (d_lit 90 100)), (lat_percentile l (d_lit 99 100)), (lat_percentile l (d_lit 999 1000)).
  clear l. intros v0 v1 v2 v3 v4 v5. set (st := as_store _).
  assert (∀ i, (i < 6)%nat → metric_value st (Z.of_nat i) = nth i [v0; v1; v2; v3; v4; v5] 0) as Hst
    by (intros i Hi; do 6 (destruct i as [|i]; [done|]); lia).
  unfold as_entries. cbn [imap fst]. rewrite to_json_cons. unfold more, member, json_field. cbn [flat_map fst snd run].
  unfold compose. cbn [fst snd run]. rewrite (Hst 0%nat), (Hst 1%nat), (Hst 2%nat), (Hst 3%nat), (Hst 4%nat), (Hst 5%nat) by lia.
  cbn [nth]. by rewrite <- !app_assoc, !app_nil_l.
Qed.

Theorem latency_json_reads_back l : read_json (latency_to_json l) = Some ((λ f, (txt f.1, f.2)) <$> latency_fields l).
Proof.
  rewrite latency_as_json, read_json_all; [|repeat constructor; try reflexivity; by eexists].
  done.
Qed.

(** ** The Prometheus format *)

(** A path that is one word of one line and no comment. *)
Definition one_word (p : text) : Prop := lf ∉ p ∧ " "%char ∉ p ∧ head p ≠ Some "#"%char.

Lemma lines_of_line cur a rest : lf ∉ a → lines_of cur (a ++ lf :: rest) = (cur ++ a) :: lines_of [] rest.
Proof.
  revert cur. induction a as [|c a IH]; intros cur Ha; cbn [lines_of app].
  - by rewrite decide_True, app_nil_r.
  - apply not_elem_of_cons in Ha as [Hc Ha]. rewrite decide_False by done. rewrite IH by done. by rewrite <- app_assoc.
Qed.

Lemma split_space_word a rest : " "%char ∉ a → split_space (a ++ " "%char :: rest) = Some (a, rest).
Proof.
  induction a as [|c a IH]; intros Ha; cbn [split_space app]; [by rewrite decide_True|].
  apply not_elem_of_cons in Ha as [Hc Ha]. rewrite decide_False by done. by rewrite (IH Ha).
Qed.

(** Characters of a printed number. *)
Lemma dec_digits fuel n : 0 ≤ n → Forall (λ c, is_Some (digit_of c)) (dec fuel n).
Proof.
  revert n. induction fuel as [|fuel IH]; intros n Hn; [constructor|]. cbn [dec]. destruct (Z.ltb_spec n 10).
  - constructor; [|constructor]. rewrite digit_of_digit by lia. done.
  - apply Forall_app. split; [apply IH, Z.div_pos; lia|]. constructor; [|constructor].
    rewrite digit_of_digit by (apply Z.mod_pos_bound; lia). done.
Qed.

Lemma to_string_chars c z : digit_of c = None → c ≠ "-"%char → c ∉ to_string z.
Proof.
  intros Hd Hm. assert (H : ∀ n, 0 ≤ n → c ∉ to_dec n).
  { intros n Hn Hin. assert (HF := dec_digits (S (Z.to_nat (Z.log2 n))) n Hn).
    rewrite Forall_forall in HF. destruct (HF c Hin). congruence. }
  unfold to_string. destruct (Z.ltb_spec z 0); [|by apply H].
  rewrite not_elem_of_app. split; [|apply H; lia]. simpl. rewrite elem_of_cons, elem_of_nil. tauto.
Qed.

Lemma mangle_not_in c p : c ∉ p → c ≠ "_"%char → c ∉ mangle p.
Proof.
  unfold mangle. intros Hp Hc (x & Hx & Hin)%list_elem_of_fmap. case_decide; by subst.
Qed.

Lemma mangle_word p : one_word p → one_word (mangle p).
Proof.
  intros (H1 & H2 & H3). split_and!; [by apply mangle_not_in..|]. destruct p as [|c p]; simpl in *; [done|].
  case_decide; [done|]. congruence.
Qed.

Definition prom_lines (st : Store) (e : text * Entry) : list text :=
  [txt "# HELP " ++ mangle e.1 ++ txt " auto-generated"; txt "# TYPE " ++ mangle e.1 ++ txt " gauge";
   mangle e.1 ++ txt " " ++ run st e.2].

(** Lines put together. *)
Definition unlines (ls : list text) : text := flat_map (λ l, l ++ [lf]) ls.

Lemma prom_fold st iter out :
  fold_left (prom_entry st) iter out = out ++ flat_map (λ e, unlines (prom_lines st e)) iter.
Proof.
  revert out. induction iter as [|[p fn] iter IH]; intros out; [by simpl; rewrite app_nil_r|].
  cbn [fold_left prom_entry]. rewrite IH. unfold unlines, prom_lines. cbn [flat_map fst snd]. by rewrite <- ?app_assoc, ?app_nil_l.
Qed.

Lemma lines_of_lines (ls : list text) rest :
  Forall (λ l, lf ∉ l) ls → lines_of [] (unlines ls ++ rest) = ls ++ lines_of [] rest.
Proof.
  induction 1 as [|l ls Hl _ IH]; [done|]. unfold unlines in *. cbn [flat_map]. rewrite <- !app_assoc. cbn [app].
  by rewrite lines_of_line, IH.
Qed.

Definition sample_reading (st : Store) (e : text * Entry) : text * Z := (mangle e.1, (reading st e).2).

Lemma read_samples_entry st e ls :
  one_word e.1 → numeric e →
  read_samples (prom_lines st e ++ ls) = (ss ← read_samples ls; Some (sample_reading st e :: ss)).
Proof.
  destruct e as [p fn]. intros Hp [a Ha]. cbn [fst snd] in *. subst fn. unfold prom_lines. cbn [fst snd run].
  cbn [app read_samples txt String.list_ascii_of_string head]. rewrite !(decide_True (P := Some _ = Some _)) by done.
  destruct (mangle_word p Hp) as (_ & Hsp & Hh).
  rewrite decide_False by (destruct (mangle p); simpl in *; done).
  unfold read_sample. rewrite split_space_word by done. cbn [mbind option_bind].
  assert (Hi := read_int_to_string (metric_value st a) [] I). rewrite app_nil_r in Hi. rewrite Hi. done.
Qed.

Lemma prom_lines_no_lf st e : one_word e.1 → numeric e → Forall (λ l, lf ∉ l) (prom_lines st e).
Proof.
  destruct e as [p fn]. intros Hp [a Ha]. cbn [fst snd] in *. subst fn. destruct (mangle_word p Hp) as (Hl & _ & _).
  assert (lf ∉ to_string (metric_value st a)) by (apply to_string_chars; done).
  unfold prom_lines. cbn [fst snd run].
  rewrite !Forall_cons, Forall_nil, !not_elem_of_app. split_and!; done || by apply (bool_decide_unpack (_ ∉ _)).
Qed.

Lemma read_prometheus_all st iter :
  Forall (λ e, one_word e.1 ∧ numeric e) iter →
  read_prometheus (to_prometheus iter st) = Some (sample_reading st <$> iter).
Proof.
  intros HF. unfold read_prometheus, to_prometheus. rewrite prom_fold, app_nil_l.
  induction HF as [|e iter [Hw Hn] _ IH]; [done|]. cbn [flat_map].
  rewrite lines_of_lines by (by apply prom_lines_no_lf). rewrite read_samples_entry, IH by done. done.
Qed.

(** ** Requests and responses *)

Lemma starts_with_app pat rest : starts_with pat (pat ++ rest) = true.
Proof. induction pat as [|c pat IH]; simpl; [by destruct rest|]. by rewrite bool_decide_true. Qed.

Lemma find_sub_eq pat s :
  find_sub pat s = if starts_with pat s then Some O else match s with [] => None | _ :: s' => S <$> find_sub pat s' end.
Proof. by destruct s. Qed.

(** The first occurrence of a pattern is where its first character first occurs. *)
Lemma find_sub_skip c pat a rest : c ∉ a → find_sub (c :: pat) (a ++ (c :: pat) ++ rest) = Some (length a).
Proof.
  induction a as [|x a IH]; intros Ha; rewrite find_sub_eq.
  - by rewrite app_nil_l, starts_with_app.
  - apply not_elem_of_cons in Ha as [Hx Ha]. specialize (IH Ha). cbn [app starts_with] in *.
    rewrite bool_decide_false by done. cbn [andb]. by rewrite IH.
Qed.

(** A request for the target [p]. *)
Definition get_request (p rest : text) : text := txt "GET " ++ p ++ txt " HTTP" ++ rest.
Definition target (p : text) : Prop := head p = Some "/"%char ∧ " "%char ∉ p.

Lemma request_path_get p rest : target p → request_path (get_request p rest) = p.
Proof.
  intros [Hh Hsp]. destruct p as [|c q]; [done|]. injection Hh as ->. set (p := "/"%char :: q) in *.
  assert (H1 : find_sub (txt "GET /") (get_request p rest) = Some 0%nat) by done.
  assert (H2 : find_from (txt " HTTP") (get_request p rest) 0 = Some (4 + length p)%nat).
  { assert (H := find_sub_skip " "%char (txt "HTTP") p rest Hsp). unfold find_from, get_request. rewrite drop_0.
    change (find_sub _ _) with (S <$> (S <$> (S <$> (S <$> find_sub (txt " HTTP") (p ++ txt " HTTP" ++ rest))))).
    change (" "%char :: txt "HTTP") with (txt " HTTP") in H.
    rewrite H. done. }
  unfold request_path. rewrite H1, H2. unfold substr, get_request. cbn [Nat.add].
  replace (S (S (S (S (length p)))) - 0 - 4)%nat with (length p) by lia.
  rewrite (drop_app_length' (txt "GET ")) by done. apply take_app_length.
Qed.

Lemma read_line_line a rest : cr ∉ a → read_line (a ++ crlf ++ rest) = Some (a, rest).
Proof.
  induction a as [|c a IH]; intros Ha; [done|]. apply not_elem_of_cons in Ha as [Hc Ha].
  specialize (IH Ha). cbn [read_line app] in *. rewrite decide_False by done. by rewrite IH.
Qed.

Lemma read_head_line fuel h rest :
  cr ∉ h → h ≠ [] → read_head (S fuel) (h ++ crlf ++ rest) = ('(hs, r) ← read_head fuel rest; Some (h :: hs, r)).
Proof. intros Hh Hne. cbn [read_head]. rewrite read_line_line by done. by destruct h. Qed.

Lemma read_head_end fuel rest : read_head (S fuel) (crlf ++ rest) = Some ([], rest).
Proof. done. Qed.

(** Whatever the body holds, a client reads it back. *)
Lemma read_response_respond body :
  read_response (respond body) = Some (mkResponse 200 (txt "application/json") body).
Proof.
  set (n := to_string (Z.of_nat (length body))).
  assert (Hcr : cr ∉ n) by (by apply to_string_chars).
  assert (Hlen : ∃ f, length (respond body) = S (S (S (S (S f))))) by (eexists; reflexivity).
  assert (Hn : read_nat n = Some (Z.of_nat (length body), [])).
  { assert (H := read_nat_dec (Z.of_nat (length body)) [] ltac:(lia) I). rewrite app_nil_r in H. unfold n, to_string.
    destruct (Z.ltb_spec (Z.of_nat (length body)) 0); [lia|exact H]. }
  unfold read_response. destruct Hlen as [f ->]. unfold respond. fold n. rewrite (app_assoc (txt "Content-Length: ") n).
  do 4 (rewrite read_head_line;
    [|rewrite ?not_elem_of_app; split_and?; done || by apply (bool_decide_unpack (_ ∉ _))|done]).
  rewrite read_head_end. cbn [mbind option_bind].
  change (header (txt "HTTP/1.1 ") _) with (Some (txt "200 OK")). cbn [mbind option_bind].
  change (read_nat (txt "200 OK")) with (Some (200, txt " OK")). cbn [mbind option_bind].
  change (header (txt "Content-Type: ") _) with (Some (txt "application/json")). cbn [mbind option_bind].
  change (header (txt "Content-Length: ") _) with (Some n). cbn [mbind option_bind]. rewrite Hn. cbn [mbind option_bind].
  rewrite Z.ltb_irrefl, Nat2Z.id. by rewrite firstn_all.
Qed.

(** The readings as a map. *)
Definition value_of (st : Store) (e : Entry) : Z := match e with EMetric a => metric_value st a | ECustom _ => 0 end.

Lemma readings_map (r : Registry) st (iter : list (text * Entry)) :
  iter ≡ₚ map_to_list r → (list_to_map (reading st <$> iter) : gmap text Z) = value_of st <$> r.
Proof.
  intros HP. assert (reading st <$> iter = prod_map id (value_of st) <$> iter) as ->
    by (apply list_fmap_ext; by intros i [p e] _).
  rewrite list_to_map_fmap. f_equal. rewrite (list_to_map_proper iter (map_to_list r)); [apply list_to_map_to_list| |done].
  rewrite HP. apply NoDup_fst_map_to_list.
Qed.

(** Every entry of [r] is a counter, gauge or peak, and every path satisfies [P]. *)
Definition metrics_only (P : text → Prop) (r : Registry) : Prop := ∀ p e, r !! p = Some e → P p ∧ ∃ a, e = EMetric a.

Lemma metrics_only_iter P (r : Registry) iter :
  metrics_only P r → iter ≡ₚ map_to_list r → Forall (λ e, P e.1 ∧ numeric e) iter.
Proof.
  intros Hr ->. apply Forall_forall. intros [p e] Hin%elem_of_map_to_list. destruct (Hr p e Hin). done.
Qed.

Lemma handle_get eps w p rest :
  target p → read_response (handle_request eps w (get_request p rest)) = Some (mkResponse 200 (txt "application/json") (route eps w p)).
Proof. intros Hp. unfold handle_request. by rewrite request_path_get, read_response_respond. Qed.

(** C26: whatever was registered, in whatever order the registry is iterated and
    whatever the metrics hold, a client that asks the server for [/metrics]
    and reads the response gets, for every registered path, the value of its
    metric at that moment, and nothing else; provided that only counters and
    gauges are registered, under paths that need no JSON escapes (a custom
    entry writes its own text). *)
Theorem metrics_scrape (r : Registry) (w : World) (rest : text) :
  w_iter w ≡ₚ map_to_list r → metrics_only clean r →
  ∃ resp kvs, read_response (handle_request default_endpoints w (get_request (txt "/metrics") rest)) = Some resp
    ∧ status resp = 200 ∧ read_json (payload resp) = Some kvs ∧ list_to_map kvs = value_of (w_store w) <$> r.
Proof.
  intros HP Hr. exists (mkResponse 200 (txt "application/json") (to_json (w_iter w) (w_store w))), (reading (w_store w) <$> w_iter w).
  split_and!; [|done| |by apply readings_map].
  - rewrite handle_get; [done|]. split; [done|]. by apply (bool_decide_unpack (_ ∉ _)).
  - apply read_json_all. by eapply metrics_only_iter.
Qed.

Lemma metrics_scrape_witness :
  let r := register_gauge (register_counter ∅ (txt "worker/0/tasks") 1) (txt "pool/free") 2 in
  let w := mkWorld (map_to_list r) {[ 1 := 42; 2 := -7 ]} in
  ∃ resp kvs, read_response (handle_request default_endpoints w (get_request (txt "/metrics") (txt "/1.1"))) = Some resp
    ∧ status resp = 200 ∧ read_json (payload resp) = Some kvs
    ∧ list_to_map kvs = ({[ txt "worker/0/tasks" := 42; txt "pool/free" := -7 ]} : gmap text Z).
Proof.
  intros r w. destruct (metrics_scrape r w (txt "/1.1")) as (resp & kvs & H1 & H2 & H3 & H4); [done| |].
  - intros p e. unfold r, register_gauge, register_counter.
    intros [[<- <-]|[_ [[<- <-]|[_ Hno]]%lookup_insert_Some]]%lookup_insert_Some; [..|by apply lookup_empty_Some in Hno];
      split; eauto; reflexivity.
  - exists resp, kvs. split_and!; [done..|]. rewrite H4. apply (bool_decide_unpack _). by vm_compute.
Defined.

(** The Prometheus export read back gives, in iteration order, the value of
    every registered metric under its path with each slash replaced by an
    underscore; provided each path is one word that is not a comment. *)
Theorem prometheus_roundtrip (r : Registry) (iter : list (text * Entry)) (st : Store) :
  iter ≡ₚ map_to_list r → metrics_only one_word r →
  read_prometheus (to_prometheus iter st) = Some ((λ e, (mangle e.1, value_of st e.2)) <$> iter).
Proof. intros HP Hr. apply (read_prometheus_all st iter). by eapply metrics_only_iter. Qed.

Lemma prometheus_roundtrip_witness :
  let r := register_peak ∅ (txt "worker/0/depth") 1 in
  read_prometheus (to_prometheus (map_to_list r) {[ 1 := 9 ]}) = Some [(txt "worker_0_depth", 9)].
Proof.
  intros r. rewrite (prometheus_roundtrip r (map_to_list r) {[ 1 := 9 ]}); [by vm_compute|done|].
  intros p e. unfold r, register_peak. intros [[<- <-]|[_ Hno]]%lookup_insert_Some; [|by apply lookup_empty_Some in Hno].
  split; [|eauto]. split_and!; [by apply (bool_decide_unpack (_ ∉ _))..|done].
Defined.

(** Every well-formed request is answered: the client gets exactly the body
    of the endpoint whose path is the target, else of the endpoint whose path
    is the target without its query, else the not-found text; the status is
    200 and the type JSON in every case. *)
Theorem http_answers_route (eps : Endpoints) (w : World) (p rest : text) :
  target p →
  ∃ body, read_response (handle_request eps w (get_request p rest)) = Some (mkResponse 200 (txt "application/json") body)
    ∧ (∀ h : Handler, eps !! p = Some h → body = h w)
    ∧ (∀ (q x : text) (h : Handler), p = q ++ "?"%char :: x → "?"%char ∉ q → eps !! p = None → eps !! q = Some h → body = h w)
    ∧ ((∀ q x : text, p = q ++ x → eps !! q = None) → body = not_found_body p).
Proof.
  intros Hp. exists (route eps w p). split; [by apply handle_get|]. unfold route, lookup_endpoint. split_and!.
  - by intros h ->.
  - intros q x h -> Hq -> Hh. assert (Hf := find_sub_skip "?"%char [] q x Hq). cbn [app] in Hf.
    cbn [txt String.list_ascii_of_string]. rewrite Hf. unfold substr. rewrite drop_0, take_app_length. by rewrite Hh.
  - intros Hno. rewrite (Hno p []) by (by rewrite app_nil_r). destruct (find_sub _ p) as [q|]; [|done].
    unfold substr. rewrite drop_0. by rewrite (Hno _ (drop q p)) by (by rewrite take_drop).
Qed.

Lemma http_answers_route_witness :
  let w := mkWorld [] ∅ in
  ∃ body, read_response (handle_request default_endpoints w (get_request (txt "/health?x") (txt "/1.1")))
    = Some (mkResponse 200 (txt "application/json") body) ∧ body = health_body.
Proof.
  intros w. destruct (http_answers_route default_endpoints w (txt "/health?x") (txt "/1.1")) as (body & H1 & _ & H3 & _).
  { split; [done|]. by apply (bool_decide_unpack (_ ∉ _)). }
  exists body. split; [done|]. apply (H3 (txt "/health") (txt "x") (λ _, health_body)); try done.
  by apply (bool_decide_unpack (_ ∉ _)).
Defined.

(** Two paths that differ only in a slash and an underscore are one name in the
    Prometheus export. *)
Theorem prometheus_names_collide (st : Store) :
  ∃ p q a b, p ≠ q ∧ read_prometheus (to_prometheus [(p, EMetric a); (q, EMetric b)] st)
    = Some [(mangle p, metric_value st a); (mangle p, metric_value st b)].
Proof.
  exists (txt "a/b"), (txt "a_b"), 1, 2. split; [done|]. rewrite read_prometheus_all; [done|].
  repeat constructor; try (by apply (bool_decide_unpack (_ ∉ _))); try (by eexists); done.
Qed.

(** A path with a quote is not escaped: the export does not read back. *)
Theorem json_unescaped_path : read_json (to_json [([dq], EMetric 1)] ∅) = None.
Proof. by vm_compute. Qed.

(** A server that was started and stopped has closed its socket once and runs
    no thread; so has one that is stopped twice. *)
Lemma stop_closes_once sock s :
  0 ≤ sock → start sock server0 = Some s →
  closed (stop s) = [sock] ∧ stop (stop s) = stop s ∧ thread (stop s) = false ∧ running (stop s) = false.
Proof.
  intros Hs. unfold start. destruct (Z.ltb_spec sock 0); [lia|]. intros [= <-]. unfold stop. cbn [listen_fd thread closed server0].
  by rewrite (proj2 (Z.leb_le 0 sock)) by done.
Qed.
