(* ===== verification/Runtime.v ===== *)
(** The threads of the runtime: [Worker::start], [stop], [join] and
    [worker_loop] ([worker.cc]), the start of an executor's worker
    ([work_stealing_executor.cc]), the thread-local identity of a thread and
    the one process-wide pointer [get_current_worker_id] through which the
    synchronisation primitives ask for it ([affinity_baton.h]); the [Runtime]
    facade ([runtime.cc]) and the poller skeleton ([dispatch_poller.cc]).

    The process is a transition system: threads enter and leave their loops in
    any order.  What a waiter records is read off a state with the node and
    wake-up functions of the baton. *)
From S2P Require Import Prelude Types Float64 WorkQueues Policies Scheduler Timers Registry Online Executor Waiters Baton.

(** ** Worker lifecycle *)

(** [Worker::start] binds the thread: CPU and memory node are configured from
    1, 0 meaning "do not bind"; without a CPU the node is not bound either. *)
Record Binding := mkBinding { bound_cpu : option Z; bound_node : option Z }.
Definition bind_thread (cfg : WorkerCfg) : Binding :=
  if 0 <? cpu_id cfg
  then mkBinding (Some (cpu_id cfg - 1)) (if 0 <? numa_node cfg then Some (numa_node cfg - 1) else None)
  else mkBinding None None.

Section Lifecycle.
Context {P : Type} `{!PrioQueue P}.

(** A worker with its [thread_]; starting it twice assigns to a joinable
    [std::thread], which ends the program ([None]). *)
Record LiveWorker := mkLive { lw_worker : OnlineWorker P; joinable : bool }.
Definition start (w : LiveWorker) : option LiveWorker :=
  if joinable w then None
  else Some (mkLive (with_sched (lw_worker w) (reset_stop (ow_sched (lw_worker w)))) true).
Definition stop (w : LiveWorker) : LiveWorker :=
  mkLive (with_sched (lw_worker w) (request_stop (ow_sched (lw_worker w)))) (joinable w).
Definition join (w : LiveWorker) : LiveWorker := mkLive (lw_worker w) false.

(** [OnlineWorker::on_worker_start]: the timer coroutine and, with a back end,
    the IO coroutine run up to their first suspension, each with the source
    queue set to its own queue. *)
Definition with_tls (s : Sched WorkQueue) (q : Z) : Sched WorkQueue := set_time s (perf s) (now_ns s) q.
Definition on_worker_start (run_cb : Z → list Scheduler.Effect) (w : OnlineWorker P) (now timer_self io_self : Z) : option (OnlineWorker P) :=
  let w := with_sched w (with_tls (ow_sched w) (idx_timer w)) in
  w ← timer_turn run_cb w now timer_self;
  let w := with_sched w (with_tls (ow_sched w) SIZE_MAX) in
  if io_ready w then
    let s := with_tls (ow_sched w) (idx_disk_io w) in
    s ← yield_suspend s (yield_idx (tls_source_queue_idx s) (Some (default_queue_idx w))) io_self;
    Some (with_sched w (with_tls s SIZE_MAX))
  else Some w.

(** [OnlineWorkerGroup::start], [stop]: one worker after the other. *)
Definition group_start (ws : list LiveWorker) : option (list LiveWorker) := mapM start ws.
Definition group_stop (ws : list LiveWorker) : list LiveWorker := (λ w, join (stop w)) <$> ws.

(** [worker_spawn], [worker_shutdown], [worker_join] and their group forms in
    [coro_api.h]; a null pointer is [None], and a joined object is deleted. *)
Definition worker_spawn (id : Z) (cfg : WorkerCfg) : option LiveWorker :=
  w ← online_worker id cfg; start (mkLive w false).
Definition worker_shutdown (w : option LiveWorker) : option LiveWorker := stop <$> w.
Definition worker_join (w : option LiveWorker) : option LiveWorker := (λ w, join (stop w)) <$> w.
Definition group_spawn (cfg : GroupCfg) (t : Topology) (first : Z) (reg : Registry) : option (list LiveWorker * Registry) :=
  '(g, reg') ← make_group cfg t first reg;
  ws ← group_start ((λ w, mkLive w false) <$> g_workers g);
  Some (ws, reg').
Definition group_shutdown (ws : list LiveWorker) : list LiveWorker := stop <$> ws.
Definition group_join (ws : list LiveWorker) : list LiveWorker := group_stop ws.

(** [OnlineWorkerGroup::submit_to_numa]: the registry picks a worker of the
    node, known by its id; without one the item is dropped.  The worker may
    belong to another group, which leaves this one as it is. *)
Definition submit_to_numa (pick : nat → nat) (reg : Registry) (g : Group P) (node now : Z) (item : WorkItem) : option (Group P) :=
  match get_random_from_numa pick reg node with
  | None => Some g
  | Some id =>
      match list_find (λ w, ow_id w = id) (g_workers g) with
      | Some (i, w) => w' ← submit_engine w now item; Some (update_worker g i w')
      | None => Some g
      end
  end.
End Lifecycle.
Arguments LiveWorker P : clear implicits.

(** [make_universal_route]: where the coroutine is pushed, if anywhere. *)
Definition universal_route (reg : Registry) (global_id h : Z) : option Delivery :=
  match get_handle reg global_id with Some w => Some (push_affine w (make_coro h)) | None => None end.

(** ** The identity of a thread *)

(** The function [get_current_worker_id] points to: the default, the one set
    by [Worker::worker_loop], the one set by the executor's, and the one set
    when a worker leaves its loop. *)
Inductive IdFn := DefaultId | OnlineId | OfflineId | NoId.

(** [tls_worker_id] and [tls_current_worker] of [worker.cc], [tl_worker_id_]
    and [tl_executor_] of the executor. *)
Record Tls := mkTls { tls_worker_id : Z; tls_current_worker : option Z; tl_worker_id : Z; tl_executor : option Z }.
Definition tls0 : Tls := mkTls SIZE_MAX None SIZE_MAX None.

(** A thread of an online worker, or of worker [id] of an executor; a worker
    and an executor are known by their address. *)
Inductive Kind := KOnline (id addr : Z) | KOffline (id exec : Z).
Inductive ThreadPc := TNew | TRunning | TExited.
Record Thread := mkThread { kind : Kind; tpc : ThreadPc; tls : Tls }.
Definition new_thread (k : Kind) : Thread := mkThread k TNew tls0.

Record Proc := mkProc { id_fn : IdFn; threads : list Thread }.
Definition spawn_all (ks : list Kind) : Proc := mkProc DefaultId (new_thread <$> ks).

(** The head of [worker_loop] and its end, for both kinds. *)
Definition enter (p : Proc) (i : nat) (t : Thread) : Proc :=
  match kind t with
  | KOnline id a =>
      mkProc OnlineId (<[i := mkThread (kind t) TRunning (mkTls id (Some a) (tl_worker_id (tls t)) (tl_executor (tls t)))]> (threads p))
  | KOffline id e =>
      mkProc OfflineId (<[i := mkThread (kind t) TRunning (mkTls (tls_worker_id (tls t)) (tls_current_worker (tls t)) id (Some e))]> (threads p))
  end.
Definition leave (p : Proc) (i : nat) (t : Thread) : Proc :=
  match kind t with
  | KOnline _ _ =>
      mkProc NoId (<[i := mkThread (kind t) TExited (mkTls SIZE_MAX None (tl_worker_id (tls t)) (tl_executor (tls t)))]> (threads p))
  | KOffline _ _ => mkProc (id_fn p) (<[i := mkThread (kind t) TExited (tls t)]> (threads p))
  end.

Inductive pstep : Proc → Proc → Prop :=
| p_enter p i t : threads p !! i = Some t → tpc t = TNew → pstep p (enter p i t)
| p_leave p i t : threads p !! i = Some t → tpc t = TRunning → pstep p (leave p i t).

(** [get_current_worker_id()] and [get_current_route()] called on thread [t]. *)
Definition get_current_worker_id (p : Proc) (t : Thread) : Z :=
  match id_fn p with
  | OnlineId => tls_worker_id (tls t)
  | OfflineId => tl_worker_id (tls t)
  | DefaultId | NoId => SIZE_MAX
  end.
Definition get_current_route (t : Thread) : RouteFunc :=
  match tls_current_worker (tls t) with Some w => Some w | None => tl_executor (tls t) end.

(** How coroutine [h], which awaits on thread [t] now, will be woken. *)
Definition wake_of (p : Proc) (t : Thread) (h : nat) : Wake :=
  wake (fill_node h (get_current_worker_id p t) (get_current_route t)).

(** Woken on the worker that it waited on. *)
Definition home (t : Thread) (h : nat) : Wake :=
  match kind t with KOnline id a => Routed a id h | KOffline id e => Routed e id h end.

(** ** The facade and the poller *)

(** [Runtime::start] and [stop] as the calls they make, in order. *)
Inductive Action := AStartOnline (i : nat) | AStartOffline (i : nat) | AStartTimer
  | AStopOffline (i : nat) | AJoinOffline (i : nat) | AStopOnline (i : nat) | AJoinOnline (i : nat).
Definition runtime_start (online offline : nat) : list Action :=
  (AStartOnline <$> seq 0 online) ++ (AStartOffline <$> seq 0 offline) ++ [AStartTimer].
Definition runtime_stop (online offline : nat) : list Action :=
  (AStopOffline <$> seq 0 offline) ++ (AJoinOffline <$> seq 0 offline)
  ++ flat_map (λ i, [AStopOnline i; AJoinOnline i]) (seq 0 online).

(** The default configuration of the two groups: 4 online workers, 2 offline. *)
Record RuntimeConfig := mkRuntimeCfg { online_cfg : GroupCfg; offline_cfg : GroupConfig }.
Definition default_runtime_cfg : RuntimeConfig :=
  mkRuntimeCfg (mkGCfg 4 0 true [] true true true) (mkGroupCfg 2 true true).

(** The threads of a started runtime. *)
Definition runtime_threads (cfg : RuntimeConfig) (t : Topology) (nodes : list Node) (exec : Z) : list Kind :=
  imap (λ i _, KOnline (Z.of_nat i) (Z.of_nat i)) (worker_plan (online_cfg cfg) t)
  ++ imap (λ i _, KOffline (Z.of_nat i) exec) (ws_plans (group_exec_cfg (offline_cfg cfg)) nodes).

(** [DispatchPoller]: [start] assigns a new thread, so a second one ends the
    program; [poll_loop] over the values read from [running_]. *)
Record Poller := mkPoller { p_running : bool; p_thread : bool; packets_received : Z; tasks_dispatched : Z }.
Definition poller0 : Poller := mkPoller false false 0 0.
Definition poller_start (p : Poller) : option Poller :=
  if p_thread p then None else Some (mkPoller true true (packets_received p) (tasks_dispatched p)).
Definition poller_stop (p : Poller) : Poller := mkPoller false false (packets_received p) (tasks_dispatched p).
Fixpoint poll_loop (p : Poller) (running : list bool) : Poller :=
  match running with
  | true :: rest => poll_loop (mkPoller (p_running p) (p_thread p) (packets_received p +64 1) (tasks_dispatched p)) rest
  | _ => p
  end.

(** ** Invariants of the thread states *)

Definition valid_kind (k : Kind) : Prop := match k with KOnline id _ | KOffline id _ => 0 ≤ id < SIZE_MAX end.

Definition thread_ok (t : Thread) : Prop :=
  match kind t, tpc t with
  | KOnline id a, TRunning => tls t = mkTls id (Some a) SIZE_MAX None
  | KOffline id e, TRunning => tls t = mkTls SIZE_MAX None id (Some e)
  | _, TNew => tls t = tls0
  | _, TExited => True
  end.

Record proc_ok (ks : list Kind) (p : Proc) : Prop := {
  po_kinds : kind <$> threads p = ks;
  po_threads : Forall thread_ok (threads p)
}.

Lemma proc_ok_insert ks p i t t' f :
  proc_ok ks p → threads p !! i = Some t → kind t' = kind t → thread_ok t' → proc_ok ks (mkProc f (<[i := t']> (threads p))).
Proof.
  intros [Hk HF] Hi Hkind Ht'. split; simpl.
  - rewrite list_fmap_insert, Hkind, <- Hk. apply list_insert_id. by rewrite list_lookup_fmap, Hi.
  - by apply Forall_insert.
Qed.

Lemma proc_ok_step ks p p' : proc_ok ks p → pstep p p' → proc_ok ks p'.
Proof.
  intros Hok Hstep. destruct Hstep as [p i t Hi Hpc|p i t Hi Hpc]; unfold enter, leave;
    assert (Ht := Forall_lookup_1 _ _ _ _ (po_threads _ _ Hok) Hi); unfold thread_ok in Ht; rewrite Hpc in Ht;
    destruct (kind t) eqn:Ek; eapply proc_ok_insert; try done; unfold thread_ok; simpl; rewrite ?Ek; by rewrite ?Ht.
Qed.

Lemma proc_ok_spawn ks : proc_ok ks (spawn_all ks).
Proof.
  split; simpl.
  - rewrite <- list_fmap_compose. by apply list_fmap_id.
  - apply Forall_fmap, Forall_true. intros k. unfold thread_ok. by destruct k.
Qed.

Lemma proc_ok_reachable ks p : steps pstep (spawn_all ks) p → proc_ok ks p.
Proof.
  apply (steps_invariant pstep (proc_ok ks) (spawn_all ks)); [apply proc_ok_spawn|]. intros a b. apply proc_ok_step.
Qed.

Lemma running_kind ks p i t : proc_ok ks p → threads p !! i = Some t → thread_ok t ∧ kind t ∈ ks.
Proof.
  intros Hok Hi. split; [exact (Forall_lookup_1 _ _ _ _ (po_threads _ _ Hok) Hi)|].
  rewrite <- (po_kinds _ _ Hok). apply list_elem_of_fmap. exists t. split; [done|]. by eapply list_elem_of_lookup_2.
Qed.

(** Waiting through an executor of the other kind than the pointer's. *)
Lemma wake_of_id p t h :
  thread_ok t → tpc t = TRunning → valid_kind (kind t) →
  wake_of p t h = match kind t, id_fn p with
                  | KOnline _ _, OnlineId | KOffline _ _, OfflineId => home t h
                  | _, _ => Inline h
                  end.
Proof.
  intros Ht Hpc Hv. unfold thread_ok in Ht. rewrite Hpc in Ht. unfold wake_of, home, wake, get_current_worker_id, get_current_route.
  destruct (kind t) as [id a|id e]; simpl in Hv; rewrite Ht; destruct (id_fn p); simpl; try done;
    (destruct (Z.eqb_spec id SIZE_MAX); [lia|done]).
Qed.

(** Only executor threads: the pointer is theirs as soon as one runs. *)
Lemma offline_pointer ks p :
  Forall (λ k, ∃ id e, k = KOffline id e) ks → steps pstep (spawn_all ks) p →
  Exists (λ t, tpc t = TRunning) (threads p) → id_fn p = OfflineId.
Proof.
  intros HK Hs. assert (H : proc_ok ks p ∧ (id_fn p = OfflineId ∨ Forall (λ t, tpc t = TNew) (threads p))).
  { apply (steps_invariant pstep (λ p, proc_ok ks p ∧ (id_fn p = OfflineId ∨ Forall (λ t, tpc t = TNew) (threads p)))
      (spawn_all ks) p); [split; [apply proc_ok_spawn|right; by apply Forall_fmap, Forall_true]| |done].
    intros p1 p2 [Hok IH] Hstep. split; [by eapply proc_ok_step|]. rewrite Forall_forall in HK.
    destruct Hstep as [p1 i t Hi Hpc|p1 i t Hi Hpc]; destruct (running_kind _ _ _ _ Hok Hi) as [_ Hin];
      destruct (HK _ Hin) as (id & e & Hk); unfold enter, leave; rewrite Hk; [by left|].
    destruct IH as [->|HF]; [by left|]. rewrite Forall_lookup in HF. specialize (HF i t Hi). congruence. }
  destruct H as [_ H].
  intros HE. destruct H as [|HF]; [done|]. apply Exists_exists in HE as (t & Hin & Hpc).
  rewrite Forall_forall in HF. specialize (HF t Hin). congruence.
Qed.

(** Only online threads: the pointer is theirs from the first start to the
    first exit. *)
Lemma online_pointer ks p :
  Forall (λ k, ∃ id a, k = KOnline id a) ks → steps pstep (spawn_all ks) p →
  Forall (λ t, tpc t ≠ TExited) (threads p) → Exists (λ t, tpc t = TRunning) (threads p) → id_fn p = OnlineId.
Proof.
  intros HK Hs HX HE. rewrite Forall_forall in HK. rewrite Forall_forall in HX. apply Exists_exists in HE as (r & Hr & Hrpc).
  pose (I := λ p, id_fn p = OnlineId ∨ Exists (λ t, tpc t = TExited) (threads p) ∨ Forall (λ t, tpc t = TNew) (threads p)).
  assert (H : proc_ok ks p ∧ I p).
  { apply (steps_invariant pstep (λ p, proc_ok ks p ∧ I p) (spawn_all ks) p);
      [split; [apply proc_ok_spawn|right; right; by apply Forall_fmap, Forall_true]| |done].
    intros p1 p2 [Hok IH] Hstep. split; [by eapply proc_ok_step|]. unfold I.
    destruct Hstep as [p1 i t Hi Hpc|p1 i t Hi Hpc]; destruct (running_kind _ _ _ _ Hok Hi) as [_ Hin];
      destruct (HK _ Hin) as (id & e & Hk); unfold enter, leave; rewrite Hk; [by left|]. right. left.
    eapply Exists_exists. eexists. split; [eapply list_elem_of_lookup_2, list_lookup_insert_eq; by eapply lookup_lt_Some|done]. }
  destruct H as [_ H].
  destruct H as [|[HX'|HF]]; [done| |].
  - apply Exists_exists in HX' as (t & Hin & Ht). by destruct (HX t Hin).
  - rewrite Forall_forall in HF. specialize (HF r Hr). congruence.
Qed.

(** The threads of one kind only. *)
Definition only_online (ks : list Kind) : Prop := Forall (λ k, ∃ id a, k = KOnline id a) ks.
Definition only_offline (ks : list Kind) : Prop := Forall (λ k, ∃ id e, k = KOffline id e) ks.

(** C29: in a process whose workers are all of one kind, as long as no online
    worker has left its loop, every coroutine that waits on a running worker
    records that worker and will be woken through its route on that worker. *)
Theorem affinity_recorded (ks : list Kind) (p : Proc) (i : nat) (t : Thread) (h : nat) :
  Forall valid_kind ks → steps pstep (spawn_all ks) p →
  (only_online ks ∧ Forall (λ t, tpc t ≠ TExited) (threads p)) ∨ only_offline ks →
  threads p !! i = Some t → tpc t = TRunning → wake_of p t h = home t h.
Proof.
  intros HV Hs Hone Hi Hpc. assert (Hok := proc_ok_reachable _ _ Hs). destruct (running_kind _ _ _ _ Hok Hi) as [Ht Hin].
  rewrite Forall_forall in HV. rewrite (wake_of_id p t h Ht Hpc (HV _ Hin)).
  assert (HE : Exists (λ t, tpc t = TRunning) (threads p))
    by (apply Exists_exists; exists t; split; [by eapply list_elem_of_lookup_2|done]).
  destruct Hone as [[HK HX]|HK].
  - rewrite (online_pointer ks p HK Hs HX HE). unfold only_online in HK. rewrite Forall_forall in HK.
    destruct (HK _ Hin) as (id & a & ->). done.
  - rewrite (offline_pointer ks p HK Hs HE). unfold only_offline in HK. rewrite Forall_forall in HK.
    destruct (HK _ Hin) as (id & a & ->). done.
Qed.

Lemma affinity_recorded_witness :
  let p0 := spawn_all [KOnline 0 100; KOnline 1 200] in
  let p := enter (enter p0 0 (new_thread (KOnline 0 100))) 1 (new_thread (KOnline 1 200)) in
  ∃ t, threads p !! 0%nat = Some t ∧ wake_of p t 7 = Routed 100 0 7.
Proof.
  intros p0 p. exists (mkThread (KOnline 0 100) TRunning (mkTls 0 (Some 100) SIZE_MAX None)). split; [reflexivity|].
  apply (affinity_recorded [KOnline 0 100; KOnline 1 200] p 0
    (mkThread (KOnline 0 100) TRunning (mkTls 0 (Some 100) SIZE_MAX None)) 7).
  - repeat constructor; discriminate.
  - unfold p. eapply steps_snoc; [eapply steps_snoc; [apply steps_refl|]|]; apply p_enter; reflexivity.
  - left. split; [repeat constructor; eauto|]. repeat constructor; discriminate.
  - reflexivity.
  - reflexivity.
Defined.

(** The pointer is one for the process: whenever an online worker and an
    executor worker both run, a coroutine that waits on one of them records no
    worker and will be resumed inline on whatever thread posts. *)
Theorem mixed_runtime_loses_affinity (ks : list Kind) (p : Proc) (i j : nat) (t u : Thread) (h : nat) :
  Forall valid_kind ks → steps pstep (spawn_all ks) p →
  threads p !! i = Some t → tpc t = TRunning → (∃ id a, kind t = KOnline id a) →
  threads p !! j = Some u → tpc u = TRunning → (∃ id e, kind u = KOffline id e) →
  wake_of p t h = Inline h ∨ wake_of p u h = Inline h.
Proof.
  intros HV Hs Hi Hpt (id & a & Hkt) Hj Hpu (id' & e & Hku). assert (Hok := proc_ok_reachable _ _ Hs).
  destruct (running_kind _ _ _ _ Hok Hi) as [Ht Hint], (running_kind _ _ _ _ Hok Hj) as [Hu Hinu].
  rewrite Forall_forall in HV. rewrite (wake_of_id p t h Ht Hpt (HV _ Hint)), (wake_of_id p u h Hu Hpu (HV _ Hinu)), Hkt, Hku.
  destruct (id_fn p); tauto.
Qed.

(** The default runtime on a machine with one NUMA node of four cores. *)
Definition sample_threads : list Kind :=
  runtime_threads default_runtime_cfg (mkTopo [4] [[0; 1; 2; 3]])
    [Some [(0, true); (1, true); (2, true); (3, true)]] 900.
Definition sample_started : Proc :=
  fold_left (λ p i, match threads p !! i with Some t => enter p i t | None => p end) (seq 0 6) (spawn_all sample_threads).

Lemma mixed_runtime_loses_affinity_witness :
  ∃ t u, threads sample_started !! 3%nat = Some t ∧ threads sample_started !! 5%nat = Some u
    ∧ (wake_of sample_started t 7 = Inline 7 ∨ wake_of sample_started u 7 = Inline 7).
Proof.
  eexists _, _. split; [vm_compute; reflexivity|]. split; [vm_compute; reflexivity|].
  eapply (mixed_runtime_loses_affinity sample_threads sample_started 3 5).
  - repeat constructor; vm_compute; discriminate.
  - do 6 (eapply steps_snoc; [|apply p_enter; [vm_compute; reflexivity|reflexivity]]). apply steps_refl.
  - vm_compute; reflexivity.
  - reflexivity.
  - eexists _, _. reflexivity.
  - vm_compute; reflexivity.
  - reflexivity.
  - eexists _, _. reflexivity.
Defined.

(** Once an online worker has left its loop, every worker that still runs
    records no worker, until another thread starts. *)
Theorem exit_clears_identity (ks : list Kind) (p : Proc) (i j : nat) (t u : Thread) (h : nat) :
  Forall valid_kind ks → steps pstep (spawn_all ks) p →
  threads p !! i = Some t → tpc t = TRunning → (∃ id a, kind t = KOnline id a) →
  threads (leave p i t) !! j = Some u → tpc u = TRunning → wake_of (leave p i t) u h = Inline h.
Proof.
  intros HV Hs Hi Hpt (id & a & Hkt) Hj Hpu.
  assert (Hs' : steps pstep (spawn_all ks) (leave p i t)) by (eapply steps_snoc; [done|by apply p_leave]).
  assert (Hok := proc_ok_reachable _ _ Hs'). destruct (running_kind _ _ _ _ Hok Hj) as [Hu Hin].
  rewrite Forall_forall in HV. rewrite (wake_of_id _ u h Hu Hpu (HV _ Hin)). unfold leave. rewrite Hkt. by destruct (kind u).
Qed.

(** ** Start and stop *)

Lemma yield_idx_set q d : q ≠ SIZE_MAX → yield_idx q d = q.
Proof. intros Hq. unfold yield_idx. by destruct (Z.eqb_spec q SIZE_MAX). Qed.

(** Before its first turn the worker's timer coroutine is parked in the timer
    queue and, with a back end, its IO coroutine in the disk queue, once each,
    and the source queue is unset again. *)
Theorem worker_start_parks {P : Type} `{!PrioQueue P, !PrioQueueLaws P} (run_cb : Z → list Scheduler.Effect)
    (w w' : OnlineWorker P) (now timer_self io_self : Z) :
  on_worker_start run_cb w now timer_self io_self = Some w' → pq_nodes (timer_state w) = [] →
  Z.of_nat (length (queues (ow_sched w))) ≤ SIZE_MAX →
  in_range (ow_sched w) (idx_timer w) → in_range (ow_sched w) (idx_disk_io w) →
  offered (ow_sched w') = offered (ow_sched w) ++ [(idx_timer w, make_coro timer_self)]
    ++ (if io_ready w then [(idx_disk_io w, make_coro io_self)] else [])
  ∧ tls_source_queue_idx (ow_sched w') = SIZE_MAX.
Proof.
  unfold on_worker_start. intros E Hp Hl Ht Hd. unfold timer_turn in E. cbn [timer_state with_sched] in E.
  destruct (expire (timer_state w) now) as [p ex] eqn:Ex. destruct (expire_spec _ _ _ _ Ex) as (HP & _).
  rewrite Hp in HP. apply Permutation_nil_l in HP; symmetry in HP; apply app_eq_nil in HP as [-> _]. unfold yield_suspend in E.
  unfold in_range in *. rewrite yield_idx_set in E by (simpl; lia). simpl in E.
  destruct (Scheduler.offer _ _ _) as [s1|] eqn:E1 in E; [|done]. simpl in E.
  destruct (offer_in_range _ _ _ _ E1) as [El1 Eq1]; [exact Ht|]. simpl in El1, Eq1.
  destruct (io_ready w); [|injection E as <-; simpl; by rewrite El1].
  rewrite yield_idx_set in E by lia. destruct (Scheduler.offer _ _ _) as [s2|] eqn:E2 in E; [|done]. injection E as <-.
  destruct (offer_in_range _ _ _ _ E2) as [El2 _]; [unfold in_range; simpl; by rewrite Eq1|].
  simpl. rewrite El2. simpl. rewrite El1, <- app_assoc. done.
Qed.

(** A stopped group can be started again, with every stop request cleared; a
    group that runs cannot. *)
Lemma group_restart {P : Type} `{!PrioQueue P} (ws : list (LiveWorker P)) :
  ∃ ws', group_start (group_stop ws) = Some ws'
    ∧ Forall (λ w, joinable w = true ∧ stop_requested (ow_sched (lw_worker w)) = false) ws'
    ∧ (ws ≠ [] → group_start ws' = None).
Proof.
  induction ws as [|w ws (ws' & E & HF & Hn)]; [by exists []|]. unfold group_start, group_stop in *. simpl in *.
  change (list_fmap _ _ ?f ws) with (f <$> ws). rewrite E. simpl.
  eexists. split_and!; [done|by constructor|]. done.
Qed.

(** A spawned group runs all its workers, none with a stop request. *)
Lemma group_spawn_runs {P : Type} `{!PrioQueue P} cfg t first reg (ws : list (LiveWorker P)) reg' :
  group_spawn cfg t first reg = Some (ws, reg') →
  length ws = length (worker_plan cfg t)
  ∧ Forall (λ w, joinable w = true ∧ stop_requested (ow_sched (lw_worker w)) = false) ws.
Proof.
  unfold group_spawn, make_group. destruct (make_workers first (worker_plan cfg t)) as [os|] eqn:Ew; [|done]. simpl.
  destruct (if register_global cfg then _ else _) as [r|]; [|done]. simpl.
  assert (Hl : length os = length (worker_plan cfg t)).
  { unfold make_workers in Ew. apply mapM_Some, Forall2_length in Ew. by rewrite length_imap in Ew. }
  destruct (group_start _) as [ws'|] eqn:Es; [|done]. intros [= <- <-]. unfold group_start in Es.
  rewrite <- Hl. apply mapM_Some in Es. split; [apply Forall2_length in Es; by rewrite length_fmap in Es|].
  clear -Es. revert Es. generalize ws'. clear ws'. induction os as [|o os IH]; intros ws' Es;
    inversion Es as [|? ? ? ? Hs HF]; subst; [constructor|]. constructor; [|by apply IH]. by injection Hs as <-.
Qed.

(** A task submitted to a node changes at most the worker the registry picked,
    which the registry lists under that node. *)
Lemma submit_to_numa_local {P : Type} `{!PrioQueue P} pick reg (g g' : Group P) node now item :
  submit_to_numa pick reg g node now item = Some g' →
  g' = g ∨ ∃ i w w', g_workers g !! i = Some w ∧ ow_id w ∈ get_by_numa reg node
    ∧ submit_engine w now item = Some w' ∧ g' = update_worker g i w'.
Proof.
  unfold submit_to_numa. destruct (get_random_from_numa pick reg node) as [id|] eqn:E; [|intros [= <-]; by left].
  destruct (list_find _ _) as [[i w]|] eqn:Ef; [|intros [= <-]; by left].
  destruct (submit_engine w now item) as [w'|] eqn:Es; [|done]. intros [= <-]. right. exists i, w, w'.
  apply list_find_Some in Ef as (Hi & <- & _). split_and!; try done.
  unfold get_random_from_numa in E. destruct (get_by_numa reg node); [done|]. by eapply list_elem_of_lookup_2.
Qed.

(** ** Binding *)

(** A worker of a pinned NUMA layout binds its thread to exactly the PU the
    plan chose for it, and with [bind_memory] to its node; without pinning and
    without a base CPU it binds to nothing. *)
Theorem numa_worker_binding (cfg : GroupCfg) (t : Topology) (n w gid : nat) (pus : list Z) (pu : Z) :
  usable_pus t !! n = Some pus → pus !! (w mod length pus)%nat = Some pu → 0 ≤ pu < 2 ^ 32 - 1 →
  (pin_cpu cfg = true →
     bind_thread (numa_wcfg cfg t n w gid) = mkBinding (Some pu) (if bind_memory cfg then Some (Z.of_nat n) else None))
  ∧ (pin_cpu cfg = false → base_cpu_id cfg = 0 → bind_thread (numa_wcfg cfg t n w gid) = mkBinding None None).
Proof.
  intros Hp Hpu Hr. unfold numa_wcfg, bind_thread. rewrite Hp. destruct pus as [|x pus]; [done|]. simpl default.
  assert (Hn : nth (w mod length (x :: pus)) (x :: pus) 0 = pu) by (by apply nth_lookup_Some).
  split; [intros ->|intros -> ->; done]. rewrite Hn. cbn [cpu_id numa_node]. unfold wrap32, W32.
  rewrite Z.mod_small by lia. rewrite (proj2 (Z.ltb_lt 0 (pu + 1))) by lia. f_equal; [f_equal; lia|].
  destruct (bind_memory cfg); [|done]. rewrite (proj2 (Z.ltb_lt 0 (Z.of_nat n + 1))) by lia. f_equal. lia.
Qed.

Lemma numa_worker_binding_witness :
  bind_thread (numa_wcfg (mkGCfg 4 0 true [] true true true) (mkTopo [2] [[0; 6]]) 0 3 3) = mkBinding (Some 6) (Some 0).
Proof.
  refine (proj1 (numa_worker_binding (mkGCfg 4 0 true [] true true true) (mkTopo [2] [[0; 6]]) 0 3 3 [0; 6] 6 _ _ _) _);
    [reflexivity|reflexivity|split; [discriminate|reflexivity]|reflexivity].
Defined.

(** In the sequential layout a worker is pinned although pinning is off: with
    [base_cpu_id] 0, worker [i + 1] is bound to CPU [i]. *)
Theorem legacy_layout_pins_anyway (bind : bool) (i : nat) :
  Z.of_nat i < 2 ^ 32 - 1 →
  bound_cpu (bind_thread (legacy_wcfg (mkGCfg 8 0 false [] false bind true) (S i))) = Some (Z.of_nat i).
Proof.
  intros Hi. unfold bind_thread, legacy_wcfg. simpl cpu_id. unfold wrap32, W32. rewrite Z.mod_small by lia.
  rewrite (proj2 (Z.ltb_lt 0 _)) by lia. simpl. f_equal. lia.
Qed.

(** The poller counts its turns and dispatches nothing. *)
Lemma poller_dispatches_nothing p running : tasks_dispatched (poll_loop p running) = tasks_dispatched p.
Proof. revert p. induction running as [|[] rest IH]; intros p; simpl; [done|by rewrite IH|done]. Qed.
