(* ===== verification/TimedWait.v ===== *)
(** The timed wait of the baton: [AffinityBaton::wait_for] with its
    [TimedAwaiter] ([affinity_baton.h], [await_suspend] in [worker.cc]), the
    timer node it leaves with the worker's timer and the callback the timer
    runs ([timer_coro_fn] in [online_worker.cc], the global timer thread).

    Operations on the baton word are single steps here: that the loops of
    registration and post act as such is shown of the same word by the
    untimed baton.  A wake-up of a wait on an online worker runs on the same
    thread, after [await_suspend] has returned; one of a wait on an executor
    goes into a ring that every worker of the executor takes from, so the wait
    may return on another thread while [await_suspend] is still about to set
    the timer.  The awaiter lives in the waiting coroutine's frame, which is
    gone once the wait has returned: a write to [timed_out] after that is
    counted in [stale_writes], a read of the awaiter in [stale_reads]. *)
From S2P Require Import Prelude Types Timers.

Inductive WaitResult := kSignaled | kTimeout.

(** A wait: before [await_ready], before [await_suspend], linked into the
    baton, suspended with its timer set, returned while the thread that
    suspended it is still in [await_suspend], returned. *)
Inductive WPc := WStart | WChecked | WLinked | WSuspended | WOvertaken (r : WaitResult) | WDone (r : WaitResult).

(** What the waiting thread is: [current_online_worker()],
    [WorkStealingExecutor::current_executor()]. *)
Inductive Ctx := NoWorker | OnOnlineWorker | OnExecutor.
#[global] Instance ctx_eq_dec : EqDecision Ctx.
Proof. solve_decision. Defined.

(** [TimedAwaiter]; [woken] says that the coroutine has been made ready. *)
Record waiter := mkWaiter {
  timeout : Z;
  ctx : Ctx;
  tls_queue : Z;
  wpc : WPc;
  due : option Z;          (* the deadline of the timer that was set *)
  timed_out : bool;
  woken : bool
}.

Record timed := mkTimed {
  posted : bool;
  chain : list nat;
  timers : list TimerNode;
  clock : Z;
  ws : list waiter;
  posts : nat;             (* calls of [post], the callbacks' included *)
  signals : nat;           (* calls of [post] by the program *)
  stale_writes : nat;
  stale_reads : nat;
  announced : bool         (* posted, and not reset since *)
}.

(** [has_timer] *)
Definition has_timer (w : waiter) : bool := match ctx w with NoWorker => false | _ => true end.

Definition new_waiter (p : Z * Ctx) : waiter := mkWaiter p.1 p.2 SIZE_MAX WStart None false false.
Definition timed0 (calls : list (Z * Ctx)) : timed := mkTimed false [] [] 0 (new_waiter <$> calls) 0 0 0 0 false.

Definition set_pc (w : waiter) (pc : WPc) : waiter := mkWaiter (timeout w) (ctx w) (tls_queue w) pc (due w) (timed_out w) (woken w).
Definition set_due (w : waiter) (d : Z) : waiter := mkWaiter (timeout w) (ctx w) (tls_queue w) (wpc w) (Some d) (timed_out w) (woken w).
Definition set_timed_out (w : waiter) : waiter := mkWaiter (timeout w) (ctx w) (tls_queue w) (wpc w) (due w) true (woken w).
Definition set_woken (w : waiter) : waiter := mkWaiter (timeout w) (ctx w) (tls_queue w) (wpc w) (due w) (timed_out w) true.

Definition upd (s : timed) (i : nat) (w : waiter) : timed :=
  mkTimed (posted s) (chain s) (timers s) (clock s) (<[i := w]> (ws s)) (posts s) (signals s) (stale_writes s) (stale_reads s) (announced s).

(** [await_resume] *)
Definition await_resume (w : waiter) : WaitResult := if timed_out w then kTimeout else kSignaled.
Definition finish (w : waiter) : waiter := set_pc w (WDone (await_resume w)).

Definition await_ready (s : timed) (i : nat) (w : waiter) : timed :=
  upd s i (if posted s then finish w else set_pc w WChecked).

(** [await_suspend] up to the registration, which replaces the whole word by
    the address of the waiter's node. *)
Definition await_suspend (s : timed) (i : nat) (w : waiter) : timed :=
  if (timeout w <=? 0) || negb (has_timer w) then upd s i (finish (set_timed_out w))
  else if posted s then upd s i (finish w)
  else mkTimed false (i :: chain s) (timers s) (clock s) (<[i := set_pc w WLinked]> (ws s)) (posts s) (signals s) (stale_writes s) (stale_reads s) (announced s).

(** The timer node, [t] from now; its callback is named by the wait it belongs to. *)
Definition timer_node (s : timed) (i : nat) (w : waiter) (t : Z) : TimerNode :=
  mkTimer (clock s + t) (tls_queue w) SIZE_MAX (Z.of_nat i) (Some (Z.of_nat i)).
(** The rest of [await_suspend]. *)
Definition arm (s : timed) (i : nat) (w : waiter) : timed :=
  mkTimed (posted s) (chain s) (timer_node s i w (timeout w) :: timers s) (clock s)
    (<[i := set_pc (set_due w (clock s + timeout w)) WSuspended]> (ws s)) (posts s) (signals s) (stale_writes s) (stale_reads s) (announced s).

(** The same, when the wait has returned meanwhile: [timeout] is read through
    the dead awaiter, which gives any value [t]. *)
Definition arm_late (s : timed) (i : nat) (w : waiter) (r : WaitResult) (t : Z) : timed :=
  mkTimed (posted s) (chain s) (timer_node s i w t :: timers s) (clock s)
    (<[i := set_pc (set_due w (clock s + t)) (WDone r)]> (ws s)) (posts s) (signals s) (stale_writes s) (S (stale_reads s)) (announced s).

(** [post]: every waiter of the chain is made ready. *)
Definition post (s : timed) : timed :=
  mkTimed true [] (timers s) (clock s) (foldr (λ i l, alter set_woken i l) (ws s) (chain s)) (S (posts s)) (signals s) (stale_writes s) (stale_reads s) true.
Definition signal (s : timed) : timed :=
  let s := post s in mkTimed (posted s) (chain s) (timers s) (clock s) (ws s) (posts s) (S (signals s)) (stale_writes s) (stale_reads s) (announced s).

(** The callback of a timer: set the flag, which is a stale write when the wait
    has returned, then post. *)
Definition result (w : waiter) : option WaitResult := match wpc w with WDone r | WOvertaken r => Some r | _ => None end.
Definition returned (w : waiter) : bool := match result w with Some _ => true | None => false end.
Definition mark (s : timed) (i : nat) : timed :=
  match ws s !! i with
  | Some w => if returned w
              then mkTimed (posted s) (chain s) (timers s) (clock s) (ws s) (posts s) (signals s) (S (stale_writes s)) (stale_reads s) (announced s)
              else upd s i (set_timed_out w)
  | None => s
  end.
Definition expire (s : timed) (k : nat) (n : TimerNode) : timed :=
  let s := mkTimed (posted s) (chain s) (delete k (timers s)) (clock s) (ws s) (posts s) (signals s) (stale_writes s) (stale_reads s) (announced s) in
  match on_expire n with Some i => post (mark s (Z.to_nat i)) | None => s end.

Definition resume (s : timed) (i : nat) (w : waiter) : timed := upd s i (finish w).
Definition overtake (s : timed) (i : nat) (w : waiter) : timed := upd s i (set_pc w (WOvertaken (await_resume w))).
Definition reset (s : timed) : timed :=
  mkTimed false (chain s) (timers s) (clock s) (ws s) (posts s) (signals s) (stale_writes s) (stale_reads s) false.
Definition tick (s : timed) (d : Z) : timed :=
  mkTimed (posted s) (chain s) (timers s) (clock s + d) (ws s) (posts s) (signals s) (stale_writes s) (stale_reads s) (announced s).

Inductive tstep : timed → timed → Prop :=
| t_ready s i w : ws s !! i = Some w → wpc w = WStart → tstep s (await_ready s i w)
| t_suspend s i w : ws s !! i = Some w → wpc w = WChecked → tstep s (await_suspend s i w)
| t_arm s i w : ws s !! i = Some w → wpc w = WLinked → tstep s (arm s i w)
| t_resume s i w : ws s !! i = Some w → wpc w = WSuspended → woken w = true → tstep s (resume s i w)
| t_overtake s i w :
    ws s !! i = Some w → ctx w = OnExecutor → wpc w = WLinked → woken w = true → tstep s (overtake s i w)
| t_arm_late s i w r t : ws s !! i = Some w → wpc w = WOvertaken r → tstep s (arm_late s i w r t)
| t_signal s : tstep s (signal s)
| t_expire s k n : timers s !! k = Some n → deadline n ≤ clock s → tstep s (expire s k n)
| t_reset s : posted s = true → tstep s (reset s)
| t_tick s d : 0 ≤ d → tstep s (tick s d).

(** ** Invariant *)

(** The deadlines of the timers of wait [i]. *)
Definition timers_of (s : timed) (i : nat) : list Z :=
  deadline <$> filter (λ n, on_expire n = Some (Z.of_nat i)) (timers s).

Definition in_chain (s : timed) (i : nat) (w : waiter) : Prop := woken w = false ↔ i ∈ chain s.

Definition waiter_ok (s : timed) (i : nat) (w : waiter) : Prop :=
  (timed_out w = true → timeout w ≤ 0 ∨ has_timer w = false ∨ ∃ d, due w = Some d ∧ d ≤ clock s)
  ∧ (woken w = true → (0 < posts s)%nat)
  ∧ match wpc w with
    | WStart | WChecked => due w = None ∧ timers_of s i = [] ∧ i ∉ chain s ∧ woken w = false ∧ timed_out w = false
    | WLinked => due w = None ∧ timers_of s i = [] ∧ in_chain s i w ∧ timed_out w = false
    | WSuspended => in_chain s i w ∧
        ∃ d, due w = Some d ∧ (timers_of s i = [d] ∨ (timers_of s i = [] ∧ timed_out w = true ∧ woken w = true ∧ d ≤ clock s))
    | WOvertaken r => r = await_resume w ∧ i ∉ chain s ∧ (r = kSignaled → (0 < posts s)%nat) ∧ timed_out w = false ∧
        due w = None ∧ timers_of s i = [] ∧ ctx w = OnExecutor
    | WDone r => r = await_resume w ∧ i ∉ chain s ∧ (r = kSignaled → (0 < posts s)%nat) ∧
        match due w with
        | None => timers_of s i = []
        | Some d => timers_of s i = [d] ∨ (timers_of s i = [] ∧ d ≤ clock s)
        end
    end.

Record timed_inv (s : timed) : Prop := {
  ti_waiters i w : ws s !! i = Some w → waiter_ok s i w;
  ti_timers : Forall (λ n, ∃ i : nat, on_expire n = Some (Z.of_nat i)) (timers s);
  ti_posted : posted s = true → (0 < posts s)%nat
}.

(** A wait does not notice a step that leaves its place in the chain and its
    timers alone. *)
Lemma waiter_ok_frame s s' i w :
  timers_of s' i = timers_of s i → (i ∈ chain s' ↔ i ∈ chain s) → clock s ≤ clock s' → (posts s ≤ posts s')%nat →
  waiter_ok s i w → waiter_ok s' i w.
Proof.
  intros Ht Hc Hk Hp (H1 & H2 & H3). unfold waiter_ok, in_chain in *. split_and!.
  - intros Hto. destruct (H1 Hto) as [?|[?|(d & ? & ?)]]; [by left|by right; left|right; right; exists d; split; [done|lia]].
  - intros Hw. specialize (H2 Hw). lia.
  - destruct (wpc w) as [| | | |r|r]; rewrite ?Ht, ?Hc; try done.
    + destruct H3 as (? & d & ? & H4). split; [done|]. exists d. intuition lia.
    + destruct H3 as (? & ? & H4 & H5). split_and!; try apply H5; try done. intros Hr. specialize (H4 Hr). lia.
    + destruct H3 as (? & ? & H4 & ?). split_and!; try done; [intros Hr; specialize (H4 Hr); lia|].
      destruct (due w); [|done]. intuition lia.
Qed.

(** Changing one wait in place. *)
Lemma timed_inv_upd s s' i w :
  timed_inv s → ws s' = <[i := w]> (ws s) → waiter_ok s' i w →
  (∀ j, j ≠ i → timers_of s' j = timers_of s j ∧ (j ∈ chain s' ↔ j ∈ chain s)) →
  clock s' = clock s → posts s' = posts s → posted s' = posted s →
  Forall (λ n, ∃ i : nat, on_expire n = Some (Z.of_nat i)) (timers s') → timed_inv s'.
Proof.
  intros [Hw Ht Hp] Hws Hok Hoth Hk Hps Hpd HT. split; [|done|by rewrite Hpd, Hps].
  intros j v Hj. rewrite Hws in Hj. destruct (decide (j = i)) as [->|Hne].
  - assert (i < length (ws s))%nat by (apply lookup_lt_Some in Hj; by rewrite length_insert in Hj).
    rewrite list_lookup_insert_eq in Hj by done. by injection Hj as <-.
  - rewrite list_lookup_insert_ne in Hj by done. destruct (Hoth j Hne). apply (waiter_ok_frame s); [done..|lia|lia|by apply Hw].
Qed.

Lemma timers_of_cons s i n l :
  timers s = n :: l → timers_of s i
    = (if decide (on_expire n = Some (Z.of_nat i)) then [deadline n] else [])
      ++ (deadline <$> filter (λ n, on_expire n = Some (Z.of_nat i)) l).
Proof. intros E. unfold timers_of. rewrite E, filter_cons. by case_decide. Qed.

Lemma inv_ready s i w : timed_inv s → ws s !! i = Some w → wpc w = WStart → timed_inv (await_ready s i w).
Proof.
  intros Hinv Hi Hpc. assert (Hp := ti_posted s Hinv). destruct (ti_waiters s Hinv i w Hi) as (H1 & H2 & H3). rewrite Hpc in H3.
  destruct H3 as (Hd & Ht & Hc & Hwk & Hto). unfold await_ready.
  eapply (timed_inv_upd s); [done|reflexivity| |done..|by apply Hinv]. destruct (posted s) eqn:Ep.
  - unfold finish, waiter_ok, await_resume. simpl. rewrite Hto, Hd. split_and!; try done. intros _. by apply Hp.
  - unfold waiter_ok. simpl. by rewrite Hto, Hwk.
Qed.

Lemma inv_suspend s i w : timed_inv s → ws s !! i = Some w → wpc w = WChecked → timed_inv (await_suspend s i w).
Proof.
  intros Hinv Hi Hpc. assert (Hp := ti_posted s Hinv). destruct (ti_waiters s Hinv i w Hi) as (H1 & H2 & H3). rewrite Hpc in H3.
  destruct H3 as (Hd & Ht & Hc & Hwk & Hto). unfold await_suspend.
  destruct (_ || _) eqn:Eg; [|destruct (posted s) eqn:Ep].
  - eapply (timed_inv_upd s); [done|reflexivity| |done..|by apply Hinv]. unfold finish, waiter_ok, await_resume. simpl.
    rewrite Hd. split_and!; try done. intros _. apply orb_prop in Eg as [E|E]; [left; lia|right; left; by apply negb_true_iff].
  - eapply (timed_inv_upd s); [done|reflexivity| |done..|by apply Hinv]. unfold finish, waiter_ok, await_resume. simpl.
    rewrite Hto, Hd. split_and!; try done. intros _. by apply Hp.
  - eapply (timed_inv_upd s); [done|reflexivity| | |done..|by apply Hinv].
    + unfold waiter_ok, in_chain. simpl. rewrite Hto, Hwk. split_and!; try done. split; [intros _; by apply elem_of_cons; left|done].
    + intros j Hne. split; [done|]. simpl. rewrite elem_of_cons. naive_solver.
Qed.

Lemma armed_timers s s' i w t :
  timers_of s i = [] → timers s' = timer_node s i w t :: timers s →
  timers_of s' i = [clock s + t] ∧ (∀ j, j ≠ i → timers_of s' j = timers_of s j).
Proof.
  intros Ht Hs'. split; [|intros j Hne]; rewrite (timers_of_cons s' _ _ _ Hs'); simpl.
  - rewrite decide_True by done. unfold timers_of in Ht. by rewrite Ht.
  - rewrite decide_False; [done|]. intros [= E]. apply Nat2Z.inj in E. congruence.
Qed.

Lemma inv_arm s i w : timed_inv s → ws s !! i = Some w → wpc w = WLinked → timed_inv (arm s i w).
Proof.
  intros Hinv Hi Hpc. destruct (ti_waiters s Hinv i w Hi) as (H1 & H2 & H3). rewrite Hpc in H3.
  destruct H3 as (Hd & Ht & Hc & Hto). destruct (armed_timers s (arm s i w) i w _ Ht eq_refl) as [Hthis Hother].
  eapply (timed_inv_upd s); [done|reflexivity| | |done..|constructor; [by exists i|by apply Hinv]].
  - unfold waiter_ok, in_chain. rewrite Hthis. simpl. rewrite Hto. split_and!; [done|done|done|]. eauto.
  - intros j Hne. split; [|done]. by apply Hother.
Qed.

Lemma inv_resume s i w :
  timed_inv s → ws s !! i = Some w → wpc w = WSuspended → woken w = true → timed_inv (resume s i w).
Proof.
  intros Hinv Hi Hpc Hwk. destruct (ti_waiters s Hinv i w Hi) as (H1 & H2 & H3). rewrite Hpc in H3.
  destruct H3 as (Hc & d & Hd & Ht). unfold in_chain in Hc. rewrite Hwk in Hc.
  eapply (timed_inv_upd s); [done|reflexivity| |done..|by apply Hinv]. unfold finish, waiter_ok. simpl. rewrite Hd in *.
  split_and!; try done; [by intros Hin%Hc|by intros _; apply H2|]. destruct Ht as [Ht|(Ht & Hto & _ & Hd')]; [by left|by right].
Qed.

Lemma inv_overtake s i w :
  timed_inv s → ws s !! i = Some w → ctx w = OnExecutor → wpc w = WLinked → woken w = true → timed_inv (overtake s i w).
Proof.
  intros Hinv Hi Hx Hpc Hwk. destruct (ti_waiters s Hinv i w Hi) as (H1 & H2 & H3). rewrite Hpc in H3.
  destruct H3 as (Hd & Ht & Hc & Hto). unfold in_chain in Hc. rewrite Hwk in Hc.
  eapply (timed_inv_upd s); [done|reflexivity| |done..|by apply Hinv]. unfold waiter_ok. simpl. rewrite Hto.
  split_and!; try done; [by intros Hin%Hc|by intros _; apply H2].
Qed.

Lemma inv_arm_late s i w r t :
  timed_inv s → ws s !! i = Some w → wpc w = WOvertaken r → timed_inv (arm_late s i w r t).
Proof.
  intros Hinv Hi Hpc. destruct (ti_waiters s Hinv i w Hi) as (H1 & H2 & H3). rewrite Hpc in H3.
  destruct H3 as (Hr & Hc & Hp & Hto & Hd & Ht & _).
  destruct (armed_timers s (arm_late s i w r t) i w t Ht eq_refl) as [Hthis Hother].
  eapply (timed_inv_upd s); [done|reflexivity| | |done..|constructor; [by exists i|by apply Hinv]].
  - unfold waiter_ok. rewrite Hthis. simpl. rewrite Hto. split_and!; try done. by left.
  - intros j Hne. split; [|done]. by apply Hother.
Qed.

(** ** Post *)

Lemma post_lookup (l : list waiter) (c : list nat) i :
  foldr (λ i l, alter set_woken i l) l c !! i = (if decide (i ∈ c) then set_woken <$> l !! i else l !! i).
Proof.
  induction c as [|j c IH]; [done|]. cbn [foldr]. destruct (decide (i = j)) as [->|Hne].
  - rewrite list_lookup_alter_eq, (decide_True (P := j ∈ j :: c)) by apply list_elem_of_here.
    rewrite IH. case_decide; [|done]. by destruct (l !! j).
  - rewrite list_lookup_alter_ne, IH by done. destruct (decide (i ∈ c)) as [H|H].
    + by rewrite decide_True by (by right).
    + rewrite decide_False; [done|]. by intros [?|?]%elem_of_cons.
Qed.

Lemma waiter_ok_post s i w :
  waiter_ok s i w → waiter_ok (post s) i (if decide (i ∈ chain s) then set_woken w else w).
Proof.
  intros (H1 & H2 & H3). unfold waiter_ok, in_chain in *. destruct (decide (i ∈ chain s)) as [Hin|Hin].
  - simpl. unfold await_resume in *. simpl. split_and!; [done|lia|].
    assert (i ∉ []) by (intros Hn; by apply elem_of_nil in Hn). destruct (wpc w) as [| | | |r|r]; simpl; try naive_solver.
  - simpl. assert (i ∉ []) by (intros Hn; by apply elem_of_nil in Hn). split_and!; [done|lia|].
    destruct (wpc w) as [| | | |r|r]; simpl; naive_solver.
Qed.

Lemma post_inv s :
  (∀ i w, ws s !! i = Some w → waiter_ok (post s) i (if decide (i ∈ chain s) then set_woken w else w)) →
  Forall (λ n, ∃ i : nat, on_expire n = Some (Z.of_nat i)) (timers s) → timed_inv (post s).
Proof.
  intros Hw Ht. split; [|done|simpl; lia]. intros i w. simpl. rewrite post_lookup. intros Hi.
  assert (∃ v, ws s !! i = Some v ∧ w = if decide (i ∈ chain s) then set_woken v else v) as (v & Hv & ->).
  { destruct (ws s !! i) as [v|]; [|by case_decide]. exists v. split; [done|]. case_decide; naive_solver. }
  by apply Hw.
Qed.

Lemma inv_signal s : timed_inv s → timed_inv (signal s).
Proof.
  intros [Hw Ht Hp]. assert (Hinv : timed_inv (post s)) by (apply post_inv; [intros i w Hi; by apply waiter_ok_post, Hw|done]).
  destruct Hinv as [Hw' Ht' Hp']. split; [|done|done]. intros i w Hi. exact (Hw' i w Hi).
Qed.

(** ** Expiry *)

Lemma timers_delete s s1 k n i :
  timers s !! k = Some n → on_expire n = Some (Z.of_nat i) → timers s1 = delete k (timers s) →
  (∀ j, j ≠ i → timers_of s1 j = timers_of s j)
  ∧ timers_of s i ≠ [] ∧ (∀ d, timers_of s i = [d] → d = deadline n ∧ timers_of s1 i = []).
Proof.
  intros Hk Hn Hs1. unfold timers_of. rewrite Hs1. assert (E := take_drop_middle _ _ _ Hk).
  assert (Hlen : length (take k (timers s)) = k) by (apply length_take_le; apply lookup_lt_Some in Hk; lia).
  revert E Hlen. generalize (take k (timers s)), (drop (S k) (timers s)). intros l1 l2 <- <-. rewrite delete_middle. split_and!.
  - intros j Hj. rewrite !filter_app, filter_cons, decide_False; [done|]. rewrite Hn. intros [= H%Nat2Z.inj]. congruence.
  - rewrite filter_app, filter_cons, decide_True, fmap_app by done. simpl. by destruct (deadline <$> filter _ l1).
  - intros d. rewrite !filter_app, filter_cons, decide_True, !fmap_app by done. simpl.
    destruct (deadline <$> filter _ l1) as [|x [|y l]]; simpl; [|done..]. intros [= -> H]. split; [done|exact H].
Qed.

Lemma inv_expire s k n : timed_inv s → timers s !! k = Some n → deadline n ≤ clock s → timed_inv (expire s k n).
Proof.
  intros Hinv Hk Hd. assert (HT := ti_timers s Hinv). destruct (Forall_lookup_1 _ _ _ _ HT Hk) as [i Hn].
  unfold expire. rewrite Hn, Nat2Z.id. set (s1 := mkTimed _ _ _ _ _ _ _ _ _ _).
  destruct (timers_delete s s1 k n i Hk Hn eq_refl) as (Ho & Hne & Hi).
  assert (Hm : chain (mark s1 i) = chain s ∧ timers (mark s1 i) = timers s1 ∧ clock (mark s1 i) = clock s ∧ posts (mark s1 i) = posts s)
    by (unfold mark; destruct (ws s1 !! i) as [w|]; [destruct (returned w)|]; done).
  destruct Hm as (Hc & Htm & Hcl & Hps). apply post_inv; [|rewrite Htm; by apply Forall_delete].
  intros j w Hj. destruct (decide (j = i)) as [->|Hji].
  2:{ apply waiter_ok_post. apply (waiter_ok_frame s); try lia.
      - unfold timers_of. rewrite Htm. by apply Ho.
      - by rewrite Hc.
      - apply (ti_waiters s Hinv). revert Hj. unfold mark. destruct (ws s1 !! i) as [v|]; [destruct (returned v)|]; try done.
        unfold upd. simpl. by rewrite list_lookup_insert_ne. }
  assert (∃ v, ws s !! i = Some v ∧ w = if returned v then v else set_timed_out v) as (v & Hv & ->).
  { revert Hj. unfold mark. change (ws s1) with (ws s). destruct (ws s !! i) as [v|] eqn:Ev; [|simpl; by rewrite Ev].
    destruct (returned v) eqn:Er; simpl; [intros [= <-]%(eq_trans (eq_sym Ev)); exists v; by rewrite Er|].
    rewrite list_lookup_insert_eq by (by eapply lookup_lt_Some). intros [= <-]. exists v. by rewrite Er. }
  destruct (ti_waiters s Hinv i v Hv) as (H1 & H2 & H3). rewrite Hc.
  assert (Ht' : timers_of (post (mark s1 i)) i = timers_of s1 i) by (unfold timers_of; simpl; by rewrite Htm).
  unfold waiter_ok, in_chain in *. rewrite Ht'. simpl. rewrite Hcl.
  unfold returned, result in *. destruct (wpc v) as [| | | |r|r] eqn:Epc;
    [by destruct H3 as (_ & ? & _)..| |by destruct H3 as (_ & _ & _ & _ & _ & ? & _)|].
  - destruct H3 as (Hin & d & Hdue & [Ht|(Ht & _)]); [|done]. destruct (Hi d Ht) as [-> ->].
    assert (i ∉ []) by (intros Hnil; by apply elem_of_nil in Hnil).
    assert (Hwk : i ∉ chain s → woken v = true) by (destruct (woken v); [done|intros Hx; by destruct (Hx (proj1 Hin eq_refl))]).
    case_decide as Hch; simpl; rewrite Epc, Hdue.
    + split; [intros _; right; right; by exists (deadline n)|]. split; [lia|]. split; [done|]. exists (deadline n). by split; [|right].
    + rewrite (Hwk Hch). split; [intros _; right; right; by exists (deadline n)|]. split; [lia|]. split; [done|].
      exists (deadline n). by split; [|right].
  - assert (i ∉ []) by (intros Hnil; by apply elem_of_nil in Hnil). destruct H3 as (Hr & Hch & Hsig & Hdue).
    rewrite decide_False by done. rewrite Epc. split_and!; try done; try lia.
    destruct (due v) as [d|]; [|done]. destruct Hdue as [Ht|[Ht _]]; [|done]. destruct (Hi d Ht) as [-> ->]. right. split; [done|lia].
Qed.

Lemma inv_tick s s' :
  timed_inv s → ws s' = ws s → timers s' = timers s → chain s' = chain s → clock s ≤ clock s' → posts s' = posts s →
  (posted s' = true → posted s = true) → timed_inv s'.
Proof.
  intros [Hw Ht Hp] Ew Et Ec Hk Eps Epd. split; [|by rewrite Et|rewrite Eps; auto].
  intros i w Hi. rewrite Ew in Hi. apply (waiter_ok_frame s); [unfold timers_of; by rewrite Et|by rewrite Ec|done|lia|by apply Hw].
Qed.

Lemma timed_inv_step s s' : timed_inv s → tstep s s' → timed_inv s'.
Proof.
  intros Hinv Hstep. destruct Hstep as [s i w Hi Hpc|s i w Hi Hpc|s i w Hi Hpc|s i w Hi Hpc Hwk|s i w Hi Hx Hpc Hwk|s i w r Hi Hpc|s|s k n Hk Hd|s Hp|s d Hd].
  - by apply inv_ready.
  - by apply inv_suspend.
  - by apply inv_arm.
  - by apply inv_resume.
  - by apply inv_overtake.
  - by apply inv_arm_late.
  - by apply inv_signal.
  - by apply inv_expire.
  - by apply (inv_tick s).
  - apply (inv_tick s); try done. simpl. lia.
Qed.

Lemma timed_inv_reachable calls s : steps tstep (timed0 calls) s → timed_inv s.
Proof.
  apply (steps_invariant tstep timed_inv (timed0 calls)); [|apply timed_inv_step].
  split; [|constructor|done]. intros i w Hi. simpl in Hi. apply list_lookup_fmap_Some in Hi as (c & -> & _).
  unfold waiter_ok, timers_of. simpl. assert (i ∉ []) by (intros Hn; by apply elem_of_nil in Hn). done.
Qed.

(** A baton that was posted and not reset says so in its word, and nobody is in
    its chain. *)
Definition open_ok (s : timed) : Prop := posted s = announced s ∧ (posted s = true → chain s = []).

Lemma open_ok_step s s' : open_ok s → tstep s s' → open_ok s'.
Proof.
  intros [H1 H2] Hstep. destruct Hstep as [| s i w Hi Hpc| | | | | |s k n Hk Hd| |]; try done.
  - unfold await_suspend. destruct (_ || _); [done|]. destruct (posted s) eqn:Ep; split; simpl; rewrite ?Ep; (done || congruence || auto).
  - unfold expire. by destruct (on_expire n).
Qed.

Lemma open_ok_reachable calls s : steps tstep (timed0 calls) s → open_ok s.
Proof. by apply (steps_invariant tstep open_ok (timed0 calls)); [|apply open_ok_step]. Qed.

Lemma result_inv s i w r : waiter_ok s i w → result w = Some r → r = await_resume w ∧ (r = kSignaled → (0 < posts s)%nat).
Proof. intros (_ & _ & H). unfold result. destruct (wpc w); [done..| |]; intros [= ->]; by destruct H as (? & _ & ? & _). Qed.

Lemma timer_set s i d :
  timers_of s i = [d] → ∃ k n, timers s !! k = Some n ∧ on_expire n = Some (Z.of_nat i) ∧ d = deadline n.
Proof.
  intros Ht. assert (Hin : d ∈ timers_of s i) by (rewrite Ht; apply list_elem_of_here).
  unfold timers_of in Hin. apply list_elem_of_fmap in Hin as (n & -> & [Hn Hin]%list_elem_of_filter).
  apply list_elem_of_lookup in Hin as [k Hk]. by exists k, n.
Qed.

(** Where a wait runs does not change, and only waits on an executor are
    overtaken. *)
Lemma ctx_upd (l : list waiter) i w w' : l !! i = Some w → ctx w' = ctx w → ctx <$> <[i := w']> l = ctx <$> l.
Proof. intros Hi E. rewrite list_fmap_insert, E. apply list_insert_id. by rewrite list_lookup_fmap, Hi. Qed.

Lemma ctx_post s : ctx <$> ws (post s) = ctx <$> ws s.
Proof.
  apply list_eq. intros i. rewrite !list_lookup_fmap. simpl. rewrite post_lookup. case_decide; [|done]. by destruct (ws s !! i).
Qed.

Lemma ctx_mark s i : ctx <$> ws (mark s i) = ctx <$> ws s ∧ stale_reads (mark s i) = stale_reads s.
Proof.
  unfold mark. destruct (ws s !! i) as [w|] eqn:Hi; [|done]. destruct (returned w); [done|]. split; [|done]. by eapply ctx_upd.
Qed.

Lemma worker_step s s' :
  timed_inv s → tstep s s' → OnExecutor ∉ ctx <$> ws s → ctx <$> ws s' = ctx <$> ws s ∧ stale_reads s' = stale_reads s.
Proof.
  intros Hinv Hstep Hno. destruct Hstep as [s i w Hi Hpc|s i w Hi Hpc|s i w Hi Hpc|s i w Hi Hpc Hwk|s i w Hi Hx Hpc Hwk|s i w r t Hi Hpc|s|s k n Hk Hd|s Hp|s d Hd].
  - unfold await_ready. split; [|done]. eapply ctx_upd; [done|]. by destruct (posted s).
  - unfold await_suspend. destruct (_ || _); [|destruct (posted s)]; (split; [|done]); by eapply ctx_upd.
  - split; [|done]. by eapply ctx_upd.
  - split; [|done]. by eapply ctx_upd.
  - split; [|done]. by eapply ctx_upd.
  - destruct (ti_waiters s Hinv i w Hi) as (_ & _ & H). rewrite Hpc in H. destruct H as (_ & _ & _ & _ & _ & _ & Hx).
    destruct Hno. apply list_elem_of_fmap. exists w. split; [done|]. by eapply list_elem_of_lookup_2.
  - split; [apply ctx_post|done].
  - unfold expire. destruct (on_expire n) as [z|]; [|done]. rewrite ctx_post.
    match goal with |- ctx <$> ws (mark ?x ?j) = _ ∧ _ => exact (ctx_mark x j) end.
  - done.
  - done.
Qed.

(** ** Properties *)


(** One wait of 5 ticks, its signal, its return, and the expiry of its timer. *)
Definition sample_suspended : timed :=
  let s := timed0 [(5, OnOnlineWorker)] in let w := new_waiter (5, OnOnlineWorker) in
  let s := await_ready s 0 w in let s := await_suspend s 0 (set_pc w WChecked) in arm s 0 (set_pc w WLinked).
Definition sample_waiter : waiter := set_pc (set_due (new_waiter (5, OnOnlineWorker)) 5) WSuspended.

Lemma sample_suspended_reachable : steps tstep (timed0 [(5, OnOnlineWorker)]) sample_suspended.
Proof.
  unfold sample_suspended. eapply steps_snoc; [|by apply t_arm]. eapply steps_snoc; [|by apply t_suspend].
  eapply steps_snoc; [apply steps_refl|by apply t_ready].
Qed.


(** Nothing cancels the timer of a wait that was signalled.  From the moment
    such a wait has returned until its deadline the timer is still set, and
    its expiry writes through the pointer to the wait's frame, which is gone,
    and posts the baton although nobody signalled. *)
Theorem signalled_wait_leaves_timer (calls : list (Z * Ctx)) (s : timed) (i : nat) (w : waiter) (d : Z) :
  steps tstep (timed0 calls) s → ws s !! i = Some w → wpc w = WDone kSignaled → due w = Some d → clock s < d →
  ∃ k n, timers s !! k = Some n ∧ deadline n = d
    ∧ stale_writes (expire s k n) = S (stale_writes s) ∧ posted (expire s k n) = true
    ∧ signals (expire s k n) = signals s.
Proof.
  intros Hs Hi Hpc Hd Hk. assert (Hinv := timed_inv_reachable _ _ Hs). destruct (ti_waiters s Hinv i w Hi) as (_ & _ & H3).
  rewrite Hpc, Hd in H3. destruct H3 as (_ & _ & _ & [Ht|[_ ?]]); [|lia].
  destruct (timer_set s i d Ht) as (k & n & Hk' & Hn & ->). exists k, n. do 2 (split; [done|]).
  unfold expire. rewrite Hn, Nat2Z.id. unfold mark. cbn [ws]. rewrite Hi. unfold returned, result. by rewrite Hpc.
Qed.

Lemma signalled_wait_leaves_timer_witness :
  let s := resume (signal sample_suspended) 0 (set_woken sample_waiter) in
  ∃ k n, timers s !! k = Some n ∧ deadline n = 5 ∧ stale_writes (expire s k n) = 1%nat
    ∧ posted (expire s k n) = true ∧ signals (expire s k n) = 1%nat.
Proof.
  intros s. apply (signalled_wait_leaves_timer [(5, OnOnlineWorker)] s 0 (finish (set_woken sample_waiter)) 5); [|reflexivity..].
  eapply steps_snoc; [eapply steps_snoc; [apply sample_suspended_reachable|apply t_signal]|]. by apply t_resume.
Defined.

(** The timeout of one wait posts the baton for all: another wait on it reports
    a signal although there was none. *)
Theorem timeout_signals_others :
  ∃ s w, steps tstep (timed0 [(5, OnOnlineWorker); (100, OnOnlineWorker)]) s ∧ ws s !! 1%nat = Some w ∧ wpc w = WDone kSignaled ∧ signals s = 0%nat.
Proof.
  pose (calls := [(5, OnOnlineWorker); (100, OnOnlineWorker)] : list (Z * Ctx)).
  pose (a := new_waiter (5, OnOnlineWorker)). pose (b := new_waiter (100, OnOnlineWorker)).
  pose (s1 := arm (await_suspend (await_ready (timed0 calls) 0 a) 0 (set_pc a WChecked)) 0 (set_pc a WLinked)).
  pose (s2 := arm (await_suspend (await_ready s1 1 b) 1 (set_pc b WChecked)) 1 (set_pc b WLinked)).
  pose (s3 := expire (tick s2 5) 1 (mkTimer 5 SIZE_MAX SIZE_MAX 0 (Some 0))).
  pose (b' := set_woken (set_pc (set_due b 100) WSuspended)).
  exists (resume s3 1 b'), (finish b'). split; [|by split_and!].
  eapply steps_snoc; [|by apply t_resume]. eapply steps_snoc; [|by apply t_expire].
  eapply steps_snoc; [|by apply t_tick]. eapply steps_snoc; [|by apply t_arm].
  eapply steps_snoc; [|by apply t_suspend]. eapply steps_snoc; [|by apply t_ready].
  eapply steps_snoc; [|by apply t_arm]. eapply steps_snoc; [|by apply t_suspend].
  eapply steps_snoc; [apply steps_refl|by apply t_ready].
Qed.

(** A wait on an online worker has left [await_suspend] before it can return, so
    as long as every wait of a baton runs on one, or outside any worker, the
    awaiter is never read after the wait has returned. *)
Theorem worker_waits_read_live_awaiter (calls : list (Z * Ctx)) (s : timed) :
  OnExecutor ∉ calls.*2 → steps tstep (timed0 calls) s → stale_reads s = 0%nat.
Proof.
  intros Hno Hs. enough (timed_inv s ∧ ctx <$> ws s = calls.*2 ∧ stale_reads s = 0%nat) by naive_solver.
  revert Hs. apply (steps_invariant tstep (λ s, timed_inv s ∧ ctx <$> ws s = calls.*2 ∧ stale_reads s = 0%nat) (timed0 calls)).
  - split; [apply (timed_inv_reachable calls), steps_refl|]. split; [|done]. simpl. by rewrite <-list_fmap_compose.
  - intros s1 s2 (Hinv & Hc & Hr) Hstep. destruct (worker_step s1 s2 Hinv Hstep) as [-> ->]; [by rewrite Hc|].
    split; [by eapply timed_inv_step|done].
Qed.

(** On an executor it can: a post between the registration and the timer hands
    the coroutine to another worker, which finishes the wait; [await_suspend]
    then reads [timeout] out of the dead frame and leaves a timer that will
    write into it. *)
Theorem executor_wait_reads_dead_awaiter :
  ∃ s s', steps tstep (timed0 [(5, OnExecutor)]) s ∧ stale_reads s = 1%nat ∧ stale_writes s = 0%nat
    ∧ steps tstep s s' ∧ stale_writes s' = 1%nat.
Proof.
  pose (a := new_waiter (5, OnExecutor)).
  pose (s1 := await_suspend (await_ready (timed0 [(5, OnExecutor)]) 0 a) 0 (set_pc a WChecked)).
  pose (b := set_woken (set_pc a WLinked)). pose (c := set_pc b (WOvertaken kSignaled)).
  pose (s2 := arm_late (overtake (signal s1) 0 b) 0 c kSignaled 5).
  exists s2, (expire (tick s2 5) 0 (timer_node s1 0 a 5)). split_and!; [|done|done| |done].
  - eapply steps_snoc; [|by apply t_arm_late]. eapply steps_snoc; [|by apply t_overtake].
    eapply steps_snoc; [|by apply t_signal]. eapply steps_snoc; [|by apply t_suspend].
    eapply steps_snoc; [apply steps_refl|by apply t_ready].
  - eapply steps_snoc; [eapply steps_snoc; [apply steps_refl|by apply (t_tick s2 5)]|by apply (t_expire (tick s2 5) 0)].
Qed.
