(* ===== verification/PoolConc.v ===== *)
(** The return ring of [memory_pool.cc] ([MPMCRing]) under concurrency.

    Any number of threads run [try_enqueue] and [try_dequeue].  A step is one
    atomic access of the source, and steps of different threads interleave
    freely (sequentially consistent; [VyukovWeak] takes the memory orders into
    account).  Between operations the ring is the
    sequential ring of [PoolLists.Vyukov]. *)
From S2P Require Import Prelude Circ PoolLists.

(** ** The Vyukov ring *)

Module VyukovConc.
Import Vyukov.

(** Where a thread is: [t] and [h] are its local [tail] and [head]. *)
Inductive tstate :=
| Idle
| ELoad (ptr : Z)
| ESeq (ptr t : Z)
| ECas (ptr t : Z)
| EData (ptr t : Z)
| EPub (ptr t : Z)
| EDone (ok : bool)
| DLoad
| DSeq (h : Z)
| DCas (h : Z)
| DData (h : Z)
| DRel (h x : Z)
| DDone (res : option Z).

(** The shared ring, and the history: [lg] the values in the order their
    positions were claimed, [outs] the finished dequeues with their position. *)
Record world := mkWorld { rg : MPMCRing; lg : list Z; outs : list (Z * Z) }.

Definition put_cell (r : MPMCRing) (i : Z) (c : Cell) : MPMCRing :=
  mkRing (<[Z.to_nat (Z.land i kMask) := c]> (buffer r)) (head r) (tail r).
Definition store_data (r : MPMCRing) (i v : Z) : MPMCRing :=
  put_cell r i (mkCell (c_sequence (cell_at r i)) v).
Definition store_sequence (r : MPMCRing) (i v : Z) : MPMCRing :=
  put_cell r i (mkCell v (c_data (cell_at r i))).
Definition set_tail (r : MPMCRing) (v : Z) : MPMCRing := mkRing (buffer r) (head r) v.
Definition set_head (r : MPMCRing) (v : Z) : MPMCRing := mkRing (buffer r) v (tail r).

Definition resting (t : tstate) : bool :=
  match t with Idle | EDone _ | DDone _ => true | _ => false end.

(** The branches of the loop bodies after the load of [cell.sequence]. *)
Definition after_seq_enq (w : world) (ptr t : Z) : tstate :=
  let diff := to_signed64 (c_sequence (cell_at (rg w) t) - t) in
  if diff <? 0 then EDone false
  else if negb (diff =? 0) then ELoad ptr
  else ECas ptr t.

Definition after_seq_deq (w : world) (h : Z) : tstate :=
  let diff := to_signed64 (c_sequence (cell_at (rg w) h) - (h +64 1)) in
  if diff <? 0 then DDone None
  else if negb (diff =? 0) then DLoad
  else DCas h.

Inductive tstep : world → tstate → world → tstate → Prop :=
| call_enqueue w t ptr : resting t = true → tstep w t w (ELoad ptr)
| call_dequeue w t : resting t = true → tstep w t w DLoad
(* try_enqueue *)
| e_load w ptr : tstep w (ELoad ptr) w (ESeq ptr (tail (rg w)))
| e_seq w ptr t : tstep w (ESeq ptr t) w (after_seq_enq w ptr t)
| e_cas_ok w ptr t :
    tail (rg w) = t →
    tstep w (ECas ptr t)
      (mkWorld (set_tail (rg w) (t +64 1)) (lg w ++ [ptr]) (outs w)) (EData ptr t)
| e_cas_fail w ptr t : tstep w (ECas ptr t) w (ESeq ptr (tail (rg w)))
| e_data w ptr t :
    tstep w (EData ptr t) (mkWorld (store_data (rg w) t ptr) (lg w) (outs w)) (EPub ptr t)
| e_pub w ptr t :
    tstep w (EPub ptr t)
      (mkWorld (store_sequence (rg w) t (t +64 1)) (lg w) (outs w)) (EDone true)
(* try_dequeue *)
| d_load w : tstep w DLoad w (DSeq (head (rg w)))
| d_seq w h : tstep w (DSeq h) w (after_seq_deq w h)
| d_cas_ok w h :
    head (rg w) = h →
    tstep w (DCas h) (mkWorld (set_head (rg w) (h +64 1)) (lg w) (outs w)) (DData h)
| d_cas_fail w h : tstep w (DCas h) w (DSeq (head (rg w)))
| d_data w h : tstep w (DData h) w (DRel h (c_data (cell_at (rg w) h)))
| d_rel w h x :
    tstep w (DRel h x)
      (mkWorld (store_sequence (rg w) h (h +64 Capacity)) (lg w) (outs w ++ [(h, x)]))
      (DDone (Some x)).

Record cstate := mkC { wd : world; thr : gmap nat tstate }.

(** Executions in which fewer than [2^64 - 256] positions are claimed: no
    counter is reused. *)
Inductive cstep : cstate → cstate → Prop :=
| cstep_thread s i t w' t' :
    thr s !! i = Some t → tstep (wd s) t w' t' →
    Z.of_nat (length (lg w')) + Capacity < W64 →
    cstep s (mkC w' (<[i := t']> (thr s))).

Definition cinit (m : nat) : cstate :=
  mkC (mkWorld make [] []) (list_to_map ((λ i, (i, Idle)) <$> seq 0 m)).

Definition reachable (m : nat) (s : cstate) : Prop := steps cstep (cinit m) s.

(** The position a thread has claimed and not yet handed on. *)
Definition eown (t : tstate) : option Z :=
  match t with EData _ p | EPub _ p => Some p | _ => None end.
Definition down (t : tstate) : option Z :=
  match t with DData p | DRel p _ => Some p | _ => None end.

Definition seqat (w : world) (p : Z) : Z := c_sequence (buffer (rg w) !!! slot 8 p).
Definition datat (w : world) (p : Z) : Z := c_data (buffer (rg w) !!! slot 8 p).

Definition owned (f : tstate → option Z) (s : cstate) (p : Z) : Prop :=
  ∃ i t, thr s !! i = Some t ∧ f t = Some p.

Record winv (w : world) : Prop := {
  w_len : length (buffer (rg w)) = 256%nat;
  w_head : 0 ≤ head (rg w) ≤ tail (rg w);
  w_lap : tail (rg w) ≤ head (rg w) + 256;
  w_log : tail (rg w) = Z.of_nat (length (lg w));
  w_bound : tail (rg w) + 256 < W64;
  w_seq : ∀ p, 0 ≤ seqat w p < W64;
  w_ready : ∀ p, 0 ≤ p → seqat w p = p + 1 → p < tail (rg w) ∧ lg w !! Z.to_nat p = Some (datat w p);
  w_room : ∀ p, 0 ≤ p → seqat w p = p → p < head (rg w) + 256
}.

Definition tinv (w : world) (t : tstate) : Prop :=
  match t with
  | ESeq _ t => 0 ≤ t ≤ tail (rg w)
  | ECas _ t => 0 ≤ t ≤ tail (rg w) ∧ (t = tail (rg w) → seqat w t = t)
  | EData ptr t => 0 ≤ t < tail (rg w) ∧ seqat w t = t ∧ lg w !! Z.to_nat t = Some ptr
  | EPub ptr t =>
      0 ≤ t < tail (rg w) ∧ seqat w t = t ∧ lg w !! Z.to_nat t = Some ptr ∧ datat w t = ptr
  | DSeq h => 0 ≤ h ≤ head (rg w)
  | DCas h => 0 ≤ h ≤ head (rg w) ∧ (h = head (rg w) → seqat w h = h + 1)
  | DData h => 0 ≤ h < head (rg w) ∧ seqat w h = h + 1
  | DRel h x => 0 ≤ h < head (rg w) ∧ seqat w h = h + 1 ∧ lg w !! Z.to_nat h = Some x
  | _ => True
  end.

(** Where the positions are: dequeued or being dequeued below [head], readable
    or being written up to [tail], free or being released above. *)
Record acct (s : cstate) : Prop := {
  a_outs : ∀ p x, (p, x) ∈ outs (wd s) →
    0 ≤ p < head (rg (wd s)) ∧ lg (wd s) !! Z.to_nat p = Some x ∧ ¬ owned down s p;
  a_once : NoDup (outs (wd s)).*1;
  a_below : ∀ p, 0 ≤ p < head (rg (wd s)) → p ∈ (outs (wd s)).*1 ∨ owned down s p;
  a_middle : ∀ p, head (rg (wd s)) ≤ p < tail (rg (wd s)) →
    seqat (wd s) p = p + 1 ∨ owned eown s p;
  a_above : ∀ p, tail (rg (wd s)) ≤ p < head (rg (wd s)) + 256 →
    seqat (wd s) p = p ∨ owned down s (p - 256)
}.

Record cinv (s : cstate) : Prop := {
  c_world : winv (wd s);
  c_thread : ∀ i t, thr s !! i = Some t → tinv (wd s) t;
  c_apart : ∀ i j t u, i ≠ j → thr s !! i = Some t → thr s !! j = Some u →
    ∀ p, (eown t = Some p → eown u ≠ Some p) ∧ (down t = Some p → down u ≠ Some p);
  c_acct : acct s
}.

(** ** Reading the buffer after a store *)

Lemma slot8_eq a b : slot 8 a = slot 8 b → a mod 256 = b mod 256.
Proof.
  unfold slot. change (2 ^ 8) with 256. intros E.
  pose proof (Z.mod_pos_bound a 256 eq_refl). pose proof (Z.mod_pos_bound b 256 eq_refl). lia.
Qed.

Lemma slot8_lap p : slot 8 (p + 256) = slot 8 p.
Proof. unfold slot. change 256 with (1 * 2 ^ 8). by rewrite Z_mod_plus_full. Qed.

(** Two positions of one slot are a whole number of laps apart. *)
Lemma slot8_apart a b d : slot 8 a = slot 8 b → a = b + d → d mod 256 = 0.
Proof. intros E%slot8_eq ->. Z.div_mod_to_equations. lia. Qed.

Lemma cell_at_slot r p : cell_at r p = buffer r !!! slot 8 p.
Proof. unfold cell_at. by rewrite mask8. Qed.

Lemma put_cell_at r p c q :
  length (buffer r) = 256%nat →
  buffer (put_cell r p c) !!! slot 8 q = if decide (slot 8 p = slot 8 q) then c else buffer r !!! slot 8 q.
Proof.
  intros Hl. simpl. rewrite mask8. assert (slot 8 p < 256)%nat by (apply (slot_lt 8); lia).
  destruct (decide _) as [<-|Hne].
  - apply list_lookup_total_insert_eq. lia.
  - by apply list_lookup_total_insert_ne.
Qed.

Lemma length_put_cell r p c : length (buffer r) = 256%nat → length (buffer (put_cell r p c)) = 256%nat.
Proof. simpl. by rewrite length_insert. Qed.

Lemma seqat_store_data w r p v lg' o q :
  length (buffer r) = 256%nat → r = rg w →
  seqat (mkWorld (store_data r p v) lg' o) q = seqat w q.
Proof.
  intros Hl ->. unfold seqat, store_data. cbn [rg]. rewrite put_cell_at by done.
  destruct (decide _) as [E|]; [|done]. simpl. by rewrite cell_at_slot, E.
Qed.

Lemma datat_store_data w p v lg' o q :
  length (buffer (rg w)) = 256%nat →
  datat (mkWorld (store_data (rg w) p v) lg' o) q = if decide (slot 8 p = slot 8 q) then v else datat w q.
Proof.
  intros Hl. unfold datat, store_data. cbn [rg]. rewrite put_cell_at by done. by destruct (decide _).
Qed.

Lemma datat_store_sequence w p v lg' o q :
  length (buffer (rg w)) = 256%nat →
  datat (mkWorld (store_sequence (rg w) p v) lg' o) q = datat w q.
Proof.
  intros Hl. unfold datat, store_sequence. cbn [rg]. rewrite put_cell_at by done.
  destruct (decide _) as [E|]; [|done]. simpl. by rewrite cell_at_slot, E.
Qed.

Lemma seqat_store_sequence w p v lg' o q :
  length (buffer (rg w)) = 256%nat →
  seqat (mkWorld (store_sequence (rg w) p v) lg' o) q = if decide (slot 8 p = slot 8 q) then v else seqat w q.
Proof.
  intros Hl. unfold seqat, store_sequence. cbn [rg]. rewrite put_cell_at by done. by destruct (decide _).
Qed.

Lemma seqat_slot w p q : slot 8 p = slot 8 q → seqat w p = seqat w q.
Proof. unfold seqat. by intros ->. Qed.

(** Closes goals with two positions of one slot less than a lap apart. *)
Ltac lap :=
  repeat match goal with
  | H : slot 8 _ = slot 8 _ |- _ => apply slot8_eq in H
  end; Z.div_mod_to_equations; lia.

Ltac world_facts w Hw :=
  pose proof (w_head w Hw); pose proof (w_lap w Hw); pose proof (w_log w Hw);
  pose proof (w_bound w Hw); pose proof (w_len w Hw).

(** ** What a step leaves alone *)

(** Claims move [head] and [tail] forward and leave the cells alone. *)
Lemma tinv_grow w w' u :
  tail (rg w) ≤ tail (rg w') → head (rg w) ≤ head (rg w') → lg w `prefix_of` lg w' →
  (∀ p, seqat w' p = seqat w p) → (∀ p, datat w' p = datat w p) →
  tinv w u → tinv w' u.
Proof.
  intros Ht Hh Hl Hs Hd Hu.
  destruct u; simpl in *; rewrite ?Hs, ?Hd; try done; try lia;
    destruct_and?; split_and?; try lia; try (intros; lia); try done;
    eauto using prefix_lookup_Some.
Qed.

(** The owner of [p] may overwrite its cell's sequence. *)
Lemma tinv_store_sequence w p v o u :
  winv w →
  (seqat w p = p ∧ p < tail (rg w) ∧ eown u ≠ Some p
   ∨ seqat w p = p + 1 ∧ p < head (rg w) ∧ down u ≠ Some p) →
  tinv w u → tinv (mkWorld (store_sequence (rg w) p v) (lg w) o) u.
Proof.
  intros Hw Hp Hu. world_facts w Hw.
  assert (∀ q, q ≤ tail (rg w) → (q = tail (rg w) ∨ eown u = Some q) → seqat w q = q →
    slot 8 p ≠ slot 8 q) as HE.
  { intros q Hq Ho Hs E. rewrite <- (seqat_slot _ _ _ E) in Hs.
    destruct Hp as [(Hp & Hlt & Hn)|(Hp & Hlt & Hn)]; [|lap].
    destruct Ho as [->|Ho]; [lia|]. apply Hn. by rewrite Ho, <- Hs, Hp. }
  assert (∀ q, q ≤ head (rg w) → (q = head (rg w) ∨ down u = Some q) → seqat w q = q + 1 →
    slot 8 p ≠ slot 8 q) as HD.
  { intros q Hq Ho Hs E. rewrite <- (seqat_slot _ _ _ E) in Hs.
    destruct Hp as [(Hp & Hlt & Hn)|(Hp & Hlt & Hn)]; [lap|].
    destruct Ho as [->|Ho]; [lia|]. apply Hn. rewrite Ho. f_equal. lia. }
  destruct u; simpl in *; try done;
    rewrite ?seqat_store_sequence, ?datat_store_sequence by done; destruct_and?;
    split_and?; try done; intros;
    (rewrite decide_False; [by auto|first [by apply HE; auto; lia|by apply HD; auto; lia]]).
Qed.

Lemma tinv_store_data w p v o u :
  winv w → seqat w p = p → eown u ≠ Some p →
  tinv w u → tinv (mkWorld (store_data (rg w) p v) (lg w) o) u.
Proof.
  intros Hw Hp Hn Hu. world_facts w Hw.
  destruct u; simpl in *; try done;
    rewrite ?(seqat_store_data w), ?datat_store_data by done; try done.
  destruct Hu as (? & Hs & ? & ?). split_and!; try done; try lia.
  rewrite decide_False; [done|]. intros E. apply Hn. f_equal.
  rewrite <- Hs, <- Hp at 1. symmetry. by apply seqat_slot.
Qed.

(** ** The world invariant *)

Lemma winv_claim_tail w ptr t :
  winv w → tinv w (ECas ptr t) → tail (rg w) = t →
  Z.of_nat (length (lg w ++ [ptr])) + Capacity < W64 →
  winv (mkWorld (set_tail (rg w) (t +64 1)) (lg w ++ [ptr]) (outs w))
  ∧ tinv (mkWorld (set_tail (rg w) (t +64 1)) (lg w ++ [ptr]) (outs w)) (EData ptr t).
Proof.
  intros Hw [Ht Hs] E Hb. world_facts w Hw. rewrite length_app in Hb. simpl in Hb.
  unfold Capacity in Hb. specialize (Hs ltac:(lia)).
  rewrite (wrap64_small (t + 1)) by lia. pose proof (w_room w Hw t ltac:(lia) Hs).
  split.
  - split; simpl; try apply Hw; try lia.
    + rewrite length_app. simpl. lia.
    + intros p Hp Hq. destruct (w_ready w Hw p Hp Hq) as [Hlt Hl].
      split; [lia|]. by apply lookup_app_l_Some.
  - simpl. split_and!; [lia..|done|]. rewrite lookup_app_r by lia.
    rewrite E in *. by replace (Z.to_nat t - length (lg w))%nat with 0%nat by lia.
Qed.

Lemma winv_claim_head w h :
  winv w → tinv w (DCas h) → head (rg w) = h →
  winv (mkWorld (set_head (rg w) (h +64 1)) (lg w) (outs w))
  ∧ tinv (mkWorld (set_head (rg w) (h +64 1)) (lg w) (outs w)) (DData h).
Proof.
  intros Hw [Ht Hs] E. world_facts w Hw. specialize (Hs ltac:(lia)).
  destruct (w_ready w Hw h ltac:(lia) Hs) as [Hlt _].
  rewrite (wrap64_small (h + 1)) by lia. split.
  - split; simpl; try apply Hw; try lia.
    intros p Hp Hq. pose proof (w_room w Hw p Hp Hq). lia.
  - simpl. split; [lia|done].
Qed.

Lemma winv_store_data w ptr t :
  winv w → tinv w (EData ptr t) →
  winv (mkWorld (store_data (rg w) t ptr) (lg w) (outs w))
  ∧ tinv (mkWorld (store_data (rg w) t ptr) (lg w) (outs w)) (EPub ptr t).
Proof.
  intros Hw (Ht & Hs & Hl). world_facts w Hw. split.
  - split; try apply Hw; cbn [rg lg outs]; try (unfold store_data; simpl; lia).
    + apply length_put_cell, Hw.
    + intros p. rewrite (seqat_store_data w) by done. apply Hw.
    + intros p Hp. rewrite (seqat_store_data w) by done. intros Hq. rewrite datat_store_data by done.
      rewrite decide_False; [by apply (w_ready w Hw)|]. intros E.
      rewrite <- (seqat_slot _ _ _ E), Hs in Hq. lap.
    + intros p Hp. rewrite (seqat_store_data w) by done. by apply Hw.
  - simpl. rewrite (seqat_store_data w), datat_store_data, decide_True by done. done.
Qed.

Lemma winv_publish w ptr t o :
  winv w → tinv w (EPub ptr t) →
  winv (mkWorld (store_sequence (rg w) t (t +64 1)) (lg w) o).
Proof.
  intros Hw (Ht & Hs & Hl & Hd). world_facts w Hw. rewrite (wrap64_small (t + 1)) by lia.
  split; try apply Hw; cbn [rg lg outs]; try (unfold store_sequence; simpl; lia).
  - apply length_put_cell, Hw.
  - intros p. rewrite seqat_store_sequence by done. destruct (decide _); [lia|apply Hw].
  - intros p Hp. rewrite seqat_store_sequence, datat_store_sequence by done.
    destruct (decide _) as [E|]; [|by apply Hw]. intros Hq. assert (p = t) as -> by lia.
    split; [apply Ht|]. congruence.
  - intros p Hp. rewrite seqat_store_sequence by done.
    destruct (decide _) as [E|]; [|by apply Hw]. intros. lap.
Qed.

Lemma winv_release w h x o :
  winv w → tinv w (DRel h x) →
  winv (mkWorld (store_sequence (rg w) h (h +64 Capacity)) (lg w) o).
Proof.
  intros Hw (Ht & Hs & Hl). world_facts w Hw. change Capacity with 256.
  rewrite (wrap64_small (h + 256)) by lia.
  split; try apply Hw; cbn [rg lg outs]; try (unfold store_sequence; simpl; lia).
  - apply length_put_cell, Hw.
  - intros p. rewrite seqat_store_sequence by done. destruct (decide _); [lia|apply Hw].
  - intros p Hp. rewrite seqat_store_sequence, datat_store_sequence by done.
    destruct (decide _) as [E|]; [|by apply Hw]. intros. lap.
  - intros p Hp. rewrite seqat_store_sequence by done.
    destruct (decide _) as [E|]; [|by apply Hw]. intros. cbn. lia.
Qed.

(** ** Accounting of the positions *)

Section Owned.
Context (s : cstate) (i : nat) (t : tstate) (Hi : thr s !! i = Some t).

Lemma owned_keep f w' t' p :
  owned f s p → f t = Some p ∨ owned f (mkC w' (<[i := t']> (thr s))) p.
Proof.
  intros (j & u & Hj & Hu). destruct (decide (i = j)) as [<-|Hne].
  - left. by simplify_eq.
  - right. exists j, u. simpl. by rewrite lookup_insert_ne.
Qed.

Lemma owned_new f w' t' p : f t' = Some p → owned f (mkC w' (<[i := t']> (thr s))) p.
Proof. intros H. exists i, t'. simpl. by rewrite lookup_insert_eq. Qed.

Lemma owned_step f w' t' p :
  owned f (mkC w' (<[i := t']> (thr s))) p →
  f t' = Some p ∨ ∃ j u, i ≠ j ∧ thr s !! j = Some u ∧ f u = Some p.
Proof.
  intros (j & u & Hj & Hu). simpl in Hj. destruct (decide (i = j)) as [<-|Hne].
  - rewrite lookup_insert_eq in Hj. simplify_eq. by left.
  - rewrite lookup_insert_ne in Hj by done. right. eauto.
Qed.

Lemma owned_same f w' t' p :
  f t' = f t → owned f (mkC w' (<[i := t']> (thr s))) p ↔ owned f s p.
Proof.
  intros E. split.
  - intros [H|(j & u & _ & ? & ?)]%owned_step; [rewrite E in H|]; eexists _, _; eauto.
  - intros [H|H]%(owned_keep f w' t' p); [|done]. apply owned_new. congruence.
Qed.

End Owned.

Section Accounting.
Context (s : cstate) (i : nat) (Hinv : cinv s).

Lemma acct_claim_tail ptr p :
  thr s !! i = Some (ECas ptr p) → tail (rg (wd s)) = p →
  acct (mkC (mkWorld (set_tail (rg (wd s)) (p +64 1)) (lg (wd s) ++ [ptr]) (outs (wd s)))
            (<[i := EData ptr p]> (thr s))).
Proof.
  intros Hi Hp. destruct Hinv as [Hw _ _ [Ho Hn Hb Hm Ha]]. world_facts (wd s) Hw.
  rewrite (wrap64_small (p + 1)) by lia.
  split; simpl; [| done |..].
  - intros q x Hq. destruct (Ho q x Hq) as (? & ? & ?). rewrite (owned_same s i _ Hi) by done.
    split_and!; [lia..| |done]. by apply lookup_app_l_Some.
  - intros q Hq. rewrite (owned_same s i _ Hi) by done. by apply Hb.
  - intros q Hq. destruct (decide (q = p)) as [->|]; [right; by apply owned_new|].
    destruct (Hm q) as [|Hq']; [lia|by left|].
    by eapply (owned_keep s i _ Hi) in Hq' as [|]; [|right].
  - intros q Hq. rewrite (owned_same s i _ Hi) by done. apply Ha. lia.
Qed.

Lemma acct_claim_head p :
  thr s !! i = Some (DCas p) → head (rg (wd s)) = p →
  acct (mkC (mkWorld (set_head (rg (wd s)) (p +64 1)) (lg (wd s)) (outs (wd s)))
            (<[i := DData p]> (thr s))).
Proof.
  intros Hi Hp. destruct Hinv as [Hw _ _ [Ho Hn Hb Hm Ha]]. world_facts (wd s) Hw.
  rewrite (wrap64_small (p + 1)) by lia.
  assert (∀ q, owned down s q → owned down (mkC (mkWorld (set_head (rg (wd s)) (p + 1)) (lg (wd s)) (outs (wd s)))
            (<[i := DData p]> (thr s))) q) as Hk.
  { intros q Hq. by eapply (owned_keep s i _ Hi) in Hq as [|]. }
  split; simpl; [| done |..].
  - intros q x Hq. destruct (Ho q x Hq) as (? & ? & Hno). split_and!; [lia..|done|].
    intros [[= ->]|(j & u & _ & ? & ?)]%owned_step; [lia|]. apply Hno. by exists j, u.
  - intros q Hq. destruct (decide (q = p)) as [->|]; [right; by apply owned_new|].
    destruct (Hb q); [lia|by left|right; by apply Hk].
  - intros q Hq. rewrite (owned_same s i _ Hi) by done. apply Hm. lia.
  - intros q Hq. destruct (decide (q = p + 256)) as [->|].
    + right. apply owned_new. simpl. f_equal. lia.
    + destruct (Ha q); [lia|by left|right; by apply Hk].
Qed.

Lemma acct_publish ptr p :
  thr s !! i = Some (EPub ptr p) →
  acct (mkC (mkWorld (store_sequence (rg (wd s)) p (p +64 1)) (lg (wd s)) (outs (wd s)))
            (<[i := EDone true]> (thr s))).
Proof.
  intros Hi. destruct Hinv as [Hw Ht _ [Ho Hn Hb Hm Ha]]. world_facts (wd s) Hw.
  destruct (Ht i _ Hi) as (Hp & Hs & _). rewrite (wrap64_small (p + 1)) by lia.
  split; simpl; [| done |..]; intros q; rewrite ?(owned_same s i _ Hi) by done; try done.
  - intros x Hq. rewrite (owned_same s i _ Hi) by done. by apply Ho.
  - intros Hq. by apply Hb.
  - intros Hq. rewrite seqat_store_sequence by done.
    destruct (Hm q Hq) as [Hsq|Hsq].
    + rewrite decide_False; [by left|]. intros E. rewrite <- (seqat_slot _ _ _ E) in Hsq. lap.
    + eapply (owned_keep s i _ Hi) in Hsq as [[= ->]|]; [|by right]. left. by rewrite decide_True.
  - intros Hq. rewrite seqat_store_sequence by done.
    destruct (Ha q Hq) as [Hsq|]; [|by right]. left. rewrite decide_False; [done|].
    intros E. rewrite <- (seqat_slot _ _ _ E) in Hsq. lia.
Qed.

Lemma acct_release p x :
  thr s !! i = Some (DRel p x) →
  acct (mkC (mkWorld (store_sequence (rg (wd s)) p (p +64 Capacity)) (lg (wd s)) (outs (wd s) ++ [(p, x)]))
            (<[i := DDone (Some x)]> (thr s))).
Proof.
  intros Hi. destruct Hinv as [Hw Ht Hap [Ho Hn Hb Hm Ha]]. world_facts (wd s) Hw.
  destruct (Ht i _ Hi) as (Hp & Hs & Hl). change Capacity with 256.
  rewrite (wrap64_small (p + 256)) by lia.
  assert (owned down s p) as Hown by (by exists i, (DRel p x)).
  split; simpl.
  - intros q y [Hq|[= -> ->]%list_elem_of_singleton]%elem_of_app.
    + destruct (Ho q y Hq) as (? & ? & Hno). split_and!; [lia..|done|].
      intros [?|(j & u & _ & ? & ?)]%owned_step; [done|]. apply Hno. by exists j, u.
    + split_and!; [lia..|done|]. intros [?|(j & u & Hij & Hj & Hu)]%owned_step; [done|].
      by apply (Hap i j _ u Hij Hi Hj p).
  - rewrite fmap_app. apply NoDup_app. split_and!; [done| |apply NoDup_singleton].
    intros q Hq ->%list_elem_of_singleton. apply list_elem_of_fmap in Hq as ([? y] & E & Hq).
    simpl in E. subst. by apply (Ho _ y Hq).
  - intros q Hq. rewrite fmap_app, elem_of_app. simpl. destruct (Hb q Hq) as [|Ho']; [by left; left|].
    eapply (owned_keep s i _ Hi) in Ho' as [[= ->]|]; [|by right]. left. right. by apply list_elem_of_singleton.
  - intros q Hq. rewrite (owned_same s i _ Hi), seqat_store_sequence by done.
    destruct (Hm q Hq) as [Hsq|]; [|by right]. left. rewrite decide_False; [done|].
    intros E. rewrite <- (seqat_slot _ _ _ E) in Hsq. lia.
  - intros q Hq. rewrite seqat_store_sequence by done. destruct (Ha q Hq) as [Hsq|Hsq].
    + left. rewrite decide_False; [done|]. intros E. rewrite <- (seqat_slot _ _ _ E) in Hsq. lap.
    + eapply (owned_keep s i _ Hi) in Hsq as [[= Hsq]|]; [|by right]. left.
      replace q with (p + 256) by lia. rewrite slot8_lap, decide_True by done. lia.
Qed.

(** Steps that claim and hand on nothing. *)
Lemma acct_same t w' t' :
  thr s !! i = Some t → eown t' = eown t → down t' = down t →
  head (rg w') = head (rg (wd s)) → tail (rg w') = tail (rg (wd s)) →
  lg w' = lg (wd s) → outs w' = outs (wd s) → (∀ p, seqat w' p = seqat (wd s) p) →
  acct (mkC w' (<[i := t']> (thr s))).
Proof.
  intros Hi He Hd Hh Ht Hl Hou Hs. destruct Hinv as [_ _ _ [Ho Hn Hb Hm Ha]].
  split; simpl; rewrite ?Hh, ?Ht, ?Hl, ?Hou; try done; intros p; rewrite ?Hs, ?(owned_same s i _ Hi) by done; auto.
  intros x. rewrite (owned_same s i _ Hi) by done. apply Ho.
Qed.

End Accounting.

(** ** Preservation *)

Lemma signed_zero a b : 0 ≤ a < W64 → 0 ≤ b < W64 → to_signed64 (a - b) = 0 → a = b.
Proof.
  unfold to_signed64, wrap64, W64. intros Ha Hb. zcases; Z.div_mod_to_equations; lia.
Qed.

Lemma after_seq_enq_inv w ptr t :
  winv w → 0 ≤ t ≤ tail (rg w) →
  tinv w (after_seq_enq w ptr t) ∧ eown (after_seq_enq w ptr t) = None
  ∧ down (after_seq_enq w ptr t) = None.
Proof.
  intros Hw Ht. world_facts w Hw. unfold after_seq_enq.
  destruct (Z.ltb_spec (to_signed64 (c_sequence (cell_at (rg w) t) - t)) 0); [done|].
  destruct (Z.eqb_spec (to_signed64 (c_sequence (cell_at (rg w) t) - t)) 0) as [E|]; [|done].
  simpl. split_and!; try done; try lia. intros _. rewrite cell_at_slot in E.
  apply signed_zero in E; [done|apply (w_seq w Hw t)|lia].
Qed.

Lemma after_seq_deq_inv w h :
  winv w → 0 ≤ h ≤ head (rg w) →
  tinv w (after_seq_deq w h) ∧ eown (after_seq_deq w h) = None ∧ down (after_seq_deq w h) = None.
Proof.
  intros Hw Ht. world_facts w Hw. unfold after_seq_deq. rewrite wrap64_small by lia.
  destruct (Z.ltb_spec (to_signed64 (c_sequence (cell_at (rg w) h) - (h + 1))) 0); [done|].
  destruct (Z.eqb_spec (to_signed64 (c_sequence (cell_at (rg w) h) - (h + 1))) 0) as [E|]; [|done].
  simpl. split_and!; try done; try lia. intros _. rewrite cell_at_slot in E.
  apply signed_zero in E; [done|apply (w_seq w Hw h)|lia].
Qed.

(** An owner's position is below the counter it was claimed from. *)
Lemma owner_below w u p : tinv w u →
  (eown u = Some p → p < tail (rg w)) ∧ (down u = Some p → p < head (rg w)).
Proof. intros Hu. destruct u; split; intros ?; simplify_eq/=; destruct_and!; lia. Qed.

(** A step of thread [i] that claims at most a fresh position. *)
Lemma vyukov_cinv_update s i t w' t' :
  cinv s → thr s !! i = Some t →
  winv w' → tinv w' t' → (∀ j u, i ≠ j → thr s !! j = Some u → tinv w' u) →
  (∀ p, eown t' = Some p → eown t = Some p ∨ tail (rg (wd s)) ≤ p) →
  (∀ p, down t' = Some p → down t = Some p ∨ head (rg (wd s)) ≤ p) →
  acct (mkC w' (<[i := t']> (thr s))) → cinv (mkC w' (<[i := t']> (thr s))).
Proof.
  intros [Hw Ht Ha _] Hi Hw' Ht' Ho He Hd Hacct.
  assert (∀ j u p, i ≠ j → thr s !! j = Some u →
    (eown t' = Some p → eown u ≠ Some p) ∧ (down t' = Some p → down u ≠ Some p)) as Hap.
  { intros j u p Hij Hj. destruct (Ha i j t u Hij Hi Hj p) as [H1 H2].
    destruct (owner_below _ u p (Ht j u Hj)) as [B1 B2]. split.
    - intros [?|?]%He; [by auto|]. intros ?%B1. lia.
    - intros [?|?]%Hd; [by auto|]. intros ?%B2. lia. }
  split; simpl; [done| | |done].
  - intros j u Hj. destruct (decide (i = j)) as [<-|Hij].
    + rewrite lookup_insert_eq in Hj. by simplify_eq.
    + rewrite lookup_insert_ne in Hj by done. by apply (Ho j).
  - intros a b u v Hab Hu Hv p.
    destruct (decide (i = a)) as [<-|]; destruct (decide (i = b)) as [<-|]; try done.
    + rewrite lookup_insert_eq in Hu. rewrite lookup_insert_ne in Hv by done. simplify_eq.
      by apply (Hap b).
    + rewrite lookup_insert_eq in Hv. rewrite lookup_insert_ne in Hu by done. simplify_eq.
      destruct (Hap a u p) as [P Q]; [done|done|]. split; intros Hx Hy; [by apply P|by apply Q].
    + rewrite lookup_insert_ne in Hu, Hv by done. by apply (Ha a b).
Qed.

(** Steps that change no shared location. *)
Lemma vyukov_cinv_quiet s i t t' :
  cinv s → thr s !! i = Some t → tinv (wd s) t' → eown t' = eown t → down t' = down t →
  cinv (mkC (wd s) (<[i := t']> (thr s))).
Proof.
  intros Hc Hi Ht' He Hd. apply (vyukov_cinv_update s i t); try done.
  - apply Hc.
  - intros j u _. apply Hc.
  - intros p. rewrite He. by left.
  - intros p. rewrite Hd. by left.
  - by apply (acct_same s i Hc t).
Qed.

(** The five steps that write a shared location. *)
Section Writes.
Context (s : cstate) (i : nat) (Hc : cinv s).

Lemma other_owner t j u p :
  thr s !! i = Some t → i ≠ j → thr s !! j = Some u →
  (eown t = Some p → eown u ≠ Some p) ∧ (down t = Some p → down u ≠ Some p).
Proof. intros. by apply (c_apart s Hc i j). Qed.

Lemma cinv_claim_tail ptr t :
  thr s !! i = Some (ECas ptr t) → tail (rg (wd s)) = t →
  Z.of_nat (length (lg (wd s) ++ [ptr])) + Capacity < W64 →
  cinv (mkC (mkWorld (set_tail (rg (wd s)) (t +64 1)) (lg (wd s) ++ [ptr]) (outs (wd s)))
            (<[i := EData ptr t]> (thr s))).
Proof.
  intros Hi E Hb. pose proof (c_world s Hc) as Hw. pose proof (c_thread s Hc i _ Hi) as Ht.
  destruct (winv_claim_tail _ _ _ Hw Ht E Hb) as [Hw' Ht'].
  apply (vyukov_cinv_update s i (ECas ptr t)); try done.
  - intros j u _ Hj. apply (tinv_grow (wd s)); try done; [|by exists [ptr]|by apply (c_thread s Hc j)].
    pose proof (w_head _ Hw'). pose proof (w_log _ Hw') as Hl. simpl in *. rewrite Hl, length_app.
    pose proof (w_log _ Hw). lia.
  - intros p [= <-]. right. lia.
  - by apply acct_claim_tail.
Qed.

Lemma cinv_claim_head h :
  thr s !! i = Some (DCas h) → head (rg (wd s)) = h →
  cinv (mkC (mkWorld (set_head (rg (wd s)) (h +64 1)) (lg (wd s)) (outs (wd s)))
            (<[i := DData h]> (thr s))).
Proof.
  intros Hi E. pose proof (c_world s Hc) as Hw. pose proof (c_thread s Hc i _ Hi) as Ht.
  destruct (winv_claim_head _ _ Hw Ht E) as [Hw' Ht'].
  apply (vyukov_cinv_update s i (DCas h)); try done.
  - intros j u _ Hj. apply (tinv_grow (wd s)); try done; [|by apply (c_thread s Hc j)].
    world_facts (wd s) Hw. simpl. rewrite wrap64_small; lia.
  - intros p [= <-]. right. lia.
  - by apply acct_claim_head.
Qed.

Lemma cinv_store_data ptr t :
  thr s !! i = Some (EData ptr t) →
  cinv (mkC (mkWorld (store_data (rg (wd s)) t ptr) (lg (wd s)) (outs (wd s)))
            (<[i := EPub ptr t]> (thr s))).
Proof.
  intros Hi. pose proof (c_world s Hc) as Hw. pose proof (c_thread s Hc i _ Hi) as Ht.
  destruct (winv_store_data _ _ _ Hw Ht) as [Hw' Ht'].
  apply (vyukov_cinv_update s i (EData ptr t)); try done.
  - intros j u Hij Hj. apply tinv_store_data; [done|apply Ht| |by apply (c_thread s Hc j)].
    by apply (other_owner (EData ptr t) j).
  - by left.
  - apply (acct_same s i Hc (EData ptr t)); try done.
    intros p. apply seqat_store_data; [apply Hw|done].
Qed.

Lemma vyukov_cinv_publish ptr t :
  thr s !! i = Some (EPub ptr t) →
  cinv (mkC (mkWorld (store_sequence (rg (wd s)) t (t +64 1)) (lg (wd s)) (outs (wd s)))
            (<[i := EDone true]> (thr s))).
Proof.
  intros Hi. pose proof (c_world s Hc) as Hw. pose proof (c_thread s Hc i _ Hi) as Ht.
  pose proof (winv_publish _ _ _ (outs (wd s)) Hw Ht) as Hw'. destruct Ht as (Hp & Hs & _).
  apply (vyukov_cinv_update s i (EPub ptr t)); try done.
  - intros j u Hij Hj. apply tinv_store_sequence; [done| |by apply (c_thread s Hc j)].
    left. split_and!; [done|lia|]. by apply (other_owner (EPub ptr t) j).
  - by eapply acct_publish.
Qed.

Lemma cinv_release h x :
  thr s !! i = Some (DRel h x) →
  cinv (mkC (mkWorld (store_sequence (rg (wd s)) h (h +64 Capacity)) (lg (wd s)) (outs (wd s) ++ [(h, x)]))
            (<[i := DDone (Some x)]> (thr s))).
Proof.
  intros Hi. pose proof (c_world s Hc) as Hw. pose proof (c_thread s Hc i _ Hi) as Ht.
  pose proof (winv_release _ _ _ (outs (wd s) ++ [(h, x)]) Hw Ht) as Hw'. destruct Ht as (Hp & Hs & _).
  apply (vyukov_cinv_update s i (DRel h x)); try done.
  - intros j u Hij Hj. apply tinv_store_sequence; [done| |by apply (c_thread s Hc j)].
    right. split_and!; [done|lia|]. by apply (other_owner (DRel h x) j).
  - by apply acct_release.
Qed.

End Writes.

Lemma vyukov_cstep_inv s s' : cinv s → cstep s s' → cinv s'.
Proof.
  intros Hc Hs. destruct Hs as [s i t w' t' Hi Hs Hb].
  pose proof (c_world s Hc) as Hw. pose proof (c_thread s Hc i t Hi) as Ht.
  world_facts (wd s) Hw. remember (wd s) as w eqn:Ew.
  destruct Hs as [w t ptr Hr|w t Hr|w ptr|w ptr t|w ptr t E|w ptr t|w ptr t|w ptr t
    |w|w h|w h E|w h|w h|w h x]; subst w; cbn [tinv lg] in *.
  1-2: by apply (vyukov_cinv_quiet s i t); [..|destruct t|destruct t].
  - by apply (vyukov_cinv_quiet s i (ELoad ptr)); [..|simpl; lia| |].
  - destruct (after_seq_enq_inv (wd s) ptr t) as (? & ? & ?); [done|lia|].
    by apply (vyukov_cinv_quiet s i (ESeq ptr t)).
  - by apply cinv_claim_tail.
  - by apply (vyukov_cinv_quiet s i (ECas ptr t)); [..|simpl; lia| |].
  - by apply cinv_store_data.
  - by eapply vyukov_cinv_publish.
  - by apply (vyukov_cinv_quiet s i DLoad); [..|simpl; lia| |].
  - destruct (after_seq_deq_inv (wd s) h) as (? & ? & ?); [done|lia|].
    by apply (vyukov_cinv_quiet s i (DSeq h)).
  - by apply cinv_claim_head.
  - by apply (vyukov_cinv_quiet s i (DCas h)); [..|simpl; lia| |].
  - apply (vyukov_cinv_quiet s i (DData h)); try done. destruct Ht as [Hh Hs].
    destruct (w_ready _ Hw h ltac:(lia) Hs) as [_ Hl]. simpl. by rewrite cell_at_slot.
  - by apply cinv_release.
Qed.

Lemma vyukov_cinit_inv m : cinv (cinit m).
Proof.
  assert (∀ i t, thr (cinit m) !! i = Some t → t = Idle) as Hidle.
  { intros i t H. apply elem_of_list_to_map_2 in H.
    apply list_elem_of_fmap in H as (? & ? & _). by simplify_eq. }
  pose proof make_rep as [Hlen _ _ _ _ Hfree].
  assert (∀ p, seqat (wd (cinit m)) p = p mod 256) as Hseq.
  { intros p. unfold seqat. change (rg (wd (cinit m))) with make.
    pose proof (Z.mod_pos_bound p 256 eq_refl).
    destruct (Hfree (p mod 256)) as [d Hd]; [simpl; lia|].
    rewrite Z.add_0_l in Hd. rewrite wrap64_small in Hd by (unfold W64; lia).
    assert (slot 8 (p mod 256) = slot 8 p) as E.
    { unfold slot. change (2 ^ 8) with 256. by rewrite Z.mod_mod. }
    rewrite E in Hd. by rewrite (list_lookup_total_correct _ _ _ Hd). }
  split.
  - split; try done; intros p; rewrite Hseq; pose proof (Z.mod_pos_bound p 256 eq_refl);
      unfold W64; change (head (rg (wd (cinit m)))) with 0; intros;
      Z.div_mod_to_equations; lia.
  - intros i t H. by rewrite (Hidle _ _ H).
  - intros i j t u _ Hi _. by rewrite (Hidle _ _ Hi).
  - split; change (outs (wd (cinit m))) with (@nil (Z * Z)); change (head (rg (wd (cinit m)))) with 0;
      change (tail (rg (wd (cinit m)))) with 0; try (intros; lia).
    + intros p x H. by apply not_elem_of_nil in H.
    + constructor.
    + intros p Hp. left. rewrite Hseq. apply Z.mod_small. lia.
Qed.

Lemma vyukov_reachable_inv m s : reachable m s → cinv s.
Proof.
  intros Hr. eapply steps_invariant; [|apply vyukov_cstep_inv|done]. apply vyukov_cinit_inv.
Qed.

(** ** Properties *)

Definition quiescent (s : cstate) : Prop := ∀ i t, thr s !! i = Some t → resting t = true.

Lemma quiescent_owned s p : quiescent s → ¬ owned eown s p ∧ ¬ owned down s p.
Proof. intros Hq. split; intros (i & t & Ht & E); apply Hq in Ht; by destruct t. Qed.

(** The finished dequeues are, up to order, the claimed prefix of the history. *)
Lemma outs_prefix s :
  cinv s → quiescent s →
  (outs (wd s)).*2 ≡ₚ take (Z.to_nat (head (rg (wd s)))) (lg (wd s)).
Proof.
  intros [Hw _ _ [Ho Hn Hb _ _]] Hq. world_facts (wd s) Hw.
  set (n := head (rg (wd s))) in *.
  assert (outs (wd s) ≡ₚ zip (seqZ 0 n) (take (Z.to_nat n) (lg (wd s)))) as E.
  { assert (length (take (Z.to_nat n) (lg (wd s))) = length (seqZ 0 n)) as Hlen.
    { rewrite length_take, length_seqZ. lia. }
    apply NoDup_Permutation.
    - by eapply NoDup_fmap_1.
    - apply (NoDup_fmap_1 fst). rewrite fst_zip by lia. apply NoDup_seqZ.
    - intros [p x]. rewrite elem_of_lookup_zip_with. split.
      + intros Hin. destruct (Ho p x Hin) as (Hp & Hl & _). exists (Z.to_nat p), p, x.
        split_and!; [done| |by rewrite lookup_take_lt by lia].
        rewrite lookup_seqZ_lt by lia. f_equal. lia.
      + intros (k & p' & x' & [= -> ->] & [Hk1 Hk2]%lookup_seqZ & Hk).
        apply lookup_take_Some in Hk as [Hk _].
        destruct (Hb (0 + Z.of_nat k)) as [Hin|Hin]; [lia| |by apply (quiescent_owned s) in Hin].
        apply list_elem_of_fmap in Hin as ([p y] & Hpy & Hin). simpl in Hpy. subst p'.
        destruct (Ho p y Hin) as (_ & Hl & _). rewrite <- Hpy in *.
        replace (Z.to_nat (0 + Z.of_nat k)) with k in Hl by lia. by simplify_eq. }
  rewrite E, snd_zip; [done|]. rewrite length_take, length_seqZ. lia.
Qed.

(** The pool's return ring under any interleaving of any number of
    enqueuers and dequeuers: every position is dequeued at most once, a
    finished dequeue got the value whose enqueue claimed that position, a
    position being dequeued is not also finished, and never more than 256
    values are outstanding. *)
Theorem vyukov_exactly_once (m : nat) (s : cstate) :
  reachable m s →
  NoDup (outs (wd s)).*1
  ∧ (∀ p x, (p, x) ∈ outs (wd s) →
       0 ≤ p < head (rg (wd s)) ∧ lg (wd s) !! Z.to_nat p = Some x ∧ ¬ owned down s p)
  ∧ (∀ i j t u p, i ≠ j → thr s !! i = Some t → thr s !! j = Some u →
       (eown t = Some p → eown u ≠ Some p) ∧ (down t = Some p → down u ≠ Some p))
  ∧ head (rg (wd s)) ≤ tail (rg (wd s)) ≤ head (rg (wd s)) + Capacity
  ∧ tail (rg (wd s)) = Z.of_nat (length (lg (wd s))).
Proof.
  intros [Hw Ht Ha [Ho Hn _ _ _]]%vyukov_reachable_inv. world_facts (wd s) Hw. change Capacity with 256.
  split_and!; try done; try lia. intros. by eapply Ha.
Qed.

(** C8: whenever no operation is in progress, however the previous ones
    interleaved, the ring is the sequential ring holding the enqueued values
    that have not been dequeued, oldest first, and the values dequeued are
    exactly the older ones: nothing is lost, duplicated or invented. *)
Theorem vyukov_quiescent_refines (m : nat) (s : cstate) :
  reachable m s → quiescent s →
  rep (rg (wd s)) (head (rg (wd s))) (drop (Z.to_nat (head (rg (wd s)))) (lg (wd s)))
  ∧ (outs (wd s)).*2 ≡ₚ take (Z.to_nat (head (rg (wd s)))) (lg (wd s)).
Proof.
  intros Hc%vyukov_reachable_inv Hq. split; [|by apply outs_prefix].
  destruct Hc as [Hw _ _ [_ _ _ Hm Ha]]. world_facts (wd s) Hw.
  assert (∀ p, buffer (rg (wd s)) !! slot 8 p
    = Some (mkCell (seqat (wd s) p) (datat (wd s) p))) as Hcell.
  { intros p. assert (slot 8 p < 256)%nat by (apply (slot_lt 8); lia).
    destruct (lookup_lt_is_Some_2 (buffer (rg (wd s))) (slot 8 p)) as [c Hp]; [lia|].
    unfold seqat, datat. rewrite (list_lookup_total_correct _ _ _ Hp), Hp. by destruct c. }
  split; rewrite ?length_drop.
  - done.
  - by rewrite wrap64_small by lia.
  - rewrite wrap64_small; lia.
  - lia.
  - intros j x Hj. rewrite lookup_drop in Hj. pose proof (lookup_lt_Some _ _ _ Hj).
    rewrite Hcell. destruct (Hm (head (rg (wd s)) + Z.of_nat j)) as [Es|Es];
      [lia| |by apply (quiescent_owned s) in Es].
    destruct (w_ready _ Hw (head (rg (wd s)) + Z.of_nat j) ltac:(lia) Es) as [_ Hl].
    replace (Z.to_nat (head (rg (wd s)) + Z.of_nat j)) with (Z.to_nat (head (rg (wd s))) + j)%nat in Hl by lia.
    rewrite Es, wrap64_small by lia. by simplify_eq.
  - intros j Hj. rewrite Hcell. destruct (Ha (head (rg (wd s)) + j)) as [Es|Es];
      [lia| |by apply (quiescent_owned s) in Es].
    rewrite Es, wrap64_small by lia. eauto.
Qed.

(** ** Running a schedule

    [advance] is the next access of a thread inside an operation, its
    compare-exchange succeeding when it can; a schedule says which thread
    starts which operation and which thread moves. *)

Definition advance (w : world) (t : tstate) : world * tstate :=
  match t with
  | ELoad ptr => (w, ESeq ptr (tail (rg w)))
  | ESeq ptr t => (w, after_seq_enq w ptr t)
  | ECas ptr t =>
      if tail (rg w) =? t
      then (mkWorld (set_tail (rg w) (t +64 1)) (lg w ++ [ptr]) (outs w), EData ptr t)
      else (w, ESeq ptr (tail (rg w)))
  | EData ptr t => (mkWorld (store_data (rg w) t ptr) (lg w) (outs w), EPub ptr t)
  | EPub ptr t => (mkWorld (store_sequence (rg w) t (t +64 1)) (lg w) (outs w), EDone true)
  | DLoad => (w, DSeq (head (rg w)))
  | DSeq h => (w, after_seq_deq w h)
  | DCas h =>
      if head (rg w) =? h
      then (mkWorld (set_head (rg w) (h +64 1)) (lg w) (outs w), DData h)
      else (w, DSeq (head (rg w)))
  | DData h => (w, DRel h (c_data (cell_at (rg w) h)))
  | DRel h x =>
      (mkWorld (store_sequence (rg w) h (h +64 Capacity)) (lg w) (outs w ++ [(h, x)]), DDone (Some x))
  | _ => (w, t)
  end.

Lemma vyukov_advance_step w t : resting t = false → tstep w t (advance w t).1 (advance w t).2.
Proof. intros Hr. destruct t; try done; simpl; try constructor; zcases; by constructor. Qed.

Inductive act := CallEnq (i : nat) (ptr : Z) | CallDeq (i : nat) | Go (i : nat).

Definition go (s : cstate) (i : nat) (r : world * tstate) : option cstate :=
  if Z.of_nat (length (lg r.1)) + Capacity <? W64 then Some (mkC r.1 (<[i := r.2]> (thr s))) else None.

Definition play1 (s : cstate) (a : act) : option cstate :=
  match a with
  | CallEnq i ptr => t ← thr s !! i; if resting t then go s i (wd s, ELoad ptr) else None
  | CallDeq i => t ← thr s !! i; if resting t then go s i (wd s, DLoad) else None
  | Go i => t ← thr s !! i; if resting t then None else go s i (advance (wd s) t)
  end.

Lemma vyukov_play1_step s a s' : play1 s a = Some s' → cstep s s'.
Proof.
  intros H. unfold play1, go in H.
  destruct a as [i ptr|i|i]; destruct (thr s !! i) as [t|] eqn:Hi; try done; simpl in H;
    destruct (resting t) eqn:Hr; try done;
    repeat (case_match; try done); simplify_eq;
    eapply (cstep_thread s i t); try done; try lia; try (by constructor); by apply vyukov_advance_step.
Qed.

(** Two enqueuers race for position 0; the loser retries and gets position 1;
    a dequeuer that saw the ring empty comes back and gets position 0. *)
Definition example_sched : list act :=
  [CallDeq 2; Go 2; Go 2; CallEnq 0 7; CallEnq 1 8; Go 0; Go 1; Go 0; Go 1; Go 1; Go 0;
   Go 0; Go 0; Go 0; Go 1; Go 1; CallDeq 2; Go 2; Go 2; Go 0; Go 2; Go 2; Go 2].

Definition example_state : cstate := default (cinit 3) (play play1 (cinit 3) example_sched).

Lemma example_reachable : reachable 3 example_state.
Proof. apply (play_steps _ play1 _ example_sched); [apply vyukov_play1_step|]. vm_compute. reflexivity. Qed.

(** Witnesses on that run: thread 1 claimed position 0, thread 2 got its 8. *)
Lemma vyukov_exactly_once_witness :
  outs (wd example_state) = [(0, 8)] ∧ NoDup (outs (wd example_state)).*1.
Proof.
  split; [vm_compute; reflexivity|].
  exact (proj1 (vyukov_exactly_once 3 example_state example_reachable)).
Defined.

Lemma example_quiescent : quiescent example_state.
Proof.
  change (map_Forall (λ _ t, resting t = true) (thr example_state)).
  apply (bool_decide_unpack _). vm_compute. exact I.
Qed.

Lemma vyukov_quiescent_refines_witness :
  rep (rg (wd example_state)) 1 [7] ∧ (outs (wd example_state)).*2 ≡ₚ [8].
Proof.
  pose proof (vyukov_quiescent_refines 3 example_state example_reachable example_quiescent) as H.
  assert (head (rg (wd example_state)) = 1) as E1 by (vm_compute; reflexivity).
  assert (lg (wd example_state) = [8; 7]) as E2 by (vm_compute; reflexivity).
  rewrite E1, E2 in H. exact H.
Defined.

End VyukovConc.
