(* ===== verification/PoolListConc.v ===== *)
(** The free lists of [memory_pool.cc] under concurrency.

    [StackConc] runs [SizeClassFreeList::push] and [pop] of any number of
    threads, [CentralConc] runs [CentralFreeList::push] and [pop].  A step is
    one access of [head_], of [count_] or of an object's link; steps of
    different threads interleave freely.  [holdings] accounts for the objects
    the threads hold in the middle of an operation. *)
From S2P Require Import Prelude Circ PoolLists.

(** ** Objects spread over threads

    [holdings owns thr] lists what the threads hold; a step of thread [i]
    exchanges that thread's share. *)

Section Holdings.
Context {A T : Type} (owns : T → list A).

Definition holdings (thr : gmap nat T) : list A := map_to_list thr ≫= λ p, owns p.2.

Lemma holdings_step thr i t t' :
  thr !! i = Some t →
  ∃ R, holdings thr ≡ₚ owns t ++ R ∧ holdings (<[i := t']> thr) ≡ₚ owns t' ++ R
    ∧ ∀ j u, i ≠ j → thr !! j = Some u → ∃ R', R ≡ₚ owns u ++ R'.
Proof.
  intros Hi. exists (map_to_list (delete i thr) ≫= λ p, owns p.2). split_and!; unfold holdings.
  - symmetry. by apply (bind_Permutation (λ p, owns p.2) ((i, t) :: _)), map_to_list_delete.
  - rewrite <- insert_delete_eq.
    apply (bind_Permutation (λ p, owns p.2) _ ((i, t') :: _)), map_to_list_insert, lookup_delete_eq.
  - intros j u Hij Hj. exists (holdings (delete j (delete i thr))). symmetry.
    apply (bind_Permutation (λ p, owns p.2) ((j, u) :: _)), map_to_list_delete. by rewrite lookup_delete_ne.
Qed.

(** Moving objects between the shared lists and one thread. *)
Lemma holdings_exchange thr i t t' (l l' U : list A) :
  thr !! i = Some t → l ++ holdings thr ≡ₚ U → l' ++ owns t' ≡ₚ l ++ owns t →
  l' ++ holdings (<[i := t']> thr) ≡ₚ U.
Proof.
  intros Hi HU E. destruct (holdings_step thr i t t' Hi) as (R & H1 & H2 & _).
  by rewrite <- HU, H1, H2, !app_assoc, E.
Qed.

Lemma holdings_in thr i t : thr !! i = Some t → ∃ R, holdings thr ≡ₚ owns t ++ R.
Proof. intros Hi. destruct (holdings_step thr i t t Hi) as (R & H & _). eauto. Qed.

Lemma holdings_two thr i j t u :
  i ≠ j → thr !! i = Some t → thr !! j = Some u → ∃ R, holdings thr ≡ₚ owns t ++ owns u ++ R.
Proof.
  intros Hij Hi Hj. destruct (holdings_step thr i t t Hi) as (R & H & _ & HR).
  destruct (HR j u Hij Hj) as [R' HR']. exists R'. by rewrite H, HR'.
Qed.

Lemma holdings_none thr : (∀ i t, thr !! i = Some t → owns t = []) → holdings thr = [].
Proof.
  intros H. unfold holdings. apply elem_of_nil_inv. intros x Hx.
  apply list_elem_of_bind in Hx as ([i t] & Hx & Hin). apply elem_of_map_to_list in Hin.
  simpl in Hx. rewrite (H i t Hin) in Hx. by apply not_elem_of_nil in Hx.
Qed.

End Holdings.

(** [l] without its first [x]. *)
Fixpoint take_out (x : Z) (l : list Z) : option (list Z) :=
  match l with
  | [] => None
  | y :: l' => if x =? y then Some l' else k ← take_out x l'; Some (y :: k)
  end.

Lemma take_out_perm x l k : take_out x l = Some k → l ≡ₚ x :: k.
Proof.
  revert k. induction l as [|y l IH]; intros k H; simpl in H; [done|].
  destruct (Z.eqb_spec x y) as [->|]; [by simplify_eq|].
  destruct (take_out x l) as [k'|] eqn:E; simplify_eq/=. rewrite (IH k' eq_refl). constructor.
Qed.

(** ** The free list of small objects *)

Module StackConc.

(** [nx] is the [next] field of every object; [client] is the multiset of the
    objects handed out. *)
Record world := mkWorld { hd : Z; nx : gmap Z Z; cnt : Z; client : list Z }.

Inductive tstate :=
| Idle
| PushLoad (node : Z)
| PushLink (node old : Z)
| PushCas (node old : Z)
| PushCount
| PopLoad
| PopNext (old : Z)
| PopCas (old next : Z)
| PopCount (old : Z)
| PopDone (res : option Z).

Definition resting (t : tstate) : bool :=
  match t with Idle | PopDone _ => true | _ => false end.

(** [while (old)] *)
Definition pop_test (old : Z) : tstate := if old =? 0 then PopDone None else PopNext old.

Section Machine.
(** The threads that call [pop]. *)
Context (popper : nat → bool).

Inductive tstep (i : nat) : world → tstate → world → tstate → Prop :=
| call_push w t node c :
    resting t = true → take_out node (client w) = Some c →
    tstep i w t (mkWorld (hd w) (nx w) (cnt w) c) (PushLoad node)
| call_pop w t : popper i = true → resting t = true → tstep i w t w PopLoad
(* the owner of an object writes into it *)
| client_write w t a v :
    resting t = true → a ∈ client w → tstep i w t (mkWorld (hd w) (<[a := v]> (nx w)) (cnt w) (client w)) t
(* push *)
| push_load w node : tstep i w (PushLoad node) w (PushLink node (hd w))
| push_link w node old :
    tstep i w (PushLink node old) (mkWorld (hd w) (<[node := old]> (nx w)) (cnt w) (client w)) (PushCas node old)
| push_cas_ok w node old :
    hd w = old → tstep i w (PushCas node old) (mkWorld node (nx w) (cnt w) (client w)) PushCount
| push_cas_fail w node old : tstep i w (PushCas node old) w (PushLink node (hd w))
| push_count w : tstep i w PushCount (mkWorld (hd w) (nx w) (cnt w +64 1) (client w)) Idle
(* pop *)
| pop_load w : tstep i w PopLoad w (pop_test (hd w))
| pop_next w old v : nx w !! old = Some v → tstep i w (PopNext old) w (PopCas old v)
| pop_cas_ok w old v :
    hd w = old → tstep i w (PopCas old v) (mkWorld v (nx w) (cnt w) (client w)) (PopCount old)
| pop_cas_fail w old v : tstep i w (PopCas old v) w (pop_test (hd w))
| pop_count w old :
    tstep i w (PopCount old) (mkWorld (hd w) (nx w) (cnt w -64 1) (old :: client w)) (PopDone (Some old)).

Record cstate := mkC { wd : world; thr : gmap nat tstate }.

Inductive cstep : cstate → cstate → Prop :=
| cstep_thread s i t w' t' :
    thr s !! i = Some t → tstep i (wd s) t w' t' → cstep s (mkC w' (<[i := t']> (thr s))).

(** An empty list, the client holding the objects [U], [m] idle threads. *)
Definition cinit (U : list Z) (m : nat) : cstate :=
  mkC (mkWorld 0 ∅ 0 U) (list_to_map ((λ i, (i, Idle)) <$> seq 0 m)).

Definition reachable (U : list Z) (m : nat) (s : cstate) : Prop := steps cstep (cinit U m) s.

(** The next access of a thread inside an operation. *)
Definition advance (w : world) (t : tstate) : option (world * tstate) :=
  match t with
  | PushLoad node => Some (w, PushLink node (hd w))
  | PushLink node old =>
      Some (mkWorld (hd w) (<[node := old]> (nx w)) (cnt w) (client w), PushCas node old)
  | PushCas node old =>
      if hd w =? old then Some (mkWorld node (nx w) (cnt w) (client w), PushCount)
      else Some (w, PushLink node (hd w))
  | PushCount => Some (mkWorld (hd w) (nx w) (cnt w +64 1) (client w), Idle)
  | PopLoad => Some (w, pop_test (hd w))
  | PopNext old => v ← nx w !! old; Some (w, PopCas old v)
  | PopCas old v =>
      if hd w =? old then Some (mkWorld v (nx w) (cnt w) (client w), PopCount old)
      else Some (w, pop_test (hd w))
  | PopCount old =>
      Some (mkWorld (hd w) (nx w) (cnt w -64 1) (old :: client w), PopDone (Some old))
  | Idle | PopDone _ => None
  end.

Lemma stack_advance_step i w t w' t' : advance w t = Some (w', t') → tstep i w t w' t'.
Proof.
  intros H. destruct t as [|node|node old|node old| | |old|old v|old|res]; simpl in H;
    simplify_eq; try constructor.
  - destruct (Z.eqb_spec (hd w) old); simplify_eq; by constructor.
  - destruct (nx w !! old) eqn:E; simplify_eq/=. by constructor.
  - destruct (Z.eqb_spec (hd w) old); simplify_eq; by constructor.
Qed.

Inductive act := CallPush (i : nat) (node : Z) | CallPop (i : nat) | Go (i : nat).

Definition play1 (s : cstate) (a : act) : option cstate :=
  match a with
  | CallPush i node =>
      t ← thr s !! i; c ← take_out node (client (wd s));
      if resting t then
        Some (mkC (mkWorld (hd (wd s)) (nx (wd s)) (cnt (wd s)) c) (<[i := PushLoad node]> (thr s)))
      else None
  | CallPop i =>
      t ← thr s !! i;
      if popper i && resting t then Some (mkC (wd s) (<[i := PopLoad]> (thr s))) else None
  | Go i =>
      t ← thr s !! i; r ← advance (wd s) t; Some (mkC r.1 (<[i := r.2]> (thr s)))
  end.

Lemma stack_play1_step s a s' : play1 s a = Some s' → cstep s s'.
Proof.
  intros H. destruct a as [i node|i|i]; simpl in H; destruct (thr s !! i) as [t|] eqn:Hi; try done;
    simpl in H.
  - destruct (take_out node (client (wd s))) as [c|] eqn:Hc; [|done]. simpl in H.
    destruct (resting t) eqn:Hr; simplify_eq. apply (cstep_thread s i t); [done|]. by constructor.
  - destruct (popper i) eqn:Hp, (resting t) eqn:Hr; simplify_eq/=.
    apply (cstep_thread s i t); [done|]. by constructor.
  - destruct (advance (wd s) t) as [[w' t']|] eqn:E; simplify_eq/=.
    apply (cstep_thread s i t); [done|]. by apply stack_advance_step.
Qed.

End Machine.

(** Following [next] from [p] visits [l] and ends. *)
Fixpoint chain (h : gmap Z Z) (p : Z) (l : list Z) : Prop :=
  match l with
  | [] => p = 0
  | a :: l' => p = a ∧ ∃ v, h !! a = Some v ∧ chain h v l'
  end.

Lemma chain_frame h a v p l : a ∉ l → chain h p l → chain (<[a := v]> h) p l.
Proof.
  revert p. induction l as [|b l IH]; intros p Hn; simpl; [done|].
  intros (-> & u & Hu & Hc). apply not_elem_of_cons in Hn as [Hne Hn].
  split; [done|]. exists u. rewrite lookup_insert_ne by done. auto.
Qed.

Lemma chain_suffix h p l1 a l2 : chain h p (l1 ++ a :: l2) → ∃ v, h !! a = Some v ∧ chain h v l2.
Proof.
  revert p. induction l1 as [|b l1 IH]; intros p; simpl.
  - intros (_ & v & ? & ?). eauto.
  - intros (_ & v & _ & H). by apply IH in H.
Qed.

Definition owns (t : tstate) : list Z :=
  match t with
  | PushLoad n | PushLink n _ | PushCas n _ | PopCount n => [n]
  | _ => []
  end.
(** Counter updates a thread still owes. *)
Definition owes_add (t : tstate) : list unit := match t with PushCount => [tt] | _ => [] end.
Definition owes_sub (t : tstate) : list unit := match t with PopCount _ => [tt] | _ => [] end.
Definition popping (t : tstate) : bool :=
  match t with PopLoad | PopNext _ | PopCas _ _ | PopCount _ => true | _ => false end.

Section Invariant.
Context (popper : nat → bool) (one : ∀ i j, popper i = true → popper j = true → i = j).
Context (U : list Z) (HU : NoDup U) (HU0 : 0 ∉ U).

Definition tinv (w : world) (stk : list Z) (t : tstate) : Prop :=
  match t with
  | PushCas n old => nx w !! n = Some old
  | PopNext old => old ∈ stk
  | PopCas old v => ∃ l1 l2, stk = l1 ++ old :: l2 ∧ chain (nx w) v l2
  | _ => True
  end.

Record cinv (s : cstate) (stk : list Z) : Prop := {
  c_chain : chain (nx (wd s)) (hd (wd s)) stk;
  c_perm : (client (wd s) ++ stk) ++ holdings owns (thr s) ≡ₚ U;
  c_cnt : cnt (wd s) = wrap64 (Z.of_nat (length stk) + Z.of_nat (length (holdings owes_sub (thr s)))
                               - Z.of_nat (length (holdings owes_add (thr s))));
  c_popper : ∀ i t, thr s !! i = Some t → popping t = true → popper i = true;
  c_thread : ∀ i t, thr s !! i = Some t → tinv (wd s) stk t
}.

Lemma own_facts s stk i t n :
  cinv s stk → thr s !! i = Some t → n ∈ owns t →
  n ∉ stk ∧ n ≠ 0 ∧ ∀ j u, i ≠ j → thr s !! j = Some u → n ∉ owns u.
Proof.
  intros [_ Hp _ _ _] Hi Hn. destruct (holdings_step owns _ i t t Hi) as (R & HR & _ & Hj).
  rewrite HR in Hp. assert (n ∈ U) as HnU by (rewrite <- Hp; set_solver).
  pose proof HU as Hnd. rewrite <- Hp in Hnd. apply NoDup_app in Hnd as (_ & H1 & H2).
  apply NoDup_app in H2 as (_ & H2 & _). split_and!.
  - intros Hs. apply (H1 n); set_solver.
  - intros ->. done.
  - intros j u Hij Hu Hnu. destruct (Hj j u Hij Hu) as [R' HR']. apply (H2 n Hn). rewrite HR'. set_solver.
Qed.

Lemma client_facts s stk a :
  cinv s stk → a ∈ client (wd s) → a ∉ stk ∧ ∀ j u, thr s !! j = Some u → a ∉ owns u.
Proof.
  intros [_ Hp _ _ _] Ha. pose proof HU as Hnd. rewrite <- Hp in Hnd.
  apply NoDup_app in Hnd as (Hnd & H1 & _). apply NoDup_app in Hnd as (_ & H2 & _).
  split; [by apply H2|]. intros j u Hj Hau. destruct (holdings_in owns _ _ _ Hj) as [R HR].
  apply (H1 a); [|rewrite HR]; set_solver.
Qed.

Lemma stack_facts s stk : cinv s stk → NoDup stk ∧ 0 ∉ stk.
Proof.
  intros [_ Hp _ _ _]. pose proof HU as Hnd. rewrite <- Hp in Hnd.
  apply NoDup_app in Hnd as (Hnd & _ & _). apply NoDup_app in Hnd as (_ & _ & Hnd).
  split; [done|]. intros H0. apply HU0. rewrite <- Hp. set_solver.
Qed.

Lemma tinv_link w stk a v c u :
  a ∉ stk → a ∉ owns u → tinv w stk u → tinv (mkWorld (hd w) (<[a := v]> (nx w)) (cnt w) c) stk u.
Proof.
  intros Hs Ho Hu. destruct u; simpl in *; try done.
  - rewrite lookup_insert_ne; [done|]. set_solver.
  - destruct Hu as (l1 & l2 & -> & Hc). exists l1, l2. split; [done|]. apply chain_frame; set_solver.
Qed.

Lemma stack_cinv_update s stk i t w' t' stk' :
  cinv s stk → thr s !! i = Some t →
  chain (nx w') (hd w') stk' →
  (client w' ++ stk') ++ owns t' ≡ₚ (client (wd s) ++ stk) ++ owns t →
  cnt w' = wrap64 (cnt (wd s) + (Z.of_nat (length stk') - Z.of_nat (length stk))
                   + (Z.of_nat (length (owes_sub t')) - Z.of_nat (length (owes_sub t)))
                   - (Z.of_nat (length (owes_add t')) - Z.of_nat (length (owes_add t)))) →
  (popping t' = true → popper i = true) → tinv w' stk' t' →
  (∀ j u, i ≠ j → thr s !! j = Some u → tinv w' stk' u) →
  cinv (mkC w' (<[i := t']> (thr s))) stk'.
Proof.
  intros [Hc Hp Hn Hpop Ht] Hi Hc' Hp' Hn' Hpop' Ht' Ho. split; simpl; [done|..].
  - by eapply holdings_exchange.
  - rewrite Hn', Hn.
    destruct (holdings_step owes_sub _ i t t' Hi) as (R & E1 & E2 & _).
    destruct (holdings_step owes_add _ i t t' Hi) as (R' & E3 & E4 & _).
    rewrite E1, E2, E3, E4, !length_app, !Nat2Z.inj_add.
    unfold Z.sub. rewrite <- !Z.add_assoc, wrap64_add_l. f_equal. lia.
  - intros j u Hj. destruct (decide (i = j)) as [<-|Hij].
    + rewrite lookup_insert_eq in Hj. by simplify_eq.
    + rewrite lookup_insert_ne in Hj by done. by apply Hpop.
  - intros j u Hj. destruct (decide (i = j)) as [<-|Hij].
    + rewrite lookup_insert_eq in Hj. by simplify_eq.
    + rewrite lookup_insert_ne in Hj by done. by apply (Ho j).
Qed.

Lemma tinv_same_nx w w' stk u : nx w' = nx w → tinv w stk u → tinv w' stk u.
Proof. intros E. destruct u; simpl; by rewrite ?E. Qed.

Lemma tinv_cons w stk n u : tinv w stk u → tinv w (n :: stk) u.
Proof.
  destruct u; simpl; try done; [intros ?; by right|].
  intros (l1 & l2 & -> & Hc). by exists (n :: l1), l2.
Qed.

Lemma cnt_wrapped s stk : cinv s stk → wrap64 (cnt (wd s)) = cnt (wd s).
Proof. intros [_ _ Hn _ _]. rewrite Hn. apply wrap64_idemp. Qed.

(** Steps that move no link and no object of the list. *)
Lemma stack_cinv_quiet s stk i t w' t' :
  cinv s stk → thr s !! i = Some t →
  hd w' = hd (wd s) → nx w' = nx (wd s) → cnt w' = cnt (wd s) →
  client w' ++ owns t' ≡ₚ client (wd s) ++ owns t →
  owes_sub t' = owes_sub t → owes_add t' = owes_add t →
  (popping t' = true → popper i = true) → tinv (wd s) stk t' →
  cinv (mkC w' (<[i := t']> (thr s))) stk.
Proof.
  intros Hc Hi Eh En Ec Hp Hs Ha Hpop Ht. apply (stack_cinv_update s stk i t); try done; simpl.
  - rewrite En, Eh. apply Hc.
  - rewrite <- !app_assoc, (Permutation_app_comm stk), !app_assoc, Hp.
    by rewrite <- !app_assoc, (Permutation_app_comm stk).
  - rewrite Hs, Ha, Ec. replace (_ + _ + _ - _) with (cnt (wd s)) by lia. symmetry. by eapply cnt_wrapped.
  - by apply (tinv_same_nx (wd s)).
  - intros j u _ Hj. apply (tinv_same_nx (wd s)); [done|]. by apply (c_thread _ _ Hc j).
Qed.

Lemma cinv_link s stk i t t' a v :
  cinv s stk → thr s !! i = Some t → a ∉ stk →
  (∀ j u, i ≠ j → thr s !! j = Some u → a ∉ owns u) →
  owns t' = owns t → owes_sub t' = owes_sub t → owes_add t' = owes_add t →
  (popping t' = true → popper i = true) →
  tinv (mkWorld (hd (wd s)) (<[a := v]> (nx (wd s))) (cnt (wd s)) (client (wd s))) stk t' →
  cinv (mkC (mkWorld (hd (wd s)) (<[a := v]> (nx (wd s))) (cnt (wd s)) (client (wd s)))
            (<[i := t']> (thr s))) stk.
Proof.
  intros Hc Hi Ha Ho Hw Hs Had Hpop Ht. apply (stack_cinv_update s stk i t); try done; simpl.
  - apply chain_frame; [done|apply Hc].
  - by rewrite Hw.
  - rewrite Hs, Had. replace (_ + _ + _ - _) with (cnt (wd s)) by lia. symmetry. by eapply cnt_wrapped.
  - intros j u Hij Hj. apply tinv_link; [done|by apply (Ho j)|by apply (c_thread _ _ Hc j)].
Qed.

(** The two successful compare-exchanges. *)
Lemma cinv_push s stk i n old :
  cinv s stk → thr s !! i = Some (PushCas n old) → hd (wd s) = old →
  cinv (mkC (mkWorld n (nx (wd s)) (cnt (wd s)) (client (wd s))) (<[i := PushCount]> (thr s))) (n :: stk).
Proof.
  intros Hc Hi E. pose proof (c_thread _ _ Hc i _ Hi) as Ht. simpl in Ht.
  apply (stack_cinv_update s stk i (PushCas n old)); try done; simpl.
  - split; [done|]. exists old. split; [done|]. rewrite <- E. apply Hc.
  - rewrite app_nil_r. by rewrite <- app_assoc, (Permutation_app_comm stk [n]).
  - rewrite <- (cnt_wrapped s stk Hc) at 1. f_equal. lia.
  - intros j u _ Hj. apply tinv_cons, (tinv_same_nx (wd s)); [done|]. by apply (c_thread _ _ Hc j).
Qed.

Lemma cinv_pop s stk i old v :
  cinv s stk → thr s !! i = Some (PopCas old v) → hd (wd s) = old →
  ∃ stk', cinv (mkC (mkWorld v (nx (wd s)) (cnt (wd s)) (client (wd s))) (<[i := PopCount old]> (thr s))) stk'.
Proof.
  intros Hc Hi E. destruct (c_thread _ _ Hc i _ Hi) as (l1 & l2 & -> & Hch).
  destruct (stack_facts _ _ Hc) as [Hnd _]. pose proof (c_popper _ _ Hc i _ Hi eq_refl) as Hp.
  assert (l1 = []) as ->.
  { destruct l1 as [|b l1]; [done|]. destruct (c_chain _ _ Hc) as [Eb _].
    rewrite <- Eb, E in Hnd. apply NoDup_cons in Hnd as [Hnd _]. set_solver. }
  exists l2. apply (stack_cinv_update s ([] ++ old :: l2) i (PopCas old v)); try done; simpl.
  - rewrite app_nil_r, <- app_assoc. f_equiv. by rewrite Permutation_app_comm.
  - rewrite <- (cnt_wrapped s _ Hc) at 1. f_equal. lia.
  - intros j u Hij Hj. apply (tinv_same_nx (wd s)); [done|].
    pose proof (c_thread _ _ Hc j _ Hj) as Hu. pose proof (c_popper _ _ Hc j _ Hj) as Hpj.
    destruct u; try done; destruct Hij; apply one; auto.
Qed.

Lemma pop_test_inv s stk : cinv s stk → tinv (wd s) stk (pop_test (hd (wd s))).
Proof.
  intros Hc. unfold pop_test. destruct (Z.eqb_spec (hd (wd s)) 0); [done|].
  pose proof (c_chain _ _ Hc) as Hch. destruct stk; [done|].
  destruct Hch as [-> _]. left.
Qed.

(** The counter updates. *)
Lemma cinv_count s stk i t w' t' :
  cinv s stk → thr s !! i = Some t →
  hd w' = hd (wd s) → nx w' = nx (wd s) →
  cnt w' = wrap64 (cnt (wd s) + (Z.of_nat (length (owes_sub t')) - Z.of_nat (length (owes_sub t)))
                   - (Z.of_nat (length (owes_add t')) - Z.of_nat (length (owes_add t)))) →
  client w' ++ owns t' ≡ₚ client (wd s) ++ owns t → resting t' = true →
  cinv (mkC w' (<[i := t']> (thr s))) stk.
Proof.
  intros Hc Hi Eh En Ec Hp Hr. apply (stack_cinv_update s stk i t); try done; simpl.
  - rewrite En, Eh. apply Hc.
  - rewrite <- !app_assoc, (Permutation_app_comm stk), !app_assoc, Hp.
    by rewrite <- !app_assoc, (Permutation_app_comm stk).
  - rewrite Ec. f_equal. lia.
  - by destruct t'.
  - by destruct t'.
  - intros j u _ Hj. apply (tinv_same_nx (wd s)); [done|]. by apply (c_thread _ _ Hc j).
Qed.

Lemma pop_test_owns c :
  owns (pop_test c) = [] ∧ owes_sub (pop_test c) = [] ∧ owes_add (pop_test c) = [].
Proof. unfold pop_test. by destruct (c =? 0). Qed.

Lemma stack_resting_owns t : resting t = true → owns t = [] ∧ owes_sub t = [] ∧ owes_add t = [] ∧ popping t = false.
Proof. by destruct t. Qed.

Lemma cinv_retry s stk i t :
  cinv s stk → thr s !! i = Some t → popping t = true → owns t = [] →
  cinv (mkC (wd s) (<[i := pop_test (hd (wd s))]> (thr s))) stk.
Proof.
  intros Hc Hi Hp Ho. destruct (pop_test_owns (hd (wd s))) as (E1 & E2 & E3).
  apply (stack_cinv_quiet s stk i t); try done; rewrite ?E1, ?E2, ?E3, ?Ho; try by destruct t.
  - intros _. by apply (c_popper _ _ Hc i t).
  - by apply pop_test_inv.
Qed.

Lemma stack_cstep_inv s stk s' : cinv s stk → cstep popper s s' → ∃ stk', cinv s' stk'.
Proof.
  intros Hc Hs. destruct Hs as [s i t w' t' Hi Hs].
  pose proof (c_thread _ _ Hc i t Hi) as Ht. pose proof (c_popper _ _ Hc i t Hi) as Hpi.
  remember (wd s) as w eqn:Ew.
  destruct Hs as [w t n c Hr Hn|w t Hp Hr|w t a v Hr Ha|w n|w n old|w n old E|w n old|w
    |w|w old v Hv|w old v E|w old v|w old]; subst w; simpl in Ht.
  - destruct (stack_resting_owns _ Hr) as (E1 & E2 & E3 & _). exists stk.
    apply (stack_cinv_quiet s stk i t); try done. rewrite E1, app_nil_r. simpl.
    rewrite (take_out_perm _ _ _ Hn). symmetry. apply Permutation_cons_append.
  - destruct (stack_resting_owns _ Hr) as (E1 & E2 & E3 & _). exists stk.
    apply (stack_cinv_quiet s stk i t); try done. by rewrite E1.
  - destruct (client_facts s stk a Hc Ha) as [H1 H2]. destruct (stack_resting_owns _ Hr) as (_ & _ & _ & E).
    exists stk. apply (cinv_link s stk i t); try done; [by eauto|]. by destruct t.
  - exists stk. by apply (stack_cinv_quiet s stk i (PushLoad n)).
  - destruct (own_facts s stk i _ n Hc Hi) as (H1 & _ & H2); [left|].
    exists stk. apply (cinv_link s stk i (PushLink n old)); try done. simpl. apply lookup_insert_eq.
  - exists (n :: stk). by apply (cinv_push s stk i n old).
  - exists stk. by apply (stack_cinv_quiet s stk i (PushCas n old)).
  - exists stk. apply (cinv_count s stk i PushCount); try done. simpl. f_equal. lia.
  - exists stk. by apply (cinv_retry s stk i PopLoad).
  - exists stk. apply (stack_cinv_quiet s stk i (PopNext old)); try done.
    apply list_elem_of_split in Ht as (l1 & l2 & ->). exists l1, l2. split; [done|].
    destruct (chain_suffix _ _ _ _ _ (c_chain _ _ Hc)) as (v' & Hv' & Hch). by simplify_eq.
  - by apply (cinv_pop s stk i old v).
  - exists stk. by apply (cinv_retry s stk i (PopCas old v)).
  - exists stk. apply (cinv_count s stk i (PopCount old)); try done; simpl.
    + f_equal. lia.
    + rewrite app_nil_r. apply Permutation_cons_append.
Qed.

Lemma cinit_idle m i t : thr (cinit U m) !! i = Some t → t = Idle.
Proof.
  intros H. apply elem_of_list_to_map_2 in H. apply list_elem_of_fmap in H as (? & ? & _). by simplify_eq.
Qed.

Lemma stack_cinit_inv m : cinv (cinit U m) [].
Proof.
  assert (∀ A (f : tstate → list A), f Idle = [] → holdings f (thr (cinit U m)) = []) as Hh.
  { intros A f Hf. apply holdings_none. intros i t Hi. by rewrite (cinit_idle _ _ _ Hi). }
  split; rewrite ?Hh by done; try done.
  - by rewrite !app_nil_r.
  - intros i t Hi. by rewrite (cinit_idle _ _ _ Hi).
  - intros i t Hi. by rewrite (cinit_idle _ _ _ Hi).
Qed.

Lemma stack_reachable_inv m s : reachable popper U m s → ∃ stk, cinv s stk.
Proof.
  intros Hr. apply (steps_invariant (cstep popper) (λ s, ∃ stk, cinv s stk) (cinit U m)); [| |done].
  - exists []. apply stack_cinit_inv.
  - intros s1 s2 [stk Hc] Hs. by eapply stack_cstep_inv.
Qed.

End Invariant.

(** ** Properties *)

(** C30: with one thread popping and any number pushing (each only objects it
    was handed), the list is a proper chain and every object is in exactly one
    place, handed out, linked, or in the hands of one thread inside an
    operation, even if owners scribble over their objects; when no operation
    is in progress the counter is the length of the list.  No thread follows a
    dangling link: each can take its next step. *)
Theorem free_list_one_popper (popper : nat → bool) (U : list Z) (m : nat) (s : cstate) :
  (∀ i j, popper i = true → popper j = true → i = j) →
  NoDup U → 0 ∉ U → reachable popper U m s →
  ∃ stk, chain (nx (wd s)) (hd (wd s)) stk
    ∧ (client (wd s) ++ stk) ++ holdings owns (thr s) ≡ₚ U
    ∧ ((∀ i t, thr s !! i = Some t → resting t = true) → cnt (wd s) = wrap64 (Z.of_nat (length stk)))
    ∧ (∀ i t, thr s !! i = Some t → resting t = false → ∃ w' t', tstep popper i (wd s) t w' t').
Proof.
  intros Hone HU H0 Hr. destruct (stack_reachable_inv popper Hone U HU H0 m s Hr) as [stk [Hc Hp Hn _ Ht]].
  exists stk. split_and!; [done..| |].
  - intros Hq. rewrite Hn, !holdings_none; [f_equal; simpl; lia|..];
      intros i t Hi; by apply stack_resting_owns, (Hq i t).
  - intros i t Hi Hres. destruct t; try done; try (by eexists _, _; constructor).
    apply Ht in Hi as (l1 & l2 & ->)%list_elem_of_split.
    destruct (chain_suffix _ _ _ _ _ Hc) as (v & Hv & _). by eexists _, _; constructor.
Qed.

(** Thread 0 reads the head 16 and its link 32 and is delayed; thread 1 pops
    16 and 32 and pushes 16 back; thread 0's compare-exchange then succeeds. *)
Definition aba_sched : list act :=
  [CallPush 0 32; Go 0; Go 0; Go 0; Go 0; CallPush 0 16; Go 0; Go 0; Go 0; Go 0;
   CallPop 0; Go 0; Go 0;
   CallPop 1; Go 1; Go 1; Go 1; Go 1; CallPop 1; Go 1; Go 1; Go 1; Go 1;
   CallPush 1 16; Go 1; Go 1; Go 1; Go 1;
   Go 0; Go 0; CallPop 0; Go 0; Go 0; Go 0; Go 0].

(** Two threads popping break [SizeClassFreeList]: the compare-exchange
    of a delayed [pop] succeeds although the list changed and came back to the
    same head, and the object 32 is handed out twice. *)
Theorem free_list_aba :
  ∃ s, reachable (λ _, true) [16; 32] 2 s ∧ client (wd s) = [32; 16; 32].
Proof.
  destruct (play (play1 (λ _, true)) (cinit [16; 32] 2) aba_sched) as [s|] eqn:E; [|by vm_compute in E].
  exists s. split; [apply (play_steps _ (play1 (λ _, true)) _ aba_sched); [apply stack_play1_step|done]|].
  vm_compute in E. by injection E as <-.
Qed.

(** Witness: one popper, one pusher: thread 1 pushes 32 and 16 while thread 0,
    delayed inside [pop] with the head 32 in hand, has to retry. *)
Definition one_popper_sched : list act :=
  [CallPush 1 32; Go 1; Go 1; Go 1; Go 1; CallPush 1 16; Go 1; Go 1; CallPop 0; Go 0; Go 0;
   Go 1; Go 1; Go 0; Go 0; Go 0; Go 0].

Lemma free_list_one_popper_witness :
  ∃ s, reachable (λ i, bool_decide (i = 0%nat)) [16; 32] 2 s ∧ client (wd s) = [16] ∧
    ∃ stk, chain (nx (wd s)) (hd (wd s)) stk ∧ (client (wd s) ++ stk) ++ holdings owns (thr s) ≡ₚ [16; 32].
Proof.
  destruct (play (play1 (λ i, bool_decide (i = 0%nat))) (cinit [16; 32] 2) one_popper_sched) as [s|] eqn:E;
    [|by vm_compute in E].
  assert (reachable (λ i, bool_decide (i = 0%nat)) [16; 32] 2 s) as Hr.
  { apply (play_steps _ (play1 (λ i, bool_decide (i = 0%nat))) _ one_popper_sched); [apply stack_play1_step|done]. }
  exists s. split; [done|]. split; [vm_compute in E; by injection E as <-|].
  destruct (free_list_one_popper (λ i, bool_decide (i = 0%nat)) [16; 32] 2 s) as (stk & H1 & H2 & _).
  - intros i j Hi%bool_decide_eq_true Hj%bool_decide_eq_true. by subst.
  - apply (bool_decide_unpack _). by vm_compute.
  - apply (bool_decide_unpack _). by vm_compute.
  - exact Hr.
  - exists stk. split; assumption.
Defined.

End StackConc.

(** ** The free list of medium objects *)

Module CentralConc.
Import Central.

(** [stk] is the content of the shared list, [client] the objects handed out,
    [served] the requests answered: size asked for, object, its size. *)
Record world := mkWorld {
  cfl : CentralFreeList; stk : list (Z * Z); client : list Z; served : list (Z * Z * Z) }.

(** The lists the states carry are the objects the thread holds; they do not
    influence what it does. *)
Inductive tstate :=
| Idle
| PushInit (node size : Z)
| PushLoad (node size : Z)
| PushLink (node size old : Z)
| PushCas (node size old : Z)
| PopExch (min : Z)
| PopScan (min chain : Z) (held : list (Z * Z))
| PopLoad (min found chain tail : Z) (held : list (Z * Z))
| PopLink (min found chain tail old : Z) (held : list (Z * Z))
| PopCas (min found chain tail old : Z) (held : list (Z * Z))
| PopRet (min found : Z)
| PopDone (res : option Z).

Definition resting (t : tstate) : bool :=
  match t with Idle | PopDone _ => true | _ => false end.

Definition set_c_head (c : CentralFreeList) (v : Z) : CentralFreeList := mkCentral v (c_heap c).
Definition set_c_heap (c : CentralFreeList) (h : gmap Z FreeNode) : CentralFreeList := mkCentral (c_head c) h.
(** [node->size = size;] *)
Definition set_size (h : gmap Z FreeNode) (p v : Z) : gmap Z FreeNode :=
  <[p := mkFree v (default 0 (f_next <$> h !! p))]> h.
Definition size_of (h : gmap Z FreeNode) (p : Z) : Z := default 0 (f_size <$> h !! p).

Definition put (w : world) (c : CentralFreeList) : world := mkWorld c (stk w) (client w) (served w).

Inductive tstep : world → tstate → world → tstate → Prop :=
| call_push w t node size c :
    resting t = true → take_out node (client w) = Some c →
    tstep w t (mkWorld (cfl w) (stk w) c (served w)) (PushInit node size)
| call_pop w t min : resting t = true → tstep w t w (PopExch min)
(* the owner of an object writes into it *)
| client_write w t a n :
    resting t = true → a ∈ client w → tstep w t (put w (set_c_heap (cfl w) (<[a := n]> (c_heap (cfl w))))) t
(* push *)
| push_size w node size :
    tstep w (PushInit node size) (put w (set_c_heap (cfl w) (set_size (c_heap (cfl w)) node size)))
      (PushLoad node size)
| push_load w node size : tstep w (PushLoad node size) w (PushLink node size (c_head (cfl w)))
| push_link w node size old :
    tstep w (PushLink node size old)
      (put w (set_c_heap (cfl w) (set_link (c_heap (cfl w)) node old))) (PushCas node size old)
| push_cas_ok w node size old :
    c_head (cfl w) = old →
    tstep w (PushCas node size old)
      (mkWorld (set_c_head (cfl w) node) ((node, size) :: stk w) (client w) (served w)) Idle
| push_cas_fail w node size old :
    tstep w (PushCas node size old) w (PushLink node size (c_head (cfl w)))
(* pop *)
| pop_exchange w min :
    tstep w (PopExch min) (mkWorld (set_c_head (cfl w) 0) [] (client w) (served w))
      (if c_head (cfl w) =? 0 then PopDone None else PopScan min (c_head (cfl w)) (stk w))
(* the detached chain belongs to the thread: the walk is one step *)
| pop_scan w min chain held fuel h found chain' tail :
    scan fuel (c_heap (cfl w)) min 0 0 chain chain = Some (h, found, chain') →
    last_node fuel h chain' = Some tail ∨ chain' = 0 →
    tstep w (PopScan min chain held) (put w (set_c_heap (cfl w) h))
      (if chain' =? 0 then PopRet min found
       else PopLoad min found chain' tail (take_first min held).2)
| pop_load w min found chain tail held :
    tstep w (PopLoad min found chain tail held) w (PopLink min found chain tail (c_head (cfl w)) held)
| pop_link w min found chain tail old held :
    tstep w (PopLink min found chain tail old held)
      (put w (set_c_heap (cfl w) (set_link (c_heap (cfl w)) tail old)))
      (PopCas min found chain tail old held)
| pop_cas_ok w min found chain tail old held :
    c_head (cfl w) = old →
    tstep w (PopCas min found chain tail old held)
      (mkWorld (set_c_head (cfl w) chain) (held ++ stk w) (client w) (served w)) (PopRet min found)
| pop_cas_fail w min found chain tail old held :
    tstep w (PopCas min found chain tail old held) w
      (PopLink min found chain tail (c_head (cfl w)) held)
| pop_return w min found :
    tstep w (PopRet min found)
      (if found =? 0 then w
       else mkWorld (cfl w) (stk w) (found :: client w)
              (served w ++ [(min, found, size_of (c_heap (cfl w)) found)]))
      (PopDone (if found =? 0 then None else Some found)).

Record cstate := mkC { wd : world; thr : gmap nat tstate }.

Inductive cstep : cstate → cstate → Prop :=
| cstep_thread s i t w' t' :
    thr s !! i = Some t → tstep (wd s) t w' t' → cstep s (mkC w' (<[i := t']> (thr s))).

Definition cinit (U : list Z) (m : nat) : cstate :=
  mkC (mkWorld empty [] U []) (list_to_map ((λ i, (i, Idle)) <$> seq 0 m)).

Definition reachable (U : list Z) (m : nat) (s : cstate) : Prop := steps cstep (cinit U m) s.

(** ** Facts about the walk of a detached chain *)

Lemma set_link_ne h p v a : a ≠ p → set_link h p v !! a = h !! a.
Proof. intros. by apply lookup_alter_ne. Qed.

Lemma set_link_size h p v a : f_size <$> set_link h p v !! a = f_size <$> h !! a.
Proof.
  destruct (decide (a = p)) as [->|]; [|by rewrite set_link_ne].
  unfold set_link. rewrite lookup_alter_eq. by destruct (h !! p).
Qed.

(** The walk changes links of the chain only, and no size. *)
Lemma scan_frame fuel h min f p c chain l h' f' chain' :
  lseg h c l 0 → NoDup l.*1 → p ∉ l.*1 →
  scan fuel h min f p c chain = Some (h', f', chain') →
  (∀ a, a ∉ l.*1 → (p = 0 ∨ a ≠ p) → h' !! a = h !! a) ∧ (∀ a, f_size <$> h' !! a = f_size <$> h !! a).
Proof.
  revert h f p c chain l. induction fuel as [|fuel IH]; intros h f p c chain l Hl Hnd Hp E; [done|].
  simpl in E. destruct (Z.eqb_spec c 0) as [->|Hc]; [by simplify_eq|].
  destruct l as [|[b sb] l]; [done|]. destruct Hl as (-> & Hb & n & Hn & Hs & Hl).
  rewrite Hn in E. simpl in Hnd, Hp. apply NoDup_cons in Hnd as [Hbl Hnd].
  apply not_elem_of_cons in Hp as [Hpb Hpl].
  destruct ((f =? 0) && _).
  - destruct (Z.eqb_spec p 0) as [->|Hp0].
    + destruct (IH _ _ _ _ _ l Hl Hnd Hpl E) as [F1 F2]. split; [|done].
      intros a [_ Ha]%not_elem_of_cons Hap. by apply F1.
    + destruct (IH (set_link h p (f_next n)) b p (f_next n) chain l) as [F1 F2]; try done.
      { eapply lseg_frame; [|done]. intros a Ha. apply set_link_ne. by intros ->. }
      split.
      * intros a [_ Ha]%not_elem_of_cons [?|Hap]; [done|]. rewrite F1 by auto. by apply set_link_ne.
      * intros a. rewrite F2. apply set_link_size.
  - destruct (IH _ _ _ _ _ l Hl Hnd Hbl E) as [F1 F2]. split; [|done].
    intros a [Hab Ha]%not_elem_of_cons Hap. apply F1; [done|by right].
Qed.

Lemma scan_more fuel fuel' h min f p c chain r :
  (fuel ≤ fuel')%nat → scan fuel h min f p c chain = Some r → scan fuel' h min f p c chain = Some r.
Proof.
  revert fuel' h f p c chain. induction fuel as [|fuel IH]; intros fuel' h f p c chain Hle E; [done|].
  destruct fuel' as [|fuel']; [lia|]. simpl in *. repeat case_match; try done; apply IH; done || lia.
Qed.

Lemma last_node_more fuel fuel' h t r :
  (fuel ≤ fuel')%nat → last_node fuel h t = Some r → last_node fuel' h t = Some r.
Proof.
  revert fuel' t. induction fuel as [|fuel IH]; intros fuel' t Hle E; [done|].
  destruct fuel' as [|fuel']; [lia|]. simpl in *. repeat case_match; try done; apply IH; done || lia.
Qed.

Lemma lseg_size h p l q a sz : lseg h p l q → (a, sz) ∈ l → size_of h a = sz.
Proof.
  revert p. induction l as [|[b sb] l IH]; intros p Hl Hin; [by apply not_elem_of_nil in Hin|].
  destruct Hl as (-> & _ & n & Hn & Hs & Hl).
  apply elem_of_cons in Hin as [[= -> ->]|Hin]; [|by apply (IH _ Hl)].
  unfold size_of. by rewrite Hn.
Qed.

Definition found_of (found : Z) : list Z := if found =? 0 then [] else [found].
Definition enough (h : gmap Z FreeNode) (min found : Z) : Prop := found ≠ 0 → min ≤ size_of h found.

(** What the walk leaves: the rest of the chain, and the object found. *)
Lemma scan_result heap min chain held fuel h found chain' :
  lseg heap chain held 0 → NoDup held.*1 → 0 ∉ held.*1 →
  scan fuel heap min 0 0 chain chain = Some (h, found, chain') →
  lseg h chain' (take_first min held).2 0
  ∧ held.*1 ≡ₚ found_of found ++ ((take_first min held).2).*1
  ∧ enough h min found ∧ (∀ a, a ∉ held.*1 → h !! a = heap !! a).
Proof.
  intros Hl Hnd H0 E. destruct (scan_frame _ _ _ _ _ _ _ held _ _ _ Hl Hnd H0 E) as [F1 F2].
  apply (scan_more _ (fuel + S (length held))) in E; [|lia].
  destruct (scan_spec min heap [] chain held (fuel + S (length held)) chain)
    as (h2 & f2 & ch2 & E2 & H1 & H2 & H3); [done..|lia|].
  unfold last_addr in E2. simpl in E2. rewrite E in E2. injection E2 as <- <- <-.
  simpl in H3. split; [done|].
  assert (∀ a, a ∉ held.*1 → h !! a = heap !! a) as Hf by (intros a Ha; apply F1; auto).
  unfold found_of, enough.
  destruct (take_first min held) as [r k] eqn:Etf. simpl in *.
  destruct (Z.eqb_spec found 0) as [Ef|Ef].
  - split_and!; [|done..]. apply H1 in Ef as ->. by rewrite (take_first_none _ _ _ Etf).
  - specialize (H2 Ef). subst r. destruct (take_first_some _ _ _ _ Etf) as (sz & Hle & Hp).
    split_and!; [by rewrite Hp| |done]. intros _. unfold size_of. rewrite F2.
    assert ((found, sz) ∈ held) as Hin by (rewrite Hp; left).
    fold (size_of heap found). by rewrite (lseg_size _ _ _ _ _ _ Hl Hin).
Qed.

(** ** The invariant *)

Definition owns (t : tstate) : list Z :=
  match t with
  | PushInit n _ | PushLoad n _ | PushLink n _ _ | PushCas n _ _ => [n]
  | PopScan _ _ l => l.*1
  | PopLoad _ f _ _ l | PopLink _ f _ _ _ l | PopCas _ f _ _ _ l => found_of f ++ l.*1
  | PopRet _ f => found_of f
  | _ => []
  end.

Lemma scan_progress w min chain held :
  lseg (c_heap (cfl w)) chain held 0 → NoDup held.*1 →
  ∃ w' t', tstep w (PopScan min chain held) w' t'.
Proof.
  intros Hl Hnd. set (n := S (length held)).
  destruct (scan_spec min (c_heap (cfl w)) [] chain held n chain)
    as (h & f & ch & E & _ & _ & Hr); [done..|lia|]. unfold last_addr in E. simpl in Hr.
  destruct (decide (ch = 0)) as [->|Hne].
  - eexists _, _. eapply (pop_scan w min chain held n h f 0 0); [done|by right].
  - eexists _, _. eapply (pop_scan w min chain held n h f ch); [done|]. left.
    apply last_node_spec; [done| |].
    + intros Hk. by rewrite Hk in Hr.
    + pose proof (sublist_length _ _ (take_first_sub min held)) as Hs. rewrite !length_fmap in Hs. lia.
Qed.

Section Invariant.
Context (U : list Z) (HU : NoDup U) (HU0 : 0 ∉ U).

Definition tinv (h : gmap Z FreeNode) (t : tstate) : Prop :=
  match t with
  | PushLoad n sz | PushLink n sz _ => ∃ v, h !! n = Some (mkFree sz v)
  | PushCas n sz old => h !! n = Some (mkFree sz old)
  | PopScan _ chain l => chain ≠ 0 ∧ lseg h chain l 0
  | PopLoad min f chain tail l | PopLink min f chain tail _ l =>
      enough h min f ∧ ∃ k sz q, l = k ++ [(tail, sz)] ∧ lseg h chain l q
  | PopCas min f chain tail old l =>
      enough h min f ∧ ∃ k sz, l = k ++ [(tail, sz)] ∧ lseg h chain l old
  | PopRet min f => enough h min f
  | _ => True
  end.

Record cinv (s : cstate) : Prop := {
  c_list : lseg (c_heap (cfl (wd s))) (c_head (cfl (wd s))) (stk (wd s)) 0;
  c_perm : (client (wd s) ++ (stk (wd s)).*1) ++ holdings owns (thr s) ≡ₚ U;
  c_thread : ∀ i t, thr s !! i = Some t → tinv (c_heap (cfl (wd s))) t;
  c_served : ∀ min a sz, (min, a, sz) ∈ served (wd s) → min ≤ sz
}.

Lemma tinv_frame h h' t : (∀ a, a ∈ owns t → h' !! a = h !! a) → tinv h t → tinv h' t.
Proof.
  intros Hf. assert (∀ min f, (f ≠ 0 → f ∈ owns t) → enough h min f → enough h' min f) as He.
  { unfold enough, size_of. intros min f Hin H Hf0. rewrite Hf by auto. auto. }
  assert (∀ f, f ≠ 0 → f ∈ found_of f) as Hfo.
  { intros f Hf0. unfold found_of. rewrite (proj2 (Z.eqb_neq f 0) Hf0). left. }
  destruct t; simpl in *; try done.
  - rewrite Hf by left. done.
  - rewrite Hf by left. done.
  - rewrite Hf by left. done.
  - intros [? Hl]. split; [done|]. by apply (lseg_frame h).
  - intros [H (k & sz & q & -> & Hl)]. split; [apply He; [intros; apply elem_of_app; left|]; auto|].
    exists k, sz, q. split; [done|]. apply (lseg_frame h); [|done].
    intros a Ha. apply Hf, elem_of_app. by right.
  - intros [H (k & sz & q & -> & Hl)]. split; [apply He; [intros; apply elem_of_app; left|]; auto|].
    exists k, sz, q. split; [done|]. apply (lseg_frame h); [|done].
    intros a Ha. apply Hf, elem_of_app. by right.
  - intros [H (k & sz & -> & Hl)]. split; [apply He; [intros; apply elem_of_app; left|]; auto|].
    exists k, sz. split; [done|]. apply (lseg_frame h); [|done].
    intros a Ha. apply Hf, elem_of_app. by right.
  - apply He. auto.
Qed.

(** Objects in different places are different. *)
Lemma apart s i t : cinv s → thr s !! i = Some t →
  NoDup (owns t) ∧ (∀ a, a ∈ owns t → a ∉ (stk (wd s)).*1 ∧ a ≠ 0)
  ∧ ∀ j u, i ≠ j → thr s !! j = Some u → ∀ a, a ∈ owns t → a ∉ owns u.
Proof.
  intros [_ Hp _ _] Hi. destruct (holdings_step owns _ i t t Hi) as (R & HR & _ & Hj).
  rewrite HR in Hp. pose proof HU as Hnd. rewrite <- Hp in Hnd. apply NoDup_app in Hnd as (_ & H1 & H2).
  apply NoDup_app in H2 as (Hn & H2 & _). split_and!; [done| |].
  - intros a Ha. split; [intros Hs; apply (H1 a); set_solver|].
    intros ->. apply HU0. rewrite <- Hp. set_solver.
  - intros j u Hij Hu a Ha Hau. destruct (Hj j u Hij Hu) as [R' HR']. apply (H2 a Ha). rewrite HR'. set_solver.
Qed.

Lemma client_apart s a : cinv s → a ∈ client (wd s) →
  a ∉ (stk (wd s)).*1 ∧ ∀ j u, thr s !! j = Some u → a ∉ owns u.
Proof.
  intros [_ Hp _ _] Ha. pose proof HU as Hnd. rewrite <- Hp in Hnd.
  apply NoDup_app in Hnd as (Hnd & H1 & _). apply NoDup_app in Hnd as (_ & H2 & _).
  split; [by apply H2|]. intros j u Hj Hau. destruct (holdings_in owns _ _ _ Hj) as [R HR].
  apply (H1 a); [|rewrite HR]; set_solver.
Qed.

(** A step of [i] that writes only objects [i] holds or [W]. *)
Lemma central_cinv_update s i t w' t' :
  cinv s → thr s !! i = Some t →
  lseg (c_heap (cfl w')) (c_head (cfl w')) (stk w') 0 →
  (client w' ++ (stk w').*1) ++ owns t' ≡ₚ (client (wd s) ++ (stk (wd s)).*1) ++ owns t →
  tinv (c_heap (cfl w')) t' →
  (∀ j u a, i ≠ j → thr s !! j = Some u → a ∈ owns u →
     c_heap (cfl w') !! a = c_heap (cfl (wd s)) !! a) →
  (∀ min a sz, (min, a, sz) ∈ served w' → min ≤ sz) →
  cinv (mkC w' (<[i := t']> (thr s))).
Proof.
  intros Hc Hi Hl Hp Ht Ho Hs. split; simpl; [done| | |done].
  - eapply holdings_exchange; [done|apply Hc|done].
  - intros j u Hj. destruct (decide (i = j)) as [<-|Hij].
    + rewrite lookup_insert_eq in Hj. by simplify_eq.
    + rewrite lookup_insert_ne in Hj by done.
      apply (tinv_frame (c_heap (cfl (wd s)))); [by eauto|]. by apply (c_thread _ Hc j).
Qed.

(** A step that only moves objects between the client and the thread. *)
Lemma central_cinv_quiet s i t w' t' :
  cinv s → thr s !! i = Some t → cfl w' = cfl (wd s) → stk w' = stk (wd s) →
  client w' ++ owns t' ≡ₚ client (wd s) ++ owns t → tinv (c_heap (cfl (wd s))) t' →
  (∀ min a sz, (min, a, sz) ∈ served w' → min ≤ sz) →
  cinv (mkC w' (<[i := t']> (thr s))).
Proof.
  intros Hc Hi Ec Es Hp Ht Hs. apply (central_cinv_update s i t); rewrite ?Ec, ?Es; try done; [apply Hc|].
  rewrite <- !app_assoc, (Permutation_app_comm (stk _).*1), !app_assoc, Hp.
  by rewrite <- !app_assoc, (Permutation_app_comm (stk _).*1).
Qed.

(** A write into an object that is in no list and held by no other thread. *)
Lemma central_cinv_write s i t h t' :
  cinv s → thr s !! i = Some t → owns t' ≡ₚ owns t →
  (∀ a, a ∈ (stk (wd s)).*1 → h !! a = c_heap (cfl (wd s)) !! a) →
  (∀ j u a, i ≠ j → thr s !! j = Some u → a ∈ owns u → h !! a = c_heap (cfl (wd s)) !! a) →
  tinv h t' →
  cinv (mkC (put (wd s) (set_c_heap (cfl (wd s)) h)) (<[i := t']> (thr s))).
Proof.
  intros Hc Hi Ho Hs Hj Ht. apply (central_cinv_update s i t); try done; simpl.
  - eapply lseg_frame; [done|apply Hc].
  - by rewrite Ho.
  - apply Hc.
Qed.

Lemma lseg_zero h l : lseg h 0 l 0 → l = [].
Proof. destruct l as [|[a sz] l]; [done|]. by intros (<- & ? & _). Qed.

Lemma cinv_exchange s i min :
  cinv s → thr s !! i = Some (PopExch min) →
  cinv (mkC (mkWorld (set_c_head (cfl (wd s)) 0) [] (client (wd s)) (served (wd s)))
         (<[i := if c_head (cfl (wd s)) =? 0 then PopDone None
                 else PopScan min (c_head (cfl (wd s))) (stk (wd s))]> (thr s))).
Proof.
  intros Hc Hi. pose proof (c_list _ Hc) as Hl. apply (central_cinv_update s i (PopExch min)); try done; simpl.
  - destruct (Z.eqb_spec (c_head (cfl (wd s))) 0) as [E|E]; simpl; rewrite ?app_nil_r; [|done].
    rewrite E in Hl. by rewrite (lseg_zero _ _ Hl), app_nil_r.
  - by destruct (Z.eqb_spec (c_head (cfl (wd s))) 0).
  - apply Hc.
Qed.

Lemma last_node_found h chain k fuel tail :
  lseg h chain k 0 → chain ≠ 0 → last_node fuel h chain = Some tail → ∃ k0 sz, k = k0 ++ [(tail, sz)].
Proof.
  intros Hl Hne E. assert (k ≠ []) as Hk by (intros ->; by rewrite Hl in Hne).
  apply (last_node_more _ (fuel + length k)) in E; [|lia].
  rewrite (last_node_spec h chain k) in E by (done || lia). injection E as <-.
  destruct (exists_last_or_nil k) as [->|(k0 & [a sz] & ->)]; [done|].
  exists k0, sz. unfold last_addr. by rewrite last_snoc.
Qed.

Lemma cinv_scan s i min chain held fuel h found chain' tail :
  cinv s → thr s !! i = Some (PopScan min chain held) →
  scan fuel (c_heap (cfl (wd s))) min 0 0 chain chain = Some (h, found, chain') →
  last_node fuel h chain' = Some tail ∨ chain' = 0 →
  cinv (mkC (put (wd s) (set_c_heap (cfl (wd s)) h))
         (<[i := if chain' =? 0 then PopRet min found
                 else PopLoad min found chain' tail (take_first min held).2]> (thr s))).
Proof.
  intros Hc Hi E Et. destruct (c_thread _ Hc i _ Hi) as [Hch Hl].
  destruct (apart s i _ Hc Hi) as (Hnd & Hs & Hj). simpl in Hnd, Hs, Hj.
  assert (0 ∉ held.*1) as H0 by (intros H0; by apply (Hs 0)).
  destruct (scan_result _ _ _ _ _ _ _ _ Hl Hnd H0 E) as (H1 & H2 & H3 & H4).
  apply (central_cinv_write s i (PopScan min chain held)); try done.
  - destruct (Z.eqb_spec chain' 0) as [->|Hne]; simpl; rewrite H2; [|done].
    by rewrite (lseg_zero _ _ H1), app_nil_r.
  - intros a Ha. apply H4. intros Ha'. by destruct (Hs a Ha').
  - intros j u a Hij Hu Ha. apply H4. intros Ha'. by apply (Hj j u Hij Hu a).
  - destruct (Z.eqb_spec chain' 0) as [|Hne]; simpl; [done|]. split; [done|].
    destruct Et as [Et|]; [|done]. destruct (last_node_found _ _ _ _ _ H1 Hne Et) as (k0 & sz & Ek).
    by exists k0, sz, 0.
Qed.

Lemma cinv_pushback s i min found chain tail old held :
  cinv s → thr s !! i = Some (PopCas min found chain tail old held) → c_head (cfl (wd s)) = old →
  cinv (mkC (mkWorld (set_c_head (cfl (wd s)) chain) (held ++ stk (wd s)) (client (wd s)) (served (wd s)))
         (<[i := PopRet min found]> (thr s))).
Proof.
  intros Hc Hi E. destruct (c_thread _ Hc i _ Hi) as [He (k & sz & _ & Hl)].
  apply (central_cinv_update s i (PopCas min found chain tail old held)); try done; simpl.
  - apply lseg_app. exists old. split; [done|]. rewrite <- E. apply Hc.
  - rewrite fmap_app, <- !app_assoc. f_equiv.
    rewrite (Permutation_app_comm (found_of found)), app_assoc.
    rewrite (Permutation_app_comm held.*1), <- app_assoc. done.
  - apply Hc.
Qed.

Lemma cinv_poplink s i min found chain tail old held :
  cinv s → thr s !! i = Some (PopLink min found chain tail old held) →
  cinv (mkC (put (wd s) (set_c_heap (cfl (wd s)) (set_link (c_heap (cfl (wd s))) tail old)))
         (<[i := PopCas min found chain tail old held]> (thr s))).
Proof.
  intros Hc Hi. destruct (c_thread _ Hc i _ Hi) as [He (k & sz & q & -> & Hl)].
  destruct (apart s i _ Hc Hi) as (Hnd & Hs & Hj). simpl in Hnd, Hs, Hj.
  assert (tail ∈ found_of found ++ (k ++ [(tail, sz)]).*1) as Hin.
  { rewrite fmap_app, !elem_of_app. right. right. left. }
  apply (central_cinv_write s i (PopLink min found chain tail old (k ++ [(tail, sz)]))); try done.
  - intros a Ha. apply set_link_ne. intros ->. by destruct (Hs tail Hin).
  - intros j u a Hij Hu Ha. apply set_link_ne. intros ->. by apply (Hj j u Hij Hu tail).
  - split.
    + intros Hf. unfold size_of. rewrite set_link_size. by apply He.
    + exists k, sz. split; [done|]. eapply lseg_set_link; [done|].
      apply NoDup_app in Hnd as (_ & _ & Hnd). rewrite fmap_app in Hnd.
      apply NoDup_app in Hnd as (_ & Hd & _). intros Hk. apply (Hd tail Hk). left.
Qed.

Lemma cinv_return s i min found :
  cinv s → thr s !! i = Some (PopRet min found) →
  cinv (mkC (if found =? 0 then wd s
             else mkWorld (cfl (wd s)) (stk (wd s)) (found :: client (wd s))
                    (served (wd s) ++ [(min, found, size_of (c_heap (cfl (wd s))) found)]))
         (<[i := PopDone (if found =? 0 then None else Some found)]> (thr s))).
Proof.
  intros Hc Hi. pose proof (c_thread _ Hc i _ Hi) as He. simpl in He.
  apply (central_cinv_quiet s i (PopRet min found)); simpl; unfold found_of;
    destruct (Z.eqb_spec found 0) as [|Hf]; try done; simpl.
  - rewrite app_nil_r. apply Permutation_cons_append.
  - apply Hc.
  - intros m a sz [Hin|[= -> -> ->]%list_elem_of_singleton]%elem_of_app; [by apply (c_served _ Hc m a)|auto].
Qed.

Lemma central_resting_owns t : resting t = true → owns t = [].
Proof. by destruct t. Qed.

Lemma central_cstep_inv s s' : cinv s → cstep s s' → cinv s'.
Proof.
  intros Hc Hs. destruct Hs as [s i t w' t' Hi Hs].
  pose proof (c_thread _ Hc i t Hi) as Ht. pose proof (apart s i t Hc Hi) as (_ & Has & Haj).
  pose proof (c_served _ Hc) as Hsv. remember (wd s) as w eqn:Ew.
  destruct Hs as [w t n sz c Hr Hn|w t min Hr|w t a n Hr Ha|w n sz|w n sz|w n sz old|w n sz old E|w n sz old
    |w min|w min ch held fuel h f ch' tl E Et|w min f ch tl held|w min f ch tl old held
    |w min f ch tl old held E|w min f ch tl old held|w min f]; subst w; simpl in Ht, Has, Haj.
  - apply (central_cinv_quiet s i t); try done. rewrite (central_resting_owns _ Hr), app_nil_r. simpl.
    rewrite (take_out_perm _ _ _ Hn). symmetry. apply Permutation_cons_append.
  - apply (central_cinv_quiet s i t); try done. by rewrite (central_resting_owns _ Hr).
  - destruct (client_apart s a Hc Ha) as [H1 H2]. apply (central_cinv_write s i t); try done.
    + intros b Hb. apply lookup_insert_ne. set_solver.
    + intros j u b _ Hu Hb. apply lookup_insert_ne. intros ->. by apply (H2 j u Hu).
    + by destruct t.
  - apply (central_cinv_write s i (PushInit n sz)); try done.
    + intros b Hb. apply lookup_insert_ne. intros <-. destruct (Has n) as [? _]; [left|done].
    + intros j u b Hij Hu Hb. apply lookup_insert_ne. intros <-. apply (Haj j u Hij Hu n); [left|done].
    + eexists. apply lookup_insert_eq.
  - by apply (central_cinv_quiet s i (PushLoad n sz)).
  - apply (central_cinv_write s i (PushLink n sz old)); try done.
    + intros b Hb. apply set_link_ne. intros ->. destruct (Has n) as [? _]; [left|done].
    + intros j u b Hij Hu Hb. apply set_link_ne. intros ->. apply (Haj j u Hij Hu n); [left|done].
    + destruct Ht as [v Hv]. simpl. unfold set_link. by rewrite lookup_alter_eq, Hv.
  - apply (central_cinv_update s i (PushCas n sz old)); try done; simpl.
    + split; [done|]. split; [by apply (Has n); left|]. eexists. split; [done|].
      split; [done|]. rewrite <- E. apply Hc.
    + by rewrite app_nil_r, <- app_assoc, (Permutation_app_comm (stk _).*1 [n]).
  - apply (central_cinv_quiet s i (PushCas n sz old)); try done. simpl. eauto.
  - by apply cinv_exchange.
  - by eapply cinv_scan.
  - by apply (central_cinv_quiet s i (PopLoad min f ch tl held)).
  - by apply cinv_poplink.
  - by eapply cinv_pushback.
  - apply (central_cinv_quiet s i (PopCas min f ch tl old held)); try done.
    destruct Ht as [? (k & sz & -> & Hl)]. split; [done|]. by exists k, sz, old.
  - by apply cinv_return.
Qed.

Lemma central_cinit_inv m : cinv (cinit U m).
Proof.
  assert (∀ i t, thr (cinit U m) !! i = Some t → t = Idle) as Hidle.
  { intros i t H. apply elem_of_list_to_map_2 in H. apply list_elem_of_fmap in H as (? & ? & _). by simplify_eq. }
  split; simpl.
  - done.
  - rewrite (holdings_none owns); [by rewrite !app_nil_r|]. intros i t Hi. by rewrite (Hidle _ _ Hi).
  - intros i t Hi. by rewrite (Hidle _ _ Hi).
  - intros ??? H. by apply not_elem_of_nil in H.
Qed.

Lemma central_reachable_inv m s : reachable U m s → cinv s.
Proof. intros Hr. eapply steps_invariant; [|apply central_cstep_inv|done]. apply central_cinit_inv. Qed.

End Invariant.

(** ** Properties *)

(** C20: any number of threads pushing and popping medium objects: the shared
    list is a proper chain, every object is in exactly one place (handed out,
    linked, or held by one thread inside an operation), and every request was
    answered with an object of at least the size asked for.  No thread follows
    a dangling link: each can take its next step.  Emptying the list with one
    exchange is what makes this hold with several poppers. *)
Theorem central_list_exactly_once (U : list Z) (m : nat) (s : cstate) :
  NoDup U → 0 ∉ U → reachable U m s →
  lseg (c_heap (cfl (wd s))) (c_head (cfl (wd s))) (stk (wd s)) 0
  ∧ (client (wd s) ++ (stk (wd s)).*1) ++ holdings owns (thr s) ≡ₚ U
  ∧ (∀ min a sz, (min, a, sz) ∈ served (wd s) → min ≤ sz)
  ∧ (∀ i t, thr s !! i = Some t → resting t = false → ∃ w' t', tstep (wd s) t w' t').
Proof.
  intros HU H0 Hr. pose proof (central_reachable_inv U HU H0 m s Hr) as Hc.
  split_and!; [apply Hc..|]. intros i t Hi Hres.
  destruct t as [| | | | | |min ch l| | | | |]; try done; try (by eexists _, _; constructor).
  destruct (c_thread _ _ Hc i _ Hi) as [Hne Hl].
  by apply (scan_progress (wd s) min ch l), (apart U HU H0 s i _ Hc Hi).
Qed.

(** ** Running a schedule *)

(** The walk of a chain of [n] objects takes [n + 1] turns. *)
Definition walk_turns (w : world) : nat := S (size (c_heap (cfl w))).

Definition advance (w : world) (t : tstate) : option (world * tstate) :=
  match t with
  | Idle | PopDone _ => None
  | PushInit node size =>
      Some (put w (set_c_heap (cfl w) (set_size (c_heap (cfl w)) node size)), PushLoad node size)
  | PushLoad node size => Some (w, PushLink node size (c_head (cfl w)))
  | PushLink node size old =>
      Some (put w (set_c_heap (cfl w) (set_link (c_heap (cfl w)) node old)), PushCas node size old)
  | PushCas node size old =>
      if c_head (cfl w) =? old
      then Some (mkWorld (set_c_head (cfl w) node) ((node, size) :: stk w) (client w) (served w), Idle)
      else Some (w, PushLink node size (c_head (cfl w)))
  | PopExch min =>
      Some (mkWorld (set_c_head (cfl w) 0) [] (client w) (served w),
            if c_head (cfl w) =? 0 then PopDone None else PopScan min (c_head (cfl w)) (stk w))
  | PopScan min chain held =>
      '(h, found, chain') ← scan (walk_turns w) (c_heap (cfl w)) min 0 0 chain chain;
      if chain' =? 0 then Some (put w (set_c_heap (cfl w) h), PopRet min found)
      else tail ← last_node (walk_turns w) h chain';
           Some (put w (set_c_heap (cfl w) h), PopLoad min found chain' tail (take_first min held).2)
  | PopLoad min found chain tail held => Some (w, PopLink min found chain tail (c_head (cfl w)) held)
  | PopLink min found chain tail old held =>
      Some (put w (set_c_heap (cfl w) (set_link (c_heap (cfl w)) tail old)), PopCas min found chain tail old held)
  | PopCas min found chain tail old held =>
      if c_head (cfl w) =? old
      then Some (mkWorld (set_c_head (cfl w) chain) (held ++ stk w) (client w) (served w), PopRet min found)
      else Some (w, PopLink min found chain tail (c_head (cfl w)) held)
  | PopRet min found =>
      Some (if found =? 0 then w
            else mkWorld (cfl w) (stk w) (found :: client w)
                   (served w ++ [(min, found, size_of (c_heap (cfl w)) found)]),
            PopDone (if found =? 0 then None else Some found))
  end.

Lemma central_advance_step w t w' t' : advance w t = Some (w', t') → tstep w t w' t'.
Proof.
  intros H. destruct t as [|n sz|n sz|n sz old|n sz old|min|min ch l|min f ch tl l|min f ch tl old l
    |min f ch tl old l|min f|res]; cbn [advance] in H; simplify_eq; try constructor.
  - destruct (Z.eqb_spec (c_head (cfl w)) old); simplify_eq; by constructor.
  - destruct (scan _ _ _ _ _ _ _) as [[[h f] ch']|] eqn:E; [|done]. cbn [mbind option_bind] in H.
    destruct (ch' =? 0) eqn:Ec.
    + simplify_eq. pose proof (pop_scan w min ch l _ h f ch' 0 E) as P. rewrite Ec in P. apply P. right. lia.
    + destruct (last_node _ _ _) as [tl|] eqn:El; [|done]. cbn [mbind option_bind] in H. simplify_eq.
      pose proof (pop_scan w min ch l _ h f ch' tl E) as P. rewrite Ec in P. apply P. by left.
  - destruct (Z.eqb_spec (c_head (cfl w)) old); simplify_eq; by constructor.
Qed.

Inductive act := CallPush (i : nat) (node size : Z) | CallPop (i : nat) (min : Z) | Go (i : nat).

Definition play1 (s : cstate) (a : act) : option cstate :=
  match a with
  | CallPush i node size =>
      t ← thr s !! i; c ← take_out node (client (wd s));
      if resting t then
        Some (mkC (mkWorld (cfl (wd s)) (stk (wd s)) c (served (wd s))) (<[i := PushInit node size]> (thr s)))
      else None
  | CallPop i min =>
      t ← thr s !! i; if resting t then Some (mkC (wd s) (<[i := PopExch min]> (thr s))) else None
  | Go i => t ← thr s !! i; r ← advance (wd s) t; Some (mkC r.1 (<[i := r.2]> (thr s)))
  end.

Lemma central_play1_step s a s' : play1 s a = Some s' → cstep s s'.
Proof.
  intros H. destruct a as [i node size|i min|i]; simpl in H; destruct (thr s !! i) as [t|] eqn:Hi; try done;
    simpl in H.
  - destruct (take_out node (client (wd s))) as [c|] eqn:Hc; [|done]. simpl in H.
    destruct (resting t) eqn:Hr; simplify_eq. apply (cstep_thread s i t); [done|]. by constructor.
  - destruct (resting t) eqn:Hr; simplify_eq/=. apply (cstep_thread s i t); [done|]. by constructor.
  - destruct (advance (wd s) t) as [[w' t']|] eqn:E; simplify_eq/=.
    apply (cstep_thread s i t); [done|]. by apply central_advance_step.
Qed.

(** Thread 0 frees 64 and 32 (512 and 1024 bytes) and asks for 1000 bytes;
    while it holds the detached chain, thread 1 finds the list empty and frees
    16; thread 0's push-back has to retry. *)
Definition example_sched : list act :=
  [CallPush 0 32 1024; Go 0; Go 0; Go 0; Go 0; CallPush 0 64 512; Go 0; Go 0; Go 0; Go 0;
   CallPop 0 1000; Go 0; Go 0; Go 0; CallPop 1 8; Go 1; CallPush 1 16 300; Go 1; Go 1; Go 1; Go 1;
   Go 0; Go 0; Go 0; Go 0; Go 0].

Lemma central_list_exactly_once_witness :
  ∃ s, reachable [16; 32; 64] 2 s ∧ served (wd s) = [(1000, 32, 1024)] ∧ stk (wd s) = [(64, 512); (16, 300)]
    ∧ (client (wd s) ++ (stk (wd s)).*1) ++ holdings owns (thr s) ≡ₚ [16; 32; 64].
Proof.
  destruct (play play1 (cinit [16; 32; 64] 2) example_sched) as [s|] eqn:E; [|by vm_compute in E].
  assert (reachable [16; 32; 64] 2 s) as Hr.
  { apply (play_steps _ play1 _ example_sched); [apply central_play1_step|done]. }
  exists s. split; [exact Hr|].
  split; [vm_compute in E; by injection E as <-|]. split; [vm_compute in E; by injection E as <-|].
  apply (central_list_exactly_once [16; 32; 64] 2 s); [| |exact Hr].
  - apply (bool_decide_unpack _). by vm_compute.
  - apply (bool_decide_unpack _). by vm_compute.
Defined.

End CentralConc.
