(* ===== verification/SpscConc.v ===== *)
(** [BatchedSPSCQueue] under concurrency ([batched_spsc_queue.h],
    [push_batch] and [try_dequeue_batch]).

    Threads run the two operations slot by slot: a step is one access of a
    shared location.  [producer] and [consumer] say which threads may call
    which operation, so that the single-producer single-consumer contract is a
    hypothesis and breaking it can be shown.  The queue has no full test; the
    step that starts a [push_batch] requires room for the batch.  The counters
    may wrap around: no bound on the length of the execution is assumed. *)
From S2P Require Import Prelude Circ Rings.
Import Spsc.

Section Machine.
Context {T : Type} `{!Inhabited T} (k : Z).
Context (producer consumer : nat → bool).

(** [idx] is the local [write_idx], [todo] the elements still to write; [n] the
    elements the consumer still copies. *)
Inductive tstate :=
| Idle
| PRead (items : list T)
| PWrite (items todo : list T) (idx : Z)
| PTail (items : list T) (idx : Z)
| PPub (items : list T)
| CLoad (max : Z)
| CCopy (n : Z).

(** [lg]: the elements published, in order; [recv]: the elements received. *)
Record world := mkWorld { q : BatchedSPSCQueue T; lg : list T; recv : list T }.

Definition set_ring (q : BatchedSPSCQueue T) (r : list T) := mkSpsc r (write_head q) (local_write_tail q) (local_tail q).
Definition set_write_head (q : BatchedSPSCQueue T) v := mkSpsc (ring_ q) v (local_write_tail q) (local_tail q).
Definition set_write_tail (q : BatchedSPSCQueue T) v := mkSpsc (ring_ q) (write_head q) v (local_tail q).
Definition set_local_tail (q : BatchedSPSCQueue T) v := mkSpsc (ring_ q) (write_head q) (local_write_tail q) v.

Definition outstanding (w : world) : Z := Z.of_nat (length (lg w)) - Z.of_nat (length (recv w)).

Inductive tstep (i : nat) : world → tstate → world → tstate → Prop :=
| call_push w items :
    producer i = true → outstanding w + Z.of_nat (length items) ≤ 2 ^ k →
    tstep i w Idle w (PRead items)
| call_dequeue w max : consumer i = true → 0 ≤ max → tstep i w Idle w (CLoad max)
(* push_batch *)
| p_read w items : tstep i w (PRead items) w (PWrite items items (local_write_tail (q w)))
| p_write w items x todo idx :
    tstep i w (PWrite items (x :: todo) idx)
      (mkWorld (set_ring (q w) (<[Z.to_nat (Z.land idx (2 ^ k - 1)) := x]> (ring_ (q w)))) (lg w) (recv w))
      (PWrite items todo (idx +64 1))
| p_written w items idx : tstep i w (PWrite items [] idx) w (PTail items idx)
| p_tail w items idx :
    tstep i w (PTail items idx) (mkWorld (set_write_tail (q w) idx) (lg w) (recv w)) (PPub items)
| p_publish w items :
    tstep i w (PPub items)
      (mkWorld (set_write_head (q w) (write_head (q w) +64 Z.of_nat (length items))) (lg w ++ items) (recv w)) Idle
(* try_dequeue_batch *)
| c_load w max :
    tstep i w (CLoad max) w (CCopy (Z.min (write_head (q w) -64 local_tail (q w)) max))
| c_copy w n :
    0 < n →
    tstep i w (CCopy n)
      (mkWorld (set_local_tail (q w) (local_tail (q w) +64 1)) (lg w)
         (recv w ++ [ring_ (q w) !!! Z.to_nat (Z.land (local_tail (q w)) (2 ^ k - 1))]))
      (CCopy (n - 1))
| c_done w n : n ≤ 0 → tstep i w (CCopy n) w Idle.

Record cstate := mkC { wd : world; thr : gmap nat tstate }.

Inductive cstep : cstate → cstate → Prop :=
| cstep_thread s i t w' t' :
    thr s !! i = Some t → tstep i (wd s) t w' t' → cstep s (mkC w' (<[i := t']> (thr s))).

Definition cinit (m : nat) : cstate :=
  mkC (mkWorld (make (2 ^ k)) [] []) (list_to_map ((λ i, (i, Idle)) <$> seq 0 m)).

Definition reachable (m : nat) (s : cstate) : Prop := steps cstep (cinit m) s.

(** ** Running a schedule *)

Definition advance (w : world) (t : tstate) : option (world * tstate) :=
  match t with
  | Idle => None
  | PRead items => Some (w, PWrite items items (local_write_tail (q w)))
  | PWrite items (x :: todo) idx =>
      Some (mkWorld (set_ring (q w) (<[Z.to_nat (Z.land idx (2 ^ k - 1)) := x]> (ring_ (q w)))) (lg w) (recv w),
            PWrite items todo (idx +64 1))
  | PWrite items [] idx => Some (w, PTail items idx)
  | PTail items idx => Some (mkWorld (set_write_tail (q w) idx) (lg w) (recv w), PPub items)
  | PPub items =>
      Some (mkWorld (set_write_head (q w) (write_head (q w) +64 Z.of_nat (length items)))
              (lg w ++ items) (recv w), Idle)
  | CLoad max => Some (w, CCopy (Z.min (write_head (q w) -64 local_tail (q w)) max))
  | CCopy n =>
      if 0 <? n then
        Some (mkWorld (set_local_tail (q w) (local_tail (q w) +64 1)) (lg w)
                (recv w ++ [ring_ (q w) !!! Z.to_nat (Z.land (local_tail (q w)) (2 ^ k - 1))]),
              CCopy (n - 1))
      else Some (w, Idle)
  end.

Inductive act := CallPush (i : nat) (items : list T) | CallDeq (i : nat) (max : Z) | Go (i : nat).

Definition is_idle (t : tstate) : bool := match t with Idle => true | _ => false end.

Definition play1 (s : cstate) (a : act) : option cstate :=
  match a with
  | CallPush i items =>
      t ← thr s !! i;
      if is_idle t && producer i && (outstanding (wd s) + Z.of_nat (length items) <=? 2 ^ k)
      then Some (mkC (wd s) (<[i := PRead items]> (thr s))) else None
  | CallDeq i max =>
      t ← thr s !! i;
      if is_idle t && consumer i && (0 <=? max)
      then Some (mkC (wd s) (<[i := CLoad max]> (thr s))) else None
  | Go i => t ← thr s !! i; r ← advance (wd s) t; Some (mkC r.1 (<[i := r.2]> (thr s)))
  end.

Lemma spsc_play1_step s a s' : play1 s a = Some s' → cstep s s'.
Proof.
  intros H. destruct a as [i items|i max|i]; simpl in H; destruct (thr s !! i) as [t|] eqn:Hi; try done;
    simpl in H.
  - destruct t, (producer i) eqn:Hp; try done; simpl in H.
    destruct (Z.leb_spec (outstanding (wd s) + Z.of_nat (length items)) (2 ^ k)); simplify_eq.
    apply (cstep_thread s i Idle); [done|]. by constructor.
  - destruct t, (consumer i) eqn:Hp; try done; simpl in H.
    destruct (Z.leb_spec 0 max); simplify_eq. apply (cstep_thread s i Idle); [done|]. by constructor.
  - destruct (advance (wd s) t) as [[w' t']|] eqn:E; simplify_eq/=. apply (cstep_thread s i t); [done|].
    destruct t as [|items|items [|x todo] idx|items idx|items|max|n]; simplify_eq/=; try by constructor.
    destruct (Z.ltb_spec 0 n); simplify_eq; by constructor.
Qed.

End Machine.

Arguments tstate : clear implicits.
Arguments world : clear implicits.
Arguments cstate : clear implicits.
Arguments act : clear implicits.

(** ** The invariant under the single-producer single-consumer contract *)
Section Invariant.
Context {T : Type} `{!Inhabited T} (k : Z) (Hk : 0 ≤ k ≤ 63).
Context (producer consumer : nat → bool).
Context (one_p : ∀ i j, producer i = true → producer j = true → i = j).
Context (one_c : ∀ i j, consumer i = true → consumer j = true → i = j).
Implicit Types (w : world T) (t : tstate T) (s : cstate T).

Definition published w : Z := Z.of_nat (length (lg w)).
Definition received w : Z := Z.of_nat (length (recv w)).

Record winv w : Prop := {
  w_len : length (ring_ (q w)) = Z.to_nat (2 ^ k);
  w_head : write_head (q w) = wrap64 (published w);
  w_tail : local_tail (q w) = wrap64 (received w);
  w_fifo : recv w `prefix_of` lg w;
  w_room : published w - received w ≤ 2 ^ k;
  w_slots : ∀ j, received w ≤ j < published w → ring_ (q w) !! slot k j = lg w !! Z.to_nat j
}.

Definition producing t : bool :=
  match t with PRead _ | PWrite _ _ _ | PTail _ _ | PPub _ => true | _ => false end.
Definition consuming t : bool := match t with CLoad _ | CCopy _ => true | _ => false end.

(** The first [m] elements of [items] are in their slots, unpublished. *)
Definition staged w (items : list T) (m : Z) : Prop :=
  ∀ j, 0 ≤ j < m → ring_ (q w) !! slot k (published w + j) = items !! Z.to_nat j.

Definition fits w (items : list T) : Prop :=
  published w - received w + Z.of_nat (length items) ≤ 2 ^ k.

Definition tinv w t : Prop :=
  match t with
  | Idle | CLoad _ => True
  | PRead items => fits w items
  | PWrite items todo idx =>
      fits w items ∧ ∃ done, items = done ++ todo
      ∧ idx = wrap64 (published w + Z.of_nat (length done)) ∧ staged w items (Z.of_nat (length done))
  | PTail items idx =>
      fits w items ∧ idx = wrap64 (published w + Z.of_nat (length items))
      ∧ staged w items (Z.of_nat (length items))
  | PPub items => fits w items ∧ staged w items (Z.of_nat (length items))
  | CCopy n => received w + n ≤ published w
  end.

(** [local_write_tail_] is ahead of [write_head_] only between the two stores
    that end [push_batch]. *)
Definition pending t : Z := match t with PPub items => Z.of_nat (length items) | _ => 0 end.

Record cinv s : Prop := {
  c_world : winv (wd s);
  c_thread : ∀ i t, thr s !! i = Some t → tinv (wd s) t
    ∧ (producing t = true → producer i = true) ∧ (consuming t = true → consumer i = true);
  c_write_tail : ∀ i t, thr s !! i = Some t → producer i = true →
    local_write_tail (q (wd s)) = wrap64 (published (wd s) + pending t)
}.

Lemma spsc_cinv_update s i t w' t' :
  cinv s → thr s !! i = Some t → winv w' → tinv w' t' →
  (producing t' = true → producer i = true) → (consuming t' = true → consumer i = true) →
  (∀ j u, i ≠ j → thr s !! j = Some u → tinv w' u) →
  (∀ j u, producer j = true → (i = j ∧ u = t' ∨ i ≠ j ∧ thr s !! j = Some u) →
     local_write_tail (q w') = wrap64 (published w' + pending u)) →
  cinv (mkC w' (<[i := t']> (thr s))).
Proof.
  intros [Hw Ht Hwt] Hi Hw' Ht' Hp Hc Ho Hl.
  assert (∀ j u, (<[i := t']> (thr s)) !! j = Some u → i = j ∧ u = t' ∨ i ≠ j ∧ thr s !! j = Some u) as Hcase.
  { intros j u Hj. destruct (decide (i = j)) as [<-|Hij].
    - rewrite lookup_insert_eq in Hj. simplify_eq. by left.
    - rewrite lookup_insert_ne in Hj by done. by right. }
  split; simpl; [done|..].
  - intros j u [[<- ->]|[Hij Hj]]%Hcase; [done|]. split; [by apply (Ho j)|]. by apply (Ht j).
  - intros j u Hj Hpj. by apply (Hl j u Hpj), Hcase.
Qed.

(** Steps that leave the write tail and what is published alone. *)
Lemma tail_same s i t w' t' :
  cinv s → thr s !! i = Some t → local_write_tail (q w') = local_write_tail (q (wd s)) →
  lg w' = lg (wd s) → pending t' = pending t →
  ∀ j u, producer j = true → (i = j ∧ u = t' ∨ i ≠ j ∧ thr s !! j = Some u) →
     local_write_tail (q w') = wrap64 (published w' + pending u).
Proof.
  intros [_ _ Hwt] Hi El Eg Ep j u Hp Hj. unfold published. rewrite El, Eg.
  destruct Hj as [[<- ->]|[_ Hj]]; [rewrite Ep|]; by eapply Hwt.
Qed.

Lemma spsc_cinv_quiet s i t t' :
  cinv s → thr s !! i = Some t → tinv (wd s) t' → pending t' = pending t →
  (producing t' = true → producer i = true) → (consuming t' = true → consumer i = true) →
  cinv (mkC (wd s) (<[i := t']> (thr s))).
Proof.
  intros Hc Hi Ht Ep Hp Hcs. apply (spsc_cinv_update s i t); try done.
  - apply Hc.
  - intros j u _ Hj. by apply (c_thread _ Hc j).
  - by apply (tail_same s i t).
Qed.

(** Other threads while the producer [i] works: none of them produces. *)
Lemma other_than_producer s i j t u w' :
  cinv s → thr s !! i = Some t → producing t = true → i ≠ j → thr s !! j = Some u →
  published (wd s) ≤ published w' → recv w' = recv (wd s) → tinv w' u.
Proof.
  intros Hc Hi Hp Hij Hj Hle Er. destruct (c_thread _ Hc i t Hi) as (_ & Hpi & _).
  destruct (c_thread _ Hc j u Hj) as (Hu & Hpj & _).
  destruct u; simpl in *; try done; try (destruct Hij; by auto).
  unfold received in *. rewrite Er. lia.
Qed.

Lemma fits_slot w items m j :
  winv w → fits w items → 0 ≤ m < Z.of_nat (length items) →
  received w ≤ j < published w + m → slot k (published w + m) ≠ slot k j.
Proof.
  intros Hw Hf Hm Hj E. unfold fits in Hf. apply slot_inj in E; lia.
Qed.

Lemma spsc_cinv_write s i items x todo idx :
  cinv s → thr s !! i = Some (PWrite items (x :: todo) idx) →
  cinv (mkC (mkWorld (set_ring (q (wd s)) (<[Z.to_nat (Z.land idx (2 ^ k - 1)) := x]> (ring_ (q (wd s)))))
                (lg (wd s)) (recv (wd s))) (<[i := PWrite items todo (idx +64 1)]> (thr s))).
Proof.
  intros Hc Hi. pose proof (c_world _ Hc) as Hw.
  destruct (c_thread _ Hc i _ Hi) as ((Hf & dn & -> & -> & Hs) & Hp & _).
  rewrite mask_slot, slot_wrap by lia.
  set (m := Z.of_nat (length dn)) in *. set (xs := dn ++ x :: todo) in *.
  assert (Z.of_nat (length xs) = m + 1 + Z.of_nat (length todo)) as Hlen.
  { unfold xs, m. rewrite length_app. simpl. lia. }
  assert (slot k (published (wd s) + m) < Z.to_nat (2 ^ k))%nat by (apply slot_lt; lia).
  assert (received (wd s) ≤ published (wd s)) as Hrp.
  { pose proof (prefix_length _ _ (w_fifo _ Hw)). unfold received, published. lia. }
  apply (spsc_cinv_update s i (PWrite xs (x :: todo) (wrap64 (published (wd s) + m)))); try done.
  - split; try apply Hw; simpl; [rewrite length_insert; apply Hw|].
    intros j Hj. change (received (wd s) ≤ j < published (wd s)) in Hj.
    rewrite list_lookup_insert_ne; [by apply Hw|]. apply (fits_slot _ xs); try done; lia.
  - split; [done|]. exists (dn ++ [x]). rewrite <- app_assoc. split; [done|].
    rewrite length_app. split; [rewrite wrap64_add_l; f_equal; simpl; unfold published; simpl; lia|].
    intros j Hj. simpl in Hj. unfold published. simpl.
    change (Z.of_nat (length (lg (wd s)))) with (published (wd s)).
    destruct (decide (j = m)) as [->|Hne].
    + rewrite list_lookup_insert_eq by (rewrite (w_len _ Hw); done). unfold xs, m.
      rewrite Nat2Z.id. by rewrite list_lookup_middle.
    + rewrite list_lookup_insert_ne; [apply Hs; lia|]. apply (fits_slot _ xs); try done; lia.
  - intros j u Hij Hj. by eapply (other_than_producer s i j).
  - by eapply tail_same.
Qed.

Lemma spsc_cinv_publish s i items :
  cinv s → thr s !! i = Some (PPub items) →
  cinv (mkC (mkWorld (set_write_head (q (wd s)) (write_head (q (wd s)) +64 Z.of_nat (length items)))
                (lg (wd s) ++ items) (recv (wd s))) (<[i := Idle]> (thr s))).
Proof.
  intros Hc Hi. pose proof (c_world _ Hc) as Hw.
  destruct (c_thread _ Hc i _ Hi) as ((Hf & Hs) & Hp & _). specialize (Hp eq_refl).
  pose proof (c_write_tail _ Hc i _ Hi Hp) as Hwt. simpl in Hwt.
  apply (spsc_cinv_update s i (PPub items)); try done.
  - split; simpl; try apply Hw.
    + rewrite (w_head _ Hw), wrap64_add_l. unfold published. simpl. by rewrite length_app, Nat2Z.inj_add.
    + etrans; [apply Hw|]. by exists items.
    + unfold fits, published, received in *. simpl. rewrite length_app. lia.
    + intros j. unfold published, received. simpl. rewrite length_app. intros Hj.
      destruct (Z.lt_ge_cases j (published (wd s))) as [Hlt|Hge]; unfold published in *.
      * rewrite lookup_app_l by lia. apply (w_slots _ Hw). unfold published, received. lia.
      * rewrite lookup_app_r by lia. unfold staged, published in Hs. specialize (Hs (j - Z.of_nat (length (lg (wd s))))).
        replace (Z.of_nat (length (lg (wd s))) + (j - Z.of_nat (length (lg (wd s))))) with j in Hs by lia.
        rewrite Hs by lia. f_equal. lia.
  - intros j u Hij Hj. eapply (other_than_producer s i j); try done.
    unfold published. simpl. rewrite length_app. lia.
  - intros j u Hpj Hj. destruct Hj as [[_ ->]|[Hij _]]; [|by destruct Hij; apply one_p].
    simpl. rewrite Hwt. unfold published. simpl. rewrite length_app. f_equal. lia.
Qed.

Lemma cinv_tail s i items idx :
  cinv s → thr s !! i = Some (PTail items idx) →
  cinv (mkC (mkWorld (set_write_tail (q (wd s)) idx) (lg (wd s)) (recv (wd s))) (<[i := PPub items]> (thr s))).
Proof.
  intros Hc Hi. pose proof (c_world _ Hc) as Hw.
  destruct (c_thread _ Hc i _ Hi) as ((Hf & -> & Hs) & Hp & _). specialize (Hp eq_refl).
  eapply (spsc_cinv_update s i); try done.
  - split; apply Hw.
  - intros j u Hij Hj. by eapply (other_than_producer s i j).
  - intros j u Hpj Hj. destruct Hj as [[_ ->]|[Hij _]]; [done|]. by destruct Hij; apply one_p.
Qed.

Lemma cinv_copy s i n :
  cinv s → thr s !! i = Some (CCopy n) → 0 < n →
  cinv (mkC (mkWorld (set_local_tail (q (wd s)) (local_tail (q (wd s)) +64 1)) (lg (wd s))
                (recv (wd s) ++ [ring_ (q (wd s)) !!! Z.to_nat (Z.land (local_tail (q (wd s))) (2 ^ k - 1))]))
            (<[i := CCopy (n - 1)]> (thr s))).
Proof.
  intros Hc Hi Hn. pose proof (c_world _ Hc) as Hw.
  destruct (c_thread _ Hc i _ Hi) as (Ht & _ & Hci). specialize (Hci eq_refl). simpl in Ht.
  rewrite mask_slot, (w_tail _ Hw), slot_wrap by lia.
  assert (lg (wd s) !! Z.to_nat (received (wd s))
    = Some (ring_ (q (wd s)) !!! slot k (received (wd s)))) as Hx.
  { destruct (lookup_lt_is_Some_2 (lg (wd s)) (Z.to_nat (received (wd s)))) as [x Hx].
    { unfold received, published in *. lia. }
    rewrite Hx. f_equal. symmetry. apply list_lookup_total_correct.
    rewrite (w_slots _ Hw) by lia. done. }
  set (x := ring_ (q (wd s)) !!! _) in *.
  assert (∀ w', w' = mkWorld (set_local_tail (q (wd s)) (wrap64 (received (wd s)) +64 1)) (lg (wd s)) (recv (wd s) ++ [x]) →
    received w' = received (wd s) + 1 ∧ published w' = published (wd s)) as Hrp.
  { intros w' ->. unfold received, published. simpl. rewrite length_app. simpl. lia. }
  set (w' := mkWorld _ _ _) in *. destruct (Hrp w' eq_refl) as [Er Ep].
  apply (spsc_cinv_update s i (CCopy n)); try done.
  - split; try apply Hw; rewrite ?Er, ?Ep.
    + simpl. by rewrite wrap64_add_l.
    + simpl. destruct (w_fifo _ Hw) as [l El]. unfold received in Hx. rewrite Nat2Z.id in Hx.
      rewrite El in Hx |- *. rewrite lookup_app_r, Nat.sub_diag in Hx by done.
      destruct l as [|y l]; [done|]. injection Hx as ->. exists l. by rewrite <- app_assoc.
    + pose proof (w_room _ Hw). lia.
    + intros j Hj. apply (w_slots _ Hw). lia.
  - simpl. rewrite Er, Ep. lia.
  - intros j u Hij Hj. destruct (c_thread _ Hc j u Hj) as (Hu & _ & Hcj).
    assert (∀ items, fits (wd s) items → fits w' items) as Hfits.
    { intros items Hf. unfold fits in *. rewrite Er, Ep. lia. }
    destruct u as [|items|items todo idx|items idx|items|max|n']; [done|..|done|].
    + by apply Hfits.
    + destruct Hu as [Hf Hu]. split; [by apply Hfits|done].
    + destruct Hu as [Hf Hu]. split; [by apply Hfits|done].
    + destruct Hu as [Hf Hu]. split; [by apply Hfits|done].
    + destruct Hij. by apply one_c, Hcj.
  - by eapply tail_same.
Qed.

Lemma spsc_cstep_inv s s' : cinv s → cstep k producer consumer s s' → cinv s'.
Proof.
  intros Hc Hs. destruct Hs as [s i t w' t' Hi Hs].
  pose proof (c_world _ Hc) as Hw. pose proof (c_thread _ Hc i t Hi) as (Ht & Hpi & Hci).
  remember (wd s) as w eqn:Ew.
  destruct Hs as [w items Hp Hr|w max Hcs Hm|w items|w items x todo idx|w items idx|w items idx|w items
    |w max|w n Hn|w n Hn]; subst w.
  - apply (spsc_cinv_quiet s i Idle); done.
  - by apply (spsc_cinv_quiet s i Idle).
  - apply (spsc_cinv_quiet s i (PRead items)); try done. split; [done|]. exists []. split; [done|].
    simpl. rewrite Z.add_0_r. split; [|intros j Hj; lia].
    pose proof (c_write_tail _ Hc i _ Hi (Hpi eq_refl)) as E. simpl in E. by rewrite Z.add_0_r in E.
  - by apply spsc_cinv_write.
  - apply (spsc_cinv_quiet s i (PWrite items [] idx)); try done.
    destruct Ht as (Hf & dn & -> & -> & Hst). rewrite app_nil_r in *. done.
  - by apply cinv_tail.
  - by apply spsc_cinv_publish.
  - apply (spsc_cinv_quiet s i (CLoad max)); try done. simpl.
    rewrite (w_head _ Hw), (w_tail _ Hw), wrap64_sub_l, wrap64_sub_r.
    pose proof (prefix_length _ _ (w_fifo _ Hw)). pose proof (w_room _ Hw).
    pose proof (pow2_le_W64 k ltac:(lia)). assert (2 ^ k ≤ 2 ^ 63) by (apply Z.pow_le_mono_r; lia).
    unfold published, received in *. rewrite wrap64_small; [lia|].
    change (2 ^ 63) with 9223372036854775808 in *. unfold W64. lia.
  - by apply cinv_copy.
  - by apply (spsc_cinv_quiet s i (CCopy n)).
Qed.

Lemma spsc_cinit_inv m : cinv (cinit k m).
Proof.
  assert (∀ i t, thr (cinit (T:=T) k m) !! i = Some t → t = Idle) as Hidle.
  { intros i t H. apply elem_of_list_to_map_2 in H. apply list_elem_of_fmap in H as (? & ? & _). by simplify_eq. }
  split.
  - split; try done; simpl; [by rewrite length_replicate|unfold published, received; simpl; lia|].
    intros j. unfold published, received. simpl. lia.
  - intros i t Hi. by rewrite (Hidle _ _ Hi).
  - intros i t Hi _. by rewrite (Hidle _ _ Hi).
Qed.

Lemma spsc_reachable_inv m s : reachable k producer consumer m s → cinv s.
Proof. intros Hr. eapply steps_invariant; [|apply spsc_cstep_inv|done]. apply spsc_cinit_inv. Qed.

End Invariant.

(** Reading slots that back a list gives the list. *)
Lemma read_slots_backed {T} `{!Inhabited T} k (ring : list T) h (l : list T) :
  0 ≤ k ≤ 63 → (∀ j x, l !! j = Some x → ring !! slot k (h + Z.of_nat j) = Some x) →
  read_slots (2 ^ k - 1) ring h (length l) = l.
Proof.
  intros Hk. revert h. induction l as [|x l IH]; intros h Hb; [done|]. simpl.
  rewrite mask_slot by lia. pose proof (Hb 0%nat x eq_refl) as H0. rewrite Z.add_0_r in H0.
  rewrite (list_lookup_total_correct _ _ _ H0). f_equal. rewrite read_slots_wrap by lia. apply IH.
  intros j y Hj. replace (h + 1 + Z.of_nat j) with (h + Z.of_nat (S j)) by lia. by apply Hb.
Qed.

(** ** Properties *)

(** One producer thread and one consumer thread, interleaved slot by slot
    and for any number of operations (the counters may wrap around): the
    consumer has received a prefix of what was published, in order, without
    loss or duplication, provided each batch fits behind the unread elements
    when [push_batch] is called. *)
Theorem spsc_fifo (T : Type) (IT : Inhabited T) (k : Z) (producer consumer : nat → bool) (m : nat)
    (s : cstate T) :
  0 ≤ k ≤ 63 →
  (∀ i j, producer i = true → producer j = true → i = j) →
  (∀ i j, consumer i = true → consumer j = true → i = j) →
  reachable k producer consumer m s →
  recv (wd s) `prefix_of` lg (wd s) ∧ outstanding (wd s) ≤ 2 ^ k
  ∧ (∀ i n, thr s !! i = Some (CCopy n) → n ≤ outstanding (wd s)).
Proof.
  intros Hk Hp Hc Hr. destruct (spsc_reachable_inv k Hk producer consumer Hp Hc m s Hr) as [Hw Ht _].
  pose proof (w_room _ _ Hw). split_and!; [apply Hw|done|].
  intros i n Hi. destruct (Ht i _ Hi) as (Hn & _). simpl in Hn.
  unfold outstanding, published, received in *. lia.
Qed.

(** Whenever the producer is between two [push_batch] calls, whatever the
    consumer is doing, the queue is the sequential queue that holds the
    published and not yet received elements, oldest first. *)
Theorem spsc_between_pushes_refines (T : Type) (IT : Inhabited T) (k : Z) (producer consumer : nat → bool)
    (m p : nat) (s : cstate T) :
  0 ≤ k ≤ 63 →
  (∀ i j, producer i = true → producer j = true → i = j) →
  (∀ i j, consumer i = true → consumer j = true → i = j) →
  reachable k producer consumer m s →
  producer p = true → thr s !! p = Some Idle →
  wf (2 ^ k) (q (wd s)) ∧ contents (2 ^ k) (q (wd s)) = drop (length (recv (wd s))) (lg (wd s)).
Proof.
  intros Hk Hp Hc Hr Hpp Hidle.
  destruct (spsc_reachable_inv k Hk producer consumer Hp Hc m s Hr) as [Hw Ht Hwt].
  pose proof (Hwt p _ Hidle Hpp) as Ewt. simpl in Ewt. rewrite Z.add_0_r in Ewt.
  pose proof (prefix_length _ _ (w_fifo _ _ Hw)). pose proof (w_room _ _ Hw).
  assert (2 ^ k ≤ 2 ^ 63) by (apply Z.pow_le_mono_r; lia). change (2 ^ 63) with 9223372036854775808 in *.
  assert (approx_count (q (wd s)) = published (wd s) - received (wd s)) as Ec.
  { unfold approx_count. rewrite (w_head _ _ Hw), (w_tail _ _ Hw), wrap64_sub_l, wrap64_sub_r.
    unfold published, received in *. rewrite wrap64_small; [done|]. unfold W64. lia. }
  split.
  - split; rewrite ?Ec; try done; try apply Hw.
    + rewrite Ewt. apply Hw.
    + rewrite (w_head _ _ Hw), (w_tail _ _ Hw). split; apply wrap64_range.
  - unfold contents. rewrite Ec, (w_tail _ _ Hw), read_slots_wrap by lia.
    assert (Z.to_nat (published (wd s) - received (wd s))
      = length (drop (length (recv (wd s))) (lg (wd s)))) as ->.
    { rewrite length_drop. unfold published, received in *. lia. }
    apply read_slots_backed; [done|]. intros j x Hj. rewrite lookup_drop in Hj.
    pose proof (lookup_lt_Some _ _ _ Hj). unfold published, received in *.
    rewrite (w_slots _ _ Hw) by (unfold published, received; lia). rewrite <- Hj. f_equal. unfold received. lia.
Qed.

(** Two producers of a queue of four slots: both read [local_write_tail_] = 0,
    both write slot 0, and both publish. *)
Definition two_producers : list (act Z) :=
  [CallPush 0%nat [7]; CallPush 1%nat [8]; Go 0%nat; Go 1%nat; Go 0%nat; Go 1%nat;
   Go 0%nat; Go 1%nat; Go 0%nat; Go 1%nat; Go 0%nat; Go 1%nat;
   CallDeq 2%nat 4; Go 2%nat; Go 2%nat; Go 2%nat; Go 2%nat].

(** With two threads calling [push_batch] at once (as [submit_net_io] and
    [submit_disk_io] allow any two callers to), an element is lost although
    the queue has room: 7 and 8 are published, the consumer receives 8 and the
    initial content of a slot nobody wrote. *)
Theorem spsc_two_producers_lose :
  ∃ s : cstate Z, reachable 2 (λ i, bool_decide (i < 2)%nat) (λ i, bool_decide (i = 2)%nat) 3 s
    ∧ lg (wd s) = [7; 8] ∧ recv (wd s) = [8; inhabitant].
Proof.
  destruct (play (play1 2 (λ i, bool_decide (i < 2)%nat) (λ i, bool_decide (i = 2)%nat)) (cinit 2 3)
    two_producers) as [s|] eqn:E; [|by vm_compute in E].
  exists s. split.
  - eapply play_steps; [apply spsc_play1_step|exact E].
  - vm_compute in E. by injection E as <-.
Qed.

(** Witnesses: a producer of two batches and a consumer that starts between
    the slot writes and the publication of the second. *)
Definition one_producer : list (act Z) :=
  [CallPush 0%nat [7; 8]; Go 0%nat; Go 0%nat; Go 0%nat; Go 0%nat; Go 0%nat; Go 0%nat;
   CallPush 0%nat [9]; Go 0%nat; Go 0%nat; CallDeq 1%nat 8; Go 1%nat; Go 1%nat; Go 0%nat; Go 0%nat; Go 0%nat;
   Go 1%nat].

Definition spsc_run : option (cstate Z) :=
  play (play1 2 (λ i, bool_decide (i = 0)%nat) (λ i, bool_decide (i = 1)%nat)) (cinit 2 2) one_producer.

Lemma spsc_fifo_witness :
  ∃ s, spsc_run = Some s ∧ lg (wd s) = [7; 8; 9] ∧ recv (wd s) = [7; 8]
    ∧ recv (wd s) `prefix_of` lg (wd s).
Proof.
  destruct spsc_run as [s|] eqn:E; [|by vm_compute in E].
  exists s. split; [done|].
  split; [vm_compute in E; by injection E as <-|]. split; [vm_compute in E; by injection E as <-|].
  refine (proj1 (spsc_fifo Z _ 2 (λ i, bool_decide (i = 0)%nat) (λ i, bool_decide (i = 1)%nat) 2 s _ _ _ _)).
  - lia.
  - intros i j Hi%bool_decide_eq_true Hj%bool_decide_eq_true. by subst.
  - intros i j Hi%bool_decide_eq_true Hj%bool_decide_eq_true. by subst.
  - eapply play_steps; [apply spsc_play1_step|exact E].
Defined.

Lemma spsc_between_pushes_refines_witness :
  ∃ s, spsc_run = Some s ∧ contents (2 ^ 2) (q (wd s)) = [9].
Proof.
  destruct spsc_run as [s|] eqn:E; [|by vm_compute in E].
  exists s. split; [done|].
  assert (drop (length (recv (wd s))) (lg (wd s)) = [9]) as Hd.
  { vm_compute in E. by injection E as <-. }
  rewrite <- Hd.
  refine (proj2 (spsc_between_pushes_refines Z _ 2 (λ i, bool_decide (i = 0)%nat)
    (λ i, bool_decide (i = 1)%nat) 2 0 s _ _ _ _ _ _)).
  - lia.
  - intros i j Hi%bool_decide_eq_true Hj%bool_decide_eq_true. by subst.
  - intros i j Hi%bool_decide_eq_true Hj%bool_decide_eq_true. by subst.
  - eapply play_steps; [apply spsc_play1_step|exact E].
  - reflexivity.
  - vm_compute in E. by injection E as <-.
Defined.
