(* ===== verification/OnlineSound.v ===== *)
(** Online workers end to end: every operation that changes an [OnlineWorker]
    ([online_worker.cc], [online_worker.h], [scheduler.cc]) keeps its five
    queues of the classes the constructor gave them, each well formed, so that
    the downcasts of the source meet objects of the class they name; and a
    coroutine routed to the worker by a synchronisation primitive is run by the
    next turn of the loop. *)
From S2P Require Import Prelude Types Circ Rings WorkQueues Float64 Policies Metrics Scheduler Timers.
From S2P Require Import Registry Online Waiters Baton Runtime.

Section Typing.
Context {P : Type} `{!PrioQueue P}.
Implicit Types (w : OnlineWorker P) (s : Sched WorkQueue).

Definition tag (q : WorkQueue) : QueueType * Priority * QueueClass := (q_type q, base_priority q, q_class q).
Definition tags s : list (QueueType * Priority * QueueClass) := tag <$> queues s.

(** The five queues, at the indices the worker and its scheduler use.  The
    engine queue may be swapped, for any class but the SPSC one. *)
Record typed w : Prop := {
  ty_idx : idx_affine w = 0 ∧ idx_net_io w = 1 ∧ idx_disk_io w = 2 ∧ idx_engine w = 3 ∧ idx_timer w = 4;
  ty_sched_idx : affine_idx (ow_sched w) = 0 ∧ disk_io_idx (ow_sched w) = 2;
  ty_tags : ∃ t p c, c ≠ CBatchedSPSC ∧ tags (ow_sched w) =
    [(kAffine, kCritical, CRing); (kNetIO, kHigh, CBatchedSPSC); (kDiskIO, kHigh, CBatchedSPSC);
     (t, p, c); (kTimer, kHigh, CAffine)];
  ty_sound : sound_queues (ow_sched w);
  ty_policy : policy_ok (ow_sched w)
}.

(** What a change of the scheduler has to respect. *)
Definition keeps s s' : Prop :=
  affine_idx s' = affine_idx s ∧ disk_io_idx s' = disk_io_idx s ∧ kinds s' = kinds s
  ∧ sound_queues s' ∧ policy_ok s'.

Lemma kinds_tags s s' : kinds s' = kinds s → tags s' = tags s.
Proof.
  assert (∀ s, tags s = (λ m : QueueType * Priority * QueueSemantic * Z * bool * QueueClass,
    let '(t, p, _, _, _, c) := m in (t, p, c)) <$> kinds s) as E.
  { intros s0. unfold tags, kinds. by rewrite <- list_fmap_compose. }
  intros Hk. by rewrite !E, Hk.
Qed.

Lemma keeps_refl s : sound_queues s → policy_ok s → keeps s s.
Proof. intros ??. by do 3 (split; [done|]). Qed.

Lemma keeps_trans s1 s2 s3 : keeps s1 s2 → keeps s2 s3 → keeps s1 s3.
Proof. intros (? & ? & ? & ? & ?) (? & ? & ? & ? & ?). split_and!; congruence || done. Qed.

(** Changes that leave queues, indices and policy alone. *)
Lemma keeps_same s s' :
  sound_queues s → policy_ok s → queues s' = queues s → affine_idx s' = affine_idx s →
  disk_io_idx s' = disk_io_idx s → policy s' = policy s → keeps s s'.
Proof.
  intros Hs Hp Eq Ea Ed Ep. unfold keeps, kinds, sound_queues, policy_ok. by rewrite Eq, Ea, Ed, Ep.
Qed.

Lemma keeps_typed w s' : typed w → keeps (ow_sched w) s' → typed (with_sched w s').
Proof.
  intros [Hi [Ha Hd] (t & p & c & Hc & Ht) _ _] (Ea & Ed & Ek & Hs & Hp). split; simpl; try done.
  - by rewrite Ea, Ed.
  - exists t, p, c. by rewrite (kinds_tags _ _ Ek).
Qed.

Lemma frame_keeps c0 s s' : inv c0 nothing s' → policy_ok s → frame s s' → keeps s s'.
Proof.
  intros Hi Hp (Ea & Ed & _ & Ep & El & Ek). split_and!; try done; [by eapply inv_sound|].
  unfold policy_ok. by rewrite Ep, El.
Qed.

Lemma offer_keeps s s' qi x : sound_queues s → policy_ok s → offer s qi x = Some s' → keeps s s'.
Proof.
  intros Hs Hp E. destruct (offer_spec (account s) nothing s qi x (inv_start s Hs)) as (s2 & E2 & Hi & Hf & _).
  rewrite E in E2. injection E2 as <-. by eapply frame_keeps.
Qed.

Lemma effects_keeps s s' es : sound_queues s → policy_ok s → apply_effects s es = Some s' → keeps s s'.
Proof.
  intros Hs Hp E. destruct (effects_spec (account s) nothing es s (inv_start s Hs)) as (s2 & E2 & Hi & Hf & _).
  rewrite E in E2. injection E2 as <-. by eapply frame_keeps.
Qed.

Lemma run_iter_keeps behave fuel s s' :
  sound_queues s → policy_ok s → run_iter behave fuel s = Some s' → keeps s s'.
Proof.
  intros Hs Hp E. destruct (run_iter_spec behave _ fuel s s' (inv_start s Hs) Hp E) as (Hi & (Ea & Ed & _ & Ek) & Hp' & _).
  split_and!; try done. by eapply inv_sound.
Qed.

Lemma busy_iter_keeps behave fuel s s' :
  sound_queues s → policy_ok s → busy_iter behave fuel s = Some s' → keeps s s'.
Proof.
  intros Hs Hp E. apply (busy_iter_inv behave (account s)) in E as [Hi Hf]; [|by apply inv_start].
  by eapply frame_keeps.
Qed.

Lemma wake_expired_keeps run_cb w ex s s' :
  sound_queues s → policy_ok s → wake_expired run_cb w s ex = Some s' → keeps s s'.
Proof.
  revert s. induction ex as [|n ex IH]; intros s Hs Hp E; simpl in E; [injection E as <-; by apply keeps_refl|].
  assert (∃ s1, keeps s s1 ∧ wake_expired run_cb w s1 ex = Some s') as (s1 & H1 & E1).
  { destruct (on_expire n); [destruct (apply_effects s _) as [s1|] eqn:E1|destruct (offer s _ _) as [s1|] eqn:E1];
      simplify_eq/=; exists s1; split; eauto using effects_keeps, offer_keeps. }
  eapply keeps_trans; [exact H1|]. destruct H1 as (_ & _ & _ & ? & ?). by apply IH.
Qed.

(** ** Every operation on a worker *)

Inductive ow_step w : OnlineWorker P → Prop :=
| st_engine now x w' : submit_engine w now x = Some w' → ow_step w w'
| st_net_io now x w' : submit_net_io w now x = Some w' → ow_step w w'
| st_disk_io now x w' : submit_disk_io w now x = Some w' → ow_step w w'
| st_affine h w' : enqueue_affine w h = Some w' → ow_step w w'
| st_init_io : ow_step w (init_io_backend w)
| st_swap fuel new w' ok :
    wq_wf new → wq_checked new = true → swap_engine_queue fuel w new = Some (w', ok) → ow_step w w'
| st_timer run_cb now self w' : timer_turn run_cb w now self = Some w' → ow_step w w'
| st_timers p : ow_step w (with_timers w p)
| st_worker_start run_cb now t io w' : on_worker_start run_cb w now t io = Some w' → ow_step w w'
| st_turn behave fuel s' : run_iter behave fuel (ow_sched w) = Some s' → ow_step w (with_sched w s')
| st_busy_turn behave fuel s' : busy_iter behave fuel (ow_sched w) = Some s' → ow_step w (with_sched w s')
| st_notify : ow_step w (with_sched w (notify (ow_sched w)))
| st_flags r st : ow_step w (with_sched w (set_flags (ow_sched w) r st)).

Lemma submit_typed w qi t now x w' : typed w → submit w qi t now x = Some w' → typed w'.
Proof.
  intros Hty E. pose proof (ty_sound w Hty) as Hs. pose proof (ty_policy w Hty) as Hp. unfold submit in E.
  assert (∃ s1 ns, keeps (ow_sched w) s1 ∧ (s' ← offer s1 qi (set_enqueue_ns x ns); Some (with_sched w s')) = Some w')
    as (s1 & ns & H1 & E1).
  { destruct (perf (ow_sched w)) as [p|]; [destruct (record_enqueue p t now) as [p' ns]|];
      eexists _, _; (split; [|exact E]); by apply keeps_same. }
  destruct (offer s1 qi _) as [s2|] eqn:Eo; simplify_eq/=. apply keeps_typed; [done|].
  eapply keeps_trans; [exact H1|]. destruct H1 as (_ & _ & _ & ? & ?). by eapply offer_keeps.
Qed.

Lemma offered_typed w qi x s' : typed w → offer (ow_sched w) qi x = Some s' → typed (with_sched w s').
Proof. intros Hty E. apply keeps_typed; [done|]. eapply offer_keeps; [apply Hty|apply Hty|done]. Qed.

Lemma timers_typed w p : typed w → typed (with_timers w p).
Proof. intros [? ? ? ? ?]. by split. Qed.

Lemma timer_turn_typed run_cb w now self w' : typed w → timer_turn run_cb w now self = Some w' → typed w'.
Proof.
  intros Hty E. unfold timer_turn in E. destruct (expire (timer_state w) now) as [p ex].
  apply (timers_typed w p) in Hty. set (w1 := with_timers w p) in *.
  pose proof (ty_sound w1 Hty) as Hs. pose proof (ty_policy w1 Hty) as Hp.
  destruct ex as [|n ex]; unfold yield_suspend in E; cbn [mbind option_bind] in E.
  - destruct (offer _ _ _) as [s|] eqn:Eo in E; simplify_eq/=. apply keeps_typed; [done|]. by eapply offer_keeps.
  - destruct (wake_expired run_cb _ _ (n :: ex)) as [s1|] eqn:Ew in E; [|done].
    apply wake_expired_keeps in Ew; [|done..]. cbn [mbind option_bind] in E.
    destruct (offer s1 _ _) as [s|] eqn:Eo in E; [|done]. injection E as <-. apply keeps_typed; [done|]. eapply keeps_trans; [exact Ew|].
    destruct Ew as (_ & _ & _ & ? & ?). by eapply offer_keeps.
Qed.

Lemma tls_typed w q : typed w → typed (with_sched w (with_tls (ow_sched w) q)).
Proof. intros Hty. apply keeps_typed; [done|]. apply keeps_same; try done; apply Hty. Qed.

Lemma worker_start_typed run_cb w now t io w' : typed w → on_worker_start run_cb w now t io = Some w' → typed w'.
Proof.
  intros Hty E. unfold on_worker_start in E.
  destruct (timer_turn _ _ _ _) as [w1|] eqn:E1; [|done]. cbn [mbind option_bind] in E.
  apply timer_turn_typed in E1; [|by apply tls_typed]. apply (tls_typed _ SIZE_MAX) in E1.
  set (w2 := with_sched w1 _) in *. destruct (io_ready w2); [|by injection E as <-].
  unfold yield_suspend in E. destruct (offer _ _ _) as [s|] eqn:Eo in E; simplify_eq/=.
  apply (tls_typed _ (idx_disk_io w1)) in E1. apply (offered_typed _ _ _ _ E1) in Eo.
  apply (tls_typed _ SIZE_MAX) in Eo. exact Eo.
Qed.

(** Migrating into a queue keeps it well formed, whatever the fuel. *)
Lemma drain_into_wf fuel old new new' :
  wq_wf old → wq_wf new → wq_checked new = true → drain_into fuel old new = Some new' →
  wq_wf new' ∧ q_meta new' = q_meta new.
Proof.
  revert old new. induction fuel as [|f IH]; intros old new Ho Hn Hc E; [done|]. simpl in E.
  destruct (wq_try_dequeue old) as [old' o] eqn:Ed. pose proof (dequeue_law old) as Hl.
  destruct (Hl Ho _ _ Ed) as (Ho' & _). destruct o as [x|]; [|by injection E as <-].
  destruct (migrate_law new x Hn Hc) as (n1 & E1 & Hn1 & Hm1 & _). rewrite E1 in E. simpl in E.
  assert (wq_checked n1 = true) as Hc1 by (rewrite <- Hc; exact (meta_checked new n1 Hm1)).
  destruct (IH _ _ Ho' Hn1 Hc1 E) as [? Hm]. split; [done|]. congruence.
Qed.

Lemma checked_class q : wq_checked q = true → q_class q ≠ CBatchedSPSC.
Proof. by destruct q. Qed.

Lemma swap_typed fuel w new w' ok :
  typed w → wq_wf new → wq_checked new = true → swap_engine_queue fuel w new = Some (w', ok) → typed w'.
Proof.
  intros Hty Hwf Hck E. destruct Hty as [Hi Hsi (t & p & c & Hc & Ht) Hs Hp].
  pose proof Hi as (_ & _ & _ & Ei & _). unfold swap_engine_queue in E. rewrite Ei in E.
  destruct (queues (ow_sched w)) as [|qa [|qn [|qd [|qe [|qt [|]]]]]] eqn:Eq; unfold tags in Ht; rewrite Eq in Ht; try done.
  change (get_queue (ow_sched w) 3) with (get_queue (ow_sched w) (Z.of_nat 3)) in E. rewrite get_queue_nat, Eq in E.
  cbn [lookup list_lookup] in E. destruct (drain_into fuel qe new) as [new'|] eqn:Ed; [|done].
  cbn [mbind option_bind] in E. unfold replace_queue in E. rewrite Eq in E. simpl in E.
  assert (wq_checked qe = true) as Hcq. { apply (f_equal (.!! 3%nat)) in Ht. by destruct qe; [..|injection Ht as _ _ <-|]. }
  assert (wq_wf qe) as Hwq by (apply (Hs 3%nat); [by rewrite Eq|done]).
  destruct (drain_into_wf _ _ _ _ Hwq Hwf Hck Ed) as [Hwf' Hm].
  assert (q_class new' ≠ CBatchedSPSC) as Hcl.
  { apply checked_class. rewrite <- Hck. exact (meta_checked new new' Hm). }
  injection E as <- <-. split; simpl; try done.
  - exists (q_type new'), (base_priority new'), (q_class new'). split; [done|].
    apply (f_equal (λ l, <[3%nat := tag new']> l)) in Ht. exact Ht.
  - intros i q Hq Hk. simpl in Hq. destruct (decide (i = 3%nat)) as [->|Hne].
    + simpl in Hq. by injection Hq as <-.
    + apply (Hs i); [|done]. rewrite Eq. by do 6 (destruct i as [|i]; [done|]).
  - destruct Hp as (? & ? & Hl). rewrite Eq in Hl. split_and!; done.
Qed.

Lemma ow_step_typed w w' : typed w → ow_step w w' → typed w'.
Proof.
  intros Hty Hst. pose proof (ty_sound w Hty) as Hs. pose proof (ty_policy w Hty) as Hp. destruct Hst.
  1-3: by eapply submit_typed.
  - unfold enqueue_affine in *. destruct (offer _ _ _) eqn:Eo; simplify_eq/=. by eapply offered_typed.
  - destruct Hty as [? ? ? ? ?]. by split.
  - by eapply swap_typed.
  - by eapply timer_turn_typed.
  - by apply timers_typed.
  - by eapply worker_start_typed.
  - apply keeps_typed; [done|]. by eapply run_iter_keeps.
  - apply keeps_typed; [done|]. by eapply busy_iter_keeps.
  - apply keeps_typed; [done|]. by apply keeps_same.
  - apply keeps_typed; [done|]. by apply keeps_same.
Qed.

End Typing.

(** ** The constructor *)

Section Construction.
Context {P : Type} `{!PrioQueue P}.

Lemma make_mpmc_wf t p name cap (mk : QueueMeta → Mpmc.MPMCRing WorkItem → WorkQueue) q :
  cap ≤ 2 ^ 63 → (r ← Mpmc.make cap; Some (mk (mkMeta t p name) r)) = Some q →
  ∃ r, q = mk (mkMeta t p name) r ∧ Mpmc.wf r.
Proof.
  intros Hc E. destruct (Mpmc.make_wf (T:=WorkItem) cap Hc) as (r & Er & Hw & _).
  rewrite Er in E. simpl in E. injection E as <-. by exists r.
Qed.

#[local] Opaque make_spsc make_policy.
Lemma online_worker_typed id cfg (w : OnlineWorker P) : online_worker id cfg = Some w → typed w.
Proof.
  unfold online_worker. intros E. destruct (worker_sched id cfg) as [s|] eqn:Es; [|done]. cbn [mbind option_bind] in E.
  assert (queues s = []) as Eq.
  { unfold worker_sched in Es. destruct (make_policy _); [|done]. by injection Es as <-. }
  destruct (make_ring kAffine _ _ _) as [qa|] eqn:Ea; [|done]. cbn [mbind option_bind] in E.
  destruct (make_ring kEngine _ _ _) as [qe|] eqn:Ee; [|done]. cbn [mbind option_bind] in E.
  destruct (make_affine _ _ _ _) as [qt|] eqn:Et; [|done]. cbn [mbind option_bind register_queue] in E.
  destruct (make_policy strict_cfg) as [pol|] eqn:Ep; [|discriminate E]. injection E as <-.
  apply (make_mpmc_wf _ _ _ 65536 RingWorkQueue) in Ea as (ra & -> & Hra); [|done].
  apply (make_mpmc_wf _ _ _ 65536 RingWorkQueue) in Ee as (re & -> & Hre); [|done].
  apply (make_mpmc_wf _ _ _ 8192 AffineWorkQueue) in Et as (rt & -> & Hrt); [|done].
  #[local] Transparent make_spsc make_policy.
  vm_compute in Ep. injection Ep as <-. split; simpl; rewrite ?Eq; simpl.
  - done.
  - done.
  - exists kEngine, kMedium, CRing. split; [done|]. unfold tags. simpl. by rewrite ?Eq.
  - intros i q Hq Hck. simpl in Hq. rewrite ?Eq in Hq.
    do 5 (destruct i as [|i]; [simpl in Hq; injection Hq as <-; done|]). done.
  - split_and!; done.
Qed.

End Construction.

(** ** Properties *)

(** C10: the downcasts of [OnlineWorker] are right.  However a worker is used
    after its construction (submissions, wake-ups, timer turns, engine swaps to
    any queue that tests for room, turns of either loop, stops and starts), it
    keeps its five queues at their indices, the affine queue a
    [RingWorkQueue], the two IO queues [BatchedSPSCWorkQueue]s and the timer
    queue an [AffineWorkQueue], so the [static_cast]s of [enqueue_affine],
    [submit_net_io] and [submit_disk_io] meet objects of the class they name;
    and every queue that tests for room stays well formed. *)
Theorem online_worker_well_typed {P : Type} `{!PrioQueue P} (id : Z) (cfg : WorkerCfg) (w0 w : OnlineWorker P) :
  online_worker id cfg = Some w0 → steps ow_step w0 w →
  ∃ qa qn qd qe qt, queues (ow_sched w) = [qa; qn; qd; qe; qt]
    ∧ get_queue (ow_sched w) (idx_affine w) = Some qa ∧ wq_class qa = CRing ∧ wq_wf qa
    ∧ get_queue (ow_sched w) (idx_net_io w) = Some qn ∧ wq_class qn = CBatchedSPSC
    ∧ get_queue (ow_sched w) (idx_disk_io w) = Some qd ∧ wq_class qd = CBatchedSPSC
    ∧ get_queue (ow_sched w) (idx_engine w) = Some qe ∧ wq_class qe ≠ CBatchedSPSC ∧ wq_wf qe
    ∧ get_queue (ow_sched w) (idx_timer w) = Some qt ∧ wq_class qt = CAffine ∧ wq_wf qt
    ∧ affine_idx (ow_sched w) = idx_affine w ∧ disk_io_idx (ow_sched w) = idx_disk_io w.
Proof.
  intros H0 Hst. assert (typed w) as [(I1 & I2 & I3 & I4 & I5) [Ja Jd] (t & p & c & Hc & Ht) Hs _].
  { apply (steps_invariant ow_step typed w0); [by eapply online_worker_typed|apply ow_step_typed|done]. }
  assert (∀ i q, queues (ow_sched w) !! i = Some q → wq_checked q = true → wq_wf q) as Hs' by exact Hs.
  assert (∀ i : nat, get_queue (ow_sched w) (Z.of_nat i) = queues (ow_sched w) !! i) as Hg
    by (intros; apply get_queue_nat).
  unfold tags in Ht. destruct (queues (ow_sched w)) as [|qa [|qn [|qd [|qe [|qt [|]]]]]]; try done.
  assert (∀ q t p c, tag q = (t, p, c) → wq_class q = c) as Hcl by (intros q ??? E; by injection E).
  pose proof (λ i : nat, f_equal (λ l, l !! i) Ht) as Hn.
  pose proof (Hcl qa _ _ _ ltac:(exact (inj Some _ _ (Hn 0%nat)))) as Ca.
  pose proof (Hcl qn _ _ _ ltac:(exact (inj Some _ _ (Hn 1%nat)))) as Cn.
  pose proof (Hcl qd _ _ _ ltac:(exact (inj Some _ _ (Hn 2%nat)))) as Cd.
  pose proof (Hcl qe _ _ _ ltac:(exact (inj Some _ _ (Hn 3%nat)))) as Ce.
  pose proof (Hcl qt _ _ _ ltac:(exact (inj Some _ _ (Hn 4%nat)))) as Ct.
  exists qa, qn, qd, qe, qt. rewrite I1, I2, I3, I4, I5, Ja, Jd.
  rewrite (Hg 0%nat : get_queue _ 0 = _), (Hg 1%nat : get_queue _ 1 = _), (Hg 2%nat : get_queue _ 2 = _),
    (Hg 3%nat : get_queue _ 3 = _), (Hg 4%nat : get_queue _ 4 = _).
  split_and!; try done; [eapply (Hs' 0%nat)|congruence|eapply (Hs' 3%nat)|eapply (Hs' 4%nat)]; try done.
  - by destruct qa.
  - destruct qe; congruence || done.
  - by destruct qt.
Qed.

(** ** Wake-ups routed to a worker

    [make_route_func] gives a primitive the worker itself as the context of its
    route; [ctx] is the worker's address. *)

Section Delivery.
Context {P : Type} `{!PrioQueue P}.
Implicit Types (w : OnlineWorker P).

Definition deliver (ctx : Z) w (wk : Wake) : option (OnlineWorker P) :=
  match wk with
  | Routed c _ h => if c =? ctx then enqueue_affine w (Z.of_nat h) else Some w
  | Inline _ => Some w
  end.

Fixpoint deliver_all (ctx : Z) w (wakes : list Wake) : option (OnlineWorker P) :=
  match wakes with
  | [] => Some w
  | wk :: rest => w' ← deliver ctx w wk; deliver_all ctx w' rest
  end.

(** The coroutines of [wakes] that are routed to the worker. *)
Definition routed (ctx : Z) (wakes : list Wake) : list WorkItem :=
  omap (λ wk, match wk with
              | Routed c _ h => if c =? ctx then Some (make_coro (Z.of_nat h)) else None
              | Inline _ => None
              end) wakes.

Lemma typed_affine w : typed w →
  ∃ qa, queues (ow_sched w) !! 0%nat = Some qa ∧ get_queue (ow_sched w) 0 = Some qa ∧ wq_checked qa = true.
Proof.
  intros [_ _ (t & p & c & _ & Ht) _ _]. pose proof (f_equal (.!! 0%nat) Ht) as H0.
  unfold tags in H0. rewrite list_lookup_fmap in H0.
  destruct (queues (ow_sched w) !! 0%nat) as [qa|] eqn:E; [|done]. exists qa. split; [done|].
  rewrite (get_queue_nat (ow_sched w) 0 : get_queue (ow_sched w) 0 = _). split; [done|]. by destruct qa.
Qed.

Lemma enqueue_affine_spec w h qa :
  typed w → queues (ow_sched w) !! 0%nat = Some qa → Z.of_nat (length (wq_contents qa)) < wq_room qa →
  ∃ w' qa', enqueue_affine w h = Some w' ∧ typed w' ∧ executed (ow_sched w') = executed (ow_sched w)
    ∧ queues (ow_sched w') !! 0%nat = Some qa' ∧ wq_contents qa' = wq_contents qa ++ [make_coro h]
    ∧ wq_room qa' = wq_room qa.
Proof.
  intros Hty Hq Hroom. destruct (typed_affine w Hty) as (q & Hq' & Hg & Hck). rewrite Hq in Hq'. injection Hq' as <-.
  pose proof (ty_sound w Hty 0%nat qa Hq Hck) as Hwf. pose proof (enqueue_law qa (make_coro h)) as Hl.
  destruct (Hl Hwf ltac:(by left)) as (qa' & E & _ & Hm & Hc). unfold fifo_enqueue in Hc.
  rewrite (proj2 (Z.ltb_lt _ _)) in Hc by done.
  destruct (ty_idx w Hty) as (Ei & _). unfold enqueue_affine, offer. rewrite Ei, Hg, E. eexists _, qa'.
  split; [done|]. split; [|split; [done|split; [|split; [done|]]]].
  - apply (offered_typed w 0 (make_coro h)); [done|]. unfold offer. by rewrite Hg, E.
  - simpl. apply list_lookup_insert_eq. by apply lookup_lt_Some in Hq.
  - unfold q_meta in Hm. simpl in Hm. congruence.
Qed.

Lemma deliver_all_spec ctx wakes w qa :
  typed w → queues (ow_sched w) !! 0%nat = Some qa →
  Z.of_nat (length (wq_contents qa ++ routed ctx wakes)) ≤ wq_room qa →
  ∃ w' qa', deliver_all ctx w wakes = Some w' ∧ typed w' ∧ executed (ow_sched w') = executed (ow_sched w)
    ∧ queues (ow_sched w') !! 0%nat = Some qa' ∧ wq_contents qa' = wq_contents qa ++ routed ctx wakes.
Proof.
  revert w qa. induction wakes as [|wk wakes IH]; intros w qa Hty Hq Hroom.
  { exists w, qa. by rewrite app_nil_r. }
  assert (∃ w1 q1, deliver ctx w wk = Some w1 ∧ typed w1 ∧ executed (ow_sched w1) = executed (ow_sched w)
    ∧ queues (ow_sched w1) !! 0%nat = Some q1 ∧ wq_contents q1 = wq_contents qa ++ routed ctx [wk]
    ∧ wq_room q1 = wq_room qa) as (w1 & q1 & E1 & Hty1 & Ex1 & Hq1 & Hc1 & Hr1).
  { destruct wk as [c i h|h]; simpl in *; [|exists w, qa; by rewrite app_nil_r].
    destruct (c =? ctx); [|exists w, qa; by rewrite app_nil_r].
    apply enqueue_affine_spec; [done..|]. rewrite length_app in Hroom. simpl in Hroom. lia. }
  assert (routed ctx (wk :: wakes) = routed ctx [wk] ++ routed ctx wakes) as Er
    by (unfold routed; by rewrite <- omap_app).
  rewrite Er, app_assoc, <- Hc1 in Hroom.
  destruct (IH w1 q1 Hty1 Hq1) as (w' & qa' & E & Hty' & Ex & Hq' & Hc'); [lia|].
  exists w', qa'. cbn [deliver_all]. rewrite E1. cbn [mbind option_bind].
  split_and!; try done; [congruence|]. by rewrite Er, app_assoc, <- Hc1.
Qed.

(** A turn of either loop. *)
Definition turn (behave : nat → WorkItem → list Effect * Z) (fuel : nat) (s s' : Sched WorkQueue) : Prop :=
  run_iter behave fuel s = Some s' ∨ busy_iter behave fuel s = Some s'.

Lemma turn_drains behave fuel w s' qa :
  typed w → queues (ow_sched w) !! 0%nat = Some qa → turn behave fuel (ow_sched w) s' →
  ∃ later, from 0 (executed s') = from 0 (executed (ow_sched w)) ++ wq_contents qa ++ later.
Proof.
  intros Hty Hq Ht. pose proof (ty_sound w Hty) as Hs. pose proof (ty_policy w Hty) as Hp.
  destruct (ty_sched_idx w Hty) as [Ja Jd].
  assert (inv (account (ow_sched w)) nothing s' ∧ p0_empty s' ∧ affine_idx s' = 0 ∧ kinds s' = kinds (ow_sched w))
    as (Hi & Hp0 & Ea & Ek).
  { destruct Ht as [E|E].
    - by destruct (run_iter_spec behave _ fuel _ s' (inv_start _ Hs) Hp E) as (? & (-> & _ & _ & ?) & _ & ? & _).
    - by destruct (busy_iter_spec behave fuel _ s' Hs ltac:(lia) E) as (? & (-> & _ & _ & _ & _ & ?) & ? & _). }
  destruct (typed_affine w Hty) as (q & Hq2 & _ & Hck). rewrite Hq in Hq2. injection Hq2 as <-.
  destruct (lookup_lt_is_Some_2 (queues s') 0%nat) as [q' Hq'].
  { apply (f_equal length) in Ek. unfold kinds in Ek. rewrite !length_fmap in Ek. apply lookup_lt_Some in Hq. lia. }
  assert (q_checked q' = true) as Hck' by (by rewrite (kinds_checked _ s' 0 qa q' Ek Hq Hq')).
  destruct (Hi 0%nat q' Hq' Hck') as (_ & acc & _ & E).
  assert (q_contents q' = []) as Hnil. { apply Hp0; [|done]. by rewrite Ea, (get_queue_nat s' 0 : get_queue s' 0 = _). }
  exists acc. rewrite Hnil in E. unfold nothing, account in E. rewrite Nat2Z.id, Hq in E.
  rewrite !app_nil_r in E. change (Z.of_nat 0) with 0 in E. by rewrite E, <- app_assoc.
Qed.

(** Delivering a wake-up notifies nobody. *)
Lemma deliver_all_parked ctx wakes w w' :
  deliver_all ctx w wakes = Some w' → parked (ow_sched w') = parked (ow_sched w).
Proof.
  revert w. induction wakes as [|wk wakes IH]; intros w E; simpl in E; [by injection E as <-|].
  destruct (deliver ctx w wk) as [w1|] eqn:E1; [|done]. simpl in E. rewrite (IH w1 E).
  destruct wk as [c i h|h]; simpl in E1; [|by injection E1 as <-]. destruct (c =? ctx); [|by injection E1 as <-].
  unfold enqueue_affine, offer in E1. destruct (get_queue _ _) as [q|]; [|by injection E1 as <-].
  destruct (enqueue q _); [|done]. by injection E1 as <-.
Qed.

Lemma typed_calm behave w : typed w → never_feeds behave 0 → p0_calm behave (ow_sched w).
Proof.
  intros Hty Hn. destruct (ty_sched_idx w Hty) as [Ja _]. unfold p0_calm. rewrite Ja. split; [done|]. intros q Hq.
  destruct (typed_affine w Hty) as (qa & _ & Hg & Hck). rewrite Hq in Hg. injection Hg as ->. exact Hck.
Qed.

End Delivery.


(** A worker that blocked in [enter_idle] does not see a wake-up that is routed
    to it: [enqueue_affine] no longer notifies, on the ground that the scheduler
    polls busily, but an online worker without an IO backend does not. *)
Theorem parked_worker_misses_wakeup {P : Type} `{!PrioQueue P} (behave : nat → WorkItem → list Effect * Z) (n fuel : nat)
    (ctx : Z) (wakes : list Wake) (w w' : OnlineWorker P) (busy : bool) :
  deliver_all ctx w wakes = Some w' → parked (ow_sched w) = true →
  loop_mode behave busy n fuel (ow_sched w') = Some (ow_sched w').
Proof. intros E Hp. rewrite <- (deliver_all_parked _ _ _ _ E) in Hp. destruct n; simpl; by rewrite Hp. Qed.

(** [submit_engine] casts the engine queue to [RingWorkQueue]; once the
    feedback loop has installed its [LocalWorkQueue] the object is of another
    class. *)
Theorem engine_cast_wrong_after_swap {P : Type} `{!PrioQueue P} (w w' : OnlineWorker P) (fuel : nat)
    (name : string) (cap : Z) (ok : bool) :
  typed w → swap_engine_queue fuel w (make_local kEngine kMedium name cap) = Some (w', ok) →
  ∃ q, get_queue (ow_sched w') (idx_engine w') = Some q ∧ wq_class q = CLocal.
Proof.
  intros [(_ & _ & _ & Ei & _) _ (t & p & c & Hc & Ht) Hs _] E. unfold swap_engine_queue in E. rewrite Ei in E.
  unfold tags in Ht. destruct (queues (ow_sched w)) as [|qa [|qn [|qd [|qe [|qt [|]]]]]] eqn:Eq; try done.
  rewrite (get_queue_nat (ow_sched w) 3 : get_queue (ow_sched w) 3 = _), Eq in E. cbn [lookup list_lookup] in E.
  destruct (drain_into fuel qe _) as [new'|] eqn:Ed; [|done]. cbn [mbind option_bind] in E.
  assert (wq_checked qe = true) as Hcq. { apply (f_equal (.!! 3%nat)) in Ht. by destruct qe; [..|injection Ht as _ _ <-|]. }
  assert (wq_wf qe) as Hwq by (apply (Hs 3%nat); [by rewrite Eq|done]).
  destruct (drain_into_wf _ _ (make_local kEngine kMedium name cap) _ Hwq local_make_wf eq_refl Ed) as [_ Hm].
  unfold replace_queue in E. rewrite Eq in E. injection E as <- <-. exists new'. simpl. rewrite Ei.
  split; [reflexivity|]. unfold q_meta in Hm. simpl in Hm. by injection Hm.
Qed.

(** ** Witnesses *)

Definition fresh_worker : option (OnlineWorker sorted_list) := online_worker 0 default_wcfg.

Lemma fresh_worker_some : ∃ w, fresh_worker = Some w ∧ typed w ∧ executed (ow_sched w) = []
  ∧ parked (ow_sched w) = false
  ∧ ∃ qa, queues (ow_sched w) !! 0%nat = Some qa ∧ wq_contents qa = [] ∧ 65536 ≤ wq_room qa.
Proof.
  destruct fresh_worker as [w|] eqn:E.
  - exists w. split; [done|]. split; [by eapply online_worker_typed|].
    assert (match fresh_worker with
      | Some w => (executed (ow_sched w), parked (ow_sched w), match queues (ow_sched w) with qa :: _ => (wq_contents qa, 65536 <=? wq_room qa) | [] => ([], false) end)
      | None => ([], false, ([], false)) end = ([], false, ([], true))) as H by (vm_compute; reflexivity).
    rewrite E in H. destruct (queues (ow_sched w)) as [|qa l]; [done|]. injection H as H1 H2 H3 H4.
    split; [done|]. split; [done|]. exists qa. split; [done|]. split; [done|]. lia.
  - assert (match fresh_worker with Some _ => true | None => false end = true) as Hs by (vm_compute; reflexivity).
    by rewrite E in Hs.
Qed.

Lemma online_worker_well_typed_witness :
  ∃ w0 w, online_worker 0 default_wcfg = Some (w0 : OnlineWorker sorted_list) ∧ steps ow_step w0 w
    ∧ ∃ qn, get_queue (ow_sched w) (idx_net_io w) = Some qn ∧ wq_class qn = CBatchedSPSC.
Proof.
  destruct fresh_worker_some as (w0 & E & Hty & _ & _ & qa & Hq & Hc & Hr).
  destruct (enqueue_affine_spec w0 5 qa Hty Hq) as (w & qa' & Ea & _); [rewrite Hc; simpl; lia|].
  assert (steps ow_step w0 w) as Hst by (apply steps_once; by apply (st_affine w0 5)).
  exists w0, w. split; [exact E|]. split; [exact Hst|].
  destruct (online_worker_well_typed 0 default_wcfg w0 w E Hst) as (? & qn & ? & ? & ? & H).
  exists qn. destruct H as (_ & _ & _ & _ & H5 & H6 & _). split; assumption.
Defined.


Lemma parked_worker_misses_wakeup_witness :
  ∃ (w w' : OnlineWorker sorted_list) qa, deliver_all 64 w [Routed 64 0 3] = Some w'
    ∧ queues (ow_sched w') !! 0%nat = Some qa ∧ wq_contents qa = [make_coro 3]
    ∧ loop_mode (λ _ _, ([], 1)) false 10 10 (ow_sched w') = Some (ow_sched w').
Proof.
  destruct fresh_worker_some as (w & E & Hty & Hx & Hpk & qa & Hq & Hc & Hr).
  pose (wp := with_sched w (set_parker (ow_sched w) Idle.default_config (Idle.mkParker Idle.kPark 0 false 0) true)).
  assert (Htp : typed wp) by (apply keeps_typed; [exact Hty|apply keeps_same; try done; apply Hty]).
  destruct (deliver_all_spec 64 [Routed 64 0 3] wp qa Htp Hq) as (w' & qa' & Ed & _ & _ & Hq' & Hc'); [rewrite Hc; simpl; lia|].
  exists wp, w', qa'. split; [exact Ed|]. split; [exact Hq'|]. split; [rewrite Hc', Hc; reflexivity|].
  exact (parked_worker_misses_wakeup (λ _ _, ([], 1)) 10 10 64 [Routed 64 0 3] wp w' false Ed eq_refl).
Defined.
