(* ===== verification/Placement.v ===== *)
(** Where the threads of the two groups run: the part of
    [OnlineWorkerGroup::discover_topology] ([online_group.cc]) and of the
    executor's constructor ([work_stealing_executor.cc]) that reads cores and
    PUs from hwloc, composed with the layout of both groups and the binding of
    their threads.

    A machine is what hwloc reports of it: NUMA nodes, their cores in logical
    order, the OS indices of a core's PUs; a PU may also be outside any core.
    The two groups choose from the same list. *)
From S2P Require Import Prelude Types Registry Timers Online Executor Runtime.

Inductive HwObj := HwCore (pus : list Z) | HwPu (pu : Z).
Definition Machine : Type := list (list HwObj).

(** The PUs of a node in order, each with the test
    [core && pu == core->children[0]]. *)
Definition obj_pus (o : HwObj) : list (Z * bool) :=
  match o with HwCore pus => imap (λ i p, (p, (i =? 0)%nat)) pus | HwPu p => [(p, false)] end.
Definition hw_pus (nd : list HwObj) : list (Z * bool) := nd ≫= obj_pus.

(** [phys_cores] and [per_numa_pus] of [discover_topology]. *)
Definition phys_count (nd : list HwObj) : Z := Z.of_nat (length (filter (λ p, p.2 = true) (hw_pus nd))).
Definition collect_pus (use_ht : bool) (nd : list HwObj) : list Z :=
  (filter (λ p, use_ht = true ∨ p.2 = true) (hw_pus nd)).*1.
Definition discover (use_ht : bool) (m : Machine) : Topology := mkTopo (phys_count <$> m) (collect_pus use_ht <$> m).

(** The constructor of the group.  Without NUMA nodes [numa_count] is raised to
    1, object 0 is null and its cpuset is read all the same: [None]. *)
Definition discover_topology (use_ht : bool) (m : Machine) : option Topology :=
  match m with [] => None | _ => Some (discover use_ht m) end.
Definition group_on {P : Type} `{!PrioQueue P} (cfg : GroupCfg) (use_ht : bool) (m : Machine) (first : Z) (reg : Registry)
    : option (Group P * Registry) :=
  if uses_numa cfg then t ← discover_topology use_ht m; make_group cfg t first reg
  else make_group cfg (mkTopo [] []) first reg.

(** The nodes as the executor's constructor sees them. *)
Definition exec_nodes (m : Machine) : list Node := (λ nd, Some (hw_pus nd)) <$> m.

(** The CPUs the threads of a group are bound to, in the order of the workers. *)
Definition online_cpus (cfg : GroupCfg) (t : Topology) : list (option Z) :=
  (λ e : nat * WorkerCfg, bound_cpu (bind_thread e.2)) <$> worker_plan cfg t.
Definition exec_cpus (cfg : WsConfig) (m : Machine) : list Z := wp_cpu <$> ws_plans cfg (exec_nodes m).

(** ** The first PU of each core *)

Definition first_pu (o : HwObj) : option Z := match o with HwCore (p :: _) => Some p | _ => None end.
Definition firsts (nd : list HwObj) : list Z := omap first_pu nd.
Definition obj_all (o : HwObj) : list Z := match o with HwCore pus => pus | HwPu p => [p] end.
Definition all_pus (m : Machine) : list Z := m ≫= λ nd, nd ≫= obj_all.

Lemma firsts_filter nd : (filter (λ p, p.2 = true) (hw_pus nd)).*1 = firsts nd.
Proof.
  induction nd as [|o nd IH]; [done|]. change (hw_pus (o :: nd)) with (obj_pus o ++ hw_pus nd). rewrite filter_app, fmap_app, IH.
  change (firsts (o :: nd)) with (match first_pu o with Some p => p :: firsts nd | None => firsts nd end).
  destruct o as [[|p pus]|p]; cbn [obj_pus first_pu]; [done| |done]. rewrite imap_cons, filter_cons_True by done.
  rewrite (list_filter_none _ (imap _ _)); [done|].
  apply Forall_forall. intros [q b] (i & x & [= -> ->] & _)%elem_of_lookup_imap. done.
Qed.

Lemma collect_firsts nd : collect_pus false nd = firsts nd.
Proof. rewrite <-firsts_filter. unfold collect_pus. f_equal. apply list_filter_iff. intros p. naive_solver. Qed.

Lemma phys_firsts nd : phys_count nd = Z.of_nat (length (firsts nd)).
Proof. unfold phys_count. by rewrite <-firsts_filter, length_fmap. Qed.

Lemma firsts_sublist nd : firsts nd `sublist_of` (nd ≫= obj_all).
Proof.
  induction nd as [|o nd IH]; [done|]. change ((o :: nd) ≫= obj_all) with (obj_all o ++ (nd ≫= obj_all)).
  change (firsts (o :: nd)) with (match first_pu o with Some p => p :: firsts nd | None => firsts nd end).
  destruct o as [[|p pus]|p]; simpl; [done| |by apply sublist_cons].
  apply sublist_skip. by apply sublist_inserts_l.
Qed.

(** The first [c] cores of each node. *)
Definition first_cores (counts : list Z) (m : Machine) : list Z :=
  concat (zip_with (λ c nd, take (Z.to_nat c) (firsts nd)) counts m).

Lemma first_cores_sublist counts m : first_cores counts m `sublist_of` all_pus m.
Proof.
  unfold first_cores, all_pus. revert counts. induction m as [|nd m IH]; intros [|c counts]; simpl; [apply sublist_nil_l..|].
  apply sublist_app; [|apply IH]. etrans; [apply sublist_take|apply firsts_sublist].
Qed.

Lemma first_cores_all counts m :
  counts = phys_count <$> m → first_cores counts m = m ≫= firsts.
Proof.
  intros ->. unfold first_cores. induction m as [|nd m IH]; [done|].
  rewrite fmap_cons. cbn [zip_with concat]. rewrite IH, phys_firsts, Nat2Z.id. by rewrite take_ge by lia.
Qed.

Lemma seq_taken {A B} (f : A → B) (g : nat → B) (l : list A) (c : nat) :
  (c ≤ length l)%nat → (∀ w x, l !! w = Some x → g w = f x) → g <$> seq 0 c = f <$> take c l.
Proof.
  intros Hc Hg. apply list_eq. intros w. rewrite !list_lookup_fmap. destruct (decide (w < c)%nat) as [Hw|Hw].
  - rewrite lookup_seq_lt, lookup_take_lt by lia. destruct (lookup_lt_is_Some_2 l w) as [x Hx]; [lia|].
    rewrite Hx. simpl. f_equal. by apply Hg.
  - rewrite (lookup_ge_None_2 (seq 0 c)), (lookup_ge_None_2 (take c l)); [done|rewrite length_take; lia|rewrite length_seq; lia].
Qed.

(** ** Online workers *)

Definition cpu_range (m : Machine) : Prop := Forall (λ p, 0 ≤ p < 2 ^ 32 - 1) (all_pus m).

Lemma numa_wcfg_cpu cfg t n w gid pu pus :
  pin_cpu cfg = true → usable_pus t !! n = Some pus → pus !! w = Some pu → 0 ≤ pu < 2 ^ 32 - 1 →
  bound_cpu (bind_thread (numa_wcfg cfg t n w gid)) = Some pu.
Proof.
  intros Hp Ht Hw Hr. assert (Hlt := lookup_lt_Some _ _ _ Hw). unfold numa_wcfg, bind_thread. rewrite Ht, Hp. simpl default.
  destruct pus as [|x pus]; [done|]. rewrite Nat.mod_small by done. rewrite (nth_lookup_Some _ _ 0 _ Hw). cbn [cpu_id].
  unfold wrap32, W32. rewrite Z.mod_small by lia. rewrite (proj2 (Z.ltb_lt 0 (pu + 1))) by lia. simpl. f_equal. lia.
Qed.

Lemma numa_plan_cpus cfg t m n gid counts :
  pin_cpu cfg = true → (∀ k nd, m !! k = Some nd → usable_pus t !! (n + k)%nat = Some (firsts nd)) → cpu_range m →
  Forall2 (λ c nd, Z.to_nat c ≤ length (firsts nd))%nat counts m →
  (λ e : nat * WorkerCfg, bound_cpu (bind_thread e.2)) <$> numa_plan cfg t n gid counts = Some <$> first_cores counts m.
Proof.
  intros Hp Ht Hr HF. unfold first_cores. revert n gid Ht Hr.
  induction HF as [|c nd counts m Hc HF IH]; intros n gid Ht Hr; [done|]. simpl. rewrite !fmap_app.
  unfold cpu_range, all_pus in Hr. simpl in Hr. apply Forall_app in Hr as [Hr1 Hr2]. f_equal.
  - rewrite <-list_fmap_compose. apply seq_taken; [done|]. intros w pu Hw. simpl.
    apply (numa_wcfg_cpu _ _ _ _ _ _ (firsts nd)); [done| |done|].
    + specialize (Ht 0%nat nd eq_refl). by rewrite Nat.add_0_r in Ht.
    + eapply (Forall_forall (λ p, 0 ≤ p < 2 ^ 32 - 1)); [exact Hr1|]. eapply elem_of_sublist; [by eapply list_elem_of_lookup_2|apply firsts_sublist].
  - apply IH; [|done]. intros k nd' Hk. rewrite Nat.add_succ_comm. by apply (Ht (S k)).
Qed.

Lemma auto_counts cfg use_ht m :
  num_workers cfg = 0 → per_numa_workers cfg = [] → m ≠ [] → per_numa cfg (discover use_ht m) = phys_count <$> m.
Proof.
  intros Hn Hp Hm. unfold per_numa, resize_counts, numa_count. rewrite Hp, Hn. simpl. rewrite length_fmap.
  destruct m as [|nd m]; [done|]. rewrite Nat.max_r by (simpl; lia). rewrite take_ge by (by rewrite length_fmap).
  by rewrite Nat.sub_diag, app_nil_r.
Qed.

Lemma own_counts m : Forall2 (λ c nd, Z.to_nat c ≤ length (firsts nd))%nat (phys_count <$> m) m.
Proof. induction m as [|nd m IH]; simpl; constructor; [|done]. by rewrite phys_firsts, Nat2Z.id. Qed.

(** ** Executor workers *)

Lemma node_plans_cpus cfg n pus w count gid total :
  (gid + count ≤ total)%nat → wp_cpu <$> node_plans cfg n pus w count gid total = pick_cpu cfg pus <$> seq w count.
Proof.
  revert w gid. induction count as [|c IH]; intros w gid Hle; [done|]. simpl. rewrite decide_True by lia. simpl. f_equal.
  apply IH. lia.
Qed.

Lemma node_pus_firsts cfg nd : ws_use_ht_siblings cfg = false → node_pus cfg (Some (hw_pus nd)) = firsts nd.
Proof.
  intros Hh. rewrite <-firsts_filter. unfold node_pus. rewrite Hh. f_equal. apply list_filter_iff. intros p. naive_solver.
Qed.

Lemma all_plans_cpus cfg m counts n gid total :
  ws_pin_cpus cfg = true → ws_use_ht_siblings cfg = false →
  Forall2 (λ c nd, 0 ≤ c ∧ (Z.to_nat c ≤ length (firsts nd))%nat) counts m →
  (gid + Z.to_nat (sum_Z counts) ≤ total)%nat →
  wp_cpu <$> all_plans cfg n gid total (exec_nodes m) counts = first_cores counts m.
Proof.
  intros Hp Hh HF. unfold first_cores. revert n gid.
  induction HF as [|c nd counts m [H0 Hc] HF IH]; intros n gid Hle; [done|].
  assert (Hnn : 0 ≤ sum_Z counts) by (apply sum_Z_nonneg; eapply Forall2_Forall_l; [exact HF|]; apply Forall_true; naive_solver).
  unfold sum_Z in Hle. simpl in Hle. fold (sum_Z counts) in Hle. unfold exec_nodes in *. cbn [all_plans fmap list_fmap zip_with concat].
  rewrite fmap_app.
  destruct (node_plans_spec cfg n (node_pus cfg (Some (hw_pus nd))) 0 (Z.to_nat c) gid total) as [-> _]; [lia|].
  rewrite node_plans_cpus by lia. f_equal; [|apply IH; lia].
  rewrite node_pus_firsts by done. rewrite <-(list_fmap_id (take (Z.to_nat c) (firsts nd))). apply seq_taken; [done|].
  intros w pu Hw. assert (Hlt := lookup_lt_Some _ _ _ Hw). unfold pick_cpu. rewrite Hp.
  destruct (firsts nd) as [|x l]; [done|]. rewrite Nat.mod_small by done. simpl. by apply list_lookup_total_correct.
Qed.

(** ** Properties *)

Lemma online_placement cfg m :
  uses_numa cfg = true → pin_cpu cfg = true → cpu_range m →
  Forall2 (λ c nd, Z.to_nat c ≤ length (firsts nd))%nat (per_numa cfg (discover false m)) m →
  online_cpus cfg (discover false m) = Some <$> first_cores (per_numa cfg (discover false m)) m.
Proof.
  intros Hu Hp Hr HF. unfold online_cpus, worker_plan. rewrite Hu. apply numa_plan_cpus; [done| |done|done].
  intros k nd Hk. apply list_lookup_fmap_Some. exists nd. by rewrite collect_firsts.
Qed.

(** C35: with hyper-thread siblings left out of the discovery (the group's
    default), as long as no NUMA node is given more workers than it has cores,
    which the automatic count guarantees, every pinned online worker has a
    physical core to itself: the workers are bound, in order, to the first PUs of the
    first cores of each node, and with the automatic count to those of all
    cores of the machine. *)
Theorem online_worker_per_core (cfg : GroupCfg) (m : Machine) :
  uses_numa cfg = true → pin_cpu cfg = true → m ≠ [] → cpu_range m → NoDup (all_pus m) →
  let counts := per_numa cfg (discover false m) in
  (num_workers cfg = 0 → per_numa_workers cfg = [] → first_cores counts m = m ≫= firsts
     ∧ online_cpus cfg (discover false m) = Some <$> first_cores counts m)
  ∧ (Forall2 (λ c nd, Z.to_nat c ≤ length (firsts nd))%nat counts m →
     online_cpus cfg (discover false m) = Some <$> first_cores counts m)
  ∧ NoDup (first_cores counts m).
Proof.
  intros Hu Hp Hm Hr Hnd counts.
  split_and!; [|by apply online_placement|eapply sublist_NoDup; [exact Hnd|apply first_cores_sublist]].
  intros H0 H1. unfold counts. split; [apply first_cores_all; by apply auto_counts|].
  apply online_placement; [done..|]. rewrite auto_counts by done. apply own_counts.
Qed.

(** The executor places its workers on the same cores in the same order. *)
Lemma executor_cpus (cfg : WsConfig) (m : Machine) :
  ws_pin_cpus cfg = true → ws_use_ht_siblings cfg = false → m ≠ [] →
  0 ≤ ws_num_workers cfg → ws_num_workers cfg * sum_Z (node_phys <$> exec_nodes m) < W64 →
  Forall2 (λ c nd, (Z.to_nat c ≤ length (firsts nd))%nat) (ws_per_numa cfg (exec_nodes m)) m →
  exec_cpus cfg m = first_cores (ws_per_numa cfg (exec_nodes m)) m.
Proof.
  intros Hp Hh Hm H0 Hw HF. assert (Hne : exec_nodes m ≠ []) by (by destruct m).
  destruct (ws_per_numa_spec cfg _ Hne H0 Hw) as (Hs & Hpos & Hl). unfold exec_cpus, ws_plans.
  replace (ws_nodes (exec_nodes m)) with (exec_nodes m) by (by destruct m).
  apply all_plans_cpus; [done|done| |by rewrite Hs]. clear -Hpos HF. revert Hpos HF.
  generalize (ws_per_numa cfg (exec_nodes m)). intros l Hpos HF. induction HF; [constructor|].
  apply Forall_cons in Hpos as [? ?]. constructor; auto.
Qed.

Lemma node_phys_firsts nd : firsts nd ≠ [] → node_phys (Some (hw_pus nd)) = phys_count nd.
Proof.
  intros H. change (node_phys (Some (hw_pus nd))) with (let c := phys_count nd in if c =? 0 then 1 else c). simpl.
  rewrite phys_firsts. destruct (firsts nd); [done|]. simpl length. zcases; lia.
Qed.

(** The two groups choose from the same cores.  Left to choose their
    numbers, both run one pinned thread on every core of the machine, and with
    the default configuration of [Runtime] on a machine with one NUMA node the
    two offline threads are bound to the cores of the first two online
    workers. *)
Theorem groups_share_cores (m : Machine) (online : GroupCfg) (offline : GroupConfig) :
  m ≠ [] → cpu_range m → Forall (λ nd, firsts nd ≠ []) m →
  uses_numa online = true → pin_cpu online = true → per_numa_workers online = [] → gc_pin_cpus offline = true →
  (num_workers online = 0 → gc_num_workers offline = 0 →
     online_cpus online (discover false m) = Some <$> exec_cpus (group_exec_cfg offline) m)
  ∧ ∀ nd, m = [nd] → (4 ≤ length (firsts nd))%nat → Z.of_nat (length (firsts nd)) < 2 ^ 32 →
      online_cpus (online_cfg default_runtime_cfg) (discover false m) = Some <$> take 4 (firsts nd)
      ∧ exec_cpus (group_exec_cfg (offline_cfg default_runtime_cfg)) m = take 2 (firsts nd).
Proof.
  intros Hm Hr Hf Hu Hp Hpn Hop. split.
  - intros H0 H1. 
    assert (Hcounts : ws_per_numa (group_exec_cfg offline) (exec_nodes m) = phys_count <$> m).
    { unfold ws_per_numa. simpl. rewrite H1. simpl. unfold exec_nodes. rewrite <-list_fmap_compose.
      apply list_fmap_ext. intros i nd Hi. apply node_phys_firsts. by eapply (Forall_lookup_1 _ _ _ _ Hf Hi). }
    rewrite executor_cpus; [|done|done|done|simpl; lia|simpl; rewrite H1; unfold W64; lia|by rewrite Hcounts; apply own_counts].
    rewrite Hcounts. rewrite online_placement; [by rewrite auto_counts|done..|]. rewrite auto_counts by done. apply own_counts.
  - intros nd -> H4 Hb. split.
    + rewrite online_placement; [|done..|by constructor; [|constructor]]. unfold first_cores. simpl. by rewrite app_nil_r.
    + assert (E : ws_per_numa (group_exec_cfg (offline_cfg default_runtime_cfg)) (exec_nodes [nd]) = [2]) by reflexivity.
      rewrite executor_cpus, E; [|done..| |rewrite E; constructor; [change (Z.to_nat 2) with 2%nat; lia|constructor]].
      * unfold first_cores. simpl. by rewrite app_nil_r.
      * unfold exec_nodes, sum_Z, W64. cbn [fmap list_fmap foldr]. rewrite node_phys_firsts by (intros E0; rewrite E0 in H4; simpl in H4; lia).
        rewrite phys_firsts. simpl. lia.
Qed.

Definition sample_machine : Machine :=
  [[HwCore [0; 8]; HwCore [1; 9]; HwCore [2; 10]; HwCore [3; 11]; HwPu 20]].

Lemma online_worker_per_core_witness :
  online_cpus (mkGCfg 0 0 true [] true true true) (discover false sample_machine) = [Some 0; Some 1; Some 2; Some 3].
Proof.
  refine (proj2 (proj1 (online_worker_per_core (mkGCfg 0 0 true [] true true true) sample_machine _ _ _ _ _) _ _));
    [reflexivity|reflexivity|discriminate| |apply (bool_decide_unpack _); vm_compute; exact I|reflexivity|reflexivity].
  unfold cpu_range. apply (bool_decide_unpack _). vm_compute. exact I.
Defined.

Lemma groups_share_cores_witness :
  online_cpus (online_cfg default_runtime_cfg) (discover false sample_machine) = [Some 0; Some 1; Some 2; Some 3]
  ∧ exec_cpus (group_exec_cfg (offline_cfg default_runtime_cfg)) sample_machine = [0; 1].
Proof.
  refine (proj2 (groups_share_cores sample_machine (mkGCfg 0 0 true [] true true true) (mkGroupCfg 0 true true) _ _ _ _ _ _ _)
    (hd [] sample_machine) eq_refl _ _); [discriminate| | |reflexivity..|vm_compute; lia|reflexivity].
  - unfold cpu_range. apply (bool_decide_unpack _). vm_compute. exact I.
  - constructor; [discriminate|constructor].
Defined.
