(* ===== verification/MetricCatalog.v ===== *)
(** The metrics the runtime itself offers: the global counters of
    [scheduler.cc], [worker.cc], [coro_api.h] and [work_stealing_executor.cc],
    the [register_*_metrics] functions that name them in the registry, and the
    cycle accounting of the busy loop, [Scheduler::run_busy].

    Counters are objects in a store of [int64_t] cells; the addresses only have
    to differ.  What the time-stamp counter reads is an argument. *)
From Stdlib Require Import Ascii.
From stdpp Require Import gmap strings.
From S2P Require Import Prelude Metrics MetricText.

(** ** The global counters *)

Inductive Global :=
| g_sched_iters | g_drain_p0_ns | g_drain_all_ns | g_io_poll_ns | g_drain_p0b_ns
| g_tasks_executed | g_coro_created
| g_coro_created_ctr | g_coro_destroyed_ctr
| g_wse_tasks | g_wse_steals.
#[global] Instance global_eq_dec : EqDecision Global.
Proof. solve_decision. Defined.
Definition addr (g : Global) : Z :=
  match g with
  | g_sched_iters => 1 | g_drain_p0_ns => 2 | g_drain_all_ns => 3 | g_io_poll_ns => 4 | g_drain_p0b_ns => 5
  | g_tasks_executed => 6 | g_coro_created => 7 | g_coro_created_ctr => 8 | g_coro_destroyed_ctr => 9
  | g_wse_tasks => 10 | g_wse_steals => 11
  end.

(** [g << delta] *)
Definition add_to (g : Global) (delta : Z) (st : Store) : Store :=
  <[addr g := counter_add (metric_value st (addr g)) delta]> st.

(** ** Registration *)

Definition register (r : Registry) (path : string) (g : Global) : Registry := register_counter r (txt path) (addr g).

Definition register_scheduler_metrics (r : Registry) : Registry :=
  let r := register r "scheduler/iters" g_sched_iters in
  let r := register r "scheduler/drain_p0_ns" g_drain_p0_ns in
  let r := register r "scheduler/drain_all_ns" g_drain_all_ns in
  let r := register r "scheduler/io_poll_ns" g_io_poll_ns in
  register r "scheduler/drain_p0b_ns" g_drain_p0b_ns.
Definition register_worker_metrics (r : Registry) : Registry :=
  register (register r "worker/tasks_executed" g_tasks_executed) "worker/coro_created" g_coro_created.
Definition register_coro_metrics (r : Registry) : Registry :=
  register (register r "coro/created" g_coro_created_ctr) "coro/destroyed" g_coro_destroyed_ctr.
Definition register_wse_metrics (r : Registry) : Registry :=
  register (register r "wse/tasks" g_wse_tasks) "wse/steals" g_wse_steals.

Inductive Part := PScheduler | PWorker | PCoro | PExecutor.
#[global] Instance part_eq_dec : EqDecision Part.
Proof. solve_decision. Defined.
Definition register_part (r : Registry) (p : Part) : Registry :=
  match p with
  | PScheduler => register_scheduler_metrics r
  | PWorker => register_worker_metrics r
  | PCoro => register_coro_metrics r
  | PExecutor => register_wse_metrics r
  end.

(** The names each part offers. *)
Definition catalogue (p : Part) : list (string * Global) :=
  match p with
  | PScheduler => [("scheduler/iters", g_sched_iters); ("scheduler/drain_p0_ns", g_drain_p0_ns);
                   ("scheduler/drain_all_ns", g_drain_all_ns); ("scheduler/io_poll_ns", g_io_poll_ns);
                   ("scheduler/drain_p0b_ns", g_drain_p0b_ns)]%string
  | PWorker => [("worker/tasks_executed", g_tasks_executed); ("worker/coro_created", g_coro_created)]%string
  | PCoro => [("coro/created", g_coro_created_ctr); ("coro/destroyed", g_coro_destroyed_ctr)]%string
  | PExecutor => [("wse/tasks", g_wse_tasks); ("wse/steals", g_wse_steals)]%string
  end.
Definition whole_catalogue : list (string * Global) := [PScheduler; PWorker; PCoro; PExecutor] ≫= catalogue.

(** ** The busy loop's accounting *)

(** [probe] and [probe_count], unsigned. *)
Record Probe := mkProbe {
  p_io_poll : Z; p_drain_p0 : Z; p_snapshot : Z; p_decide : Z; p_dequeue_exec : Z; p_drain_p0b : Z; p_iter : Z;
  probe_count : Z
}.

(** The end of one turn, from the four readings of the time-stamp counter. *)
Definition turn_accounting (t_iter t1 t2 t3 : Z) (s : Store * Probe) : Store * Probe :=
  let '(st, p) := s in
  let st := add_to g_sched_iters 1 st in
  let st := add_to g_drain_p0_ns ((t1 -64 t_iter) / 3) st in
  let st := add_to g_drain_all_ns ((t2 -64 t1) / 3) st in
  let st := add_to g_io_poll_ns ((t2 -64 t1) / 3) st in
  let st := add_to g_drain_p0b_ns ((t3 -64 t2) / 3) st in
  (st, mkProbe (p_io_poll p +64 (t2 -64 t1)) (p_drain_p0 p +64 (t1 -64 t_iter)) (p_snapshot p) (p_decide p)
         (p_dequeue_exec p) (p_drain_p0b p +64 (t3 -64 t2)) (p_iter p +64 (t3 -64 t_iter)) (probe_count p +64 1)).

Definition accounting (turns : list (Z * Z * Z * Z)) (s : Store * Probe) : Store * Probe :=
  fold_left (λ s t, turn_accounting t.1.1.1 t.1.1.2 t.1.2 t.2 s) turns s.
(** The same of [Scheduler::run], whose turns only reach it when they ran a
    batch; the last phase is the execution of the batch and the second drain. *)
Definition run_accounting (t_iter t1 t4 t5 : Z) (p : Probe) : Probe :=
  mkProbe (p_io_poll p) (p_drain_p0 p +64 (t1 -64 t_iter)) (p_snapshot p +64 (t4 -64 t1)) (p_decide p)
    (p_dequeue_exec p) (p_drain_p0b p +64 (t5 -64 t4)) (p_iter p +64 (t5 -64 t_iter)) (probe_count p +64 1).

(** [reset_probe] *)
Definition probe0 : Probe := mkProbe 0 0 0 0 0 0 0 0.

(** ** Lemmas on registration *)

Lemma register_part_fold r p : register_part r p = fold_left (λ r e, register r e.1 e.2) (catalogue p) r.
Proof. by destruct p. Qed.

Lemma register_parts_fold parts r :
  fold_left register_part parts r = fold_left (λ r e, register r e.1 e.2) (parts ≫= catalogue) r.
Proof.
  revert r. induction parts as [|p parts IH]; intros r; [done|]. cbn [fold_left]. rewrite IH, register_part_fold.
  change ((p :: parts) ≫= catalogue) with (catalogue p ++ (parts ≫= catalogue)). by rewrite fold_left_app.
Qed.

Lemma catalogue_known parts : parts ≫= catalogue ⊆ whole_catalogue.
Proof.
  intros e (p & He & _)%list_elem_of_bind. unfold whole_catalogue. apply list_elem_of_bind. exists p. split; [done|].
  destruct p; set_solver.
Qed.

(** No two names of the catalogue agree, not even after slashes have become
    underscores. *)
Lemma catalogue_distinct : NoDup ((λ e, mangle (txt e.1)) <$> whole_catalogue).
Proof. apply (bool_decide_unpack _). by vm_compute. Qed.

Lemma catalogue_inj e e' :
  e ∈ whole_catalogue → e' ∈ whole_catalogue → mangle (txt e.1) = mangle (txt e'.1) → e = e'.
Proof.
  intros [i Hi]%list_elem_of_lookup [j Hj]%list_elem_of_lookup E.
  assert (i = j) as ->; [|congruence]. apply (NoDup_lookup _ i j (mangle (txt e.1)) catalogue_distinct);
    rewrite list_lookup_fmap, ?Hi, ?Hj; simpl; congruence.
Qed.

Lemma catalogue_words : Forall (λ e, one_word (txt e.1)) whole_catalogue.
Proof. unfold one_word. apply (bool_decide_unpack _). by vm_compute. Qed.

Lemma registered_lookup l k e :
  l ⊆ whole_catalogue →
  fold_left (λ r e, register r e.1 e.2) l ∅ !! k = Some e
  ↔ ∃ c, c ∈ l ∧ k = txt c.1 ∧ e = EMetric (addr c.2).
Proof.
  induction l as [|c l IH] using rev_ind; intros Hl.
  - cbn [fold_left]. split; [intros H; by apply lookup_empty_Some in H|]. intros (c & Hc & _). by apply elem_of_nil in Hc.
  - rewrite fold_left_app. cbn [fold_left]. set (r := fold_left _ _ _) in *.
    change (register r c.1 c.2) with (<[txt c.1 := EMetric (addr c.2)]> (r : gmap text Entry)).
    rewrite (lookup_insert_Some (r : gmap text Entry)), IH by set_solver. split.
    + intros [[<- <-]|[_ (c' & Hc & H)]]; [exists c|exists c']; set_solver.
    + intros (c' & [Hc| ->%list_elem_of_singleton]%elem_of_app & -> & ->); [|by left].
      destruct (decide (txt c.1 = txt c'.1)) as [E|E]; [left|right; eauto].
      assert (c = c') as -> by (apply catalogue_inj; [set_solver..|by f_equal]). done.
Qed.

(** ** Lemmas on the counters *)

Lemma addr_inj g g' : addr g = addr g' → g = g'.
Proof. by destruct g, g'. Qed.

Definition val (st : Store) (g : Global) : Z := metric_value st (addr g).

Lemma val_add g d st g' : val (add_to g d st) g' = if decide (g = g') then counter_add (val st g') d else val st g'.
Proof.
  unfold val, add_to, metric_value. destruct (decide (g = g')) as [->|Hne]; [by rewrite (lookup_insert_eq (st : gmap Z Z))|].
  rewrite (lookup_insert_ne (st : gmap Z Z)); [done|]. by intros E%addr_inj.
Qed.

Definition total {A} (f : A → Z) (l : list A) : Z := foldr (λ a s, f a + s) 0 l.
Lemma total_snoc {A} (f : A → Z) l a : total f (l ++ [a]) = total f l + f a.
Proof. unfold total. induction l as [|b l IH]; simpl in *; lia. Qed.

(** A turn whose readings do not go back. *)
Definition turn_ok (t : Z * Z * Z * Z) : Prop :=
  let '(t0, t1, t2, t3) := t in 0 ≤ t0 ∧ t0 ≤ t1 ∧ t1 ≤ t2 ∧ t2 ≤ t3 ∧ t3 < W64.
Definition cycles (t : Z * Z * Z * Z) : Z := t.2 - t.1.1.1.
Definition p0_cycles (t : Z * Z * Z * Z) : Z := t.1.1.2 - t.1.1.1.
Definition io_cycles (t : Z * Z * Z * Z) : Z := t.1.2 - t.1.1.2.
Definition p0b_cycles (t : Z * Z * Z * Z) : Z := t.2 - t.1.2.

Lemma cycles_split turns :
  total cycles turns = total p0_cycles turns + total io_cycles turns + total p0b_cycles turns.
Proof. unfold total. induction turns as [|t turns IH]; [done|]. simpl in *. unfold cycles, p0_cycles, io_cycles, p0b_cycles in *. lia. Qed.

Lemma total_nonneg {A} (P : A → Prop) (f : A → Z) l : (∀ a, P a → 0 ≤ f a) → Forall P l → 0 ≤ total f l.
Proof. intros Hf HF. unfold total. induction HF as [|a l Ha _ IH]; simpl; [lia|]. specialize (Hf a Ha). lia. Qed.

(** Thirds lose less than one each. *)
Lemma total_thirds {A} (f : A → Z) l :
  3 * total (λ a, f a / 3) l ≤ total f l ≤ 3 * total (λ a, f a / 3) l + 2 * Z.of_nat (length l).
Proof.
  unfold total. induction l as [|a l IH]; simpl; [lia|].
  assert (H1 := Z.mul_div_le (f a) 3 ltac:(lia)). assert (H2 := Z.mod_pos_bound (f a) 3 ltac:(lia)).
  assert (H3 := Z.div_mod (f a) 3 ltac:(lia)). lia.
Qed.

Lemma counter_add_small v d : 0 ≤ v → 0 ≤ d → v + d < 2 ^ 63 → counter_add v d = v + d.
Proof.
  intros. unfold counter_add, to_signed64. rewrite wrap64_small by (unfold W64; lia). zcases; lia.
Qed.

Lemma thirds_small a : 0 ≤ a → 0 ≤ a / 3 ≤ a.
Proof. intros. split; [apply Z.div_pos; lia|]. apply Z.div_le_upper_bound; lia. Qed.

(** The counters and the probe hold the sums of the differences. *)
Lemma accounting_sums turns :
  Forall turn_ok turns → total cycles turns < 2 ^ 63 → Z.of_nat (length turns) < 2 ^ 63 →
  let '(st, p) := accounting turns (∅, probe0) in
  val st g_sched_iters = Z.of_nat (length turns)
  ∧ val st g_drain_p0_ns = total (λ t, p0_cycles t / 3) turns
  ∧ val st g_drain_all_ns = total (λ t, io_cycles t / 3) turns
  ∧ val st g_io_poll_ns = total (λ t, io_cycles t / 3) turns
  ∧ val st g_drain_p0b_ns = total (λ t, p0b_cycles t / 3) turns
  ∧ p = mkProbe (total io_cycles turns) (total p0_cycles turns) 0 0 0 (total p0b_cycles turns) (total cycles turns)
          (Z.of_nat (length turns)).
Proof.
  induction turns as [|t turns IH] using rev_ind; intros HF Hc Hn; [done|].
  apply Forall_app in HF as [HF [Ht _]%Forall_cons]. rewrite length_app, total_snoc in *. simpl length in *.
  destruct t as [[[t0 t1] t2] t3]. simpl in Ht.
  assert (Hpos : ∀ f, (∀ t, turn_ok t → 0 ≤ f t) → 0 ≤ total f turns ∧ 0 ≤ total (λ t, f t / 3) turns).
  { intros f Hf. split; (eapply total_nonneg; [|exact HF]); [done|]. intros a Ha. apply Z.div_pos; [by apply Hf|lia]. }
  assert (Hp0 := Hpos p0_cycles ltac:(intros [[[? ?] ?] ?]; unfold p0_cycles; simpl; lia)).
  assert (Hio := Hpos io_cycles ltac:(intros [[[? ?] ?] ?]; unfold io_cycles; simpl; lia)).
  assert (Hpb := Hpos p0b_cycles ltac:(intros [[[? ?] ?] ?]; unfold p0b_cycles; simpl; lia)).
  assert (Hs := cycles_split turns). unfold cycles in Hc at 2. simpl in Hc.
  assert (T1 := total_thirds p0_cycles turns). assert (T2 := total_thirds io_cycles turns).
  assert (T3 := total_thirds p0b_cycles turns).
  assert (D1 := thirds_small (t1 - t0) ltac:(lia)). assert (D2 := thirds_small (t2 - t1) ltac:(lia)).
  assert (D3 := thirds_small (t3 - t2) ltac:(lia)).
  unfold accounting in *. rewrite fold_left_app. cbn [fold_left fst snd].
  destruct (fold_left _ turns (∅, probe0)) as [st p]. destruct IH as (I1 & I2 & I3 & I4 & I5 & ->); [done|lia|lia|].
  unfold turn_accounting. rewrite !total_snoc. unfold p0_cycles, io_cycles, p0b_cycles, cycles in *. cbn [fst snd].
  rewrite !(wrap64_small (_ - _)) by (unfold W64 in *; lia). cbn [p_io_poll p_drain_p0 p_snapshot p_decide p_dequeue_exec p_drain_p0b p_iter probe_count].
  rewrite !(wrap64_small (_ + _)) by (unfold W64 in *; lia). rewrite !val_add.
  repeat (first [rewrite decide_True by done|rewrite decide_False by done]). rewrite I1, I2, I3, I4, I5.
  rewrite !counter_add_small by lia. split_and!; try done; try lia. f_equal; lia.
Qed.

(** In the policy loop the three phases add up as well, modulo 2{^64}. *)
Lemma run_accounting_phases t_iter t1 t4 t5 p :
  p_iter p = wrap64 (p_drain_p0 p + p_snapshot p + p_drain_p0b p) →
  let p' := run_accounting t_iter t1 t4 t5 p in
  p_iter p' = wrap64 (p_drain_p0 p' + p_snapshot p' + p_drain_p0b p').
Proof.
  intros H. simpl. rewrite H. autorewrite with wrap. unfold wrap64, W64. clear. Z.div_mod_to_equations. lia.
Qed.

(** ** Properties *)

(** Whichever of the [register_*_metrics] functions are called, in whatever
    order and however often, the Prometheus export of the registry reads back
    as the names those functions offer with the current values of their
    counters: every one of them is there, nothing else is, and no name occurs
    twice although slashes have become underscores. *)
Theorem catalogue_exports (parts : list Part) (iter : list (text * Entry)) (st : Store) :
  iter ≡ₚ map_to_list (fold_left register_part parts ∅ : gmap text Entry) →
  ∃ kvs, read_prometheus (to_prometheus iter st) = Some kvs ∧ NoDup kvs.*1
    ∧ ∀ k v, (k, v) ∈ kvs ↔ ∃ p c, p ∈ parts ∧ c ∈ catalogue p ∧ k = mangle (txt c.1) ∧ v = val st c.2.
Proof.
  intros HP. rewrite register_parts_fold in HP. set (l := parts ≫= catalogue) in *.
  assert (Hl : l ⊆ whole_catalogue) by apply catalogue_known.
  assert (Hin : ∀ e, e ∈ iter ↔ ∃ c, c ∈ l ∧ e.1 = txt c.1 ∧ e.2 = EMetric (addr c.2)).
  { intros [k e]. rewrite HP, elem_of_map_to_list. by apply registered_lookup. }
  exists (sample_reading st <$> iter). split; [|split].
  - apply read_prometheus_all, Forall_forall. intros [k e] (c & Hc & E1 & E2)%Hin. simpl in E1, E2. subst k e.
    split; [|by eexists].
    by apply (Forall_forall (λ e : string * Global, one_word (txt e.1)) whole_catalogue); [apply catalogue_words|apply Hl].
  - rewrite <-list_fmap_compose. apply NoDup_fmap_2_strong; [|rewrite HP; apply NoDup_map_to_list].
    intros [k1 e1] [k2 e2] (c1 & H1 & E1 & E2)%Hin (c2 & H2 & E3 & E4)%Hin E. simpl in E, E1, E2, E3, E4. subst.
    by rewrite (catalogue_inj c1 c2 (Hl _ H1) (Hl _ H2) E).
  - intros k v. rewrite list_elem_of_fmap. unfold l in Hin. split.
    + intros ([k' e'] & [= -> ->] & (c & (p & Hc & Hp)%list_elem_of_bind & E1 & E2)%Hin). simpl in E1, E2. subst.
      by exists p, c.
    + intros (p & c & Hp & Hc & -> & ->). exists (txt c.1, EMetric (addr c.2)). split; [done|].
      apply Hin. exists c. split; [|done]. apply list_elem_of_bind. by exists p.
Qed.

Lemma catalogue_exports_witness :
  let r := fold_left register_part [PExecutor; PCoro; PExecutor] ∅ in
  ∃ kvs, read_prometheus (to_prometheus (map_to_list (r : gmap text Entry)) {[ 10 := 3 ]}) = Some kvs ∧ NoDup kvs.*1
    ∧ (txt "wse_tasks", 3) ∈ kvs.
Proof.
  intros r. destruct (catalogue_exports [PExecutor; PCoro; PExecutor] (map_to_list (r : gmap text Entry)) {[ 10 := 3 ]})
    as (kvs & H1 & H2 & H3); [reflexivity|].
  exists kvs. split_and!; [done..|]. apply H3. exists PExecutor, ("wse/tasks"%string, g_wse_tasks).
  split_and!; [by left|by left|reflexivity|reflexivity].
Defined.

(** As long as the time-stamp counter does not go back and the totals stay
    below 2{^63}, the busy loop accounts for its time: the probe's three phases
    add up to its total, the exported nanoseconds of the phases are a third of
    their cycles up to less than one per turn, and [io_poll_ns] always equals
    [drain_all_ns]. *)
Theorem busy_accounting (turns : list (Z * Z * Z * Z)) :
  Forall turn_ok turns → total cycles turns < 2 ^ 63 → Z.of_nat (length turns) < 2 ^ 63 →
  let '(st, p) := accounting turns (∅, probe0) in
  val st g_sched_iters = probe_count p ∧ probe_count p = Z.of_nat (length turns)
  ∧ p_iter p = total cycles turns ∧ p_drain_p0 p + p_io_poll p + p_drain_p0b p = p_iter p
  ∧ (let third (g : Global) (c : Z) := 3 * val st g ≤ c ≤ 3 * val st g + 2 * probe_count p in
     third g_drain_p0_ns (p_drain_p0 p) ∧ third g_drain_all_ns (p_io_poll p) ∧ third g_drain_p0b_ns (p_drain_p0b p))
  ∧ val st g_io_poll_ns = val st g_drain_all_ns.
Proof.
  intros HF Hc Hn. assert (H := accounting_sums turns HF Hc Hn). destruct (accounting turns (∅, probe0)) as [st p].
  destruct H as (I1 & I2 & I3 & I4 & I5 & ->). cbn [p_io_poll p_drain_p0 p_snapshot p_decide p_dequeue_exec p_drain_p0b p_iter probe_count].
  rewrite I1, I2, I3, I4, I5. assert (Hs := cycles_split turns). split_and!; try done; try lia; apply total_thirds.
Qed.

Lemma busy_accounting_witness :
  let '(st, p) := accounting [(100, 110, 200, 205); (205, 206, 210, 210)] (∅, probe0) in
  p_iter p = 110 ∧ val st g_io_poll_ns = val st g_drain_all_ns.
Proof.
  assert (H := busy_accounting [(100, 110, 200, 205); (205, 206, 210, 210)]).
  destruct (accounting [(100, 110, 200, 205); (205, 206, 210, 210)] (∅, probe0)) as [st p] eqn:E.
  destruct H as (_ & _ & H & _ & _ & H'); [repeat constructor; unfold W64; simpl; lia|reflexivity|reflexivity|].
  split; [exact H|exact H'].
Defined.
