(* ===== verification/RelAcq.v ===== *)
(** Atomic objects with C++ memory orders, and data races on plain memory.

    The lock-free structures of [src/src/runtime] annotate their atomic
    accesses with [memory_order_relaxed], [acquire], [release] and [acq_rel].
    This file gives those annotations their meaning in the view-based
    presentation of the C++ memory model: every location keeps the list of the
    messages ever stored to it (its modification order), a thread's view says
    how far into each list the thread has looked and which plain accesses
    happen before its next one, and a message carries the view it releases.

    - A load may return any message the thread's view does not rule out, so a
      thread may read stale values; an acquiring load joins the message's view.
    - A store appends a message.  [unordered] is raised when the writer had not
      seen the last message, since the store could then also be placed earlier
      in the modification order; the proofs show that it never is, so that
      appending loses no execution.
    - A read-modify-write reads the last message and continues its release
      sequence: the new message carries the old one's view as well.
    - Plain accesses are logged.  [raced] is raised when an access conflicts
      with an earlier one that does not happen before it: a data race, which
      is undefined behaviour in C++. *)
From S2P Require Import Prelude.

Section Memory.
Context {L : Type} `{!EqDecision L}.

Inductive order := relaxed | acquire | release | acq_rel.

Definition acquires (o : order) : bool := match o with acquire | acq_rel => true | _ => false end.
Definition releases (o : order) : bool := match o with release | acq_rel => true | _ => false end.

(** [seen l]: the latest message of [l] the thread knows of; [known]: the plain
    accesses, by position in the log, that happen before what it does next. *)
Record view := mkView { seen : L → nat; known : gset nat }.

Definition bottom : view := mkView (λ _, O) ∅.
Definition join (a b : view) : view := mkView (λ l, Nat.max (seen a l) (seen b l)) (known a ∪ known b).
Definition see (v : view) (l : L) (i : nat) : view := mkView (<[l := i]> (seen v)) (known v).
Definition learn (v : view) (e : nat) : view := mkView (seen v) ({[e]} ∪ known v).

Record msg := mkMsg { m_val : Z; m_view : view }.

(** A plain access of cell [a_cell]; [a_pos] is the logical position it serves. *)
Record access := mkAccess { a_write : bool; a_cell : nat; a_pos : Z }.

Record mem := mkMem { hist : L → list msg; events : list access; raced : bool; unordered : bool }.

(** Every location is initialised before the threads start, to 0 by default. *)
Definition mem_at (f : L → Z) : mem := mkMem (λ l, [mkMsg (f l) bottom]) [] false false.
Definition mem_init : mem := mem_at (λ _, 0).

(** The value of the last message of [l]. *)
Definition latest (m : mem) (l : L) : Z := default 0 (m_val <$> last (hist m l)).

(** [x.load(o)] returning message [i]. *)
Definition load (o : order) (m : mem) (v : view) (l : L) (i : nat) : option (Z * view) :=
  x ← hist m l !! i;
  if decide (seen v l ≤ i)%nat
  then Some (m_val x, if acquires o then join (see v l i) (m_view x) else see v l i)
  else None.

(** The view a new message [i] of [l] carries. *)
Definition released (o : order) (v : view) (l : L) (i : nat) : view :=
  if releases o then v else see bottom l i.

(** [x.store(a, o)]. *)
Definition store (o : order) (m : mem) (v : view) (l : L) (a : Z) : mem * view :=
  let i := length (hist m l) in
  let v' := see v l i in
  (mkMem (<[l := hist m l ++ [mkMsg a (released o v' l i)]]> (hist m)) (events m) (raced m)
     (unordered m || negb (bool_decide (i ≤ S (seen v l))%nat)), v').

(** A read-modify-write that replaces the last message's value [a] by [f a];
    the result is [a].  [fetch_add(n, o)] and a successful
    [compare_exchange_weak] are instances. *)
Definition rmw (o : order) (m : mem) (v : view) (l : L) (f : Z → option Z) : option (Z * mem * view) :=
  x ← last (hist m l);
  a ← f (m_val x);
  let i := length (hist m l) in
  let v1 := if acquires o then join v (m_view x) else v in
  let v' := see v1 l i in
  Some (m_val x,
        mkMem (<[l := hist m l ++ [mkMsg a (join (released o v' l i) (m_view x))]]> (hist m))
          (events m) (raced m) (unordered m), v').

Definition cas (o : order) (m : mem) (v : view) (l : L) (expected desired : Z) : option (mem * view) :=
  r ← rmw o m v l (λ a, if a =? expected then Some desired else None);
  Some (r.1.2, r.2).

(** [e] conflicts with an access of [cell], writing when [w]. *)
Definition conflicts (w : bool) (cell : nat) (e : access) : bool :=
  (a_cell e =? cell)%nat && (w || a_write e).

(** Every logged access from position [i] on that conflicts is known. *)
Fixpoint ordered_from (i : nat) (l : list access) (w : bool) (cell : nat) (v : view) : bool :=
  match l with
  | [] => true
  | e :: l' => (negb (conflicts w cell e) || bool_decide (i ∈ known v)) && ordered_from (S i) l' w cell v
  end.

(** A plain read ([w = false]) or write of [cell]. *)
Definition touch (m : mem) (v : view) (w : bool) (cell : nat) (pos : Z) : mem * view :=
  (mkMem (hist m) (events m ++ [mkAccess w cell pos])
     (raced m || negb (ordered_from 0 (events m) w cell v)) (unordered m),
   learn v (length (events m))).

(** ** Facts *)

Lemma latest_last m l x : last (hist m l) = Some x → latest m l = m_val x.
Proof. unfold latest. by intros ->. Qed.

Lemma ordered_from_spec i l w cell v :
  (∀ j e, l !! j = Some e → conflicts w cell e = true → (i + j)%nat ∈ known v) →
  ordered_from i l w cell v = true.
Proof.
  revert i. induction l as [|e l IH]; intros i H; [done|]. simpl.
  rewrite IH.
  - destruct (conflicts w cell e) eqn:E; simpl; [|done].
    rewrite bool_decide_true; [done|]. rewrite <- (Nat.add_0_r i). by apply (H O e).
  - intros j e' Hj Hc. rewrite Nat.add_succ_l, <- Nat.add_succ_r. by apply (H (S j) e').
Qed.

(** An access conflicting only with accesses it knows of does not race. *)
Lemma touch_no_race m v w cell pos :
  (∀ j e, events m !! j = Some e → a_cell e = cell → w || a_write e = true → j ∈ known v) →
  raced (touch m v w cell pos).1 = raced m.
Proof.
  intros H. simpl. rewrite ordered_from_spec; [by rewrite orb_false_r|].
  intros j e Hj Hc. unfold conflicts in Hc. apply andb_true_iff in Hc as [Hc Hw].
  apply (H j e); [done| |done]. by apply Nat.eqb_eq.
Qed.

(** An access conflicting with one it does not know of does. *)
Lemma touch_race m v w cell pos j e :
  events m !! j = Some e → a_cell e = cell → w || a_write e = true → j ∉ known v →
  raced (touch m v w cell pos).1 = true.
Proof.
  intros Hj Hc Hw Hn. simpl. apply orb_true_iff. right. apply negb_true_iff.
  assert (∀ l i j', l !! j' = Some e → (i + j')%nat = j → ordered_from i l w cell v = false) as H.
  { clear Hj. induction l as [|e' l IH]; intros i j' Hl Hi; [done|]. simpl. destruct j' as [|j'].
    - simpl in Hl. simplify_eq. unfold conflicts. rewrite Nat.eqb_refl, Hw, Nat.add_0_r in *.
      by rewrite bool_decide_false.
    - rewrite (IH (S i) j'); [apply andb_false_r|done|lia]. }
  by apply (H _ O j).
Qed.

Lemma seen_see v l i l' : seen (see v l i) l' = if decide (l = l') then i else seen v l'.
Proof. simpl. unfold insert, fn_insert. by destruct (decide (l = l')). Qed.

(** The value a view has reached at [l]. *)
Definition reached (m : mem) (v : view) (l : L) : Z := default 0 (m_val <$> hist m l !! seen v l).

(** [v] refers to messages that exist. *)
Definition inside (m : mem) (v : view) : Prop := ∀ l, (seen v l < length (hist m l))%nat.

(** The counters of the program only grow, message by message (strictly when
    [st]), and a message's view includes the message. *)
Definition grows (st : bool) (a b : Z) : Prop := if st then a < b else a ≤ b.

Lemma grows_le st a b : grows st a b → a ≤ b.
Proof. destruct st; simpl; lia. Qed.

Record increasing (st : bool) (m : mem) : Prop := {
  i_incr : ∀ l i j x y, (i < j)%nat → hist m l !! i = Some x → hist m l !! j = Some y → grows st (m_val x) (m_val y);
  i_self : ∀ l i x, hist m l !! i = Some x → seen (m_view x) l = i;
  i_inside : ∀ l i x, hist m l !! i = Some x → inside m (m_view x)
}.

Lemma reached_lookup m v l x : hist m l !! seen v l = Some x → reached m v l = m_val x.
Proof. unfold reached. by intros ->. Qed.

Lemma inside_lookup m v l : inside m v → ∃ x, hist m l !! seen v l = Some x ∧ reached m v l = m_val x.
Proof.
  intros H. destruct (lookup_lt_is_Some_2 _ _ (H l)) as [x Hx]. exists x.
  split; [done|]. by apply reached_lookup.
Qed.

Lemma reached_mono st m v v' l :
  increasing st m → inside m v → inside m v' → (seen v l ≤ seen v' l)%nat →
  reached m v l ≤ reached m v' l.
Proof.
  intros Hm H H' Hle. destruct (inside_lookup m v l H) as (x & Hx & ->).
  destruct (inside_lookup m v' l H') as (y & Hy & ->).
  destruct (decide (seen v l = seen v' l)) as [E|].
  - rewrite E in Hx. simplify_eq. lia.
  - apply (grows_le st). apply (i_incr _ m Hm l (seen v l) (seen v' l)); [lia|done..].
Qed.

Lemma latest_lookup m v l : inside m v →
  ∃ x, hist m l !! pred (length (hist m l)) = Some x ∧ last (hist m l) = Some x ∧ latest m l = m_val x.
Proof.
  intros H. specialize (H l).
  destruct (lookup_lt_is_Some_2 (hist m l) (pred (length (hist m l)))) as [x Hx]; [lia|].
  exists x. assert (last (hist m l) = Some x) as E by by rewrite last_lookup.
  split_and!; [done|done|]. by apply latest_last.
Qed.

Lemma reached_le_latest st m v l : increasing st m → inside m v → reached m v l ≤ latest m l.
Proof.
  intros Hm H. destruct (latest_lookup m v l H) as (y & Hy & _ & ->).
  destruct (inside_lookup m v l H) as (x & Hx & ->). specialize (H l).
  destruct (decide (seen v l = pred (length (hist m l)))) as [E|].
  - rewrite E in Hx. simplify_eq. lia.
  - apply (grows_le st). apply (i_incr _ m Hm l (seen v l) (pred (length (hist m l)))); [lia|done..].
Qed.

(** A view that has reached the latest value has seen the last message. *)
Lemma reached_latest_seen m v l : increasing true m → inside m v → reached m v l = latest m l →
  S (seen v l) = length (hist m l).
Proof.
  intros Hm H E. destruct (latest_lookup m v l H) as (y & Hy & _ & E').
  destruct (inside_lookup m v l H) as (x & Hx & Ex). rewrite Ex, E' in E. specialize (H l).
  destruct (decide (S (seen v l) = length (hist m l))); [done|].
  pose proof (i_incr _ m Hm l (seen v l) (pred (length (hist m l))) x y ltac:(lia) Hx Hy) as Hlt. simpl in Hlt. lia.
Qed.

(** The join of two views has reached the farther of the two. *)
Lemma reached_join st m a b v l :
  increasing st m → inside m a → inside m b → seen v l = Nat.max (seen a l) (seen b l) →
  reached m v l = Z.max (reached m a l) (reached m b l).
Proof.
  intros Hm Ha Hb E.
  assert (∀ c, seen v l = seen c l → reached m v l = reached m c l) as Hc.
  { intros c Ec. unfold reached. by rewrite Ec. }
  destruct (Nat.le_ge_cases (seen a l) (seen b l)) as [Hle|Hle].
  - pose proof (reached_mono st m a b l Hm Ha Hb Hle). rewrite (Hc b) by lia. lia.
  - pose proof (reached_mono st m b a l Hm Hb Ha Hle). rewrite (Hc a) by lia. lia.
Qed.

(** ** What a load returns *)
Lemma load_acquire st m v l i a v' o :
  increasing st m → inside m v → acquires o = true → load o m v l i = Some (a, v') →
  ∃ x, hist m l !! i = Some x ∧ a = m_val x ∧ reached m v' l = a ∧ (seen v l ≤ i)%nat
    ∧ (∀ l', seen v' l' = Nat.max (seen v l') (seen (m_view x) l')) ∧ known v' = known v ∪ known (m_view x).
Proof.
  intros Hm Hv Ho H. unfold load in H. destruct (hist m l !! i) as [x|] eqn:Hx; [|done]. simpl in H.
  destruct (decide (seen v l ≤ i)%nat) as [Hi|]; [|done]. rewrite Ho in H. simplify_eq. exists x.
  pose proof (i_self _ m Hm l i x Hx) as Hs.
  assert (∀ l', seen (join (see v l i) (m_view x)) l' = Nat.max (seen v l') (seen (m_view x) l')) as E.
  { intros l'. change (Nat.max (seen (see v l i) l') (seen (m_view x) l') = Nat.max (seen v l') (seen (m_view x) l')).
    rewrite seen_see. destruct (decide (l = l')) as [<-|]; lia. }
  split_and!; try done. unfold reached. rewrite E, Hs, Nat.max_r by lia. by rewrite Hx.
Qed.

(** A read-modify-write read the last message and appended one. *)
Lemma rmw_success o m v l f a m' v' :
  rmw o m v l f = Some (a, m', v') →
  ∃ x b, last (hist m l) = Some x ∧ m_val x = a ∧ f a = Some b ∧
    v' = see (if acquires o then join v (m_view x) else v) l (length (hist m l)) ∧
    hist m' = <[l := hist m l ++ [mkMsg b (join (released o v' l (length (hist m l))) (m_view x))]]> (hist m) ∧
    events m' = events m ∧ raced m' = raced m ∧ unordered m' = unordered m.
Proof.
  unfold rmw. intros H. destruct (last (hist m l)) as [x|]; [|done]. cbn in H.
  destruct (f (m_val x)) as [b|] eqn:E; [|done]. cbn in H. injection H as <- <- <-. by exists x, b.
Qed.

Lemma cas_success o m v l e d m' v' :
  cas o m v l e d = Some (m', v') →
  ∃ x, last (hist m l) = Some x ∧ m_val x = e ∧
    v' = see (if acquires o then join v (m_view x) else v) l (length (hist m l)) ∧
    hist m' = <[l := hist m l ++ [mkMsg d (join (released o v' l (length (hist m l))) (m_view x))]]> (hist m) ∧
    events m' = events m ∧ raced m' = raced m ∧ unordered m' = unordered m.
Proof.
  unfold cas. intros H. destruct (rmw _ _ _ _ _) as [[[a m1] v1]|] eqn:E; [|done]. cbn in H.
  injection H as -> ->. apply rmw_success in E as (x & b & Hx & Ea & Hf & H). exists x.
  destruct (Z.eqb_spec a e) as [->|]; [|done]. by injection Hf as ->.
Qed.

(** A store by a thread that has seen the last message is ordered after it. *)
Lemma store_ordered o m v l a :
  S (seen v l) = length (hist m l) → unordered (store o m v l a).1 = unordered m.
Proof.
  intros E. simpl. rewrite bool_decide_true by lia. apply orb_false_r.
Qed.

(** ** Appending a message *)
Section Append.
Context (m m' : mem) (l : L) (x : msg).
Hypothesis (Ehist : hist m' = <[l := hist m l ++ [x]]> (hist m)).

Lemma append_hist l' : hist m' l' = if decide (l = l') then hist m l ++ [x] else hist m l'.
Proof. rewrite Ehist. unfold insert, fn_insert. by destruct (decide (l = l')). Qed.

Lemma append_lookup l' i y : hist m l' !! i = Some y → hist m' l' !! i = Some y.
Proof.
  intros H. rewrite append_hist. destruct (decide (l = l')) as [<-|]; [|done]. by apply lookup_app_l_Some.
Qed.

Lemma append_inside v : inside m v → inside m' v.
Proof.
  intros H l'. rewrite append_hist. specialize (H l').
  destruct (decide (l = l')) as [<-|]; [|done]. rewrite length_app. lia.
Qed.

Lemma append_reached v l' : inside m v → reached m' v l' = reached m v l'.
Proof.
  intros H. destruct (inside_lookup m v l' H) as (y & Hy & ->).
  by apply reached_lookup, append_lookup.
Qed.

Lemma append_latest l' : latest m' l' = if decide (l = l') then m_val x else latest m l'.
Proof.
  unfold latest. rewrite append_hist. destruct (decide (l = l')) as [<-|]; [|done]. by rewrite last_snoc.
Qed.

Lemma append_see v : inside m v → inside m' (see v l (length (hist m l))).
Proof.
  intros H l'. rewrite append_hist, seen_see. specialize (H l').
  destruct (decide (l = l')) as [<-|]; [|done]. rewrite length_app. simpl. lia.
Qed.

Lemma append_reached_see v l' :
  inside m v → reached m' (see v l (length (hist m l))) l' = if decide (l = l') then m_val x else reached m v l'.
Proof.
  intros H. unfold reached. rewrite append_hist, seen_see. destruct (decide (l = l')) as [<-|]; [|done].
  rewrite lookup_app_r, Nat.sub_diag by lia. done.
Qed.

Lemma append_increasing st v :
  increasing st m → inside m v → grows st (latest m l) (m_val x) → seen (m_view x) l = length (hist m l) →
  inside m' (m_view x) → increasing st m'.
Proof.
  intros Hm Hv Hlt Hs Hin.
  assert (∀ i y, hist m l !! i = Some y → grows st (m_val y) (m_val x)) as Hall.
  { intros i y Hy. destruct (latest_lookup m v l Hv) as (z & Hz & _ & Ez).
    pose proof (lookup_lt_Some _ _ _ Hy).
    destruct (decide (i = pred (length (hist m l)))) as [->|].
    - simplify_eq. by rewrite <- Ez.
    - assert (grows st (m_val y) (m_val z)) by (eapply (i_incr _ m Hm l i); [|done|done]; lia).
      rewrite Ez in Hlt. destruct st; simpl in *; lia. }
  split.
  - intros l' i j y z Hij. rewrite append_hist. destruct (decide (l = l')) as [<-|]; [|by apply Hm].
    intros Hy Hz. apply lookup_app_Some in Hz as [Hz|[Hj Hz]].
    + rewrite lookup_app_l in Hy by (apply lookup_lt_Some in Hz; lia). by apply (i_incr _ m Hm l i j).
    + apply list_lookup_singleton_Some in Hz as [Hj' ->].
      rewrite lookup_app_l in Hy by lia. by apply (Hall i).
  - intros l' i y. rewrite append_hist. destruct (decide (l = l')) as [<-|]; [|by apply Hm].
    intros Hy. apply lookup_app_Some in Hy as [Hy|[Hj Hy]]; [by apply Hm|].
    apply list_lookup_singleton_Some in Hy as [Hj' <-]. rewrite Hs. lia.
  - intros l' i y. rewrite append_hist. destruct (decide (l = l')) as [<-|].
    + intros Hy. apply lookup_app_Some in Hy as [Hy|[Hj Hy]].
      * apply append_inside. by apply (i_inside _ m Hm l i).
      * by apply list_lookup_singleton_Some in Hy as [_ <-].
    + intros Hy. apply append_inside. by apply (i_inside _ m Hm l' i).
Qed.

(** The message of a read-modify-write by a thread with view [v]. *)
Lemma append_rmw st v x0 :
  increasing st m → inside m v → last (hist m l) = Some x0 →
  m_view x = join (see v l (length (hist m l))) (m_view x0) → grows st (m_val x0) (m_val x) →
  seen (m_view x) l = length (hist m l) ∧ inside m' (m_view x) ∧ increasing st m'.
Proof.
  intros Hm Hv Hx0 Ex Hg.
  assert (hist m l !! pred (length (hist m l)) = Some x0) as Hx by by rewrite <- last_lookup.
  pose proof (append_see v Hv) as Hsee. pose proof (append_inside _ (i_inside _ m Hm l _ x0 Hx)) as Hin0.
  assert (seen (m_view x) l = length (hist m l)) as Hs.
  { rewrite Ex. change (Nat.max (seen (see v l (length (hist m l))) l) (seen (m_view x0) l) = length (hist m l)).
    rewrite seen_see, decide_True, (i_self _ m Hm l _ x0 Hx) by done. lia. }
  assert (inside m' (m_view x)) as Hin.
  { intros l'. rewrite Ex. specialize (Hsee l'). specialize (Hin0 l'). simpl in *. lia. }
  split_and!; [done|done|]. apply (append_increasing st v); try done. by rewrite (latest_last m l x0 Hx0).
Qed.

End Append.

(** ** Memories whose views stay inside *)

Definition tidy (m : mem) : Prop := ∀ l i x, hist m l !! i = Some x → inside m (m_view x).

Lemma tidy_init f : tidy (mem_at f) ∧ inside (mem_at f) bottom.
Proof.
  assert (inside (mem_at f) bottom) as H by (intros l; simpl; lia). split; [|done].
  intros l i x Hx. by apply list_lookup_singleton_Some in Hx as [_ <-].
Qed.

Lemma tidy_store o m v l a :
  tidy m → inside m v → tidy (store o m v l a).1 ∧ inside (store o m v l a).1 (store o m v l a).2
    ∧ ∀ u, inside m u → inside (store o m v l a).1 u.
Proof.
  intros Hm Hv. set (i := length (hist m l)). set (x := mkMsg a (released o (see v l i) l i)).
  set (m' := (store o m v l a).1).
  assert (hist m' = <[l := hist m l ++ [x]]> (hist m)) as Eh by done.
  pose proof (append_inside m m' l x Eh) as Hin. pose proof (append_see m m' l x Eh) as Hsee.
  assert (inside m' (m_view x)) as Hx.
  { unfold x, released. simpl. destruct (releases o); [by apply Hsee|]. apply Hsee. intros l'.
    specialize (Hv l'). simpl. lia. }
  split_and!; [|by apply Hsee|done]. intros l' j y Hy. rewrite (append_hist m m' l x Eh) in Hy.
  destruct (decide (l = l')) as [<-|]; [|by apply Hin, (Hm l' j)].
  apply lookup_snoc_Some in Hy as [[_ Hy]|[_ <-]]; [by apply Hin, (Hm l j)|done].
Qed.

Lemma tidy_load o m v l i a v' : tidy m → inside m v → load o m v l i = Some (a, v') → inside m v'.
Proof.
  intros Hm Hv H. unfold load in H. destruct (hist m l !! i) as [x|] eqn:Hx; [|done]. simpl in H.
  destruct (decide _); simplify_eq.
  assert (inside m (see v l i)) as Hs.
  { intros l'. rewrite seen_see. destruct (decide (l = l')) as [<-|]; [by eapply lookup_lt_Some|apply Hv]. }
  destruct (acquires o); [|done]. intros l'. specialize (Hs l'). specialize (Hm l i x Hx l'). simpl in *. lia.
Qed.

(** The last message can always be loaded. *)
Lemma load_last o m v l : inside m v → ∃ r, load o m v l (pred (length (hist m l))) = Some r ∧ r.1 = latest m l.
Proof.
  intros Hv. destruct (latest_lookup m v l Hv) as (x & Hx & _ & ->). specialize (Hv l). unfold load. rewrite Hx. simpl.
  rewrite decide_True by lia. by eexists.
Qed.

End Memory.

Arguments view : clear implicits.
Arguments msg : clear implicits.
Arguments mem : clear implicits.
