(* ===== verification/RingWeak.v ===== *)
(** [MPMCRing] under the C++ memory orders it is annotated with
    ([mpmc_ring.h], [enqueue_bulk] and [dequeue_bulk_mc]).

    [RingConc] interleaves the atomic accesses of the two operations with
    sequentially consistent memory.  Here the four counters live in the memory
    of [RelAcq]: a load may return a stale message, an operation only learns
    what its acquiring loads bring, and every slot copy is a plain access that
    must not race.  The view invariant says what the annotations are for: a
    thread that has reached a value of a counter has reached enough of the
    others for its unsigned subtractions not to wrap, and knows the slot
    accesses it depends on.  The erased state, which keeps the latest value of
    each counter, satisfies the invariant of [RingConc], so its FIFO theorem
    carries over; in addition no execution has a data race. *)
From S2P Require Import Prelude Circ Rings RingConc RelAcq.
Import Mpmc.

(** The atomic counters [prod_.head], [prod_.tail], [cons_.head], [cons_.tail]. *)
Inductive counter := ProdHead | ProdTail | ConsHead | ConsTail.

#[export] Instance counter_eq_dec : EqDecision counter.
Proof. solve_decision. Defined.

Section Machine.
Context {T : Type} `{!Inhabited T}.

(** The ring with its counters in memory; the last two fields are the ghost
    history of [RingConc]. *)
Record wring := mkWring {
  mm : mem counter; wcapacity : Z; wmask : Z; slots : list T; wlg : list T; wgrants : list (Z * Z)
}.

Definition with_mem (w : wring) (m : mem counter) : wring :=
  mkWring m (wcapacity w) (wmask w) (slots w) (wlg w) (wgrants w).

(** What the scheduler decides: which call to make, which message a load (or a
    failing compare-and-swap) returns, or just to go on. *)
Inductive choice :=
| Enqueue (objs : list T)
| Dequeue (n : Z)
| Read (i : nat)
| Go.

Definition cell (w : wring) (idx : Z) : nat := Z.to_nat (Z.land (wrap64 idx) (wmask w)).

(** [enqueue_bulk], from one access to the next. *)
Definition enqueue_step (w : wring) (t : tstate T) (v : view counter) (c : choice) :
    option (wring * tstate T * view counter) :=
  match t, c with
  | PLoad objs n, Read i =>
      r ← load acquire (mm w) v ProdHead i; Some (w, PHead objs n r.1, r.2)
  | PHead objs n h, Read i =>
      r ← load acquire (mm w) v ConsTail i;
      let n' := Z.min n (wrap64 (wcapacity w + r.1 - h)) in
      Some (w, if n' =? 0 then PDone 0 else PCas objs n' h, r.2)
  | PCas objs n h, Go =>
      r ← cas release (mm w) v ProdHead h (h +64 n);
      Some (mkWring r.1 (wcapacity w) (wmask w) (slots w) (wlg w ++ take (Z.to_nat n) objs) (wgrants w),
            PWrite objs n h 0, r.2)
  | PCas objs n h, Read i =>
      r ← load relaxed (mm w) v ProdHead i; Some (w, PLoad objs n, r.2)
  | PWrite objs n h i, Go =>
      if i <? n then
        x ← objs !! Z.to_nat i;
        let r := touch (mm w) v true (cell w (h + i)) (h + i) in
        Some (mkWring r.1 (wcapacity w) (wmask w) (<[cell w (h + i) := x]> (slots w)) (wlg w) (wgrants w),
              PWrite objs n h (i + 1), r.2)
      else Some (w, PWait n h, v)
  | PWait n h, Read i =>
      r ← load acquire (mm w) v ProdTail i;
      Some (w, if r.1 =? h then PStore n h else PWait n h, r.2)
  | PStore n h, Go =>
      let r := store release (mm w) v ProdTail (h +64 n) in Some (with_mem w r.1, PDone n, r.2)
  | _, _ => None
  end.

(** [dequeue_bulk_mc]. *)
Definition dequeue_step (w : wring) (t : tstate T) (v : view counter) (c : choice) :
    option (wring * tstate T * view counter) :=
  match t, c with
  | CLoad n, Read i =>
      r ← load acquire (mm w) v ConsHead i; Some (w, CHead n r.1, r.2)
  | CHead n h, Read i =>
      r ← load acquire (mm w) v ProdTail i;
      let n' := Z.min n (r.1 -64 h) in
      Some (w, if n' =? 0 then CDone 0 [] else CCas n' h, r.2)
  | CCas n h, Go =>
      r ← cas acq_rel (mm w) v ConsHead h (h +64 n);
      Some (mkWring r.1 (wcapacity w) (wmask w) (slots w) (wlg w) (wgrants w ++ [(h, n)]), CRead n h [], r.2)
  | CCas n h, Read i =>
      r ← load acquire (mm w) v ConsHead i; Some (w, CLoad n, r.2)
  | CRead n h acc, Go =>
      let i := Z.of_nat (length acc) in
      if i <? n then
        x ← slots w !! cell w (h + i);
        let r := touch (mm w) v false (cell w (h + i)) (h + i) in
        Some (with_mem w r.1, CRead n h (acc ++ [x]), r.2)
      else Some (w, CWait n h acc, v)
  | CWait n h acc, Read i =>
      r ← load acquire (mm w) v ConsTail i;
      Some (w, if r.1 =? h then CStore n h acc else CWait n h acc, r.2)
  | CStore n h acc, Go =>
      let r := store release (mm w) v ConsTail (h +64 n) in Some (with_mem w r.1, CDone h acc, r.2)
  | _, _ => None
  end.

(** A resting thread calls one of the two; a running one goes on. *)
Definition advance (w : wring) (t : tstate T) (v : view counter) (c : choice) :
    option (wring * tstate T * view counter) :=
  match c with
  | Enqueue objs => if resting t then Some (w, PLoad objs (Z.of_nat (length objs)), v) else None
  | Dequeue n => if resting t && (0 <=? n) then Some (w, CLoad n, v) else None
  | _ => match enqueue_step w t v c with Some r => Some r | None => dequeue_step w t v c end
  end.

(** The ring, its threads, and what the finished dequeues have returned. *)
Record wstate := mkWs { ww : wring; wthr : gmap nat (tstate T * view counter); wouts : list (Z * list T) }.

(** Thread [i] takes one step; fewer than [2^64] slots are reserved in all. *)
Inductive wstep : wstate → wstate → Prop :=
| wstep_thread s i t v c w' t' v' :
    wthr s !! i = Some (t, v) → advance (ww s) t v c = Some (w', t', v') →
    Z.of_nat (length (wlg w')) < W64 →
    wstep s (mkWs w' (<[i := (t', v')]> (wthr s)) (wouts s ++ returned t t')).

(** A fresh ring of [2^k] slots and [m] idle threads. *)
Definition winit (k : Z) (m : nat) : wstate :=
  mkWs (mkWring mem_init (2 ^ k) (2 ^ k - 1) (replicate (Z.to_nat (2 ^ k)) inhabitant) [] [])
    (list_to_map ((λ i, (i, (Idle, bottom))) <$> seq 0 m)) [].

Definition weak_reachable (k : Z) (m : nat) (s : wstate) : Prop := steps wstep (winit k m) s.

(** The sequentially consistent state: the latest value of every counter. *)
Definition erase (w : wring) : world T :=
  mkWorld (mkRing (latest (mm w) ProdHead) (latest (mm w) ProdTail) (latest (mm w) ConsHead)
             (latest (mm w) ConsTail) (wcapacity w) (wmask w) (slots w)) (wlg w) (wgrants w).

Definition erase_state (s : wstate) : cstate T := mkC (erase (ww s)) (fst <$> wthr s).

(** One scheduled step, for running executions. *)
Definition wplay1 (s : wstate) (a : nat * choice) : option wstate :=
  t ← wthr s !! a.1;
  r ← advance (ww s) t.1 t.2 a.2;
  if Z.of_nat (length (wlg r.1.1)) <? W64
  then Some (mkWs r.1.1 (<[a.1 := (r.1.2, r.2)]> (wthr s)) (wouts s ++ returned t.1 r.1.2)) else None.

Lemma wplay1_step s a s' : wplay1 s a = Some s' → wstep s s'.
Proof.
  unfold wplay1. intros H. destruct (wthr s !! a.1) as [[t v]|] eqn:Hi; [|done]. simpl in H.
  destruct (advance (ww s) t v a.2) as [[[w' t'] v']|] eqn:E; [|done]. simpl in H.
  destruct (Z.ltb_spec (Z.of_nat (length (wlg w'))) W64); simplify_eq.
  by apply (wstep_thread s a.1 t v a.2).
Qed.

End Machine.

Arguments wring : clear implicits.
Arguments wstate : clear implicits.
Arguments choice : clear implicits.

(** ** The view invariant *)
Section Views.
Context (k : Z) (rl : counter).
Implicit Types (m : mem counter) (v : view counter).

(** [v] knows the logged accesses of kind [w] at positions [[a, b)]. *)
Definition knows m v (w : bool) (a b : Z) : Prop :=
  ∀ e x, events m !! e = Some x → a_write x = w → a ≤ a_pos x < b → e ∈ known v.

(** Who has reached a consumer counter has reached a tail that covers it; who
    has reached a tail knows the accesses it publishes. *)
Record good m v : Prop := {
  g_in : inside m v;
  g_ch : reached m v ConsHead ≤ reached m v ProdTail;
  g_ct : reached m v ConsTail ≤ reached m v ProdTail;
  g_w : knows m v true 0 (reached m v ProdTail);
  g_r : knows m v false 0 (reached m v ConsTail)
}.

(** The producer head it has reached is within one lap of the consumer tail it
    has reached: [capacity_ + cons_.tail - prod_.head] does not wrap. *)
Definition room m v : Prop := reached m v ProdHead ≤ reached m v ConsTail + 2 ^ k.

(** The memory: its messages carry good views, and every logged access lies
    below the producer head, when it is a write, or the counter [rl], when it
    is a read: [ConsHead] when consumers reserve before they read. *)
Record minv m : Prop := {
  mi_inc : increasing true m;
  mi_msg : ∀ l i x, hist m l !! i = Some x → good m (m_view x) ∧ room m (m_view x);
  mi_ev : ∀ e x, events m !! e = Some x → a_cell x = slot k (a_pos x)
    ∧ 0 ≤ a_pos x < (if a_write x then latest m ProdHead else latest m rl);
  mi_val : ∀ l i x, hist m l !! i = Some x → 0 ≤ m_val x;
  mi_race : raced m = false;
  mi_ord : unordered m = false
}.

Lemma knows_mono m v v' w a b : known v ⊆ known v' → knows m v w a b → knows m v' w a b.
Proof. intros Hs H e x He Hw Hp. apply Hs. by apply (H e x). Qed.

Lemma knows_glue m v w a b c : knows m v w a b → knows m v w b c → knows m v w a c.
Proof. intros H1 H2 e x He Hw Hp. destruct (Z.lt_ge_cases (a_pos x) b); [eapply H1|eapply H2]; naive_solver lia. Qed.

Lemma good_join m a b v :
  increasing true m → good m a → good m b →
  (∀ l, seen v l = Nat.max (seen a l) (seen b l)) → known v = known a ∪ known b → good m v.
Proof.
  intros Hm Ha Hb Hs Hk.
  pose proof (λ l, reached_join true m a b v l Hm (g_in _ _ Ha) (g_in _ _ Hb) (Hs l)) as Hr.
  assert (known a ⊆ known v ∧ known b ⊆ known v) as [Hka Hkb] by (rewrite Hk; set_solver).
  destruct Ha as [Hia ? ? Hwa Hra], Hb as [Hib ? ? Hwb Hrb]. split.
  - intros l. rewrite Hs. specialize (Hia l). specialize (Hib l). lia.
  - rewrite !Hr. lia.
  - rewrite !Hr. lia.
  - intros e x He Hw Hp. rewrite Hr in Hp.
    destruct (Z.lt_ge_cases (a_pos x) (reached m a ProdTail)); [apply Hka, (Hwa e x)|apply Hkb, (Hwb e x)]; done || lia.
  - intros e x He Hw Hp. rewrite Hr in Hp.
    destruct (Z.lt_ge_cases (a_pos x) (reached m a ConsTail)); [apply Hka, (Hra e x)|apply Hkb, (Hrb e x)]; done || lia.
Qed.

(** An acquiring load moves the thread to a view at least as far; loading
    [prod_.head] also re-establishes [room]. *)
Lemma acquire_step m v l i a v' :
  minv m → good m v → load acquire m v l i = Some (a, v') →
  good m v' ∧ (room m v ∨ l = ProdHead → room m v') ∧ reached m v' l = a ∧ a ≤ latest m l
  ∧ (∀ l', reached m v l' ≤ reached m v' l') ∧ known v ⊆ known v'.
Proof.
  intros Hm Hv Hl. pose proof (mi_inc m Hm) as Hi.
  destruct (load_acquire true m v l i a v' acquire Hi (g_in _ _ Hv) eq_refl Hl) as (x & Hx & Ha & Hr & Hle & Hs & Hk).
  destruct (mi_msg m Hm l i x Hx) as [Hgx Hrx].
  assert (good m v') as Hg by by apply (good_join m v (m_view x)).
  pose proof (λ l, reached_join true m v (m_view x) v' l Hi (g_in _ _ Hv) (g_in _ _ Hgx) (Hs l)) as Hj.
  split_and!; try done.
  - unfold room in *. intros [H| ->].
    + rewrite !Hj. lia.
    + rewrite Hr, Hj, Ha. assert (reached m (m_view x) ProdHead = m_val x) as E; [|lia].
      apply reached_lookup. by rewrite (i_self _ m Hi ProdHead i x Hx).
  - rewrite <- Hr. apply (reached_le_latest true); [done|apply Hg].
  - intros l'. rewrite Hj. lia.
  - rewrite Hk. set_solver.
Qed.

(** A relaxed load of [prod_.head] only moves the view there. *)
Lemma relaxed_step m v i a v' :
  minv m → good m v → load relaxed m v ProdHead i = Some (a, v') → good m v'.
Proof.
  intros Hm Hv Hl. unfold load in Hl. destruct (hist m ProdHead !! i) as [x|] eqn:Hx; [|done]. simpl in Hl.
  destruct (decide _) as [Hle|]; simplify_eq.
  assert (∀ l, l ≠ ProdHead → reached m (see v ProdHead i) l = reached m v l) as E.
  { intros l Hne. unfold reached. rewrite seen_see, decide_False by done. done. }
  destruct Hv as [Hin Hch Hct Hw Hr]. split; rewrite ?E by done; try done.
  intros l. rewrite seen_see. destruct (decide _) as [<-|]; [|done]. by apply lookup_lt_Some in Hx.
Qed.

End Views.

(** ** Threads and the memory *)
Section Threads.
Context {T : Type} `{!Inhabited T} (k : Z) (Hk : 0 ≤ k ≤ 63).
Context (rl : counter) (Hrl : rl = ConsHead ∨ rl = ProdTail).
Implicit Types (m : mem counter) (v : view counter) (w : wring T) (t u : tstate T) (b : bool).

(** What a thread in the middle of an operation has reached. *)
Definition progress m v t : Prop :=
  match t with
  | PHead _ _ h => h ≤ reached m v ProdHead
  | PCas _ n h => h + n ≤ reached m v ConsTail + 2 ^ k
  | PStore n h => reached m v ProdTail = h
  | CHead _ h => h ≤ reached m v ConsHead
  | CCas n h => h + n ≤ reached m v ProdTail
  | CStore n h _ => reached m v ConsTail = h
  | _ => True
  end.

(** After a failed relaxed compare-and-swap a producer may have seen a head it
    has no room for; it is then about to load the head again. *)
Definition has_room m v t : Prop := match t with PLoad _ _ => True | _ => room k m v end.

(** A thread that owns a range knows the accesses already made to it, and that
    the slots are free, or filled. *)
Record tview m v t : Prop := {
  t_good : good m v;
  t_room : has_room m v t;
  t_progress : progress m v t;
  t_prod : ∀ h n, prange t = Some (h, n) → knows m v true h (h + n) ∧ h + n ≤ reached m v ConsTail + 2 ^ k;
  t_cons : ∀ h n, crange t = Some (h, n) → knows m v false h (h + n) ∧ h + n ≤ reached m v ProdTail
}.

(** What a step of [t] leaves of the memory the others know: what they have
    reached, and no access outside the ranges [t] owns. *)
Record later t m m' : Prop := {
  lt_in : ∀ v, inside m v → inside m' v;
  lt_reached : ∀ v l, inside m v → reached m' v l = reached m v l;
  lt_ev : ∀ e x, events m' !! e = Some x → events m !! e = Some x ∨
    ∃ h n, (if a_write x then prange t else crange t) = Some (h, n) ∧ h ≤ a_pos x < h + n
}.

Lemma later_refl t m : later t m m.
Proof. split; auto. Qed.

Lemma later_append t m m' l x :
  hist m' = <[l := hist m l ++ [x]]> (hist m) → events m' = events m → later t m m'.
Proof.
  intros Eh Ee. split.
  - intros v. by apply (append_inside m m' l x).
  - intros v l'. by apply (append_reached m m' l x).
  - intros e y H. rewrite Ee in H. by left.
Qed.

Lemma later_touch t m v b c pos h n :
  (if b then prange t else crange t) = Some (h, n) → h ≤ pos < h + n → later t m (touch m v b c pos).1.
Proof.
  intros Hr Hp. split; try done. intros e x He. simpl in He.
  apply lookup_app_Some in He as [He|[_ He]]; [by left|right].
  apply list_lookup_singleton_Some in He as [_ <-]. eauto.
Qed.

(** The ranges [t] owns lie beyond the published tails. *)
Definition beyond m t : Prop :=
  (∀ h n, prange t = Some (h, n) → latest m ProdTail ≤ h) ∧
  (∀ h n, crange t = Some (h, n) → latest m ConsTail ≤ h).

Lemma tinv_beyond w t : tinv k (erase w) t → beyond (mm w) t.
Proof. intros Ht. split; intros h n Hr; destruct t; simplify_eq/=; naive_solver lia. Qed.

(** A new access lies beyond what a view has reached, or is in a range apart. *)
Lemma knows_later t m m' v b a c :
  later t m m' → knows m v b a c →
  (∀ h n, (if b then prange t else crange t) = Some (h, n) → c ≤ h ∨ h + n ≤ a) → knows m' v b a c.
Proof.
  intros Hl H Hout e x He Hb Hp. destruct (lt_ev _ _ _ Hl e x He) as [He'|(h & n & Hr & Hx)].
  - by apply (H e x).
  - rewrite Hb in Hr. destruct (Hout h n Hr); lia.
Qed.

Lemma good_later t m m' v : increasing true m → beyond m t → later t m m' → good m v → good m' v.
Proof.
  intros Hi [Hp Hc] Hl [Hin Hch Hct Hw Hr].
  split; rewrite ?(lt_reached _ _ _ Hl) by done; try done.
  - by apply Hl.
  - apply (knows_later t m); [done|done|]. intros h n Hrg. left.
    pose proof (reached_le_latest true m v ProdTail Hi Hin). apply Hp in Hrg. lia.
  - apply (knows_later t m); [done|done|]. intros h n Hrg. left.
    pose proof (reached_le_latest true m v ConsTail Hi Hin). apply Hc in Hrg. lia.
Qed.

Lemma room_later t m m' v : later t m m' → inside m v → room k m v → room k m' v.
Proof. intros Hl Hin. unfold room. by rewrite !(lt_reached _ _ _ Hl). Qed.

(** A thread whose ranges are apart keeps its view invariant. *)
Lemma tview_later t m m' v u :
  increasing true m → beyond m t → later t m m' →
  apart (prange t) (prange u) → apart (crange t) (crange u) → tview m v u → tview m' v u.
Proof.
  intros Hi Hb Hl Hp Hc [Hg Hr Hpr Htp Htc]. pose proof (g_in _ _ Hg) as Hin. split.
  - by apply (good_later t m).
  - destruct u; simpl in *; try done; by apply (room_later t m).
  - destruct u; simpl in *; rewrite ?(lt_reached _ _ _ Hl) by done; done.
  - intros h n E. destruct (Htp h n E) as [Hkn Hle]. rewrite (lt_reached _ _ _ Hl) by done. split; [|done].
    apply (knows_later t m); [done|done|]. intros h' n' Hr'. rewrite Hr', E in Hp. simpl in Hp. lia.
  - intros h n E. destruct (Htc h n E) as [Hkn Hle]. rewrite (lt_reached _ _ _ Hl) by done. split; [|done].
    apply (knows_later t m); [done|done|]. intros h' n' Hr'. rewrite Hr', E in Hc. simpl in Hc. lia.
Qed.

(** The memory after a message is appended. *)
Lemma minv_append t m m' l x v :
  minv k rl m → beyond m t → inside m v →
  hist m' = <[l := hist m l ++ [x]]> (hist m) → events m' = events m →
  raced m' = false → unordered m' = false →
  latest m l < m_val x → seen (m_view x) l = length (hist m l) →
  good m' (m_view x) → room k m' (m_view x) → minv k rl m'.
Proof.
  intros Hm Hb Hin Eh Ee Er Eo Hlt Hs Hg Hr. pose proof (later_append t m m' l x Eh Ee) as Hl.
  pose proof (mi_inc _ _ _ Hm) as Hi.
  assert (∀ l' i y, hist m' l' !! i = Some y → hist m l' !! i = Some y ∨ y = x) as Hold.
  { intros l' i y Hy. rewrite (append_hist m m' l x Eh) in Hy. destruct (decide (l = l')) as [<-|]; [|by left].
    apply lookup_app_Some in Hy as [Hy|[_ Hy]]; [by left|right].
    by apply list_lookup_singleton_Some in Hy as [_ <-]. }
  split; try done.
  - apply (append_increasing m m' l x Eh true v); try done. apply Hg.
  - intros l' i y Hy. destruct (Hold l' i y Hy) as [Hy'| ->]; [|done].
    destruct (mi_msg _ _ _ Hm l' i y Hy') as [Hgy Hry]. split.
    + by apply (good_later t m).
    + apply (room_later t m); [done|apply Hgy|done].
  - intros e y He. rewrite Ee in He. destruct (mi_ev _ _ _ Hm e y He) as [Hc Hp]. split; [done|].
    rewrite !(append_latest m m' l x Eh). destruct (a_write y), (decide (l = _)) as [->|]; lia.
  - intros l' i y Hy. destruct (Hold l' i y Hy) as [Hy'| ->]; [by apply (mi_val _ _ _ Hm l' i)|].
    destruct (latest_lookup m v l Hin) as (z & Hz & _ & Ez). apply (mi_val _ _ _ Hm) in Hz. lia.
Qed.

(** The memory after a plain access that does not race. *)
Lemma minv_touch t m v b c pos h n :
  minv k rl m → beyond m t → (if b then prange t else crange t) = Some (h, n) → h ≤ pos < h + n →
  c = slot k pos → 0 ≤ pos < (if b then latest m ProdHead else latest m rl) →
  (∀ j e, events m !! j = Some e → a_cell e = c → b || a_write e = true → j ∈ known v) →
  minv k rl (touch m v b c pos).1.
Proof.
  intros Hm Hb Hr Hp Hc Hpos Hk'. pose proof (later_touch t m v b c pos h n Hr Hp) as Hl.
  pose proof (mi_inc _ _ _ Hm) as Hi. split.
  - by destruct Hi.
  - intros l i x Hx. destruct (mi_msg _ _ _ Hm l i x Hx) as [Hgx Hrx]. split.
    + by apply (good_later t m).
    + done.
  - intros e x He. apply lookup_app_Some in He as [He|[_ He]]; [by apply (mi_ev _ _ _ Hm e x)|].
    by apply list_lookup_singleton_Some in He as [_ <-].
  - apply Hm.
  - rewrite touch_no_race by done. apply Hm.
  - apply Hm.
Qed.

(** A thread that makes an access of its own range knows of it. *)
Lemma tview_touch t m v b c pos h n :
  increasing true m → beyond m t → (if b then prange t else crange t) = Some (h, n) → h ≤ pos < h + n →
  tview m v t → tview (touch m v b c pos).1 (touch m v b c pos).2 t.
Proof.
  intros Hi Hb Hr Hp [Hg Hro Hpr Htp Htc].
  pose proof (later_touch t m v b c pos h n Hr Hp) as Hl.
  destruct (good_later t m _ v Hi Hb Hl Hg) as [Hin Hch Hct Hw Hrd].
  assert (∀ b' a c', knows m v b' a c' → knows (touch m v b c pos).1 (learn v (length (events m))) b' a c') as Hkn.
  { intros b' a c' H e x He Hb' Hx. simpl in *. apply lookup_app_Some in He as [He|[Hge He]].
    - apply elem_of_union_r. by apply (H e x).
    - apply list_lookup_singleton_Some in He as [He _].
      assert (e = length (events m)) as -> by lia. by apply elem_of_union_l, elem_of_singleton. }
  split.
  - split; try done; apply Hkn; apply Hg.
  - done.
  - done.
  - intros h' n' E. destruct (Htp h' n' E) as [??]. split; [by apply Hkn|done].
  - intros h' n' E. destruct (Htc h' n' E) as [??]. split; [by apply Hkn|done].
Qed.

(** ** Steps that only load *)

(** The outcome of a step of thread [t]: the memory and the thread's view stay
    sound, the others are not disturbed, and the erased ring either takes the
    corresponding step or only the thread moves. *)
Definition step_ok w t w' t' v' : Prop :=
  minv k rl (mm w') ∧ tview (mm w') v' t' ∧ later t (mm w) (mm w') ∧
  (tstep (erase w) t (erase w') t' ∨
   (w' = w ∧ tinv k (erase w) t' ∧ prange t' = prange t ∧ crange t' = crange t)).

Lemma wrap64_le x : 0 ≤ x → 0 ≤ wrap64 x ≤ x.
Proof. intros Hx. pose proof (wrap64_range x). pose proof (Z.mod_le x W64 Hx ltac:(done)). unfold wrap64 in *. lia. Qed.

(** A thread that acquires keeps its view invariant in its next state. *)
Lemma tview_acquire m v t l i a v' t' :
  minv k rl m → tview m v t → load acquire m v l i = Some (a, v') →
  prange t' = prange t → crange t' = crange t → (room k m v ∨ l = ProdHead) → progress m v' t' →
  tview m v' t'.
Proof.
  intros Hm [Hg _ _ Htp Htc] Hl Ep Ec Hr Hpr.
  destruct (acquire_step k rl m v l i a v' Hm Hg Hl) as (Hg' & Hr' & _ & _ & Hle & Hkn).
  split; try done.
  - destruct t'; simpl; try done; by apply Hr'.
  - rewrite Ep. intros h n E. destruct (Htp h n E) as [H1 H2]. specialize (Hle ConsTail).
    split; [by apply (knows_mono m v)|lia].
  - rewrite Ec. intros h n E. destruct (Htc h n E) as [H1 H2]. specialize (Hle ProdTail).
    split; [by apply (knows_mono m v)|lia].
Qed.

Lemma silent_ok w t v' t' :
  minv k rl (mm w) → tview (mm w) v' t' → tinv k (erase w) t' →
  prange t' = prange t → crange t' = crange t → step_ok w t w t' v'.
Proof. intros. unfold step_ok. split_and!; try done; [apply later_refl|right; done]. Qed.

Section Loads.
Context (w : wring T) (v v' : view counter) (i : nat) (a : Z).
Hypotheses (Hw : winv k (erase w)) (Hm : minv k rl (mm w)).

Lemma load_prod_head objs n :
  tinv k (erase w) (PLoad objs n) → tview (mm w) v (PLoad objs n) →
  load acquire (mm w) v ProdHead i = Some (a, v') → 0 ≤ a →
  step_ok w (PLoad objs n) w (PHead objs n a) v'.
Proof.
  intros Ht Hv Hl Ha. destruct (acquire_step k rl _ _ _ _ _ _ Hm (t_good _ _ _ Hv) Hl) as (_ & _ & Er & Hle & _).
  apply silent_ok; [done| |done || (simpl in *; lia)|done|done].
  eapply tview_acquire; try done; [by right|]. simpl. lia.
Qed.

Lemma load_cons_tail objs n h :
  tinv k (erase w) (PHead objs n h) → tview (mm w) v (PHead objs n h) →
  load acquire (mm w) v ConsTail i = Some (a, v') →
  let n' := Z.min n (wrap64 (wcapacity w + a - h)) in
  step_ok w (PHead objs n h) w (if n' =? 0 then PDone 0 else PCas objs n' h) v'.
Proof.
  intros Ht Hv Hl n'. pose proof (t_progress _ _ _ Hv) as Hp. pose proof (t_room _ _ _ Hv) as Hr. simpl in *.
  destruct (acquire_step k rl _ _ _ _ _ _ Hm (t_good _ _ _ Hv) Hl) as (Hg & Hr' & Er & Hle & Hmono & _).
  specialize (Hr' ltac:(by left)). specialize (Hmono ProdHead). unfold room in Hr'. rewrite Er in Hr'.
  pose proof (w_cap k _ Hw) as Ecap. simpl in Ecap.
  pose proof (wrap64_le (wcapacity w + a - h) ltac:(lia)) as Hwr.
  assert (0 ≤ n' ∧ n' ≤ n ∧ h + n' ≤ 2 ^ k + a) as (? & ? & ?) by (unfold n'; lia).
  destruct (Z.eqb_spec n' 0) as [E|E].
  - apply silent_ok; [done| |done|done|done]. eapply tview_acquire; try done. by left.
  - apply silent_ok; [done| |done || (simpl; lia)|done|done].
    eapply tview_acquire; try done; [by left|]. simpl. lia.
Qed.

Lemma load_prod_tail_wait n h :
  tinv k (erase w) (PWait n h) → tview (mm w) v (PWait n h) →
  load acquire (mm w) v ProdTail i = Some (a, v') →
  step_ok w (PWait n h) w (if a =? h then PStore n h else PWait n h) v'.
Proof.
  intros Ht Hv Hl. pose proof (t_room _ _ _ Hv) as Hr.
  destruct (acquire_step k rl _ _ _ _ _ _ Hm (t_good _ _ _ Hv) Hl) as (_ & _ & Er & Hle & _).
  destruct (Z.eqb_spec a h) as [->|E]; apply silent_ok; try done.
  - eapply tview_acquire; try done. by left.
  - simpl in *. naive_solver lia.
  - eapply tview_acquire; try done. by left.
Qed.

Lemma load_cons_head n :
  tinv k (erase w) (CLoad n) → tview (mm w) v (CLoad n) →
  load acquire (mm w) v ConsHead i = Some (a, v') → 0 ≤ a →
  step_ok w (CLoad n) w (CHead n a) v'.
Proof.
  intros Ht Hv Hl Ha. pose proof (t_room _ _ _ Hv) as Hr.
  destruct (acquire_step k rl _ _ _ _ _ _ Hm (t_good _ _ _ Hv) Hl) as (_ & _ & Er & Hle & _).
  apply silent_ok; [done| |done || (simpl in *; lia)|done|done].
  eapply tview_acquire; try done; [by left|]. simpl. lia.
Qed.

Lemma load_prod_tail n h :
  tinv k (erase w) (CHead n h) → tview (mm w) v (CHead n h) →
  load acquire (mm w) v ProdTail i = Some (a, v') →
  let n' := Z.min n (a -64 h) in
  step_ok w (CHead n h) w (if n' =? 0 then CDone 0 [] else CCas n' h) v'.
Proof.
  intros Ht Hv Hl n'. pose proof (t_progress _ _ _ Hv) as Hp. pose proof (t_room _ _ _ Hv) as Hr. simpl in *.
  destruct (acquire_step k rl _ _ _ _ _ _ Hm (t_good _ _ _ Hv) Hl) as (Hg & _ & Er & Hle & Hmono & _).
  specialize (Hmono ConsHead). pose proof (g_ch _ _ Hg).
  pose proof (wrap64_le (a - h) ltac:(lia)) as Hwr.
  assert (0 ≤ n' ∧ n' ≤ n ∧ h + n' ≤ a) as (? & ? & ?) by (unfold n'; lia).
  pose proof (w_order k _ Hw) as Ho. simpl in Ho.
  destruct (Z.eqb_spec n' 0) as [E|E].
  - apply silent_ok; [done| |simpl; split_and!; (done || lia)|done|done].
    eapply tview_acquire; try done. by left.
  - apply silent_ok; [done| |done || (simpl; lia)|done|done].
    eapply tview_acquire; try done; [by left|]. simpl. lia.
Qed.

Lemma load_cons_tail_wait n h acc :
  tinv k (erase w) (CWait n h acc) → tview (mm w) v (CWait n h acc) →
  load acquire (mm w) v ConsTail i = Some (a, v') →
  step_ok w (CWait n h acc) w (if a =? h then CStore n h acc else CWait n h acc) v'.
Proof.
  intros Ht Hv Hl. pose proof (t_room _ _ _ Hv) as Hr.
  destruct (acquire_step k rl _ _ _ _ _ _ Hm (t_good _ _ _ Hv) Hl) as (_ & _ & Er & Hle & _).
  destruct (Z.eqb_spec a h) as [->|E]; apply silent_ok; try done.
  - eapply tview_acquire; try done. by left.
  - simpl in *. naive_solver lia.
  - eapply tview_acquire; try done. by left.
Qed.

End Loads.

(** ** Steps that publish *)

(** The view after appending [x] to [l], which the thread has then seen. *)
Lemma good_publish m m' l x v :
  hist m' = <[l := hist m l ++ [x]]> (hist m) → events m' = events m → good m v →
  (∀ r, (∀ l', r l' = if decide (l = l') then m_val x else reached m v l') →
     r ConsHead ≤ r ProdTail ∧ r ConsTail ≤ r ProdTail
     ∧ knows m v true 0 (r ProdTail) ∧ knows m v false 0 (r ConsTail)) →
  good m' (see v l (length (hist m l))).
Proof.
  intros Eh Ee Hg H. pose proof (g_in _ _ Hg) as Hin.
  destruct (H (reached m' (see v l (length (hist m l))))) as (H1 & H2 & H3 & H4).
  { intros l'. by apply append_reached_see. }
  split; try done.
  - by apply (append_see m m' l x).
  - intros e y He. rewrite Ee in He. by apply H3.
  - intros e y He. rewrite Ee in He. by apply H4.
Qed.

Lemma store_prod_tail w v n h :
  winv k (erase w) → minv k rl (mm w) → tinv k (erase w) (PStore n h) → tview (mm w) v (PStore n h) →
  let r := store release (mm w) v ProdTail (h +64 n) in
  step_ok w (PStore n h) (with_mem w r.1) (PDone n) r.2.
Proof.
  intros Hw Hm Ht Hv r. destruct Hv as [Hg Hr Hp Htp _]. simpl in Hp, Hr.
  pose proof Ht as (Hn & Hpt & Hph & _). simpl in Hpt, Hph.
  pose proof (w_log k _ Hw) as Hlog. pose proof (w_bound k _ Hw) as Hb. simpl in Hlog, Hb.
  pose proof (w_order k _ Hw) as Ho. simpl in Ho.
  assert (h +64 n = h + n) as E64 by (apply wrap64_small; lia).
  destruct (Htp h n eq_refl) as [Hkn Hle]. pose proof (g_in _ _ Hg) as Hin.
  set (x := mkMsg (h +64 n) r.2).
  assert (hist r.1 = <[ProdTail := hist (mm w) ProdTail ++ [x]]> (hist (mm w))) as Eh by done.
  assert (good r.1 r.2) as Hg'.
  { apply (good_publish (mm w) _ ProdTail x); [done|done|done|]. intros f Hf. rewrite !Hf. simpl.
    destruct Hg as [_ ? ? ? ?]. rewrite E64. split_and!; try lia; [|done].
    apply (knows_glue _ _ _ _ h); [by rewrite <- Hp|done]. }
  assert (room k r.1 r.2) as Hr'.
  { unfold room, r. simpl. rewrite !(append_reached_see (mm w) r.1 ProdTail x) by done. done. }
  split_and!.
  - apply (minv_append (PStore n h) (mm w) r.1 ProdTail x v); try done.
    + by apply tinv_beyond.
    + apply Hm.
    + unfold r. rewrite store_ordered; [apply Hm|].
      apply reached_latest_seen; [apply Hm|done|congruence].
    + simpl. lia.
  - by split.
  - by apply (later_append _ _ _ ProdTail x).
  - left. assert (erase (with_mem w r.1) =
      mkWorld (set_prod_tail (rg (erase w)) (h +64 n)) (lg (erase w)) (grants (erase w))) as ->; [|constructor].
    unfold erase, set_prod_tail. simpl mm. by rewrite !(append_latest (mm w) r.1 ProdTail x Eh).
Qed.

Lemma store_cons_tail w v n h acc :
  winv k (erase w) → minv k rl (mm w) → tinv k (erase w) (CStore n h acc) → tview (mm w) v (CStore n h acc) →
  let r := store release (mm w) v ConsTail (h +64 n) in
  step_ok w (CStore n h acc) (with_mem w r.1) (CDone h acc) r.2.
Proof.
  intros Hw Hm Ht Hv r. destruct Hv as [Hg Hr Hp _ Htc]. simpl in Hp, Hr.
  pose proof Ht as (Hn & Hct & Hch & _). simpl in Hct, Hch.
  pose proof (w_log k _ Hw) as Hlog. pose proof (w_bound k _ Hw) as Hb. simpl in Hlog, Hb.
  pose proof (w_order k _ Hw) as Ho. simpl in Ho.
  assert (h +64 n = h + n) as E64 by (apply wrap64_small; lia).
  destruct (Htc h n eq_refl) as [Hkn Hle]. pose proof (g_in _ _ Hg) as Hin.
  set (x := mkMsg (h +64 n) r.2).
  assert (hist r.1 = <[ConsTail := hist (mm w) ConsTail ++ [x]]> (hist (mm w))) as Eh by done.
  assert (good r.1 r.2) as Hg'.
  { apply (good_publish (mm w) _ ConsTail x); [done|done|done|]. intros f Hf. rewrite !Hf. simpl.
    destruct Hg as [_ ? ? ? ?]. rewrite E64. split_and!; try lia; [done|].
    apply (knows_glue _ _ _ _ h); [by rewrite <- Hp|done]. }
  assert (room k r.1 r.2) as Hr'.
  { unfold room, r in *. simpl. rewrite !(append_reached_see (mm w) r.1 ConsTail x) by done. simpl. lia. }
  split_and!.
  - apply (minv_append (CStore n h acc) (mm w) r.1 ConsTail x v); try done.
    + by apply tinv_beyond.
    + apply Hm.
    + unfold r. rewrite store_ordered; [apply Hm|].
      apply reached_latest_seen; [apply Hm|done|congruence].
    + simpl. lia.
  - by split.
  - by apply (later_append _ _ _ ConsTail x).
  - left. assert (erase (with_mem w r.1) =
      mkWorld (set_cons_tail (rg (erase w)) (h +64 n)) (lg (erase w)) (grants (erase w))) as ->; [|constructor].
    unfold erase, set_cons_tail. simpl mm. by rewrite !(append_latest (mm w) r.1 ConsTail x Eh).
Qed.

(** The message of a successful compare-and-swap continues the release sequence
    of the one it replaces. *)
Lemma minv_cas t m m' v l d x v1 :
  minv k rl m → beyond m t → inside m v1 → last (hist m l) = Some x →
  hist m' = <[l := hist m l ++ [mkMsg d (join (see v1 l (length (hist m l))) (m_view x))]]> (hist m) →
  events m' = events m → raced m' = raced m → unordered m' = unordered m → m_val x < d →
  v = see v1 l (length (hist m l)) → good m' v → room k m' v → minv k rl m'.
Proof.
  intros Hm Hb Hin Hx Eh Ee Er Eo Hlt -> Hg Hr. pose proof (mi_inc _ _ _ Hm) as Hi.
  set (y := mkMsg d (join (see v1 l (length (hist m l))) (m_view x))) in *.
  pose proof (later_append t m m' l y Eh Ee) as Hl.
  assert (hist m l !! pred (length (hist m l)) = Some x) as Hx' by by rewrite <- last_lookup.
  destruct (mi_msg _ _ _ Hm l _ x Hx') as [Hgx Hrx].
  pose proof (good_later t m m' _ Hi Hb Hl Hgx) as Hgx'.
  pose proof (room_later t m m' _ Hl (g_in _ _ Hgx) Hrx) as Hrx'.
  destruct (append_rmw m m' l y Eh true v1 x Hi Hin Hx eq_refl Hlt) as (Hsy & Hiny & Hi').
  apply (minv_append t m m' l y v1); try done.
  - rewrite Er. apply Hm.
  - rewrite Eo. apply Hm.
  - by rewrite (latest_last m l x Hx).
  - by apply (good_join m' (see v1 l (length (hist m l))) (m_view x)).
  - pose proof (λ l', reached_join true m' _ _ (m_view y) l' Hi' (g_in _ _ Hg) (g_in _ _ Hgx') eq_refl) as Hj.
    unfold room in *. rewrite !Hj. lia.
Qed.

Lemma cas_prod_head w v objs n h m' v' :
  winv k (erase w) → minv k rl (mm w) → tinv k (erase w) (PCas objs n h) → tview (mm w) v (PCas objs n h) →
  cas release (mm w) v ProdHead h (h +64 n) = Some (m', v') →
  let w' := mkWring m' (wcapacity w) (wmask w) (slots w) (wlg w ++ take (Z.to_nat n) objs) (wgrants w) in
  Z.of_nat (length (wlg w')) < W64 → step_ok w (PCas objs n h) w' (PWrite objs n h 0) v'.
Proof.
  intros Hw Hm Ht Hv Hcas w' Hb. destruct Hv as [Hg Hr Hp _ _]. simpl in Hp, Hr.
  pose proof Ht as (Hn & Hh & Hroom). simpl in Hh, Hroom. pose proof (g_in _ _ Hg) as Hin.
  pose proof (w_log k _ Hw) as Hlog. simpl in Hlog.
  destruct (cas_success _ _ _ _ _ _ _ _ Hcas) as (x & Hx & Ex & Ev & Eh & Ee & Er & Eo). simpl in Ev, Eh.
  pose proof (latest_last (mm w) ProdHead x Hx) as Elat. rewrite Ex in Elat.
  assert (Z.of_nat (length (wlg w')) = h + n) as Elen.
  { simpl. rewrite length_app, length_take. lia. }
  assert (h +64 n = h + n) as E64 by (apply wrap64_small; lia).
  pose proof (later_append (PCas objs n h) _ _ _ _ Eh Ee) as Hl.
  assert (good m' v') as Hg'.
  { subst v'. eapply good_publish; [exact Eh|done|done|]. intros f Hf. rewrite !Hf. simpl.
    by destruct Hg as [_ ? ? ? ?]. }
  assert (reached m' v' ConsTail = reached (mm w) v ConsTail ∧ reached m' v' ProdHead = h + n) as [Ect Eph].
  { subst v'. rewrite !(append_reached_see (mm w) m' ProdHead _ Eh) by done. split; [done|exact E64]. }
  assert (room k m' v') as Hr' by (unfold room; lia).
  split_and!.
  - eapply (minv_cas (PCas objs n h) (mm w) m' v' ProdHead (h +64 n) x v); try done; [|lia].
    by rewrite <- Ev.
  - split; try done. intros h' n' [= <- <-]. split; [|simpl; lia].
    intros e y He Hwy Hpos. simpl in He. rewrite Ee in He.
    destruct (mi_ev _ _ _ Hm e y He) as [_ Hlt]. rewrite Hwy, Elat in Hlt. lia.
  - done.
  - left. assert (erase w' = mkWorld (set_prod_head (rg (erase w)) (h +64 n))
      (lg (erase w) ++ take (Z.to_nat n) objs) (grants (erase w))) as ->.
    { unfold erase, set_prod_head. simpl. by rewrite !(append_latest (mm w) m' ProdHead _ Eh). }
    by apply p_cas_ok.
Qed.

Lemma cas_cons_head w v n h m' v' :
  rl = ConsHead → winv k (erase w) → minv k rl (mm w) → tinv k (erase w) (CCas n h) → tview (mm w) v (CCas n h) →
  cas acq_rel (mm w) v ConsHead h (h +64 n) = Some (m', v') →
  let w' := mkWring m' (wcapacity w) (wmask w) (slots w) (wlg w) (wgrants w ++ [(h, n)]) in
  step_ok w (CCas n h) w' (CRead n h []) v'.
Proof.
  intros Erl Hw Hm Ht Hv Hcas w'. destruct Hv as [Hg Hr Hp _ _]. simpl in Hp, Hr.
  pose proof Ht as (Hn & Hh & Hpt). simpl in Hh, Hpt.
  pose proof (w_log k _ Hw) as Hlog. pose proof (w_bound k _ Hw) as Hb. simpl in Hlog, Hb.
  pose proof (w_order k _ Hw) as Ho. simpl in Ho.
  destruct (cas_success _ _ _ _ _ _ _ _ Hcas) as (x & Hx & Ex & Ev & Eh & Ee & Er & Eo). simpl in Ev, Eh.
  pose proof (latest_last (mm w) ConsHead x Hx) as Elat. rewrite Ex in Elat.
  assert (h +64 n = h + n) as E64 by (apply wrap64_small; lia).
  pose proof (later_append (CCas n h) _ _ _ _ Eh Ee) as Hl.
  assert (hist (mm w) ConsHead !! pred (length (hist (mm w) ConsHead)) = Some x) as Hx' by by rewrite <- last_lookup.
  destruct (mi_msg _ _ _ Hm _ _ x Hx') as [Hgx Hrx]. pose proof (mi_inc _ _ _ Hm) as Hi.
  set (v1 := join v (m_view x)) in *.
  assert (good (mm w) v1) as Hg1 by by apply (good_join (mm w) v (m_view x)).
  pose proof (g_in _ _ Hg1) as Hin1.
  assert (∀ l, reached (mm w) v1 l = Z.max (reached (mm w) v l) (reached (mm w) (m_view x) l)) as Hj.
  { intros l. apply (reached_join true); try done; [apply Hg|apply Hgx]. }
  assert (room k (mm w) v1) as Hr1 by (unfold room in *; rewrite !Hj; lia).
  assert (good m' v') as Hg'.
  { subst v'. eapply good_publish; [exact Eh|done|done|]. intros f Hf. rewrite !Hf. simpl.
    destruct Hg1 as [_ ? ? ? ?]. rewrite E64. split_and!; try done. rewrite Hj. lia. }
  assert (∀ l, l ≠ ConsHead → reached m' v' l = reached (mm w) v1 l) as Hsame.
  { intros l Hne. subst v'. rewrite (append_reached_see (mm w) m' ConsHead _ Eh) by done. by rewrite decide_False. }
  assert (room k m' v') as Hr' by (unfold room; rewrite !Hsame by done; done).
  split_and!.
  - eapply (minv_cas (CCas n h) (mm w) m' v' ConsHead (h +64 n) x v1); try done; [|lia].
    by rewrite <- Ev.
  - split; try done. intros h' n' [= <- <-]. simpl. split; [|rewrite Hsame, Hj by done; lia].
    intros e y He Hwy Hpos. rewrite Ee in He.
    destruct (mi_ev _ _ _ Hm e y He) as [_ Hlt]. rewrite Hwy, Erl, Elat in Hlt. lia.
  - done.
  - left. assert (erase w' = mkWorld (set_cons_head (rg (erase w)) (h +64 n))
      (lg (erase w)) (grants (erase w) ++ [(h, n)])) as ->.
    { unfold erase, set_cons_head. simpl. by rewrite !(append_latest (mm w) m' ConsHead _ Eh). }
    by apply c_cas_ok.
Qed.

(** ** Slot copies *)

Lemma tview_move m v t t' :
  tview m v t → prange t' = prange t → crange t' = crange t → room k m v → progress m v t' → tview m v t'.
Proof. intros [Hg _ _ Htp Htc] Ep Ec Hr Hpr. split; rewrite ?Ep, ?Ec; try done. by destruct t'. Qed.

Lemma cell_slot w idx : winv k (erase w) → cell w idx = slot k idx.
Proof.
  intros Hw. pose proof (w_mask k _ Hw) as E. simpl in E. unfold cell.
  rewrite E, mask_slot by lia. apply slot_wrap. lia.
Qed.

(** A write into a reserved slot is ordered after every access of the cell: the
    slot was released by the consumer tail that gave room for it. *)
Lemma write_ordered w v objs n h i :
  winv k (erase w) → minv k rl (mm w) → tinv k (erase w) (PWrite objs n h i) →
  tview (mm w) v (PWrite objs n h i) → i < n →
  ∀ j e, events (mm w) !! j = Some e → a_cell e = slot k (h + i) → j ∈ known v.
Proof.
  intros Hw Hm Ht [Hg _ _ Htp _] Hi j e He Hc.
  pose proof Ht as (Hn & Hi' & Hpt & Hph & _). simpl in Hpt, Hph.
  destruct (Htp h n eq_refl) as [Hkn Hroom]. destruct (mi_ev _ _ _ Hm j e He) as [Hslot Hpos].
  pose proof (w_order k _ Hw) as Ho. pose proof (w_lap k _ Hw) as Hlap. simpl in Ho, Hlap.
  pose proof (g_ct _ _ Hg). rewrite Hslot in Hc.
  assert (latest (mm w) rl ≤ latest (mm w) ProdTail) as Hrt by (destruct Hrl as [-> | ->]; lia).
  assert (a_pos e < latest (mm w) ProdHead) as Hlt by (destruct (a_write e); lia).
  destruct (Z.lt_ge_cases (a_pos e) (h + n - 2 ^ k)) as [Hold|Hnew].
  - destruct (a_write e) eqn:Ew; [apply (g_w _ _ Hg j e)|apply (g_r _ _ Hg j e)]; done || lia.
  - assert (a_pos e = h + i) as E by (apply (slot_inj k); lia || done).
    destruct (a_write e) eqn:Ew; [|lia]. apply (Hkn j e); done || lia.
Qed.

(** A read of a granted slot is ordered after every write of the cell. *)
Lemma read_ordered w v n h i :
  winv k (erase w) → minv k rl (mm w) → latest (mm w) ConsTail ≤ h → good (mm w) v →
  h + n ≤ reached (mm w) v ProdTail → 0 ≤ i < n →
  ∀ j e, events (mm w) !! j = Some e → a_cell e = slot k (h + i) → a_write e = true → j ∈ known v.
Proof.
  intros Hw Hm Hct Hg Hfull Hl j e He Hc Ew. destruct (mi_ev _ _ _ Hm j e He) as [Hslot Hpos].
  pose proof (w_order k _ Hw) as Ho. pose proof (w_lap k _ Hw) as Hlap. simpl in Ho, Hlap.
  rewrite Hslot in Hc. rewrite Ew in Hpos. apply (g_w _ _ Hg j e); [done|done|].
  destruct (Z.lt_ge_cases (a_pos e) (h + n)) as [?|Hge]; [lia|].
  assert (a_pos e = h + i) by (apply (slot_inj k); lia || done). lia.
Qed.

Lemma write_ok w v objs n h i x :
  winv k (erase w) → minv k rl (mm w) → tinv k (erase w) (PWrite objs n h i) →
  tview (mm w) v (PWrite objs n h i) → i < n → objs !! Z.to_nat i = Some x →
  let r := touch (mm w) v true (cell w (h + i)) (h + i) in
  step_ok w (PWrite objs n h i)
    (mkWring r.1 (wcapacity w) (wmask w) (<[cell w (h + i) := x]> (slots w)) (wlg w) (wgrants w))
    (PWrite objs n h (i + 1)) r.2.
Proof.
  intros Hw Hm Ht Hv Hi Hx r. pose proof (tinv_beyond _ _ Ht) as Hb.
  pose proof Ht as (Hn & Hi' & Hpt & Hph & _). simpl in Hpt, Hph.
  pose proof (w_order k _ Hw) as Ho. simpl in Ho. split_and!.
  - apply (minv_touch (PWrite objs n h i) (mm w) v true _ (h + i) h n); try done; try lia.
    + by apply cell_slot.
    + intros j e He Hc _. rewrite cell_slot in Hc by done. by eapply write_ordered.
  - pose proof (tview_touch (PWrite objs n h i) (mm w) v true (cell w (h + i)) (h + i) h n
      (mi_inc _ _ _ Hm) Hb eq_refl ltac:(lia) Hv) as Hv'.
    apply (tview_move _ _ _ _ Hv'); try done. apply (t_room _ _ _ Hv').
  - apply (later_touch _ _ _ _ _ _ h n); [done|lia].
  - left. by apply (p_write (erase w) objs n h i x).
Qed.

Lemma read_ok w v n h acc x :
  winv k (erase w) → minv k rl (mm w) → tinv k (erase w) (CRead n h acc) →
  tview (mm w) v (CRead n h acc) →
  let i := Z.of_nat (length acc) in
  i < n → slots w !! cell w (h + i) = Some x →
  let r := touch (mm w) v false (cell w (h + i)) (h + i) in
  step_ok w (CRead n h acc) (with_mem w r.1) (CRead n h (acc ++ [x])) r.2.
Proof.
  intros Hw Hm Ht Hv i Hi Hx r. pose proof (tinv_beyond _ _ Ht) as Hb.
  pose proof Ht as (Hn & Hct & Hch & _). simpl in Hct, Hch.
  pose proof (w_order k _ Hw) as Ho. simpl in Ho.
  assert (latest (mm w) ConsHead ≤ latest (mm w) rl) by (destruct Hrl as [-> | ->]; lia). split_and!.
  - apply (minv_touch (CRead n h acc) (mm w) v false _ (h + i) h n); try done; try lia.
    + by apply cell_slot.
    + intros j e He Hc Hwr. rewrite cell_slot in Hc by done.
      apply (read_ordered w v n h i Hw Hm ltac:(lia) (t_good _ _ _ Hv) ltac:(by apply (t_cons _ _ _ Hv)) ltac:(lia) j e); done.
  - pose proof (tview_touch (CRead n h acc) (mm w) v false (cell w (h + i)) (h + i) h n
      (mi_inc _ _ _ Hm) Hb eq_refl ltac:(lia) Hv) as Hv'.
    apply (tview_move _ _ _ _ Hv'); try done. apply (t_room _ _ _ Hv').
  - apply (later_touch _ _ _ _ _ _ h n); [done|lia].
  - left. by apply (c_read (erase w) n h acc x).
Qed.

(** ** Every step *)

Lemma load_nonneg o m v l i a v' : minv k rl m → load o m v l i = Some (a, v') → 0 ≤ a.
Proof.
  intros Hm Hl. unfold load in Hl. destruct (hist m l !! i) as [x|] eqn:Hx; [|done]. simpl in Hl.
  destruct (decide _); simplify_eq. by apply (mi_val _ _ _ Hm l i).
Qed.

Lemma enqueue_step_ok w t v c w' t' v' :
  winv k (erase w) → minv k rl (mm w) → tinv k (erase w) t → tview (mm w) v t →
  enqueue_step w t v c = Some (w', t', v') → Z.of_nat (length (wlg w')) < W64 → step_ok w t w' t' v'.
Proof.
  intros Hw Hm Ht Hv Hs Hb.
  destruct t as [|objs n|objs n h|objs n h|objs n h i|n h|n h| | | | | | | |], c as [| |j|]; try done; cbn -[wrap64] in Hs.
  - destruct (load acquire (mm w) v ProdHead j) as [[a v1]|] eqn:El; simplify_eq/=.
    eapply load_prod_head; try done. by eapply load_nonneg.
  - destruct (load acquire (mm w) v ConsTail j) as [[a v1]|] eqn:El; simplify_eq/=.
    by eapply load_cons_tail.
  - destruct (load relaxed (mm w) v ProdHead j) as [[a v1]|] eqn:El; simplify_eq/=.
    apply silent_ok; try done; [|simpl in *; lia].
    split; try done. by eapply (relaxed_step k rl); [|apply Hv|].
  - destruct (cas release (mm w) v ProdHead h (h +64 n)) as [[m1 v1]|] eqn:El; simplify_eq/=.
    by eapply cas_prod_head.
  - destruct (Z.ltb_spec i n) as [Hi|Hi].
    + destruct (objs !! Z.to_nat i) as [x|] eqn:Hx; [|done]. cbn -[wrap64] in Hs. simplify_eq.
      by apply write_ok.
    + simplify_eq. pose proof (t_room _ _ _ Hv) as Hr. apply silent_ok; try done.
      * by apply (tview_move _ _ _ _ Hv).
      * simpl in *. destruct Ht as (? & ? & ? & ? & _ & Hf). split_and!; try done; try lia.
        intros j Hj. apply Hf. lia.
  - destruct (load acquire (mm w) v ProdTail j) as [[a v1]|] eqn:El; simplify_eq/=.
    by eapply load_prod_tail_wait.
  - simplify_eq. by apply store_prod_tail.
Qed.

Lemma dequeue_step_ok w t v c w' t' v' :
  rl = ConsHead → winv k (erase w) → minv k rl (mm w) → tinv k (erase w) t → tview (mm w) v t →
  dequeue_step w t v c = Some (w', t', v') → step_ok w t w' t' v'.
Proof.
  intros Erl Hw Hm Ht Hv Hs.
  destruct t as [| | | | | | | |n|n h|n h|n h acc|n h acc|n h acc|], c as [| |j|]; try done; cbn -[wrap64] in Hs.
  - destruct (load acquire (mm w) v ConsHead j) as [[a v1]|] eqn:El; simplify_eq/=.
    eapply load_cons_head; try done. by eapply load_nonneg.
  - destruct (load acquire (mm w) v ProdTail j) as [[a v1]|] eqn:El; simplify_eq/=.
    by eapply load_prod_tail.
  - destruct (load acquire (mm w) v ConsHead j) as [[a v1]|] eqn:El; simplify_eq/=.
    apply silent_ok; try done; [|simpl in *; lia].
    eapply tview_acquire; try done. left. apply (t_room _ _ _ Hv).
  - destruct (cas acq_rel (mm w) v ConsHead h (h +64 n)) as [[m1 v1]|] eqn:El; simplify_eq/=.
    by eapply cas_cons_head.
  - destruct (Z.ltb_spec (Z.of_nat (length acc)) n) as [Hi|Hi].
    + destruct (slots w !! cell w (h + Z.of_nat (length acc))) as [x|] eqn:Hx; [|done].
      cbn -[wrap64] in Hs. simplify_eq. by apply read_ok.
    + simplify_eq. pose proof (t_room _ _ _ Hv) as Hr. apply silent_ok; try done.
      * by apply (tview_move _ _ _ _ Hv).
      * simpl in *. naive_solver lia.
  - destruct (load acquire (mm w) v ConsTail j) as [[a v1]|] eqn:El; simplify_eq/=.
    by eapply load_cons_tail_wait.
  - simplify_eq. by apply store_cons_tail.
Qed.

Lemma advance_ok w t v c w' t' v' :
  rl = ConsHead → winv k (erase w) → minv k rl (mm w) → tinv k (erase w) t → tview (mm w) v t →
  advance w t v c = Some (w', t', v') → Z.of_nat (length (wlg w')) < W64 → step_ok w t w' t' v'.
Proof.
  intros Erl Hw Hm Ht Hv Hs Hb.
  assert (c = Go ∨ (∃ i, c = Read i) → step_ok w t w' t' v') as Hrun.
  { intros Hc. unfold advance in Hs. destruct (enqueue_step w t v c) as [r|] eqn:E.
    - destruct Hc as [->|[i ->]]; simplify_eq; by eapply enqueue_step_ok.
    - destruct Hc as [->|[i ->]]; by eapply dequeue_step_ok. }
  assert (resting t = true → room k (mm w) v ∧ prange t = None ∧ crange t = None) as Hrest.
  { intros H. pose proof (t_room _ _ _ Hv). by destruct t. }
  destruct c as [objs|n|i|]; simpl in Hs; [| |by apply Hrun; eauto..].
  - destruct (resting t); [|done]. simplify_eq. destruct Hrest as (Hr & Ep & Ec); [done|].
    apply silent_ok; try done; [|simpl; lia]. by apply (tview_move _ _ _ _ Hv).
  - destruct (resting t); [|done]. simpl in Hs. destruct (Z.leb_spec 0 n); simplify_eq.
    destruct Hrest as (Hr & Ep & Ec); [done|]. apply silent_ok; try done. by apply (tview_move _ _ _ _ Hv).
Qed.

End Threads.

(** ** The invariant of the whole system *)
Section System.
Context {T : Type} `{!Inhabited T} (k : Z) (Hk : 0 ≤ k ≤ 63).

Record wkinv (s : wstate T) : Prop := {
  k_erased : cinv k (erase_state s);
  k_mem : minv k ConsHead (mm (ww s));
  k_thr : ∀ i t v, wthr s !! i = Some (t, v) → tview k (mm (ww s)) v t;
  k_outs : delivery (wlg (ww s)) (wgrants (ww s)) (fst <$> wthr s) (wouts s)
}.

(** A thread that only moves within its ranges keeps the erased invariant. *)
Lemma cinv_move (s : cstate T) i t t' :
  cinv k s → thr s !! i = Some t → tinv k (wd s) t' → prange t' = prange t → crange t' = crange t →
  cinv k (mkC (wd s) (<[i := t']> (thr s))).
Proof.
  intros [Hw Ht Ha Hti] Hi Ht' Ep Ec. split; simpl; try done.
  - intros j u Hj. destruct (decide (i = j)) as [->|Hij].
    + rewrite lookup_insert_eq in Hj. by simplify_eq.
    + rewrite lookup_insert_ne in Hj by done. by apply (Ht j).
  - intros a b u u' Hab Hu Hu'.
    apply lookup_insert_Some in Hu as [[<- <-]|[Hne Hu]]; apply lookup_insert_Some in Hu' as [[<- <-]|[Hne' Hu']].
    + done.
    + rewrite Ep, Ec. by apply (Ha i b).
    + rewrite Ep, Ec. by apply (Ha a i).
    + by apply (Ha a b).
Qed.

(** Only the last step of a dequeue returns elements, and it gives up a range. *)
Lemma advance_silent (w : wring T) t v c w' t' v' :
  advance w t v c = Some (w', t', v') → crange t' = crange t → returned t t' = [].
Proof.
  intros H Ec. destruct t' as [| | | | | | | | | | | | | |h acc]; try done.
  destruct t as [|objs n|objs n h'|objs n h'|objs n h' i|n h'|n h'|n|n|n h'|n h'|n h' a|n h' a|n h' a|h' a], c; try done;
    simpl in H; repeat case_match; simplify_option_eq; try done; repeat case_match; by simplify_eq.
Qed.

Lemma wstep_inv s s' : wkinv s → wstep s s' → wkinv s'.
Proof.
  intros [Hc Hm Hv Ho] Hs. destruct Hs as [s i t v c w' t' v' Hi Hadv Hb].
  assert (thr (erase_state s) !! i = Some t) as Hi' by (simpl; by rewrite lookup_fmap, Hi).
  pose proof (c_thread k _ Hc i t Hi') as Ht.
  destruct (advance_ok k Hk ConsHead ltac:(by left) _ _ _ _ _ _ _ eq_refl (c_world k _ Hc) Hm Ht (Hv _ _ _ Hi) Hadv Hb) as (Hm' & Hv' & Hl & Hcase).
  assert (erase_state (mkWs w' (<[i := (t', v')]> (wthr s)) (wouts s ++ returned t t')) = mkC (erase w') (<[i := t']> (thr (erase_state s)))) as Ee.
  { unfold erase_state. simpl. by rewrite fmap_insert. }
  split; [rewrite Ee| done | |].
  - destruct Hcase as [Hst|(-> & Ht' & Ep & Ec)].
    + eapply cstep_inv; [done|done|]. by apply (cstep_thread (erase_state s) i t).
    + by apply (cinv_move (erase_state s) i t).
  - simpl. intros j u x Hj. apply lookup_insert_Some in Hj as [[<- [= <- <-]]|[Hne Hj]]; [done|].
    assert (thr (erase_state s) !! j = Some u) as Hj' by (simpl; by rewrite lookup_fmap, Hj).
    destruct (c_apart k _ Hc i j t u Hne Hi' Hj') as [Hp Hcr].
    apply (tview_later k t (mm (ww s))); try done; [apply Hm|by apply (tinv_beyond k)|by apply (Hv j)].
  - simpl. rewrite fmap_insert. apply (delivery_cstep k (erase_state s) i t (erase w') t'); try done.
    + destruct Hcase as [Hst|(-> & _)]; [|done]. destruct (tstep_local k Hk (erase (ww s)) t (erase w') t' (c_world k _ Hc) Ht Hst Hb) as (_ & Hle & _). apply Hle.
    + destruct Hcase as [Hst|(E & _ & _ & Ec)]; [by apply (tstep_delivers k Hk); [apply Hc|..]|].
      left. split_and!; [by rewrite E|done|]. by apply (advance_silent (ww s) t v c w' t' v').
Qed.

Lemma winit_inv n : wkinv (winit k n).
Proof.
  assert (2 ^ k ≤ 2 ^ 63) as Hle by (apply Z.pow_le_mono_r; lia).
  assert (∀ i t v, wthr (winit k n) !! i = Some (t, v) → t = (Idle : tstate T) ∧ v = bottom) as Hidle.
  { intros i t v H. apply elem_of_list_to_map_2 in H.
    apply list_elem_of_fmap in H as (? & ? & _). by simplify_eq. }
  assert (good mem_init bottom ∧ room k mem_init bottom) as [Hg Hr].
  { split; [split; try done|unfold room, reached; simpl; lia]. intros l. simpl. lia. }
  split.
  - split.
    + split; simpl; try done; try (unfold latest; simpl; lia). by rewrite length_replicate.
    + intros i t H. simpl in H. rewrite lookup_fmap in H.
      destruct (_ !! i) as [[u v]|] eqn:E; simplify_eq/=. by apply Hidle in E as [-> _].
    + intros i j t u _ Hi Hj. simpl in Hi, Hj. rewrite lookup_fmap in Hi, Hj.
      destruct (_ !! i) as [[a v]|] eqn:Ei; simplify_eq/=. destruct (_ !! j) as [[b v']|] eqn:Ej; simplify_eq/=.
      apply Hidle in Ei as [-> _]. by apply Hidle in Ej as [-> _].
    + done.
  - split; try done.
    + split.
      * intros l i j x y Hij Hx Hy. apply list_lookup_singleton_Some in Hx as [-> _].
        apply list_lookup_singleton_Some in Hy as [-> _]. lia.
      * intros l i x Hx. by apply list_lookup_singleton_Some in Hx as [-> <-].
      * intros l i x Hx. apply list_lookup_singleton_Some in Hx as [-> <-]. apply Hg.
    + intros l i x Hx. by apply list_lookup_singleton_Some in Hx as [-> <-].
    + intros l i x Hx. by apply list_lookup_singleton_Some in Hx as [-> <-].
  - intros i t v Hi. apply Hidle in Hi as [-> ->]. by split.
  - split; simpl.
    + constructor.
    + intros o Ho. by apply not_elem_of_nil in Ho.
    + intros i t r Hi Hr'. rewrite lookup_fmap in Hi. destruct (_ !! i) as [[u v]|] eqn:E; simplify_eq/=.
      by apply Hidle in E as [-> _].
    + intros r Hin. by apply not_elem_of_nil in Hin.
Qed.

Lemma weak_reachable_inv n s : weak_reachable k n s → wkinv s.
Proof. intros H. eapply steps_invariant; [apply winit_inv|apply wstep_inv|done]. Qed.

End System.

(** C1: with the memory orders of the source, and stale loads allowed wherever
    C++ allows them, the ring has no data race on a slot and no store out of
    the order its counter takes; the ranges granted to dequeues tile the
    history; what a dequeue has returned is a whole granted range, with exactly
    the values reserved at its positions, in order, and no range was returned
    twice; and a granted range that was not returned yet is held by a dequeue
    that is still running: FIFO, exactly once, nothing lost. *)
Theorem weak_ring_race_free_fifo (T : Type) (IT : Inhabited T) (k : Z) (m : nat) (s : wstate T) :
  0 ≤ k ≤ 63 → weak_reachable k m s →
  raced (mm (ww s)) = false ∧ unordered (mm (ww s)) = false
  ∧ tiles 0 (wgrants (ww s)) (latest (mm (ww s)) ConsHead)
  ∧ NoDup (range_of <$> wouts s)
  ∧ (∀ h acc, (h, acc) ∈ wouts s →
       (h, Z.of_nat (length acc)) ∈ wgrants (ww s) ∧ acc = slice (wlg (ww s)) h (length acc))
  ∧ (∀ r, r ∈ wgrants (ww s) → r ∉ range_of <$> wouts s →
       ∃ i t v, wthr s !! i = Some (t, v) ∧ crange t = Some r)
  ∧ latest (mm (ww s)) ProdHead - latest (mm (ww s)) ConsTail ≤ 2 ^ k.
Proof.
  intros Hk Hr. apply (weak_reachable_inv k Hk) in Hr as [[Hw _ _ Hti] Hm _ [Hnd Hg _ Ha]]. split_and!; try done.
  - apply Hm.
  - apply Hm.
  - intros h acc Ho. by destruct (Hg _ Ho) as (? & ? & _).
  - intros r Hin Hn. destruct (Ha r Hin) as [?|(i & t & Hi & Hc)]; [done|]. rewrite lookup_fmap in Hi.
    destruct (wthr s !! i) as [[u v]|] eqn:E; simplify_eq/=. by exists i, t, v.
  - apply Hw.
Qed.

(** ** A concrete execution

    One slot, two laps.  Thread 0 enqueues 7 and thread 1 takes it; thread 0
    tries to enqueue 8 with a stale consumer tail and finds the ring full, then
    tries again, sees the new tail and reuses the slot; thread 1 takes 8. *)
Definition demo_schedule : list (nat * choice Z) :=
  let e := λ c, (0%nat, c) in let d := λ c, (1%nat, c) in
  [e (Enqueue [7]); e (Read 0); e (Read 0); e Go; e Go; e Go; e (Read 0); e Go;
   d (Dequeue 1); d (Read 0); d (Read 0);
   d (Dequeue 1); d (Read 0); d (Read 1); d Go; d Go; d Go; d (Read 0); d Go;
   e (Enqueue [8]); e (Read 1); e (Read 0);
   e (Enqueue [8]); e (Read 1); e (Read 1); e Go; e Go; e Go; e (Read 1); e Go;
   d (Dequeue 1); d (Read 1); d (Read 2); d Go; d Go; d Go; d (Read 1); d Go].

Lemma demo_run :
  ∃ s : wstate Z, weak_reachable 0 2 s ∧ wouts s = [(0, [7]); (1, [8])]
    ∧ wgrants (ww s) = [(0, 1); (1, 1)] ∧ events (mm (ww s)) =
        [mkAccess true 0 0; mkAccess false 0 0; mkAccess true 0 1; mkAccess false 0 1].
Proof.
  destruct (play wplay1 (winit 0 2) demo_schedule) as [s|] eqn:E; [|by vm_compute in E].
  exists s. split.
  - eapply play_steps; [apply wplay1_step|exact E].
  - vm_compute in E. injection E as <-. done.
Qed.

Lemma weak_ring_race_free_fifo_witness :
  ∃ s : wstate Z, weak_reachable 0 2 s ∧ wouts s = [(0, [7]); (1, [8])]
    ∧ raced (mm (ww s)) = false.
Proof.
  destruct demo_run as (s & Hr & Ht & _). exists s. split; [exact Hr|]. split; [exact Ht|].
  exact (proj1 (weak_ring_race_free_fifo Z _ 0 2 s ltac:(lia) Hr)).
Defined.
