(* ===== verification/SpscWeak.v ===== *)
(** [BatchedSPSCQueue] under the C++ memory orders it is annotated with
    ([batched_spsc_queue.h], [push_batch] and [try_dequeue_batch]).

    One producer and one consumer; [write_head_] is the only atomic, published
    with a releasing [fetch_add] and read with an acquiring load, and every
    slot access is plain.  The consumer's progress ([local_tail_]) is a plain
    variable of its own, so nothing in the queue ever tells the producer that a
    slot has been read.

    Two contracts are compared.  [plain]: the producer pushes only when the
    batch fits in what is really free.  [synced]: in addition, the producer may
    synchronise with the consumer outside the queue ([Sync]), and pushes only
    when the batch fits in what it has thereby learned to be free.  Under the
    first the queue races exactly from the first reuse of a slot on; under the
    second it never races and is FIFO. *)
From S2P Require Import Prelude Circ RelAcq.

Inductive spsc_atomic := WriteHead.

#[export] Instance spsc_atomic_eq_dec : EqDecision spsc_atomic.
Proof. solve_decision. Defined.

Inductive contract := plain | synced.

Section Machine.
Context {T : Type} `{!Inhabited T} (k : Z) (ct : contract).

(** [push_batch]: [todo] is still to be written, at [idx]. *)
Inductive pstate :=
| PIdle
| PCopy (items todo : list T) (idx : Z)
| PPub (items : list T).

(** [try_dequeue_batch]: [n] elements still to be copied. *)
Inductive kstate :=
| CIdle
| CLoad (max : Z)
| CCopy (n : Z).

(** The queue, its two threads with their views, and ghost state: the elements
    published and received, and how many the producer knows to be received. *)
Record spsc := mkSpsc {
  sm : mem spsc_atomic; sring : list T; write_tail : Z; read_tail : Z;
  pth : pstate; pv : view spsc_atomic; cth : kstate; cv : view spsc_atomic;
  slg : list T; srecv : list T; credit : Z
}.

Definition sinit : spsc :=
  mkSpsc mem_init (replicate (Z.to_nat (2 ^ k)) inhabitant) 0 0 PIdle bottom CIdle bottom [] [] 0.

Definition published (s : spsc) : Z := Z.of_nat (length (slg s)).
Definition received (s : spsc) : Z := Z.of_nat (length (srecv s)).

(** The elements the producer may count as received. *)
Definition freed (s : spsc) : Z := match ct with plain => received s | synced => credit s end.

Inductive choice :=
| Push (items : list T)
| Produce
| Pop (max : Z)
| Load (i : nat)
| Consume
| Sync.

Definition spsc_cell (idx : Z) : nat := Z.to_nat (Z.land idx (2 ^ k - 1)).

Definition set_producer (s : spsc) (m : mem spsc_atomic) (r : list T) (wt : Z) (t : pstate) (v : view spsc_atomic) (l : list T) : spsc :=
  mkSpsc m r wt (read_tail s) t v (cth s) (cv s) l (srecv s) (credit s).
Definition set_consumer (s : spsc) (m : mem spsc_atomic) (rt : Z) (t : kstate) (v : view spsc_atomic) (l : list T) : spsc :=
  mkSpsc m (sring s) (write_tail s) rt (pth s) (pv s) t v (slg s) l (credit s).

(** [push_batch]: the slot writes, [local_write_tail_], the releasing
    [fetch_add]. *)
Definition produce (s : spsc) : option spsc :=
  match pth s with
  | PIdle => None
  | PCopy items (x :: todo) idx =>
      let r := touch (sm s) (pv s) true (spsc_cell idx) idx in
      Some (set_producer s r.1 (<[spsc_cell idx := x]> (sring s)) (write_tail s)
              (PCopy items todo (idx +64 1)) r.2 (slg s))
  | PCopy items [] idx => Some (set_producer s (sm s) (sring s) idx (PPub items) (pv s) (slg s))
  | PPub items =>
      r ← rmw release (sm s) (pv s) WriteHead (λ a, Some (a +64 Z.of_nat (length items)));
      Some (set_producer s r.1.2 (sring s) (write_tail s) PIdle r.2 (slg s ++ items))
  end.

(** [try_dequeue_batch]: one slot read, or the return. *)
Definition consume (s : spsc) : option spsc :=
  match cth s with
  | CCopy n =>
      if 0 <? n then
        let r := touch (sm s) (cv s) false (spsc_cell (read_tail s)) (read_tail s) in
        Some (set_consumer s r.1 (read_tail s +64 1) (CCopy (n - 1)) r.2
                (srecv s ++ [sring s !!! spsc_cell (read_tail s)]))
      else Some (set_consumer s (sm s) (read_tail s) CIdle (cv s) (srecv s))
  | _ => None
  end.

Definition splay1 (s : spsc) (c : choice) : option spsc :=
  match c with
  | Push items =>
      match pth s with
      | PIdle =>
          if (published s + Z.of_nat (length items) <=? freed s + 2 ^ k)
             && (published s + Z.of_nat (length items) <? W64)
          then Some (set_producer s (sm s) (sring s) (write_tail s) (PCopy items items (write_tail s)) (pv s) (slg s))
          else None
      | _ => None
      end
  | Produce => produce s
  | Pop max =>
      match cth s with
      | CIdle => if 0 <=? max then Some (set_consumer s (sm s) (read_tail s) (CLoad max) (cv s) (srecv s)) else None
      | _ => None
      end
  | Load i =>
      match cth s with
      | CLoad max =>
          r ← load acquire (sm s) (cv s) WriteHead i;
          Some (set_consumer s (sm s) (read_tail s) (CCopy (Z.min (r.1 -64 read_tail s) max)) r.2 (srecv s))
      | _ => None
      end
  | Consume => consume s
  | Sync =>
      match ct with
      | plain => None
      | synced =>
          Some (mkSpsc (sm s) (sring s) (write_tail s) (read_tail s) (pth s) (join (pv s) (cv s))
                  (cth s) (cv s) (slg s) (srecv s) (received s))
      end
  end.

Definition sstep (s s' : spsc) : Prop := ∃ c, splay1 s c = Some s'.

Definition spsc_weak_reachable (s : spsc) : Prop := steps sstep sinit s.

(** The elements of the batch being pushed, and how many are in their slots. *)
Definition batch (s : spsc) : list T :=
  match pth s with PIdle => [] | PCopy items _ _ | PPub items => items end.
Definition unwritten (s : spsc) : Z :=
  match pth s with PCopy _ todo _ => Z.of_nat (length todo) | _ => 0 end.
Definition written (s : spsc) : Z := published s + Z.of_nat (length (batch s)) - unwritten s.

End Machine.

Arguments pstate : clear implicits.
Arguments spsc : clear implicits.
Arguments choice : clear implicits.

(** ** The invariant while no slot is reused unnoticed *)
Section Invariant.
Context {T : Type} `{!Inhabited T} (k : Z) (Hk : 0 ≤ k ≤ 63) (ct : contract).
Implicit Types (s : spsc T) (m : mem spsc_atomic) (v : view spsc_atomic).

(** [v] knows the writes below position [b]. *)
Definition covers m v (b : Z) : Prop :=
  ∀ e x, events m !! e = Some x → a_write x = true → a_pos x < b → e ∈ known v.

(** The program variables of the producer in each of its states. *)
Definition producer_at s : Prop :=
  match pth s with
  | PIdle => write_tail s = published s
  | PCopy items todo idx =>
      idx = written s ∧ write_tail s = published s ∧ ∃ dn, items = dn ++ todo
  | PPub items => write_tail s = written s
  end.

Definition consumer_at s : Prop :=
  match cth s with
  | CCopy n => 0 ≤ n ∧ received s + n ≤ reached (sm s) (cv s) WriteHead
  | CLoad max => 0 ≤ max ∧ received s ≤ reached (sm s) (cv s) WriteHead
  | CIdle => received s ≤ reached (sm s) (cv s) WriteHead
  end.

Record base s : Prop := {
  j_inc : increasing false (sm s);
  j_msg : ∀ i x, hist (sm s) WriteHead !! i = Some x → 0 ≤ m_val x ∧ covers (sm s) (m_view x) (m_val x);
  j_latest : latest (sm s) WriteHead = published s;
  j_ev : ∀ e x, events (sm s) !! e = Some x → a_cell x = slot k (a_pos x)
    ∧ 0 ≤ a_pos x < (if a_write x then written s else received s);
  j_race : raced (sm s) = false;
  j_pv : inside (sm s) (pv s);
  j_cv : inside (sm s) (cv s);
  j_pk : ∀ e x, events (sm s) !! e = Some x → a_write x = true ∨ a_pos x < credit s → e ∈ known (pv s);
  j_ck : covers (sm s) (cv s) (reached (sm s) (cv s) WriteHead);
  j_own : ∀ e x, events (sm s) !! e = Some x → a_write x = false → e ∈ known (cv s);
  j_len : length (sring s) = Z.to_nat (2 ^ k);
  j_bound : published s + Z.of_nat (length (batch s)) < W64;
  j_prod : producer_at s;
  j_cons : consumer_at s;
  j_tail : read_tail s = received s;
  j_credit : 0 ≤ credit s ≤ received s;
  j_room : written s ≤ credit s + 2 ^ k;
  j_slots : ∀ j, received s ≤ j < written s → sring s !! slot k j = (slg s ++ batch s) !! Z.to_nat j;
  j_fifo : srecv s `prefix_of` slg s
}.

Lemma base_order s : base s → 0 ≤ received s ∧ received s ≤ reached (sm s) (cv s) WriteHead
  ∧ reached (sm s) (cv s) WriteHead ≤ published s ∧ published s ≤ written s
  ∧ written s ≤ published s + Z.of_nat (length (batch s)).
Proof.
  intros Hb. pose proof (reached_le_latest false _ _ WriteHead (j_inc _ Hb) (j_cv _ Hb)) as H.
  rewrite (j_latest _ Hb) in H. pose proof (j_cons _ Hb) as Hc. pose proof (j_prod _ Hb) as Hp.
  unfold consumer_at in Hc. unfold producer_at in Hp. unfold written, unwritten, batch in *.
  split_and!; try done; try (unfold received; lia); destruct (pth s), (cth s); simpl in *; try lia.
  all: destruct Hp as (_ & _ & dn & ->); rewrite length_app; lia.
Qed.

Lemma spsc_cell_slot i : spsc_cell k i = slot k i.
Proof. unfold spsc_cell. by rewrite mask_slot by lia. Qed.

(** The producer's next write: ordered after everything that used the slot as
    long as it stays within a lap of what it knows to be received. *)
Lemma write_known s :
  base s → written s < credit s + 2 ^ k →
  ∀ j e, events (sm s) !! j = Some e → a_cell e = slot k (written s) → j ∈ known (pv s).
Proof.
  intros Hb Hlt j e He Hc. destruct (j_ev _ Hb j e He) as [Hs Hp]. rewrite Hs in Hc.
  pose proof (base_order s Hb). apply (j_pk _ Hb j e He).
  destruct (a_write e); [by left|right].
  destruct (Z.lt_ge_cases (a_pos e) (credit s)) as [?|Hge]; [done|].
  assert (a_pos e = written s) by (apply (slot_inj k); lia || done). lia.
Qed.

Lemma read_known s :
  base s → received s < reached (sm s) (cv s) WriteHead →
  ∀ j e, events (sm s) !! j = Some e → a_cell e = slot k (received s) → a_write e = true → j ∈ known (cv s).
Proof.
  intros Hb Hlt j e He Hc Hw. destruct (j_ev _ Hb j e He) as [Hs Hp]. rewrite Hs in Hc. rewrite Hw in Hp.
  pose proof (base_order s Hb). pose proof (j_room _ Hb). pose proof (j_credit _ Hb).
  apply (j_ck _ Hb j e); [done|done|].
  destruct (Z.lt_ge_cases (received s) (a_pos e)) as [Hgt|?]; [|lia].
  assert (a_pos e = received s) by (apply (slot_inj k); lia || done). lia.
Qed.

(** Logging an access leaves what a view covers, below the access. *)
Lemma covers_touch m m' u b c pos bound :
  events m' = events m ++ [mkAccess b c pos] →
  covers m u bound → (b = true → bound ≤ pos) → covers m' u bound.
Proof.
  intros Ee H Hb e x He Hw Hp. rewrite Ee in He. apply lookup_snoc_Some in He as [[_ He]|[_ <-]]; [by apply (H e x)|].
  simpl in *. specialize (Hb Hw). lia.
Qed.

(** ** Preservation *)

Lemma base_push s items :
  base s → pth s = PIdle → published s + Z.of_nat (length items) < W64 →
  base (set_producer s (sm s) (sring s) (write_tail s) (PCopy items items (write_tail s)) (pv s) (slg s)).
Proof.
  intros Hb Ep Hlt. set (s' := set_producer _ _ _ _ _ _ _).
  assert (written s' = written s ∧ written s = published s) as [Ew Ew'].
  { unfold written, published, batch, unwritten. simpl. rewrite Ep. simpl. lia. }
  pose proof (j_prod _ Hb) as Hp. unfold producer_at in Hp. rewrite Ep in Hp.
  destruct Hb; split; try done; rewrite ?Ew; try done.
  - unfold producer_at. simpl. split_and!; [|done|by exists []]. rewrite Ew, Ew'. done.
  - intros j Hj. simpl. rewrite j_slots0 by done. unfold batch. simpl. rewrite Ep, app_nil_r.
    rewrite lookup_app_l; [done|]. unfold published in *. change (received s') with (received s) in Hj.
    assert (0 ≤ received s) by (unfold received; lia). lia.
Qed.

Lemma base_write s items x todo idx :
  base s → pth s = PCopy items (x :: todo) idx → written s < credit s + 2 ^ k →
  let r := touch (sm s) (pv s) true (spsc_cell k idx) idx in
  base (set_producer s r.1 (<[spsc_cell k idx := x]> (sring s)) (write_tail s)
          (PCopy items todo (idx +64 1)) r.2 (slg s)).
Proof.
  intros Hb Ep Hlt r. set (s' := set_producer _ _ _ _ _ _ _).
  pose proof (base_order s Hb) as Ho. pose proof (j_prod _ Hb) as Hp. unfold producer_at in Hp.
  rewrite Ep in Hp. destruct Hp as (Ei & Ewt & dn & Eit).
  pose proof (j_bound _ Hb) as Hbd. unfold batch in Hbd. rewrite Ep in Hbd.
  assert (written s' = written s + 1 ∧ written s = published s + Z.of_nat (length dn)) as [Ew Ed].
  { unfold written, published, batch, unwritten. simpl. rewrite Ep, Eit, length_app. simpl. lia. }
  assert (Z.of_nat (length items) = Z.of_nat (length dn) + 1 + Z.of_nat (length todo)) as El.
  { rewrite Eit, length_app. simpl. lia. }
  assert (batch s' = batch s) as Ebt by (unfold batch; simpl; by rewrite Ep).
  assert (spsc_cell k idx = slot k (written s)) as Ec by (rewrite Ei; apply spsc_cell_slot).
  assert (slot k (written s) < length (sring s))%nat as Hsl.
  { rewrite (j_len _ Hb). apply slot_lt. lia. }
  split; try apply Hb; rewrite ?Ew, ?Ebt; simpl.
  - by destruct (j_inc _ Hb).
  - intros i y Hy. destruct (j_msg _ Hb i y Hy) as [H1 H2]. split; [done|].
    eapply covers_touch; [done|done|]. intros _. rewrite Ei.
    assert (m_val y ≤ latest (sm s) WriteHead) as Hle; [|rewrite (j_latest _ Hb) in Hle; lia].
    rewrite <- (reached_lookup (sm s) (see (pv s) WriteHead i) WriteHead y).
    + apply (reached_le_latest false); [apply Hb|]. intros []. rewrite seen_see, decide_True by done.
      by apply lookup_lt_Some in Hy.
    + by rewrite seen_see, decide_True.
  - intros e y He. apply lookup_snoc_Some in He as [[_ He]|[_ <-]]; simpl.
    + destruct (j_ev _ Hb e y He) as [H1 H2]. split; [done|]. destruct (a_write y); [lia|done].
    + rewrite Ec, Ei. split; [done|lia].
  - change (raced r.1 = false). unfold r. rewrite touch_no_race; [apply Hb|].
    intros j e He Hc _. rewrite Ec in Hc. by apply (write_known s Hb Hlt j e).
  - intros e y He Hor. apply elem_of_union. apply lookup_snoc_Some in He as [[_ He]|[-> <-]].
    + right. by apply (j_pk _ Hb e y).
    + left. by apply elem_of_singleton.
  - eapply covers_touch; [done|apply (j_ck _ Hb)|]. intros _. rewrite Ei. destruct Ho as (_ & _ & H1 & H2 & _). by transitivity (published s).
  - intros e y He Hw. apply lookup_snoc_Some in He as [[_ He]|[_ <-]]; [|done]. by apply (j_own _ Hb e y).
  - rewrite length_insert. apply Hb.
  - apply (j_bound _ Hb).
  - unfold producer_at. simpl. rewrite Ew. split_and!; [|done|exists (dn ++ [x]); by rewrite <- app_assoc].
    rewrite Ei. apply wrap64_small. unfold published in *. lia.
  - lia.
  - intros j Hj. change (received s') with (received s) in Hj. rewrite Ec.
    destruct (decide (j = written s)) as [->|Hne].
    + rewrite list_lookup_insert_eq by done. unfold batch. rewrite Ep, Ed, Eit.
      unfold published. rewrite lookup_app_r by lia.
      replace (Z.to_nat _ - length (slg s))%nat with (length dn) by lia. by rewrite list_lookup_middle.
    + rewrite list_lookup_insert_ne; [apply (j_slots _ Hb); lia|]. intros E.
      pose proof (j_credit _ Hb). apply slot_inj in E; lia.
Qed.

Lemma base_written s items idx :
  base s → pth s = PCopy items [] idx →
  base (set_producer s (sm s) (sring s) idx (PPub items) (pv s) (slg s)).
Proof.
  intros Hb Ep. set (s' := set_producer _ _ _ _ _ _ _).
  pose proof (j_prod _ Hb) as Hp. unfold producer_at in Hp. rewrite Ep in Hp. destruct Hp as (Ei & _ & _).
  assert (batch s' = batch s) as Ebt by (unfold batch; simpl; by rewrite Ep).
  assert (written s' = written s) as Ew.
  { unfold written, published, unwritten. rewrite Ebt. simpl. by rewrite Ep. }
  destruct Hb; split; rewrite ?Ew, ?Ebt; try done. unfold producer_at. simpl. by rewrite Ew.
Qed.

Lemma base_publish s items m' v' old :
  base s → pth s = PPub items →
  rmw release (sm s) (pv s) WriteHead (λ a, Some (a +64 Z.of_nat (length items))) = Some (old, m', v') →
  base (set_producer s m' (sring s) (write_tail s) PIdle v' (slg s ++ items)).
Proof.
  intros Hb Ep Hr. set (s' := set_producer _ _ _ _ _ _ _). pose proof (base_order s Hb) as Ho.
  pose proof (j_prod _ Hb) as Hp. unfold producer_at in Hp. rewrite Ep in Hp.
  pose proof (j_bound _ Hb) as Hbd. unfold batch in Hbd. rewrite Ep in Hbd.
  pose proof (j_pv _ Hb) as Hin.
  destruct (rmw_success _ _ _ _ _ _ _ _ Hr) as (x & b & Hx & <- & [= <-] & Ev & Eh & Ee & Er & _). simpl in Ev.
  set (y := mkMsg _ _) in Eh. pose proof (latest_last _ _ _ Hx) as Elat. rewrite (j_latest _ Hb) in Elat.
  assert (m_val y = published s + Z.of_nat (length items)) as E64.
  { unfold y. simpl. rewrite <- Elat. apply wrap64_small. unfold published in *. lia. }
  destruct (append_rmw _ _ _ y Eh false (pv s) x (j_inc _ Hb) Hin Hx) as (_ & _ & Hinc).
  { unfold y. simpl. by rewrite Ev. }
  { change (m_val x ≤ m_val y). rewrite E64. lia. }
  assert (published s' = published s + Z.of_nat (length items)) as Epub.
  { unfold published. simpl. rewrite length_app. lia. }
  assert (written s' = written s ∧ written s = published s + Z.of_nat (length items)) as [Ew Ew'].
  { unfold written, unwritten, batch. rewrite Epub, Ep. simpl. lia. }
  assert (inside m' v') as Hin' by (subst v'; by apply (append_see (sm s) m' WriteHead y Eh)).
  assert (known v' = known (pv s)) as Ekv by (subst v'; done).
  assert (∀ u b, covers (sm s) u b → covers m' u b) as Hcov.
  { intros u b H e z He. rewrite Ee in He. by apply H. }
  split; rewrite ?Ew; simpl; try apply Hb.
  - exact Hinc.
  - intros i z Hz. rewrite (append_hist (sm s) m' WriteHead y Eh), decide_True in Hz by done.
    apply lookup_app_Some in Hz as [Hz|[_ Hz]].
    + destruct (j_msg _ Hb i z Hz). split; [done|by apply Hcov].
    + apply list_lookup_singleton_Some in Hz as [_ <-]. rewrite E64. split; [unfold published; lia|].
      apply Hcov. intros e a He Hw _. change (e ∈ known v' ∪ known (m_view x)). apply elem_of_union_l. rewrite Ekv. apply (j_pk _ Hb e a); auto.
  - rewrite (append_latest (sm s) m' WriteHead y Eh), decide_True by done. by rewrite Epub.
  - intros e z He. rewrite Ee in He. by apply (j_ev _ Hb e z).
  - rewrite Er. apply Hb.
  - done.
  - apply (append_inside (sm s) m' WriteHead y Eh), Hb.
  - intros e z He. rewrite Ee in He. rewrite Ekv. by apply (j_pk _ Hb e z).
  - rewrite (append_reached (sm s) m' WriteHead y Eh) by apply Hb. apply Hcov, Hb.
  - intros e z He. rewrite Ee in He. by apply (j_own _ Hb e z).
  - rewrite Epub. unfold batch. simpl. lia.
  - unfold producer_at. simpl. rewrite Epub. lia.
  - pose proof (j_cons _ Hb) as Hc. unfold consumer_at in *. simpl.
    rewrite (append_reached (sm s) m' WriteHead y Eh) by apply Hb. done.
  - intros j Hj. change (received s') with (received s) in Hj. rewrite (j_slots _ Hb) by done.
    unfold batch. simpl. by rewrite Ep, app_nil_r.
  - etrans; [apply Hb|]. by exists items.
Qed.

(** Moves of the consumer that access no slot. *)
Lemma base_consumer s t v :
  base s → inside (sm s) v → covers (sm s) v (reached (sm s) v WriteHead) → known (cv s) ⊆ known v →
  consumer_at (set_consumer s (sm s) (read_tail s) t v (srecv s)) →
  base (set_consumer s (sm s) (read_tail s) t v (srecv s)).
Proof.
  intros Hb Hin Hcov Hsub Hc. destruct Hb; split; try done.
  intros e x He Hw. by apply Hsub, (j_own0 e x).
Qed.

Lemma base_load s max i h v :
  base s → cth s = CLoad max → load acquire (sm s) (cv s) WriteHead i = Some (h, v) →
  base (set_consumer s (sm s) (read_tail s) (CCopy (Z.min (h -64 read_tail s) max)) v (srecv s)).
Proof.
  intros Hb Ec Hl. pose proof (base_order s Hb) as Ho. pose proof (j_cons _ Hb) as Hc.
  unfold consumer_at in Hc. rewrite Ec in Hc.
  destruct (load_acquire false _ _ _ _ _ _ acquire (j_inc _ Hb) (j_cv _ Hb) eq_refl Hl) as (x & Hx & -> & Hr & Hle & Hs & Hkn).
  destruct (j_msg _ Hb i x Hx) as [Hx0 Hcov].
  assert (inside (sm s) v) as Hin.
  { intros l. rewrite Hs. pose proof (j_cv _ Hb l). pose proof (i_inside _ _ (j_inc _ Hb) _ _ _ Hx l). lia. }
  pose proof (reached_mono false _ (cv s) v WriteHead (j_inc _ Hb) (j_cv _ Hb) Hin ltac:(rewrite Hs; lia)) as Hm.
  pose proof (reached_le_latest false _ _ WriteHead (j_inc _ Hb) Hin) as Hlat. rewrite (j_latest _ Hb) in Hlat.
  pose proof (j_bound _ Hb) as Hbd.
  apply base_consumer; try done.
  - rewrite Hr. intros e a He Hw Hp. rewrite Hkn. apply elem_of_union_r. by apply (Hcov e a).
  - rewrite Hkn. set_solver.
  - unfold consumer_at. simpl. change (received (set_consumer _ _ _ _ _ _)) with (received s).
    rewrite (j_tail _ Hb), wrap64_small by lia. lia.
Qed.

Lemma base_copy s n :
  base s → cth s = CCopy n → 0 < n →
  let r := touch (sm s) (cv s) false (spsc_cell k (read_tail s)) (read_tail s) in
  base (set_consumer s r.1 (read_tail s +64 1) (CCopy (n - 1)) r.2
          (srecv s ++ [sring s !!! spsc_cell k (read_tail s)])).
Proof.
  intros Hb Ec Hn r. set (s' := set_consumer _ _ _ _ _ _). pose proof (base_order s Hb) as Ho.
  pose proof (j_cons _ Hb) as Hc. unfold consumer_at in Hc. rewrite Ec in Hc.
  pose proof (j_bound _ Hb) as Hbd. pose proof (j_tail _ Hb) as Et.
  assert (spsc_cell k (read_tail s) = slot k (received s)) as Ecell by (rewrite Et; apply spsc_cell_slot).
  assert (slg s !! Z.to_nat (received s) = Some (sring s !!! spsc_cell k (read_tail s))) as Hx.
  { destruct (lookup_lt_is_Some_2 (slg s) (Z.to_nat (received s))) as [x Hx]; [unfold published in *; lia|].
    rewrite Hx. f_equal. symmetry. apply list_lookup_total_correct. rewrite Ecell, (j_slots _ Hb) by lia.
    by apply lookup_app_l_Some. }
  assert (received s' = received s + 1) as Er.
  { unfold received. simpl. rewrite length_app. simpl. lia. }
  split; try apply Hb; rewrite ?Er; simpl.
  - by destruct (j_inc _ Hb).
  - intros i y Hy. destruct (j_msg _ Hb i y Hy) as [H1 H2]. split; [done|]. by eapply covers_touch.
  - intros e y He. apply lookup_snoc_Some in He as [[_ He]|[_ <-]]; simpl.
    + destruct (j_ev _ Hb e y He) as [H1 H2]. split; [done|]. destruct (a_write y); [done|lia].
    + rewrite Ecell, Et. split; [done|lia].
  - change (raced r.1 = false). unfold r. rewrite touch_no_race; [apply Hb|].
    intros j e He Hcl Hw. rewrite Ecell in Hcl. apply (read_known s Hb ltac:(lia) j e); done.
  - intros e y He Hor. apply lookup_snoc_Some in He as [[_ He]|[_ <-]]; [by apply (j_pk _ Hb e y)|].
    simpl in Hor. rewrite Et in Hor. pose proof (j_credit _ Hb). destruct Hor; [done|lia].
  - intros e y He Hw Hp. simpl in He |- *. apply elem_of_union. apply lookup_snoc_Some in He as [[_ He]|[-> <-]]; [|done].
    right. by apply (j_ck _ Hb e y).
  - intros e y He Hw. apply elem_of_union. apply lookup_snoc_Some in He as [[_ He]|[-> _]].
    + right. by apply (j_own _ Hb e y).
    + left. by apply elem_of_singleton.
  - unfold consumer_at. simpl. rewrite Er. change (reached _ _ WriteHead) with (reached (sm s) (cv s) WriteHead). lia.
  - rewrite Et. apply wrap64_small. unfold published in *. lia.
  - pose proof (j_credit _ Hb). lia.
  - intros j Hj. apply (j_slots _ Hb). change (written s') with (written s) in Hj. lia.
  - destruct (j_fifo _ Hb) as [l El]. unfold received in Hx. rewrite Nat2Z.id in Hx.
    rewrite El in Hx |- *. rewrite lookup_app_r, Nat.sub_diag in Hx by done.
    destruct l as [|y l]; [done|]. injection Hx as ->. exists l. by rewrite <- app_assoc.
Qed.

(** Synchronising with the consumer: it knows every slot it has read. *)
Lemma base_sync s :
  base s →
  base (mkSpsc (sm s) (sring s) (write_tail s) (read_tail s) (pth s) (join (pv s) (cv s))
          (cth s) (cv s) (slg s) (srecv s) (received s)).
Proof.
  intros Hb. pose proof (j_own _ Hb) as Hown. pose proof (j_room _ Hb). pose proof (j_credit _ Hb).
  destruct Hb; split; try done; simpl.
  - intros l. simpl. specialize (j_pv0 l). specialize (j_cv0 l). simpl in *. lia.
  - intros e x He _. apply elem_of_union. destruct (a_write x) eqn:Ew.
    + left. apply (j_pk0 e x); auto.
    + right. by apply (Hown e x).
  - change (0 ≤ received s ≤ received s). lia.
  - change (written s ≤ received s + 2 ^ k). lia.
Qed.

(** The next write stays within a lap of what the producer knows is free. *)
Definition within s (c : choice T) : Prop :=
  match c, pth s with Produce, PCopy _ (_ :: _) _ => written s < credit s + 2 ^ k | _, _ => True end.

Lemma base_step s c s' : base s → splay1 k ct s c = Some s' → within s c → base s'.
Proof.
  intros Hb Hs Hin. destruct c as [items| |max|i| |]; simpl in Hs, Hin.
  - destruct (pth s) eqn:Ep; try done. destruct (_ && _) eqn:Eg; simplify_eq.
    apply andb_true_iff in Eg as [_ Hlt%Z.ltb_lt]. by apply base_push.
  - unfold produce in Hs. destruct (pth s) as [|items [|x todo] idx|items] eqn:Ep; simplify_eq.
    + by apply base_written.
    + by apply base_write.
    + destruct (rmw _ _ _ _ _) as [[[old m'] v']|] eqn:Er; simplify_eq/=. by eapply base_publish.
  - destruct (cth s) eqn:Ec; try done. destruct (Z.leb_spec 0 max); simplify_eq.
    apply base_consumer; try done; try apply Hb.
    pose proof (j_cons _ Hb) as Hc. unfold consumer_at in *. by rewrite Ec in Hc.
  - destruct (cth s) eqn:Ec; try done. destruct (load _ _ _ _ _) as [[h v]|] eqn:El; simplify_eq/=.
    by eapply base_load.
  - unfold consume in Hs. destruct (cth s) as [| |n] eqn:Ec; try done. destruct (Z.ltb_spec 0 n); simplify_eq.
    + by apply base_copy.
    + apply base_consumer; try done; try apply Hb.
      pose proof (j_cons _ Hb) as Hc. unfold consumer_at in *. rewrite Ec in Hc.
      simpl. change (received (set_consumer _ _ _ _ _ _)) with (received s). lia.
  - destruct ct; simplify_eq. by apply base_sync.
Qed.

Lemma base_init : base (sinit k).
Proof.
  assert (2 ^ k ≤ 2 ^ 63) by (apply Z.pow_le_mono_r; lia).
  split; try done; simpl.
  - split.
    + intros l i j x y Hij Hx Hy. apply list_lookup_singleton_Some in Hx as [-> _].
      apply list_lookup_singleton_Some in Hy as [-> _]. lia.
    + intros l i x Hx. by apply list_lookup_singleton_Some in Hx as [-> <-].
    + intros l i x Hx. apply list_lookup_singleton_Some in Hx as [-> <-]. intros l'. simpl. lia.
  - intros i x Hx. by apply list_lookup_singleton_Some in Hx as [-> <-].
  - intros l. simpl. lia.
  - intros l. simpl. lia.
  - by rewrite length_replicate.
  - unfold written, unwritten, published. simpl. lia.
  - intros j. unfold written, unwritten, published, received. simpl. lia.
Qed.

(** Written positions only grow, and a race is not forgotten. *)
Lemma splay1_mono s c s' :
  splay1 k ct s c = Some s' →
  written s ≤ written s' ∧ (raced (sm s) = true → raced (sm s') = true)
  ∧ (credit s' = credit s ∨ ct = synced).
Proof.
  intros Hs. unfold written, unwritten, batch, published.
  destruct c as [items| |max|i| |]; simpl in Hs.
  - destruct (pth s) eqn:Ep; try done. destruct (_ && _); simplify_eq/=. split_and!; [lia|done|by left].
  - unfold produce in Hs. destruct (pth s) as [|items [|x todo] idx|items] eqn:Ep; simplify_eq/=.
    + split_and!; [lia|done|by left].
    + split_and!; [lia|by intros ->|by left].
    + unfold rmw in Hs. destruct (last (hist (sm s) WriteHead)) as [x|]; simplify_eq/=. rewrite length_app. split_and!; [lia|done|by left].
  - destruct (cth s); try done. destruct (0 <=? max); simplify_eq/=. split_and!; [lia|done|by left].
  - destruct (cth s); try done. destruct (load _ _ _ _ _) as [[h v]|]; simplify_eq/=. split_and!; [lia|done|by left].
  - unfold consume in Hs. destruct (cth s) as [| |n]; try done.
    destruct (0 <? n); simplify_eq/=; split_and!; try lia; try done; try (by left). by intros ->.
  - destruct ct; simplify_eq/=. split_and!; [lia|done|by right].
Qed.

(** The batch being pushed fits in what the producer may count as free. *)
Definition admitted s : Prop := published s + Z.of_nat (length (batch s)) ≤ freed ct s + 2 ^ k.

Lemma admitted_step s c s' :
  credit s ≤ received s → admitted s → splay1 k ct s c = Some s' → admitted s'.
Proof.
  intros Hcr Ha Hs. unfold admitted, freed, batch, published, received in *.
  destruct c as [items| |max|i| |]; simpl in Hs.
  - destruct (pth s) eqn:Ep; try done. destruct (_ && _) eqn:Eg; simplify_eq/=.
    apply andb_true_iff in Eg as [Hle%Z.leb_le _]. done.
  - unfold produce in Hs. destruct (pth s) as [|items [|x todo] idx|items] eqn:Ep; simplify_eq/=; try done.
    unfold rmw in Hs. destruct (last (hist (sm s) WriteHead)) as [x|]; simplify_eq/=. rewrite length_app. destruct ct; lia.
  - destruct (cth s); try done. by destruct (0 <=? max); simplify_eq/=.
  - destruct (cth s); try done. by destruct (load _ _ _ _ _) as [[h v]|]; simplify_eq/=.
  - unfold consume in Hs. destruct (cth s) as [| |n]; try done. destruct (0 <? n); simplify_eq/=; [|done].
    destruct ct; [rewrite length_app; simpl|]; lia.
  - destruct ct; simplify_eq/=. unfold received. lia.
Qed.

End Invariant.

Section Synced.
Context {T : Type} `{!Inhabited T} (k : Z) (Hk : 0 ≤ k ≤ 63).
Implicit Types (s : spsc T).

Lemma admitted_within s c : base k s → admitted k synced s → within k s c.
Proof.
  intros Hb Ha. unfold within, admitted, freed in *. destruct c; try done.
  destruct (pth s) as [|items [|x todo] idx|items] eqn:Ep; try done.
  unfold written, unwritten, batch in *. rewrite Ep in *. simpl. lia.
Qed.

Lemma synced_inv s : spsc_weak_reachable k synced s → base k s ∧ admitted k synced s.
Proof.
  intros Hr. eapply (steps_invariant (sstep k synced) (λ s, base k s ∧ admitted k synced s)); [|..|exact Hr].
  - split; [by apply base_init|]. unfold admitted, published, freed, batch. simpl. lia.
  - intros a b [Hb Ha] [c Hc]. split.
    + eapply base_step; try done. by apply admitted_within.
    + eapply admitted_step; try done. apply (j_credit _ _ Hb).
Qed.

End Synced.

Section Plain.
Context {T : Type} `{!Inhabited T} (k : Z) (Hk : 0 ≤ k ≤ 63).
Implicit Types (s : spsc T).

(** Every element received was read, and the producer knows of no read. *)
Definition unseen s : Prop :=
  (∀ p, 0 ≤ p < received s → ∃ e x, events (sm s) !! e = Some x ∧ a_write x = false ∧ a_pos x = p)
  ∧ (∀ e, e ∈ known (pv s) → ∃ x, events (sm s) !! e = Some x ∧ a_write x = true).

(** Before and after the first reuse. *)
Record pinv s : Prop := {
  p_credit : credit s = 0;
  p_admitted : admitted k plain s;
  p_before : written s ≤ 2 ^ k → base k s ∧ unseen s;
  p_after : 2 ^ k < written s → raced (sm s) = true
}.

Lemma unseen_step s c s' : base k s → unseen s → splay1 k plain s c = Some s' → unseen s'.
Proof.
  intros Hb [Hr Hp] Hs. unfold unseen, received in *. destruct c as [items| |max|i| |]; simpl in Hs.
  - destruct (pth s); try done. by destruct (_ && _); simplify_eq/=.
  - unfold produce in Hs. destruct (pth s) as [|items [|x todo] idx|items]; simplify_eq/=; try done.
    + split.
      * intros p Hpp. destruct (Hr p Hpp) as (e & y & He & H). exists e, y. split; [by apply lookup_app_l_Some|done].
      * intros e [->%elem_of_singleton|He]%elem_of_union.
        -- eexists. split; [by apply list_lookup_middle|done].
        -- destruct (Hp e He) as (y & Hy & ?). exists y. split; [by apply lookup_app_l_Some|done].
    + unfold rmw in Hs. destruct (last (hist (sm s) WriteHead)) as [x|]; by simplify_eq/=.
  - destruct (cth s); try done. by destruct (0 <=? max); simplify_eq/=.
  - destruct (cth s); try done. by destruct (load _ _ _ _ _) as [[h v]|]; simplify_eq/=.
  - unfold consume in Hs. destruct (cth s) as [| |n]; try done. destruct (0 <? n); simplify_eq/=; [|done]. split.
    + intros p Hpp. rewrite length_app in Hpp. simpl in Hpp.
      destruct (decide (p = Z.of_nat (length (srecv s)))) as [->|].
      * eexists (length (events (sm s))), _. split; [by apply list_lookup_middle|]. split; [done|].
        apply (j_tail _ _ Hb).
      * destruct (Hr p ltac:(lia)) as (e & y & He & H). exists e, y. split; [by apply lookup_app_l_Some|done].
    + intros e He. destruct (Hp e He) as (y & Hy & ?). exists y. split; [by apply lookup_app_l_Some|done].
  - done.
Qed.

(** The write that reuses the first slot races: the consumer has read it, since
    the batch fits, and the producer cannot know. *)
Lemma reuse_races s s' :
  pinv s → base k s → unseen s → splay1 k plain s Produce = Some s' →
  written s = 2 ^ k → written s' = 2 ^ k + 1 → raced (sm s') = true.
Proof.
  intros Hi Hb [Hr Hp] Hs Ew Ew'. pose proof (p_admitted _ Hi) as Ha. pose proof (j_prod _ _ Hb) as Hpr.
  unfold admitted, freed in Ha. simpl in Hs. unfold produce in Hs. unfold producer_at in Hpr.
  destruct (pth s) as [|items [|x todo] idx|items] eqn:Ep; simplify_eq/=.
  - unfold written, unwritten, batch, published in *. simpl in *. rewrite Ep in *. simpl in *. lia.
  - destruct Hpr as (Ei & _ & _).
    assert (1 ≤ received s) as Hrec.
    { unfold written, unwritten, batch in *. rewrite Ep in *. simpl in *. lia. }
    destruct (Hr 0 ltac:(lia)) as (e & y & He & Hwy & Hpy). destruct (j_ev _ _ Hb e y He) as [Hcy _].
    assert (e ∉ known (pv s)) as Hne.
    { intros Hin. destruct (Hp e Hin) as (z & Hz & Hwz). congruence. }
    apply (touch_race (sm s) (pv s) true (spsc_cell k idx) idx e y He); [|done|done].
    rewrite (spsc_cell_slot k Hk), Hcy, Hpy, Ei, Ew. unfold slot. by rewrite Z_mod_same_full.
  - unfold rmw in Hs. destruct (last (hist (sm s) WriteHead)) as [x|]; simplify_eq/=.
    unfold written, unwritten, batch, published in *. simpl in *. rewrite Ep in *. rewrite length_app in Ew'. simpl in *. lia.
Qed.

(** A step writes at most one element, and only [Produce] does. *)
Lemma written_step s c s' :
  splay1 k plain s c = Some s' → written s' = written s ∨ (c = Produce ∧ written s' = written s + 1).
Proof.
  intros Hs. unfold written, unwritten, batch, published. destruct c as [items| |max|i| |]; simpl in Hs.
  - destruct (pth s); try done. destruct (_ && _); simplify_eq/=. left. lia.
  - unfold produce in Hs. destruct (pth s) as [|items [|x todo] idx|items]; simplify_eq/=.
    + left. lia.
    + right. split; [done|lia].
    + unfold rmw in Hs. destruct (last (hist (sm s) WriteHead)) as [x|]; simplify_eq/=. rewrite length_app. left. lia.
  - destruct (cth s); try done. destruct (0 <=? max); simplify_eq/=. by left.
  - destruct (cth s); try done. destruct (load _ _ _ _ _) as [[h v]|]; simplify_eq/=. by left.
  - unfold consume in Hs. destruct (cth s) as [| |n]; try done. destruct (0 <? n); simplify_eq/=; by left.
  - done.
Qed.

Lemma pinv_step s c s' : pinv s → splay1 k plain s c = Some s' → pinv s'.
Proof.
  intros Hi Hs. destruct (splay1_mono k plain s c s' Hs) as (Hmono & Hrace & Hcr).
  pose proof (p_credit _ Hi) as Ec. split.
  - destruct Hcr; [congruence|done].
  - apply (admitted_step k Hk plain s c); [|apply Hi|done]. rewrite Ec. unfold received. lia.
  - intros Hle. destruct (p_before _ Hi) as [Hb Hu]; [lia|]. split; [|by eapply unseen_step].
    eapply (base_step k Hk plain); try done. unfold within. destruct c; try done.
    destruct (pth s) as [|items [|x todo] idx|items] eqn:Ep; try done.
    assert (written s' = written s + 1) as Ew; [|rewrite Ec; lia].
    simpl in Hs. unfold produce in Hs. rewrite Ep in Hs. simplify_eq.
    unfold written, unwritten, batch, published. simpl. rewrite Ep. simpl. lia.
  - intros Hlt. destruct (Z.lt_ge_cases (2 ^ k) (written s)) as [Hold|Hnew].
    + by apply Hrace, (p_after _ Hi).
    + destruct (p_before _ Hi Hnew) as [Hb Hu].
      destruct (written_step s c s' Hs) as [?|[-> Ew]]; [lia|].
      apply (reuse_races s s'); try done; lia.
Qed.

Lemma plain_inv s : spsc_weak_reachable k plain s → pinv s.
Proof.
  intros Hr. eapply (steps_invariant (sstep k plain) pinv); [|..|exact Hr].
  - split; [done| | |].
    + unfold admitted, published, freed, batch, received. simpl. lia.
    + intros _. split; [by apply base_init|]. split; [intros p; unfold received; simpl; lia|].
      intros e He. by apply elem_of_empty in He.
    + unfold written, unwritten, published. simpl. lia.
  - intros a b Hi [c Hc]. by eapply pinv_step.
Qed.

End Plain.

(** ** Properties *)

(** C18: [push_batch] and [try_dequeue_batch] under their memory orders, pushing
    only batches that fit: the queue has a data race exactly when the producer
    has written more than [Capacity] elements in all, that is from the first
    reuse of a slot on.  Until then it is FIFO. *)
Theorem spsc_races_exactly_on_reuse (T : Type) (IT : Inhabited T) (k : Z) (s : spsc T) :
  0 ≤ k ≤ 63 → spsc_weak_reachable k plain s →
  (raced (sm s) = true ↔ 2 ^ k < written s)
  ∧ (written s ≤ 2 ^ k → srecv s `prefix_of` slg s).
Proof.
  intros Hk Hr. pose proof (plain_inv k Hk s Hr) as Hi. split.
  - split; [|apply Hi]. intros Hra. destruct (Z.lt_ge_cases (2 ^ k) (written s)) as [?|Hle]; [done|].
    destruct (p_before _ _ Hi Hle) as [Hb _]. pose proof (j_race _ _ Hb). congruence.
  - intros Hle. destruct (p_before _ _ Hi Hle) as [Hb _]. apply (j_fifo _ _ Hb).
Qed.

(** C19: the contract under which the queue is sound: when the producer
    synchronises with the consumer outside the queue and pushes only what fits
    in the space it has learned to be free, no access races, whatever the
    number of laps, and the consumer receives the published elements in
    order, each once. *)
Theorem spsc_synced_race_free_fifo (T : Type) (IT : Inhabited T) (k : Z) (s : spsc T) :
  0 ≤ k ≤ 63 → spsc_weak_reachable k synced s →
  raced (sm s) = false ∧ srecv s `prefix_of` slg s ∧ written s - received s ≤ 2 ^ k.
Proof.
  intros Hk Hr. destruct (synced_inv k Hk s Hr) as [Hb _].
  pose proof (j_room _ _ Hb). pose proof (j_credit _ _ Hb).
  split_and!; [apply Hb|apply Hb|lia].
Qed.

(** ** Concrete executions *)

(** Two elements through one slot. *)
Definition lap (i : nat) (x : Z) : list (choice Z) :=
  [Push [x]; Produce; Produce; Produce; Pop 1; Load i; Consume; Consume].

Lemma spsc_play_steps k ct (l : list (choice Z)) s :
  play (splay1 k ct) (sinit k) l = Some s → spsc_weak_reachable k ct s.
Proof. intros H. eapply play_steps; [|exact H]. intros a c b Hc. by exists c. Qed.

Lemma spsc_races_exactly_on_reuse_witness :
  ∃ s : spsc Z, spsc_weak_reachable 0 plain s ∧ srecv s = [7; 8] ∧ raced (sm s) = true ∧ written s = 2.
Proof.
  destruct (play (splay1 0 plain) (sinit 0) (lap 1 7 ++ lap 2 8)) as [s|] eqn:E; [|by vm_compute in E].
  exists s. assert (srecv s = [7; 8] ∧ written s = 2) as [H1 H2] by (vm_compute in E; injection E as <-; done).
  split_and!; [exact (spsc_play_steps 0 plain _ s E)|exact H1| |exact H2].
  apply (spsc_races_exactly_on_reuse Z _ 0 s ltac:(lia) (spsc_play_steps 0 plain _ s E)). rewrite H2. reflexivity.
Defined.

Lemma spsc_synced_race_free_fifo_witness :
  ∃ s : spsc Z, spsc_weak_reachable 0 synced s ∧ srecv s = [7; 8] ∧ raced (sm s) = false.
Proof.
  destruct (play (splay1 0 synced) (sinit 0) (lap 1 7 ++ Sync :: lap 2 8)) as [s|] eqn:E; [|by vm_compute in E].
  exists s. assert (srecv s = [7; 8]) as H1 by (vm_compute in E; injection E as <-; done).
  split_and!; [exact (spsc_play_steps 0 synced _ s E)|exact H1|].
  exact (proj1 (spsc_synced_race_free_fifo Z _ 0 s ltac:(lia) (spsc_play_steps 0 synced _ s E))).
Defined.
