(* ===== verification/StopWeak.v ===== *)
(** Stopping a scheduler under its memory orders ([scheduler.cc]: the flags of
    [run], [run_busy] and [request_stop]).

    [run] stores [running_ = true], then looks at [stop_requested_], so that a
    stop requested before the loop is not overwritten; [request_stop] stores
    [stop_requested_ = true], then [running_ = false].  Each side stores one
    flag and the runner then loads the other.  The file proves the protocol
    right when loads return the latest value ([Interleaved]) and shows what
    the annotations of the source, a releasing store and an acquiring load,
    allow ([Annotated]): the load may still return the old value, and the stop
    is then lost for good. *)
From S2P Require Import Prelude RelAcq.

(** [running_] and [stop_requested_]; [true] is 1. *)
Inductive flag := Running | StopRequested.

#[export] Instance flag_eq_dec : EqDecision flag.
Proof. solve_decision. Defined.

(** Where [run] is: about to store [running_], about to load
    [stop_requested_], about to store [running_ = false] and return, at the test
    of the loop, or returned. *)
Inductive runner := RStart | RTest | RExit | RLoop | RDone.

(** Where [request_stop] is: not called, between its two stores, or past them. *)
Inductive stopper := QIdle | QRunning | QDone.

Inductive semantics := Interleaved | Annotated.

Record flags := mkFlags {
  fm : mem flag; rth : runner; rv : view flag; qth : stopper; qv : view flag
}.

Definition flags_init : flags := mkFlags mem_init RStart bottom QIdle bottom.

(** The loads of this semantics: any message C++ allows, or only the last. *)
Definition flag_load (sem : semantics) (m : mem flag) (v : view flag) (l : flag) (i : nat) : option (Z * view flag) :=
  match sem with
  | Annotated => load acquire m v l i
  | Interleaved => if decide (S i = length (hist m l)) then load acquire m v l i else None
  end.

(** [Scheduler::run]; the body of the loop is not shown: it does not touch the
    flags. *)
Definition run_flags (sem : semantics) (s : flags) (i : nat) : option flags :=
  match rth s with
  | RStart =>
      let r := store release (fm s) (rv s) Running 1 in
      Some (mkFlags r.1 RTest r.2 (qth s) (qv s))
  | RTest =>
      r ← flag_load sem (fm s) (rv s) StopRequested i;
      Some (mkFlags (fm s) (if r.1 =? 0 then RLoop else RExit) r.2 (qth s) (qv s))
  | RExit =>
      let r := store release (fm s) (rv s) Running 0 in
      Some (mkFlags r.1 RDone r.2 (qth s) (qv s))
  | RLoop =>
      r ← flag_load sem (fm s) (rv s) Running i;
      Some (mkFlags (fm s) (if r.1 =? 0 then RDone else RLoop) r.2 (qth s) (qv s))
  | RDone => None
  end.

(** [Scheduler::request_stop]. *)
Definition request_stop_flags (s : flags) : option flags :=
  match qth s with
  | QIdle =>
      let r := store release (fm s) (qv s) StopRequested 1 in
      Some (mkFlags r.1 (rth s) (rv s) QRunning r.2)
  | QRunning =>
      let r := store release (fm s) (qv s) Running 0 in
      Some (mkFlags r.1 (rth s) (rv s) QDone r.2)
  | QDone => None
  end.

(** One step of the runner, whose load returns message [i], or of the stopper. *)
Inductive turn := RunnerTurn (i : nat) | StopperTurn.

Definition flags_play (sem : semantics) (s : flags) (c : turn) : option flags :=
  match c with RunnerTurn i => run_flags sem s i | StopperTurn => request_stop_flags s end.

Definition flags_step (sem : semantics) (s s' : flags) : Prop := ∃ c, flags_play sem s c = Some s'.
Definition flags_reachable (sem : semantics) (s : flags) : Prop := steps (flags_step sem) flags_init s.

(** ** Interleaved: the stop takes effect *)

(** The latest values of the flags in each pair of states. *)
Definition flags_values (s : flags) : Prop :=
  latest (fm s) StopRequested = (match qth s with QIdle => 0 | _ => 1 end) ∧
  match rth s, qth s with
  | RStart, _ | RLoop, QDone | RDone, QDone => latest (fm s) Running = 0
  | RTest, (QIdle | QRunning) | RLoop, (QIdle | QRunning) => latest (fm s) Running = 1
  | RExit, QIdle | RDone, QIdle => False
  | _, _ => True
  end.

Definition flags_views (s : flags) : Prop := tidy (fm s) ∧ inside (fm s) (rv s) ∧ inside (fm s) (qv s).

Lemma latest_store o (m : mem flag) v l a l' :
  latest (store o m v l a).1 l' = if decide (l = l') then a else latest m l'.
Proof. by rewrite (append_latest m _ l (mkMsg a (released o (see v l (length (hist m l))) l (length (hist m l))))). Qed.

(** An interleaved load returns the latest value. *)
Lemma flag_load_latest m v l i r : flag_load Interleaved m v l i = Some r → r.1 = latest m l.
Proof.
  unfold flag_load. destruct (decide _) as [Hi|]; [|done]. unfold load. intros H.
  destruct (hist m l !! i) as [x|] eqn:Hx; [|done]. simpl in H. destruct (decide _); simplify_eq. simpl.
  symmetry. apply latest_last. rewrite last_lookup, <- Hi. done.
Qed.

Lemma flag_load_load sem m v l i r : flag_load sem m v l i = Some r → load acquire m v l i = Some r.
Proof. unfold flag_load. destruct sem; [|done]. by destruct (decide _). Qed.

Lemma values_step s s' : flags_values s → flags_step Interleaved s s' → flags_values s'.
Proof.
  intros [Hs Hr] [[i|] Hc]; unfold flags_values; simpl in Hc.
  - unfold run_flags in Hc. destruct (rth s) eqn:Er; simplify_eq.
    + cbn -[store]. rewrite !latest_store. split; [done|]. by destruct (qth s).
    + destruct (flag_load _ _ _ _ _) as [r|] eqn:El; [|done]. apply flag_load_latest in El. simplify_eq/=.
      split; [done|]. rewrite El, Hs. by destruct (qth s).
    + cbn -[store]. rewrite !latest_store. split; [done|]. by destruct (qth s).
    + destruct (flag_load _ _ _ _ _) as [r|] eqn:El; [|done]. apply flag_load_latest in El. simplify_eq/=.
      split; [done|]. rewrite El. destruct (qth s); by rewrite Hr.
  - unfold request_stop_flags in Hc. destruct (qth s) eqn:Eq; simplify_eq; cbn -[store]; rewrite !latest_store;
      (split; [done|]); by by destruct (rth s).
Qed.

Lemma views_step sem s s' : flags_views s → flags_step sem s s' → flags_views s'.
Proof.
  intros (Hm & Hr & Hq) [[i|] Hc]; unfold flags_views; simpl in Hc.
  - unfold run_flags in Hc. destruct (rth s) eqn:Er; simplify_eq.
    + destruct (tidy_store release (fm s) (rv s) Running 1 Hm Hr) as (? & ? & ?). cbn -[store]. auto.
    + destruct (flag_load _ _ _ _ _) as [[a v]|] eqn:El; [|done]. apply flag_load_load in El. simplify_eq/=.
      split_and!; try done. exact (tidy_load _ _ _ _ _ _ _ Hm Hr El).
    + destruct (tidy_store release (fm s) (rv s) Running 0 Hm Hr) as (? & ? & ?). cbn -[store]. auto.
    + destruct (flag_load _ _ _ _ _) as [[a v]|] eqn:El; [|done]. apply flag_load_load in El. simplify_eq/=.
      split_and!; try done. exact (tidy_load _ _ _ _ _ _ _ Hm Hr El).
  - unfold request_stop_flags in Hc. destruct (qth s) eqn:Eq; simplify_eq; cbn -[store].
    + destruct (tidy_store release (fm s) (qv s) StopRequested 1 Hm Hq) as (? & ? & ?). auto.
    + destruct (tidy_store release (fm s) (qv s) Running 0 Hm Hq) as (? & ? & ?). auto.
Qed.

Lemma interleaved_inv s : flags_reachable Interleaved s → flags_values s ∧ flags_views s.
Proof.
  intros H. split.
  - eapply steps_invariant; [|apply values_step|exact H]. by split.
  - eapply steps_invariant; [|apply views_step|exact H]. destruct (tidy_init (L:=flag) (λ _, 0)). by split_and!.
Qed.

(** C12: when loads return the latest value, a stop is never lost, whenever it
    is requested: once [request_stop] has made its two stores, a scheduler in
    its loop leaves it at the next test, and one that has not reached the loop
    does not enter it. *)
Theorem stop_takes_effect_interleaved (s : flags) :
  flags_reachable Interleaved s → qth s = QDone →
  (rth s = RLoop → (∃ i s', flags_play Interleaved s (RunnerTurn i) = Some s')
     ∧ ∀ i s', flags_play Interleaved s (RunnerTurn i) = Some s' → rth s' = RDone)
  ∧ (rth s = RTest → ∀ i s', flags_play Interleaved s (RunnerTurn i) = Some s' → rth s' = RExit).
Proof.
  intros Hr Hq. destruct (interleaved_inv s Hr) as [[Hs Hv] (_ & Hin & _)]. rewrite Hq in Hs, Hv.
  split; intros Er; rewrite Er in Hv; simpl; unfold run_flags; rewrite Er.
  - split.
    + destruct (load_last acquire (fm s) (rv s) Running Hin) as (r & Hl & _).
      exists (pred (length (hist (fm s) Running))). unfold flag_load. specialize (Hin Running).
      rewrite decide_True by lia. rewrite Hl. by eexists.
    + intros i s' H. destruct (flag_load _ _ _ _ _) as [r|] eqn:El; [|done]. apply flag_load_latest in El.
      simplify_eq/=. by rewrite El, Hv.
  - intros i s' H. destruct (flag_load _ _ _ _ _) as [r|] eqn:El; [|done]. apply flag_load_latest in El.
    simplify_eq/=. by rewrite El, Hs.
Qed.

(** ** As annotated: the stop can be lost *)

(** The stop is over, the runner is in its loop and has seen the last store to
    [running_], which is its own. *)
Definition stop_lost (s : flags) : Prop :=
  rth s = RLoop ∧ qth s = QDone ∧
  ∃ x, last (hist (fm s) Running) = Some x ∧ m_val x = 1
    ∧ length (hist (fm s) Running) = S (seen (rv s) Running)
    ∧ (seen (m_view x) Running ≤ seen (rv s) Running)%nat.

Lemma stop_lost_step s s' : stop_lost s → flags_step Annotated s s' → stop_lost s'.
Proof.
  intros (Er & Eq & x & Hx & Hv & Hl & Hs) [[i|] Hc]; simpl in Hc.
  - unfold run_flags in Hc. rewrite Er in Hc. simpl in Hc. unfold load in Hc.
    destruct (hist (fm s) Running !! i) as [y|] eqn:Hy; [|done]. cbn in Hc.
    destruct (decide _) as [Hi|]; [|done]. cbn in Hc. injection Hc as <-.
    assert (i = seen (rv s) Running) as -> by (apply lookup_lt_Some in Hy; lia).
    rewrite last_lookup, Hl in Hx. simpl in Hx. simplify_eq. rewrite Hv. split_and!; [done|done|].
    exists x. simpl. rewrite last_lookup, Hl, fn_lookup_insert. split_and!; [done|done|lia|lia].
  - unfold request_stop_flags in Hc. by rewrite Eq in Hc.
Qed.

(** C13: with the memory orders of the source the stop can be lost for good: the
    runner's load of [stop_requested_] returns the old value although both
    stores of [request_stop] are made, and its store of [running_ = true] comes
    after the [false] of [request_stop].  From there on, whatever happens, the
    loop never ends, so [join] never returns. *)
Theorem stop_lost_as_annotated :
  ∃ s : flags, flags_reachable Annotated s ∧ qth s = QDone ∧ rth s = RLoop
    ∧ ∀ s', steps (flags_step Annotated) s s' → rth s' = RLoop.
Proof.
  destruct (play (flags_play Annotated) flags_init [StopperTurn; StopperTurn; RunnerTurn 0; RunnerTurn 0])
    as [s|] eqn:E; [|by vm_compute in E].
  exists s. assert (flags_reachable Annotated s) as Hr.
  { eapply play_steps; [|exact E]. intros a c b Hc. by exists c. }
  assert (stop_lost s) as Hl.
  { vm_compute in E. injection E as <-. split_and!; [done|done|]. eexists. split; [done|]. simpl. split_and!; lia. }
  split_and!; [done|apply Hl..|]. intros s' Hs.
  assert (stop_lost s') as Hl' by (eapply steps_invariant; [exact Hl|apply stop_lost_step|exact Hs]). apply Hl'.
Qed.

(** A stop requested before the loop is reached. *)
Lemma early_stop :
  ∃ s : flags, flags_reachable Interleaved s ∧ qth s = QDone ∧ rth s = RTest.
Proof.
  destruct (play (flags_play Interleaved) flags_init [StopperTurn; RunnerTurn 0; StopperTurn]) as [s|] eqn:E;
    [|by vm_compute in E].
  exists s. split; [eapply play_steps; [|exact E]; intros a c b Hc; by exists c|].
  vm_compute in E. by injection E as <-.
Qed.

Lemma stop_takes_effect_interleaved_witness :
  ∃ s : flags, flags_reachable Interleaved s ∧ qth s = QDone ∧ rth s = RTest
    ∧ ∀ i s', flags_play Interleaved s (RunnerTurn i) = Some s' → rth s' = RExit.
Proof.
  destruct early_stop as (s & Hr & Hq & Ht). exists s. split_and!; [exact Hr|exact Hq|exact Ht|].
  exact (proj2 (stop_takes_effect_interleaved s Hr Hq) Ht).
Defined.
