(* ===== verification/VyukovWeak.v ===== *)
(** The return ring of the memory pool under its memory orders
    ([memory_pool.cc], [MPMCRing::try_enqueue] and [try_dequeue]).

    [head_] and [tail_] are only accessed with relaxed operations; each cell's
    [sequence] is loaded with acquire and stored with release, and so is its
    [data].  The counters, sequences and data live in the memory of [RelAcq],
    so that a thread may read any of them stale.  What makes the ring correct
    is the order in which a cell's two fields are stored: the view invariant
    says that whoever has seen a sequence number has seen the data stored
    before it.  The erased ring, which keeps the latest values, satisfies the
    invariant of [PoolConc]. *)
From S2P Require Import Prelude Circ PoolLists PoolConc RelAcq.
Import Vyukov VyukovConc.

Inductive vloc := VTail | VHead | VSeq (j : nat) | VData (j : nat).

#[export] Instance vloc_eq_dec : EqDecision vloc.
Proof. solve_decision. Defined.

(** The ring in memory, with the ghost history of [PoolConc]. *)
Record vring := mkVring { vm : mem vloc; vlg : list Z; vouts : list (Z * Z) }.

Definition vcell (i : Z) : nat := Z.to_nat (Z.land i kMask).

Inductive vchoice := Enqueue (ptr : Z) | Dequeue | Read (i : nat) | Go.

(** The tests after the load of [cell.sequence]. *)
Definition enq_branch (seq ptr t : Z) : tstate :=
  let diff := to_signed64 (seq - t) in
  if diff <? 0 then EDone false else if negb (diff =? 0) then ELoad ptr else ECas ptr t.
Definition deq_branch (seq h : Z) : tstate :=
  let diff := to_signed64 (seq - (h +64 1)) in
  if diff <? 0 then DDone None else if negb (diff =? 0) then DLoad else DCas h.

(** [try_enqueue], from one access to the next. *)
Definition venqueue (w : vring) (t : tstate) (v : view vloc) (c : vchoice) : option (vring * tstate * view vloc) :=
  match t, c with
  | ELoad ptr, Read i => r ← load relaxed (vm w) v VTail i; Some (w, ESeq ptr r.1, r.2)
  | ESeq ptr p, Read i => r ← load acquire (vm w) v (VSeq (vcell p)) i; Some (w, enq_branch r.1 ptr p, r.2)
  | ECas ptr p, Go =>
      r ← cas relaxed (vm w) v VTail p (p +64 1);
      Some (mkVring r.1 (vlg w ++ [ptr]) (vouts w), EData ptr p, r.2)
  | ECas ptr p, Read i => r ← load relaxed (vm w) v VTail i; Some (w, ESeq ptr r.1, r.2)
  | EData ptr p, Go =>
      let r := store release (vm w) v (VData (vcell p)) ptr in
      Some (mkVring r.1 (vlg w) (vouts w), EPub ptr p, r.2)
  | EPub ptr p, Go =>
      let r := store release (vm w) v (VSeq (vcell p)) (p +64 1) in
      Some (mkVring r.1 (vlg w) (vouts w), EDone true, r.2)
  | _, _ => None
  end.

(** [try_dequeue]. *)
Definition vdequeue (w : vring) (t : tstate) (v : view vloc) (c : vchoice) : option (vring * tstate * view vloc) :=
  match t, c with
  | DLoad, Read i => r ← load relaxed (vm w) v VHead i; Some (w, DSeq r.1, r.2)
  | DSeq p, Read i => r ← load acquire (vm w) v (VSeq (vcell p)) i; Some (w, deq_branch r.1 p, r.2)
  | DCas p, Go =>
      r ← cas relaxed (vm w) v VHead p (p +64 1);
      Some (mkVring r.1 (vlg w) (vouts w), DData p, r.2)
  | DCas p, Read i => r ← load relaxed (vm w) v VHead i; Some (w, DSeq r.1, r.2)
  | DData p, Read i => r ← load acquire (vm w) v (VData (vcell p)) i; Some (w, DRel p r.1, r.2)
  | DRel p x, Go =>
      let r := store release (vm w) v (VSeq (vcell p)) (p +64 Capacity) in
      Some (mkVring r.1 (vlg w) (vouts w ++ [(p, x)]), DDone (Some x), r.2)
  | _, _ => None
  end.

Definition vadvance (w : vring) (t : tstate) (v : view vloc) (c : vchoice) : option (vring * tstate * view vloc) :=
  match c with
  | Enqueue ptr => if resting t then Some (w, ELoad ptr, v) else None
  | Dequeue => if resting t then Some (w, DLoad, v) else None
  | _ => match venqueue w t v c with Some r => Some r | None => vdequeue w t v c end
  end.

Record vstate := mkVs { vw : vring; vthr : gmap nat (tstate * view vloc) }.

(** Thread [i] takes a step; as in [PoolConc], no counter is reused. *)
Inductive vstep : vstate → vstate → Prop :=
| vstep_thread s i t v c w' t' v' :
    vthr s !! i = Some (t, v) → vadvance (vw s) t v c = Some (w', t', v') →
    Z.of_nat (length (vlg w')) + Capacity < W64 →
    vstep s (mkVs w' (<[i := (t', v')]> (vthr s))).

(** [buffer_[j].sequence] starts at [j], everything else at 0. *)
Definition vmem0 : mem vloc := mem_at (λ l, match l with VSeq j => Z.of_nat j | _ => 0 end).

Definition vinit (n : nat) : vstate :=
  mkVs (mkVring vmem0 [] []) (list_to_map ((λ i, (i, (Idle, bottom))) <$> seq 0 n)).

Definition vreachable (n : nat) (s : vstate) : Prop := steps vstep (vinit n) s.

(** The latest values. *)
Definition verase_ring (m : mem vloc) : MPMCRing :=
  mkRing ((λ j, mkCell (latest m (VSeq j)) (latest m (VData j))) <$> seq 0 256)
    (latest m VHead) (latest m VTail).
Definition verase (w : vring) : world := mkWorld (verase_ring (vm w)) (vlg w) (vouts w).
Definition verase_state (s : vstate) : cstate := mkC (verase (vw s)) (fst <$> vthr s).

(** One scheduled step. *)
Definition vplay1 (s : vstate) (a : nat * vchoice) : option vstate :=
  t ← vthr s !! a.1;
  r ← vadvance (vw s) t.1 t.2 a.2;
  if Z.of_nat (length (vlg r.1.1)) + Capacity <? W64
  then Some (mkVs r.1.1 (<[a.1 := (r.1.2, r.2)]> (vthr s))) else None.

Lemma vplay1_step s a s' : vplay1 s a = Some s' → vstep s s'.
Proof.
  unfold vplay1. intros H. destruct (vthr s !! a.1) as [[t v]|] eqn:Hi; [|done]. simpl in H.
  destruct (vadvance (vw s) t v a.2) as [[[w' t'] v']|] eqn:E; [|done]. simpl in H.
  destruct (Z.ltb_spec (Z.of_nat (length (vlg w')) + Capacity) W64); simplify_eq.
  by apply (vstep_thread s a.1 t v a.2).
Qed.

(** ** The erased ring *)

Lemma vcell_slot p : vcell p = slot 8 p.
Proof. apply mask8. Qed.

Lemma slot8_lt p : (slot 8 p < 256)%nat.
Proof. apply (slot_lt 8). lia. Qed.

Lemma verase_lookup m (j : nat) : (j < 256)%nat → buffer (verase_ring m) !!! j = mkCell (latest m (VSeq j)) (latest m (VData j)).
Proof.
  intros Hj. apply list_lookup_total_correct. unfold verase_ring. cbn [buffer].
  rewrite list_lookup_fmap, lookup_seq_lt by done. done.
Qed.

Lemma verase_seqat w p : seqat (verase w) p = latest (vm w) (VSeq (slot 8 p)).
Proof. unfold seqat. cbn [rg verase]. rewrite verase_lookup by apply slot8_lt. done. Qed.
Lemma verase_datat w p : datat (verase w) p = latest (vm w) (VData (slot 8 p)).
Proof. unfold datat. cbn [rg verase]. rewrite verase_lookup by apply slot8_lt. done. Qed.

(** Storing a cell's field is an update of the erased buffer. *)
Lemma verase_store m m' (p : Z) c :
  (∀ l, l ≠ VSeq (slot 8 p) → l ≠ VData (slot 8 p) → latest m' l = latest m l) →
  c = mkCell (latest m' (VSeq (slot 8 p))) (latest m' (VData (slot 8 p))) →
  verase_ring m' = put_cell (verase_ring m) p c.
Proof.
  intros Hl ->. unfold verase_ring, put_cell. cbn [buffer head tail]. rewrite mask8, (Hl VHead), (Hl VTail) by done. f_equal.
  apply list_eq. intros i. rewrite list_lookup_fmap. destruct (decide (i < 256)%nat) as [Hi|Hi].
  - rewrite lookup_seq_lt by done. cbn [fmap option_fmap option_map]. destruct (decide (i = slot 8 p)) as [->|Hne].
    + rewrite list_lookup_insert_eq; [done|]. rewrite length_fmap, length_seq. apply slot8_lt.
    + rewrite list_lookup_insert_ne by done. rewrite list_lookup_fmap, lookup_seq_lt by done. cbn [fmap option_fmap option_map].
      change (0 + i)%nat with i. rewrite (Hl (VSeq i)), (Hl (VData i)) by congruence. done.
  - rewrite lookup_seq_ge by lia. rewrite lookup_ge_None_2; [done|].
    rewrite length_insert, length_fmap, length_seq. lia.
Qed.

(** ** Sequence numbers *)

(** The [i]th sequence number of cell [j]: free for lap [i / 2] when [i] is
    even, filled in that lap when it is odd. *)
Definition seqval (j i : nat) : Z := Z.of_nat (i / 2) * 256 + Z.of_nat j + Z.of_nat (i mod 2).

Ltac halves :=
  repeat match goal with
  | |- context [(?a / 2)%nat] =>
      lazymatch goal with H : a = (2 * (a / 2) + a mod 2)%nat |- _ => fail | _ => idtac end;
      pose proof (Nat.div_mod_eq a 2); pose proof (Nat.mod_upper_bound a 2 ltac:(done))
  | H : context [(?a / 2)%nat] |- _ =>
      lazymatch goal with H' : a = (2 * (a / 2) + a mod 2)%nat |- _ => fail | _ => idtac end;
      pose proof (Nat.div_mod_eq a 2); pose proof (Nat.mod_upper_bound a 2 ltac:(done))
  end; lia.

Lemma seqval_lt j i i' : (i < i')%nat → seqval j i < seqval j i'.
Proof. unfold seqval. intros H. halves. Qed.

Lemma seqval_inj j i i' : seqval j i = seqval j i' → i = i'.
Proof.
  intros E. destruct (Nat.lt_trichotomy i i') as [H|[?|H]]; [|done|]; apply (seqval_lt j) in H; lia.
Qed.

Lemma slot8_mod p : 0 ≤ p → Z.of_nat (slot 8 p) = p mod 256.
Proof. intros Hp. unfold slot. change (2 ^ 8) with 256. pose proof (Z.mod_pos_bound p 256 eq_refl). lia. Qed.

(** A position is read off an even sequence number, and off an odd one less 1. *)
Lemma seqval_even p i : 0 ≤ p → seqval (slot 8 p) i = p → (i mod 2 = 0)%nat.
Proof.
  intros Hp E. unfold seqval in E. rewrite (slot8_mod p Hp) in E.
  pose proof (Nat.mod_upper_bound i 2 ltac:(done)). Z.div_mod_to_equations. lia.
Qed.
Lemma seqval_odd p i : 0 ≤ p → seqval (slot 8 p) i = p + 1 → (i mod 2 = 1)%nat.
Proof.
  intros Hp E. unfold seqval in E. rewrite (slot8_mod p Hp) in E.
  pose proof (Nat.mod_upper_bound i 2 ltac:(done)). Z.div_mod_to_equations. lia.
Qed.

Lemma seqval_fill p i : 0 ≤ p → seqval (slot 8 p) i = p → seqval (slot 8 p) (S i) = p + 1.
Proof. intros Hp E. pose proof (seqval_even p i Hp E). unfold seqval in *. halves. Qed.
Lemma seqval_free p i : 0 ≤ p → seqval (slot 8 p) i = p + 1 → seqval (slot 8 p) (S i) = p + 256.
Proof. intros Hp E. pose proof (seqval_odd p i Hp E). unfold seqval in *. halves. Qed.

(** ** The view invariant *)

(** Whoever has seen a sequence number has seen the data stored before it. *)
Definition vgood (v : view vloc) : Prop := ∀ j, (S (seen v (VSeq j)) / 2 ≤ seen v (VData j))%nat.

Definition sidx (m : mem vloc) (j : nat) : nat := pred (length (hist m (VSeq j))).
Definition didx (m : mem vloc) (j : nat) : nat := pred (length (hist m (VData j))).

Record minv (m : mem vloc) : Prop := {
  mi_seq : ∀ j i x, hist m (VSeq j) !! i = Some x → m_val x = seqval j i;
  mi_tail : ∀ i x, hist m VTail !! i = Some x → m_val x = Z.of_nat i;
  mi_head : ∀ i x, hist m VHead !! i = Some x → m_val x = Z.of_nat i;
  mi_view : ∀ l i x, hist m l !! i = Some x → inside m (m_view x) ∧ vgood (m_view x) ∧ seen (m_view x) l = i;
  mi_ord : unordered m = false
}.

(** [v] has seen sequence number [a] in the cell of position [p]. *)
Definition saw (v : view vloc) (p a : Z) : Prop :=
  ∃ i, seqval (slot 8 p) i = a ∧ (i ≤ seen v (VSeq (slot 8 p)))%nat.

Definition tsaw (m : mem vloc) (v : view vloc) (t : tstate) : Prop :=
  match t with
  | ECas _ p | EData _ p => saw v p p
  | EPub _ p => saw v p p ∧ seen v (VData (slot 8 p)) = didx m (slot 8 p)
      ∧ didx m (slot 8 p) = S (sidx m (slot 8 p) / 2)
  | DCas p | DData p | DRel p _ => saw v p (p + 1)
  | _ => True
  end.

Definition tview (m : mem vloc) (v : view vloc) (t : tstate) : Prop := inside m v ∧ vgood v ∧ tsaw m v t.

Lemma half_max a b : (S (Nat.max a b) / 2 = Nat.max (S a / 2) (S b / 2))%nat.
Proof. destruct (Nat.max_spec a b) as [[? ->]|[? ->]]; halves. Qed.

Lemma vgood_join a b v :
  vgood a → vgood b → (∀ l, seen v l = Nat.max (seen a l) (seen b l)) → vgood v.
Proof. intros Ha Hb Hs j. rewrite !Hs, half_max. specialize (Ha j). specialize (Hb j). lia. Qed.

(** Moving a view to message [i] of [l]: fine for anything but a sequence
    number whose data it has not seen. *)
Lemma vgood_see v l i :
  vgood v → (seen v l ≤ i)%nat → (∀ j, l = VSeq j → S i / 2 ≤ seen v (VData j))%nat → vgood (see v l i).
Proof.
  intros Hv Hle Hs j. rewrite !seen_see. specialize (Hv j).
  destruct (decide (l = VSeq j)) as [E|E], (decide (l = VData j)) as [E'|E'].
  - congruence.
  - by apply Hs.
  - subst l. lia.
  - done.
Qed.

Lemma vgood_bottom : vgood bottom.
Proof. intros j. done. Qed.

Lemma saw_mono v v' p a : (seen v (VSeq (slot 8 p)) ≤ seen v' (VSeq (slot 8 p)))%nat → saw v p a → saw v' p a.
Proof. intros Hle (i & E & Hi). exists i. split; [done|lia]. Qed.

(** ** Loads *)

Lemma vload_acquire m v l i a v' :
  minv m → inside m v → vgood v → load acquire m v l i = Some (a, v') →
  inside m v' ∧ vgood v' ∧ (∀ l', (seen v l' ≤ seen v' l')%nat) ∧ seen v' l = i
  ∧ ∃ x, hist m l !! i = Some x ∧ a = m_val x ∧ (seen v l ≤ i)%nat.
Proof.
  intros Hm Hin Hg Hl.
  assert (inside m v') as Hin'.
  { eapply tidy_load; [|exact Hin|exact Hl]. intros l' j y Hy. by apply (mi_view m Hm l' j). }
  unfold load in Hl. destruct (hist m l !! i) as [x|] eqn:Hx; [|done]. simpl in Hl.
  destruct (decide _) as [Hle|]; simplify_eq. destruct (mi_view m Hm l i x Hx) as (Hix & Hgx & Hself).
  assert (∀ l', seen (join (see v l i) (m_view x)) l' = Nat.max (seen v l') (seen (m_view x) l')) as Hs.
  { intros l'. change (Nat.max (seen (see v l i) l') (seen (m_view x) l') = Nat.max (seen v l') (seen (m_view x) l')).
    rewrite seen_see. destruct (decide (l = l')) as [<-|]; lia. }
  split_and!; [done| | | |by exists x].
  - by apply (vgood_join v (m_view x)).
  - intros l'. rewrite Hs. lia.
  - rewrite Hs. lia.
Qed.

Lemma vload_relaxed m v l i a v' :
  minv m → inside m v → vgood v → (∀ j, l ≠ VSeq j) → load relaxed m v l i = Some (a, v') →
  inside m v' ∧ vgood v' ∧ (∀ l', (seen v l' ≤ seen v' l')%nat)
  ∧ ∃ x, hist m l !! i = Some x ∧ a = m_val x.
Proof.
  intros Hm Hin Hg Hne Hl.
  assert (inside m v') as Hin'.
  { eapply tidy_load; [|exact Hin|exact Hl]. intros l' j y Hy. by apply (mi_view m Hm l' j). }
  unfold load in Hl. destruct (hist m l !! i) as [x|] eqn:Hx; [|done]. simpl in Hl.
  destruct (decide _) as [Hle|]; simplify_eq.
  split_and!; [done| | |by exists x].
  - apply vgood_see; [done|done|]. intros j ->. by destruct (Hne j).
  - intros l'. rewrite seen_see. destruct (decide (l = l')) as [<-|]; lia.
Qed.

(** ** What the latest values say *)

Lemma latest_at (m : mem vloc) v l : inside m v → ∃ x, hist m l !! pred (length (hist m l)) = Some x ∧ latest m l = m_val x.
Proof. intros H. destruct (latest_lookup m v l H) as (x & Hx & _ & E). by exists x. Qed.

Lemma latest_seq m v j : minv m → inside m v → latest m (VSeq j) = seqval j (sidx m j).
Proof. intros Hm H. destruct (latest_at m v (VSeq j) H) as (x & Hx & ->). by apply (mi_seq m Hm). Qed.

(** A view that saw the latest sequence number has seen the last message. *)
Lemma saw_last m v p a :
  minv m → inside m v → saw v p a → latest m (VSeq (slot 8 p)) = a →
  seen v (VSeq (slot 8 p)) = sidx m (slot 8 p).
Proof.
  intros Hm Hin (i & Ei & Hi) Ea. rewrite (latest_seq m v _ Hm Hin) in Ea.
  assert (i = sidx m (slot 8 p)) as -> by (apply (seqval_inj (slot 8 p)); congruence).
  specialize (Hin (VSeq (slot 8 p))). unfold sidx in *. lia.
Qed.

Lemma lap_position j n : (j < 256)%nat → slot 8 (Z.of_nat n * 256 + Z.of_nat j) = j.
Proof.
  intros Hj. unfold slot. change (2 ^ 8) with 256. rewrite Z.add_comm, Z_mod_plus_full, Z.mod_small by lia. lia.
Qed.

(** The last sequence number of a cell is that of a free position in the
    window, or that of a filled one. *)
Lemma seq_window w v j :
  winv (verase w) → minv (vm w) → inside (vm w) v → (j < 256)%nat →
  ∃ q, 0 ≤ q ∧ slot 8 q = j ∧
    (seqval j (sidx (vm w) j) = q ∧ q < latest (vm w) VHead + 256
     ∨ seqval j (sidx (vm w) j) = q + 1 ∧ q < latest (vm w) VTail).
Proof.
  intros Hw Hm Hin Hj. set (s := sidx (vm w) j). exists (Z.of_nat (s / 2) * 256 + Z.of_nat j).
  pose proof (lap_position j (s / 2) Hj) as Hs. set (q := Z.of_nat (s / 2) * 256 + Z.of_nat j) in *.
  assert (0 ≤ q) as Hq by (unfold q; lia). split_and!; [done|done|].
  assert (seqat (verase w) q = seqval j s) as Eq.
  { rewrite verase_seqat, Hs. by apply (latest_seq _ v). }
  pose proof (Nat.mod_upper_bound s 2 ltac:(done)). unfold seqval in *. fold q in Eq |- *.
  destruct (decide (s mod 2 = 0)%nat) as [E|E].
  - left. split; [lia|]. apply (w_room _ Hw q Hq). rewrite Eq. lia.
  - right. split; [lia|]. apply (w_ready _ Hw q Hq). rewrite Eq. lia.
Qed.

Lemma seqval_range w v j i x :
  winv (verase w) → minv (vm w) → inside (vm w) v → (j < 256)%nat →
  hist (vm w) (VSeq j) !! i = Some x → 0 ≤ m_val x < W64 ∧ m_val x = seqval j i ∧ (i ≤ sidx (vm w) j)%nat.
Proof.
  intros Hw Hm Hin Hj Hx. pose proof (mi_seq _ Hm j i x Hx) as E. pose proof (lookup_lt_Some _ _ _ Hx) as Hlt.
  assert (i ≤ sidx (vm w) j)%nat as Hi by (unfold sidx; lia). split_and!; [| |done|done].
  - rewrite E. unfold seqval. lia.
  - pose proof (w_seq _ Hw (Z.of_nat j)) as Hs. rewrite verase_seqat in Hs.
    assert (slot 8 (Z.of_nat j) = j) as Ej by (by apply (lap_position j 0)).
    rewrite Ej, (latest_seq _ v) in Hs by done. rewrite E.
    destruct (decide (i = sidx (vm w) j)) as [->|Hne]; [lia|].
    pose proof (seqval_lt j i (sidx (vm w) j) ltac:(lia)). lia.
Qed.

(** A stale sequence number cannot equal that of the position to claim. *)
Lemma enq_branch_inv w v ptr p i x :
  winv (verase w) → minv (vm w) → inside (vm w) v → 0 ≤ p ≤ latest (vm w) VTail →
  hist (vm w) (VSeq (slot 8 p)) !! i = Some x → (i ≤ seen v (VSeq (slot 8 p)))%nat →
  let t := enq_branch (m_val x) ptr p in
  tinv (verase w) t ∧ eown t = None ∧ down t = None ∧ tsaw (vm w) v t.
Proof.
  intros Hw Hm Hin Hp Hx Hi t. unfold t, enq_branch.
  destruct (Z.ltb_spec (to_signed64 (m_val x - p)) 0); [done|].
  destruct (Z.eqb_spec (to_signed64 (m_val x - p)) 0) as [E|]; [|done].
  destruct (seqval_range w v _ i x Hw Hm Hin (slot8_lt p) Hx) as (Hr & Ev & Hle).
  pose proof (w_bound _ Hw) as Hb. pose proof (w_head _ Hw) as Hh. simpl in Hb, Hh.
  apply signed_zero in E; [|done|lia]. rewrite Ev in E. split; [|split_and!; [done|done|by exists i]].
  split; [simpl; lia|]. intros Et. simpl in Et. rewrite verase_seqat, (latest_seq _ v) by done.
  destruct (decide (i = sidx (vm w) (slot 8 p))) as [<-|Hne]; [done|].
  pose proof (seqval_lt (slot 8 p) i (sidx (vm w) (slot 8 p)) ltac:(lia)) as Hlt.
  destruct (seq_window w v _ Hw Hm Hin (slot8_lt p)) as (q & Hq & Hs & [[Eq Hq']|[Eq Hq']]); [|lia].
  exfalso. apply slot8_eq in Hs. Z.div_mod_to_equations. lia.
Qed.

Lemma deq_branch_inv w v p i x :
  winv (verase w) → minv (vm w) → inside (vm w) v → 0 ≤ p ≤ latest (vm w) VHead →
  hist (vm w) (VSeq (slot 8 p)) !! i = Some x → (i ≤ seen v (VSeq (slot 8 p)))%nat →
  let t := deq_branch (m_val x) p in
  tinv (verase w) t ∧ eown t = None ∧ down t = None ∧ tsaw (vm w) v t.
Proof.
  intros Hw Hm Hin Hp Hx Hi t. unfold t, deq_branch.
  pose proof (w_bound _ Hw) as Hb. pose proof (w_head _ Hw) as Hh. pose proof (w_lap _ Hw) as Hlap. simpl in Hb, Hh, Hlap.
  rewrite (wrap64_small (p + 1)) by lia.
  destruct (Z.ltb_spec (to_signed64 (m_val x - (p + 1))) 0); [done|].
  destruct (Z.eqb_spec (to_signed64 (m_val x - (p + 1))) 0) as [E|]; [|done].
  destruct (seqval_range w v _ i x Hw Hm Hin (slot8_lt p) Hx) as (Hr & Ev & Hle).
  apply signed_zero in E; [|done|lia]. rewrite Ev in E. split; [|split_and!; [done|done|by exists i]].
  split; [simpl; lia|]. intros Et. simpl in Et. rewrite verase_seqat, (latest_seq _ v) by done.
  destruct (decide (i = sidx (vm w) (slot 8 p))) as [<-|Hne]; [done|].
  pose proof (seqval_lt (slot 8 p) i (sidx (vm w) (slot 8 p)) ltac:(lia)) as Hlt.
  destruct (seq_window w v _ Hw Hm Hin (slot8_lt p)) as (q & Hq & Hs & [[Eq Hq']|[Eq Hq']]);
    exfalso; apply slot8_eq in Hs; Z.div_mod_to_equations; lia.
Qed.

(** ** Steps *)

(** What a step of [t] does to the memory: nothing, or a message to a counter
    or to the cell it owns. *)
Definition vmoved (t : tstate) (m m' : mem vloc) : Prop :=
  m' = m ∨ ∃ l x, hist m' = <[l := hist m l ++ [x]]> (hist m) ∧
    match l with
    | VTail | VHead => True
    | VData j => ∃ p, eown t = Some p ∧ j = slot 8 p
    | VSeq j => ∃ p, (eown t = Some p ∨ down t = Some p) ∧ j = slot 8 p
    end.

(** No data is stored in cell [j] beyond its last sequence number, except by an
    enqueue that is about to publish it. *)
Definition settled (m : mem vloc) (j : nat) : Prop := didx m j = (S (sidx m j) / 2)%nat.
Definition staging (t : tstate) (j : nat) : Prop := match t with EPub _ p => slot 8 p = j | _ => False end.
Definition staged (t : tstate) (m : mem vloc) : nat → Prop := λ j, settled m j ∨ staging t j.

Definition vok (w : vring) (t : tstate) (w' : vring) (t' : tstate) (v' : view vloc) : Prop :=
  minv (vm w') ∧ tview (vm w') v' t' ∧ vmoved t (vm w) (vm w') ∧
  (∀ j, staged t (vm w) j → staged t' (vm w') j) ∧
  (tstep (verase w) t (verase w') t' ∨
   (w' = w ∧ tinv (verase w) t' ∧ eown t' = eown t ∧ down t' = down t)).

Lemma vsilent w t t' v' :
  minv (vm w) → tview (vm w) v' t' → tinv (verase w) t' → eown t' = eown t → down t' = down t →
  staging t = (λ _, False) → vok w t w t' v'.
Proof.
  intros ? ? ? ? ? Hn. split_and!; try done; [by left| |by right].
  intros j [?|Hs]; [by left|by rewrite Hn in Hs].
Qed.

Lemma idx_append m m' l x j :
  hist m' = <[l := hist m l ++ [x]]> (hist m) →
  (l ≠ VSeq j → sidx m' j = sidx m j) ∧ (l ≠ VData j → didx m' j = didx m j).
Proof.
  intros Eh. unfold sidx, didx. rewrite !(append_hist m m' l x Eh).
  split; intros Hne; by rewrite decide_False.
Qed.

(** Messages to other locations leave a cell settled. *)
Lemma settled_append m m' l x j :
  hist m' = <[l := hist m l ++ [x]]> (hist m) → l ≠ VSeq j → l ≠ VData j → settled m j → settled m' j.
Proof.
  intros Eh H1 H2. destruct (idx_append m m' l x j Eh) as [E1 E2]. unfold settled. by rewrite E1, E2.
Qed.

(** The value message [i] of [l] must have. *)
Definition right_value (l : vloc) (i : nat) (a : Z) : Prop :=
  match l with VTail | VHead => a = Z.of_nat i | VSeq j => a = seqval j i | VData _ => True end.

Lemma vminv_append m m' l x :
  minv m → hist m' = <[l := hist m l ++ [x]]> (hist m) → unordered m' = false →
  right_value l (length (hist m l)) (m_val x) →
  inside m' (m_view x) → vgood (m_view x) → seen (m_view x) l = length (hist m l) → minv m'.
Proof.
  intros Hm Eh Eo Hv Hin Hg Hs.
  assert (∀ l' i y, hist m' l' !! i = Some y → hist m l' !! i = Some y ∨ (l = l' ∧ i = length (hist m l) ∧ y = x)) as Hold.
  { intros l' i y Hy. rewrite (append_hist m m' l x Eh) in Hy. destruct (decide (l = l')) as [<-|]; [|by left].
    apply lookup_snoc_Some in Hy as [[_ Hy]|[-> <-]]; [by left|by right]. }
  split.
  - intros j i y [Hy|(-> & -> & ->)]%Hold; [by apply (mi_seq m Hm)|done].
  - intros i y [Hy|(-> & -> & ->)]%Hold; [by apply (mi_tail m Hm)|done].
  - intros i y [Hy|(-> & -> & ->)]%Hold; [by apply (mi_head m Hm)|done].
  - intros l' i y [Hy|(-> & -> & ->)]%Hold; [|done].
    destruct (mi_view m Hm l' i y Hy) as (? & ? & ?). split_and!; try done. by apply (append_inside m m' l x).
  - done.
Qed.

(** A releasing store by a thread that has seen the last message. *)
Lemma store_facts m v l a :
  minv m → inside m v → vgood v → S (seen v l) = length (hist m l) →
  (∀ j, l = VSeq j → S (length (hist m l)) / 2 ≤ seen v (VData j))%nat →
  right_value l (length (hist m l)) a →
  let r := store release m v l a in
  minv r.1 ∧ inside r.1 r.2 ∧ vgood r.2 ∧ hist r.1 = <[l := hist m l ++ [mkMsg a r.2]]> (hist m)
  ∧ seen r.2 l = length (hist m l) ∧ (∀ l', l ≠ l' → seen r.2 l' = seen v l')
  ∧ ∀ l', latest r.1 l' = if decide (l = l') then a else latest m l'.
Proof.
  intros Hm Hin Hg Hs Hd Ha r. set (x := mkMsg a r.2).
  assert (hist r.1 = <[l := hist m l ++ [x]]> (hist m)) as Eh by done.
  assert (inside r.1 r.2) as Hin' by by apply (append_see m r.1 l x).
  assert (vgood r.2) as Hg' by (apply vgood_see; [done|lia|done]).
  assert (seen r.2 l = length (hist m l)) as Hs'.
  { change (seen (see v l (length (hist m l))) l = length (hist m l)). by rewrite seen_see, decide_True. }
  split_and!; try done.
  - apply (vminv_append m r.1 l x); try done. unfold r. rewrite store_ordered by done. apply Hm.
  - intros l' Hne. change (seen (see v l (length (hist m l))) l' = seen v l'). by rewrite seen_see, decide_False.
  - intros l'. by apply (append_latest m r.1 l x).
Qed.

(** A relaxed compare-and-swap that claims the next position of a counter. *)
Lemma claim_facts m v l p m' v' :
  minv m → inside m v → vgood v → (l = VTail ∨ l = VHead) → 0 ≤ p → p + 1 < W64 →
  cas relaxed m v l p (p +64 1) = Some (m', v') →
  minv m' ∧ inside m' v' ∧ vgood v' ∧ latest m l = p
  ∧ (∃ x, hist m' = <[l := hist m l ++ [x]]> (hist m))
  ∧ (∀ l', l ≠ l' → seen v' l' = seen v l')
  ∧ ∀ l', latest m' l' = if decide (l = l') then p +64 1 else latest m l'.
Proof.
  intros Hm Hin Hg Hl Hp0 Hp Hcas.
  destruct (cas_success _ _ _ _ _ _ _ _ Hcas) as (x & Hx & Ex & Ev & Eh & _ & _ & Eo).
  change (acquires relaxed) with false in Ev. cbn iota in Ev.
  assert (hist m l !! pred (length (hist m l)) = Some x) as Hx' by by rewrite <- last_lookup.
  destruct (mi_view m Hm l _ x Hx') as (Hinx & Hgx & Hself). pose proof (Hin l) as Hlen.
  set (y := mkMsg _ _) in Eh.
  assert (m_view y = join (see bottom l (length (hist m l))) (m_view x)) as Ey by done.
  assert (∀ j, l ≠ VSeq j) as Hne by (destruct Hl as [-> | ->]; done).
  assert (inside m' (m_view y)) as Hiny.
  { assert (inside m bottom) as Hb. { intros l'. specialize (Hin l'). simpl. lia. }
    intros l'. rewrite Ey. pose proof (append_see m m' l y Eh bottom Hb l') as H1.
    pose proof (append_inside m m' l y Eh _ Hinx l') as H2. simpl in *. lia. }
  assert (right_value l (length (hist m l)) (m_val y)) as Hval.
  { change (m_val y) with (p +64 1). rewrite wrap64_small by lia.
    destruct Hl as [-> | ->]; [pose proof (mi_tail m Hm _ x Hx')|pose proof (mi_head m Hm _ x Hx')]; simpl in *; lia. }
  split_and!.
  - apply (vminv_append m m' l y); try done.
    + rewrite Eo. apply Hm.
    + apply (vgood_join (see bottom l (length (hist m l))) (m_view x)); [|done|by intros l'; rewrite Ey].
      apply vgood_see; [apply vgood_bottom|simpl; lia|]. intros j E. by destruct (Hne j).
    + rewrite Ey. change (Nat.max (seen (see bottom l (length (hist m l))) l) (seen (m_view x) l) = length (hist m l)).
      rewrite seen_see, decide_True by done. lia.
  - rewrite Ev. by apply (append_see m m' l y).
  - rewrite Ev. apply vgood_see; [done|lia|]. intros j E. by destruct (Hne j).
  - rewrite (latest_last m l x Hx). done.
  - by exists y.
  - intros l' Hn. rewrite Ev, seen_see, decide_False; done.
  - intros l'. by rewrite (append_latest m m' l y Eh).
Qed.

(** A store to a field of the cell of [p], on the erased ring. *)
Lemma verase_store_seq m m' p a :
  (∀ l, latest m' l = if decide (VSeq (slot 8 p) = l) then a else latest m l) →
  verase_ring m' = store_sequence (verase_ring m) p a.
Proof.
  intros Hl. unfold store_sequence. apply verase_store.
  - intros l Hne _. by rewrite Hl, decide_False.
  - rewrite !Hl, decide_True, decide_False by done. rewrite cell_at_slot, verase_lookup by apply slot8_lt. done.
Qed.
Lemma verase_store_data m m' p a :
  (∀ l, latest m' l = if decide (VData (slot 8 p) = l) then a else latest m l) →
  verase_ring m' = store_data (verase_ring m) p a.
Proof.
  intros Hl. unfold store_data. apply verase_store.
  - intros l _ Hne. by rewrite Hl, decide_False.
  - rewrite !Hl, decide_False, decide_True by done. rewrite cell_at_slot, verase_lookup by apply slot8_lt. done.
Qed.

Lemma verase_cells m m' :
  (∀ j, latest m' (VSeq j) = latest m (VSeq j)) → (∀ j, latest m' (VData j) = latest m (VData j)) →
  buffer (verase_ring m') = buffer (verase_ring m).
Proof. intros Hs Hd. unfold verase_ring. cbn [buffer]. apply list_fmap_ext. intros i j _. by rewrite Hs, Hd. Qed.

Ltac vsplit := unfold vok, tview, tsaw; split_and!.

Section Steps.
Context (w : vring) (v : view vloc).
Hypotheses (Hw : winv (verase w)) (Hm : minv (vm w)).

Lemma claim_tail_ok ptr p m' v' :
  tinv (verase w) (ECas ptr p) → tview (vm w) v (ECas ptr p) →
  cas relaxed (vm w) v VTail p (p +64 1) = Some (m', v') →
  vok w (ECas ptr p) (mkVring m' (vlg w ++ [ptr]) (vouts w)) (EData ptr p) v'.
Proof.
  intros Ht (Hin & Hg & Hsaw) Hc. pose proof Ht as [Hp _]. cbn [rg verase tail verase_ring] in Hp.
  pose proof (w_bound _ Hw) as Hb. cbn [rg verase tail verase_ring] in Hb.
  destruct (claim_facts (vm w) v VTail p m' v') as (Hm' & Hin' & Hg' & El & (x & Eh) & Hs & Hlat);
    [done|done|done|by left|lia|lia|done|].
  vsplit; [done|done|done| | | |left].
  - simpl in *. apply (saw_mono v); [|done]. by rewrite Hs.
  - right. by exists VTail, x.
  - intros j [Hj|[]]. left. by apply (settled_append (vm w) m' VTail x).
  - assert (verase (mkVring m' (vlg w ++ [ptr]) (vouts w)) =
      mkWorld (set_tail (rg (verase w)) (p +64 1)) (lg (verase w) ++ [ptr]) (outs (verase w))) as ->.
    { unfold verase. cbn [vm vlg vouts rg lg outs]. f_equal. unfold set_tail.
      rewrite <- (verase_cells (vm w) m') by (intros j; by rewrite Hlat).
      unfold verase_ring. cbn [buffer head tail]. by rewrite !Hlat. }
    by apply e_cas_ok.
Qed.

Lemma claim_head_ok p m' v' :
  tinv (verase w) (DCas p) → tview (vm w) v (DCas p) →
  cas relaxed (vm w) v VHead p (p +64 1) = Some (m', v') →
  vok w (DCas p) (mkVring m' (vlg w) (vouts w)) (DData p) v'.
Proof.
  intros Ht (Hin & Hg & Hsaw) Hc. pose proof Ht as [Hp _]. cbn [rg verase head verase_ring] in Hp.
  pose proof (w_bound _ Hw) as Hb. pose proof (w_head _ Hw) as Hh. cbn [rg verase tail head verase_ring] in Hb, Hh.
  destruct (claim_facts (vm w) v VHead p m' v') as (Hm' & Hin' & Hg' & El & (x & Eh) & Hs & Hlat);
    [done|done|done|by right|lia|lia|done|].
  vsplit; [done|done|done| | | |left].
  - simpl in *. apply (saw_mono v); [|done]. by rewrite Hs.
  - right. by exists VHead, x.
  - intros j [Hj|[]]. left. by apply (settled_append (vm w) m' VHead x).
  - assert (verase (mkVring m' (vlg w) (vouts w)) =
      mkWorld (set_head (rg (verase w)) (p +64 1)) (lg (verase w)) (outs (verase w))) as ->.
    { unfold verase. cbn [vm vlg vouts rg lg outs]. f_equal. unfold set_head.
      rewrite <- (verase_cells (vm w) m') by (intros j; by rewrite Hlat).
      unfold verase_ring. cbn [buffer head tail]. by rewrite !Hlat. }
    by apply d_cas_ok.
Qed.

Lemma store_data_ok ptr p :
  tinv (verase w) (EData ptr p) → tview (vm w) v (EData ptr p) → settled (vm w) (slot 8 p) →
  let r := store release (vm w) v (VData (vcell p)) ptr in
  vok w (EData ptr p) (mkVring r.1 (vlg w) (vouts w)) (EPub ptr p) r.2.
Proof.
  intros Ht (Hin & Hg & Hsaw) Hset r. unfold r. clear r. rewrite vcell_slot. set (j := slot 8 p) in *.
  pose proof Ht as (Hp & Hseq & _). rewrite verase_seqat in Hseq. fold j in Hseq.
  pose proof (saw_last _ v p p Hm Hin Hsaw Hseq) as Hlast. fold j in Hlast.
  pose proof (Hg j) as Hgj. pose proof (Hin (VData j)) as Hid. unfold settled, didx in Hset. fold j in Hset.
  assert (sidx (vm w) j mod 2 = 0)%nat as Heven.
  { apply (seqval_even p); [lia|]. fold j. by rewrite <- (latest_seq _ v). }
  destruct (store_facts (vm w) v (VData j) ptr Hm Hin Hg) as (Hm' & Hin' & Hg' & Eh & Hs & Hs' & Hlat);
    [rewrite Hlast in Hgj; lia|done|done|].
  set (r := store release (vm w) v (VData j) ptr) in *.
  assert (didx r.1 j = length (hist (vm w) (VData j)) ∧ sidx r.1 j = sidx (vm w) j) as [Ed Es].
  { unfold didx, sidx. rewrite !(append_hist (vm w) r.1 (VData j) _ Eh), decide_True, decide_False by done.
    rewrite length_app. simpl. lia. }
  vsplit; [done|done|done| | | | | |left].
  - apply (saw_mono v); [|done]. by rewrite Hs'.
  - fold j. cbn [vm]. by rewrite Hs, Ed.
  - fold j. cbn [vm]. rewrite Ed, Es. rewrite Hlast in Hgj. halves.
  - right. exists (VData j), (mkMsg ptr r.2). split; [done|]. by exists p.
  - intros j' [Hj|[]]. destruct (decide (j = j')) as [<-|Hne]; [by right|left].
    apply (settled_append (vm w) r.1 (VData j) _ j' Eh); congruence.
  - assert (verase (mkVring r.1 (vlg w) (vouts w)) =
      mkWorld (store_data (rg (verase w)) p ptr) (lg (verase w)) (outs (verase w))) as ->; [|constructor].
    unfold verase. cbn [vm vlg vouts rg lg outs]. f_equal. by apply verase_store_data.
Qed.

Lemma publish_ok ptr p :
  tinv (verase w) (EPub ptr p) → tview (vm w) v (EPub ptr p) →
  let r := store release (vm w) v (VSeq (vcell p)) (p +64 1) in
  vok w (EPub ptr p) (mkVring r.1 (vlg w) (vouts w)) (EDone true) r.2.
Proof.
  intros Ht (Hin & Hg & Hsaw & Hsd & Hdd) r. unfold r. clear r. rewrite vcell_slot. set (j := slot 8 p) in *.
  pose proof Ht as (Hp & Hseq & _). rewrite verase_seqat in Hseq. fold j in Hseq.
  pose proof (w_bound _ Hw) as Hb. simpl in Hp, Hb.
  pose proof (saw_last _ v p p Hm Hin Hsaw Hseq) as Hlast. fold j in Hlast.
  pose proof (Hin (VSeq j)) as His. unfold sidx in Hlast.
  assert (seqval j (sidx (vm w) j) = p) as Esv by (by rewrite <- (latest_seq _ v)).
  pose proof (seqval_even p (sidx (vm w) j) ltac:(lia) Esv) as Heven.
  assert (length (hist (vm w) (VSeq j)) = S (sidx (vm w) j)) as El by (unfold sidx; lia).
  destruct (store_facts (vm w) v (VSeq j) (p +64 1) Hm Hin Hg) as (Hm' & Hin' & Hg' & Eh & Hs & Hs' & Hlat).
  { lia. }
  { intros j' [= <-]. rewrite Hsd, Hdd, El. halves. }
  { simpl. rewrite El, wrap64_small by lia. symmetry. apply seqval_fill; [lia|done]. }
  vsplit; [done|done|done|done| | |left].
  - right. exists (VSeq j), (mkMsg (p +64 1) (store release (vm w) v (VSeq j) (p +64 1)).2).
    split; [done|]. exists p. split; [by left|done].
  - intros j' Hj. left. destruct (decide (j = j')) as [<-|Hne].
    + unfold settled. cbn [vm]. destruct (idx_append _ _ _ _ j Eh) as [_ ->]; [|done]. rewrite Hdd. unfold sidx at 2.
      rewrite (append_hist _ _ _ _ Eh), decide_True, length_app, El by done. simpl pred. halves.
    + destruct Hj as [Hj|Hj]; [|done]. apply (settled_append _ _ _ _ j' Eh); congruence.
  - set (r := store release (vm w) v (VSeq j) (p +64 1)) in *.
    assert (verase (mkVring r.1 (vlg w) (vouts w)) =
      mkWorld (store_sequence (rg (verase w)) p (p +64 1)) (lg (verase w)) (outs (verase w))) as ->; [|constructor].
    unfold verase. cbn [vm vlg vouts rg lg outs]. f_equal. by apply verase_store_seq.
Qed.

(** The data a dequeue loads is the data of its position. *)
Lemma load_data_ok p i a v' :
  tinv (verase w) (DData p) → tview (vm w) v (DData p) → settled (vm w) (slot 8 p) →
  load acquire (vm w) v (VData (vcell p)) i = Some (a, v') →
  vok w (DData p) w (DRel p a) v'.
Proof.
  intros Ht (Hin & Hg & Hsaw) Hset Hl. rewrite vcell_slot in Hl.
  pose proof Ht as (Hp & Hseq). pose proof Hseq as Hseq'. rewrite verase_seqat in Hseq'.
  pose proof (saw_last _ v p (p + 1) Hm Hin Hsaw Hseq') as Hlast.
  destruct (vload_acquire (vm w) v _ i a v' Hm Hin Hg Hl) as (Hin' & Hg' & Hmono & _ & x & Hx & -> & Hle).
  destruct (latest_at (vm w) v (VData (slot 8 p)) Hin) as (y & Hy & Ey).
  pose proof (Hg (slot 8 p)) as Hgj. rewrite Hlast in Hgj. unfold settled, didx in Hset.
  pose proof (lookup_lt_Some _ _ _ Hx).
  assert (i = pred (length (hist (vm w) (VData (slot 8 p))))) as -> by lia. simplify_eq.
  assert (m_val x = datat (verase w) p) as Ed by by rewrite verase_datat.
  vsplit; [done|done|done| |by left| |].
  - by apply (saw_mono v).
  - intros j [Hj|[]]. by left.
  - left. rewrite Ed. unfold datat. rewrite <- cell_at_slot. apply d_data.
Qed.

Lemma release_ok p x :
  tinv (verase w) (DRel p x) → tview (vm w) v (DRel p x) →
  let r := store release (vm w) v (VSeq (vcell p)) (p +64 Capacity) in
  vok w (DRel p x) (mkVring r.1 (vlg w) (vouts w ++ [(p, x)])) (DDone (Some x)) r.2.
Proof.
  intros Ht (Hin & Hg & Hsaw) r. unfold r. clear r. rewrite vcell_slot. set (j := slot 8 p) in *.
  pose proof Ht as (Hp & Hseq & _). rewrite verase_seqat in Hseq. fold j in Hseq.
  pose proof (w_bound _ Hw) as Hb. pose proof (w_head _ Hw) as Hh. simpl in Hp, Hb, Hh.
  pose proof (saw_last _ v p (p + 1) Hm Hin Hsaw Hseq) as Hlast. fold j in Hlast.
  pose proof (Hin (VSeq j)) as His. pose proof (Hg j) as Hgj.
  assert (seqval j (sidx (vm w) j) = p + 1) as Esv by (by rewrite <- (latest_seq _ v)).
  pose proof (seqval_odd p (sidx (vm w) j) ltac:(lia) Esv) as Hodd.
  assert (length (hist (vm w) (VSeq j)) = S (sidx (vm w) j)) as El by (unfold sidx; lia).
  destruct (store_facts (vm w) v (VSeq j) (p +64 Capacity) Hm Hin Hg) as (Hm' & Hin' & Hg' & Eh & Hs & Hs' & Hlat).
  { lia. }
  { intros j' [= <-]. rewrite Hlast in Hgj. rewrite El. pose proof (Nat.div_mod_eq (sidx (vm w) j) 2). halves. }
  { simpl. change Capacity with 256. rewrite El, wrap64_small by lia. symmetry. apply seqval_free; [lia|done]. }
  vsplit; [done|done|done|done| | |left].
  - right. exists (VSeq j), (mkMsg (p +64 Capacity) (store release (vm w) v (VSeq j) (p +64 Capacity)).2).
    split; [done|]. exists p. split; [by right|done].
  - intros j' [Hj|[]]. left. destruct (decide (j = j')) as [<-|Hne].
    + unfold settled in *. cbn [vm]. destruct (idx_append _ _ _ _ j Eh) as [_ ->]; [|done]. rewrite Hj. unfold sidx at 2.
      rewrite (append_hist _ _ _ _ Eh), decide_True, length_app, El by done. simpl pred.
      pose proof (Nat.div_mod_eq (sidx (vm w) j) 2). halves.
    + apply (settled_append _ _ _ _ j' Eh); congruence.
  - set (r := store release (vm w) v (VSeq j) (p +64 Capacity)) in *.
    assert (verase (mkVring r.1 (vlg w) (vouts w ++ [(p, x)])) =
      mkWorld (store_sequence (rg (verase w)) p (p +64 Capacity)) (lg (verase w)) (outs (verase w) ++ [(p, x)])) as ->;
      [|constructor].
    unfold verase. cbn [vm vlg vouts rg lg outs]. f_equal. by apply verase_store_seq.
Qed.

End Steps.

(** The condition on the thread's cell that the data accesses rely on. *)
Definition cell_settled (m : mem vloc) (t : tstate) : Prop :=
  match t with EData _ p | DData p => settled m (slot 8 p) | _ => True end.

(** A relaxed load of a counter returns at most its latest value. *)
Lemma load_counter w v l i a v' :
  minv (vm w) → inside (vm w) v → vgood v → (l = VTail ∨ l = VHead) →
  load relaxed (vm w) v l i = Some (a, v') → inside (vm w) v' ∧ vgood v' ∧ 0 ≤ a ≤ latest (vm w) l.
Proof.
  intros Hm Hin Hg Hl Hload.
  assert (∀ j, l ≠ VSeq j) as Hne by (destruct Hl as [-> | ->]; done).
  destruct (vload_relaxed (vm w) v l i a v' Hm Hin Hg Hne Hload) as (Hin' & Hg' & _ & x & Hx & ->).
  destruct (latest_at (vm w) v l Hin) as (y & Hy & ->). pose proof (lookup_lt_Some _ _ _ Hx).
  split_and!; [done|done|..]; destruct Hl as [-> | ->];
    rewrite ?(mi_tail _ Hm _ _ Hx), ?(mi_head _ Hm _ _ Hx), ?(mi_tail _ Hm _ _ Hy), ?(mi_head _ Hm _ _ Hy); lia.
Qed.

Lemma venqueue_ok w t v c w' t' v' :
  winv (verase w) → minv (vm w) → tinv (verase w) t → tview (vm w) v t → cell_settled (vm w) t →
  venqueue w t v c = Some (w', t', v') → vok w t w' t' v'.
Proof.
  intros Hw Hm Ht Hv Hset Hs. pose proof Hv as (Hin & Hg & Hsaw).
  destruct t as [|ptr|ptr p|ptr p|ptr p|ptr p| | | | | | |], c as [| |i|]; try done; cbn -[wrap64 load cas store] in Hs.
  - destruct (load relaxed (vm w) v VTail i) as [[a v1]|] eqn:El; [|done]. cbn [mbind option_bind fst snd] in Hs. injection Hs as <- <- <-.
    destruct (load_counter w v VTail i _ _ Hm Hin Hg ltac:(by left) El) as (? & ? & ?).
    by apply vsilent.
  - destruct (load acquire (vm w) v (VSeq (vcell p)) i) as [[a v1]|] eqn:El; [|done]. cbn [mbind option_bind fst snd] in Hs. injection Hs as <- <- <-. rewrite vcell_slot in El.
    destruct (vload_acquire _ _ _ _ _ _ Hm Hin Hg El) as (Hin' & Hg' & _ & Hsi & x & Hx & -> & _).
    destruct (enq_branch_inv w v1 ptr p i x Hw Hm Hin' Ht Hx) as (H1 & H2 & H3 & H4); [lia|]. by apply vsilent.
  - destruct (load relaxed (vm w) v VTail i) as [[a v1]|] eqn:El; [|done]. cbn [mbind option_bind fst snd] in Hs. injection Hs as <- <- <-.
    destruct (load_counter w v VTail i _ _ Hm Hin Hg ltac:(by left) El) as (? & ? & ?).
    by apply vsilent.
  - destruct (cas relaxed (vm w) v VTail p (p +64 1)) as [[m1 v1]|] eqn:El; [|done]. cbn [mbind option_bind fst snd] in Hs. injection Hs as <- <- <-.
    by apply (claim_tail_ok w v).
  - injection Hs as <- <- <-. by apply store_data_ok.
  - injection Hs as <- <- <-. by apply publish_ok.
Qed.

Lemma vdequeue_ok w t v c w' t' v' :
  winv (verase w) → minv (vm w) → tinv (verase w) t → tview (vm w) v t → cell_settled (vm w) t →
  vdequeue w t v c = Some (w', t', v') → vok w t w' t' v'.
Proof.
  intros Hw Hm Ht Hv Hset Hs. pose proof Hv as (Hin & Hg & Hsaw).
  destruct t as [| | | | | | | |p|p|p|p x|], c as [| |i|]; try done; cbn -[wrap64 load cas store] in Hs.
  - destruct (load relaxed (vm w) v VHead i) as [[a v1]|] eqn:El; [|done]. cbn [mbind option_bind fst snd] in Hs. injection Hs as <- <- <-.
    destruct (load_counter w v VHead i _ _ Hm Hin Hg ltac:(by right) El) as (? & ? & ?).
    by apply vsilent.
  - destruct (load acquire (vm w) v (VSeq (vcell p)) i) as [[a v1]|] eqn:El; [|done]. cbn [mbind option_bind fst snd] in Hs. injection Hs as <- <- <-. rewrite vcell_slot in El.
    destruct (vload_acquire _ _ _ _ _ _ Hm Hin Hg El) as (Hin' & Hg' & _ & Hsi & x & Hx & -> & _).
    destruct (deq_branch_inv w v1 p i x Hw Hm Hin' Ht Hx) as (H1 & H2 & H3 & H4); [lia|]. by apply vsilent.
  - destruct (load relaxed (vm w) v VHead i) as [[a v1]|] eqn:El; [|done]. cbn [mbind option_bind fst snd] in Hs. injection Hs as <- <- <-.
    destruct (load_counter w v VHead i _ _ Hm Hin Hg ltac:(by right) El) as (? & ? & ?).
    by apply vsilent.
  - destruct (cas relaxed (vm w) v VHead p (p +64 1)) as [[m1 v1]|] eqn:El; [|done]. cbn [mbind option_bind fst snd] in Hs. injection Hs as <- <- <-.
    by apply (claim_head_ok w v).
  - destruct (load acquire (vm w) v (VData (vcell p)) i) as [[a v1]|] eqn:El; [|done]. cbn [mbind option_bind fst snd] in Hs. injection Hs as <- <- <-.
    by eapply (load_data_ok w v).
  - injection Hs as <- <- <-. by apply release_ok.
Qed.

Lemma vadvance_ok w t v c w' t' v' :
  winv (verase w) → minv (vm w) → tinv (verase w) t → tview (vm w) v t → cell_settled (vm w) t →
  vadvance w t v c = Some (w', t', v') → vok w t w' t' v'.
Proof.
  intros Hw Hm Ht Hv Hset Hs.
  assert (c = Go ∨ (∃ i, c = Read i) → vok w t w' t' v') as Hrun.
  { intros Hc. unfold vadvance in Hs. destruct (venqueue w t v c) as [r|] eqn:E.
    - destruct Hc as [->|[i ->]]; simplify_eq; by eapply venqueue_ok.
    - destruct Hc as [->|[i ->]]; by eapply vdequeue_ok. }
  pose proof Hv as (Hin & Hg & _).
  destruct c as [ptr| |i|]; cbn in Hs; [| |by apply Hrun; eauto..];
    destruct (resting t) eqn:Er; [|done| |done]; injection Hs as <- <- <-; apply vsilent; done || (by destruct t).
Qed.

(** ** The invariant of the whole system *)
Record vinv (s : vstate) : Prop := {
  v_erased : cinv (verase_state s);
  v_mem : minv (vm (vw s));
  v_thr : ∀ i t v, vthr s !! i = Some (t, v) → tview (vm (vw s)) v t;
  v_cells : ∀ j, settled (vm (vw s)) j ∨ ∃ i t v, vthr s !! i = Some (t, v) ∧ staging t j
}.

Lemma erased_lookup s i t v : vthr s !! i = Some (t, v) → thr (verase_state s) !! i = Some t.
Proof. intros H. simpl. by rewrite lookup_fmap, H. Qed.

(** An enqueue about to publish owns its cell. *)
Lemma staging_alone s i j t u v v' q c :
  cinv (verase_state s) → i ≠ j → vthr s !! i = Some (t, v) → vthr s !! j = Some (u, v') →
  eown t = Some q ∨ down t = Some q → staging u c → slot 8 q ≠ c.
Proof.
  intros Hc Hij Hi Hj Hq Hu E. apply erased_lookup in Hi, Hj.
  destruct (c_apart _ Hc i j t u Hij Hi Hj q) as [Hap _].
  pose proof (c_thread _ Hc i t Hi) as Ht. pose proof (c_thread _ Hc j u Hj) as Hut.
  destruct u as [| | | | |ptr p| | | | | | |]; try done. simpl in Hu. subst c.
  destruct Hut as (Hp & Hsp & _).
  pose proof (seqat_slot (wd (verase_state s)) q p E) as Es. rewrite Hsp in Es.
  apply slot8_eq in E. destruct Hq as [Hq|Hq].
  - apply Hap in Hq as Hne. assert (seqat (wd (verase_state s)) q = q) as Eq.
    { destruct t; simplify_eq/=; naive_solver. }
    apply Hne. simpl. f_equal. congruence.
  - assert (seqat (wd (verase_state s)) q = q + 1) as Eq.
    { destruct t; simplify_eq/=; naive_solver. }
    rewrite Eq in Es. subst p. Z.div_mod_to_equations. lia.
Qed.

(** Another thread's view survives a step. *)
Lemma tview_moved t m m' v u :
  vmoved t m m' → (∀ q c, eown t = Some q ∨ down t = Some q → staging u c → slot 8 q ≠ c) →
  tview m v u → tview m' v u.
Proof.
  intros [->|(l & x & Eh & Hl)] Hap (Hin & Hg & Hs); [done|].
  split; [by apply (append_inside m m' l x)|]. split; [done|].
  destruct u as [| | | | |ptr p| | | | | | |]; try done. simpl in *. destruct Hs as (Hsaw & Hd & Hdd).
  destruct (idx_append m m' l x (slot 8 p) Eh) as [Es Ed].
  rewrite Es, Ed; [done|..].
  - intros ->. destruct Hl as (q & Hq & E). by apply (Hap q (slot 8 p)); auto.
  - intros ->. destruct Hl as (q & Hq & E). by apply (Hap q (slot 8 p)); auto.
Qed.

Lemma mover_settled s i t v : vinv s → vthr s !! i = Some (t, v) → cell_settled (vm (vw s)) t.
Proof.
  intros Hv Hi.
  assert (∀ q, (eown t = Some q ∨ down t = Some q) → (∀ c, ¬ staging t c) → settled (vm (vw s)) (slot 8 q)) as H.
  { intros q Hq Hns. destruct (v_cells _ Hv (slot 8 q)) as [?|(j & u & v' & Hj & Hu)]; [done|].
    destruct (decide (i = j)) as [<-|Hij]; [simplify_eq; by destruct (Hns _ Hu)|].
    by destruct (staging_alone s i j t u v v' q _ (v_erased _ Hv) Hij Hi Hj Hq Hu). }
  destruct t; try done; simpl; apply H; simpl; auto.
Qed.

Lemma vstep_inv s s' : vinv s → vstep s s' → vinv s'.
Proof.
  intros Hv Hs. destruct Hs as [s i t v c w' t' v' Hi Hadv Hb].
  pose proof (mover_settled s i t v Hv Hi) as Hset. pose proof (staging_alone s i) as Hal.
  destruct Hv as [Hc Hm Ht Hcells]. pose proof (erased_lookup _ _ _ _ Hi) as Hi'.
  destruct (vadvance_ok _ _ _ _ _ _ _ (c_world _ Hc) Hm (c_thread _ Hc i t Hi') (Ht _ _ _ Hi) Hset Hadv)
    as (Hm' & Hv' & Hmv & Hst & Hcase).
  assert (verase_state (mkVs w' (<[i := (t', v')]> (vthr s))) = mkC (verase w') (<[i := t']> (thr (verase_state s)))) as Ee.
  { unfold verase_state. cbn [vw vthr thr]. by rewrite fmap_insert. }
  split; [rewrite Ee|done|..]; cbn [vw vthr].
  - destruct Hcase as [Htst|(-> & Ht' & Ep & Ec)].
    + eapply vyukov_cstep_inv; [exact Hc|]. by apply (cstep_thread (verase_state s) i t).
    + by apply (vyukov_cinv_quiet (verase_state s) i t).
  - intros j u x Hj. apply lookup_insert_Some in Hj as [[<- [= <- <-]]|[Hne Hj]]; [done|].
    apply (tview_moved t (vm (vw s))); [done| |by apply (Ht j)].
    intros q d Hq Hu. by apply (Hal j t u v x q d Hc Hne Hi Hj).
  - intros j. assert (staged t' (vm w') j → settled (vm w') j ∨
      ∃ i0 t0 v0, <[i:=(t', v')]> (vthr s) !! i0 = Some (t0, v0) ∧ staging t0 j) as Hfin.
    { intros [?|?]; [by left|right]. exists i, t', v'. by rewrite lookup_insert_eq. }
    destruct (Hcells j) as [Hj|(k & u & x & Hk & Hu)]; [apply Hfin, Hst; by left|].
    destruct (decide (i = k)) as [<-|Hne]; [simplify_eq; apply Hfin, Hst; by right|].
    right. exists k, u, x. by rewrite lookup_insert_ne.
Qed.

Lemma vinit_inv n : vinv (vinit n).
Proof.
  assert (∀ i t v, vthr (vinit n) !! i = Some (t, v) → t = Idle ∧ v = bottom) as Hidle.
  { intros i t v H. apply elem_of_list_to_map_2 in H.
    apply list_elem_of_fmap in H as (? & ? & _). by simplify_eq. }
  destruct (tidy_init (L:=vloc) (λ l, match l with VSeq j => Z.of_nat j | _ => 0 end)) as [Htidy Hin].
  assert (verase_state (vinit n) = cinit n) as E.
  { unfold verase_state, cinit. f_equal. cbn [vthr vinit].
    rewrite <- list_to_map_fmap. f_equal. by rewrite <- list_fmap_compose. }
  split.
  - rewrite E. apply vyukov_cinit_inv.
  - split; cbn [vm vw vinit].
    + intros j i x Hx. apply list_lookup_singleton_Some in Hx as [-> <-]. unfold seqval. simpl. lia.
    + intros i x Hx. by apply list_lookup_singleton_Some in Hx as [-> <-].
    + intros i x Hx. by apply list_lookup_singleton_Some in Hx as [-> <-].
    + intros l i x Hx. apply list_lookup_singleton_Some in Hx as [-> <-].
      split_and!; [exact Hin|apply vgood_bottom|done].
    + done.
  - intros i t v Hi. apply Hidle in Hi as [-> ->]. split_and!; [exact Hin|apply vgood_bottom|done].
  - intros j. by left.
Qed.

Lemma vreachable_inv n s : vreachable n s → vinv s.
Proof. intros H. eapply steps_invariant; [apply vinit_inv|apply vstep_inv|done]. Qed.

(** C7: the return ring with the memory orders of the source, relaxed head and
    tail included: every position is dequeued at most once, a finished dequeue
    got the value whose enqueue claimed that position, at most 256 values are
    outstanding, and no store is made by a thread that has not seen the last
    one. *)
Theorem weak_vyukov_exactly_once (n : nat) (s : vstate) :
  vreachable n s →
  NoDup (vouts (vw s)).*1
  ∧ (∀ p x, (p, x) ∈ vouts (vw s) → 0 ≤ p < latest (vm (vw s)) VHead ∧ vlg (vw s) !! Z.to_nat p = Some x)
  ∧ latest (vm (vw s)) VTail ≤ latest (vm (vw s)) VHead + 256
  ∧ unordered (vm (vw s)) = false.
Proof.
  intros Hr. apply vreachable_inv in Hr as [[Hw _ _ [Ho Hn _ _ _]] Hm _ _]. split_and!.
  - exact Hn.
  - intros p x Hin. destruct (Ho p x Hin) as (? & ? & _). done.
  - apply (w_lap _ Hw).
  - apply Hm.
Qed.

(** ** A concrete execution

    Thread 0 enqueues 7 while thread 1, with a stale sequence number, first
    finds the ring empty; then it takes 7. *)
Definition vdemo_schedule : list (nat * vchoice) :=
  let e := λ c, (0%nat, c) in let d := λ c, (1%nat, c) in
  [e (Enqueue 7); e (Read 0); e (Read 0); e Go; e Go; e Go;
   d Dequeue; d (Read 0); d (Read 0);
   d Dequeue; d (Read 0); d (Read 1); d Go; d (Read 1); d Go].

Lemma vdemo_run :
  ∃ s : vstate, vreachable 2 s ∧ vouts (vw s) = [(0, 7)] ∧ fst <$> vthr s !! 1%nat = Some (DDone (Some 7)).
Proof.
  destruct (play vplay1 (vinit 2) vdemo_schedule) as [s|] eqn:E; [|by vm_compute in E].
  exists s. split.
  - eapply play_steps; [apply vplay1_step|exact E].
  - vm_compute in E. injection E as <-. done.
Qed.

Lemma weak_vyukov_exactly_once_witness :
  ∃ s : vstate, vreachable 2 s ∧ vouts (vw s) = [(0, 7)] ∧ vlg (vw s) !! 0%nat = Some 7.
Proof.
  destruct vdemo_run as (s & Hr & Ho & _). exists s. split; [exact Hr|]. split; [exact Ho|].
  apply (proj1 (proj2 (weak_vyukov_exactly_once 2 s Hr)) 0 7). rewrite Ho. by apply list_elem_of_singleton.
Defined.
