(* ===== verification/MutexWeak.v ===== *)
(** [AffinityMutex] under its memory orders ([affinity_mutex.h], [unlock] in
    [worker.cc]).

    The word [state_] lives in the memory of [RelAcq], and the fields of the
    waiter node of a coroutine are plain memory: it writes them before it pushes
    the node with a releasing compare-and-swap, and [unlock] reads them.
    [unlock] loads [state_] with relaxed order, so it never synchronises with the
    push.  [unlock_order] is the order of that load and of the reload after a
    failed compare-and-swap; it is [relaxed] in the source. *)
From S2P Require Import Prelude Waiters Mutex RelAcq.

Inductive mutex_word := StateWord.

#[export] Instance mutex_word_eq_dec : EqDecision mutex_word.
Proof. solve_decision. Defined.

Section Machine.
Context (unlock_order : order).

(** The node of coroutine [i], at an even address. *)
Definition node_addr (i : nat) : Z := 2 * (Z.of_nat i + 1).
Definition node_owner (a : Z) : nat := Z.to_nat (a / 2 - 1).

Record wmutex := mkWm {
  xm : mem mutex_word;
  nexts : gmap nat Z;                        (* the [next] field of each node *)
  xco : gmap nat (mstate * view mutex_word)
}.

Inductive mchoice := Read (i : nat) | Go.

(** [co_lock]: [await_ready] and [await_suspend].  The result is the memory, the
    node links, the next state and the view. *)
Definition lock_step (s : wmutex) (i : nat) (t : mstate) (v : view mutex_word) (c : mchoice) :
    option (mem mutex_word * gmap nat Z * mstate * view mutex_word) :=
  match t, c with
  | MIdle, Go =>
      r ← cas acquire (xm s) v StateWord 0 kLockedFlag; Some (r.1, nexts s, MHeld, r.2)
  | MIdle, Read j =>
      r ← load relaxed (xm s) v StateWord j;
      if r.1 =? 0 then None else Some (xm s, nexts s, MSuspend, r.2)
  | MSuspend, Read j =>
      let a := touch (xm s) v true i 0 in
      r ← load acquire a.1 a.2 StateWord j;
      Some (a.1, <[i := 0]> (nexts s), MTest r.1, r.2)
  | MTest old, Go =>
      if old =? 0 then
        r ← cas acquire (xm s) v StateWord 0 kLockedFlag; Some (r.1, nexts s, MHeld, r.2)
      else
        let a := touch (xm s) v true i 0 in
        Some (a.1, <[i := clear_flag old]> (nexts s), MCas old, a.2)
  | MTest old, Read j =>
      if old =? 0 then
        r ← load relaxed (xm s) v StateWord j;
        if r.1 =? 0 then None else Some (xm s, nexts s, MTest r.1, r.2)
      else None
  | MCas old, Go =>
      r ← cas release (xm s) v StateWord old (Z.lor (node_addr i) kLockedFlag);
      Some (r.1, nexts s, MSuspended, r.2)
  | MCas old, Read j =>
      r ← load acquire (xm s) v StateWord j; Some (xm s, nexts s, MTest r.1, r.2)
  | _, _ => None
  end.

(** [unlock], up to the wake-up. *)
Definition unlock_step (s : wmutex) (t : mstate) (v : view mutex_word) (c : mchoice) :
    option (mem mutex_word * gmap nat Z * mstate * view mutex_word) :=
  match t, c with
  | MHeld, Read j =>
      r ← load unlock_order (xm s) v StateWord j; Some (xm s, nexts s, MUnlock r.1, r.2)
  | MUnlock old, Go =>
      let w := extract_waiters old in
      if w =? 0 then Some (xm s, nexts s, MUnlockCas old 0 0, v)
      else
        let a := touch (xm s) v false (node_owner w) 0 in
        next ← nexts s !! node_owner w;
        Some (a.1, nexts s, MUnlockCas old (unlock_word next) w, a.2)
  | MUnlockCas old new w, Go =>
      r ← cas release (xm s) v StateWord old new; Some (r.1, nexts s, MWake w, r.2)
  | MUnlockCas old new w, Read j =>
      r ← load unlock_order (xm s) v StateWord j; Some (xm s, nexts s, MUnlock r.1, r.2)
  | MWake w, Go => if w =? 0 then Some (xm s, nexts s, MIdle, v) else None
  | _, _ => None
  end.

(** One step of coroutine [i].  The wake-up reads the waiter's node and hands
    the coroutine over, which synchronises with it. *)
Definition wmutex_play (s : wmutex) (x : nat * mchoice) : option wmutex :=
  p ← xco s !! x.1;
  match lock_step s x.1 p.1 p.2 x.2, unlock_step s p.1 p.2 x.2, p.1 with
  | Some (m, nx, t, v), _, _ | None, Some (m, nx, t, v), _ => Some (mkWm m nx (<[x.1 := (t, v)]> (xco s)))
  | None, None, MWake w =>
      let a := touch (xm s) p.2 false (node_owner w) 0 in
      q ← xco s !! node_owner w;
      Some (mkWm a.1 (nexts s) (<[node_owner w := (MHeld, join q.2 a.2)]> (<[x.1 := (MIdle, a.2)]> (xco s))))
  | _, _, _ => None
  end.

Definition wmutex_init (n : nat) : wmutex :=
  mkWm mem_init ∅ (list_to_map ((λ i, (i, (MIdle, bottom))) <$> seq 0 n)).

Definition wmutex_step (s s' : wmutex) : Prop := ∃ x, wmutex_play s x = Some s'.
Definition wmutex_reachable (n : nat) (s : wmutex) : Prop := steps wmutex_step (wmutex_init n) s.

End Machine.

(** Coroutine 0 takes the lock, 1 queues up, 0 unlocks and wakes 1. *)
Definition handover : list (nat * mchoice) :=
  [(0%nat, Go); (1%nat, Read 1); (1%nat, Read 1); (1%nat, Go); (1%nat, Go);
   (0%nat, Read 2); (0%nat, Go); (0%nat, Go); (0%nat, Go)].

(** The plain hand-over of the lock is a data race as written: [unlock] reads
    the fields of the waiter's node, which the waiter wrote, after a relaxed
    load of [state_].  With an acquiring load the same hand-over is ordered. *)
Theorem mutex_handover_races :
  (∃ s, wmutex_reachable relaxed 2 s ∧ raced (xm s) = true
     ∧ fst <$> xco s !! 0%nat = Some MIdle ∧ fst <$> xco s !! 1%nat = Some MHeld)
  ∧ (∃ s, wmutex_reachable acquire 2 s ∧ raced (xm s) = false
     ∧ fst <$> xco s !! 0%nat = Some MIdle ∧ fst <$> xco s !! 1%nat = Some MHeld).
Proof.
  split.
  - destruct (play (wmutex_play relaxed) (wmutex_init 2) handover) as [s|] eqn:E; [|by vm_compute in E].
    exists s. split; [eapply play_steps; [|exact E]; intros a c b Hc; by exists c|].
    vm_compute in E. by injection E as <-.
  - destruct (play (wmutex_play acquire) (wmutex_init 2) handover) as [s|] eqn:E; [|by vm_compute in E].
    exists s. split; [eapply play_steps; [|exact E]; intros a c b Hc; by exists c|].
    vm_compute in E. by injection E as <-.
Qed.
