(* ===== verification/RingSingle.v ===== *)
(** [MPMCRing] as the queues of a worker use it: any number of producers and
    the worker as the only consumer ([mpmc_ring.h], [enqueue_bulk] and
    [dequeue_bulk]; [ring_work_queue.h] and [affine_work_queue.cc] call them).

    Under the memory orders of the source, over the memory of [RelAcq].  The
    single consumer copies the slots first and then stores [cons_.head] and
    [cons_.tail], without a compare-and-swap.  To the producers it looks like a
    consumer of [RingWeak] that is about to reserve while it copies, so their
    part of the invariant, and its preservation, are those of [RingWeak]. *)
From S2P Require Import Prelude Circ Rings RingConc RelAcq RingWeak.
Import Mpmc.

Section Machine.
Context {T : Type} `{!Inhabited T}.

(** Where [dequeue_bulk] is: about to load [cons_.head], about to load
    [prod_.tail], copying, about to store [cons_.head], about to store
    [cons_.tail], returned. *)
Inductive sstate :=
| SIdle
| SLoad (n : Z)
| SHead (n h : Z)
| SCopy (n h : Z) (acc : list T)
| SStoreHead (n h : Z) (acc : list T)
| SStoreTail (n h : Z) (acc : list T)
| SDone (h : Z) (acc : list T).

Definition sresting (t : sstate) : bool := match t with SIdle | SDone _ _ => true | _ => false end.

(** [dequeue_bulk], from one access to the next. *)
Definition single_step (w : wring T) (t : sstate) (v : view counter) (c : choice T) :
    option (wring T * sstate * view counter) :=
  match t, c with
  | SLoad n, Read i =>
      r ← load acquire (mm w) v ConsHead i; Some (w, SHead n r.1, r.2)
  | SHead n h, Read i =>
      r ← load acquire (mm w) v ProdTail i;
      let n' := Z.min n (r.1 -64 h) in
      Some (w, if n' =? 0 then SDone 0 [] else SCopy n' h [], r.2)
  | SCopy n h acc, Go =>
      let i := Z.of_nat (length acc) in
      if i <? n then
        x ← slots w !! cell w (h + i);
        let r := touch (mm w) v false (cell w (h + i)) (h + i) in
        Some (with_mem w r.1, SCopy n h (acc ++ [x]), r.2)
      else Some (w, SStoreHead n h acc, v)
  | SStoreHead n h acc, Go =>
      let r := store release (mm w) v ConsHead (h +64 n) in
      Some (mkWring r.1 (wcapacity w) (wmask w) (slots w) (wlg w) (wgrants w ++ [(h, n)]),
            SStoreTail n h acc, r.2)
  | SStoreTail n h acc, Go =>
      let r := store release (mm w) v ConsTail (h +64 n) in Some (with_mem w r.1, SDone h acc, r.2)
  | _, Dequeue n => if sresting t && (0 <=? n) then Some (w, SLoad n, v) else None
  | _, _ => None
  end.

(** The calls of a producer. *)
Definition producer_step (w : wring T) (t : tstate T) (v : view counter) (c : choice T) :
    option (wring T * tstate T * view counter) :=
  match c with
  | Enqueue objs => if resting t then Some (w, PLoad objs (Z.of_nat (length objs)), v) else None
  | _ => enqueue_step w t v c
  end.

(** The ring, the producers, the consumer, and what it has received so far. *)
Record single := mkSingle {
  sw : wring T; sprod : gmap nat (tstate T * view counter);
  scons : sstate; scv : view counter; srecv : list T
}.

(** What a step from [t] to [t'] hands to the caller. *)
Definition delivered (t t' : sstate) : list T :=
  match t, t' with SStoreTail _ _ _, SDone _ acc => acc | _, _ => [] end.

Inductive single_move : single → single → Prop :=
| move_producer s i t v c w' t' v' :
    sprod s !! i = Some (t, v) → producer_step (sw s) t v c = Some (w', t', v') →
    Z.of_nat (length (wlg w')) < W64 →
    single_move s (mkSingle w' (<[i := (t', v')]> (sprod s)) (scons s) (scv s) (srecv s))
| move_consumer s c w' t' v' :
    single_step (sw s) (scons s) (scv s) c = Some (w', t', v') →
    single_move s (mkSingle w' (sprod s) t' v' (srecv s ++ delivered (scons s) t')).

Definition single_init (k : Z) (m : nat) : single :=
  mkSingle (ww (winit k 0)) (list_to_map ((λ i, (i, (Idle, bottom))) <$> seq 1 m)) SIdle bottom [].

Definition single_reachable (k : Z) (m : nat) (s : single) : Prop := steps single_move (single_init k m) s.

(** The consumer as a thread of [RingConc], under number 0. *)
Definition as_mc (t : sstate) : tstate T :=
  match t with
  | SIdle => Idle
  | SLoad n => CLoad n
  | SHead n h => CHead n h
  | SCopy n h _ | SStoreHead n h _ => CCas n h
  | SStoreTail n h acc => CStore n h acc
  | SDone h acc => CDone h acc
  end.

Definition erase_single (s : single) : cstate T :=
  mkC (erase (sw s)) (<[0%nat := as_mc (scons s)]> (fst <$> sprod s)).

(** One scheduled step: [None] is the consumer. *)
Definition single_play (s : single) (a : option nat * choice T) : option single :=
  match a.1 with
  | Some i =>
      t ← sprod s !! i;
      r ← producer_step (sw s) t.1 t.2 a.2;
      if Z.of_nat (length (wlg r.1.1)) <? W64
      then Some (mkSingle r.1.1 (<[i := (r.1.2, r.2)]> (sprod s)) (scons s) (scv s) (srecv s)) else None
  | None =>
      r ← single_step (sw s) (scons s) (scv s) a.2;
      Some (mkSingle r.1.1 (sprod s) r.1.2 r.2 (srecv s ++ delivered (scons s) r.1.2))
  end.

Lemma single_play_move s a s' : single_play s a = Some s' → single_move s s'.
Proof.
  destruct a as [[i|] c]; unfold single_play; cbn [fst snd]; intros H.
  - destruct (sprod s !! i) as [[t v]|] eqn:Hi; [|done]. cbn in H.
    destruct (producer_step (sw s) t v c) as [[[w' t'] v']|] eqn:E; [|done]. cbn in H.
    destruct (Z.ltb_spec (Z.of_nat (length (wlg w'))) W64); simplify_eq. by eapply move_producer.
  - destruct (single_step _ _ _ _) as [[[w' t'] v']|] eqn:E; [|done]. cbn in H. simplify_eq. by eapply move_consumer.
Qed.

End Machine.

Arguments sstate : clear implicits.
Arguments single : clear implicits.

Section Invariant.
Context {T : Type} `{!Inhabited T} (k : Z) (Hk : 0 ≤ k ≤ 63).
Implicit Types (s : single T) (w : wring T) (t u : tstate T) (v : view counter).

Local Notation smem s := (mm (sw s)).

(** The states of a thread that only produces. *)
Definition producing t : Prop :=
  match t with
  | Idle | PLoad _ _ | PHead _ _ _ | PCas _ _ _ | PWrite _ _ _ _ | PWait _ _ | PStore _ _ | PDone _ => True
  | _ => False
  end.

(** How far [cons_.head] is ahead of [cons_.tail]. *)
Definition ahead (t : sstate T) : Z := match t with SStoreTail n _ _ => n | _ => 0 end.

(** What the consumer has copied. *)
Definition copied (w : wring T) (t : sstate T) : Prop :=
  match t with
  | SHead _ h => h = latest (mm w) ConsHead
  | SCopy n h acc =>
      h = latest (mm w) ConsHead ∧ Z.of_nat (length acc) ≤ n ∧ acc = slice (wlg w) h (length acc)
  | SStoreHead n h acc =>
      h = latest (mm w) ConsHead ∧ Z.of_nat (length acc) = n ∧ acc = slice (wlg w) h (length acc)
  | _ => True
  end.

(** The facts about the consumer that do not mention the producers. *)
Record consumer_ok w (t : sstate T) v (recv : list T) : Prop := {
  co_view : tview k (mm w) v (as_mc t);
  co_own : ∀ e x, events (mm w) !! e = Some x → a_write x = false → e ∈ known v;
  co_head : reached (mm w) v ConsHead = latest (mm w) ConsHead;
  co_tail : reached (mm w) v ConsTail = latest (mm w) ConsTail;
  co_gap : latest (mm w) ConsHead = latest (mm w) ConsTail + ahead t;
  co_copied : copied w t;
  co_recv : recv = take (Z.to_nat (latest (mm w) ConsTail)) (wlg w)
}.

Record single_inv s : Prop := {
  s_erased : cinv k (erase_single s);
  s_mem : minv k ProdTail (smem s);
  s_prod : ∀ i t v, sprod s !! i = Some (t, v) → i ≠ 0%nat ∧ producing t ∧ tview k (smem s) v t;
  s_cons : consumer_ok (sw s) (scons s) (scv s) (srecv s)
}.

Lemma producing_crange t : producing t → crange t = None.
Proof. by destruct t. Qed.
Lemma as_mc_prange (t : sstate T) : prange (as_mc t) = None.
Proof. by destruct t. Qed.
Lemma apart_none (a b : option (Z * Z)) : a = None ∨ b = None → apart a b.
Proof. intros [-> | ->]; [done|]. by destruct a as [[]|]. Qed.

(** ** Steps of a producer *)

(** To the consumer, a producer only extends the history. *)
Lemma producer_tstep (a b : world T) t t' :
  producing t → producing t' → tstep a t b t' →
  cons_head (rg b) = cons_head (rg a) ∧ cons_tail (rg b) = cons_tail (rg a) ∧ ∃ l, lg b = lg a ++ l.
Proof.
  intros Hp Hp' Hs. destruct Hs; try done; simpl; (split_and!; [done|done|]);
    first [by eexists | exists []; by rewrite app_nil_r].
Qed.

Lemma producer_step_ok w t v c w' t' v' :
  producing t → winv k (erase w) → minv k ProdTail (mm w) → tinv k (erase w) t → tview k (mm w) v t →
  producer_step w t v c = Some (w', t', v') → Z.of_nat (length (wlg w')) < W64 →
  step_ok k ProdTail w t w' t' v' ∧ producing t'
  ∧ latest (mm w') ConsHead = latest (mm w) ConsHead ∧ latest (mm w') ConsTail = latest (mm w) ConsTail
  ∧ ∃ l, wlg w' = wlg w ++ l.
Proof.
  intros Hp Hw Hm Ht Hv Hs Hb.
  assert (step_ok k ProdTail w t w' t' v' ∧ producing t') as [Hok Hp'].
  { destruct c as [objs|n|i|]; simpl in Hs.
    - destruct (resting t) eqn:Er; [|done]. injection Hs as <- <- <-. split; [|done].
      pose proof (t_room _ _ _ _ Hv). apply silent_ok; try done; try (by destruct t); [|simpl; lia].
      apply (tview_move k _ _ _ _ Hv); by destruct t.
    - by destruct t.
    - split; [by eapply (enqueue_step_ok k Hk ProdTail ltac:(by right))|].
      destruct t; simpl in Hs; try done; destruct (load _ _ _ _ _) as [[a x]|]; try done; simplify_eq/=; done || by case_match.
    - split; [by eapply (enqueue_step_ok k Hk ProdTail ltac:(by right))|].
      destruct t; simpl in Hs; try done; repeat (case_match || simplify_option_eq); done. }
  split_and!; [done|done|..]; destruct Hok as (_ & _ & _ & [Hst|(-> & _)]); try done.
  - by destruct (producer_tstep _ _ _ _ Hp Hp' Hst) as (? & _).
  - by destruct (producer_tstep _ _ _ _ Hp Hp' Hst) as (_ & ? & _).
  - by destruct (producer_tstep _ _ _ _ Hp Hp' Hst) as (_ & _ & ?).
  - exists []. by rewrite app_nil_r.
Qed.

(** A longer history changes nothing for the consumer. *)
Lemma copied_grow w w' (t : sstate T) l :
  winv k (erase w) → tinv k (erase w) (as_mc t) → latest (mm w') ConsHead = latest (mm w) ConsHead →
  wlg w' = wlg w ++ l → copied w t → copied w' t.
Proof.
  intros Hw Ht Eh El Hc. pose proof (w_order k _ Hw) as Ho. pose proof (w_log k _ Hw) as Hlog. simpl in Ho, Hlog.
  destruct t as [| | |n h acc|n h acc| |]; simpl in *; rewrite ?Eh; try done.
  - destruct Hc as (? & ? & Hacc). split_and!; [done|done|]. by rewrite El, slice_app_l by lia.
  - destruct Hc as (? & ? & Hacc). split_and!; [done|done|]. by rewrite El, slice_app_l by lia.
Qed.

Lemma consumer_grow w w' t t' v' (x : sstate T) v recv l :
  winv k (erase w) → minv k ProdTail (mm w) → tinv k (erase w) t → tinv k (erase w) (as_mc x) →
  producing t → step_ok k ProdTail w t w' t' v' →
  latest (mm w') ConsHead = latest (mm w) ConsHead → latest (mm w') ConsTail = latest (mm w) ConsTail →
  wlg w' = wlg w ++ l → consumer_ok w x v recv → consumer_ok w' x v recv.
Proof.
  intros Hw Hm Ht Hx Hp (_ & _ & Hl & _) Eh Et El [Hv Hown Hh Htl Hgap Hcp Hrecv].
  pose proof (g_in _ _ (t_good _ _ _ _ Hv)) as Hin. pose proof (w_order k _ Hw) as Ho. pose proof (w_log k _ Hw) as Hlog.
  simpl in Ho, Hlog. split; rewrite ?(lt_reached _ _ _ Hl), ?Eh, ?Et by done; try done.
  - apply (tview_later k t (mm w)); try done; [apply Hm|by apply (tinv_beyond k)|..]; apply apart_none.
    + right. apply as_mc_prange.
    + left. by apply producing_crange.
  - intros e y He Hy. destruct (lt_ev _ _ _ Hl e y He) as [He'|(h & n & Hr & _)]; [by apply (Hown e y)|].
    rewrite Hy, producing_crange in Hr by done. done.
  - by eapply copied_grow.
  - rewrite El, take_app_le by lia. done.
Qed.

Lemma single_producer s i t v c w' t' v' :
  single_inv s → sprod s !! i = Some (t, v) → producer_step (sw s) t v c = Some (w', t', v') →
  Z.of_nat (length (wlg w')) < W64 →
  single_inv (mkSingle w' (<[i := (t', v')]> (sprod s)) (scons s) (scv s) (srecv s)).
Proof.
  intros [Hc Hm Hpr Hco] Hi Hs Hb. destruct (Hpr i t v Hi) as (Hi0 & Hp & Hv).
  assert (thr (erase_single s) !! i = Some t) as Hi'.
  { simpl. by rewrite lookup_insert_ne, lookup_fmap, Hi. }
  assert (thr (erase_single s) !! 0%nat = Some (as_mc (scons s))) as H0 by apply lookup_insert_eq.
  pose proof (c_world k _ Hc) as Hw. pose proof (c_thread k _ Hc i t Hi') as Ht.
  destruct (producer_step_ok _ _ _ _ _ _ _ Hp Hw Hm Ht Hv Hs Hb) as (Hok & Hp' & Eh & Et & l & El).
  pose proof Hok as (Hm' & Hv' & Hl & Hcase).
  assert (erase_single (mkSingle w' (<[i := (t', v')]> (sprod s)) (scons s) (scv s) (srecv s))
    = mkC (erase w') (<[i := t']> (thr (erase_single s)))) as Ee.
  { unfold erase_single. simpl. rewrite fmap_insert, insert_insert_ne by done. done. }
  split; [rewrite Ee|done|..]; cbn [sw sprod scons scv srecv].
  - destruct Hcase as [Hst|(-> & Ht' & Ep & Ec)].
    + eapply cstep_inv; [done|done|]. by apply (cstep_thread (erase_single s) i t).
    + by apply (cinv_move k (erase_single s) i t).
  - intros j u x Hj. apply lookup_insert_Some in Hj as [[<- [= <- <-]]|[Hne Hj]]; [done|].
    destruct (Hpr j u x Hj) as (Hj0 & Hpu & Hvu). split_and!; [done|done|].
    assert (thr (erase_single s) !! j = Some u) as Hj'.
    { simpl. by rewrite lookup_insert_ne, lookup_fmap, Hj. }
    destruct (c_apart k _ Hc i j t u Hne Hi' Hj') as [Ha Hcr].
    apply (tview_later k t (smem s)); try done; [apply Hm|by apply (tinv_beyond k)].
  - pose proof (c_thread k _ Hc 0%nat _ H0) as Hx.
    by apply (consumer_grow (sw s) w' t t' v' (scons s) (scv s) (srecv s) l).
Qed.

(** ** Steps of the consumer *)

(** What a step of the consumer must establish; [tl] is the thread whose ranges
    its accesses lie in. *)
Record consumer_step_ok s w' (x' : sstate T) v' (tl : tstate T) : Prop := {
  cs_beyond : beyond (smem s) tl;
  cs_prange : prange tl = None;
  cs_later : later tl (smem s) (mm w');
  cs_mem : minv k ProdTail (mm w');
  cs_erased : cinv k (mkC (erase w') (<[0%nat := as_mc x']> (thr (erase_single s))));
  cs_cons : consumer_ok w' x' v' (srecv s ++ delivered (scons s) x')
}.

Lemma single_consumer s w' x' v' tl :
  single_inv s → consumer_step_ok s w' x' v' tl →
  single_inv (mkSingle w' (sprod s) x' v' (srecv s ++ delivered (scons s) x')).
Proof.
  intros [Hc Hm Hpr Hco] [Hb Hp Hl Hm' Hc' Hco'].
  assert (erase_single (mkSingle w' (sprod s) x' v' (srecv s ++ delivered (scons s) x'))
    = mkC (erase w') (<[0%nat := as_mc x']> (thr (erase_single s)))) as Ee.
  { unfold erase_single. simpl. by rewrite insert_insert_eq. }
  split; [by rewrite Ee|done| |done].
  intros j u v Hj. destruct (Hpr j u v Hj) as (Hj0 & Hpu & Hvu). split_and!; [done|done|].
  apply (tview_later k tl (smem s)); try done; [apply Hm|..]; apply apart_none; [by left|].
  right. by apply producing_crange.
Qed.

(** A step that the erased consumer takes too. *)
Lemma consumer_steps s w' x' v' :
  single_inv s → Z.of_nat (length (wlg w')) < W64 →
  step_ok k ProdTail (sw s) (as_mc (scons s)) w' (as_mc x') v' →
  consumer_ok w' x' v' (srecv s ++ delivered (scons s) x') →
  consumer_step_ok s w' x' v' (as_mc (scons s)).
Proof.
  intros [Hc Hm _ _] Hb (Hm' & Hv' & Hl & Hcase) Hco'.
  assert (thr (erase_single s) !! 0%nat = Some (as_mc (scons s))) as H0 by apply lookup_insert_eq.
  split; try done.
  - apply (tinv_beyond k Hk),  (c_thread k _ Hc 0%nat _ H0).
  - apply as_mc_prange.
  - destruct Hcase as [Hst|(-> & Ht' & Ep & Ec)].
    + eapply cstep_inv; [done|done|]. by apply (cstep_thread (erase_single s) 0%nat (as_mc (scons s))).
    + by apply (cinv_move k (erase_single s) 0%nat (as_mc (scons s))).
Qed.

(** Loads: the consumer's own counters cannot be stale. *)
Lemma consumer_load w (x x' : sstate T) v v' l i a recv :
  minv k ProdTail (mm w) → consumer_ok w x v recv → load acquire (mm w) v l i = Some (a, v') →
  tview k (mm w) v' (as_mc x') → ahead x' = ahead x → copied w x' → consumer_ok w x' v' recv.
Proof.
  intros Hm [Hv Hown Hh Ht Hgap Hcp Hrecv] Hl Hv' Ea Hcp'.
  destruct (acquire_step k ProdTail _ _ _ _ _ _ Hm (t_good _ _ _ _ Hv) Hl) as (Hg & _ & _ & _ & Hmono & Hkn).
  pose proof (reached_le_latest true _ _ ConsHead (mi_inc _ _ _ Hm) (g_in _ _ Hg)).
  pose proof (reached_le_latest true _ _ ConsTail (mi_inc _ _ _ Hm) (g_in _ _ Hg)).
  pose proof (Hmono ConsHead). pose proof (Hmono ConsTail).
  split; try done; try lia. intros e y He Hy. by apply Hkn, (Hown e y).
Qed.

(** The copy of a slot: an access of a range that is not yet reserved. *)
Lemma consumer_copies s n h acc x :
  single_inv s → scons s = SCopy n h acc → let i := Z.of_nat (length acc) in
  i < n → slots (sw s) !! cell (sw s) (h + i) = Some x →
  let r := touch (smem s) (scv s) false (cell (sw s) (h + i)) (h + i) in
  consumer_step_ok s (with_mem (sw s) r.1) (SCopy n h (acc ++ [x])) r.2 (CRead (T:=T) n h []).
Proof.
  intros [Hc Hm Hpr [Hv Hown Hh Ht Hgap Hcp Hrecv]] Ex i Hi Hx r. rewrite Ex in Hv, Hgap, Hcp. simpl in Hgap, Hcp.
  destruct Hcp as (Eh & Hle & Hacc).
  assert (thr (erase_single s) !! 0%nat = Some (CCas n h)) as H0.
  { simpl. rewrite Ex. apply lookup_insert_eq. }
  pose proof (c_world k _ Hc) as Hw. pose proof (c_thread k _ Hc _ _ H0) as (Hn & Hh' & Hpt). simpl in Hh', Hpt.
  pose proof (w_order k _ Hw) as Ho. pose proof (w_log k _ Hw) as Hlog. simpl in Ho, Hlog.
  pose proof (t_progress _ _ _ _ Hv) as Hprog. simpl in Hprog. pose proof (t_room _ _ _ _ Hv) as Hroom. simpl in Hroom.
  assert (tview k (smem s) (scv s) (CRead (T:=T) n h [])) as Hv1.
  { split; try done; [apply Hv|]. intros h' n' [= <- <-]. split; [|done].
    intros e y He Hy _. by apply (Hown e y). }
  assert (beyond (smem s) (CRead (T:=T) n h [])) as Hbd by (split; intros h' n' [= <- <-]; lia).
  pose proof (tview_touch k (CRead (T:=T) n h []) (smem s) (scv s) false (cell (sw s) (h + i)) (h + i) h n
    (mi_inc _ _ _ Hm) Hbd eq_refl ltac:(lia) Hv1) as Hv2.
  assert (filled k (erase (sw s)) (h + i)) as Hf by (apply (w_filled k _ Hw); simpl; lia).
  unfold filled in Hf. simpl in Hf. rewrite (cell_slot k Hk _ _ Hw), Hf in Hx.
  split.
  - done.
  - done.
  - apply (later_touch _ _ _ _ _ _ h n); [done|lia].
  - apply (minv_touch k ProdTail (CRead (T:=T) n h []) (smem s) (scv s) false _ (h + i) h n); try done; try lia.
    + by apply cell_slot.
    + intros j e He Hcl Hwr. rewrite (cell_slot k Hk _ _ Hw) in Hcl.
      apply (read_ordered k Hk ProdTail (sw s) (scv s) n h i Hw Hm ltac:(lia) (t_good _ _ _ _ Hv) ltac:(lia) ltac:(lia) j e); done.
  - simpl. apply (cinv_move k (erase_single s) 0%nat (CCas n h)); try done.
  - rewrite Ex, app_nil_r. split; simpl; try done.
    + split; [apply Hv2|apply (t_room _ _ _ _ Hv2)|apply (t_cons _ _ _ _ Hv2 h n eq_refl)|done|done].
    + intros e y He Hy. apply elem_of_union. apply lookup_snoc_Some in He as [[_ He]|[-> _]].
      * right. by apply (Hown e y).
      * left. by apply elem_of_singleton.
    + split_and!; [done|rewrite length_app; simpl; lia|].
      rewrite length_app. simpl. rewrite Nat.add_1_r, <- (slice_snoc _ _ _ x); [by rewrite <- Hacc|lia|done].
Qed.

(** Storing [cons_.head] reserves what has been copied. *)
Lemma erased_reserves s n h acc w' :
  single_inv s → scons s = SStoreHead n h acc →
  erase w' = mkWorld (set_cons_head (rg (erase (sw s))) (h +64 n)) (lg (erase (sw s))) (grants (erase (sw s)) ++ [(h, n)]) →
  cinv k (mkC (erase w') (<[0%nat := CStore n h acc]> (thr (erase_single s)))).
Proof.
  intros [Hc _ _ [_ _ _ _ Hgap Hcp _]] Ex Ee. rewrite Ex in Hgap, Hcp. simpl in Hgap, Hcp. destruct Hcp as (Eh & Hlen & Hacc).
  assert (thr (erase_single s) !! 0%nat = Some (CCas n h)) as H0 by (simpl; rewrite Ex; apply lookup_insert_eq).
  pose proof (c_world k _ Hc) as Hw. pose proof (c_thread k _ Hc _ _ H0) as (Hn & Hh' & Hpt). simpl in Hh', Hpt.
  pose proof (w_order k _ Hw) as Ho. pose proof (w_log k _ Hw) as Hlog. pose proof (w_bound k _ Hw) as Hbd. simpl in Ho, Hlog, Hbd.
  set (s1 := mkC (erase w') (<[0%nat := CRead (T:=T) n h []]> (thr (erase_single s)))).
  assert (cinv k s1) as Hc1.
  { eapply (cstep_inv k Hk (erase_single s)); [done|].
    apply (cstep_thread (erase_single s) 0%nat (CCas n h)); [done| |rewrite Ee; done].
    rewrite Ee. by apply c_cas_ok. }
  assert (mkC (erase w') (<[0%nat := CStore n h acc]> (thr (erase_single s)))
    = mkC (wd s1) (<[0%nat := CStore n h acc]> (thr s1))) as ->.
  { unfold s1. cbn [wd thr]. f_equal. by rewrite insert_insert_eq. }
  apply (cinv_move k s1 0%nat (CRead n h [])); [done|apply lookup_insert_eq| |done|done].
  change (wd s1) with (erase w').
  rewrite Ee. simpl. rewrite wrap64_small by lia. split_and!; [done|lia|lia|done|done].
Qed.

Lemma consumer_reserves s n h acc :
  single_inv s → scons s = SStoreHead n h acc →
  let r := store release (smem s) (scv s) ConsHead (h +64 n) in
  consumer_step_ok s (mkWring r.1 (wcapacity (sw s)) (wmask (sw s)) (slots (sw s)) (wlg (sw s)) (wgrants (sw s) ++ [(h, n)]))
    (SStoreTail n h acc) r.2 (CCas n h).
Proof.
  intros Hs Ex r. pose proof Hs as [Hc Hm _ [Hv Hown Hh Ht Hgap Hcp Hrecv]]. rewrite Ex in Hv, Hgap, Hcp.
  simpl in Hgap, Hcp. destruct Hcp as (Eh & Hlen & Hacc).
  assert (thr (erase_single s) !! 0%nat = Some (CCas n h)) as H0 by (simpl; rewrite Ex; apply lookup_insert_eq).
  pose proof (c_world k _ Hc) as Hw. pose proof (c_thread k _ Hc _ _ H0) as (Hn & Hh' & Hpt). simpl in Hh', Hpt.
  pose proof (w_order k _ Hw) as Ho. pose proof (w_log k _ Hw) as Hlog. pose proof (w_bound k _ Hw) as Hbd. simpl in Ho, Hlog, Hbd.
  destruct Hv as [Hg Hroom Hprog _ _]. simpl in Hroom, Hprog. pose proof (g_in _ _ Hg) as Hin.
  assert (h +64 n = h + n) as E64 by (apply wrap64_small; lia).
  set (x := mkMsg (h +64 n) r.2).
  assert (hist r.1 = <[ConsHead := hist (smem s) ConsHead ++ [x]]> (hist (smem s))) as Ehist by done.
  assert (∀ l, reached r.1 r.2 l = if decide (ConsHead = l) then h +64 n else reached (smem s) (scv s) l) as Hre.
  { intros l. by apply (append_reached_see (smem s) r.1 ConsHead x). }
  pose proof (append_latest (smem s) r.1 ConsHead x Ehist) as Hlat.
  assert (good r.1 r.2) as Hg'.
  { apply (good_publish (smem s) _ ConsHead x); [done|done|done|]. intros f Hf. rewrite !Hf. simpl.
    destruct Hg as [_ ? ? ? ?]. rewrite E64. split_and!; done || lia. }
  assert (room k r.1 r.2) as Hroom' by (unfold room; by rewrite !Hre).
  split.
  - apply (tinv_beyond k Hk), (c_thread k _ Hc _ _ H0).
  - done.
  - by apply (later_append _ _ _ ConsHead x).
  - apply (minv_append k ProdTail (CCas (T:=T) n h) (smem s) r.1 ConsHead x (scv s)); try done; [apply Hm| |simpl; lia].
    unfold r. rewrite store_ordered; [apply Hm|]. apply reached_latest_seen; [apply Hm|done|done].
  - apply (erased_reserves s n h acc); [done|done|].
    unfold erase, set_cons_head. simpl mm. by rewrite !Hlat.
  - rewrite Ex, app_nil_r. split; rewrite ?Hre; try done.
    + split; try done.
      * simpl. rewrite Hre. simpl. lia.
      * intros h' n' [= <- <-]. simpl mm. rewrite Hre. split; [|done]. intros e y He Hy _. by apply (Hown e y).
    + rewrite Hlat. done.
    + simpl mm. rewrite !Hlat. simpl. lia.
Qed.

(** Storing [cons_.tail] hands over the copied elements. *)
Lemma consumer_releases s n h acc :
  single_inv s → scons s = SStoreTail n h acc →
  let r := store release (smem s) (scv s) ConsTail (h +64 n) in
  consumer_step_ok s (with_mem (sw s) r.1) (SDone h acc) r.2 (CStore n h acc).
Proof.
  intros Hs Ex r. pose proof Hs as [Hc Hm _ [Hv Hown Hh Ht Hgap Hcp Hrecv]]. rewrite Ex in Hv, Hgap. simpl in Hgap.
  assert (thr (erase_single s) !! 0%nat = Some (CStore n h acc)) as H0 by (simpl; rewrite Ex; apply lookup_insert_eq).
  pose proof (c_world k _ Hc) as Hw. pose proof (c_thread k _ Hc _ _ H0) as Htv.
  pose proof Htv as (Hn & Hct & Hch & Hlen & Hacc). simpl in Hct, Hch, Hacc.
  pose proof (w_order k _ Hw) as Ho. pose proof (w_log k _ Hw) as Hlog. pose proof (w_bound k _ Hw) as Hbd. simpl in Ho, Hlog, Hbd.
  assert (h +64 n = h + n) as E64 by (apply wrap64_small; lia).
  pose proof (store_cons_tail k Hk ProdTail (sw s) (scv s) n h acc Hw Hm Htv Hv) as Hok. fold r in Hok.
  assert (CStore n h acc = as_mc (scons s)) as Et by (by rewrite Ex). rewrite Et.
  apply consumer_steps; [done|done|by rewrite <- Et|].
  set (x := mkMsg (h +64 n) r.2).
  assert (hist r.1 = <[ConsTail := hist (smem s) ConsTail ++ [x]]> (hist (smem s))) as Ehist by done.
  pose proof (append_latest (smem s) r.1 ConsTail x Ehist) as Hlat.
  pose proof (g_in _ _ (t_good _ _ _ _ Hv)) as Hin.
  assert (∀ l, reached r.1 r.2 l = if decide (ConsTail = l) then h +64 n else reached (smem s) (scv s) l) as Hre.
  { intros l. by apply (append_reached_see (smem s) r.1 ConsTail x). }
  destruct Hok as (_ & Hv' & _). split; simpl mm; rewrite ?Hre, ?Hlat; try done.
  - simpl. lia.
  - simpl decide. rewrite Ex. cbn [delivered with_mem wlg]. rewrite decide_True by done. cbn [m_val x].
    rewrite Hrecv, Hct, Hacc, E64. unfold slice.
    replace (Z.to_nat (h + n)) with (Z.to_nat h + length acc)%nat by lia. apply take_take_drop.
Qed.

(** The facts every step of the consumer starts from. *)
Lemma consumer_facts s :
  single_inv s → winv k (erase (sw s)) ∧ tinv k (erase (sw s)) (as_mc (scons s)) ∧ Z.of_nat (length (wlg (sw s))) < W64.
Proof.
  intros [Hc _ _ _]. pose proof (c_world k _ Hc) as Hw. split_and!; [done| |apply (w_bound k _ Hw)].
  apply (c_thread k _ Hc 0%nat). apply lookup_insert_eq.
Qed.

(** A call, or the end of the copy loop. *)
Lemma consumer_quiet s x' :
  single_inv s → tinv k (erase (sw s)) (as_mc x') → crange (as_mc x') = crange (as_mc (scons s)) →
  progress k (smem s) (scv s) (as_mc x') → ahead x' = ahead (scons s) → copied (sw s) x' →
  delivered (scons s) x' = [] →
  single_inv (mkSingle (sw s) (sprod s) x' (scv s) (srecv s ++ delivered (scons s) x')).
Proof.
  intros Hs Ht Ecr Hpr Ea Hcp Ed. destruct (consumer_facts s Hs) as (Hw & _ & Hbd).
  pose proof Hs as [_ Hm _ Hco]. pose proof (co_view _ _ _ _ Hco) as Hv.
  assert (tview k (smem s) (scv s) (as_mc x')) as Hv'.
  { apply (tview_move k _ _ _ _ Hv); try done; [by rewrite !as_mc_prange|].
    pose proof (t_room _ _ _ _ Hv). by destruct (scons s). }
  apply (single_consumer s _ _ _ (as_mc (scons s))); [done|]. apply consumer_steps; [done|done|..].
  - apply silent_ok; try done. by rewrite !as_mc_prange.
  - rewrite Ed, app_nil_r. destruct Hco. split; try done. lia.
Qed.

Lemma consumer_loads_head s n i a v1 :
  single_inv s → scons s = SLoad n → load acquire (smem s) (scv s) ConsHead i = Some (a, v1) →
  single_inv (mkSingle (sw s) (sprod s) (SHead n a) v1 (srecv s ++ delivered (scons s) (SHead n a))).
Proof.
  intros Hs Ex El. destruct (consumer_facts s Hs) as (Hw & Ht & Hbd). pose proof Hs as [_ Hm _ Hco].
  pose proof (co_view _ _ _ _ Hco) as Hv. pose proof (co_head _ _ _ _ Hco) as Hh. rewrite Ex in Ht, Hv, Hco.
  pose proof (load_nonneg k ProdTail _ _ _ _ _ _ _ Hm El) as Ha.
  pose proof (load_cons_head k Hk ProdTail (sw s) (scv s) v1 i a Hm n Ht Hv El Ha) as Hok.
  apply (single_consumer s _ _ _ (as_mc (scons s))); [done|].
  apply consumer_steps; [done|done|by rewrite Ex|]. rewrite Ex, app_nil_r.
  apply (consumer_load (sw s) (SLoad n) _ (scv s) v1 ConsHead i a); try done; [apply Hok|].
  destruct (acquire_step k ProdTail _ _ _ _ _ _ Hm (t_good _ _ _ _ Hv) El) as (_ & _ & Ea & Hle & Hmono & _).
  specialize (Hmono ConsHead). simpl. lia.
Qed.

Lemma consumer_loads_tail s n h i a v1 :
  single_inv s → scons s = SHead n h → load acquire (smem s) (scv s) ProdTail i = Some (a, v1) →
  let x' := let n' := Z.min n (a -64 h) in if n' =? 0 then SDone 0 [] else SCopy n' h [] in
  single_inv (mkSingle (sw s) (sprod s) x' v1 (srecv s ++ delivered (scons s) x')).
Proof.
  intros Hs Ex El x'. destruct (consumer_facts s Hs) as (Hw & Ht & Hbd). pose proof Hs as [_ Hm _ Hco].
  pose proof (co_view _ _ _ _ Hco) as Hv. pose proof (co_copied _ _ _ _ Hco) as Hcp. rewrite Ex in Ht, Hv, Hco, Hcp.
  pose proof (load_prod_tail k Hk ProdTail (sw s) (scv s) v1 i a Hw Hm n h Ht Hv El) as Hok.
  apply (single_consumer s _ _ _ (as_mc (scons s))); [done|]. unfold x'. cbn zeta in Hok |- *.
  destruct (Z.eqb_spec (Z.min n (a -64 h)) 0) as [En|En];
    (apply consumer_steps; [done|done|by rewrite Ex|]); rewrite Ex, app_nil_r;
    apply (consumer_load (sw s) (SHead n h) _ (scv s) v1 ProdTail i a); try done; try apply Hok.
  simpl in *. split_and!; [done| |done]. pose proof (wrap64_range (a - h)). lia.
Qed.

Lemma single_move_inv s s' : single_inv s → single_move s s' → single_inv s'.
Proof.
  intros Hs Hmv. destruct Hmv as [s i t v c w' t' v' Hi Hst Hb|s c w' t' v' Hst]; [by eapply single_producer|].
  destruct (consumer_facts s Hs) as (Hw & Ht & Hbd). pose proof (co_copied _ _ _ _ (s_cons _ Hs)) as Hcp.
  pose proof (t_progress _ _ _ _ (co_view _ _ _ _ (s_cons _ Hs))) as Hprog.
  unfold single_step in Hst. destruct (scons s) as [|n|n h|n h acc|n h acc|n h acc|h acc] eqn:Ex;
    destruct c as [objs|d|i|]; try done; cbn -[wrap64 load store touch] in Hst; rewrite <- Ex.
  - destruct (Z.leb_spec 0 d); [|done]. injection Hst as <- <- <-. apply consumer_quiet; rewrite ?Ex; done.
  - destruct (load acquire (smem s) (scv s) ConsHead i) as [[a v1]|] eqn:El; [|done].
    injection Hst as <- <- <-. by apply (consumer_loads_head s n i).
  - destruct (load acquire (smem s) (scv s) ProdTail i) as [[a v1]|] eqn:El; [|done].
    injection Hst as <- <- <-. by apply (consumer_loads_tail s n h i).
  - destruct (Z.ltb_spec (Z.of_nat (length acc)) n) as [Hi|Hi].
    + destruct (slots (sw s) !! cell (sw s) (h + Z.of_nat (length acc))) as [x|] eqn:Hx; [|done].
      injection Hst as <- <- <-. eapply single_consumer; [done|]. by apply consumer_copies.
    + injection Hst as <- <- <-. apply consumer_quiet; rewrite ?Ex; try done.
      simpl in *. destruct Hcp as (? & ? & ?). split_and!; [done|lia|done].
  - injection Hst as <- <- <-. eapply single_consumer; [done|]. by apply consumer_reserves.
  - injection Hst as <- <- <-. eapply single_consumer; [done|]. by apply consumer_releases.
  - destruct (Z.leb_spec 0 d); [|done]. injection Hst as <- <- <-. apply consumer_quiet; rewrite ?Ex; done.
Qed.

Lemma single_init_inv m : single_inv (single_init k m).
Proof.
  destruct (winit_inv (T:=T) k Hk (S m)) as [Hc Hm Hv _].
  assert (tview k mem_init bottom (Idle : tstate T)) as Hv0.
  { apply (Hv 0%nat). apply lookup_insert_eq. }
  split.
  - unfold erase_state in Hc. unfold erase_single, single_init. cbn [sw sprod scons as_mc].
    change (wthr (winit k (S m))) with
      (<[0%nat := (Idle : tstate T, bottom : view counter)]>
         (list_to_map ((λ i, (i, (Idle, bottom))) <$> seq 1 m) : gmap nat (tstate T * view counter))) in Hc.
    by rewrite fmap_insert in Hc.
  - destruct Hm. split; try done.
  - intros i t v Hi. simpl in Hi. apply elem_of_list_to_map_2 in Hi.
    apply list_elem_of_fmap in Hi as (j & [= -> -> ->] & Hj). apply elem_of_seq in Hj.
    split_and!; [lia|done|done].
  - split; done.
Qed.

Lemma single_reachable_inv m s : single_reachable k m s → single_inv s.
Proof. intros H. eapply steps_invariant; [apply single_init_inv|apply single_move_inv|done]. Qed.

End Invariant.

(** C2: the ring as a worker's queue, many producers and one consumer, under the
    memory orders of the source: no slot access is a data race, no store is made
    by a thread that has not seen the last one, the elements the consumer has
    received are exactly the first ones that were reserved, in order, each
    once, and no more slots are reserved than the ring has. *)
Theorem single_consumer_race_free_fifo (T : Type) (IT : Inhabited T) (k : Z) (m : nat) (s : single T) :
  0 ≤ k ≤ 63 → single_reachable k m s →
  raced (mm (sw s)) = false ∧ unordered (mm (sw s)) = false
  ∧ srecv s = take (Z.to_nat (latest (mm (sw s)) ConsTail)) (wlg (sw s))
  ∧ latest (mm (sw s)) ProdHead - latest (mm (sw s)) ConsTail ≤ 2 ^ k.
Proof.
  intros Hk Hr. apply (single_reachable_inv k Hk) in Hr as [[Hw _ _ _] Hm _ Hco]. split_and!.
  - apply Hm.
  - apply Hm.
  - apply Hco.
  - apply Hw.
Qed.

(** Two laps through one slot, with a stale tail in between. *)
Definition single_schedule : list (option nat * choice Z) :=
  let e := λ c, (Some 1%nat, c) in let d := λ c, (None, c) in
  [e (Enqueue [7]); e (Read 0); e (Read 0); e Go; e Go; e Go; e (Read 0); e Go;
   d (Dequeue 4); d (Read 0); d (Read 0);
   d (Dequeue 4); d (Read 0); d (Read 1); d Go; d Go; d Go; d Go;
   e (Enqueue [8]); e (Read 1); e (Read 0);
   e (Enqueue [8]); e (Read 1); e (Read 1); e Go; e Go; e Go; e (Read 1); e Go;
   d (Dequeue 4); d (Read 1); d (Read 2); d Go; d Go; d Go; d Go].

Lemma single_run :
  ∃ s : single Z, single_reachable 0 1 s ∧ srecv s = [7; 8] ∧ scons s = SDone 1 [8].
Proof.
  destruct (play single_play (single_init 0 1) single_schedule) as [s|] eqn:E; [|by vm_compute in E].
  exists s. split; [eapply play_steps; [apply single_play_move|exact E]|].
  vm_compute in E. by injection E as <-.
Qed.

Lemma single_consumer_race_free_fifo_witness :
  ∃ s : single Z, single_reachable 0 1 s ∧ srecv s = [7; 8] ∧ raced (mm (sw s)) = false.
Proof.
  destruct single_run as (s & Hr & Hv & _). exists s. split; [exact Hr|]. split; [exact Hv|].
  exact (proj1 (single_consumer_race_free_fifo Z _ 0 1 s ltac:(lia) Hr)).
Defined.
