(* ===== verification/BatonWeak.v ===== *)
(** [AffinityBaton] under its memory orders ([affinity_baton.h], bodies in
    [worker.cc]).

    The word [waiters_] lives in the memory of [RelAcq]; the fields of a waiter
    node are plain memory, written by the coroutine that waits and read by the
    one that posts.  Coroutines also access data of their own between their
    calls, and may synchronise with each other by other means.  Two things are
    shown: the accesses to the nodes never race, and [co_await] orders its
    continuation after a post (or the destruction) of the baton, so that what a
    coroutine wrote before [post] may be read without a race after [co_await].

    Every change of [waiters_] is a read-modify-write, so each message carries
    the views of all earlier releases; with the lists of [Baton] this gives the
    poster the node accesses of all waiters it takes over. *)
From S2P Require Import Prelude Waiters RelAcq Baton.

Inductive baton_word := WaitersWord.

#[export] Instance baton_word_eq_dec : EqDecision baton_word.
Proof. solve_decision. Defined.

(** Plain memory: the nodes of the awaiters and the clients' data. *)
Definition node_cell (i : nat) : nat := (2 * i)%nat.
Definition data_cell (d : nat) : nat := (2 * d + 1)%nat.

(** [wb_signals]: for every post and destruction so far, the plain accesses that
    happen before it; [wb_through]: for every [co_await] that has returned, its
    coroutine and the accesses that happen before its continuation. *)
Record wbaton := mkWb {
  wb_mem : RelAcq.mem baton_word;
  wb_nodes : Memory;
  wb_woken : list Wake;
  wb_co : nat → bstate;
  wb_view : nat → view baton_word;
  wb_signals : list (gset nat);
  wb_through : list (nat * gset nat)
}.

(** Coroutine [i] goes to [x] with view [v]. *)
Definition goto (s : wbaton) (i : nat) (x : bstate) (v : view baton_word) : wbaton :=
  mkWb (wb_mem s) (wb_nodes s) (wb_woken s) (<[i := x]> (wb_co s)) (<[i := v]> (wb_view s))
    (wb_signals s) (wb_through s).
Definition put_mem (s : wbaton) (m : RelAcq.mem baton_word) : wbaton :=
  mkWb m (wb_nodes s) (wb_woken s) (wb_co s) (wb_view s) (wb_signals s) (wb_through s).
Definition put_nodes (s : wbaton) (n : Memory) : wbaton :=
  mkWb (wb_mem s) n (wb_woken s) (wb_co s) (wb_view s) (wb_signals s) (wb_through s).
Definition put_wake (s : wbaton) (w : Wake) : wbaton :=
  mkWb (wb_mem s) (wb_nodes s) (wb_woken s ++ [w]) (wb_co s) (wb_view s) (wb_signals s) (wb_through s).
Definition signal (s : wbaton) (v : view baton_word) : wbaton :=
  mkWb (wb_mem s) (wb_nodes s) (wb_woken s) (wb_co s) (wb_view s) (wb_signals s ++ [known v]) (wb_through s).
Definition through (s : wbaton) (i : nat) (v : view baton_word) : wbaton :=
  mkWb (wb_mem s) (wb_nodes s) (wb_woken s) (wb_co s) (wb_view s) (wb_signals s) (wb_through s ++ [(i, known v)]).

Section Machine.
Context (addr : nat → Z).

Inductive wbstep (i : nat) : wbaton → wbaton → Prop :=
| w_data s w d : wb_co s i = BIdle →
    ordered_from 0 (events (wb_mem s)) w (data_cell d) (wb_view s i) = true →
    let a := touch (wb_mem s) (wb_view s i) w (data_cell d) 0 in
    wbstep i s (goto (put_mem s a.1) i BIdle a.2)
| w_sync s j : wb_co s i = BIdle →
    wbstep i s (goto s i BIdle (join (wb_view s i) (wb_view s j)))
| w_await s : wb_co s i = BIdle → wbstep i s (goto s i BReady (wb_view s i))
| w_is_ready s j a v : wb_co s i = BReady →
    load acquire (wb_mem s) (wb_view s i) WaitersWord j = Some (a, v) → flagged a = true →
    wbstep i s (through (goto s i BIdle v) i v)
| w_not_ready s j a v : wb_co s i = BReady →
    load acquire (wb_mem s) (wb_view s i) WaitersWord j = Some (a, v) → flagged a = false →
    wbstep i s (goto s i BSuspend v)
| w_suspend s j worker_id route a v : wb_co s i = BSuspend →
    let t := touch (wb_mem s) (wb_view s i) true (node_cell i) 0 in
    load acquire t.1 t.2 WaitersWord j = Some (a, v) →
    wbstep i s (goto (put_mem (put_nodes s (<[addr i := fill_node i worker_id route]> (wb_nodes s))) t.1)
                  i (BTest a) v)
| w_already_posted s old : wb_co s i = BTest old → flagged old = true →
    wbstep i s (through (goto (put_nodes s (delete (addr i) (wb_nodes s))) i BIdle (wb_view s i)) i (wb_view s i))
| w_link s old n : wb_co s i = BTest old → flagged old = false → wb_nodes s !! addr i = Some n →
    let t := touch (wb_mem s) (wb_view s i) true (node_cell i) 0 in
    wbstep i s (goto (put_mem (put_nodes s (<[addr i := set_next n (clear_flag old)]> (wb_nodes s))) t.1)
                  i (BCas old) t.2)
| w_cas_ok s old m v : wb_co s i = BCas old →
    cas release (wb_mem s) (wb_view s i) WaitersWord old (addr i) = Some (m, v) →
    wbstep i s (goto (put_mem s m) i BSuspended v)
| w_cas_fail s old j a v : wb_co s i = BCas old →
    load acquire (wb_mem s) (wb_view s i) WaitersWord j = Some (a, v) →
    wbstep i s (goto s i (BTest a) v)
| w_post s a m v : wb_co s i = BIdle →
    rmw acq_rel (wb_mem s) (wb_view s i) WaitersWord (λ _, Some kPostedBit) = Some (a, m, v) →
    wbstep i s (goto (put_mem (signal s (wb_view s i)) m) i (BChain (clear_flag a)) v)
| w_resume s p n : wb_co s i = BChain p → p ≠ 0 → wb_nodes s !! p = Some n →
    let t := touch (wb_mem s) (wb_view s i) false (node_cell (n_handle n)) 0 in
    let v := join (wb_view s (n_handle n)) t.2 in
    wbstep i s (goto (through (goto (put_wake (put_mem (put_nodes s (delete p (wb_nodes s))) t.1) (wake n))
                  (n_handle n) BIdle v) (n_handle n) v) i (BChain (n_next n)) t.2)
| w_chain_done s : wb_co s i = BChain 0 → wbstep i s (goto s i BIdle (wb_view s i))
| w_reset s j a v : wb_co s i = BIdle →
    load acquire (wb_mem s) (wb_view s i) WaitersWord j = Some (a, v) →
    wbstep i s (goto s i (BResetTest a) v)
| w_reset_done s old : wb_co s i = BResetTest old → flagged old = false →
    wbstep i s (goto s i BIdle (wb_view s i))
| w_reset_go s old : wb_co s i = BResetTest old → flagged old = true →
    wbstep i s (goto s i (BResetCas old) (wb_view s i))
| w_reset_ok s old m v : wb_co s i = BResetCas old →
    cas acq_rel (wb_mem s) (wb_view s i) WaitersWord old (clear_flag old) = Some (m, v) →
    wbstep i s (goto (put_mem s m) i BIdle v)
| w_reset_fail s old j a v : wb_co s i = BResetCas old →
    load acquire (wb_mem s) (wb_view s i) WaitersWord j = Some (a, v) →
    wbstep i s (goto s i (BResetTest a) v)
| w_destroy s a m v : wb_co s i = BIdle →
    rmw acq_rel (wb_mem s) (wb_view s i) WaitersWord (λ _, Some 0) = Some (a, m, v) →
    wbstep i s (goto (put_mem (signal s (wb_view s i)) m) i (BChain (clear_flag a)) v).

Definition wbaton_step (s s' : wbaton) : Prop := ∃ i, wbstep i s s'.
Definition wbaton_init : wbaton := mkWb mem_init ∅ [] (λ _, BIdle) (λ _, bottom) [] [].
Definition wbaton_reachable (s : wbaton) : Prop := steps wbaton_step wbaton_init s.

(** The baton of [Baton] whose word has the latest value. *)
Definition erase_baton (s : wbaton) : baton :=
  mkBaton (latest (wb_mem s) WaitersWord) (wb_nodes s) (wb_woken s) (wb_co s) (flagged (latest (wb_mem s) WaitersWord)).

(** ** Invariant *)

(** Every access to the node of [i] so far is in [K]. *)
Definition covers (ev : list access) (K : gset nat) (i : nat) : Prop :=
  ∀ e a, ev !! e = Some a → a_cell a = node_cell i → e ∈ K.

(** A signal happens before whatever knows [K]. *)
Definition signalled (s : wbaton) (K : gset nat) : Prop := ∃ p, p ∈ wb_signals s ∧ p ⊆ K.

(** The accesses the holder of chain [k] knows of: the last message for the
    baton's own chain. *)
Definition holder (s : wbaton) (k : option nat) : gset nat :=
  match k with
  | None => default ∅ (known ∘ m_view <$> last (hist (wb_mem s) WaitersWord))
  | Some j => known (wb_view s j)
  end.

Record wbinv (s : wbaton) : Prop := {
  wb_base : binv addr (erase_baton s);
  wb_msgs : ∀ j x, hist (wb_mem s) WaitersWord !! j = Some x → flagged (m_val x) = true → signalled s (known (m_view x));
  wb_tests : ∀ i old, wb_co s i = BTest old → flagged old = true → signalled s (known (wb_view s i));
  wb_walks : ∀ i p, wb_co s i = BChain p → signalled s (known (wb_view s i));
  wb_own : ∀ i, wb_co s i ≠ BSuspended → covers (events (wb_mem s)) (known (wb_view s i)) i;
  wb_chains : ∃ L, chains addr (erase_baton s) L ∧
    ∀ k i, i ∈ L k → covers (events (wb_mem s)) (holder s k) i;
  wb_norace : raced (wb_mem s) = false;
  wb_done : ∀ i K, (i, K) ∈ wb_through s → signalled s K
}.
Context {LY : Layout addr}.

Lemma covers_mono ev K K' i : covers ev K i → K ⊆ K' → covers ev K' i.
Proof. intros H HK e a He Hc. by apply HK, (H e a). Qed.

Lemma signalled_mono s s' K K' :
  signalled s K → wb_signals s ⊆ wb_signals s' → K ⊆ K' → signalled s' K'.
Proof. intros (p & Hp & HK) Hs HK'. exists p. set_solver. Qed.

(** One more access: to the node of [i], or to data. *)
Definition logs (i : nat) (K : gset nat) (ev ev' : list access) : Prop :=
  ev' = ev ∨ ∃ a, ev' = ev ++ [a] ∧ length ev ∈ K ∧ (∀ j, a_cell a = node_cell j → j = i).

Lemma covers_logs i K ev ev' K' j :
  logs i K ev ev' → covers ev K' j → (j = i → K ⊆ K') → covers ev' K' j.
Proof.
  intros [->|(a & -> & Hl & Ha)] H Hj e b He Hc; [by apply (H e b)|].
  apply lookup_snoc_Some in He as [[_ He]|[-> <-]]; [by apply (H e b)|]. apply Hj; [|done]. by apply Ha.
Qed.

Lemma load_known m v (l : baton_word) j a v' :
  load acquire m v l j = Some (a, v') →
  ∃ x, hist m l !! j = Some x ∧ a = m_val x ∧ known v' = known v ∪ known (m_view x).
Proof.
  unfold load. destruct (hist m l !! j) as [x|]; [|done]. simpl. destruct (decide _); [|done].
  intros [= <- <-]. by exists x.
Qed.

(** A load of a posted word synchronises with the signal. *)
Lemma load_signalled s i j a v m :
  wbinv s → hist m = hist (wb_mem s) → load acquire m (wb_view s i) WaitersWord j = Some (a, v) →
  known (wb_view s i) ⊆ known v ∧ (flagged a = true → signalled s (known v)).
Proof.
  intros Hs Eh H. apply load_known in H as (x & Hx & -> & ->). rewrite Eh in Hx. split; [set_solver|].
  intros Hf. eapply signalled_mono; [by apply (wb_msgs _ Hs j x)|done|set_solver].
Qed.

(** The accesses of a node of its own, or of data, by a coroutine that knows of
    the earlier ones. *)
Lemma own_access s i w :
  wbinv s → wb_co s i ≠ BSuspended →
  raced (touch (wb_mem s) (wb_view s i) w (node_cell i) 0).1 = false.
Proof.
  intros Hs Hi. rewrite touch_no_race; [apply Hs|]. intros j e He Hc _. by apply (wb_own _ Hs i Hi j e).
Qed.

Lemma touch_logs (m : RelAcq.mem baton_word) v w c i :
  (∀ j, c = node_cell j → j = i) →
  logs i (known (touch m v w c 0).2) (events m) (events (touch m v w c 0).1)
  ∧ known v ⊆ known (touch m v w c 0).2.
Proof. intros Hc. split; [|set_solver]. right. eexists. split; [done|]. split; [set_solver|]. simpl. auto. Qed.

Lemma node_cell_inj i j : node_cell i = node_cell j → j = i.
Proof. unfold node_cell. lia. Qed.

(** A step of [i] that neither starts nor ends a suspension and does not write
    the word. *)
Lemma wbinv_local s s' i x v :
  wbinv s → wb_co s i ≠ BSuspended → x ≠ BSuspended →
  (∀ p, wb_co s i = BChain p → p = 0) → (∀ p, x ≠ BChain p) →
  wb_co s' = <[i := x]> (wb_co s) → wb_view s' = <[i := v]> (wb_view s) →
  wb_signals s' = wb_signals s → known (wb_view s i) ⊆ known v →
  (wb_nodes s' = wb_nodes s ∨ (∃ n, wb_nodes s' = <[addr i := n]> (wb_nodes s)) ∨ wb_nodes s' = delete (addr i) (wb_nodes s)) →
  hist (wb_mem s') = hist (wb_mem s) → logs i (known v) (events (wb_mem s)) (events (wb_mem s')) →
  raced (wb_mem s') = false →
  (∀ old, x = BTest old → flagged old = true → signalled s (known v)) →
  (wb_through s' = wb_through s ∨ wb_through s' = wb_through s ++ [(i, known v)] ∧ signalled s (known v)) →
  link_ok addr (erase_baton s') i → (∀ old, x = BResetCas old → flagged old = true) → wbinv s'.
Proof.
  intros Hs Hi Hx Hp Hxp Eco Ev Es Hv Hn Eh Hl Hr Ht Hth Hlk Hrs.
  assert (∀ K, signalled s K → signalled s' K) as Hsg.
  { intros K HK. eapply signalled_mono; [done|by rewrite Es|done]. }
  assert (∀ j, known (wb_view s j) ⊆ known (wb_view s' j)) as Hmono.
  { intros j. rewrite Ev. destruct (decide (j = i)) as [->|]; [by rewrite fn_lookup_insert|by rewrite fn_lookup_insert_ne]. }
  assert (waiters_ (erase_baton s') = waiters_ (erase_baton s)) as Ew by (simpl; unfold latest; by rewrite Eh).
  split.
  - eapply (binv_local addr) with (s := erase_baton s) (i := i) (x := x); try done; [apply Hs|by left].
  - intros j y Hy Hf. rewrite Eh in Hy. by apply Hsg, (wb_msgs _ Hs j).
  - intros j old. rewrite Eco, Ev. destruct (decide (j = i)) as [->|].
    + rewrite !fn_lookup_insert. intros -> Hf. by eapply Hsg, Ht.
    + rewrite !fn_lookup_insert_ne by done. intros Hj Hf. by eapply Hsg, (wb_tests _ Hs).
  - intros j p. rewrite Eco, Ev. destruct (decide (j = i)) as [->|].
    + rewrite fn_lookup_insert. intros ?. by destruct (Hxp p).
    + rewrite !fn_lookup_insert_ne by done. intros Hj. by eapply Hsg, (wb_walks _ Hs).
  - intros j. rewrite Eco, Ev. destruct (decide (j = i)) as [->|].
    + rewrite !fn_lookup_insert. intros _. apply (covers_logs i (known v) (events (wb_mem s))); try done.
      by eapply covers_mono; [apply Hs|].
    + rewrite !fn_lookup_insert_ne by done. intros Hj. apply (covers_logs i (known v) (events (wb_mem s))); try done.
      by apply Hs.
  - destruct (wb_chains _ Hs) as (L & HL & HK). exists L. split.
    + eapply (chains_frame addr) with (s := erase_baton s) (i := i) (x := x); try done. intros [j|]; simpl; [|by f_equal].
      rewrite Eco. destruct (decide (j = i)) as [->|]; [|by rewrite fn_lookup_insert_ne].
      rewrite fn_lookup_insert. destruct x; try (by destruct (Hxp p)); destruct (wb_co s i) eqn:E; try done; symmetry; by apply Hp.
    + intros k j Hj. apply (covers_logs i (known v) (events (wb_mem s))); [done| |].
      * eapply covers_mono; [by apply HK|]. destruct k as [k|]; simpl; [apply Hmono|by rewrite Eh].
      * intros ->. exfalso. destruct HL as (_ & _ & _ & HLs). apply Hi. apply HLs. eauto.
  - done.
  - intros j K. destruct Hth as [->|[-> Hth]]; [by intros ?%(wb_done _ Hs); apply Hsg|].
    intros [?%(wb_done _ Hs)|Hj]%elem_of_app; [by apply Hsg|].
    apply list_elem_of_singleton in Hj. injection Hj as -> ->. by apply Hsg.
Qed.

(** ** Writes of the word *)

(** A releasing read-modify-write: the new message carries what its author and
    the last message know. *)
Lemma rmw_known o m v (l : baton_word) f a m' v' :
  releases o = true → rmw o m v l f = Some (a, m', v') →
  ∃ x b y, last (hist m l) = Some x ∧ a = m_val x ∧ f a = Some b ∧ m_val y = b ∧ latest m' l = b ∧ latest m l = a
    ∧ hist m' l = hist m l ++ [y] ∧ known (m_view y) = known v ∪ known (m_view x)
    ∧ known v' = (if acquires o then known v ∪ known (m_view x) else known v)
    ∧ events m' = events m ∧ raced m' = raced m.
Proof.
  intros Ho H. apply rmw_success in H as (x & b & Hx & Ea & Hf & Ev & Eh & Ee & Er & _).
  exists x, b, (mkMsg b (join (released o v' l (length (hist m l))) (m_view x))). pose proof (append_hist _ _ _ _ Eh l) as El. rewrite decide_True in El by done.
  assert (known v' = (if acquires o then known v ∪ known (m_view x) else known v)) as Ek by (rewrite Ev; by destruct (acquires o)).
  split_and!; try done.
  - by rewrite (append_latest _ _ _ _ Eh), decide_True.
  - rewrite <- Ea. by apply latest_last.
  - simpl. unfold released. rewrite Ho, Ek. destruct (acquires o); set_solver.
Qed.

Lemma cas_known o m v (l : baton_word) e d m' v' :
  cas o m v l e d = Some (m', v') →
  rmw o m v l (λ a, if a =? e then Some d else None) = Some (e, m', v').
Proof.
  unfold cas. destruct (rmw _ _ _ _ _) as [[[a m1] v1]|] eqn:E; [|done]. cbn. intros [= -> ->].
  apply rmw_success in E as E'. destruct E' as (x & b & _ & _ & Hf & _). by destruct (Z.eqb_spec a e) as [->|].
Qed.

(** What a write of the word by [i] keeps: everything said of messages, tests,
    walks and nodes of other coroutines. *)
Lemma wbinv_write s m v i x (y : msg baton_word) (sg : list (gset nat)) L :
  wbinv s → wb_co s i ≠ BSuspended →
  hist m WaitersWord = hist (wb_mem s) WaitersWord ++ [y] → events m = events (wb_mem s) → raced m = raced (wb_mem s) →
  known (wb_view s i) ⊆ known v → wb_signals s ⊆ sg →
  let s' := mkWb m (wb_nodes s) (wb_woken s) (<[i := x]> (wb_co s)) (<[i := v]> (wb_view s)) sg (wb_through s) in
  binv addr (erase_baton s') → (∀ old, x ≠ BTest old) → (∀ p, x = BChain p → signalled s' (known v)) →
  (flagged (m_val y) = true → signalled s' (known (m_view y))) →
  chains addr (erase_baton s') L → (∀ k j, j ∈ L k → covers (events (wb_mem s)) (holder s' k) j) → wbinv s'.
Proof.
  intros Hs Hi Eh Ee Er Hv Hsg s' Hb Hxt Hxp Hy HL HK.
  assert (∀ K, signalled s K → signalled s' K) as Hs' by (intros K HS; by eapply signalled_mono).
  split; simpl; try done.
  - intros j z Hz Hf. rewrite Eh in Hz. apply lookup_snoc_Some in Hz as [[_ Hz]|[_ <-]]; [by apply Hs', (wb_msgs _ Hs j)|by apply Hy].
  - intros j old. destruct (decide (j = i)) as [->|].
    + rewrite fn_lookup_insert. intros ?. by destruct (Hxt old).
    + rewrite !fn_lookup_insert_ne by done. intros Hj Hf. by eapply Hs', (wb_tests _ Hs).
  - intros j p. destruct (decide (j = i)) as [->|].
    + rewrite !fn_lookup_insert. apply Hxp.
    + rewrite !fn_lookup_insert_ne by done. intros Hj. by eapply Hs', (wb_walks _ Hs).
  - intros j. rewrite Ee. destruct (decide (j = i)) as [->|].
    + rewrite !fn_lookup_insert. intros _. by eapply covers_mono; [apply Hs|].
    + rewrite !fn_lookup_insert_ne by done. apply Hs.
  - exists L. split; [done|]. rewrite Ee. done.
  - rewrite Er. apply Hs.
  - intros j K HJ. by eapply Hs', (wb_done _ Hs).
Qed.

Lemma holder_write s s' y :
  hist (wb_mem s') WaitersWord = hist (wb_mem s) WaitersWord ++ [y] → holder s' None = known (m_view y).
Proof. intros E. unfold holder. rewrite E, last_snoc. done. Qed.

Lemma holder_last s x : last (hist (wb_mem s) WaitersWord) = Some x → holder s None = known (m_view x).
Proof. unfold holder. by intros ->. Qed.

Lemma wbinv_push s i old m v :
  wbinv s → wb_co s i = BCas old →
  cas release (wb_mem s) (wb_view s i) WaitersWord old (addr i) = Some (m, v) →
  wbinv (goto (put_mem s m) i BSuspended v).
Proof.
  intros Hs Hi H. apply cas_known in H.
  apply rmw_known in H as (x & b & y & Hx & Ea & Hf & Ey & El & El0 & Eh & Ky & Kv & Ee & Er); [|done].
  rewrite Z.eqb_refl in Hf. injection Hf as <-. simpl in Kv.
  destruct (wb_chains _ Hs) as (L & HL & HK).
  destruct (bi_link _ _ (wb_base _ Hs) i) as (n & Hn & Hh & Hc); [by simpl; rewrite Hi|].
  destruct (Hc old Hi) as [Hfl Hnx].
  set (s' := goto (put_mem s m) i BSuspended v).
  assert (erase_baton s' = with_co (with_word (erase_baton s) (addr i)) i BSuspended) as E.
  { unfold s', erase_baton, with_co, with_word. simpl. by rewrite El, El0, (addr_not_flagged addr), Hfl. }
  assert (∀ j, j ≠ i → holder s' (Some j) = holder s (Some j)) as Hot by (intros j ?; simpl; by rewrite fn_lookup_insert_ne).
  apply (wbinv_write s m v i BSuspended y (wb_signals s) (λ k, match k with None => i :: L None | _ => L k end));
    try done; rewrite ?Hi; try done.
  - by rewrite Kv.
  - change (binv addr (erase_baton s')). rewrite E. apply (binv_push addr _ _ old); [apply Hs|done|done].
  - by rewrite Ey, (addr_not_flagged addr).
  - match goal with |- chains addr _ ?K => change (chains addr (erase_baton s') K) end. rewrite E. by eapply (chains_push addr).
  - intros k0 j Hj. change (covers (events (wb_mem s)) (holder s' k0) j). destruct k0 as [k|].
    + destruct (decide (k = i)) as [->|]; [|by rewrite Hot by done; apply HK].
      destruct HL as (HLc & _). specialize (HLc (Some i)). simpl in HLc. rewrite Hi in HLc.
      apply (chain_null addr) in HLc. rewrite HLc in Hj. by apply not_elem_of_nil in Hj.
    + rewrite (holder_write s s' y Eh), Ky. apply elem_of_cons in Hj as [->|Hj].
      * eapply covers_mono; [apply (wb_own _ Hs); by rewrite Hi|set_solver].
      * eapply covers_mono; [by apply (HK None)|]. rewrite (holder_last s x Hx). set_solver.
Qed.

Lemma wbinv_take s i z a m v :
  wbinv s → wb_co s i = BIdle → clear_flag z = 0 → (flagged z = true → z = kPostedBit) →
  rmw acq_rel (wb_mem s) (wb_view s i) WaitersWord (λ _, Some z) = Some (a, m, v) →
  wbinv (goto (put_mem (signal s (wb_view s i)) m) i (BChain (clear_flag a)) v).
Proof.
  intros Hs Hi Hz Hzf H.
  apply rmw_known in H as (x & b & y & Hx & Ea & Hf & Ey & El & El0 & Eh & Ky & Kv & Ee & Er); [|done].
  injection Hf as <-. simpl in Kv. destruct (wb_chains _ Hs) as (L & HL & HK).
  set (s' := goto (put_mem (signal s (wb_view s i)) m) i (BChain (clear_flag a)) v).
  assert (erase_baton s' = with_co (with_posted (with_word (erase_baton s) z) (flagged z)) i (BChain (clear_flag (waiters_ (erase_baton s))))) as E.
  { unfold s', erase_baton, with_co, with_posted, with_word. simpl. by rewrite El, El0. }
  assert (∀ K, known (wb_view s i) ⊆ K → signalled s' K) as Hsig.
  { intros K HS. exists (known (wb_view s i)). split; [|done]. simpl. apply elem_of_app. right. by left. }
  apply (wbinv_write s m v i (BChain (clear_flag a)) y (wb_signals s ++ [known (wb_view s i)])
    (λ k, match k with None => [] | Some j => if decide (j = i) then L None else L (Some j) end));
    try done; rewrite ?Hi; try done.
  - rewrite Kv. set_solver.
  - simpl. set_solver.
  - change (binv addr (erase_baton s')). rewrite E. apply (binv_take addr); try done. apply Hs.
  - intros p _. apply Hsig. rewrite Kv. set_solver.
  - intros _. apply Hsig. rewrite Ky. set_solver.
  - match goal with |- chains addr _ ?K => change (chains addr (erase_baton s') K) end. rewrite E. by apply (chains_take addr).
  - intros [k|] j Hj; [|by apply not_elem_of_nil in Hj]. simpl. case_decide as Hk; simplify_eq.
    + rewrite fn_lookup_insert, Kv. eapply covers_mono; [by apply (HK None)|]. rewrite (holder_last s x Hx). set_solver.
    + rewrite fn_lookup_insert_ne by done. by apply (HK (Some k)).
Qed.

Lemma wbinv_reset s i old m v :
  wbinv s → wb_co s i = BResetCas old →
  cas acq_rel (wb_mem s) (wb_view s i) WaitersWord old (clear_flag old) = Some (m, v) →
  wbinv (goto (put_mem s m) i BIdle v).
Proof.
  intros Hs Hi H. apply cas_known in H.
  apply rmw_known in H as (x & b & y & Hx & Ea & Hf & Ey & El & El0 & Eh & Ky & Kv & Ee & Er); [|done].
  rewrite Z.eqb_refl in Hf. injection Hf as <-. simpl in Kv.
  destruct (wb_chains _ Hs) as (L & HL & HK).
  assert (old = kPostedBit) as Hold.
  { rewrite <- El0. apply (bi_word _ _ (wb_base _ Hs)). simpl. rewrite El0. by eapply (bi_reset _ _ (wb_base _ Hs) i). }
  rewrite Hold in *. set (s' := goto (put_mem s m) i BIdle v).
  apply (wbinv_write s m v i BIdle y (wb_signals s) L); try done; rewrite ?Hi; try done.
  - rewrite Kv. set_solver.
  - change (binv addr (erase_baton s')).
    eapply (binv_local addr) with (s := erase_baton s) (i := i) (x := BIdle); try done; try (by simpl; rewrite Hi).
    + apply Hs.
    + by left.
    + right. split; [exact El0|exact El].
    + apply (link_ok_none addr). simpl. by rewrite fn_lookup_insert.
  - by rewrite Ey.
  - match goal with |- chains addr _ ?K => change (chains addr (erase_baton s') K) end.
    eapply (chains_frame addr) with (s := erase_baton s) (i := i) (x := BIdle); try done; try (by simpl; rewrite Hi).
    + intros [j|]; simpl; [|by rewrite El, El0]. destruct (decide (j = i)) as [->|]; [by rewrite fn_lookup_insert, Hi|].
      by rewrite fn_lookup_insert_ne.
    + by left.
  - intros k j Hj. change (covers (events (wb_mem s)) (holder s' k) j). eapply covers_mono; [by apply HK|].
    destruct k as [k|].
    + simpl. destruct (decide (k = i)) as [->|]; [rewrite fn_lookup_insert, Kv; set_solver|by rewrite fn_lookup_insert_ne].
    + rewrite (holder_last s x Hx), (holder_write s s' y Eh), Ky. set_solver.
Qed.

(** The waiter at the head of a poster's chain, and those that remain. *)
Lemma chain_members b i p n L :
  chains addr b L → co b i = BChain p → p ≠ 0 → mem b !! p = Some n →
  n_handle n ∈ L (Some i) ∧
  ∀ k x, x ∈ (if decide (k = Some i) then tail (L k) else L k) → x ∈ L k ∧ x ≠ n_handle n.
Proof.
  intros (HLc & HLn & HLd & _) Hi Hp Hn. specialize (HLc (Some i)). simpl in HLc. rewrite Hi in HLc.
  apply (chain_head addr) in HLc as (j & l & n' & El & _ & Hn' & Hh & _); [|done].
  rewrite Hn in Hn'. injection Hn' as <-. rewrite Hh. specialize (HLn (Some i)). rewrite El in HLn.
  apply NoDup_cons in HLn as [Hjl _]. assert (j ∈ L (Some i)) as Hj by (rewrite El; left). split; [done|].
  intros k x Hx. case_decide as E.
  - subst k. rewrite El in *. simpl in Hx. split; [by right|]. by intros ->.
  - split; [done|]. intros ->. apply E. by eapply HLd.
Qed.

(** Waking a waiter reads its node, which the poster knows all accesses of, and
    hands them on to the waiter. *)
Lemma wbinv_resume s i p n :
  wbinv s → wb_co s i = BChain p → p ≠ 0 → wb_nodes s !! p = Some n →
  let t := touch (wb_mem s) (wb_view s i) false (node_cell (n_handle n)) 0 in
  let v := join (wb_view s (n_handle n)) t.2 in
  wbinv (goto (through (goto (put_wake (put_mem (put_nodes s (delete p (wb_nodes s))) t.1) (wake n))
           (n_handle n) BIdle v) (n_handle n) v) i (BChain (n_next n)) t.2).
Proof.
  intros Hs Hi Hp Hn t v. destruct (wb_chains _ Hs) as (L & HL & HK).
  destruct (chains_resume addr (erase_baton s) i p n L HL Hi Hp Hn) as (Ep & Hj & HL').
  simpl in Hj. set (j := n_handle n) in *. assert (j ≠ i) as Hne by congruence.
  destruct (chain_members (erase_baton s) i p n L HL Hi Hp Hn) as [Hin Hrest].
  pose proof (HK (Some i) j Hin) as Hcov. simpl in Hcov.
  destruct (touch_logs (wb_mem s) (wb_view s i) false (node_cell j) j (node_cell_inj j)) as [Hlog Hti]. fold t in Hlog, Hti.
  assert (known t.2 ⊆ known v) as Htv by set_solver.
  pose proof (wb_walks _ Hs i p Hi) as Hsg.
  split; simpl.
  - apply (binv_resume addr (erase_baton s) i p n); try done. apply Hs.
  - apply Hs.
  - intros k old. destruct (decide (k = i)) as [->|]; [by rewrite fn_lookup_insert|rewrite !fn_lookup_insert_ne by done].
    destruct (decide (k = j)) as [->|]; [by rewrite fn_lookup_insert|rewrite !fn_lookup_insert_ne by done]. apply Hs.
  - intros k q. destruct (decide (k = i)) as [->|].
    + rewrite !fn_lookup_insert. intros _. by eapply signalled_mono.
    + rewrite !fn_lookup_insert_ne by done.
      destruct (decide (k = j)) as [->|]; [by rewrite fn_lookup_insert|rewrite !fn_lookup_insert_ne by done]. apply Hs.
  - intros k Hk. apply (covers_logs j (known t.2) (events (wb_mem s))); [done| |].
    + destruct (decide (k = i)) as [->|].
      * rewrite fn_lookup_insert. eapply covers_mono; [apply (wb_own _ Hs); by rewrite Hi|done].
      * rewrite fn_lookup_insert_ne in Hk by done. rewrite fn_lookup_insert_ne by done. destruct (decide (k = j)) as [->|].
        -- rewrite fn_lookup_insert. eapply covers_mono; [done|set_solver].
        -- rewrite fn_lookup_insert_ne in Hk by done. rewrite fn_lookup_insert_ne by done. by apply Hs.
    + intros ->. rewrite fn_lookup_insert_ne, fn_lookup_insert by done. done.
  - eexists. split; [exact HL'|]. intros k x Hx.
    destruct (Hrest k x Hx) as [Hxk Hxj].
    apply (covers_logs j (known t.2) (events (wb_mem s))); [done| |done].
    eapply covers_mono; [by apply HK|]. destruct k as [k|]; simpl; [|done].
    destruct (decide (k = i)) as [->|]; [by rewrite fn_lookup_insert|rewrite fn_lookup_insert_ne by done].
    destruct (decide (k = j)) as [->|]; [rewrite fn_lookup_insert; set_solver|by rewrite fn_lookup_insert_ne].
  - change (raced t.1 = false). unfold t. rewrite touch_no_race; [apply Hs|]. intros e a He Hc _. by apply (Hcov e a).
  - intros k K [Hk|Hk]%elem_of_app; [by eapply (wb_done _ Hs)|]. apply list_elem_of_singleton in Hk.
    injection Hk as -> ->. eapply signalled_mono; [exact Hsg|done|set_solver].
Qed.

(** Steps of [i] that only move on and learn. *)
Lemma wbinv_goto s i x v :
  wbinv s → wb_co s i ≠ BSuspended → x ≠ BSuspended →
  (∀ p, wb_co s i = BChain p → p = 0) → (∀ p, x ≠ BChain p) → (∀ old, x ≠ BCas old) →
  (linking x = true → linking (wb_co s i) = true) → known (wb_view s i) ⊆ known v →
  (∀ old, x = BTest old → flagged old = true → signalled s (known v)) →
  (∀ old, x = BResetCas old → flagged old = true) →
  wbinv (goto s i x v) ∧ (signalled s (known v) → wbinv (through (goto s i x v) i v)).
Proof.
  intros Hs Hi Hx Hp Hxp Hxc Hlx Hv Ht Hr.
  assert (link_ok addr (erase_baton (goto s i x v)) i) as Hl.
  { unfold link_ok. simpl. rewrite fn_lookup_insert. intros Hl.
    destruct (bi_link _ _ (wb_base _ Hs) i (Hlx Hl)) as (n & ? & ? & _). exists n. split_and!; try done.
    intros old E. by destruct (Hxc old). }
  pose proof (wb_norace _ Hs). split.
  - eapply (wbinv_local s _ i x v); try done; by left.
  - intros HS. eapply (wbinv_local s _ i x v); try done; [by left|by left|by right].
Qed.

Lemma data_not_node d j : data_cell d = node_cell j → False.
Proof. unfold data_cell, node_cell. lia. Qed.

(** [await_suspend] fills its node and loads the word. *)
Lemma wbinv_suspend s i j wk rt a v :
  wbinv s → wb_co s i = BSuspend →
  let t := touch (wb_mem s) (wb_view s i) true (node_cell i) 0 in
  load acquire t.1 t.2 WaitersWord j = Some (a, v) →
  wbinv (goto (put_mem (put_nodes s (<[addr i := fill_node i wk rt]> (wb_nodes s))) t.1) i (BTest a) v).
Proof.
  intros Hs Hi t Hl.
  destruct (touch_logs (wb_mem s) (wb_view s i) true (node_cell i) i (node_cell_inj i)) as [Hlog Hk].
  apply load_known in Hl as (x & Hx & -> & Ev).
  eapply (wbinv_local s _ i (BTest (m_val x)) v); try done; rewrite ?Hi; try done.
  - rewrite Ev. set_solver.
  - right; left. by eexists.
  - destruct Hlog as [E|(e & E & Hin & He)]; [by left|]. right. exists e. split_and!; try done. rewrite Ev. set_solver.
  - apply own_access; [done|by rewrite Hi].
  - intros old [= <-] Hf. eapply signalled_mono; [by apply (wb_msgs _ Hs j x)|done|]. rewrite Ev. set_solver.
  - by left.
  - intros _. exists (fill_node i wk rt). simpl. rewrite lookup_insert_eq, fn_lookup_insert. done.
Qed.

(** The node is linked to the word that was read. *)
Lemma wbinv_link s i old n :
  wbinv s → wb_co s i = BTest old → flagged old = false → wb_nodes s !! addr i = Some n →
  let t := touch (wb_mem s) (wb_view s i) true (node_cell i) 0 in
  wbinv (goto (put_mem (put_nodes s (<[addr i := set_next n (clear_flag old)]> (wb_nodes s))) t.1) i (BCas old) t.2).
Proof.
  intros Hs Hi Hf Hn t.
  destruct (touch_logs (wb_mem s) (wb_view s i) true (node_cell i) i (node_cell_inj i)) as [Hlog Hk].
  destruct (bi_link _ _ (wb_base _ Hs) i) as (n' & Hn' & Hh & _); [by simpl; rewrite Hi|].
  simpl in Hn'. rewrite Hn in Hn'. injection Hn' as <-.
  eapply (wbinv_local s _ i (BCas old) t.2); try done; rewrite ?Hi; try done.
  - right; left. by eexists.
  - apply own_access; [done|by rewrite Hi].
  - by left.
  - intros _. eexists. simpl. rewrite lookup_insert_eq, fn_lookup_insert.
    split; [done|]. split; [done|]. by intros old' [= <-].
Qed.

Lemma wbaton_step_inv s s' : wbinv s → wbaton_step s s' → wbinv s'.
Proof.
  intros Hs [i H]. destruct H as
    [s w d Hi Ho a|s j Hi|s Hi|s j a v Hi Hl Hf|s j a v Hi Hl Hf|s j wk rt a v Hi t Hl|s old Hi Hf|s old n Hi Hf Hn t
    |s old m v Hi Hc|s old j a v Hi Hl|s a m v Hi Hc|s p n Hi Hp Hn t v|s Hi|s j a v Hi Hl|s old Hi Hf|s old Hi Hf
    |s old m v Hi Hc|s old j a v Hi Hl|s a m v Hi Hc];
    try (apply (load_signalled s i j a v (wb_mem s) Hs eq_refl) in Hl as [Hv Hsg]).
  - destruct (touch_logs (wb_mem s) (wb_view s i) w (data_cell d) i) as [Hlog Hk].
    { intros j E. by destruct (data_not_node d j). }
    eapply (wbinv_local s _ i BIdle a.2); try done; rewrite ?Hi; try done; [by left| |by left|].
    + change (raced (wb_mem s) || negb (ordered_from 0 (events (wb_mem s)) w (data_cell d) (wb_view s i)) = false).
      by rewrite Ho, (wb_norace _ Hs).
    + apply (link_ok_none addr). simpl. by rewrite fn_lookup_insert.
  - apply wbinv_goto; try done; rewrite ?Hi; try done. set_solver.
  - apply wbinv_goto; try done; by rewrite ?Hi.
  - apply wbinv_goto; try done; rewrite ?Hi; try done. by apply Hsg.
  - apply wbinv_goto; try done; by rewrite ?Hi.
  - by eapply wbinv_suspend.
  - eapply (wbinv_local s _ i BIdle (wb_view s i)); try done; rewrite ?Hi; try done.
    + by right; right.
    + by left.
    + apply Hs.
    + right. split; [done|]. by eapply (wb_tests _ Hs).
    + apply (link_ok_none addr). simpl. by rewrite fn_lookup_insert.
  - by apply wbinv_link.
  - by eapply wbinv_push.
  - apply wbinv_goto; try done; rewrite ?Hi; try done. intros ? [= <-]. done.
  - by eapply (wbinv_take s i kPostedBit).
  - by apply (wbinv_resume s i p n).
  - apply wbinv_goto; try done; rewrite ?Hi; try done. by intros p [= <-].
  - apply wbinv_goto; try done; by rewrite ?Hi.
  - apply wbinv_goto; try done; by rewrite ?Hi.
  - apply wbinv_goto; try done; rewrite ?Hi; try done. by intros ? [= <-].
  - by eapply wbinv_reset.
  - apply wbinv_goto; try done; by rewrite ?Hi.
  - by eapply (wbinv_take s i 0).
Qed.

Lemma wbaton_reachable_inv s : wbaton_reachable s → wbinv s.
Proof.
  apply steps_invariant; [|apply wbaton_step_inv]. split; simpl; try done.
  - apply (baton_reachable_inv addr). apply steps_refl.
  - intros j x Hx. by apply list_lookup_singleton_Some in Hx as [_ <-].
  - exists (λ _, []). split; [|intros k i Hi; by apply not_elem_of_nil in Hi]. split; [|split_and!]; try done.
    + by intros [j|].
    + intros k; constructor.
    + intros k k' i H. by apply not_elem_of_nil in H.
    + intros i. simpl. split; [done|]. intros [? H]. by apply not_elem_of_nil in H.
  - intros i K H. by apply not_elem_of_nil in H.
Qed.
End Machine.

(** C5: the baton under its memory orders, with any number of coroutines that
    await, post, reset and destroy it while they also access data of their own:
    no access to a waiter node races, and every [co_await] that has returned is
    ordered after a post (or the destruction): all accesses that happen before
    that post happen before the continuation of the [co_await]. *)
Theorem baton_synchronises (addr : nat → Z) (s : wbaton) :
  Layout addr → wbaton_reachable addr s →
  raced (wb_mem s) = false
  ∧ ∀ i K, (i, K) ∈ wb_through s → ∃ p, p ∈ wb_signals s ∧ p ⊆ K.
Proof. intros LY H. apply (wbaton_reachable_inv addr) in H. split; [apply H|]. intros i K. apply (wb_done _ _ H). Qed.

(** One scheduled step; the arguments pick the message a load returns, the
    node's contents or the data accessed. *)
Inductive wbchoice :=
| Data (w : bool) (d : nat) | Sync (j : nat) | Await | Read (j : nat) | Fill (j : nat) (worker_id : Z) (route : RouteFunc)
| Go | Post | Reset (j : nat) | Destroy.

Definition wbaton_play (addr : nat → Z) (s : wbaton) (x : nat * wbchoice) : option wbaton :=
  let i := x.1 in let m := wb_mem s in let v := wb_view s i in
  match wb_co s i, x.2 with
  | BIdle, Data w d =>
      let a := touch m v w (data_cell d) 0 in
      if ordered_from 0 (events m) w (data_cell d) v then Some (goto (put_mem s a.1) i BIdle a.2) else None
  | BIdle, Sync j => Some (goto s i BIdle (join v (wb_view s j)))
  | BIdle, Await => Some (goto s i BReady v)
  | BReady, Read j =>
      r ← load acquire m v WaitersWord j;
      Some (if flagged r.1 then through (goto s i BIdle r.2) i r.2 else goto s i BSuspend r.2)
  | BSuspend, Fill j worker_id route =>
      let t := touch m v true (node_cell i) 0 in
      r ← load acquire t.1 t.2 WaitersWord j;
      Some (goto (put_mem (put_nodes s (<[addr i := fill_node i worker_id route]> (wb_nodes s))) t.1) i (BTest r.1) r.2)
  | BTest old, Go =>
      if flagged old then Some (through (goto (put_nodes s (delete (addr i) (wb_nodes s))) i BIdle v) i v) else
      n ← wb_nodes s !! addr i;
      let t := touch m v true (node_cell i) 0 in
      Some (goto (put_mem (put_nodes s (<[addr i := set_next n (clear_flag old)]> (wb_nodes s))) t.1) i (BCas old) t.2)
  | BCas old, Go =>
      r ← cas release m v WaitersWord old (addr i); Some (goto (put_mem s r.1) i BSuspended r.2)
  | BCas _, Read j => r ← load acquire m v WaitersWord j; Some (goto s i (BTest r.1) r.2)
  | BIdle, Post =>
      r ← rmw acq_rel m v WaitersWord (λ _, Some kPostedBit);
      Some (goto (put_mem (signal s v) r.1.2) i (BChain (clear_flag r.1.1)) r.2)
  | BChain p, Go =>
      if p =? 0 then Some (goto s i BIdle v) else
      n ← wb_nodes s !! p;
      let t := touch m v false (node_cell (n_handle n)) 0 in
      let v' := join (wb_view s (n_handle n)) t.2 in
      Some (goto (through (goto (put_wake (put_mem (put_nodes s (delete p (wb_nodes s))) t.1) (wake n))
              (n_handle n) BIdle v') (n_handle n) v') i (BChain (n_next n)) t.2)
  | BIdle, Reset j | BResetCas _, Read j => r ← load acquire m v WaitersWord j; Some (goto s i (BResetTest r.1) r.2)
  | BResetTest old, Go => Some (goto s i (if flagged old then BResetCas old else BIdle) v)
  | BResetCas old, Go =>
      r ← cas acq_rel m v WaitersWord old (clear_flag old); Some (goto (put_mem s r.1) i BIdle r.2)
  | BIdle, Destroy =>
      r ← rmw acq_rel m v WaitersWord (λ _, Some 0);
      Some (goto (put_mem (signal s v) r.1.2) i (BChain (clear_flag r.1.1)) r.2)
  | _, _ => None
  end.

Lemma wbaton_play_step addr s x s' : wbaton_play addr s x = Some s' → wbaton_step addr s s'.
Proof.
  destruct x as [i c]. unfold wbaton_play. cbn [fst snd]. intros H. exists i.
  destruct (wb_co s i) as [| | |old|old| |p|old|old] eqn:Ec; destruct c; try done;
    repeat (cbn [fst snd mbind option_bind] in H; match type of H with
    | context [load ?o ?m ?v ?l ?j] => destruct (load o m v l j) as [[??]|] eqn:?; [|done]
    | context [cas ?o ?m ?v ?l ?a ?b] => destruct (cas o m v l a b) as [[??]|] eqn:?; [|done]
    | context [rmw ?o ?m ?v ?l ?f] => destruct (rmw o m v l f) as [[[??]?]|] eqn:?; [|done]
    | context [wb_nodes s !! ?a] => destruct (wb_nodes s !! a) eqn:?; [|done]
    | context [if ordered_from ?a ?b ?c ?d ?e then _ else _] => destruct (ordered_from a b c d e) eqn:?; [|done]
    | context [if flagged ?a then _ else _] => destruct (flagged a) eqn:?
    | context [Z.eqb p 0] => destruct (Z.eqb_spec p 0); subst
    end); cbn [fst snd mbind option_bind] in H; apply (inj Some) in H as <-.
  1: by apply (w_data addr i s w d).
  all: first [by eapply (w_sync addr i s)|by eapply (w_await addr i s)|by eapply (w_is_ready addr i s)
    |by eapply (w_not_ready addr i s)|by eapply (w_suspend addr i s)|by eapply (w_already_posted addr i s)
    |by eapply (w_link addr i s)|by eapply (w_cas_ok addr i s)|by eapply (w_cas_fail addr i s)
    |by eapply (w_post addr i s)|by eapply (w_resume addr i s)|by eapply (w_chain_done addr i s)
    |by eapply (w_reset addr i s)|by eapply (w_reset_done addr i s)|by eapply (w_reset_go addr i s)
    |by eapply (w_reset_ok addr i s)|by eapply (w_reset_fail addr i s)|by eapply (w_destroy addr i s)].
Qed.

(** Coroutine 1 waits; 0 writes data, posts and wakes it; 1 reads the data. *)
Definition baton_message : list (nat * wbchoice) :=
  [(1%nat, Await); (1%nat, Read 0); (1%nat, Fill 0 7 None); (1%nat, Go); (1%nat, Go);
   (0%nat, Data true 0); (0%nat, Post); (0%nat, Go); (0%nat, Go); (1%nat, Data false 0)].

Lemma baton_message_run :
  ∃ s, wbaton_reachable addr64 s ∧ wb_through s !! 0%nat = Some (1%nat, {[0%nat; 1%nat; 2%nat; 3%nat]})
    ∧ length (events (wb_mem s)) = 5%nat.
Proof.
  destruct (play (wbaton_play addr64) wbaton_init baton_message) as [s|] eqn:E; [|by vm_compute in E].
  exists s. split; [eapply play_steps; [apply wbaton_play_step|exact E]|].
  vm_compute in E. injection E as <-. by vm_compute.
Qed.

Lemma baton_synchronises_witness :
  ∃ s, wbaton_reachable addr64 s ∧ raced (wb_mem s) = false
    ∧ ∃ p : gset nat, p ∈ wb_signals s ∧ p ⊆ {[0%nat; 1%nat; 2%nat; 3%nat]}.
Proof.
  destruct baton_message_run as (s & Hr & Ht & _). exists s. split; [exact Hr|].
  destruct (baton_synchronises addr64 s _ Hr) as [H1 H2]. split; [exact H1|].
  apply (H2 1%nat). exact (list_elem_of_lookup_2 _ _ _ Ht).
Defined.
