(* ===== verification/SemaphoreWeak.v ===== *)
(** [AffinitySemaphore] under its memory orders ([affinity_semaphore.h]).

    [count_] and [waiters_] live in the memory of [RelAcq], the fields of a
    waiter node are plain memory.  [release] loads [waiters_] with acquire and
    reads the node it finds; when its compare-and-swap fails it goes on with the
    value it reloaded, in the order [reload_order], which is [relaxed] in the
    source, and reads that node. *)
From S2P Require Import Prelude Waiters RelAcq Semaphore.

Inductive sem_word := SemWaiters | SemCount.

#[export] Instance sem_word_eq_dec : EqDecision sem_word.
Proof. solve_decision. Defined.

Record wsem := mkWs {
  zm : mem sem_word;
  znodes : gmap nat WaiterNode;              (* the node of each waiting coroutine *)
  zwoken : list Wake;
  zco : gmap nat (sstate * view sem_word)
}.

Inductive zchoice := Read (j : nat) | Fill (j : nat) (worker_id : Z) (route : RouteFunc) | Go.

(** The node of coroutine [i] is at [addr64 i]. *)
Definition owner_of (a : Z) : nat := Z.to_nat (a / 64 - 1).

Section Machine.
Context (reload_order : order).

(** [try_acquire] with [expected = e], not 0: go to [ok] or, on failure, to [again]
    with the count that was read. *)
Definition try_cas (s : wsem) (v : view sem_word) (c : zchoice) (e : Z) (ok : sstate) (again : Z → sstate) :
    option (mem sem_word * sstate * view sem_word) :=
  if e =? 0 then None else
  match c with
  | Go => r ← cas acq_rel (zm s) v SemCount e (e - 1); Some (r.1, ok, r.2)
  | Read j => r ← load relaxed (zm s) v SemCount j; Some (zm s, again r.1, r.2)
  | _ => None
  end.

(** [acquire]: [await_ready] and [await_suspend]. *)
Definition acquire_step (s : wsem) (i : nat) (t : sstate) (v : view sem_word) (c : zchoice) :
    option (mem sem_word * gmap nat WaiterNode * sstate * view sem_word) :=
  match t, c with
  | SIdle, Read j => r ← load acquire (zm s) v SemCount j; Some (zm s, znodes s, STry r.1, r.2)
  | STry 0, Go => Some (zm s, znodes s, SSuspend, v)
  | STry e, _ => r ← try_cas s v c e SIdle STry; Some (r.1.1, znodes s, r.1.2, r.2)
  | SSuspend, Fill j worker_id route =>
      let a := touch (zm s) v true i 0 in
      r ← load acquire a.1 a.2 SemWaiters j;
      Some (a.1, <[i := mkNode i worker_id route 0]> (znodes s), SLoop r.1, r.2)
  | SLoop old, Read j => r ← load acquire (zm s) v SemCount j; Some (zm s, znodes s, SRetry old r.1, r.2)
  | SRetry old 0, Go =>
      n ← znodes s !! i;
      let a := touch (zm s) v true i 0 in Some (a.1, <[i := set_next n old]> (znodes s), SPush old, a.2)
  | SRetry old e, _ =>
      r ← try_cas s v c e SIdle (SRetry old);
      Some (r.1.1, (if c is Go then delete i (znodes s) else znodes s), r.1.2, r.2)
  | SPush old, Go =>
      r ← cas release (zm s) v SemWaiters old (addr64 i); Some (r.1, znodes s, SSuspended, r.2)
  | SPush old, Read j => r ← load acquire (zm s) v SemWaiters j; Some (zm s, znodes s, SLoop r.1, r.2)
  | _, _ => None
  end.

(** [release], up to the compare-and-swap that takes a waiter off. *)
Definition release_step (s : wsem) (t : sstate) (v : view sem_word) (c : zchoice) :
    option (mem sem_word * gmap nat WaiterNode * sstate * view sem_word) :=
  match t, c with
  | SIdle, Go =>
      r ← rmw release (zm s) v SemCount (λ a, Some (a +64 1)); Some (r.1.2, znodes s, SRelease, r.2)
  | SRelease, Read j => r ← load acquire (zm s) v SemWaiters j; Some (zm s, znodes s, SPop r.1, r.2)
  | SPop 0, Go => Some (zm s, znodes s, SIdle, v)
  | SPop old, Go =>
      n ← znodes s !! owner_of old;
      let a := touch (zm s) v false (owner_of old) 0 in Some (a.1, znodes s, SPopCas old (n_next n), a.2)
  | SPopCas old next, Read j =>
      r ← load reload_order (zm s) v SemWaiters j; Some (zm s, znodes s, SPop r.1, r.2)
  | _, _ => None
  end.

(** One step of coroutine [i].  The compare-and-swap that takes a waiter off
    reads the rest of its node and hands the coroutine over, which synchronises
    with it. *)
Definition wsem_play (s : wsem) (x : nat * zchoice) : option wsem :=
  p ← zco s !! x.1;
  match acquire_step s x.1 p.1 p.2 x.2, release_step s p.1 p.2 x.2, p.1 with
  | Some (m, nd, t, v), _, _ | None, Some (m, nd, t, v), _ =>
      Some (mkWs m nd (zwoken s) (<[x.1 := (t, v)]> (zco s)))
  | None, None, SPopCas old next =>
      if x.2 is Go then
        r ← cas acquire (zm s) p.2 SemWaiters old next;
        n ← znodes s !! owner_of old;
        let a := touch r.1 r.2 false (owner_of old) 0 in
        q ← zco s !! n_handle n;
        Some (mkWs a.1 (delete (owner_of old) (znodes s)) (zwoken s ++ [wake n])
                (<[n_handle n := (SIdle, join q.2 a.2)]> (<[x.1 := (SIdle, a.2)]> (zco s))))
      else None
  | _, _, _ => None
  end.

Definition wsem_step (s s' : wsem) : Prop := ∃ x, wsem_play s x = Some s'.
End Machine.

(** A semaphore with count [c] and coroutines [0 .. n - 1]. *)
Definition wsem_init (c : Z) (n : nat) : wsem :=
  mkWs (mem_at (λ l, if l is SemCount then c else 0)) ∅ []
    (list_to_map ((λ i, (i, (SIdle, bottom))) <$> seq 0 n)).

Definition wsem_reachable (o : order) (c : Z) (n : nat) (s : wsem) : Prop :=
  steps (wsem_step o) (wsem_init c n) s.

(** Coroutine [i] finds the count at message [k] to be 0 and pushes itself over
    message [j] of the waiters. *)
Definition enqueue_waiter (i j k : nat) : list (nat * zchoice) :=
  [(i, Read k); (i, Go); (i, Fill j 0 None); (i, Read k); (i, Go); (i, Go)].

(** Coroutine 0 takes the only permit and 1 queues up; while 0 releases, 2
    queues up too, between the read of the head and its removal.  (1 and 2 read
    a count from before the release.) *)
Definition overtaken_release : list (nat * zchoice) :=
  [(0%nat, Read 0); (0%nat, Go)] ++ enqueue_waiter 1 0 1
  ++ [(0%nat, Go); (0%nat, Read 1); (0%nat, Go)] ++ enqueue_waiter 2 1 1
  ++ [(0%nat, Read 2); (0%nat, Go); (0%nat, Go)].

(** When another coroutine queues up while [release] is about to take a waiter
    off, [release] reads the new waiter's node without having synchronised with
    it: a data race as written, and none with an acquiring reload.  Either way
    the waiter on top is woken. *)
Theorem semaphore_reload_races :
  (∃ s, wsem_reachable relaxed 1 3 s ∧ raced (zm s) = true ∧ zwoken s = [Inline 2])
  ∧ (∃ s, wsem_reachable acquire 1 3 s ∧ raced (zm s) = false ∧ zwoken s = [Inline 2]).
Proof.
  split.
  - destruct (play (wsem_play relaxed) (wsem_init 1 3) overtaken_release) as [s|] eqn:E; [|by vm_compute in E].
    exists s. split; [eapply play_steps; [|exact E]; intros a c b Hc; by exists c|].
    vm_compute in E. by injection E as <-.
  - destruct (play (wsem_play acquire) (wsem_init 1 3) overtaken_release) as [s|] eqn:E; [|by vm_compute in E].
    exists s. split; [eapply play_steps; [|exact E]; intros a c b Hc; by exists c|].
    vm_compute in E. by injection E as <-.
Qed.
